(* ===== verification/_CoqProject ===== *)
-Q . S2P
Prelude.v
GoNet.v
GoNetFacts.v
Conn.v
Socks5Wire.v
Socks5WireFacts.v
SocksH2.v
SocksH2Facts.v
SocksH3.v
SocksH3Facts.v
Relay.v
RelayFacts.v
Session.v
SessionFacts.v
UdpRelay.v
UdpRelayFacts.v
Dns.v
DnsFacts.v
Masque.v
MasqueFacts.v
Doh.v
DohFacts.v
H2Client.v
H2ClientFacts.v
H2Packets.v
H2PacketsFacts.v
Main.v
MainFacts.v
Server.v
ServerFacts.v
GoText.v
Json.v
JsonFacts.v
JsonFuel.v
JsonStrings.v
JsonDecode.v
JsonDecodeFacts.v
Registration.v
RegistrationFacts.v
RegistrationSamples.v
RegistrationSpec.v
Startup.v
StartupFacts.v
CommandLine.v
CommandLineFacts.v
H2Setup.v
H2SetupFacts.v
Edge.v
EdgeFacts.v
H2Link.v
SelfTest.v
SelfTestFacts.v
