(* ===== verification/Prelude.v ===== *)
(** * warp-go: a verification development (root file)

    The program is a SOCKS5 proxy that carries its clients' traffic to Cloudflare's
    WARP edge over MASQUE.  It has two back ends: H3 (src/tunnel/masque.go), plain
    CONNECT streams over one QUIC connection, and H2 (src/tunnel/h2.go), CONNECT-IP
    over one HTTP/2 connection with a userspace network stack.  This development
    models the Go code under src/ in Rocq and proves what makes it correct.

    ** Parts and files

    Each component has a file of definitions, translated from the source, and a file
    [...Facts] of theorems about them.  A client's theorems are proved against a class
    where one component promises something to another: [SocksH3.Resolver] is what the
    H3 front end needs of name resolution, and [DnsFacts.doh_resolver] the instance
    DNS over HTTPS gives; [UdpRelay.UDPBackend] is what the UDP loops need of a back
    end, with the instances [h3_backend] and [h2_backend].  [Registration.Crypto] is the
    class of what keys and certificates promise, with the encoders' contracts as laws.

    - [Prelude] (this file): bytes and 16-bit integers, Go strings, [outcome] -- a Go
      call returns a value, returns an [error], or panics -- slices and indices that
      panic out of range, resources acquired and given back, transition systems, and
      the tactics the files share.
    - [GoNet], [GoNetFacts]: the functions of [strconv], [net] and [net/netip] the
      program formats and parses addresses with, and their round trips.
    - [Conn]: a client connection as a handler sees it (segments that arrive, writes
      that may fail, a trace of what it did), a small monad with early return and
      panic, and the lemmas on segmentation shared by the front ends.
    - [Socks5Wire], [Socks5WireFacts]: the byte formats of SOCKS5 requests, replies
      and UDP frames ([parseSOCKS5Addr], [parseUDPRequest], [appendUDPReply]).
    - [SocksH2], [SocksH2Facts]: [H2Client.HandleSOCKS5] (h2_socks.go) up to the relay.
    - [SocksH3], [SocksH3Facts]: [MasqueClient.HandleSOCKS5] (masque.go) up to the relay.
    - [Relay], [RelayFacts]: the two relays that follow, as transition systems over
      their two copying goroutines, the monitor and the peers (Modules [H3], [H2]).
      Reads wait for data and writes for the other side's window ([room]).
    - [Session], [SessionFacts]: a handler and the relay it ends in, as one.
    - [UdpRelay], [UdpRelayFacts]: UDP associations on both back ends (udp.go,
      h2_udp.go): the loops over their sockets and the peer, target resolution, set-up.
    - [Dns], [DnsFacts]: [resolveDNS], its cache, its retry, the two concurrent
      questions, the answer parser, and the single flight (masque.go).
    - [Masque], [MasqueFacts]: dialling the edge, and the H3 client's shared
      connection: goroutines in [openRequestStream] and [reconnect], and [Close]
      (Module [Client]).
    - [Doh], [DohFacts]: the shared DoH connection: [dohConnection], [liveDoH],
      [invalidateDoH] and [Close] (Module [Slot]).
    - [H2Client], [H2ClientFacts]: the HTTP/2 client: [outboundPump], [maintain] with
      [inboundPump] and [keepalive], and [Close] (h2.go).
    - [H2Packets], [H2PacketsFacts]: the packets those two pumps carry, over the buffer
      they are read into and sent from.
    - [H2Setup], [H2SetupFacts]: how that client comes to be: [parseAssignedAddress],
      [dialAddr] ([h2_dialAddr]) and [NewH2ClientContext] with what they acquire and give back (h2.go).
    - [H2Link]: the abstract specification of the HTTP/2 client -- a link that is up on
      a numbered connection, down, or shut, with at most one packet under way (Module
      [Link]) -- and the simulation that shows [H2Client] refines it.
    - [Edge], [EdgeFacts]: which servers the program talks to: the TLS configurations of
      main.go, h2.go and masque.go, the client's side of the handshake, and the
      connections that depend on it ([NewMasqueClientContext], [newH2Client], [dialDoH]).
    - [Main], [MainFacts]: the command (src/main.go): edge candidates, what one
      invocation does, the accept loop.
    - [Server], [ServerFacts]: the command once it serves: [main], the goroutine that
      waits for a signal, the self-test goroutine and the handlers.
    - [SelfTest], [SelfTestFacts]: the command's self-test (src/main.go).
    - [GoText]: [strings.TrimSpace], [strings.Trim] and [base64.StdEncoding].
    - [Json]: JSON text as [encoding/json] writes and reads it; [JsonFacts]: what is
      written is read back; [JsonFuel]: the parser's fuel is enough; [JsonStrings]:
      strings that were read are valid UTF-8.  [JsonDecode], [JsonDecodeFacts]: decoding
      into Go types, and the properties decoders preserve.
    - [Registration], [RegistrationFacts], [RegistrationSpec]: the registration
      (src/registration/registration.go): [Register]'s two calls, [Save] and [Load],
      [DeleteRegistration], [PeerPublicKeyVerifier]; [RegistrationSamples]: a concrete
      registration for witnesses.
    - [Startup], [StartupFacts]: [main] with its calls into the registration package
      filled in: an invocation as a function of the state file.
    - [CommandLine], [CommandLineFacts]: [main] from [os.Args] on: its flags, read as the
      [flag] package reads them, and what they lead to.

    ** State and operations

    Sequential code is a pure function or a program of [Conn]'s monad; a read, a
    write, a dial or an error return of the source is one there.  Concurrent code is a
    transition system: the record holds the fields the goroutines share, with a
    program counter per goroutine, and one step is one critical section, one channel
    operation or one call that can block, so every interleaving the locks allow is a
    run.  A step is a partial function of a label -- which goroutine, and how its call
    turns out -- so runs can be computed.  Mutexes appear where they are held across
    steps ([reconnectMu]); [sync.Once] and channels are fields.  Objects of third-party
    code (connections, streams) are numbers with what the program can see of them.

    ** What the theorems show

    - Security: no dial, stream, relay or association without the configured
      credentials, on either back end; a UDP association serves one peer only; a tunnel
      ends at the edge the registration pins, a DoH connection at cloudflare-dns.com.
    - Function: each parser accepts exactly the well-formed inputs and returns what
      they denote; a CONNECT session ends in the relay to the requested target or in an
      error reply; DNS answers are the first of their family, with A preferred and the
      TTL in range; candidates are rotated; the accept loop backs off.
    - Ownership: every QUIC, HTTP/2 and DoH connection, stream and socket has one
      owner and is closed once, on every path; the exceptions that the code allows are
      stated as such ([DohFacts.doh_connections_accounted], and the CONNECT-IP
      connection that comes late in [H2SetupFacts.h2_setup_accounts]).
    - Progress: reconnects, lookups and [Close] end: for each, a measure that every step
      lowers and the enabled step in every state that is not final.  The relays end too,
      unless they are left in a write to a peer that takes nothing; the theorems say in
      which states that can happen ([RelayFacts.h3_relay_ends],
      [RelayFacts.h2_relay_ends]).
    - Failure: which requests make a parser panic; what ends a UDP association, and that
      every socket is closed then; what each way out of the H2 set-up gives back.
    - The registration: what [Register] or [Load] returns is well formed and survives
      the file; the edge is pinned to the key the API gave, and a malformed key never
      turns the pin off; a credential leaves the disk only by [-del], which asks the API
      first and needs no key.
    - Sessions: from the first byte of a client to the end of its relay, what reaches the
      target is what the client sent after its request, in order: all of it unless the
      target ends first, the context is cancelled or a write fails.
    - The command: the command line decides all that happens, a signal always ends the
      serving command, and nothing else does.
    - Refinement: the HTTP/2 client's goroutines refine the link of [H2Link], the serving
      command's the sequential [Main.acceptLoop], round by round.

    ** Bounds and fuel

    Recursion is structural, with these exceptions.  [fmt_dec] takes one unit of fuel
    per decimal digit and gets one more than the binary logarithm; [v6_loop] and
    [fmt6_loop] take one per group and get the eight there can be;
    [h2_dial_loop] and [dial_loop] take one per candidate and get their number;
    [attempts] the two of the source; [parse_loop] takes one per argument and gets one
    more than there are.  [trim_front] takes one per code point stripped and
    gets the length; [escape_string] and [parse_string] one per character, and get the
    length and one more; [parse_value] one per call, and gets two per character
    ([JsonFuel.parse_json_fuel]: more makes no difference).  Integers are [Z]; where the
    source computes at a width it is written out ([uint16], [int64], [be16]).  Copies are
    modelled without the size of their buffer: a segment is read whole, and written as
    far as the window goes or until the write fails.  The closes of one [shutdown] of a
    UDP association, and [invalidateDoH] with the close that follows it, are one step.

    ** Not modelled

    The usage text, log output, and the texts of error messages; the tables of
    characters outside ASCII (the class [CommandLine.UnicodeCase]) and the
    verification of certificate chains; the values of
    timeouts, except where they are compared or computed with: a timeout is a step
    that may happen at any time.  Third-party code -- QUIC, HTTP/2 and HTTP/3, DNS
    message packing, CONNECT-IP, the userspace stack -- keys, certificates and their
    DER and PEM encodings, the WARP API, the file system and the system's resolver are
    parameters, or choices of the environment in the transition systems. *)

From Stdlib Require Export ZArith Lia.
From Stdlib Require Import Init.Byte Strings.Byte.
From Stdlib Require String.
Export Stdlib.Strings.String.StringSyntax.
From stdpp Require Export base tactics list gmap option numbers relations.

(** ** Bytes *)

Notation byte := Init.Byte.byte.

#[export] Instance byte_eq_dec : EqDecision byte := Byte.byte_eq_dec.

#[export] Program Instance byte_countable : Countable byte :=
  inj_countable Byte.to_N Byte.of_N _.
Next Obligation. exact Byte.of_to_N. Qed.

(** [int(b)] for a byte [b], and the conversion [byte(z)], which keeps the low
    eight bits. *)
Definition b2z (b : byte) : Z := Z.of_N (Byte.to_N b).

Definition z2b (z : Z) : byte := default x00 (Byte.of_N (Z.to_N (z mod 256))).

Lemma b2z_range b : (0 <= b2z b < 256)%Z.
Proof. unfold b2z. pose proof (Byte.to_N_bounded b). lia. Qed.

Lemma b2z_inj b1 b2 : b2z b1 = b2z b2 → b1 = b2.
Proof.
  unfold b2z. intros H%N2Z.inj.
  pose proof (Byte.of_to_N b1). pose proof (Byte.of_to_N b2). congruence.
Qed.

Lemma z2b_b2z b : z2b (b2z b) = b.
Proof.
  unfold z2b. rewrite Z.mod_small by apply b2z_range.
  unfold b2z. by rewrite N2Z.id, Byte.of_to_N.
Qed.

Lemma b2z_z2b z : b2z (z2b z) = (z mod 256)%Z.
Proof.
  unfold z2b. pose proof (Z.mod_pos_bound z 256 ltac:(lia)) as Hb.
  destruct (Byte.of_N (Z.to_N (z mod 256))) eqn:E; simpl.
  - apply Byte.to_of_N in E. unfold b2z. rewrite E. lia.
  - apply Byte.of_N_None_iff in E. lia.
Qed.

Lemma b2z_z2b_small z : (0 <= z < 256)%Z → b2z (z2b z) = z.
Proof. intros H. rewrite b2z_z2b. by apply Z.mod_small. Qed.

(** The 16-bit big-endian layout: [int(hi)<<8 | int(lo)] and
    [binary.BigEndian.AppendUint16(_, uint16(z))]. *)
Definition be16 (hi lo : byte) : Z := Z.lor (Z.shiftl (b2z hi) 8) (b2z lo).

Definition uint16 (z : Z) : Z := z mod 65536.

Definition put16 (z : Z) : list byte :=
  [z2b (Z.shiftr (uint16 z) 8); z2b (uint16 z)].

Lemma lor_shiftl_add a b : (0 <= b < 256)%Z → Z.lor (Z.shiftl a 8) b = (a * 256 + b)%Z.
Proof.
  intros Hb.
  assert (Hl : Z.land (Z.shiftl a 8) b = 0%Z).
  { apply Z.bits_inj'. intros n Hn. rewrite Z.land_spec, Z.bits_0.
    destruct (decide (n < 8)%Z) as [Hn8|Hn8].
    - by rewrite Z.shiftl_spec_low.
    - rewrite (Z.bits_above_log2 b n), andb_false_r; [done|lia|].
      destruct (decide (b = 0)%Z) as [->|]; [simpl; lia|].
      assert (Z.log2 b < 8)%Z by (apply Z.log2_lt_pow2; lia). lia. }
  rewrite <- Z.lxor_lor, <- Z.add_nocarry_lxor by done.
  rewrite Z.shiftl_mul_pow2 by lia. done.
Qed.

Lemma be16_eq hi lo : be16 hi lo = (b2z hi * 256 + b2z lo)%Z.
Proof. apply lor_shiftl_add, b2z_range. Qed.

Lemma be16_range hi lo : (0 <= be16 hi lo < 65536)%Z.
Proof. rewrite be16_eq. pose proof (b2z_range hi). pose proof (b2z_range lo). lia. Qed.

Lemma put16_be16 hi lo : put16 (be16 hi lo) = [hi; lo].
Proof.
  unfold put16, uint16. rewrite (Z.mod_small (be16 hi lo)) by apply be16_range.
  rewrite be16_eq, Z.shiftr_div_pow2 by lia.
  pose proof (b2z_range hi). pose proof (b2z_range lo).
  f_equal; [|f_equal]; apply b2z_inj; rewrite b2z_z2b.
  - change (2 ^ 8)%Z with 256%Z. rewrite Z.div_add_l, (Z.div_small (b2z lo)) by lia.
    rewrite Z.mod_small; lia.
  - rewrite Z.add_comm, Z.mod_add, Z.mod_small; lia.
Qed.

Lemma be16_put16 z :
  (0 <= z < 65536)%Z →
  ∃ hi lo, put16 z = [hi; lo] ∧ be16 hi lo = z.
Proof.
  intros Hz. unfold put16, uint16. rewrite (Z.mod_small z) by lia.
  eexists _, _; split; [done|]. rewrite be16_eq, !b2z_z2b, Z.shiftr_div_pow2 by lia.
  change (2 ^ 8)%Z with 256%Z.
  rewrite (Z.mod_small (z / 256)) by (split; [apply Z.div_pos|apply Z.div_lt_upper_bound]; lia).
  rewrite Z.mul_comm. symmetry. apply Z.div_mod. lia.
Qed.

(** ** Go strings

    A Go string is an immutable sequence of bytes, so [string(buf)] is the
    identity on the byte list; [str] writes a literal. *)
Notation gostring := (list byte).

Definition str (s : String.string) : gostring := String.list_byte_of_string s.
Arguments str _%_string_scope.

(** ** Outcomes

    A Go call returns a value, returns an [error], or panics. *)
Inductive outcome (E A : Type) : Type :=
  | Ok (a : A)
  | Err (e : E)
  | Panic.
Arguments Ok {_ _} _.
Arguments Err {_ _} _.
Arguments Panic {_ _}.

#[export] Instance outcome_ret E : MRet (outcome E) := λ A a, Ok a.
#[export] Instance outcome_bind E : MBind (outcome E) := λ A B f m,
  match m with Ok a => f a | Err e => Err e | Panic => Panic end.

#[export] Instance outcome_eq_dec E A `{EqDecision E, EqDecision A} :
  EqDecision (outcome E A).
Proof. solve_decision. Defined.

Definition is_ok {E A} (m : outcome E A) : bool :=
  match m with Ok _ => true | _ => false end.

Definition outcome_opt {E A} (m : outcome E A) : option A :=
  match m with Ok a => Some a | _ => None end.

(** [guard c e]: the early return [if !c { return ..., e }]. *)
Definition require {E} (c : bool) (e : E) : outcome E unit := if c then Ok () else Err e.

Definition err_map {E F A} (f : E → F) (m : outcome E A) : outcome F A :=
  match m with Ok a => Ok a | Err e => Err (f e) | Panic => Panic end.

Lemma bind_Ok {E A B} (m : outcome E A) (f : A → outcome E B) b :
  (m ≫= f) = Ok b ↔ ∃ a, m = Ok a ∧ f a = Ok b.
Proof.
  destruct m; cbn; (split; [try discriminate; eauto|intros (? & [=] & ?)]).
  by subst.
Qed.

Lemma bind_Panic {E A B} (m : outcome E A) (f : A → outcome E B) :
  (m ≫= f) = Panic ↔ m = Panic ∨ ∃ a, m = Ok a ∧ f a = Panic.
Proof.
  destruct m; cbn; (split; [try discriminate; eauto|intros [[=]|(? & [=] & ?)]]).
  - by subst.
  - done.
Qed.

Lemma err_map_Ok {E F A} (f : E → F) (m : outcome E A) a : err_map f m = Ok a ↔ m = Ok a.
Proof. destruct m; cbn; split; congruence. Qed.

Lemma err_map_Panic {E F A} (f : E → F) (m : outcome E A) : err_map f m = Panic ↔ m = Panic.
Proof. by destruct m. Qed.

Lemma require_Ok {E} c (e : E) u : require c e = Ok u ↔ c = true.
Proof. destruct c, u; cbn; split; congruence. Qed.

Lemma require_not_Panic {E} c (e : E) : require c e ≠ Panic.
Proof. by destruct c. Qed.

(** Index and slice expressions on a Go slice; out of range they panic. *)
Definition go_index {E A} (l : list A) (i : nat) : outcome E A :=
  match l !! i with Some a => Ok a | None => Panic end.

Definition go_slice {E A} (l : list A) (i j : nat) : outcome E (list A) :=
  if decide (i ≤ j ∧ j ≤ length l) then Ok (take (j - i) (drop i l)) else Panic.

Lemma go_index_Ok {E A} (l : list A) i a : l !! i = Some a → go_index (E:=E) l i = Ok a.
Proof. unfold go_index. by intros ->. Qed.

Lemma go_slice_Ok {E A} (l : list A) i j :
  i ≤ j → j ≤ length l → go_slice (E:=E) l i j = Ok (take (j - i) (drop i l)).
Proof. intros. unfold go_slice. by rewrite decide_True. Qed.

(** Slicing a concatenation at the boundary of its first part. *)
Lemma go_slice_app {E A} (p m s : list A) i j :
  i = length p → j = length p + length m →
  go_slice (E:=E) (p ++ m ++ s) i j = Ok m.
Proof.
  intros -> ->. rewrite go_slice_Ok by (rewrite ?length_app; lia).
  rewrite drop_app_length. do 2 f_equal.
  replace (length p + length m - length p) with (length m) by lia.
  apply take_app_length.
Qed.

Lemma go_slice_tail {E A} (p s : list A) i j :
  i = length p → j = length p + length s → go_slice (E:=E) (p ++ s) i j = Ok s.
Proof. intros Hi Hj. pose proof (go_slice_app (E:=E) p s [] i j Hi Hj) as H. by rewrite app_nil_r in H. Qed.

(** ** Transition systems *)

Section lts.
  Context {S : Type} (step : S → S → Prop).

Definition invariant_under (P : S → Prop) : Prop := ∀ s s', P s → step s s' → P s'.

Lemma rtc_invariant (P : S → Prop) s s' :
  invariant_under P → P s → rtc step s s' → P s'.
Proof. intros HP Hs. induction 1; eauto. Qed.

(** A measure that every step decreases bounds the length of any run. *)
Lemma nsteps_measure (μ : S → nat) n s s' :
  (∀ x y, step x y → μ y < μ x) → nsteps step n s s' → n + μ s' ≤ μ s.
Proof. intros Hμ. induction 1 as [|n x y z Hxy _ IH]; [lia|]. apply Hμ in Hxy. lia. Qed.

Lemma measure_acc (μ : S → nat) s :
  (∀ x y, step x y → μ y < μ x) → Acc (λ y x, step x y) s.
Proof.
  intros Hμ. remember (μ s) as n eqn:Hn. revert s Hn.
  induction n as [n IH] using lt_wf_ind. intros s ->.
  constructor. intros y Hy. eapply IH; [by apply Hμ|done].
Qed.
End lts.

(** ** Automation *)

Create HintDb go discriminated.
#[export] Hint Resolve b2z_range be16_range require_not_Panic : go.

Create Rewrite HintDb golen.
#[export] Hint Rewrite @length_app @length_cons @length_nil @length_take @length_drop
  @length_replicate @length_insert @length_fmap : golen.

(** Arithmetic on list lengths. *)
Ltac len := autorewrite with golen in *; simpl in *; lia.

(** Split a successful monadic computation into its steps. *)
Ltac inv_ok :=
  repeat match goal with
  | H : (_ ≫= _) = Ok _ |- _ => apply bind_Ok in H; destruct H as (? & ? & H)
  | H : require _ _ = Ok _ |- _ => apply require_Ok in H
  | H : Ok _ = Ok _ |- _ => injection H as H; subst
  | H : Ok _ = Err _ |- _ => discriminate H
  | H : Err _ = Ok _ |- _ => discriminate H
  | H : Panic = Ok _ |- _ => discriminate H
  | H : Ok _ = Panic |- _ => discriminate H
  | H : Err _ = Panic |- _ => discriminate H
  end.

(** ** Resources

    What a call acquires and gives back, in order. *)
Inductive res_event (R : Type) := Acquired (r : R) | Released (r : R).
Arguments Acquired {_} _.
Arguments Released {_} _.

#[export] Instance res_event_eq_dec R `{EqDecision R} : EqDecision (res_event R).
Proof. solve_decision. Defined.

(** What is held after the events; [None] if something is acquired twice or given back
    without being held. *)
Fixpoint owned {R} `{EqDecision R} (tr : list (res_event R)) (held : list R) : option (list R) :=
  match tr with
  | [] => Some held
  | Acquired r :: tr => if decide (r ∈ held) then None else owned tr (r :: held)
  | Released r :: tr => if decide (r ∈ held) then owned tr (filter (λ h, h ≠ r) held) else None
  end.

Lemma owned_app {R} `{EqDecision R} (a b : list (res_event R)) held :
  owned (a ++ b) held = owned a held ≫= owned b.
Proof.
  revert held. induction a as [|[r|r] a IH]; intros held; [done|..]; cbn [app owned];
    case_decide; try done; apply IH.
Qed.
