(* ===== verification/GoNet.v ===== *)
(** * The Go standard library the program formats and parses addresses with

    [strconv.Itoa]/[Atoi], [net.SplitHostPort]/[JoinHostPort], the methods of
    [net.IP] and [net.ParseIP] (that is [netip.ParseAddr] without a zone), with
    the round trips the components rely on. *)

From Stdlib Require Import Init.Byte.
From S2P Require Import Prelude.

Notation colon := x3a.
Notation dot := x2e.
Notation lbrack := x5b.
Notation rbrack := x5d.
Notation percent := x25.

(** ** strings.IndexByte and strings.LastIndexByte *)

Fixpoint index_byte (c : byte) (s : gostring) : option nat :=
  match s with
  | [] => None
  | x :: s' => if decide (x = c) then Some 0 else S <$> index_byte c s'
  end.

Fixpoint last_index_byte (c : byte) (s : gostring) : option nat :=
  match s with
  | [] => None
  | x :: s' =>
      match last_index_byte c s' with
      | Some n => Some (S n)
      | None => if decide (x = c) then Some 0 else None
      end
  end.

(** ** strconv *)

Definition digit (d : Z) : byte := z2b (48 + d).

Definition is_digit (c : byte) : bool := bool_decide (48 ≤ b2z c ≤ 57)%Z.

Fixpoint fmt_dec (fuel : nat) (n : Z) (acc : gostring) : gostring :=
  match fuel with
  | O => acc
  | S fuel' =>
      let acc' := digit (n mod 10) :: acc in
      if decide (n < 10)%Z then acc' else fmt_dec fuel' (n / 10) acc'
  end.

(** [strconv.Itoa]; the fuel exceeds the number of decimal digits. *)
Definition itoa (z : Z) : gostring :=
  let m := Z.abs z in
  let ds := fmt_dec (S (Z.to_nat (Z.log2 m))) m [] in
  if decide (z < 0)%Z then x2d :: ds else ds.

Fixpoint scan_dec (acc : Z) (s : gostring) : option Z :=
  match s with
  | [] => Some acc
  | c :: s' => if is_digit c then scan_dec (acc * 10 + (b2z c - 48)) s' else None
  end.

(** [strconv.Atoi]: an optional sign, at least one digit, and an [int] result;
    [None] stands for the syntax and range errors, which the program does not
    tell apart. *)
Definition atoi (s : gostring) : option Z :=
  let '(neg, ds) :=
    match s with
    | x2d :: s' => (true, s')
    | x2b :: s' => (false, s')
    | _ => (false, s)
    end in
  match ds with
  | [] => None
  | _ =>
      n ← scan_dec 0 ds;
      let v := if neg : bool then (- n)%Z else n in
      if decide (- 2 ^ 63 ≤ v < 2 ^ 63)%Z then Some v else None
  end.

(** ** net.SplitHostPort and net.JoinHostPort *)

Inductive addr_error :=
  | MissingPort | TooManyColons | MissingBracket | UnexpectedOpen | UnexpectedClose.

#[export] Instance addr_error_eq_dec : EqDecision addr_error.
Proof. solve_decision. Defined.

Definition SplitHostPort (hostport : gostring) : outcome addr_error (gostring * gostring) :=
  match last_index_byte colon hostport with
  | None => Err MissingPort
  | Some i =>
      '(host, j, k) ←
        (if decide (hostport !! 0 = Some lbrack) then
           match index_byte rbrack hostport with
           | None => Err MissingBracket
           | Some e =>
               if decide (e + 1 = length hostport) then Err MissingPort
               else if decide (e + 1 = i) then
                 host ← go_slice hostport 1 e;
                 Ok (host, 1, e + 1)
               else if decide (hostport !! (e + 1) = Some colon) then Err TooManyColons
               else Err MissingPort
           end
         else
           let host := take i hostport in
           if decide (colon ∈ host) then Err TooManyColons else Ok (host, 0, 0));
      _ ← require (bool_decide (lbrack ∉ drop j hostport)) UnexpectedOpen;
      _ ← require (bool_decide (rbrack ∉ drop k hostport)) UnexpectedClose;
      Ok (host, drop (i + 1) hostport)
  end.

Definition JoinHostPort (host port : gostring) : gostring :=
  if decide (colon ∈ host) then lbrack :: host ++ rbrack :: colon :: port
  else host ++ colon :: port.

(** ** net.IP

    A [net.IP] is a byte slice; [[]] is the nil IP. *)
Definition v4InV6Prefix : gostring := replicate 10 x00 ++ [xff; xff].

Definition To4 (ip : list byte) : option (list byte) :=
  if decide (length ip = 4) then Some ip
  else if decide (length ip = 16 ∧ take 12 ip = v4InV6Prefix) then Some (drop 12 ip)
  else None.

Definition To16 (ip : list byte) : option (list byte) :=
  if decide (length ip = 4) then Some (v4InV6Prefix ++ ip)
  else if decide (length ip = 16) then Some ip
  else None.

(** [IP.Equal]: an IPv4 address and its IPv4-in-IPv6 form are equal. *)
Definition ip_equal (ip x : list byte) : bool :=
  if decide (length ip = length x) then bool_decide (ip = x)
  else if decide (length ip = 4 ∧ length x = 16) then
    bool_decide (take 12 x = v4InV6Prefix ∧ ip = drop 12 x)
  else if decide (length ip = 16 ∧ length x = 4) then
    bool_decide (take 12 ip = v4InV6Prefix ∧ drop 12 ip = x)
  else false.

Definition IPv4zero : list byte := v4InV6Prefix ++ replicate 4 x00.
Definition IPv6zero : list byte := replicate 16 x00.
Definition IPv6loopback : list byte := replicate 15 x00 ++ [x01].

(** [net.IPv4(a,b,c,d)] is the 16-byte form. *)
Definition IPv4 (a b c d : byte) : list byte := v4InV6Prefix ++ [a; b; c; d].

Definition is_unspecified (ip : list byte) : bool :=
  ip_equal ip IPv4zero || ip_equal ip IPv6zero.

(** *** IP.String *)

Definition fmt4 (ip : list byte) : gostring :=
  match ip with
  | [a; b; c; d] =>
      itoa (b2z a) ++ dot :: itoa (b2z b) ++ dot :: itoa (b2z c) ++ dot :: itoa (b2z d)
  | _ => []
  end.

Definition hexdigit (n : Z) : byte := if decide (n < 10)%Z then z2b (48 + n) else z2b (87 + n).

(** netip's [appendHex]: a 16-bit group without leading zeros. *)
Definition appendHex (x : Z) : gostring :=
  (if decide (4096 ≤ x)%Z then [hexdigit (Z.shiftr x 12)] else []) ++
  (if decide (256 ≤ x)%Z then [hexdigit (Z.land (Z.shiftr x 8) 15)] else []) ++
  (if decide (16 ≤ x)%Z then [hexdigit (Z.land (Z.shiftr x 4) 15)] else []) ++
  [hexdigit (Z.land x 15)].

(** The eight 16-bit groups of a 16-byte address. *)
Fixpoint groups (ip : list byte) : list Z :=
  match ip with
  | hi :: lo :: ip' => be16 hi lo :: groups ip'
  | _ => []
  end.

Fixpoint ungroups (gs : list Z) : list byte :=
  match gs with [] => [] | g :: gs' => put16 g ++ ungroups gs' end.

(** Length of the run of zero groups at the head. *)
Fixpoint zero_run (gs : list Z) : nat :=
  match gs with
  | g :: gs' => if decide (g = 0)%Z then S (zero_run gs') else 0
  | [] => 0
  end.

(** The first loop of [Addr.appendTo6]: the leftmost longest run of at least two
    zero groups, as [(zeroStart, zeroEnd)]; [None] is the initial (255, 255). *)
Fixpoint best_run (i : nat) (gs : list Z) (best : option (nat * nat)) : option (nat * nat) :=
  match gs with
  | [] => best
  | _ :: gs' =>
      let l := zero_run gs in
      let cur := match best with Some (s, e) => e - s | None => 0 end in
      best_run (S i) gs' (if decide (2 ≤ l ∧ cur < l) then Some (i, i + l) else best)
  end.

(** The second loop of [Addr.appendTo6], from group [i]. *)
Fixpoint fmt6_loop (fuel i : nat) (best : option (nat * nat)) (gs : list Z) : gostring :=
  match fuel with
  | O => []
  | S fuel' =>
      if decide (8 ≤ i) then [] else
      match best with
      | Some (zs, ze) =>
          if decide (i = zs) then
            colon :: colon ::
            (if decide (8 ≤ ze) then []
             else appendHex (nth ze gs 0%Z) ++ fmt6_loop fuel' (S ze) best gs)
          else (if decide (0 < i) then [colon] else []) ++
               appendHex (nth i gs 0%Z) ++ fmt6_loop fuel' (S i) best gs
      | None =>
          (if decide (0 < i) then [colon] else []) ++
          appendHex (nth i gs 0%Z) ++ fmt6_loop fuel' (S i) best gs
      end
  end.

Definition fmt6 (ip : list byte) : gostring :=
  let gs := groups ip in fmt6_loop 8 0 (best_run 0 gs None) gs.

Definition hexString (l : list byte) : gostring :=
  l ≫= λ b, [hexdigit (Z.shiftr (b2z b) 4); hexdigit (Z.land (b2z b) 15)].

Definition ip_string (ip : list byte) : gostring :=
  match ip with
  | [] => str "<nil>"
  | _ =>
      if decide (length ip ≠ 4 ∧ length ip ≠ 16) then x3f :: hexString ip
      else match To4 ip with Some p4 => fmt4 p4 | None => fmt6 ip end
  end.

(** *** net.ParseIP *)

Inductive parse_error :=
  | NoSeparator | LeadingZero | Over255 | EmptyOctet | TooLong | BadChar | TooShort
  | MissingV6 | EmptyZone | LongGroup | GroupOverflow | EmptyGroup | BadEmbedded
  | EmbeddedTooLong | WantColon | TrailingColon | TwoEllipses | Trailing | EmptyEllipsis.

#[export] Instance parse_error_eq_dec : EqDecision parse_error.
Proof. solve_decision. Defined.

(** [parseIPv4Fields]: [fields] holds the octets before the current one, [prev]
    the preceding byte. *)
Fixpoint v4_loop (s : gostring) (prev : option byte) (val : Z) (digLen : nat)
    (fields : list byte) : outcome parse_error (list byte) :=
  match s with
  | [] =>
      _ ← require (bool_decide (3 ≤ length fields)) TooShort;
      Ok (fields ++ [z2b val])
  | c :: s' =>
      if is_digit c then
        _ ← require (negb (bool_decide (digLen = 1 ∧ val = 0%Z))) LeadingZero;
        let val' := (val * 10 + (b2z c - 48))%Z in
        _ ← require (bool_decide (val' ≤ 255)%Z) Over255;
        v4_loop s' (Some c) val' (S digLen) fields
      else if decide (c = dot) then
        _ ← require (negb (bool_decide (prev = None ∨ s' = [] ∨ prev = Some dot))) EmptyOctet;
        _ ← require (negb (bool_decide (length fields = 3))) TooLong;
        v4_loop s' (Some c) 0 0 (fields ++ [z2b val])
      else Err BadChar
  end.

Definition parseIPv4 (s : gostring) : outcome parse_error (list byte) :=
  v4_loop s None 0 0 [].

Definition hexval (c : byte) : option Z :=
  let z := b2z c in
  if decide (48 ≤ z ≤ 57)%Z then Some (z - 48)%Z
  else if decide (97 ≤ z ≤ 102)%Z then Some (z - 87)%Z
  else if decide (65 ≤ z ≤ 70)%Z then Some (z - 55)%Z
  else None.

(** The inner loop of [parseIPv6]: [(off, acc, s[off:])]. *)
Fixpoint scan_hex (s : gostring) (off : nat) (acc : Z)
    : outcome parse_error (nat * Z * gostring) :=
  match s with
  | [] => Ok (off, acc, [])
  | c :: s' =>
      match hexval c with
      | None => Ok (off, acc, s)
      | Some d =>
          let acc' := (acc * 16 + d)%Z in
          _ ← require (negb (bool_decide (3 < off))) LongGroup;
          _ ← require (negb (bool_decide (65535 < acc')%Z)) GroupOverflow;
          scan_hex s' (S off) acc'
      end
  end.

(** The main loop of [parseIPv6]; [ip] holds the bytes stored so far, so its
    length is the source's [i]. The fuel bounds the remaining groups. *)
Fixpoint v6_loop (fuel : nat) (ip : list byte) (ellipsis : option nat) (s : gostring)
    : outcome parse_error (list byte * option nat * gostring) :=
  match fuel with
  | O => Ok (ip, ellipsis, s)
  | S fuel' =>
      '(off, acc, rest) ← scan_hex s 0 0;
      _ ← require (negb (bool_decide (off = 0))) EmptyGroup;
      if decide (rest !! 0 = Some dot) then
        _ ← require (negb (bool_decide (ellipsis = None ∧ length ip ≠ 12))) BadEmbedded;
        _ ← require (negb (bool_decide (16 < length ip + 4))) EmbeddedTooLong;
        v4 ← parseIPv4 s;
        Ok (ip ++ v4, ellipsis, [])
      else
        let ip' := ip ++ put16 acc in
        match rest with
        | [] => Ok (ip', ellipsis, [])
        | c :: rest' =>
            _ ← require (bool_decide (c = colon)) WantColon;
            match rest' with
            | [] => Err TrailingColon
            | c2 :: rest'' =>
                if decide (c2 = colon) then
                  _ ← require (bool_decide (ellipsis = None)) TwoEllipses;
                  match rest'' with
                  | [] => Ok (ip', Some (length ip'), [])
                  | _ => v6_loop fuel' ip' (Some (length ip')) rest''
                  end
                else v6_loop fuel' ip' ellipsis rest'
            end
        end
  end.

(** The checks after the loop and the expansion of the ellipsis. *)
Definition v6_finish (r : list byte * option nat * gostring) : outcome parse_error (list byte) :=
  let '(ip, ellipsis, s) := r in
  _ ← require (bool_decide (s = [])) Trailing;
  if decide (length ip < 16) then
    match ellipsis with
    | None => Err TooShort
    | Some e => Ok (take e ip ++ replicate (16 - length ip) x00 ++ drop e ip)
    end
  else match ellipsis with Some _ => Err EmptyEllipsis | None => Ok ip end.

(** [parseIPv6]: the address and its zone. *)
Definition parseIPv6 (input : gostring) : outcome parse_error (list byte * gostring) :=
  '(s, zone) ←
    match index_byte percent input with
    | None => Ok (input, [])
    | Some i =>
        _ ← require (bool_decide (drop (S i) input ≠ [])) EmptyZone;
        Ok (take i input, drop (S i) input)
    end;
  ip ←
    match s with
    | x3a :: x3a :: s' =>
        match s' with
        | [] => Ok IPv6zero
        | _ => v6_loop 8 [] (Some 0) s' ≫= v6_finish
        end
    | _ => v6_loop 8 [] None s ≫= v6_finish
    end;
  Ok (ip, zone).

Fixpoint first_sep (s : gostring) : option byte :=
  match s with
  | [] => None
  | c :: s' => if decide (c = dot ∨ c = colon ∨ c = percent) then Some c else first_sep s'
  end.

(** [netip.ParseAddr]: a 4-byte or 16-byte address and its zone. *)
Definition ParseAddr (s : gostring) : outcome parse_error (list byte * gostring) :=
  match first_sep s with
  | Some x2e => ip ← parseIPv4 s; Ok (ip, [])
  | Some x3a => parseIPv6 s
  | Some x25 => Err MissingV6
  | _ => Err NoSeparator
  end.

(** [net.ParseIP]: the 16-byte form; an address with a zone is refused. *)
Definition ParseIP (s : gostring) : option (list byte) :=
  match ParseAddr s with
  | Ok (ip, []) => To16 ip
  | _ => None
  end.

(** *** netip.Addr

    The address, 4 or 16 bytes long, and its zone. *)
Definition addr : Type := list byte * gostring.

Definition Is4 (a : addr) : bool := bool_decide (length (fst a) = 4).

(** [Addr.Unmap]: an IPv4-in-IPv6 address as an IPv4 one, which has no zone. *)
Definition Unmap (a : addr) : addr :=
  match To4 (fst a) with Some p4 => (p4, []) | None => a end.

(** [netip.ParsePrefix]: the address and the number of bits, which have no sign and no
    leading zero; the errors are not told apart. *)
Definition prefix_bits (ip : list byte) (zone bitsStr : gostring) : option (addr * Z) :=
  bits ← atoi bitsStr;
  let maxBits := if decide (length ip = 4) then 32%Z else 128%Z in
  if decide (0 <= bits <= maxBits)%Z then Some ((ip, zone), bits) else None.

Definition ParsePrefix (s : gostring) : option (addr * Z) :=
  i ← last_index_byte x2f s;
  match ParseAddr (take i s) with
  | Ok (ip, zone) =>
      if bool_decide (zone ≠ []) then None
      else
        let bitsStr := drop (S i) s in
        if decide (1 < length bitsStr) then
          match bitsStr with
          | c :: _ => if bool_decide (49 <= b2z c <= 57)%Z then prefix_bits ip zone bitsStr else None
          | [] => None
          end
        else prefix_bits ip zone bitsStr
  | _ => None
  end.

Example itoa_443 : itoa 443 = str "443". Proof. reflexivity. Qed.
Example atoi_plus : atoi (str "+443") = Some 443%Z. Proof. reflexivity. Qed.
Example split_v6 : SplitHostPort (str "[2606:4700:103::2]:443")
  = Ok (str "2606:4700:103::2", str "443").
Proof. vm_compute. reflexivity. Qed.
Example parse_v6 : ip_string <$> ParseIP (str "2606:4700:0:0:103::2")
  = Some (str "2606:4700::103:0:0:2").
Proof. vm_compute. reflexivity. Qed.
Example parse_v4 : ip_string <$> ParseIP (str "162.159.198.2") = Some (str "162.159.198.2").
Proof. vm_compute. reflexivity. Qed.
Example parse_v6_embedded : ip_string <$> ParseIP (str "::ffff:1.2.3.4") = Some (str "1.2.3.4").
Proof. vm_compute. reflexivity. Qed.
