(* ===== verification/GoNetFacts.v ===== *)
(** * Round trips of the address functions

    [Atoi ∘ Itoa], [SplitHostPort ∘ JoinHostPort] and [ParseIP ∘ IP.String] are
    identities on the values the program passes them; the components use these
    facts to say what an address string they built denotes. *)

From Stdlib Require Import Init.Byte.
From S2P Require Import Prelude GoNet.

Local Open Scope Z_scope.

(** ** Decimal numbers *)

Lemma b2z_digit d : 0 <= d < 10 → b2z (digit d) = 48 + d.
Proof. intros. unfold digit. apply b2z_z2b_small. lia. Qed.

Lemma is_digit_digit d : 0 <= d < 10 → is_digit (digit d) = true.
Proof. intros. unfold is_digit. apply bool_decide_eq_true. rewrite b2z_digit; lia. Qed.

Lemma mod10_range n : 0 <= n mod 10 < 10.
Proof. apply Z.mod_pos_bound. lia. Qed.

Lemma scan_dec_cons acc d s :
  0 <= d < 10 → scan_dec acc (digit d :: s) = scan_dec (acc * 10 + d) s.
Proof.
  intros Hd. cbn [scan_dec]. rewrite is_digit_digit, b2z_digit by done. f_equal. lia.
Qed.

Lemma scan_fmt_dec fuel n acc s :
  0 <= n < 10 ^ Z.of_nat fuel →
  acc = 0 →
  scan_dec acc (fmt_dec fuel n s) = scan_dec n s.
Proof.
  intros Hn ->. revert n s Hn. induction fuel as [|fuel IH]; intros n s Hn.
  { assert (n = 0) as -> by (simpl in Hn; lia). done. }
  cbn [fmt_dec]. pose proof (mod10_range n).
  destruct (decide (n < 10)).
  - rewrite scan_dec_cons by done. rewrite Z.mod_small by lia. done.
  - rewrite IH.
    + rewrite scan_dec_cons by done. f_equal. pose proof (Z.div_mod n 10). lia.
    + rewrite Nat2Z.inj_succ, Z.pow_succ_r in Hn by lia.
      split; [apply Z.div_pos|apply Z.div_lt_upper_bound]; lia.
Qed.

Lemma fmt_dec_digits fuel n s :
  Forall (λ c, is_digit c = true) s → Forall (λ c, is_digit c = true) (fmt_dec fuel n s).
Proof.
  revert n s. induction fuel as [|fuel IH]; intros n s Hs; cbn [fmt_dec]; [done|].
  pose proof (is_digit_digit _ (mod10_range n)).
  destruct (decide (n < 10)); [by constructor|]. apply IH. by constructor.
Qed.

Lemma fmt_dec_nonempty fuel n s : s ≠ [] ∨ fuel ≠ 0%nat → fmt_dec fuel n s ≠ [].
Proof.
  revert n s. induction fuel as [|fuel IH]; intros n s Hs; cbn [fmt_dec]; [naive_solver|].
  destruct (decide (n < 10)); [done|]. apply IH. by left.
Qed.

Lemma itoa_fuel m : 0 <= m → 0 <= m < 10 ^ Z.of_nat (S (Z.to_nat (Z.log2 m))).
Proof.
  intros Hm. split; [done|]. destruct (decide (m = 0)) as [->|]; [done|].
  apply Z.lt_le_trans with (2 ^ Z.succ (Z.log2 m)).
  - apply Z.log2_spec. lia.
  - rewrite Nat2Z.inj_succ, Z2Nat.id by apply Z.log2_nonneg.
    apply Z.pow_le_mono_l. lia.
Qed.

Lemma itoa_nonneg z : 0 <= z → itoa z = fmt_dec (S (Z.to_nat (Z.log2 z))) z [].
Proof. intros. unfold itoa. rewrite Z.abs_eq by done. by rewrite decide_False by lia. Qed.

Lemma scan_dec_itoa z : 0 <= z → scan_dec 0 (itoa z) = Some z.
Proof. intros. rewrite itoa_nonneg, scan_fmt_dec; [done|by apply itoa_fuel|done|done]. Qed.

Lemma itoa_digits z : 0 <= z → Forall (λ c, is_digit c = true) (itoa z).
Proof. intros. rewrite itoa_nonneg by done. by apply fmt_dec_digits. Qed.

Lemma itoa_nonempty z : 0 <= z → itoa z ≠ [].
Proof. intros. rewrite itoa_nonneg by done. apply fmt_dec_nonempty. by right. Qed.

(** A byte that is not a digit does not occur in a formatted number. *)
Lemma not_in_itoa c z : 0 <= z → is_digit c = false → c ∉ itoa z.
Proof.
  intros Hz Hc Hin. pose proof (itoa_digits z Hz) as Hall.
  rewrite Forall_forall in Hall. specialize (Hall c Hin). congruence.
Qed.

Lemma digit_cons_not_sign c s :
  is_digit c = true →
  match c :: s with x2d :: s' => (true, s') | x2b :: s' => (false, s') | _ => (false, c :: s) end
  = (false, c :: s).
Proof. destruct c; done. Qed.

Lemma atoi_itoa z : 0 <= z < 2 ^ 63 → atoi (itoa z) = Some z.
Proof.
  intros Hz. pose proof (scan_dec_itoa z) as Hs. pose proof (itoa_digits z) as Hd.
  pose proof (itoa_nonempty z) as Hne. unfold atoi.
  destruct (itoa z) as [|c s]; [by destruct Hne; [lia|]|].
  rewrite digit_cons_not_sign by (specialize (Hd ltac:(lia)); by inversion Hd).
  rewrite Hs by lia. cbn. by rewrite decide_True by lia.
Qed.

Lemma itoa_inj a b : 0 <= a → 0 <= b → itoa a = itoa b → a = b.
Proof.
  intros Ha Hb Heq. pose proof (scan_dec_itoa a Ha) as H1.
  pose proof (scan_dec_itoa b Hb) as H2. rewrite Heq in H1. congruence.
Qed.

(** ** host:port *)

Lemma index_byte_app c s t : c ∉ s → index_byte c (s ++ c :: t) = Some (length s).
Proof.
  induction s as [|x s IH]; intros Hn; simpl.
  - by rewrite decide_True.
  - apply not_elem_of_cons in Hn as [Hx Hn]. rewrite decide_False by congruence.
    by rewrite IH.
Qed.

Lemma last_index_byte_None c s : c ∉ s → last_index_byte c s = None.
Proof.
  induction s as [|x s IH]; intros Hn; [done|].
  apply not_elem_of_cons in Hn as [Hx Hn]. simpl.
  rewrite IH by done. by rewrite decide_False by congruence.
Qed.

Lemma last_index_byte_app c s t : c ∉ t → last_index_byte c (s ++ c :: t) = Some (length s).
Proof.
  intros Hn. induction s as [|x s IH]; simpl.
  - rewrite last_index_byte_None by done. by rewrite decide_True.
  - by rewrite IH.
Qed.

(** A port string that [JoinHostPort] can be undone on. *)
Definition clean_port (p : gostring) : Prop := colon ∉ p ∧ lbrack ∉ p ∧ rbrack ∉ p.

Definition clean_host (h : gostring) : Prop := lbrack ∉ h ∧ rbrack ∉ h.

Lemma clean_port_itoa z : 0 <= z → clean_port (itoa z).
Proof. intros. repeat split; by apply not_in_itoa. Qed.

Lemma split_plain h p :
  colon ∉ h → clean_host h → clean_port p →
  SplitHostPort (h ++ colon :: p) = Ok (h, p).
Proof.
  intros Hc [Hl Hr] (Hpc & Hpl & Hpr). unfold SplitHostPort.
  rewrite last_index_byte_app by done.
  assert (Hnl : lbrack ∉ h ++ colon :: p) by (rewrite elem_of_app, elem_of_cons; naive_solver).
  assert (Hnr : rbrack ∉ h ++ colon :: p) by (rewrite elem_of_app, elem_of_cons; naive_solver).
  rewrite decide_False.
  2:{ intros H%list_elem_of_lookup_2. done. }
  rewrite take_app_length, decide_False by done. cbn.
  rewrite !bool_decide_eq_true_2 by done. cbn.
  replace (length h + 1)%nat with (length (h ++ [colon])) by len.
  change (h ++ colon :: p) with (h ++ [colon] ++ p).
  by rewrite app_assoc, drop_app_length.
Qed.

Lemma split_bracket h p :
  clean_host h → clean_port p →
  SplitHostPort (lbrack :: h ++ rbrack :: colon :: p) = Ok (h, p).
Proof.
  intros [Hl Hr] (Hpc & Hpl & Hpr). unfold SplitHostPort.
  set (hp := lbrack :: h ++ rbrack :: colon :: p).
  assert (Hlast : last_index_byte colon hp = Some (length h + 2)%nat).
  { subst hp. replace (lbrack :: h ++ rbrack :: colon :: p)
      with ((lbrack :: h ++ [rbrack]) ++ (colon :: p)) by (simpl; by rewrite <- app_assoc).
    rewrite last_index_byte_app by done. f_equal. len. }
  assert (Hend : index_byte rbrack hp = Some (length h + 1)%nat).
  { subst hp. rewrite app_comm_cons, index_byte_app; [f_equal; len|].
    rewrite not_elem_of_cons. naive_solver. }
  assert (Hlen : length hp = (length h + 3 + length p)%nat) by (subst hp; len).
  rewrite Hlast. change (hp !! 0%nat) with (Some lbrack). rewrite decide_True by done.
  rewrite Hend. rewrite decide_False by lia. rewrite decide_True by lia.
  assert (Hsl : go_slice (E:=addr_error) hp 1 (length h + 1) = Ok h)
    by (apply (go_slice_app [lbrack] h (rbrack :: colon :: p)); simpl; lia).
  assert (Hd : ∀ l, drop (S (length h + l)) hp = drop l (rbrack :: colon :: p)).
  { intros l. subst hp. cbn [drop]. by rewrite <- drop_drop, drop_app_length. }
  assert (Hd1 : drop 1 hp = h ++ rbrack :: colon :: p) by done.
  assert (Hd2 : drop (length h + 1 + 1) hp = colon :: p)
    by (replace (length h + 1 + 1)%nat with (S (length h + 1)) by lia; by rewrite Hd).
  assert (Hd3 : drop (length h + 2 + 1) hp = p)
    by (replace (length h + 2 + 1)%nat with (S (length h + 2)) by lia; by rewrite Hd).
  clearbody hp. rewrite Hsl. cbn. rewrite Hd1, Hd2, Hd3.
  rewrite !bool_decide_eq_true_2; [done|..].
  all: rewrite ?elem_of_app, ?elem_of_cons; naive_solver.
Qed.

Lemma split_join host port :
  clean_host host → clean_port port →
  SplitHostPort (JoinHostPort host port) = Ok (host, port).
Proof.
  intros Hh Hp. unfold JoinHostPort. destruct (decide (colon ∈ host)).
  - by apply split_bracket.
  - by apply split_plain.
Qed.

(** ** Dotted IPv4 *)

Lemma first_sep_app s c t :
  Forall (λ x, x ≠ dot ∧ x ≠ colon ∧ x ≠ percent) s →
  c = dot ∨ c = colon ∨ c = percent →
  first_sep (s ++ c :: t) = Some c.
Proof.
  intros Hs Hc. induction Hs as [|x s Hx _ IH]; simpl.
  - by rewrite decide_True.
  - rewrite decide_False by naive_solver. done.
Qed.

Lemma digit_not_sep c : is_digit c = true → c ≠ dot ∧ c ≠ colon ∧ c ≠ percent.
Proof. intros Hc. repeat split; intros ->; done. Qed.

Lemma itoa_not_sep z : 0 <= z → Forall (λ x, x ≠ dot ∧ x ≠ colon ∧ x ≠ percent) (itoa z).
Proof.
  intros Hz. eapply Forall_impl; [by apply itoa_digits|].
  intros c. apply digit_not_sep.
Qed.

(** One octet: the loop reads exactly the digits [Itoa] wrote. *)
Lemma v4_loop_octet b rest prev fields :
  ∃ c k, is_digit c = true ∧
    v4_loop (itoa (b2z b) ++ rest) prev 0 0 fields
    = v4_loop rest (Some c) (b2z b) (S k) fields.
Proof. destruct b; (do 2 eexists; split; [|reflexivity]); reflexivity. Qed.

Lemma v4_loop_dot c val k fields rest :
  is_digit c = true → (length fields < 3)%nat → rest ≠ [] →
  v4_loop (dot :: rest) (Some c) val k fields
  = v4_loop rest (Some dot) 0 0 (fields ++ [z2b val]).
Proof.
  intros Hc Hf Hr. apply digit_not_sep in Hc. cbn.
  rewrite (bool_decide_eq_false_2 (_ ∨ _)) by naive_solver. cbn.
  by rewrite (bool_decide_eq_false_2 (length fields = 3%nat)) by lia.
Qed.

Lemma app_not_nil_r {A} (s : list A) x t : s ++ x :: t ≠ [].
Proof. by destruct s. Qed.

Lemma parseIPv4_fmt4 a b c d : parseIPv4 (fmt4 [a; b; c; d]) = Ok [a; b; c; d].
Proof.
  unfold parseIPv4, fmt4.
  destruct (v4_loop_octet a (dot :: itoa (b2z b) ++ dot :: itoa (b2z c) ++ dot :: itoa (b2z d))
    None []) as (ca & ka & Ha & ->).
  rewrite v4_loop_dot; [|done|simpl; lia|apply app_not_nil_r].
  destruct (v4_loop_octet b (dot :: itoa (b2z c) ++ dot :: itoa (b2z d)) (Some dot)
    ([] ++ [z2b (b2z a)])) as (cb & kb & Hb & ->).
  rewrite v4_loop_dot; [|done|simpl; lia|apply app_not_nil_r].
  destruct (v4_loop_octet c (dot :: itoa (b2z d)) (Some dot)
    (([] ++ [z2b (b2z a)]) ++ [z2b (b2z b)])) as (cc & kc & Hc & ->).
  rewrite v4_loop_dot; [|done|simpl; lia|apply itoa_nonempty, b2z_range].
  destruct (v4_loop_octet d [] (Some dot)
    ((([] ++ [z2b (b2z a)]) ++ [z2b (b2z b)]) ++ [z2b (b2z c)])) as (cd & kd & Hd & Heq).
  rewrite app_nil_r in Heq. rewrite Heq. cbn. by rewrite !z2b_b2z.
Qed.

Lemma ParseAddr_fmt4 a b c d : ParseAddr (fmt4 [a; b; c; d]) = Ok ([a; b; c; d], []).
Proof.
  unfold ParseAddr. pose proof (parseIPv4_fmt4 a b c d) as Hp.
  unfold fmt4 in *. rewrite first_sep_app; [|apply itoa_not_sep, b2z_range|by left].
  by rewrite Hp.
Qed.

Lemma ParseIP_fmt4 a b c d : ParseIP (fmt4 [a; b; c; d]) = Some (v4InV6Prefix ++ [a; b; c; d]).
Proof. unfold ParseIP. by rewrite ParseAddr_fmt4. Qed.

(** ** Hexadecimal groups *)

Definition is_group (g : Z) : Prop := 0 <= g < 65536.

Definition no_hex_head (s : gostring) : Prop :=
  match s with [] => True | c :: _ => hexval c = None end.

Lemma hexval_hexdigit n : 0 <= n < 16 → hexval (hexdigit n) = Some n.
Proof.
  intros Hn. rewrite <- (Z2Nat.id n) by lia.
  assert (Hk : (Z.to_nat n < 16)%nat) by lia. revert Hk. generalize (Z.to_nat n).
  intros k Hk. do 16 (destruct k as [|k]; [reflexivity|]). lia.
Qed.

Lemma scan_hex_digit n s off acc :
  0 <= n < 16 → (off <= 3)%nat → 0 <= acc < 4096 →
  scan_hex (hexdigit n :: s) off acc = scan_hex s (S off) (acc * 16 + n).
Proof.
  intros Hn Ho Ha. cbn [scan_hex]. rewrite hexval_hexdigit by done.
  rewrite !bool_decide_eq_false_2 by lia. done.
Qed.

Lemma scan_hex_stop s off acc : no_hex_head s → scan_hex s off acc = Ok (off, acc, s).
Proof. destruct s as [|c s]; [done|]. cbn. by intros ->. Qed.

Lemma shiftr_div x n : 0 <= n → Z.shiftr x n = x / 2 ^ n.
Proof. intros. by apply Z.shiftr_div_pow2. Qed.

Lemma land15 x : Z.land x 15 = x mod 16.
Proof. change 15 with (Z.ones 4). by apply Z.land_ones. Qed.

Lemma scan_hex_appendHex g s :
  is_group g → no_hex_head s →
  ∃ off, scan_hex (appendHex g ++ s) 0 0 = Ok (S off, g, s).
Proof.
  unfold is_group. intros Hg Hs. unfold appendHex.
  rewrite !land15, !shiftr_div by lia.
  change (2 ^ 12) with 4096. change (2 ^ 8) with 256. change (2 ^ 4) with 16.
  repeat case_decide; cbn [app];
    repeat (rewrite scan_hex_digit by (try lia; Z.to_euclidean_division_equations; lia));
    rewrite scan_hex_stop by done; eexists; do 3 f_equal;
    Z.to_euclidean_division_equations; lia.
Qed.

Lemma appendHex_cons g : ∃ n t, 0 <= n < 16 ∧ appendHex g = hexdigit n :: t ∨ ¬ is_group g.
Proof.
  destruct (decide (0 <= g < 65536)) as [Hg|Hg]; [|exists 0, []; by right].
  unfold appendHex. rewrite !land15, !shiftr_div by lia.
  change (2 ^ 12) with 4096. change (2 ^ 8) with 256. change (2 ^ 4) with 16.
  repeat case_decide; cbn [app]; eexists _, _; left; (split; [|reflexivity]);
    Z.to_euclidean_division_equations; lia.
Qed.

(** ** IPv6 *)

(** Groups separated by single colons. *)
Fixpoint join6 (gs : list Z) : gostring :=
  match gs with
  | [] => []
  | [g] => appendHex g
  | g :: gs' => appendHex g ++ colon :: join6 gs'
  end.

(** The text starts with a hexadecimal digit. *)
Definition hex_head (s : gostring) : Prop :=
  ∃ n t, 0 <= n < 16 ∧ s = hexdigit n :: t.

Lemma hexdigit_ne_colon n : 0 <= n < 16 → hexdigit n ≠ colon.
Proof. intros Hn Heq. apply hexval_hexdigit in Hn. by rewrite Heq in Hn. Qed.

Lemma appendHex_head g t : is_group g → hex_head (appendHex g ++ t).
Proof.
  intros Hg. destruct (appendHex_cons g) as (n & s & [[Hn ->]|Hng]); [|done].
  by exists n, (s ++ t).
Qed.

Lemma join6_head g gs : is_group g → hex_head (join6 (g :: gs)).
Proof.
  intros Hg. destruct gs; cbn [join6].
  - rewrite <- (app_nil_r (appendHex g)). by apply appendHex_head.
  - by apply appendHex_head.
Qed.

(** Steps of the main loop, by what follows a group. *)
Lemma v6_loop_last fuel ip ell g :
  is_group g → v6_loop (S fuel) ip ell (appendHex g) = Ok (ip ++ put16 g, ell, []).
Proof.
  intros Hg. destruct (scan_hex_appendHex g [] Hg I) as [off Hs].
  rewrite app_nil_r in Hs. cbn. rewrite Hs. done.
Qed.

Lemma v6_loop_next fuel ip ell g s :
  is_group g → hex_head s →
  v6_loop (S fuel) ip ell (appendHex g ++ colon :: s) = v6_loop fuel (ip ++ put16 g) ell s.
Proof.
  intros Hg (n & t & Hn & ->).
  destruct (scan_hex_appendHex g (colon :: hexdigit n :: t) Hg eq_refl) as [off Hs].
  cbn. rewrite Hs. cbn. rewrite decide_False by done.
  by rewrite decide_False by (by apply hexdigit_ne_colon).
Qed.

Lemma v6_loop_ellipsis fuel ip g s :
  is_group g → hex_head s →
  v6_loop (S fuel) ip None (appendHex g ++ colon :: colon :: s)
  = v6_loop fuel (ip ++ put16 g) (Some (length (ip ++ put16 g))) s.
Proof.
  intros Hg (n & t & Hn & ->).
  destruct (scan_hex_appendHex g (colon :: colon :: hexdigit n :: t) Hg eq_refl) as [off Hs].
  cbn. rewrite Hs. done.
Qed.

Lemma v6_loop_ellipsis_end fuel ip g :
  is_group g →
  v6_loop (S fuel) ip None (appendHex g ++ [colon; colon])
  = Ok (ip ++ put16 g, Some (length (ip ++ put16 g)), []).
Proof.
  intros Hg.
  destruct (scan_hex_appendHex g [colon; colon] Hg eq_refl) as [off Hs].
  cbn. rewrite Hs. done.
Qed.

Lemma v6_loop_join fuel ip ell gs :
  gs ≠ [] → Forall is_group gs → (length gs <= fuel)%nat →
  v6_loop fuel ip ell (join6 gs) = Ok (ip ++ ungroups gs, ell, []).
Proof.
  revert fuel ip. induction gs as [|g gs IH]; intros fuel ip Hne Hall Hf; [done|].
  inversion Hall as [|?? Hg Hgs]; subst. destruct fuel as [|fuel]; [simpl in Hf; lia|].
  destruct gs as [|g' gs].
  - cbn [join6 ungroups]. rewrite v6_loop_last by done. by rewrite app_nil_r.
  - change (join6 (g :: g' :: gs)) with (appendHex g ++ colon :: join6 (g' :: gs)).
    rewrite v6_loop_next by (try apply join6_head; inversion Hgs; done).
    rewrite IH; [|done|done|simpl in *; lia].
    change (ungroups (g :: g' :: gs)) with (put16 g ++ ungroups (g' :: gs)).
    by rewrite app_assoc.
Qed.

Lemma v6_loop_join_ellipsis fuel ip gs rs :
  gs ≠ [] → Forall is_group gs → Forall is_group rs → (length gs + length rs <= fuel)%nat →
  v6_loop fuel ip None (join6 gs ++ colon :: colon :: join6 rs)
  = Ok ((ip ++ ungroups gs) ++ ungroups rs, Some (length (ip ++ ungroups gs)), []).
Proof.
  intros Hne Hall Hrs. revert fuel ip Hne.
  induction Hall as [|g gs Hg Hgs IH]; intros fuel ip Hne Hf; [done|].
  destruct fuel as [|fuel]; [simpl in Hf; lia|]. destruct gs as [|g' gs].
  - cbn [join6 ungroups]. rewrite app_nil_r. destruct rs as [|r rs].
    + cbn [join6 ungroups]. rewrite v6_loop_ellipsis_end by done. by rewrite app_nil_r.
    + rewrite v6_loop_ellipsis by (try apply join6_head; inversion Hrs; done).
      by rewrite v6_loop_join by (done || simpl in *; lia).
  - change (join6 (g :: g' :: gs)) with (appendHex g ++ colon :: join6 (g' :: gs)).
    rewrite <- app_assoc, <- app_comm_cons.
    rewrite v6_loop_next; [|done|].
    2:{ inversion Hgs; subst. destruct (join6_head g' gs) as (n & t & Hn & Heq); [done|].
        rewrite Heq. by exists n, (t ++ colon :: colon :: join6 rs). }
    rewrite IH by (done || simpl in *; lia).
    change (ungroups (g :: g' :: gs)) with (put16 g ++ ungroups (g' :: gs)).
    by rewrite !app_assoc.
Qed.

Lemma length_ungroups gs : length (ungroups gs) = (2 * length gs)%nat.
Proof. induction gs; simpl; lia. Qed.

Lemma ungroups_groups ip n : length ip = (2 * n)%nat → ungroups (groups ip) = ip.
Proof.
  revert ip. induction n as [|n IH]; intros ip Hl; [by destruct ip|].
  destruct ip as [|a [|b ip]]; simpl in Hl; [lia|lia|].
  cbn [groups ungroups]. rewrite put16_be16, IH by lia. done.
Qed.

Lemma groups_range ip : Forall is_group (groups ip).
Proof.
  remember (length ip) as n eqn:Hn. revert ip Hn.
  induction n as [n IH] using lt_wf_ind. intros [|a [|b ip]] Hn; try constructor.
  - apply be16_range.
  - eapply IH; [|done]. simpl in Hn. lia.
Qed.

Lemma length_groups ip n : length ip = (2 * n)%nat → length (groups ip) = n.
Proof.
  revert ip. induction n as [|n IH]; intros [|a [|b ip]] Hl; simpl in *; try lia.
  rewrite IH by lia. done.
Qed.

(** *** The chosen zero run *)

Lemma zero_run_take gs : take (zero_run gs) gs = replicate (zero_run gs) 0.
Proof.
  induction gs as [|g gs IH]; [done|]. simpl. case_decide; [|done].
  subst. simpl. by rewrite IH.
Qed.

Lemma zero_run_length gs : (zero_run gs <= length gs)%nat.
Proof. induction gs; simpl; [done|]. case_decide; simpl; lia. Qed.

Definition run_at (gs : list Z) (i s e : nat) : Prop :=
  ∃ j, (j < length gs)%nat ∧ s = (i + j)%nat ∧
       e = (s + zero_run (drop j gs))%nat ∧ (2 <= zero_run (drop j gs))%nat.

Lemma best_run_spec i gs best s e :
  best_run i gs best = Some (s, e) → best = Some (s, e) ∨ run_at gs i s e.
Proof.
  revert i best. induction gs as [|g gs IH]; intros i best H; [by left|].
  apply IH in H as [H|(j & Hj & -> & -> & Hr)].
  - case_decide as Hc; [|by left]. injection H as <- <-. right.
    exists 0%nat. cbn [drop]. repeat split; [simpl; lia|lia|apply Hc].
  - right. exists (S j). cbn [drop length]. repeat split; [lia|lia|done].
Qed.

Lemma best_run_zeros gs s e :
  best_run 0 gs None = Some (s, e) →
  (s + 2 <= e <= length gs)%nat ∧ take (e - s) (drop s gs) = replicate (e - s) 0.
Proof.
  intros H. apply best_run_spec in H as [H|(j & Hj & -> & -> & Hr)]; [done|].
  pose proof (zero_run_length (drop j gs)) as Hl. rewrite length_drop in Hl.
  split; [lia|]. replace (0 + j + zero_run (drop j gs) - (0 + j))%nat
    with (zero_run (drop j gs)) by lia.
  apply zero_run_take.
Qed.

Lemma lookup_nth_lt (gs : list Z) i : (i < length gs)%nat → gs !! i = Some (nth i gs 0).
Proof. intros Hi. destruct (nth_lookup_or_length gs i 0); [done|lia]. Qed.

(** What [appendTo6] writes: the groups, with the chosen run as ["::"]. *)
Fixpoint colons6 (gs : list Z) : gostring :=
  match gs with [] => [] | g :: gs' => colon :: appendHex g ++ colons6 gs' end.

Lemma join6_colons g gs : join6 (g :: gs) = appendHex g ++ colons6 gs.
Proof.
  revert g. induction gs as [|g' gs IH]; intros g.
  - cbn [join6 colons6]. by rewrite app_nil_r.
  - change (join6 (g :: g' :: gs)) with (appendHex g ++ colon :: join6 (g' :: gs)).
    by rewrite IH.
Qed.

Lemma join6_drop gs i :
  (i < length gs)%nat → join6 (drop i gs) = appendHex (nth i gs 0) ++ colons6 (drop (S i) gs).
Proof.
  intros Hi. erewrite drop_S; [by rewrite join6_colons|].
  by apply lookup_nth_lt.
Qed.

Lemma colons6_drop gs i :
  (i < length gs)%nat →
  colons6 (drop i gs) = colon :: appendHex (nth i gs 0) ++ colons6 (drop (S i) gs).
Proof.
  intros Hi. erewrite drop_S; [done|]. by apply lookup_nth_lt.
Qed.

Definition past (best : option (nat * nat)) (i : nat) : Prop :=
  match best with Some (s, _) => (s < i)%nat | None => True end.

Lemma fmt6_loop_past fuel i best gs :
  length gs = 8%nat → (0 < i)%nat → (8 <= fuel + i)%nat → past best i →
  fmt6_loop fuel i best gs = colons6 (drop i gs).
Proof.
  intros Hl. revert i. induction fuel as [|fuel IH]; intros i Hi Hf Hp.
  { by rewrite drop_ge by lia. }
  cbn [fmt6_loop]. case_decide; [by rewrite drop_ge by lia|].
  rewrite colons6_drop by lia. rewrite (decide_True (P := (0 < i)%nat)) by done.
  destruct best as [[s e]|]; cbn in Hp.
  - rewrite decide_False by lia. rewrite IH; [done|lia|lia|cbn; lia].
  - rewrite IH; [done|lia|lia|done].
Qed.

Lemma fmt6_loop_None gs : length gs = 8%nat → fmt6_loop 8 0 None gs = join6 gs.
Proof.
  intros Hl. rewrite <- (drop_0 gs) at 2. rewrite join6_drop by lia.
  change (fmt6_loop 8 0 None gs)
    with (appendHex (nth 0 gs 0) ++ fmt6_loop 7 1 None gs).
  by rewrite fmt6_loop_past by (done || lia).
Qed.

(** At the run itself, and up to it. *)
Lemma fmt6_loop_at fuel s e gs :
  length gs = 8%nat → (s + 2 <= e <= 8)%nat → (8 <= fuel + s)%nat →
  fmt6_loop fuel s (Some (s, e)) gs = colon :: colon :: join6 (drop e gs).
Proof.
  intros Hl He Hf. destruct fuel as [|fuel]; [lia|]. cbn [fmt6_loop].
  rewrite decide_False by lia. rewrite decide_True by done.
  case_decide; [by rewrite drop_ge by lia|].
  rewrite join6_drop by lia. rewrite fmt6_loop_past by (cbn; lia). done.
Qed.

Lemma fmt6_loop_before fuel i s e gs :
  length gs = 8%nat → (s + 2 <= e <= 8)%nat → (0 < i <= s)%nat → (8 <= fuel + i)%nat →
  fmt6_loop fuel i (Some (s, e)) gs
  = colons6 (take (s - i) (drop i gs)) ++ colon :: colon :: join6 (drop e gs).
Proof.
  intros Hl He. revert i. induction fuel as [|fuel IH]; intros i Hi Hf; [lia|].
  destruct (decide (i = s)) as [->|Hne].
  { rewrite Nat.sub_diag. by rewrite fmt6_loop_at by lia. }
  cbn [fmt6_loop]. rewrite decide_False by lia. rewrite decide_False by done.
  rewrite decide_True by lia. rewrite IH by lia.
  rewrite (drop_S gs (nth i gs 0) i) by (apply lookup_nth_lt; lia).
  replace (s - i)%nat with (S (s - S i)) by lia. cbn [firstn colons6 app].
  by rewrite <- app_assoc.
Qed.

Lemma fmt6_loop_Some gs s e :
  length gs = 8%nat → (s + 2 <= e <= 8)%nat →
  fmt6_loop 8 0 (Some (s, e)) gs = join6 (take s gs) ++ colon :: colon :: join6 (drop e gs).
Proof.
  intros Hl He. destruct s as [|s].
  { by rewrite fmt6_loop_at by lia. }
  change (fmt6_loop 8 0 (Some (S s, e)) gs)
    with (appendHex (nth 0 gs 0) ++ fmt6_loop 7 1 (Some (S s, e)) gs).
  rewrite fmt6_loop_before by lia. destruct gs as [|g gs]; [done|].
  cbn [nth firstn drop]. rewrite join6_colons, <- app_assoc.
  by replace (S s - 1)%nat with s by lia.
Qed.

Lemma take_drop_zeros (gs : list Z) s e :
  (s <= e <= length gs)%nat → take (e - s) (drop s gs) = replicate (e - s) 0 →
  gs = take s gs ++ replicate (e - s) 0 ++ drop e gs.
Proof.
  intros He Hz. rewrite <- Hz. rewrite <- (take_drop s gs) at 1. f_equal.
  rewrite <- (take_drop (e - s) (drop s gs)) at 1. f_equal.
  rewrite drop_drop. f_equal. lia.
Qed.

Lemma ungroups_app gs rs : ungroups (gs ++ rs) = ungroups gs ++ ungroups rs.
Proof. induction gs as [|g gs IH]; [done|]. cbn [app ungroups]. by rewrite IH, app_assoc. Qed.

Lemma ungroups_zeros n : ungroups (replicate n 0) = replicate (2 * n) x00.
Proof.
  induction n as [|n IH]; [done|].
  replace (2 * S n)%nat with (S (S (2 * n))) by lia. cbn [replicate ungroups]. by rewrite IH.
Qed.

Lemma index_percent_None s :
  percent ∉ s → index_byte percent s = None.
Proof.
  induction s as [|c s IH]; intros Hn; [done|]. apply not_elem_of_cons in Hn as [Hc Hn].
  simpl. rewrite decide_False by congruence. by rewrite IH.
Qed.

(** *** Characters of a printed address *)

Definition hex_or_colon (c : byte) : Prop := hexval c ≠ None ∨ c = colon.

Lemma hexdigit_hexval n : 0 <= n < 16 → hexval (hexdigit n) ≠ None.
Proof. intros Hn. by rewrite hexval_hexdigit. Qed.

Lemma appendHex_chars g : is_group g → Forall (λ c, hexval c ≠ None) (appendHex g).
Proof.
  unfold is_group. intros Hg. unfold appendHex. rewrite !land15, !shiftr_div by lia.
  change (2 ^ 12) with 4096. change (2 ^ 8) with 256. change (2 ^ 4) with 16.
  repeat case_decide; cbn [app]; repeat constructor; apply hexdigit_hexval;
    Z.to_euclidean_division_equations; lia.
Qed.

Lemma appendHex_chars' g : is_group g → Forall hex_or_colon (appendHex g).
Proof. intros Hg. eapply Forall_impl; [by apply appendHex_chars|]. intros c Hc. by left. Qed.

Lemma colons6_chars gs : Forall is_group gs → Forall hex_or_colon (colons6 gs).
Proof.
  induction 1 as [|g gs Hg _ IH]; cbn [colons6]; [constructor|].
  constructor; [by right|]. apply Forall_app. by split; [apply appendHex_chars'|].
Qed.

Lemma join6_chars gs : Forall is_group gs → Forall hex_or_colon (join6 gs).
Proof.
  destruct 1 as [|g gs Hg Hgs]; [constructor|]. rewrite join6_colons. apply Forall_app.
  by split; [apply appendHex_chars'|apply colons6_chars].
Qed.

Lemma not_in_hex_or_colon c s : Forall hex_or_colon s → ¬ hex_or_colon c → c ∉ s.
Proof. rewrite Forall_forall. intros Hs Hc Hin. by apply Hc, Hs. Qed.

Lemma not_hex_or_colon c : hexval c = None → c ≠ colon → ¬ hex_or_colon c.
Proof. unfold hex_or_colon. naive_solver. Qed.

Lemma first_sep_appendHex g t : is_group g → first_sep (appendHex g ++ colon :: t) = Some colon.
Proof.
  intros Hg. apply first_sep_app; [|by auto].
  eapply Forall_impl; [by apply appendHex_chars|].
  intros c Hc. repeat split; intros ->; by apply Hc.
Qed.

(** The text [appendTo6] produces, in the two cases. *)
Inductive shape6 (gs : list Z) : gostring → Prop :=
  | shape_plain : shape6 gs (join6 gs)
  | shape_run s e :
      (s + 2 <= e <= 8)%nat → gs = take s gs ++ replicate (e - s) 0 ++ drop e gs →
      shape6 gs (join6 (take s gs) ++ colon :: colon :: join6 (drop e gs)).

Lemma fmt6_shape ip : length ip = 16%nat → shape6 (groups ip) (fmt6 ip).
Proof.
  intros Hl. pose proof (length_groups ip 8 Hl) as Hg. unfold fmt6.
  destruct (best_run 0 (groups ip) None) as [[s e]|] eqn:Hb.
  - apply best_run_zeros in Hb as [He Hz]. rewrite fmt6_loop_Some by lia.
    constructor; [lia|]. apply take_drop_zeros; [lia|done].
  - rewrite fmt6_loop_None by done. constructor.
Qed.

Lemma shape6_chars gs s : Forall is_group gs → shape6 gs s → Forall hex_or_colon s.
Proof.
  intros Hgs [|? ? _ _]; [by apply join6_chars|].
  apply Forall_app. split; [by apply join6_chars, Forall_take|].
  do 2 (constructor; [by right|]). by apply join6_chars, Forall_drop.
Qed.

Lemma shape6_first_sep gs s :
  length gs = 8%nat → Forall is_group gs → shape6 gs s → first_sep s = Some colon.
Proof.
  intros Hl Hgs Hs. destruct Hs as [|s e He _].
  - destruct Hgs as [|g gs Hg Hgs]; [done|]. rewrite join6_colons.
    destruct gs as [|g' gs]; [done|]. by apply first_sep_appendHex.
  - destruct s as [|s]; [done|]. destruct Hgs as [|g gs Hg Hgs]; [done|].
    cbn [firstn]. rewrite join6_colons, <- app_assoc.
    destruct (take s gs); by apply first_sep_appendHex.
Qed.

Lemma parseIPv6_no_zone s :
  percent ∉ s →
  parseIPv6 s =
    (ip ← match s with
          | x3a :: x3a :: s' =>
              match s' with
              | [] => Ok IPv6zero
              | _ => v6_loop 8 [] (Some 0%nat) s' ≫= v6_finish
              end
          | _ => v6_loop 8 [] None s ≫= v6_finish
          end; Ok (ip, [])).
Proof. intros Hp. unfold parseIPv6. rewrite index_percent_None by done. done. Qed.

Lemma parseIPv6_hex_head s :
  hex_head s → percent ∉ s →
  parseIPv6 s = (ip ← (v6_loop 8 [] None s ≫= v6_finish); Ok (ip, [])).
Proof.
  intros (n & t & Hn & ->) Hp. rewrite parseIPv6_no_zone by done.
  pose proof (hexdigit_ne_colon n Hn) as Hc. by destruct (hexdigit n).
Qed.

Lemma v6_finish_ellipsis ip1 ip2 :
  (length ip1 + length ip2 < 16)%nat →
  v6_finish (ip1 ++ ip2, Some (length ip1), [])
  = Ok (ip1 ++ replicate (16 - (length ip1 + length ip2)) x00 ++ ip2).
Proof.
  intros Hl. unfold v6_finish. cbn -[Nat.sub]. rewrite length_app.
  rewrite decide_True by done. by rewrite take_app_length, drop_app_length.
Qed.

(** The groups the text stands for, with the zero run written out. *)
Lemma ungroups_run gs s e :
  length gs = 8%nat → (s + 2 <= e <= 8)%nat →
  gs = take s gs ++ replicate (e - s) 0 ++ drop e gs →
  ungroups (take s gs) ++
  replicate (16 - (length (ungroups (take s gs)) + length (ungroups (drop e gs)))) x00 ++
  ungroups (drop e gs) = ungroups gs.
Proof.
  intros Hl He Heq. trans (ungroups (take s gs ++ replicate (e - s) 0 ++ drop e gs)).
  2:{ by rewrite <- Heq. }
  rewrite !ungroups_app, ungroups_zeros.
  rewrite !length_ungroups, length_take, length_drop. do 3 f_equal. lia.
Qed.

Lemma parseIPv6_shape gs s :
  length gs = 8%nat → Forall is_group gs → shape6 gs s → parseIPv6 s = Ok (ungroups gs, []).
Proof.
  intros Hl Hgs Hs.
  assert (Hp : percent ∉ s).
  { eapply not_in_hex_or_colon; [by eapply shape6_chars|]. by apply not_hex_or_colon. }
  destruct Hs as [|s e He Heq].
  { rewrite parseIPv6_hex_head; [|by destruct Hgs; [done|apply join6_head]|done].
    rewrite v6_loop_join; [|by destruct gs|done|lia].
    cbn -[Nat.sub]. rewrite length_ungroups, decide_False by lia. done. }
  assert (Hdl : length (drop e gs) = (8 - e)%nat) by (rewrite length_drop; lia).
  assert (Htl : length (take s gs) = s) by (rewrite length_take; lia).
  assert (Hlen : (length (ungroups (take s gs)) + length (ungroups (drop e gs)) < 16)%nat)
    by (rewrite !length_ungroups; lia).
  assert (Hdf : Forall is_group (drop e gs)) by by apply Forall_drop.
  assert (Htf : Forall is_group (take s gs)) by by apply Forall_take.
  rewrite <- (ungroups_run gs s e) by done.
  destruct s as [|s].
  - change (take 0 gs) with (@nil Z) in *. cbn [join6 app ungroups length Nat.add] in *.
    rewrite parseIPv6_no_zone by done.
    destruct (drop e gs) as [|g rs] eqn:Hd; [done|].
    destruct (join6_head g rs) as (n & t & _ & Hj); [by inversion Hdf|].
    rewrite Hj. cbv beta iota. rewrite <- Hj, v6_loop_join by (done || lia).
    pose proof (v6_finish_ellipsis [] (ungroups (g :: rs)) Hlen) as Hfin.
    cbn [mbind outcome_bind]. cbn [app length Nat.add] in *. by rewrite Hfin.
  - rewrite parseIPv6_hex_head; [|destruct gs as [|g gs]; [done|]|done].
    + rewrite v6_loop_join_ellipsis; [|by destruct gs|done|done|lia].
      cbn [mbind outcome_bind]. by rewrite v6_finish_ellipsis.
    + cbn [firstn]. rewrite join6_colons, <- app_assoc. apply appendHex_head.
      by inversion Htf.
Qed.

Lemma ParseAddr_fmt6 ip : length ip = 16%nat → ParseAddr (fmt6 ip) = Ok (ip, []).
Proof.
  intros Hl. pose proof (fmt6_shape ip Hl) as Hs. pose proof (groups_range ip) as Hg.
  pose proof (length_groups ip 8 Hl) as Hgl. unfold ParseAddr.
  rewrite (shape6_first_sep (groups ip)), (parseIPv6_shape (groups ip)) by done.
  by rewrite (ungroups_groups ip 8) by done.
Qed.

Lemma ParseIP_fmt6 ip : length ip = 16%nat → ParseIP (fmt6 ip) = Some ip.
Proof.
  intros Hl. unfold ParseIP. rewrite ParseAddr_fmt6 by done. unfold To16.
  by rewrite decide_False by lia; rewrite decide_True.
Qed.

(** ** The round trip of [net.IP] *)

Lemma To4_length ip p : To4 ip = Some p → length p = 4%nat.
Proof.
  unfold To4. repeat case_decide; intros [= <-]; [done|]. rewrite length_drop. lia.
Qed.

Lemma To4_To16 ip p : To4 ip = Some p → To16 ip = Some (v4InV6Prefix ++ p).
Proof.
  unfold To4, To16. repeat case_decide; intros [= <-]; try done; try lia.
  f_equal. destruct_and!. rewrite <- (take_drop 12 ip) at 1. congruence.
Qed.

Lemma To4_None_length ip : length ip = 16%nat ∨ length ip = 4%nat → To4 ip = None → length ip = 16%nat.
Proof. unfold To4. intros ?. repeat case_decide; try done; lia. Qed.

Definition valid_ip (ip : list byte) : Prop := (length ip = 4 ∨ length ip = 16)%nat.

Lemma fmt4_of (p : list byte) : length p = 4%nat → ∃ a b c d, p = [a; b; c; d].
Proof. intros Hl. do 4 (destruct p as [|? p]; [done|]). destruct p; [eauto|done]. Qed.

Lemma ip_string_valid ip :
  valid_ip ip → ip_string ip = match To4 ip with Some p4 => fmt4 p4 | None => fmt6 ip end.
Proof.
  intros Hv. unfold ip_string. destruct ip; [by destruct Hv|].
  rewrite decide_False; [done|]. unfold valid_ip in Hv. intros []. tauto.
Qed.

Lemma ParseIP_string ip : valid_ip ip → ParseIP (ip_string ip) = To16 ip.
Proof.
  intros Hv. rewrite ip_string_valid by done. destruct (To4 ip) as [p|] eqn:Hp.
  - destruct (fmt4_of p) as (a & b & c & d & ->); [by eapply To4_length|].
    rewrite ParseIP_fmt4. symmetry. by apply To4_To16.
  - assert (Hl : length ip = 16%nat) by (apply To4_None_length; [unfold valid_ip in Hv; tauto|done]).
    rewrite ParseIP_fmt6 by done. unfold To16. by rewrite decide_False, decide_True by lia.
Qed.

Lemma ip_string_clean ip : valid_ip ip → clean_host (ip_string ip).
Proof.
  intros Hv. rewrite ip_string_valid by done. destruct (To4 ip) as [p|] eqn:Hp.
  - destruct (fmt4_of p) as (a & b & c & d & ->); [by eapply To4_length|].
    unfold clean_host, fmt4. rewrite !elem_of_app, !elem_of_cons, !elem_of_app, !elem_of_cons.
    rewrite !elem_of_app, !elem_of_cons.
    split; intros H; destruct_or! H; try done; revert H; by apply not_in_itoa; [apply b2z_range|].
  - assert (Hl : length ip = 16%nat) by (apply To4_None_length; [unfold valid_ip in Hv; tauto|done]).
    pose proof (shape6_chars _ _ (groups_range ip) (fmt6_shape ip Hl)) as Hc.
    split; eapply not_in_hex_or_colon; try done; by apply not_hex_or_colon.
Qed.

Lemma To16_valid ip : valid_ip ip ↔ is_Some (To16 ip).
Proof.
  unfold valid_ip, To16. repeat case_decide; split; intros Hv; eauto; try lia.
  by destruct Hv.
Qed.

Lemma To16_length ip p : To16 ip = Some p → length p = 16%nat.
Proof.
  unfold To16. repeat case_decide; intros [= <-]; [simpl; lia|done].
Qed.

(** ** What [SplitHostPort] splits *)

Local Close Scope Z_scope.

Lemma last_index_byte_Some c s i : last_index_byte c s = Some i → c ∉ drop (i + 1) s ∧ i < length s.
Proof.
  revert i. induction s as [|x s IH]; intros i Hi; cbn in Hi; [done|].
  destruct (last_index_byte c s) as [n|] eqn:Hn.
  - injection Hi as <-. destruct (IH n eq_refl). cbn. split; [done|lia].
  - case_decide; [|done]. injection Hi as <-. cbn. split; [|lia].
    rewrite drop_0. clear IH. induction s as [|y s IH]; [by intros ?%elem_of_nil|]. cbn in Hn.
    destruct (last_index_byte c s) eqn:Hs; [done|]. case_decide; [done|].
    intros [->|?]%elem_of_cons; [done|]. by apply IH.
Qed.

Lemma index_byte_Some c s i : index_byte c s = Some i → c ∉ take i s.
Proof.
  revert i. induction s as [|x s IH]; intros i Hi; cbn in Hi; [done|]. case_decide.
  - injection Hi as <-. by intros ?%elem_of_nil.
  - destruct (index_byte c s) as [n|]; [|done]. injection Hi as <-. cbn.
    intros [->|Hc]%elem_of_cons; [done|]. by apply (IH n).
Qed.

Lemma elem_of_drop_le {A} (x : A) i j l : j <= i → x ∈ drop i l → x ∈ drop j l.
Proof.
  intros Hle Hx. replace i with (j + (i - j)) in Hx by lia. rewrite <- drop_drop in Hx.
  apply list_elem_of_lookup in Hx as [k Hk]. rewrite lookup_drop in Hk.
  by eapply list_elem_of_lookup_2.
Qed.

Lemma elem_of_take_sub {A} (x : A) n l : x ∈ take n l → x ∈ l.
Proof. intros Hx. rewrite <- (take_drop n l). apply elem_of_app. by left. Qed.

Lemma split_clean s h p : SplitHostPort s = Ok (h, p) → clean_host h ∧ clean_port p.
Proof.
  unfold SplitHostPort. destruct (last_index_byte colon s) as [i|] eqn:Hi; [|done].
  apply last_index_byte_Some in Hi as [Hcol Hlen]. intros H. inv_ok.
  destruct x as [[h' j] k]. inv_ok.
  repeat match goal with H : bool_decide _ = true |- _ => apply bool_decide_eq_true in H end.
  case_decide as Hb.
  - destruct (index_byte rbrack s) as [e|] eqn:He; [|done]. apply index_byte_Some in He.
    case_decide; [done|]. case_decide; [|by case_decide]. inv_ok.
    unfold go_slice in *. case_decide as Hle; [|done]. inv_ok.
    assert (Hport : clean_port (drop (e + 1 + 1) s)).
    { split_and!; [done|..]; intros Hx; eapply elem_of_drop_le in Hx; eauto; lia. }
    split; [|done]. split.
    + intros Hx%elem_of_take_sub. done.
    + intros Hx. apply He. replace e with (1 + (e - 1)) by lia.
      rewrite <- (take_drop 1 (take (1 + (e - 1)) s)). apply elem_of_app. right.
      by rewrite skipn_firstn_comm, Nat.add_comm, Nat.add_sub.
  - case_decide; [done|]. inv_ok. rewrite drop_0 in *.
    split; [split|split_and!].
    + by intros Hx%elem_of_take_sub.
    + by intros Hx%elem_of_take_sub.
    + done.
    + intros Hx. eapply (elem_of_drop_le _ _ 0) in Hx; [|lia]. by rewrite drop_0 in Hx.
    + intros Hx. eapply (elem_of_drop_le _ _ 0) in Hx; [|lia]. by rewrite drop_0 in Hx.
Qed.

Lemma last_index_byte_lookup c s i : last_index_byte c s = Some i → s !! i = Some c.
Proof.
  revert i. induction s as [|x s IH]; intros i Hi; cbn in Hi; [done|].
  destruct (last_index_byte c s) as [n|].
  - injection Hi as <-. by apply IH.
  - case_decide; [|done]. injection Hi as <-. by subst.
Qed.

Lemma index_byte_lookup c s i : index_byte c s = Some i → s !! i = Some c.
Proof.
  revert i. induction s as [|x s IH]; intros i Hi; cbn in Hi; [done|]. case_decide.
  - injection Hi as <-. by subst.
  - destruct (index_byte c s) as [n|]; [|done]. injection Hi as <-. by apply IH.
Qed.

Lemma split_at {A} (s : list A) i x : s !! i = Some x → s = take i s ++ x :: drop (S i) s.
Proof. intros H. by rewrite take_drop_middle. Qed.

Lemma split_shape s h p :
  SplitHostPort s = Ok (h, p) → s = h ++ colon :: p ∨ s = lbrack :: h ++ rbrack :: colon :: p.
Proof.
  unfold SplitHostPort. destruct (last_index_byte colon s) as [i|] eqn:Hi; [|done].
  apply last_index_byte_lookup in Hi. intros H. inv_ok.
  destruct x as [[h' j] k]. inv_ok. rewrite Nat.add_1_r in *.
  case_decide as Hb.
  - right. destruct (index_byte rbrack s) as [e|] eqn:He; [|done].
    apply index_byte_lookup in He. case_decide; [done|]. case_decide as Hei; [|by case_decide]. inv_ok.
    unfold go_slice in *. case_decide as Hle; [|done]. inv_ok.
    destruct s as [|c s]; [done|]. injection Hb as ->. destruct e as [|e]; [lia|].
    cbn [lookup list_lookup] in He. apply split_at in He.
    rewrite Nat.add_1_r in Hi |- *. cbn [drop]. rewrite drop_0, Nat.sub_succ, Nat.sub_0_r.
    cbn [lookup list_lookup] in Hi. rewrite <- (drop_S _ _ _ Hi). by rewrite <- He.
  - left. case_decide; [done|]. inv_ok. by apply split_at.
Qed.

(** ** No leading zero *)

Lemma digit_zero d : (0 <= d < 10)%Z → digit d = x30 → d = 0%Z.
Proof. intros Hd H. apply (f_equal b2z) in H. rewrite b2z_digit in H by done. change (b2z x30) with 48%Z in H. lia. Qed.

(** No leading zero. *)
Lemma fmt_dec_head fuel n s :
  (0 < n < 10 ^ Z.of_nat fuel)%Z → head (fmt_dec fuel n s) ≠ Some x30.
Proof.
  revert n s. induction fuel as [|fuel IH]; intros n s Hn; [cbn in Hn; lia|]. cbn [fmt_dec].
  case_decide.
  - rewrite Z.mod_small by lia. intros [= H0]. apply digit_zero in H0; lia.
  - apply IH. rewrite Nat2Z.inj_succ, Z.pow_succ_r in Hn by lia.
    split; [apply Z.div_str_pos|apply Z.div_lt_upper_bound]; lia.
Qed.

Lemma itoa_no_zero z : (0 <= z)%Z → head (itoa z) = Some x30 → itoa z = [x30].
Proof.
  intros Hz. destruct (decide (z = 0)%Z) as [->|]; [done|]. intros H. exfalso. revert H.
  rewrite itoa_nonneg by done. pose proof (itoa_fuel z Hz). apply fmt_dec_head. lia.
Qed.

(** ** Characters and lengths of addresses *)

Definition addr_char (c : byte) : Prop := hexval c ≠ None ∨ c = colon ∨ c = dot.

Lemma digit_addr_char c : is_digit c = true → addr_char c.
Proof. intros Hc. left. destruct c; first [discriminate Hc|done]. Qed.

Lemma ip_string_chars ip : valid_ip ip → Forall addr_char (ip_string ip).
Proof.
  intros Hv. rewrite ip_string_valid by done. destruct (To4 ip) as [p|] eqn:Hp.
  - destruct (fmt4_of p) as (a & b & c & d & ->); [by eapply To4_length|]. unfold fmt4.
    assert (Hd : ∀ x, Forall addr_char (itoa (b2z x))).
    { intros x. eapply Forall_impl; [apply itoa_digits, b2z_range|]. apply digit_addr_char. }
    assert (Hdot : addr_char dot) by (right; by right).
    repeat first [apply Hd | apply Forall_app; split | apply Forall_cons; split | exact Hdot].
  - assert (Hl : length ip = 16) by (apply To4_None_length; [unfold valid_ip in Hv; tauto|done]).
    eapply Forall_impl; [exact (shape6_chars _ _ (groups_range ip) (fmt6_shape ip Hl))|].
    intros c [Hc|Hc]; [by left|right; by left].
Qed.

Lemma v4_loop_length s : ∀ prev val n fields l,
  v4_loop s prev val n fields = Ok l → length fields <= 3 → length l = 4.
Proof.
  induction s as [|c s IH]; intros prev val n fields l H Hf; cbn [v4_loop] in H.
  - apply bind_Ok in H as (u & Hr%require_Ok & [= <-]). apply bool_decide_eq_true in Hr.
    rewrite length_app. cbn. lia.
  - destruct (is_digit c).
    + apply bind_Ok in H as (u & _ & H). apply bind_Ok in H as (u' & _ & H). by eapply IH.
    + case_decide; [|done]. apply bind_Ok in H as (u & _ & H). apply bind_Ok in H as (u' & Hr%require_Ok & H).
      apply negb_true_iff, bool_decide_eq_false in Hr. eapply IH; [exact H|]. rewrite length_app. cbn. lia.
Qed.

Lemma v6_loop_length fuel : ∀ ip ell s ip' ell' s',
  v6_loop fuel ip ell s = Ok (ip', ell', s') → length ip + 2 * fuel <= 16 → length ip' <= 16.
Proof.
  induction fuel as [|fuel IH]; intros ip ell s ip' ell' s' H Hl; cbn [v6_loop] in H.
  { injection H as <- _ _. lia. }
  apply bind_Ok in H as ([[off acc] rest] & _ & H). apply bind_Ok in H as (u & _ & H).
  assert (Hip : length (ip ++ put16 acc) = length ip + 2) by by rewrite length_app.
  case_decide.
  - apply bind_Ok in H as (u1 & _ & H). apply bind_Ok in H as (u2 & Hr%require_Ok & H).
    apply bind_Ok in H as (v4 & Hv4 & [= <- _ _]). apply v4_loop_length in Hv4; [|cbn; lia].
    apply negb_true_iff, bool_decide_eq_false in Hr. rewrite length_app. lia.
  - destruct rest as [|c rest]; [injection H as <- _ _; lia|]. apply bind_Ok in H as (u1 & _ & H).
    destruct rest as [|c2 rest]; [done|]. case_decide.
    + apply bind_Ok in H as (u2 & _ & H).
      destruct rest; [injection H as <- _ _; lia|]. eapply IH; [exact H|]. lia.
    + eapply IH; [exact H|]. lia.
Qed.

Lemma v6_finish_length r ip : v6_finish r = Ok ip → length (fst (fst r)) <= 16 → length ip = 16.
Proof.
  destruct r as [[ip' ell] s]. cbn [fst]. unfold v6_finish. intros (u & _ & H)%bind_Ok Hl.
  case_decide.
  - destruct ell as [e|]; [|done]. injection H as <-.
    rewrite !length_app, length_take, length_drop, length_replicate. lia.
  - destruct ell; [done|]. injection H as <-. lia.
Qed.

Lemma ParseAddr_valid s ip zone : ParseAddr s = Ok (ip, zone) → valid_ip ip.
Proof.
  assert (H6 : ∀ ell t, (v6_loop 8 [] ell t ≫= v6_finish) = Ok ip → length ip = 16).
  { intros ell t ([[ip' ell'] t'] & Hl & Hf)%bind_Ok. apply v6_finish_length in Hf; [done|].
    cbn [fst]. eapply v6_loop_length; [exact Hl|]. cbn. lia. }
  assert (Hv6 : parseIPv6 s = Ok (ip, zone) → length ip = 16).
  { unfold parseIPv6. intros ([t z] & _ & (ip' & Hip & [= -> _])%bind_Ok)%bind_Ok. clear s.
    destruct t as [|c t]; [by eapply H6|]. destruct (decide (c = colon)) as [->|Hc].
    - destruct t as [|c2 t]; [by eapply H6|]. destruct (decide (c2 = colon)) as [->|Hc2].
      + destruct t; [by injection Hip as <-|by eapply H6].
      + apply (H6 None (colon :: c2 :: t)). rewrite <- Hip. destruct c2; first [done|congruence].
    - apply (H6 None (c :: t)). rewrite <- Hip. destruct c; first [done|congruence]. }
  unfold ParseAddr. intros H. unfold valid_ip. destruct (first_sep s) as [c|]; [|done].
  destruct (decide (c = dot)) as [->|Hd].
  { apply bind_Ok in H as (ip' & Hip & [= -> _]). apply v4_loop_length in Hip; [by left|cbn; lia]. }
  destruct (decide (c = colon)) as [->|Hc]; [right; by apply Hv6|].
  destruct c; first [discriminate H|congruence].
Qed.

(** The address a text is of, without its IPv4-in-IPv6 form. *)
Definition unmapped (ip : list byte) : list byte := default ip (To4 ip).

Lemma ParseAddr_string ip : valid_ip ip → ParseAddr (ip_string ip) = Ok (unmapped ip, []).
Proof.
  intros Hv. rewrite ip_string_valid by done. unfold unmapped. destruct (To4 ip) as [p|] eqn:Hp; cbn [default].
  - destruct (fmt4_of p) as (a & b & c & d & ->); [by eapply To4_length|]. apply ParseAddr_fmt4.
  - apply ParseAddr_fmt6. apply To4_None_length; [unfold valid_ip in Hv; tauto|done].
Qed.

Lemma Unmap_unmapped ip zone : Unmap (unmapped ip, zone) = (unmapped ip, if To4 ip then [] else zone).
Proof.
  unfold Unmap, unmapped. cbn [fst]. destruct (To4 ip) as [p|] eqn:Hp; cbn [default]; [|by rewrite Hp].
  apply To4_length in Hp. unfold To4. by rewrite decide_True.
Qed.

Lemma unmapped_valid ip : valid_ip ip → valid_ip (unmapped ip).
Proof.
  intros Hv. unfold unmapped. destruct (To4 ip) as [p|] eqn:Hp; [|done]. left. by eapply To4_length.
Qed.

(** Parsing does not panic. *)
Ltac no_panic :=
  repeat match goal with
  | H : (_ ≫= _) = Panic |- _ => apply bind_Panic in H as [H|(? & ? & H)]
  | H : require _ _ = Panic |- _ => by apply require_not_Panic in H
  | H : Ok _ = Panic |- _ => discriminate H
  | H : Err _ = Panic |- _ => discriminate H
  end.

Lemma v4_loop_not_Panic s : ∀ prev val n fields, v4_loop s prev val n fields ≠ Panic.
Proof.
  induction s as [|c s IH]; intros prev val n fields H; cbn [v4_loop] in H; [no_panic|].
  destruct (is_digit c); [no_panic; by apply IH in H|]. case_decide; no_panic. by apply IH in H.
Qed.

Lemma scan_hex_not_Panic s : ∀ off acc, scan_hex s off acc ≠ Panic.
Proof.
  induction s as [|c s IH]; intros off acc H; cbn [scan_hex] in H; [done|].
  destruct (hexval c); [|done]. no_panic. by apply IH in H.
Qed.

Lemma v6_loop_not_Panic fuel : ∀ ip ell s, v6_loop fuel ip ell s ≠ Panic.
Proof.
  induction fuel as [|fuel IH]; intros ip ell s H; cbn [v6_loop] in H; [done|].
  no_panic; [by apply scan_hex_not_Panic in H|]. destruct x as [[off acc] rest]. no_panic.
  case_decide; no_panic; [by apply v4_loop_not_Panic in H|].
  destruct rest as [|c rest]; no_panic. destruct rest as [|c2 rest]; no_panic.
  case_decide; no_panic; [|by apply IH in H]. destruct rest; no_panic. by apply IH in H.
Qed.

Lemma v6_finish_not_Panic r : v6_finish r ≠ Panic.
Proof.
  destruct r as [[ip ell] s]. intros H. unfold v6_finish in H. no_panic. case_decide; by destruct ell.
Qed.

Lemma ParseAddr_not_Panic s : ParseAddr s ≠ Panic.
Proof.
  assert (H6 : ∀ ell t, (v6_loop 8 [] ell t ≫= v6_finish) ≠ Panic).
  { intros ell t H. no_panic; [by apply v6_loop_not_Panic in H|by apply v6_finish_not_Panic in H]. }
  assert (Hv6 : parseIPv6 s ≠ Panic).
  { unfold parseIPv6. intros H. apply bind_Panic in H as [H|([t z] & _ & H)].
    - destruct (index_byte percent s); no_panic.
    - no_panic. destruct t as [|c t]; [by apply H6 in H|].
      destruct (decide (c = colon)) as [->|Hc].
      + destruct t as [|c2 t]; [by apply H6 in H|]. destruct (decide (c2 = colon)) as [->|Hc2].
        * destruct t; [done|by apply H6 in H].
        * apply (H6 None (colon :: c2 :: t)). rewrite <- H. destruct c2; first [done|congruence].
      + apply (H6 None (c :: t)). rewrite <- H. destruct c; first [done|congruence]. }
  unfold ParseAddr. destruct (first_sep s) as [c|]; [|done]. intros H.
  destruct (decide (c = dot)) as [->|Hd]; [no_panic; by apply v4_loop_not_Panic in H|].
  destruct (decide (c = colon)) as [->|Hc]; [done|]. destruct c; first [discriminate H|congruence].
Qed.
