(* ===== verification/Conn.v ===== *)
(** * A client connection as a handler sees it

    The bytes the peer sends arrive in segments; one [conn.Read] returns at most
    one segment, [io.ReadFull] assembles as many as it needs.  A handler is a
    function on the connection state that returns a value, returns early with an
    error, or panics; what it does to the outside is recorded in a trace. *)

From S2P Require Import Prelude.

(** What a handler does, in order.  Stream and dial events belong to the tunnel
    the handler opens on the client's behalf. *)
Inductive event :=
  | Wrote (bs : list byte) (ok : bool)
  | ConnDeadline (armed : bool)
  | ConnClosed
  | UDPAssociate
  | ResolvedTo (connectTarget hostHeader : gostring)
  | StreamOpened
  | StreamDeadline (armed : bool)
  | ConnectSent (authority authorization : gostring) (hostHeader : option gostring)
  | StreamReleased
  | Dialed (target : gostring)
  | RemoteClosed
  | Relayed (target : gostring).

#[export] Instance event_eq_dec : EqDecision event.
Proof. solve_decision. Defined.

(** [inbox]: the segments still to arrive, after which reads fail (end of file
    or deadline).  [wok]: the outcomes of the next writes; when the list is
    exhausted writes succeed. *)
Record conn := Conn { inbox : list (list byte); wok : list bool; trace : list event }.

Definition emit_to (ev : event) (c : conn) : conn :=
  Conn (inbox c) (wok c) (trace c ++ [ev]).

(** ** The handler monad *)

Definition io (E A : Type) : Type := conn → outcome E A * conn.

#[export] Instance io_ret E : MRet (io E) := λ A a c, (Ok a, c).
#[export] Instance io_bind E : MBind (io E) := λ A B f m c,
  match m c with
  | (Ok a, c') => f a c'
  | (Err e, c') => (Err e, c')
  | (Panic, c') => (Panic, c')
  end.

Definition fail {E A} (e : E) : io E A := λ c, (Err e, c).

Definition lift {E A} (m : outcome E A) : io E A := λ c, (m, c).

(** Run [m] and inspect its error, as [if x, err := m(); err != nil]. *)
Definition attempt {E F A} (m : io E A) : io F (E + A) := λ c,
  match m c with
  | (Ok a, c') => (Ok (inr a), c')
  | (Err e, c') => (Ok (inl e), c')
  | (Panic, c') => (Panic, c')
  end.

(** [defer]: the clean-up runs on every exit, a panic included. *)
Definition finally {E A} (m : io E A) (ev : event) : io E A := λ c,
  let '(r, c') := m c in (r, emit_to ev c').

Definition emit {E} (ev : event) : io E unit := λ c, (Ok (), emit_to ev c).

Definition assert_io {E} (b : bool) (e : E) : io E unit := λ c, (require b e, c).

(** ** Reads and writes *)

Definition push_front (seg : list byte) (segs : list (list byte)) : list (list byte) :=
  match seg with [] => segs | _ => seg :: segs end.

(** [conn.Read(buf)] with [len(buf) = max]; [None] is an error. *)
Definition read {E} (max : nat) : io E (option (list byte)) := λ c,
  match inbox c with
  | [] => (Ok None, c)
  | seg :: segs =>
      (Ok (Some (take max seg)), Conn (push_front (drop max seg) segs) (wok c) (trace c))
  end.

(** The loop of [io.ReadFull]. *)
Fixpoint take_full (n : nat) (segs : list (list byte)) : option (list byte * list (list byte)) :=
  match segs with
  | [] => if decide (n = 0) then Some ([], []) else None
  | seg :: segs' =>
      if decide (n <= length seg) then Some (take n seg, push_front (drop n seg) segs')
      else
        '(bs, rest) ← take_full (n - length seg) segs';
        Some (seg ++ bs, rest)
  end.

(** [io.ReadFull(conn, buf)]: the whole buffer, or the error [e]. *)
Definition readFull {E} (n : nat) (e : E) : io E (list byte) := λ c,
  match take_full n (inbox c) with
  | Some (bs, segs) => (Ok bs, Conn segs (wok c) (trace c))
  | None => (Err e, Conn [] (wok c) (trace c))
  end.

Definition next_ok (ws : list bool) : bool := match ws with [] => true | b :: _ => b end.

(** [conn.Write(bs)]; the result says whether it succeeded. *)
Definition write {E} (bs : list byte) : io E bool := λ c,
  let ok := next_ok (wok c) in
  (Ok ok, Conn (inbox c) (tail (wok c)) (trace c ++ [Wrote bs ok])).

(** ** Runs and their traces *)

Definition result {E A} (m : io E A) (c : conn) : outcome E A := fst (m c).
Definition after {E A} (m : io E A) (c : conn) : conn := snd (m c).

(** The connection a handler starts on. *)
Definition start (segs : list (list byte)) (ws : list bool) : conn := Conn segs ws [].

(** [m] only appends to the trace, and every event it appends satisfies [P]. *)
Definition emits {E A} (P : event → Prop) (m : io E A) : Prop :=
  ∀ c, ∃ tr, trace (after m c) = trace c ++ tr ∧ Forall P tr.

Lemma emits_ret {E A} P (a : A) : emits (E:=E) P (mret a).
Proof. intros c. exists []. by rewrite app_nil_r. Qed.

Lemma emits_bind {E A B} P (m : io E A) (f : A → io E B) :
  emits P m → (∀ a, emits P (f a)) → emits P (m ≫= f).
Proof.
  intros Hm Hf c. destruct (Hm c) as (t1 & H1 & Hp1). unfold after, mbind, io_bind in *.
  destruct (m c) as [[a|e|] c']; simpl in *; try by exists t1.
  destruct (Hf a c') as (t2 & H2 & Hp2). unfold after in H2. exists (t1 ++ t2).
  rewrite H2, H1, app_assoc. split; [done|]. by apply Forall_app.
Qed.

Lemma emits_attempt {E F A} P (m : io E A) : emits P m → emits P (attempt (F:=F) m).
Proof.
  intros Hm c. specialize (Hm c). unfold after, attempt in *.
  by destruct (m c) as [[a|e|] c'].
Qed.

Lemma emits_emit {E} (P : event → Prop) ev : P ev → emits (E:=E) P (emit ev).
Proof. intros Hp c. exists [ev]. split; [done|]. by constructor. Qed.

Lemma emits_lift {E A} P (m : outcome E A) : emits P (lift m).
Proof. intros c. exists []. by rewrite app_nil_r. Qed.

Lemma emits_assert {E} P b (e : E) : emits P (assert_io b e).
Proof. intros c. exists []. by rewrite app_nil_r. Qed.

Lemma emits_fail {E A} P (e : E) : emits (A:=A) P (fail e).
Proof. intros c. exists []. by rewrite app_nil_r. Qed.

Lemma emits_read {E} P n : emits (E:=E) P (read n).
Proof.
  intros c. exists []. rewrite app_nil_r. unfold after, read. by destruct (inbox c).
Qed.

Lemma emits_readFull {E} P n (e : E) : emits P (readFull n e).
Proof.
  intros c. exists []. rewrite app_nil_r. unfold after, readFull.
  by destruct (take_full n (inbox c)) as [[]|].
Qed.

Lemma emits_write {E} (P : event → Prop) bs :
  (∀ ok, P (Wrote bs ok)) → emits (E:=E) P (write bs).
Proof. intros Hp c. eexists [_]. split; [done|]. by constructor. Qed.

Lemma emits_finally {E A} (P : event → Prop) (m : io E A) ev :
  emits P m → P ev → emits P (finally m ev).
Proof.
  intros Hm Hp c. destruct (Hm c) as (t & Ht & Hpt). unfold after, finally in *.
  destruct (m c) as [r c']; simpl in *. exists (t ++ [ev]). rewrite Ht, app_assoc.
  split; [done|]. apply Forall_app. by split; [|constructor].
Qed.

#[export] Hint Resolve emits_ret emits_bind emits_attempt emits_emit emits_lift emits_assert
  emits_fail emits_read emits_readFull emits_write emits_finally : go.

(** ** Reading does not depend on the segmentation *)

Definition stream (c : conn) : list byte := concat (inbox c).

Lemma concat_push_front seg segs : concat (push_front seg segs) = seg ++ concat segs.
Proof. by destruct seg. Qed.

Lemma take_full_spec n segs :
  match take_full n segs with
  | Some (bs, rest) => n <= length (concat segs) ∧ bs = take n (concat segs)
                       ∧ concat rest = drop n (concat segs)
  | None => length (concat segs) < n
  end.
Proof.
  revert n. induction segs as [|seg segs IH]; intros n; cbn [take_full concat].
  { case_decide; [subst|simpl; lia]. by rewrite take_nil, drop_nil. }
  rewrite length_app. case_decide.
  - rewrite concat_push_front. split; [lia|].
    split; [by rewrite take_app_le by lia|by rewrite drop_app_le by lia].
  - specialize (IH (n - length seg)).
    destruct (take_full (n - length seg) segs) as [[bs rest]|]; cbn; [|lia].
    destruct IH as (Hl & -> & ->). split; [lia|].
    by rewrite take_app_ge, drop_app_ge by lia.
Qed.

(** Two connections whose peers send the same byte stream. *)
Definition same_stream (c1 c2 : conn) : Prop :=
  stream c1 = stream c2 ∧ wok c1 = wok c2 ∧ trace c1 = trace c2.

#[export] Instance same_stream_equiv : Equivalence same_stream.
Proof.
  unfold same_stream. split.
  - intros c. done.
  - intros c1 c2 (? & ? & ?). done.
  - intros c1 c2 c3 (-> & -> & ->). done.
Qed.

(** [m] cannot observe the segmentation. *)
Notation segmentation_free m :=
  (Proper (same_stream ==> prod_relation eq same_stream) m) (only parsing).

#[export] Instance seg_ret E A (a : A) : segmentation_free (mret a : io E A).
Proof. intros c1 c2 Hc. by split. Qed.

Lemma seg_bind {E A B} (m : io E A) (f : A → io E B) :
  segmentation_free m → (∀ a, segmentation_free (f a)) → segmentation_free (m ≫= f).
Proof.
  intros Hm Hf c1 c2 Hc. specialize (Hm c1 c2 Hc). unfold mbind, io_bind.
  destruct (m c1) as [r1 c1'], (m c2) as [r2 c2'], Hm as [Hr Hc']. cbn in Hr, Hc'. subst r2.
  destruct r1; [by apply Hf|by split|by split].
Qed.

Lemma seg_readFull {E} n (e : E) : segmentation_free (readFull n e).
Proof.
  intros c1 c2 (Hs & Hw & Ht). unfold stream in Hs. unfold readFull.
  pose proof (take_full_spec n (inbox c1)) as H1. pose proof (take_full_spec n (inbox c2)) as H2.
  rewrite Hs in H1.
  destruct (take_full n (inbox c1)) as [[b1 r1]|], (take_full n (inbox c2)) as [[b2 r2]|];
    try lia.
  - destruct H1 as (_ & -> & H1), H2 as (_ & -> & H2). split; [done|].
    split; [unfold stream; cbn; congruence|done].
  - by split.
Qed.

Lemma seg_write {E} bs : segmentation_free (write bs : io E bool).
Proof. intros c1 c2 (Hs & Hw & Ht). unfold write. rewrite Hw, Ht. by split. Qed.

Lemma seg_fail {E A} (e : E) : segmentation_free (fail e : io E A).
Proof. intros c1 c2 Hc. by split. Qed.

Lemma seg_lift {E A} (m : outcome E A) : segmentation_free (lift m).
Proof. intros c1 c2 Hc. by split. Qed.

Lemma seg_assert {E} b (e : E) : segmentation_free (assert_io b e).
Proof. intros c1 c2 Hc. by split. Qed.

Lemma seg_emit {E} ev : segmentation_free (emit ev : io E unit).
Proof. intros c1 c2 (Hs & Hw & Ht). split; [done|]. cbn. unfold same_stream. cbn. by rewrite Ht. Qed.

Lemma seg_attempt {E F A} (m : io E A) :
  segmentation_free m → segmentation_free (attempt (F:=F) m).
Proof.
  intros Hm c1 c2 Hc. specialize (Hm c1 c2 Hc). unfold attempt.
  destruct (m c1) as [r1 c1'], (m c2) as [r2 c2'], Hm as [Hr Hc']. cbn in Hr, Hc'. subst r2.
  by destruct r1.
Qed.

Lemma seg_finally {E A} (m : io E A) ev :
  segmentation_free m → segmentation_free (finally m ev).
Proof.
  intros Hm c1 c2 Hc. specialize (Hm c1 c2 Hc). unfold finally.
  destruct (m c1) as [r1 c1'], (m c2) as [r2 c2'], Hm as [Hr (Hs & Hw & Ht)].
  cbn in *. subst. split; [done|]. unfold same_stream. cbn. by rewrite Ht.
Qed.

#[export] Hint Resolve seg_ret seg_bind seg_readFull seg_write seg_fail seg_lift seg_assert
  seg_emit seg_attempt seg_finally : go.

(** ** Successful steps *)

Lemma io_bind_Ok {E A B} (m : io E A) (f : A → io E B) c b c' :
  (m ≫= f) c = (Ok b, c') ↔ ∃ a c1, m c = (Ok a, c1) ∧ f a c1 = (Ok b, c').
Proof.
  unfold mbind, io_bind. destruct (m c) as [[a|e|] c1].
  - split; [eauto|]. by intros (? & ? & [= -> ->] & ?).
  - split; [done|]. by intros (? & ? & [=] & ?).
  - split; [done|]. by intros (? & ? & [=] & ?).
Qed.

Lemma readFull_Ok {E} n (e : E) c bs c' :
  readFull n e c = (Ok bs, c') →
  length bs = n ∧ stream c = bs ++ stream c' ∧ wok c' = wok c ∧ trace c' = trace c.
Proof.
  unfold readFull, stream. pose proof (take_full_spec n (inbox c)) as H.
  destruct (take_full n (inbox c)) as [[b r]|]; [|done]. intros [= <- <-]. cbn.
  destruct H as (Hl & -> & ->). rewrite length_take. repeat split; [lia|].
  by rewrite take_drop.
Qed.

Lemma assert_io_Ok {E} b (e : E) c u c' : assert_io b e c = (Ok u, c') → b = true ∧ c' = c.
Proof. unfold assert_io. destruct b; cbn; intros [=]; by subst. Qed.

(** The first bytes of a stream, when it is long enough. *)
Lemma readFull_app {E} (e : E) bs rest ws tr :
  ∀ c, stream c = bs ++ rest → wok c = ws → trace c = tr →
  ∃ c', readFull (length bs) e c = (Ok bs, c') ∧ stream c' = rest ∧ wok c' = ws ∧ trace c' = tr.
Proof.
  intros c Hs Hw Ht. unfold readFull, stream in *.
  pose proof (take_full_spec (length bs) (inbox c)) as H. rewrite Hs in H.
  destruct (take_full (length bs) (inbox c)) as [[b r]|].
  - destruct H as (_ & -> & H). rewrite take_app_length. eexists; split; [done|].
    cbn. by rewrite H, drop_app_length.
  - rewrite length_app in H. lia.
Qed.
