(* ===== verification/Socks5Wire.v ===== *)
(** * SOCKS5 wire formats

    The byte formats of src/tunnel: the request address of [parseSOCKS5Addr]
    (masque.go), the UDP request and reply frames of [parseUDPRequest] and
    [appendUDPReply] (udp.go), and the replies of [sendSocks5Err],
    [sendSocks5Success] and [sendSocks5Bound]. *)

From Stdlib Require Import Init.Byte.
From S2P Require Import Prelude GoNet GoNetFacts Conn.

(** ** Constants and data *)

Definition socks5CmdConnect : byte := x01.
Definition socks5CmdBind : byte := x02.
Definition socks5CmdUDPAssociate : byte := x03.

Record UDPAddr := { UDP_IP : list byte; UDP_Port : Z; UDP_Zone : gostring }.

#[export] Instance UDPAddr_eq_dec : EqDecision UDPAddr.
Proof. solve_decision. Defined.

Record SOCKS5Config := { Username : gostring; Password : gostring; AllowUDP : bool }.

(** [username != "" && password != ""] *)
Definition requireAuth (cfg : SOCKS5Config) : bool :=
  negb (bool_decide (Username cfg = [])) && negb (bool_decide (Password cfg = [])).

(** One constructor per error the parsers construct. *)
Inductive wire_error :=
  | DataTooShort (n : nat)
  | IPv4Truncated
  | DomainLengthTruncated
  | DomainEmpty
  | DomainTruncated
  | IPv6Truncated
  | UnknownAddrType (t : byte)
  | Fragmented (frag : byte)
  | ZeroPort
  | UnusableAddr (ip : list byte).

#[export] Instance wire_error_eq_dec : EqDecision wire_error.
Proof. solve_decision. Defined.

(** ** parseSOCKS5Addr

    The result is the target [host:port] and the bare host.  A slice expression
    is modelled with its bounds checked against the length; every slice below is
    preceded by a length check, so the capacity of the read buffer plays no part. *)
Definition parseSOCKS5Addr (data : list byte) : outcome wire_error (gostring * gostring) :=
  _ ← require (bool_decide (4 <= length data)) (DataTooShort (length data));
  addrType ← go_index data 3;
  '(host, port) ←
    match addrType with
    | x01 =>
        _ ← require (bool_decide (10 <= length data)) IPv4Truncated;
        ip ← go_slice data 4 8;
        hi ← go_index data 8;
        lo ← go_index data 9;
        Ok (ip_string ip, be16 hi lo)
    | x03 =>
        l ← go_index data 4;
        let addrLen := Z.to_nat (b2z l) in
        _ ← require (bool_decide (5 + addrLen + 2 <= length data)) DomainTruncated;
        host ← go_slice data 5 (5 + addrLen);
        hi ← go_index data (5 + addrLen);
        lo ← go_index data (5 + addrLen + 1);
        Ok (host, be16 hi lo)
    | x04 =>
        _ ← require (bool_decide (22 <= length data)) IPv6Truncated;
        ip ← go_slice data 4 20;
        hi ← go_index data 20;
        lo ← go_index data 21;
        Ok (ip_string ip, be16 hi lo)
    | t => Err (UnknownAddrType t)
    end;
  _ ← require (negb (bool_decide (port = 0%Z))) ZeroPort;
  Ok (JoinHostPort host (itoa port), host).

(** ** parseUDPRequest

    [off] is threaded as in the source; the result is the destination and the
    payload. *)
Definition parseUDPRequest (buf : list byte) : outcome wire_error (gostring * list byte) :=
  _ ← require (bool_decide (4 <= length buf)) (DataTooShort (length buf));
  frag ← go_index buf 2;
  _ ← require (bool_decide (frag = x00)) (Fragmented frag);
  atyp ← go_index buf 3;
  let off := 4 in
  '(host, off) ←
    match atyp with
    | x01 =>
        _ ← require (bool_decide (off + 4 + 2 <= length buf)) IPv4Truncated;
        ip ← go_slice buf off (off + 4);
        Ok (ip_string ip, off + 4)
    | x03 =>
        _ ← require (bool_decide (off + 1 <= length buf)) DomainLengthTruncated;
        lb ← go_index buf off;
        let l := Z.to_nat (b2z lb) in
        let off := S off in
        _ ← require (negb (bool_decide (l = 0))) DomainEmpty;
        _ ← require (bool_decide (off + l + 2 <= length buf)) DomainTruncated;
        host ← go_slice buf off (off + l);
        Ok (host, off + l)
    | x04 =>
        _ ← require (bool_decide (off + 16 + 2 <= length buf)) IPv6Truncated;
        ip ← go_slice buf off (off + 16);
        Ok (ip_string ip, off + 16)
    | t => Err (UnknownAddrType t)
    end;
  pb ← go_slice buf off (off + 2);
  hi ← go_index pb 0;
  lo ← go_index pb 1;
  let port := be16 hi lo in
  let off := off + 2 in
  _ ← require (negb (bool_decide (port = 0%Z))) ZeroPort;
  payload ← go_slice buf off (length buf);
  Ok (JoinHostPort host (itoa port), payload).

(** ** appendUDPReply *)
Definition appendUDPReply (dst : list byte) (src : UDPAddr) (payload : list byte)
    : outcome wire_error (list byte) :=
  let dst := dst ++ [x00; x00; x00] in
  dst ←
    match To4 (UDP_IP src) with
    | Some v4 => Ok ((dst ++ [x01]) ++ v4)
    | None =>
        match To16 (UDP_IP src) with
        | Some v6 => Ok ((dst ++ [x04]) ++ v6)
        | None => Err (UnusableAddr (UDP_IP src))
        end
    end;
  let dst := dst ++ put16 (UDP_Port src) in
  Ok (dst ++ payload).

(** ** Replies on the control connection *)

Definition sendSocks5Err {E} (code : byte) : io E unit :=
  _ ← write [x05; code; x00; x01; x00; x00; x00; x00; x00; x00];
  mret ().

Definition sendSocks5Success {E} : io E unit :=
  _ ← write [x05; x00; x00; x01; x00; x00; x00; x00; x00; x00];
  mret ().

Inductive bound_error := BadBound (ip : list byte) | BoundWrite.

Definition sendSocks5Bound (ip : list byte) (port : Z) : io bound_error unit :=
  let reply := [x05; x00; x00] in
  reply ← lift
    match To4 ip with
    | Some v4 => Ok ((reply ++ [x01]) ++ v4)
    | None =>
        match To16 ip with
        | Some v6 => Ok ((reply ++ [x04]) ++ v6)
        | None => Err (BadBound ip)
        end
    end;
  let reply := reply ++ put16 port in
  ok ← write reply;
  assert_io ok BoundWrite.

(** ** Destination fields, as a client encodes them (RFC 1928 section 5) *)

Inductive dest :=
  | DestIPv4 (ip : list byte)
  | DestDomain (name : gostring)
  | DestIPv6 (ip : list byte).

(** A destination a client can put on the wire. *)
Definition dest_ok (d : dest) : Prop :=
  match d with
  | DestIPv4 ip => length ip = 4
  | DestDomain name => length name < 256
  | DestIPv6 ip => length ip = 16
  end.

Definition encode_dest (d : dest) : list byte :=
  match d with
  | DestIPv4 ip => x01 :: ip
  | DestDomain name => x03 :: z2b (Z.of_nat (length name)) :: name
  | DestIPv6 ip => x04 :: ip
  end.

(** The host string the parsers build for it. *)
Definition dest_host (d : dest) : gostring :=
  match d with DestIPv4 ip | DestIPv6 ip => ip_string ip | DestDomain name => name end.
