(* ===== verification/Socks5WireFacts.v ===== *)
(** * What the SOCKS5 wire parsers accept, and what they produce

    Exact characterisations of [parseSOCKS5Addr] and [parseUDPRequest], the
    round trip with [appendUDPReply], and the one input class on which
    [parseSOCKS5Addr] panics. *)

From Stdlib Require Import Init.Byte.
From S2P Require Import Prelude GoNet GoNetFacts Conn Socks5Wire.

(** ** Normal forms *)

Lemma take_fields {A} (l : list A) k :
  k + 2 <= length l → ∃ f hi lo extra, l = f ++ hi :: lo :: extra ∧ length f = k.
Proof.
  intros Hl. exists (take k l).
  destruct (drop k l) as [|hi [|lo extra]] eqn:Hd.
  1,2: apply (f_equal length) in Hd; rewrite length_drop in Hd; simpl in Hd; lia.
  exists hi, lo, extra. split; [by rewrite <- Hd, take_drop|]. rewrite length_take. lia.
Qed.

Lemma lookup_mid {A} (p s : list A) x i : i = length p → (p ++ x :: s) !! i = Some x.
Proof. intros ->. by rewrite list_lookup_middle. Qed.

Lemma z2b_length (name : gostring) :
  length name < 256 → Z.to_nat (b2z (z2b (Z.of_nat (length name)))) = length name.
Proof. intros. rewrite b2z_z2b_small by lia. lia. Qed.

(** The destination, then the port: the part shared by both frames. *)
Lemma encode_dest_length d : dest_ok d → 4 <= length (encode_dest d) + 2.
Proof. destruct d; simpl; lia. Qed.

(** [require] on a length check that holds. *)
Lemma require_true {E A} (P : Prop) `{Decision P} (e : E) (k : unit → outcome E A) :
  P → (require (bool_decide P) e ≫= k) = k ().
Proof. intros HP. by rewrite bool_decide_eq_true_2. Qed.

Lemma go_index_at {E A B} (l p s : list A) x i (k : A → outcome E B) :
  l = p ++ x :: s → i = length p → (go_index l i ≫= k) = k x.
Proof. intros -> ->. unfold go_index. by rewrite list_lookup_middle. Qed.

Lemma go_slice_at {E A B} (l p m s : list A) i j (k : list A → outcome E B) :
  l = p ++ m ++ s → i = length p → j = i + length m → (go_slice l i j ≫= k) = k m.
Proof. intros -> -> ->. by rewrite go_slice_app. Qed.

(** List equalities up to the placement of parentheses. *)
Ltac lists := simpl; repeat (rewrite <- app_assoc; simpl); done.

Ltac size := subst; autorewrite with golen; simpl; lia.

Lemma port_check {A} (port : Z) (r : A) :
  (require (negb (bool_decide (port = 0%Z))) ZeroPort ≫= λ _, Ok r)
  = if decide (port = 0%Z) then Err ZeroPort else Ok r.
Proof. by destruct (decide (port = 0%Z)) as [->|]; [|rewrite bool_decide_eq_false_2]. Qed.

(** ** parseSOCKS5Addr *)

Definition request (ver cmd rsv : byte) (d : dest) (hi lo : byte) (extra : list byte)
    : list byte :=
  [ver; cmd; rsv] ++ encode_dest d ++ hi :: lo :: extra.

Lemma parse_normal ver cmd rsv d hi lo extra :
  dest_ok d →
  parseSOCKS5Addr (request ver cmd rsv d hi lo extra)
  = if decide (be16 hi lo = 0%Z) then Err ZeroPort
    else Ok (JoinHostPort (dest_host d) (itoa (be16 hi lo)), dest_host d).
Proof.
  intros Hd. unfold request, parseSOCKS5Addr.
  rewrite require_true by (pose proof (encode_dest_length d Hd); len).
  destruct d as [ip|name|ip]; cbn [encode_dest dest_host dest_ok] in *.
  - erewrite (go_index_at _ [ver; cmd; rsv]) by done. cbv beta iota.
    rewrite require_true by len.
    erewrite (go_slice_at _ [ver; cmd; rsv; x01] ip) by (lists || size).
    erewrite (go_index_at _ ([ver; cmd; rsv; x01] ++ ip)) by (lists || size).
    erewrite (go_index_at _ ([ver; cmd; rsv; x01] ++ ip ++ [hi])) by (lists || size).
    cbn [mbind outcome_bind]. apply port_check.
  - erewrite (go_index_at _ [ver; cmd; rsv]) by done. cbv beta iota.
    erewrite (go_index_at _ [ver; cmd; rsv; x03]) by done.
    rewrite z2b_length by done. rewrite require_true by len.
    set (l := z2b _).
    erewrite (go_slice_at _ [ver; cmd; rsv; x03; l] name) by (lists || size).
    erewrite (go_index_at _ ([ver; cmd; rsv; x03; l] ++ name)) by (lists || size).
    erewrite (go_index_at _ ([ver; cmd; rsv; x03; l] ++ name ++ [hi])) by (lists || size).
    cbn [mbind outcome_bind]. apply port_check.
  - erewrite (go_index_at _ [ver; cmd; rsv]) by done. cbv beta iota.
    rewrite require_true by len.
    erewrite (go_slice_at _ [ver; cmd; rsv; x04] ip) by (lists || size).
    erewrite (go_index_at _ ([ver; cmd; rsv; x04] ++ ip)) by (lists || size).
    erewrite (go_index_at _ ([ver; cmd; rsv; x04] ++ ip ++ [hi])) by (lists || size).
    cbn [mbind outcome_bind]. apply port_check.
Qed.

(** Any long enough buffer has the shape of a request. *)
Lemma request_shape (data : list byte) t k :
  data !! 3 = Some t → 4 + k + 2 <= length data →
  ∃ ver cmd rsv f hi lo extra,
    data = [ver; cmd; rsv] ++ (t :: f) ++ hi :: lo :: extra ∧ length f = k.
Proof.
  intros Ht Hl. destruct data as [|ver [|cmd [|rsv [|t' data]]]]; try done.
  injection Ht as ->. destruct (take_fields data k) as (f & hi & lo & extra & -> & Hf).
  { simpl in Hl. lia. }
  by exists ver, cmd, rsv, f, hi, lo, extra.
Qed.

Lemma b2z_nat b : Z.of_nat (Z.to_nat (b2z b)) = b2z b.
Proof. pose proof (b2z_range b). lia. Qed.

Lemma lookup_go_index {E} (l : list byte) i x : go_index (E:=E) l i = Ok x → l !! i = Some x.
Proof. unfold go_index. by destruct (l !! i); intros [= ->]. Qed.

(** Accepted data is an encoded destination. *)
Lemma parse_shape data r :
  parseSOCKS5Addr data = Ok r →
  ∃ ver cmd rsv d hi lo extra, data = request ver cmd rsv d hi lo extra ∧ dest_ok d.
Proof.
  unfold parseSOCKS5Addr, request. intros H. apply bind_Ok in H as (u & Hlen & H).
  apply bind_Ok in H as (t & Ht & H). apply lookup_go_index in Ht.
  apply bind_Ok in H as ([host port] & Hd & _).
  destruct t; try done.
  - apply bind_Ok in Hd as (v & Hv & _). apply require_Ok, bool_decide_eq_true in Hv.
    destruct (request_shape data x01 4 Ht Hv) as (ver & cmd & rsv & f & hi & lo & extra & -> & Hf).
    by exists ver, cmd, rsv, (DestIPv4 f), hi, lo, extra.
  - apply bind_Ok in Hd as (lb & Hl & Hd). apply lookup_go_index in Hl.
    apply bind_Ok in Hd as (v & Hv & _). apply require_Ok, bool_decide_eq_true in Hv.
    destruct (request_shape data x03 (S (Z.to_nat (b2z lb))) Ht)
      as (ver & cmd & rsv & f & hi & lo & extra & -> & Hf); [lia|].
    destruct f as [|lb' name]; [done|]. injection Hl as ->. injection Hf as Hf.
    exists ver, cmd, rsv, (DestDomain name), hi, lo, extra.
    cbn [encode_dest dest_ok]. pose proof (b2z_range lb). split; [|lia].
    by rewrite Hf, b2z_nat, z2b_b2z.
  - apply bind_Ok in Hd as (v & Hv & _). apply require_Ok, bool_decide_eq_true in Hv.
    destruct (request_shape data x04 16 Ht Hv) as (ver & cmd & rsv & f & hi & lo & extra & -> & Hf).
    by exists ver, cmd, rsv, (DestIPv6 f), hi, lo, extra.
Qed.

(** C11: [parseSOCKS5Addr] accepts exactly the requests that carry a well-formed
    destination of one of the three address types and a non-zero port, and
    returns that destination's host and the [host:port] target. *)
Theorem parseSOCKS5Addr_iff data addr host :
  parseSOCKS5Addr data = Ok (addr, host) ↔
  ∃ ver cmd rsv d port extra,
    data = [ver; cmd; rsv] ++ encode_dest d ++ put16 port ++ extra ∧ dest_ok d ∧
    (0 < port < 65536)%Z ∧ host = dest_host d ∧ addr = JoinHostPort host (itoa port).
Proof.
  split.
  - intros H. destruct (parse_shape _ _ H) as (ver & cmd & rsv & d & hi & lo & extra & -> & Hd).
    rewrite parse_normal in H by done. case_decide as Hp; [done|]. injection H as <- <-.
    exists ver, cmd, rsv, d, (be16 hi lo), extra. rewrite put16_be16.
    pose proof (be16_range hi lo). repeat split; [done|lia|lia].
  - intros (ver & cmd & rsv & d & port & extra & -> & Hd & Hp & -> & ->).
    destruct (be16_put16 port) as (hi & lo & -> & Hb); [lia|].
    change ([ver; cmd; rsv] ++ encode_dest d ++ [hi; lo] ++ extra)
      with (request ver cmd rsv d hi lo extra).
    rewrite parse_normal, Hb by done. by rewrite decide_False by lia.
Qed.

(** The target string denotes the requested destination. *)
Lemma itoa_port_clean port : (0 <= port)%Z → clean_port (itoa port).
Proof. apply clean_port_itoa. Qed.

Lemma dest_host_ip d :
  dest_ok d → match d with DestDomain _ => False | _ => True end →
  clean_host (dest_host d) ∧
  ∃ ip, (d = DestIPv4 ip ∨ d = DestIPv6 ip) ∧ ParseIP (dest_host d) = To16 ip.
Proof.
  destruct d as [ip|name|ip]; cbn; intros Hok Hip; try done;
    (split; [apply ip_string_clean; unfold valid_ip; tauto|]);
    exists ip; (split; [tauto|]); apply ParseIP_string; unfold valid_ip; tauto.
Qed.

(** *** The panic *)

Lemma short_domain_panics ver cmd rsv : parseSOCKS5Addr [ver; cmd; rsv; x03] = Panic.
Proof. reflexivity. Qed.

Lemma go_index_not_panic {E} (l : list byte) i : i < length l → go_index (E:=E) l i ≠ Panic.
Proof. intros Hi. unfold go_index. by destruct (lookup_lt_is_Some_2 l i Hi) as [x ->]. Qed.

Lemma go_slice_not_panic {E} (l : list byte) i j :
  i <= j → j <= length l → go_slice (E:=E) l i j ≠ Panic.
Proof. intros. by rewrite go_slice_Ok. Qed.

Lemma bind_not_panic {E A B} (m : outcome E A) (k : A → outcome E B) :
  m ≠ Panic → (∀ a, m = Ok a → k a ≠ Panic) → (m ≫= k) ≠ Panic.
Proof. destruct m; cbn; auto. Qed.

(** Walk through a parser, collecting the length checks it has passed. *)
Ltac no_panic :=
  repeat match goal with
  | |- (require _ _ ≫= _) ≠ Panic =>
      apply bind_not_panic; [apply require_not_Panic|intros ? ?%require_Ok%bool_decide_eq_true]
  | |- (require _ _ ≫= _) ≠ Panic =>
      apply bind_not_panic; [apply require_not_Panic|intros ? _]
  | |- (go_index _ _ ≫= _) ≠ Panic =>
      apply bind_not_panic; [apply go_index_not_panic; lia|intros ? ?]
  | |- (go_slice _ _ _ ≫= _) ≠ Panic =>
      apply bind_not_panic; [apply go_slice_not_panic; lia|intros ? ?]
  | |- Ok _ ≠ Panic => done
  | |- Err _ ≠ Panic => done
  end.

(** C40: [parseSOCKS5Addr] panics on exactly the four-byte requests whose address
    type is a domain name: the length byte is read without a length check. *)
Theorem parseSOCKS5Addr_panic_iff (data : list byte) :
  parseSOCKS5Addr data = Panic ↔ length data = 4 ∧ data !! 3 = Some x03.
Proof.
  split.
  - intros H. destruct (decide (length data = 4 ∧ data !! 3 = Some x03)) as [|Hne]; [done|].
    exfalso. cut (parseSOCKS5Addr data ≠ Panic); [done|]. clear H.
    unfold parseSOCKS5Addr. no_panic.
    match goal with H : go_index data 3 = Ok ?x |- _ =>
      rename x into t; apply lookup_go_index in H as Ht end.
    apply bind_not_panic; [|intros [h p] _; no_panic].
    destruct t; try (no_panic; done).
    apply bind_not_panic; [apply go_index_not_panic|intros lb _; no_panic].
    assert (length data ≠ 4) by tauto. lia.
  - intros [Hl Ht]. do 5 (destruct data as [|? data]; try done). by injection Ht as ->.
Qed.

(** ** parseUDPRequest *)

Definition frame (r1 r2 frag : byte) (d : dest) (hi lo : byte) (payload : list byte)
    : list byte :=
  [r1; r2; frag] ++ encode_dest d ++ hi :: lo :: payload.

(** UDP requests must also carry a non-empty name. *)
Definition udp_dest_ok (d : dest) : Prop :=
  dest_ok d ∧ match d with DestDomain [] => False | _ => True end.

Definition udp_port_tail (host : gostring) (hi lo : byte) (payload : list byte) :=
  if decide (be16 hi lo = 0%Z) then Err ZeroPort
  else Ok (JoinHostPort host (itoa (be16 hi lo)), payload) : outcome wire_error _.

(** The port and payload, from offset [off]. *)
Lemma udp_tail p hi lo payload host off :
  off = length p →
  (pb ← go_slice (p ++ hi :: lo :: payload) off (off + 2);
   hi' ← go_index pb 0; lo' ← go_index pb 1;
   let port := be16 hi' lo' in
   let off' := off + 2 in
   _ ← require (negb (bool_decide (port = 0%Z))) ZeroPort;
   payload' ← go_slice (p ++ hi :: lo :: payload) off' (length (p ++ hi :: lo :: payload));
   Ok (JoinHostPort host (itoa port), payload'))
  = udp_port_tail host hi lo payload.
Proof.
  intros ->. erewrite (go_slice_at _ p [hi; lo]) by done.
  rewrite (go_index_at _ [] [lo] hi) by done. rewrite (go_index_at _ [hi] [] lo) by done.
  cbv zeta. change (p ++ hi :: lo :: payload) with (p ++ [hi; lo] ++ payload).
  rewrite app_assoc, (go_slice_tail (p ++ [hi; lo]) payload) by len.
  cbn [mbind outcome_bind]. apply port_check.
Qed.

Lemma parseUDP_normal r1 r2 d hi lo payload :
  udp_dest_ok d →
  parseUDPRequest (frame r1 r2 x00 d hi lo payload)
  = udp_port_tail (dest_host d) hi lo payload.
Proof.
  intros [Hd Hne]. unfold frame, parseUDPRequest.
  rewrite require_true by (pose proof (encode_dest_length d Hd); len).
  destruct d as [ip|name|ip]; cbn [encode_dest dest_host dest_ok] in *.
  - erewrite (go_index_at _ [r1; r2]) by done. rewrite require_true by done.
    erewrite (go_index_at _ [r1; r2; x00]) by done. cbv beta iota zeta.
    rewrite require_true by len.
    erewrite (go_slice_at _ [r1; r2; x00; x01] ip) by (lists || size). cbn [mbind outcome_bind].
    change ([r1; r2; x00] ++ (x01 :: ip) ++ hi :: lo :: payload)
      with ([r1; r2; x00; x01] ++ ip ++ hi :: lo :: payload).
    rewrite app_assoc. apply udp_tail. size.
  - erewrite (go_index_at _ [r1; r2]) by done. rewrite require_true by done.
    erewrite (go_index_at _ [r1; r2; x00]) by done. cbv beta iota zeta.
    rewrite require_true by len.
    erewrite (go_index_at _ [r1; r2; x00; x03]) by done. cbv zeta.
    rewrite z2b_length by done. set (l := z2b _).
    rewrite (bool_decide_eq_false_2 (length name = 0)) by (destruct name; [done|simpl; lia]).
    cbn [negb require]. rewrite (require_true (S 4 + length name + 2 <= _)) by len.
    cbn [mbind outcome_bind].
    erewrite (go_slice_at _ [r1; r2; x00; x03; l] name) by (lists || size).
    cbn [mbind outcome_bind].
    change ([r1; r2; x00] ++ (x03 :: l :: name) ++ hi :: lo :: payload)
      with ([r1; r2; x00; x03; l] ++ name ++ hi :: lo :: payload).
    rewrite app_assoc. apply udp_tail. size.
  - erewrite (go_index_at _ [r1; r2]) by done. rewrite require_true by done.
    erewrite (go_index_at _ [r1; r2; x00]) by done. cbv beta iota zeta.
    rewrite require_true by len.
    erewrite (go_slice_at _ [r1; r2; x00; x04] ip) by (lists || size). cbn [mbind outcome_bind].
    change ([r1; r2; x00] ++ (x04 :: ip) ++ hi :: lo :: payload)
      with ([r1; r2; x00; x04] ++ ip ++ hi :: lo :: payload).
    rewrite app_assoc. apply udp_tail. size.
Qed.

Lemma udp_shape buf r :
  parseUDPRequest buf = Ok r →
  ∃ r1 r2 d hi lo payload, buf = frame r1 r2 x00 d hi lo payload ∧ udp_dest_ok d.
Proof.
  unfold parseUDPRequest, frame. intros H. apply bind_Ok in H as (u & Hlen & H).
  apply bind_Ok in H as (fr & Hfr & H). apply lookup_go_index in Hfr.
  apply bind_Ok in H as (v & Hv & H). apply require_Ok, bool_decide_eq_true in Hv. subst fr.
  apply bind_Ok in H as (t & Ht & H). apply lookup_go_index in Ht. cbv zeta in H.
  apply bind_Ok in H as ([host off] & Hd & _).
  assert (Hsh : ∀ k, 4 + k + 2 <= length buf → ∃ r1 r2 f hi lo extra,
    buf = [r1; r2; x00] ++ (t :: f) ++ hi :: lo :: extra ∧ length f = k).
  { intros k Hk. destruct (request_shape buf t k Ht Hk)
      as (a & b & c & f & hi & lo & extra & -> & Hf).
    injection Hfr as ->. by exists a, b, f, hi, lo, extra. }
  destruct t; try done.
  - apply bind_Ok in Hd as (w & Hw & _). apply require_Ok, bool_decide_eq_true in Hw.
    destruct (Hsh 4) as (r1 & r2 & f & hi & lo & extra & -> & Hf); [lia|].
    by exists r1, r2, (DestIPv4 f), hi, lo, extra.
  - apply bind_Ok in Hd as (w & Hw & Hd).
    apply bind_Ok in Hd as (lb & Hl & Hd). apply lookup_go_index in Hl. cbv zeta in Hd.
    apply bind_Ok in Hd as (w2 & Hz & Hd). apply require_Ok in Hz.
    apply bind_Ok in Hd as (w3 & Hw3 & _). apply require_Ok, bool_decide_eq_true in Hw3.
    destruct (Hsh (S (Z.to_nat (b2z lb)))) as (r1 & r2 & f & hi & lo & extra & -> & Hf); [lia|].
    destruct f as [|lb' name]; [done|]. injection Hl as ->. injection Hf as Hf.
    exists r1, r2, (DestDomain name), hi, lo, extra. cbn [encode_dest].
    pose proof (b2z_range lb). split; [by rewrite Hf, b2z_nat, z2b_b2z|].
    split; [cbn; lia|]. destruct name; [|done]. rewrite <- Hf in Hz. done.
  - apply bind_Ok in Hd as (w & Hw & _). apply require_Ok, bool_decide_eq_true in Hw.
    destruct (Hsh 16) as (r1 & r2 & f & hi & lo & extra & -> & Hf); [lia|].
    by exists r1, r2, (DestIPv6 f), hi, lo, extra.
Qed.

Lemma parseUDPRequest_iff buf dst payload :
  parseUDPRequest buf = Ok (dst, payload) ↔
  ∃ r1 r2 d port,
    buf = [r1; r2; x00] ++ encode_dest d ++ put16 port ++ payload ∧ udp_dest_ok d ∧
    (0 < port < 65536)%Z ∧ dst = JoinHostPort (dest_host d) (itoa port).
Proof.
  split.
  - intros H. destruct (udp_shape _ _ H) as (r1 & r2 & d & hi & lo & extra & -> & Hd).
    rewrite parseUDP_normal in H by done. unfold udp_port_tail in H.
    case_decide as Hp; [done|]. injection H as <- <-.
    exists r1, r2, d, (be16 hi lo). rewrite put16_be16. pose proof (be16_range hi lo).
    repeat split; [apply Hd|apply Hd|lia|lia].
  - intros (r1 & r2 & d & port & -> & Hd & Hp & ->).
    destruct (be16_put16 port) as (hi & lo & -> & Hb); [lia|].
    change ([r1; r2; x00] ++ encode_dest d ++ [hi; lo] ++ payload)
      with (frame r1 r2 x00 d hi lo payload).
    rewrite parseUDP_normal by done. unfold udp_port_tail. rewrite Hb.
    by rewrite decide_False by lia.
Qed.

(** Invert a successful parser prefix down to its length checks. *)
Ltac inv_checks :=
  repeat match goal with
  | H : (_ ≫= _) = Ok _ |- _ => apply bind_Ok in H; destruct H as (? & ? & H); cbv zeta in H
  | H : require (bool_decide _) _ = Ok _ |- _ => apply require_Ok, bool_decide_eq_true in H
  | H : Ok _ = Ok _ |- _ => injection H as H; subst
  | H : go_index _ _ = Ok _ |- _ => apply lookup_go_index in H
  end.

Lemma parseUDPRequest_no_panic buf : parseUDPRequest buf ≠ Panic.
Proof.
  unfold parseUDPRequest. no_panic. cbv zeta.
  match goal with |- context [match ?x with _ => _ end] => rename x into t end.
  apply bind_not_panic.
  - destruct t; try done; no_panic.
  - intros [host off] Hd.
    assert (Hoff : off + 2 <= length buf) by (destruct t; try done; inv_checks; lia).
    apply bind_not_panic; [apply go_slice_not_panic; lia|]. intros pb Hpb.
    rewrite go_slice_Ok in Hpb by lia. injection Hpb as <-.
    assert (Hl : length (take (off + 2 - off) (drop off buf)) = 2) by len.
    no_panic.
Qed.

(** ** appendUDPReply *)

(** The destination field a reply carries for a source address. *)
Definition reply_dest (ip : list byte) : dest :=
  match To4 ip with Some v4 => DestIPv4 v4 | None => DestIPv6 ip end.

Lemma reply_dest_ok ip : valid_ip ip → udp_dest_ok (reply_dest ip).
Proof.
  intros Hv. unfold reply_dest. destruct (To4 ip) as [v4|] eqn:H4; split; cbn; try done.
  - by eapply To4_length.
  - apply To4_None_length; [unfold valid_ip in Hv; tauto|done].
Qed.

Lemma To16_of_To4_None ip : valid_ip ip → To4 ip = None → To16 ip = Some ip.
Proof.
  intros Hv H4. assert (Hl : length ip = 16)
    by (apply To4_None_length; [unfold valid_ip in Hv; tauto|done]).
  unfold To16. by rewrite decide_False, decide_True by lia.
Qed.

Lemma appendUDPReply_valid dst src payload :
  valid_ip (UDP_IP src) →
  appendUDPReply dst src payload
  = Ok (dst ++ [x00; x00; x00] ++ encode_dest (reply_dest (UDP_IP src))
        ++ put16 (UDP_Port src) ++ payload).
Proof.
  intros Hv. unfold appendUDPReply, reply_dest. destruct (To4 (UDP_IP src)) as [v4|] eqn:H4.
  - cbn. repeat (rewrite <- app_assoc; cbn). done.
  - rewrite (To16_of_To4_None _ Hv H4). cbn. repeat (rewrite <- app_assoc; cbn). done.
Qed.

Lemma appendUDPReply_invalid dst src payload :
  ¬ valid_ip (UDP_IP src) → appendUDPReply dst src payload = Err (UnusableAddr (UDP_IP src)).
Proof.
  intros Hv. unfold appendUDPReply. assert (H16 : To16 (UDP_IP src) = None).
  { destruct (To16 (UDP_IP src)) eqn:E; [|done]. exfalso. apply Hv, To16_valid. eauto. }
  rewrite H16. destruct (To4 (UDP_IP src)) eqn:E; [|done].
  by apply To4_To16 in E; rewrite E in H16.
Qed.

Lemma length_put16 z : length (put16 z) = 2.
Proof. done. Qed.

Lemma reply_host ip : valid_ip ip → dest_host (reply_dest ip) = ip_string ip.
Proof.
  intros Hv. unfold reply_dest. destruct (To4 ip) as [v4|] eqn:H4; [|done]. cbn.
  pose proof (To4_length _ _ H4) as Hl4.
  rewrite !ip_string_valid by (done || (unfold valid_ip; tauto)). rewrite H4.
  unfold To4. by rewrite decide_True.
Qed.

(** The header of a reply is 10 bytes for IPv4 sources and 22 for IPv6. *)
Definition reply_header (ip : list byte) : nat := match To4 ip with Some _ => 10 | None => 22 end.

Lemma length_encode_reply ip : valid_ip ip → length (encode_dest (reply_dest ip)) + 5 = reply_header ip.
Proof.
  intros Hv. destruct (reply_dest_ok ip Hv) as [Hok _]. revert Hok.
  unfold reply_dest, reply_header. destruct (To4 ip); cbn; lia.
Qed.

(** ** Properties of the UDP frames and of the targets *)

(** for an IP destination the target string splits back into that host and a
    numeric port, and the host parses back to the requested address: an IPv6
    literal carries exactly one level of brackets. *)
Theorem parsed_target_denotes ver cmd rsv d ip port extra :
  dest_ok d → d = DestIPv4 ip ∨ d = DestIPv6 ip → (0 < port < 65536)%Z →
  ∃ addr host,
    parseSOCKS5Addr ([ver; cmd; rsv] ++ encode_dest d ++ put16 port ++ extra)
    = Ok (addr, host) ∧
    SplitHostPort addr = Ok (host, itoa port) ∧
    ParseIP host = To16 ip ∧ atoi (itoa port) = Some port.
Proof.
  intros Hd Hip Hp. destruct (be16_put16 port) as (hi & lo & -> & Hb); [lia|].
  change ([ver; cmd; rsv] ++ encode_dest d ++ [hi; lo] ++ extra)
    with (request ver cmd rsv d hi lo extra).
  rewrite parse_normal, Hb by done. rewrite decide_False by lia.
  destruct (dest_host_ip d Hd) as (Hc & ip' & Hip' & Hparse); [by destruct Hip; subst|].
  assert (ip' = ip) as -> by (destruct Hip, Hip'; congruence).
  eexists _, _. split; [done|]. repeat split.
  - apply split_join; [done|]. apply clean_port_itoa. lia.
  - done.
  - apply atoi_itoa. lia.
Qed.

Lemma parsed_target_denotes_witness :
  ∃ addr host,
    parseSOCKS5Addr ([x05; x01; x00] ++ encode_dest
      (DestIPv6 [x26; x06; x47; x00; x01; x03; x00; x00; x00; x00; x00; x00; x00; x00; x00; x02])
      ++ put16 443 ++ []) = Ok (addr, host) ∧
    SplitHostPort addr = Ok (host, itoa 443) ∧
    ParseIP host
    = To16 [x26; x06; x47; x00; x01; x03; x00; x00; x00; x00; x00; x00; x00; x00; x00; x02] ∧
    atoi (itoa 443) = Some 443%Z.
Proof. apply parsed_target_denotes; [done|by right|lia]. Defined.

(** [parseUDPRequest] never panics, and accepts exactly the unfragmented
    frames that carry a well-formed destination (a domain of at least one byte)
    and a non-zero port; the payload is everything after the port. *)
Theorem parseUDPRequest_correct buf :
  parseUDPRequest buf ≠ Panic ∧
  ∀ dst payload,
    parseUDPRequest buf = Ok (dst, payload) ↔
    ∃ r1 r2 d port,
      buf = [r1; r2; x00] ++ encode_dest d ++ put16 port ++ payload ∧ udp_dest_ok d ∧
      (0 < port < 65536)%Z ∧ dst = JoinHostPort (dest_host d) (itoa port).
Proof.
  split; [apply parseUDPRequest_no_panic|]. intros dst payload. apply parseUDPRequest_iff.
Qed.

(** the frame [appendUDPReply] builds decapsulates, by [parseUDPRequest], to
    the source it was received from and the unchanged payload. *)
Theorem udp_reply_roundtrip src payload :
  valid_ip (UDP_IP src) → (0 < UDP_Port src < 65536)%Z →
  ∃ fr dst,
    appendUDPReply [] src payload = Ok fr ∧
    parseUDPRequest fr = Ok (dst, payload) ∧
    SplitHostPort dst = Ok (ip_string (UDP_IP src), itoa (UDP_Port src)) ∧
    ParseIP (ip_string (UDP_IP src)) = To16 (UDP_IP src).
Proof.
  intros Hv Hp. rewrite appendUDPReply_valid by done. eexists _, _. split; [done|].
  split; [|split].
  - apply parseUDPRequest_iff. exists x00, x00, (reply_dest (UDP_IP src)), (UDP_Port src).
    split; [done|]. split; [by apply reply_dest_ok|]. split; [lia|done].
  - rewrite reply_host by done. apply split_join; [by apply ip_string_clean|].
    apply clean_port_itoa. lia.
  - by apply ParseIP_string.
Qed.

Lemma udp_reply_roundtrip_witness :
  ∃ fr dst,
    appendUDPReply [] {| UDP_IP := IPv4 x01 x01 x01 x01; UDP_Port := 53; UDP_Zone := [] |} [xaa]
    = Ok fr ∧
    parseUDPRequest fr = Ok (dst, [xaa]) ∧
    SplitHostPort dst = Ok (ip_string (IPv4 x01 x01 x01 x01), itoa 53) ∧
    ParseIP (ip_string (IPv4 x01 x01 x01 x01)) = To16 (IPv4 x01 x01 x01 x01).
Proof.
  apply (udp_reply_roundtrip {| UDP_IP := IPv4 x01 x01 x01 x01; UDP_Port := 53; UDP_Zone := [] |});
    [by right|cbn; lia].
Defined.
