(* ===== verification/SocksH2.v ===== *)
(** * The SOCKS5 front end of the H2 backend (src/tunnel/h2_socks.go)

    [negotiateSOCKS5], [readSOCKS5Request], [socks5ReplyForError] and
    [H2Client.HandleSOCKS5] up to the start of the relay, on the connection model
    of [Conn].  The userspace network stack is not part of this repository: its
    [DialContext] is a parameter. *)

From Stdlib Require Import Init.Byte.
From S2P Require Import Prelude GoNet GoNetFacts Conn Socks5Wire.

(** ** negotiateSOCKS5 *)

Inductive neg_error :=
  | NegRead | BadGreeting | NotOffered | NegWrite | BadAuthRequest | BadCredentials.

(** The search loop over the offered methods, with its [break]. *)
Fixpoint offered (selected : byte) (methods : list byte) : bool :=
  match methods with
  | [] => false
  | m :: methods' => if decide (m = selected) then true else offered selected methods'
  end.

(** [subtle.ConstantTimeCompare] *)
Definition ConstantTimeCompare (x y : list byte) : Z := if decide (x = y) then 1 else 0.

Definition negotiateSOCKS5 (cfg : SOCKS5Config) : io neg_error unit :=
  header ← readFull 2 NegRead;
  h0 ← lift (go_index header 0);
  h1 ← lift (go_index header 1);
  _ ← assert_io (bool_decide (h0 = x05) && negb (bool_decide (h1 = x00))) BadGreeting;
  methods ← readFull (Z.to_nat (b2z h1)) NegRead;
  let selected := if requireAuth cfg then x02 else x00 in
  if negb (offered selected methods) then
    _ ← write [x05; xff];
    fail NotOffered
  else
    ok ← write [x05; selected];
    _ ← assert_io ok NegWrite;
    if negb (requireAuth cfg) then mret ()
    else
      header ← readFull 2 NegRead;
      h0 ← lift (go_index header 0);
      h1 ← lift (go_index header 1);
      if negb (bool_decide (h0 = x01)) || bool_decide (h1 = x00) then
        _ ← write [x01; x01];
        fail BadAuthRequest
      else
        username ← readFull (Z.to_nat (b2z h1)) NegRead;
        passwordLength ← readFull 1 NegRead;
        pl ← lift (go_index passwordLength 0);
        password ← readFull (Z.to_nat (b2z pl)) NegRead;
        let userOK := ConstantTimeCompare username (Username cfg) in
        let passOK := ConstantTimeCompare password (Password cfg) in
        if negb (bool_decide (Z.land userOK passOK = 1%Z)) then
          _ ← write [x01; x01];
          fail BadCredentials
        else
          ok ← write [x01; x00];
          assert_io ok NegWrite.

(** ** readSOCKS5Request *)

Inductive req_error := ReqRead | BadRequestHeader | EmptyDomain | UnknownType (t : byte).

Definition readSOCKS5Request : io req_error (byte * gostring) :=
  header ← readFull 4 ReqRead;
  h0 ← lift (go_index header 0);
  h1 ← lift (go_index header 1);
  h2 ← lift (go_index header 2);
  h3 ← lift (go_index header 3);
  _ ← assert_io (bool_decide (h0 = x05) && bool_decide (h2 = x00)) BadRequestHeader;
  host ←
    match h3 with
    | x01 => value ← readFull 4 ReqRead; mret (ip_string value)
    | x03 =>
        len ← readFull 1 ReqRead;
        l ← lift (go_index len 0);
        _ ← assert_io (negb (bool_decide (l = x00))) EmptyDomain;
        readFull (Z.to_nat (b2z l)) ReqRead
    | x04 => value ← readFull 16 ReqRead; mret (ip_string value)
    | t => fail (UnknownType t)
    end;
  portBytes ← readFull 2 ReqRead;
  hi ← lift (go_index portBytes 0);
  lo ← lift (go_index portBytes 1);
  mret (h1, JoinHostPort host (itoa (be16 hi lo))).

(** ** Dial errors and their reply codes *)

(** What [errors.As(err, &dnsErr)] and [errors.Is(err, context.DeadlineExceeded)]
    report of the error a dial returned. *)
Record dial_error := { is_dns : bool; is_deadline : bool }.

Definition socks5ReplyForError (err : dial_error) : byte :=
  if is_dns err then x04
  else if is_deadline err then x04
  else x05.

Definition writeSocks5Success {E} : io E bool :=
  write [x05; x00; x00; x01; x00; x00; x00; x00; x00; x00].

Section h2_handler.
  Context (DialContext : gostring → outcome dial_error unit).

(** The CONNECT branch, from the port check to the start of the relay. *)
Definition h2_connect (targetAddr : gostring) : io Empty_set unit :=
  match SplitHostPort targetAddr with
  | Panic => lift Panic
  | Err _ => sendSocks5Err x08
  | Ok (_, port) =>
      if decide (port = str "0") then sendSocks5Err x08
      else
        _ ← emit (ConnDeadline false);
        _ ← emit (Dialed targetAddr);
        match DialContext targetAddr with
        | Panic => lift Panic
        | Err err => sendSocks5Err (socks5ReplyForError err)
        | Ok _ =>
            finally
              (ok ← writeSocks5Success;
               if ok : bool then emit (Relayed targetAddr) else mret ())
              RemoteClosed
        end
  end.

(** [H2Client.HandleSOCKS5]; every early return is a plain return, so the handler
    itself has no error. *)
Definition h2_HandleSOCKS5 (cfg : SOCKS5Config) : io Empty_set unit :=
  finally
    (_ ← emit (ConnDeadline true);
     r ← attempt (negotiateSOCKS5 cfg);
     match r with
     | inl _ => mret ()
     | inr _ =>
         r ← attempt readSOCKS5Request;
         match r with
         | inl _ => sendSocks5Err x08
         | inr (command, targetAddr) =>
             if decide (command = socks5CmdConnect) then h2_connect targetAddr
             else if decide (command = socks5CmdUDPAssociate) then
               if negb (AllowUDP cfg) then sendSocks5Err x07
               else
                 _ ← emit (ConnDeadline false);
                 emit UDPAssociate
             else sendSocks5Err x07
         end
     end)
    ConnClosed.
End h2_handler.

(** ** What a client must send *)

(** A method-selection message. *)
Definition greeting (methods : list byte) : list byte :=
  x05 :: z2b (Z.of_nat (length methods)) :: methods.

(** The RFC 1929 sub-negotiation for [cfg]'s credentials; nothing without auth. *)
Definition credentials (cfg : SOCKS5Config) : list byte :=
  if requireAuth cfg then
    x01 :: z2b (Z.of_nat (length (Username cfg))) :: Username cfg ++
    z2b (Z.of_nat (length (Password cfg))) :: Password cfg
  else [].

Definition method (cfg : SOCKS5Config) : byte := if requireAuth cfg then x02 else x00.

Definition write_ok (c : conn) (n : nat) : Prop := Forall (λ b, b = true) (take n (wok c)).

(** The lengths fit in their byte, and are not zero where the code refuses zero. *)
Definition sendable (cfg : SOCKS5Config) (methods : list byte) : Prop :=
  0 < length methods < 256 ∧ method cfg ∈ methods ∧
  (requireAuth cfg = true → length (Username cfg) < 256 ∧ length (Password cfg) < 256).
