(* ===== verification/SocksH2Facts.v ===== *)
(** * Authentication and request handling of the H2 SOCKS5 front end *)

From Stdlib Require Import Init.Byte.
From S2P Require Import Prelude GoNet GoNetFacts Conn Socks5Wire Socks5WireFacts SocksH2.

(** ** Stepping through handler programs *)

Lemma lift_Ok {E A} (m : outcome E A) c a c' : lift m c = (Ok a, c') → m = Ok a ∧ c' = c.
Proof. unfold lift. by intros [= -> ->]. Qed.

Lemma write_result {E} bs c :
  (write bs : io E bool) c =
  (Ok (next_ok (wok c)),
   Conn (inbox c) (tail (wok c)) (trace c ++ [Wrote bs (next_ok (wok c))])).
Proof. done. Qed.

Lemma bind_run {E A B} (m : io E A) (k : A → io E B) c a c1 :
  m c = (Ok a, c1) → (m ≫= k) c = k a c1.
Proof. intros H. unfold mbind, io_bind. by rewrite H. Qed.

Lemma bind_err {E A B} (m : io E A) (k : A → io E B) c e c1 :
  m c = (Err e, c1) → (m ≫= k) c = (Err e, c1).
Proof. intros H. unfold mbind, io_bind. by rewrite H. Qed.

(** Invert a successful run step by step. *)
Ltac inv_io :=
  repeat match goal with
  | H : (_ ≫= _) _ = (Ok _, _) |- _ =>
      apply io_bind_Ok in H; destruct H as (? & ? & ? & H)
  | H : readFull _ _ _ = (Ok _, _) |- _ =>
      apply readFull_Ok in H; destruct H as (? & ? & ? & ?)
  | H : lift _ _ = (Ok _, _) |- _ => apply lift_Ok in H; destruct H as [? ->]
  | H : assert_io _ _ _ = (Ok _, _) |- _ => apply assert_io_Ok in H; destruct H as [? ->]
  | H : go_index _ _ = Ok _ |- _ => apply lookup_go_index in H
  | H : fail _ _ = (Ok _, _) |- _ => discriminate H
  | H : mret _ _ = (Ok _, _) |- _ => injection H as ? ?; subst
  end.

Lemma two_bytes (l : list byte) a b :
  length l = 2 → l !! 0 = Some a → l !! 1 = Some b → l = [a; b].
Proof. destruct l as [|? [|? [|]]]; try done. by intros _ [= ->] [= ->]. Qed.

Lemma one_byte (l : list byte) a : length l = 1 → l !! 0 = Some a → l = [a].
Proof. destruct l as [|? [|]]; try done. by intros _ [= ->]. Qed.

Lemma offered_elem m ms : offered m ms = true ↔ m ∈ ms.
Proof.
  induction ms as [|x ms IH]; simpl.
  - split; [done|]. intros H. by apply not_elem_of_nil in H.
  - rewrite elem_of_cons, <- IH. case_decide; subst; naive_solver.
Qed.

Lemma length_byte (l : list byte) b :
  length l = Z.to_nat (b2z b) → z2b (Z.of_nat (length l)) = b ∧ length l < 256.
Proof.
  intros Hl. pose proof (b2z_range b). split; [|lia]. by rewrite Hl, b2z_nat, z2b_b2z.
Qed.

Lemma byte_nonzero b : b ≠ x00 → 0 < Z.to_nat (b2z b).
Proof.
  intros Hb. pose proof (b2z_range b). destruct (decide (b2z b = 0)%Z) as [H0|]; [|lia].
  exfalso. apply Hb, b2z_inj. by rewrite H0.
Qed.

Lemma ConstantTimeCompare_and a b x y :
  Z.land (ConstantTimeCompare a x) (ConstantTimeCompare b y) = 1%Z ↔ a = x ∧ b = y.
Proof. unfold ConstantTimeCompare. repeat case_decide; simpl; naive_solver. Qed.

Lemma wok_head (c : conn) : (next_ok (wok c)) = true → write_ok c 1.
Proof. unfold write_ok. destruct (wok c); cbn; intros H; constructor; done. Qed.

(** ** negotiateSOCKS5 *)

Lemma write_Ok {E} bs c ok c' :
  (write bs : io E bool) c = (Ok ok, c') →
  stream c' = stream c ∧ wok c' = tail (wok c) ∧ trace c' = trace c ++ [Wrote bs ok] ∧
  ok = (next_ok (wok c)).
Proof. rewrite write_result. intros [= <- <-]. done. Qed.

(** Rewrite with what each read consumed. *)
Ltac streams :=
  repeat match goal with H : stream ?c = _ |- context [stream ?c] => rewrite H end; lists.

(** A branch of the program that ends in [fail] cannot succeed. *)
Lemma fail_after {E A B} (m : io E A) (e : E) c (b : B) c' :
  (m ≫= λ _, fail e) c = (Ok b, c') → False.
Proof. intros H. apply io_bind_Ok in H as (? & ? & _ & H). done. Qed.

Lemma negotiate_inv cfg c u c' :
  negotiateSOCKS5 cfg c = (Ok u, c') →
  ∃ methods,
    stream c = greeting methods ++ credentials cfg ++ stream c' ∧ sendable cfg methods ∧
    write_ok c (if requireAuth cfg then 2 else 1).
Proof.
  unfold negotiateSOCKS5, sendable, credentials, method, write_ok. intros H.
  inv_io. rename x into hd, x1 into h0, x3 into h1, x7 into methods.
  assert (hd = [h0; h1]) as -> by by apply two_bytes.
  apply andb_true_iff in H3 as [->%bool_decide_eq_true Hn%negb_true_iff%bool_decide_eq_false].
  destruct (length_byte methods h1) as [Hz Hlt]; [done|]. pose proof (byte_nonzero h1 Hn).
  destruct (offered _ methods) eqn:Hoff; [|by apply fail_after in H].
  apply offered_elem in Hoff. cbn [negb] in H.
  exists methods. unfold greeting. rewrite Hz.
  apply io_bind_Ok in H as (ok & c1 & Hw & H). apply write_Ok in Hw as (Hs1 & Hw1 & _ & Hok).
  inv_io. subst ok.
  assert (Hc : stream c = x05 :: h1 :: methods ++ stream c1) by streams.
  assert (Hwc : wok c1 = tail (wok c)) by congruence.
  assert (Hfst : take 1 (wok c) = [] ∨ take 1 (wok c) = [true]).
  { assert (Hok : next_ok (wok c) = true) by congruence.
    by destruct (wok c) as [|[] ?]; auto. }
  destruct (requireAuth cfg) eqn:Hauth; cbn [negb] in H.
  2:{ inv_io. split; [by rewrite Hc|]. split; [split; [lia|by split]|].
      by destruct Hfst as [-> | ->]; repeat constructor. }
  clear -Hc Hwc Hfst H Hoff H3 Hlt Hz H4.
  inv_io. rename x into hd2, x1 into g0, x3 into g1.
  assert (hd2 = [g0; g1]) as -> by by apply two_bytes.
  destruct (negb (bool_decide (g0 = x01)) || bool_decide (g1 = x00)) eqn:Hg;
    [by apply fail_after in H|].
  apply orb_false_iff in Hg as [->%negb_false_iff%bool_decide_eq_true Hg1%bool_decide_eq_false].
  inv_io.
  assert (x2 = [x4]) as -> by by apply one_byte.
  destruct (bool_decide _) eqn:Hcmp; [|by apply fail_after in H].
  apply bool_decide_eq_true, ConstantTimeCompare_and in Hcmp as [-> ->]. cbn [negb] in H.
  apply io_bind_Ok in H as (ok & c2 & Hw & H). apply write_Ok in Hw as (Hs2 & Hw2 & _ & Hok).
  apply assert_io_Ok in H as [-> ->].
  destruct (length_byte (Username cfg) g1) as [-> Hul]; [done|].
  destruct (length_byte (Password cfg) x4) as [-> Hpl]; [done|].
  split; [streams|]. split; [split; [lia|by split]|].
  assert (Hok2 : next_ok (tail (wok c)) = true) by congruence.
  destruct (wok c) as [|w1 [|w2 ?]]; [constructor| |]; destruct Hfst as [[=]|[= ->]];
    cbn in *; subst; repeat constructor.
Qed.

(** Reading what is there. *)
Lemma readFull_bind {E B} (e : E) bs rest (k : list byte → io E B) c :
  stream c = bs ++ rest →
  ∃ c', stream c' = rest ∧ wok c' = wok c ∧ trace c' = trace c ∧
        (readFull (length bs) e ≫= k) c = k bs c'.
Proof.
  intros Hs. destruct (readFull_app e bs rest (wok c) (trace c) c Hs eq_refl eq_refl)
    as (c' & Hr & Hs' & Hw & Ht).
  exists c'. repeat split; try done. by apply bind_run.
Qed.

Lemma lift_index {E A B} (l : list A) i a (k : A → io E B) c :
  l !! i = Some a → (lift (go_index l i) ≫= k) c = k a c.
Proof. unfold go_index. by intros ->. Qed.

Lemma assert_bind {E B} (e : E) (k : unit → io E B) c : (assert_io true e ≫= k) c = k () c.
Proof. done. Qed.

Lemma write_bind {E B} bs (k : bool → io E B) c :
  ∃ c', stream c' = stream c ∧ wok c' = tail (wok c) ∧
        trace c' = trace c ++ [Wrote bs (next_ok (wok c))] ∧
        (write bs ≫= k) c = k (next_ok (wok c)) c'.
Proof.
  by exists (Conn (inbox c) (tail (wok c)) (trace c ++ [Wrote bs (next_ok (wok c))])).
Qed.

Lemma sendable_byte n : 0 < n < 256 → z2b (Z.of_nat n) ≠ x00 ∧ Z.to_nat (b2z (z2b (Z.of_nat n))) = n.
Proof.
  intros Hn. pose proof (b2z_z2b_small (Z.of_nat n)) as Hb.
  split; [|rewrite Hb; lia]. intros H0. rewrite H0 in Hb. cbn in Hb. lia.
Qed.

Lemma requireAuth_lengths cfg :
  requireAuth cfg = true → 0 < length (Username cfg) ∧ 0 < length (Password cfg).
Proof.
  unfold requireAuth. destruct (Username cfg), (Password cfg); cbn; intros; try done; lia.
Qed.

Lemma write_ok_head c n : write_ok c (S n) → next_ok (wok c) = true.
Proof. unfold write_ok. destruct (wok c) as [|w ws]; [done|]. cbn. by inversion 1. Qed.

Lemma write_ok_tail c ws n : write_ok c (S n) → ws = tail (wok c) → Forall (λ b, b = true) (take n ws).
Proof. unfold write_ok. intros H ->. destruct (wok c); [by destruct n|]. by inversion H. Qed.

(** Step over a full read of [bs], which ends in the connection [c']. *)
Ltac read_step bytes c' :=
  let Heq := fresh in let Hs := fresh "Hs" in let Hw := fresh "Hw" in let Ht := fresh "Ht" in
  match goal with
  | |- context [(readFull _ ?err ≫= ?cont) ?conn] =>
      let rest := open_constr:(_ : list byte) in
      destruct (readFull_bind err bytes rest cont conn) as (c' & Hs & Hw & Ht & Heq);
      [streams
      |cbn [length] in Heq; rewrite Heq; clear Heq]
  end.

(** Step over a write, whose outcome stays symbolic. *)
Ltac write_step c' :=
  let Heq := fresh in let Hs := fresh "Hs" in let Hw := fresh "Hw" in let Ht := fresh "Ht" in
  match goal with
  | |- context [(write ?bs ≫= ?k) ?c] =>
      destruct (write_bind bs k c) as (c' & Hs & Hw & Ht & Heq); rewrite Heq; clear Heq
  end.

(** The replies of a successful negotiation. *)
Definition negotiation_replies (cfg : SOCKS5Config) : list event :=
  if requireAuth cfg then [Wrote [x05; method cfg] true; Wrote [x01; x00] true]
  else [Wrote [x05; method cfg] true].

Lemma negotiate_run cfg c methods rest :
  stream c = greeting methods ++ credentials cfg ++ rest → sendable cfg methods →
  write_ok c (if requireAuth cfg then 2 else 1) →
  ∃ c', negotiateSOCKS5 cfg c = (Ok (), c') ∧ stream c' = rest ∧
        wok c' = drop (if requireAuth cfg then 2 else 1) (wok c) ∧
        trace c' = trace c ++ negotiation_replies cfg.
Proof.
  intros Hs (Hml & Hin & Hcred) Hw.
  unfold negotiateSOCKS5, greeting, negotiation_replies in *.
  destruct (sendable_byte (length methods) Hml) as [Hnz Hlen].
  set (lb := z2b (Z.of_nat (length methods))) in *.
  read_step [x05; lb] c1. do 2 erewrite lift_index by done.
  rewrite (bool_decide_eq_false_2 (lb = x00)) by done.
  rewrite assert_bind, Hlen. read_step methods c2. fold (method cfg).
  rewrite (proj2 (offered_elem (method cfg) methods) Hin). cbn [negb]. write_step c3.
  assert (Hok : next_ok (wok c2) = true).
  { replace (wok c2) with (wok c) by congruence. destruct (requireAuth cfg); by eapply write_ok_head. }
  rewrite Hok, assert_bind. unfold credentials in *.
  destruct (requireAuth cfg) eqn:Hauth; cbn [negb]; 
    [|exists c3; split; [done|]; simpl in *; rewrite Ht1, Ht0, Ht, Hok; 
      split_and!;
      [congruence|replace (wok c3) with (tail (wok c)) by congruence; by destruct (wok c)|done]].
  destruct (requireAuth_lengths cfg Hauth), (Hcred eq_refl).
  destruct (sendable_byte (length (Username cfg))) as [Hunz Hulen]; [lia|].
  destruct (sendable_byte (length (Password cfg))) as [Hpnz Hplen]; [lia|].
  set (ub := z2b (Z.of_nat (length (Username cfg)))) in *.
  set (pb := z2b (Z.of_nat (length (Password cfg)))) in *.
  read_step [x01; ub] c4. do 2 erewrite lift_index by done.
  rewrite (bool_decide_eq_false_2 (ub = x00)), (bool_decide_eq_true_2 (x01 = x01)) by done.
  cbn [negb orb]. rewrite Hulen. read_step (Username cfg) c5. read_step [pb] c6.
  erewrite lift_index by done. rewrite Hplen. read_step (Password cfg) c7.
  rewrite (bool_decide_eq_true_2 (Z.land _ _ = _))
    by (apply (proj2 (ConstantTimeCompare_and _ _ _ _)); done).
  cbn [negb]. write_step c8. exists c8.
  assert (Hok2 : next_ok (wok c7) = true).
  { replace (wok c7) with (tail (wok c)) by congruence.
    pose proof (write_ok_tail c _ 1 Hw eq_refl) as Ht'.
    destruct (tail (wok c)) as [|w ws]; [done|]. inversion Ht'; by subst. }
  rewrite Hok2 in *. split_and!; [done|congruence| |].
  - replace (wok c8) with (tail (tail (wok c))) by congruence. by destruct (wok c) as [|? [|]].
  - rewrite Ht6, Ht5, Ht4, Ht3, Ht2, Ht1, Ht0, Ht, Hok. by rewrite <- app_assoc.
Qed.

(** ** Segmentation *)

Ltac seg_step :=
  first
    [ apply seg_bind | apply seg_readFull | apply seg_write | apply seg_lift | apply seg_assert
    | apply seg_emit | apply seg_fail | apply seg_ret | apply seg_attempt | apply seg_finally
    | match goal with |- ∀ _, Proper _ _ => intro end | case_match ].

Ltac seg_auto := repeat seg_step.

#[export] Instance negotiate_seg cfg : segmentation_free (negotiateSOCKS5 cfg).
Proof. unfold negotiateSOCKS5. seg_auto. Qed.

#[export] Instance readRequest_seg : segmentation_free readSOCKS5Request.
Proof. unfold readSOCKS5Request. seg_auto. Qed.

Lemma h2_connect_seg D t : segmentation_free (h2_connect D t).
Proof. unfold h2_connect, sendSocks5Err, writeSocks5Success. seg_auto. Qed.

(** ** Events that give the client something *)

Definition privileged (ev : event) : bool :=
  match ev with
  | UDPAssociate | ResolvedTo _ _ | StreamOpened | ConnectSent _ _ _ | Dialed _ | Relayed _ => true
  | _ => false
  end.

Definition unprivileged (ev : event) : Prop := privileged ev = false.

Ltac emits_auto :=
  repeat first
    [ apply emits_bind | apply emits_readFull | apply emits_read | apply emits_lift
    | apply emits_assert | apply emits_fail | apply emits_ret | apply emits_attempt
    | apply emits_write | apply emits_emit | apply emits_finally
    | progress intros | case_match | done ].

Lemma negotiate_emits cfg : emits unprivileged (negotiateSOCKS5 cfg).
Proof. unfold negotiateSOCKS5. emits_auto. Qed.

Lemma privileged_app (tr1 tr2 : list event) :
  Exists (λ ev, privileged ev = true) (tr1 ++ tr2) → Forall unprivileged tr2 →
  Exists (λ ev, privileged ev = true) tr1.
Proof.
  rewrite Exists_app. intros [H|H] Hf; [done|]. exfalso.
  rewrite Forall_forall in Hf. apply Exists_exists in H as (ev & Hin & Hp).
  specialize (Hf ev Hin). unfold unprivileged in Hf. congruence.
Qed.

(** ** readSOCKS5Request *)

Lemma io_bind_assoc {E A B C} (m : io E A) (f : A → io E B) (g : B → io E C) c :
  ((m ≫= f) ≫= g) c = (m ≫= λ a, f a ≫= g) c.
Proof. unfold mbind, io_bind. by destruct (m c) as [[]]. Qed.

Lemma ret_bind {E A B} (a : A) (k : A → io E B) c : ((mret a : io E A) ≫= k) c = k a c.
Proof. done. Qed.

Lemma readFull_length {E} (bs : list byte) n (e : E) :
  length bs = n → readFull n e = readFull (length bs) e.
Proof. by intros ->. Qed.

Lemma request_port_run cmd host hi lo rest c :
  stream c = hi :: lo :: rest →
  ∃ c', (portBytes ← readFull 2 ReqRead;
         h ← lift (go_index portBytes 0);
         l ← lift (go_index portBytes 1);
         mret (cmd, JoinHostPort host (itoa (be16 h l))) : io req_error (byte * gostring)) c
        = (Ok (cmd, JoinHostPort host (itoa (be16 hi lo))), c') ∧
        stream c' = rest ∧ wok c' = wok c ∧ trace c' = trace c.
Proof.
  intros Hs. read_step [hi; lo] c1. do 2 erewrite lift_index by done. by exists c1.
Qed.

Ltac apply_port_run :=
  match goal with
  | |- ∃ _, (readFull 2 ReqRead ≫= _) ?c = _ ∧ _ =>
      edestruct (request_port_run) as (c' & Hrun & ? & ? & ?); [|by exists c'; rewrite Hrun; split_and!; try congruence]; congruence
  end.

Lemma readRequest_run cmd d port rest c :
  udp_dest_ok d → (0 <= port < 65536)%Z →
  stream c = [x05; cmd; x00] ++ encode_dest d ++ put16 port ++ rest →
  ∃ c', readSOCKS5Request c = (Ok (cmd, JoinHostPort (dest_host d) (itoa port)), c') ∧
        stream c' = rest ∧ wok c' = wok c ∧ trace c' = trace c.
Proof.
  intros [Hd Hne] Hp Hs. unfold readSOCKS5Request.
  destruct (be16_put16 port Hp) as (hi & lo & Hput & <-). rewrite Hput in Hs.
  destruct d as [ip|name|ip]; cbn [encode_dest dest_host dest_ok] in *.
  - read_step [x05; cmd; x00; x01] c1. do 4 erewrite lift_index by done.
    rewrite assert_bind, io_bind_assoc, (readFull_length ip 4 _ Hd). read_step ip c2.
    rewrite ret_bind. apply_port_run.
  - read_step [x05; cmd; x00; x03] c1. do 4 erewrite lift_index by done.
    assert (Hlen : 0 < length name < 256) by (destruct name; [done|simpl in *; lia]).
    destruct (sendable_byte _ Hlen) as [Hnz Hl]. set (lb := z2b _) in *.
    rewrite assert_bind, io_bind_assoc. read_step [lb] c2. rewrite io_bind_assoc.
    erewrite lift_index by done. rewrite (bool_decide_eq_false_2 (lb = x00)) by done.
    rewrite io_bind_assoc, assert_bind, Hl. read_step name c3. apply_port_run.
  - read_step [x05; cmd; x00; x04] c1. do 4 erewrite lift_index by done.
    rewrite assert_bind, io_bind_assoc, (readFull_length ip 16 _ Hd). read_step ip c2.
    rewrite ret_bind. apply_port_run.
Qed.

(** ** Properties *)

(** [negotiateSOCKS5] succeeds exactly when the client's bytes are a method
    selection that offers the required method, followed, if authentication is
    configured, by exactly the configured user name and password, and the replies
    could be written; it consumes those bytes and nothing more. *)
Theorem negotiate_accepts_iff cfg c rest :
  (∃ c', negotiateSOCKS5 cfg c = (Ok (), c') ∧ stream c' = rest) ↔
  (∃ methods, stream c = greeting methods ++ credentials cfg ++ rest ∧
     sendable cfg methods ∧ write_ok c (if requireAuth cfg then 2 else 1)).
Proof.
  split.
  - intros (c' & H & <-). by apply negotiate_inv in H.
  - intros (methods & Hs & Hm & Hw).
    destruct (negotiate_run cfg c methods rest) as (c' & H & Hs' & _); eauto.
Qed.

(** C34: the H2 front end depends on the client's byte stream, not on the segments
    it arrives in: two connections with the same bytes get the same result, the
    same replies and the same further events. *)
Theorem h2_segmentation_independent D cfg segs1 segs2 ws :
  concat segs1 = concat segs2 →
  result (h2_HandleSOCKS5 D cfg) (start segs1 ws)
  = result (h2_HandleSOCKS5 D cfg) (start segs2 ws) ∧
  trace (after (h2_HandleSOCKS5 D cfg) (start segs1 ws))
  = trace (after (h2_HandleSOCKS5 D cfg) (start segs2 ws)).
Proof.
  intros Hs. assert (Hseg : segmentation_free (h2_HandleSOCKS5 D cfg)).
  { unfold h2_HandleSOCKS5, sendSocks5Err.
    repeat first [apply negotiate_seg|apply readRequest_seg|apply h2_connect_seg|seg_step]. }
  destruct (Hseg (start segs1 ws) (start segs2 ws)) as [Hr (_ & _ & Ht)]; [|done].
  by unfold same_stream, stream.
Qed.

Lemma h2_segmentation_independent_witness :
  concat [[x05; x01]; [x00; x05]] = concat [[x05; x01; x00]; [x05]] ∧
  trace (after (h2_HandleSOCKS5 (λ _, Ok ()) (Build_SOCKS5Config [] [] true))
    (start [[x05; x01]; [x00; x05]] []))
  = trace (after (h2_HandleSOCKS5 (λ _, Ok ()) (Build_SOCKS5Config [] [] true))
    (start [[x05; x01; x00]; [x05]] [])).
Proof. split; [done|]. by apply h2_segmentation_independent. Defined.

(** C2: with authentication configured, the H2 front end dials, relays or opens a
    UDP association only for a client that sent exactly the configured
    credentials. *)
Theorem h2_auth_required D cfg segs ws :
  requireAuth cfg = true →
  Exists (λ ev, privileged ev = true) (trace (after (h2_HandleSOCKS5 D cfg) (start segs ws))) →
  ∃ methods rest, concat segs = greeting methods ++ credentials cfg ++ rest ∧ x02 ∈ methods.
Proof.
  intros Hauth H. unfold h2_HandleSOCKS5 in H. set (c0 := start segs ws) in *.
  unfold after, finally in H.
  rewrite (bind_run _ _ c0 () (emit_to (ConnDeadline true) c0)) in H by done.
  set (c1 := emit_to (ConnDeadline true) c0) in *.
  destruct (negotiate_emits cfg c1) as (tr & Htr & Hf).
  assert (Hquiet : ∀ tr', trace (after (negotiateSOCKS5 cfg) c1) ++ [ConnClosed] = tr' →
    ¬ Exists (λ ev, privileged ev = true) tr').
  { intros tr' <- Hex. rewrite Htr in Hex.
    apply privileged_app in Hex; [|by repeat constructor].
    apply privileged_app in Hex; [|done]. change (trace c1) with [ConnDeadline true] in Hex.
    inversion Hex as [? ? Hx|? ? Hx]; [done|inversion Hx]. }
  destruct (negotiateSOCKS5 cfg c1) as [[u|e|] c2] eqn:Hn.
  - apply negotiate_inv in Hn as (methods & Hs & (_ & Hin & _) & _).
    unfold method in Hin. rewrite Hauth in Hin. by exists methods, (stream c2).
  - exfalso. eapply Hquiet; [|exact H]. unfold after. rewrite Hn.
    unfold mbind, io_bind, attempt. by rewrite Hn.
  - exfalso. eapply Hquiet; [|exact H]. unfold after. rewrite Hn.
    unfold mbind, io_bind, attempt. by rewrite Hn.
Qed.

Lemma h2_auth_required_witness :
  ∃ methods rest,
    concat [[x05; x01; x02]; [x01; x01; x75; x01; x70]; [x05; x01; x00; x01; x01; x01; x01; x01; x00; x50]]
    = greeting methods ++ credentials (Build_SOCKS5Config (str "u") (str "p") true) ++ rest ∧
    x02 ∈ methods.
Proof.
  apply (h2_auth_required (λ _, Ok ()) (Build_SOCKS5Config (str "u") (str "p") true)
    [[x05; x01; x02]; [x01; x01; x75; x01; x70];
     [x05; x01; x00; x01; x01; x01; x01; x01; x00; x50]] []); [done|].
  vm_compute. do 4 right. by left.
Defined.

Lemma attempt_run {E F A} (m : io E A) c a c' :
  m c = (Ok a, c') → attempt (F:=F) m c = (Ok (inr a), c').
Proof. unfold attempt. by intros ->. Qed.

Lemma finally_run {E A} (m : io E A) ev c r c' :
  m c = (r, c') → finally m ev c = (r, emit_to ev c').
Proof. unfold finally. by intros ->. Qed.

(** What the CONNECT branch does once a target has been read. *)
Definition connect_events (r : outcome dial_error unit) (target : gostring) : list event :=
  match r with
  | Ok _ => [Dialed target; Wrote [x05; x00; x00; x01; x00; x00; x00; x00; x00; x00] true;
             Relayed target; RemoteClosed]
  | Err e => [Dialed target;
              Wrote [x05; socks5ReplyForError e; x00; x01; x00; x00; x00; x00; x00; x00] true]
  | Panic => [Dialed target]
  end.

Lemma h2_connect_run D host port c :
  clean_host host → (0 < port)%Z → wok c = [] → D (JoinHostPort host (itoa port)) ≠ Panic →
  let target := JoinHostPort host (itoa port) in
  ∃ c', h2_connect D target c = (Ok (), c') ∧ stream c' = stream c ∧
        trace c' = trace c ++ ConnDeadline false :: connect_events (D target) target.
Proof.
  intros Hh Hp Hw HD target. unfold h2_connect. subst target.
  rewrite split_join by (done || (apply clean_port_itoa; lia)).
  rewrite decide_False.
  2:{ intros H0. change (str "0") with (itoa 0) in H0. apply itoa_inj in H0; lia. }
  set (target := JoinHostPort host (itoa port)) in *.
  destruct c as [ib w tr]. cbn in Hw. subst w.
  destruct (D target) as [u|e|]; [| |done]; (eexists; split; [reflexivity|]);
    cbn; by rewrite <- ?app_assoc.
Qed.

Lemma h2_session_run D cfg methods d port payload segs :
  let target := JoinHostPort (dest_host d) (itoa port) in
  sendable cfg methods → udp_dest_ok d → clean_host (dest_host d) → (0 < port < 65536)%Z →
  D target ≠ Panic →
  concat segs = greeting methods ++ credentials cfg ++
    [x05; socks5CmdConnect; x00] ++ encode_dest d ++ put16 port ++ payload →
  let c' := after (h2_HandleSOCKS5 D cfg) (start segs []) in
  trace c' = [ConnDeadline true] ++ negotiation_replies cfg ++ [ConnDeadline false] ++
             connect_events (D target) target ++ [ConnClosed] ∧
  stream c' = payload.
Proof.
  intros target Hm Hd Hh Hp HD Hs. unfold h2_HandleSOCKS5, after.
  set (c0 := start segs []). set (c1 := emit_to (ConnDeadline true) c0).
  edestruct (negotiate_run cfg c1 methods) as (c2 & Hn & Hs2 & Hw2 & Ht2); [exact Hs|done| |].
  { unfold write_ok. by destruct (requireAuth cfg). }
  edestruct (readRequest_run socks5CmdConnect d port payload c2) as (c3 & Hr & Hs3 & Hw3 & Ht3);
    [done|lia|exact Hs2|]. fold target in Hr.
  destruct (h2_connect_run D (dest_host d) port c3) as (c4 & Hc & Hs4 & Ht4);
    [done|lia|rewrite Hw3, Hw2; by destruct (requireAuth cfg)|done|]. fold target in Hc, Ht4.
  erewrite finally_run.
  2:{ rewrite (bind_run _ _ c0 () c1) by done. erewrite bind_run by by apply attempt_run.
      cbv beta iota. erewrite bind_run by by apply attempt_run. cbv beta iota.
      rewrite decide_True by done. exact Hc. }
  cbn. split; [|unfold stream in *; cbn; congruence].
  rewrite Ht4, Ht3, Ht2. cbn. by rewrite <- !app_assoc.
Qed.

(** C8: for a client that negotiates and asks to CONNECT, with the bytes split
    into segments in any way, the H2 front end dials exactly the requested target,
    clears the handshake deadline first, and then either reports success and
    relays, or sends the reply code of the dial error; the bytes after the request
    are left for the relay. *)
Theorem h2_connect_session D cfg methods d port payload segs :
  let target := JoinHostPort (dest_host d) (itoa port) in
  sendable cfg methods → udp_dest_ok d → clean_host (dest_host d) → (0 < port < 65536)%Z →
  D target ≠ Panic →
  concat segs = greeting methods ++ credentials cfg ++
    [x05; socks5CmdConnect; x00] ++ encode_dest d ++ put16 port ++ payload →
  let c' := after (h2_HandleSOCKS5 D cfg) (start segs []) in
  trace c' = [ConnDeadline true] ++ negotiation_replies cfg ++ [ConnDeadline false] ++
             connect_events (D target) target ++ [ConnClosed] ∧
  stream c' = payload.
Proof. apply h2_session_run. Qed.

Lemma h2_connect_session_witness :
  let segs := [[x05]; [x01; x00; x05; x01; x00; x01; x01; x02]; [x03; x04; x00; x50; x47]] in
  let c' := after (h2_HandleSOCKS5 (λ _, Ok ()) (Build_SOCKS5Config [] [] true)) (start segs []) in
  trace c' = [ConnDeadline true] ++ negotiation_replies (Build_SOCKS5Config [] [] true) ++
    [ConnDeadline false] ++ connect_events (Ok ()) (str "1.2.3.4:80") ++ [ConnClosed] ∧
  stream c' = [x47].
Proof.
  apply (h2_connect_session (λ _, Ok ()) (Build_SOCKS5Config [] [] true) [x00]
    (DestIPv4 [x01; x02; x03; x04]) 80 [x47]);
    try done; [|split; apply (bool_decide_unpack _); by vm_compute].
  split; [cbn; lia|]. split; [by left|done].
Defined.

(** the two front ends read the same target out of the same well-formed
    request bytes: [readSOCKS5Request] of the H2 backend, which takes exactly the
    request off the stream, and [parseSOCKS5Addr] of the H3 backend, which is
    handed a buffer that starts with it. *)
Theorem request_parsers_agree cmd d port rest c :
  udp_dest_ok d → (0 < port < 65536)%Z →
  stream c = [x05; cmd; x00] ++ encode_dest d ++ put16 port ++ rest →
  ∃ c' target host,
    readSOCKS5Request c = (Ok (cmd, target), c') ∧ stream c' = rest ∧
    parseSOCKS5Addr (stream c) = Ok (target, host).
Proof.
  intros Hd Hp Hs.
  destruct (readRequest_run cmd d port rest c Hd) as (c' & Hr & Hs' & _); [lia|done|].
  exists c', (JoinHostPort (dest_host d) (itoa port)), (dest_host d).
  split; [done|]. split; [done|]. rewrite Hs.
  destruct (be16_put16 port) as (hi & lo & -> & <-); [lia|].
  change ([x05; cmd; x00] ++ encode_dest d ++ [hi; lo] ++ rest)
    with (request x05 cmd x00 d hi lo rest).
  rewrite parse_normal by apply Hd. by rewrite decide_False by lia.
Qed.

Lemma request_parsers_agree_witness :
  let c := start [[x05; x01; x00; x03; x01; x61; x01; xbb; xff]] [] in
  ∃ c' target host,
    readSOCKS5Request c = (Ok (x01, target), c') ∧ stream c' = [xff] ∧
    parseSOCKS5Addr (stream c) = Ok (target, host).
Proof.
  apply (request_parsers_agree x01 (DestDomain (str "a")) 443 [xff]); [|lia|by vm_compute].
  split; [cbn; lia|done].
Defined.
