(* ===== verification/SocksH3.v ===== *)
(** * The SOCKS5 front end of the H3 backend (src/tunnel/masque.go)

    [MasqueClient.HandleSOCKS5] up to the relay, with [resolveTarget],
    [connectThroughEdge], [connectDeadline] and [releaseStream].  What the handler
    needs from the resolver is the class [Resolver]; the HTTP/3 stream is a
    third-party object, so what its methods return is a parameter. *)

From Stdlib Require Import Init.Byte.
From S2P Require Import Prelude GoNet GoNetFacts Conn Socks5Wire.

(** ** Name resolution, as the front end sees it

    [resolveDNS] is a method of the client; every address it returns has one of
    the two lengths of a [net.IP]. *)
Class Resolver (E : Type) := {
  resolveDNS : gostring → outcome E (list byte);
  resolveDNS_valid host ip : resolveDNS host = Ok ip → valid_ip ip
}.

Inductive resolve_error (E : Type) :=
  | BadTarget (e : addr_error)
  | LookupFailed (e : E).
Arguments BadTarget {_} _.
Arguments LookupFailed {_} _.

Section resolve.
  Context {E : Type} `{Resolver E}.

(** [resolveTarget]: the CONNECT authority and the host header. *)
Definition resolveTarget (targetAddr : gostring)
    : outcome (resolve_error E) (gostring * gostring) :=
  '(host, port) ← err_map BadTarget (SplitHostPort targetAddr);
  match ParseIP host with
  | Some _ => Ok (JoinHostPort host port, [])
  | None =>
      ip ← err_map LookupFailed (resolveDNS host);
      Ok (JoinHostPort (ip_string ip) port, host)
  end.
End resolve.

(** ** The CONNECT exchange *)

(** What the methods of one HTTP/3 request stream return: the two [SetDeadline]
    calls, [SendRequestHeader], and [ReadResponse] (the status code). *)
Record edge_stream := {
  set_deadline_ok : bool;
  send_header_ok : bool;
  read_response : option Z;
  clear_deadline_ok : bool
}.

Inductive connect_error := SetDeadlineFailed | SendFailed | ReadFailed | ClearDeadlineFailed.

(** [connectDeadline]: the caller's remaining budget, else a fixed fallback. *)
Definition connectDeadline (ctxDeadline : option Z) (now fallback : Z) : Z :=
  match ctxDeadline with Some dl => dl | None => now + fallback end.

Definition connectThroughEdge (s : edge_stream) (authority authorization : gostring)
    (hostHeader : option gostring) : io connect_error Z :=
  _ ← emit (StreamDeadline true);
  _ ← assert_io (set_deadline_ok s) SetDeadlineFailed;
  _ ← emit (ConnectSent authority authorization hostHeader);
  _ ← assert_io (send_header_ok s) SendFailed;
  status ← match read_response s with Some st => mret st | None => fail ReadFailed end;
  _ ← emit (StreamDeadline false);
  _ ← assert_io (clear_deadline_ok s) ClearDeadlineFailed;
  mret status.

(** [releaseStream] *)
Definition releaseStream {E} : io E unit := emit StreamReleased.

(** ** HandleSOCKS5 *)

Section h3_handler.
  Context {E : Type} `{Resolver E}.
  (** [openRequestStream] for this connection, and the client's token. *)
  Context (openRequestStream : option edge_stream) (token : gostring).

(** Username/password authentication; [false] is an early return. *)
Definition h3_auth (cfg : SOCKS5Config) : io Empty_set bool :=
  ok ← write [x05; x02];
  if negb ok then mret false
  else
    r ← read 512;
    match r with
    | None => mret false
    | Some authData =>
        if bool_decide (length authData < 2) || negb (bool_decide (authData !! 0 = Some x01))
        then mret false
        else
          ub ← lift (go_index authData 1);
          let ulen := Z.to_nat (b2z ub) in
          if bool_decide (length authData < 2 + ulen + 1) then mret false
          else
            recvUser ← lift (go_slice authData 2 (2 + ulen));
            pb ← lift (go_index authData (2 + ulen));
            let plen := Z.to_nat (b2z pb) in
            if bool_decide (length authData < 2 + ulen + 1 + plen) then mret false
            else
              recvPass ← lift (go_slice authData (2 + ulen + 1) (2 + ulen + 1 + plen));
              if negb (bool_decide (recvUser = Username cfg))
                 || negb (bool_decide (recvPass = Password cfg))
              then
                _ ← write [x01; x01];
                mret false
              else
                _ ← write [x01; x00];
                mret true
    end.

(** The [Host] header for a name that was resolved: [hostHeader + ":" + hostPort],
    where the error of the second [SplitHostPort] is ignored. *)
Definition host_header (connectTarget hostHeader : gostring) : option gostring :=
  if decide (hostHeader = []) then None
  else
    let hostPort := match SplitHostPort connectTarget with Ok (_, p) => p | _ => [] end in
    Some (hostHeader ++ colon :: hostPort).

(** From the parsed request to the end of the relay.  The relay itself is the
    transition system of [Relay]; its deferred [release] retires the stream. *)
Definition h3_connect (data : list byte) : io Empty_set unit :=
  r ← attempt (lift (parseSOCKS5Addr data));
  match r with
  | inl _ => sendSocks5Err x08
  | inr (targetAddr, _) =>
      _ ← emit (ConnDeadline false);
      r ← attempt (lift (resolveTarget targetAddr));
      match r with
      | inl _ => sendSocks5Err x04
      | inr (connectTarget, hostHeader) =>
          _ ← emit (ResolvedTo connectTarget hostHeader);
          match openRequestStream with
          | None => sendSocks5Err x04
          | Some reqStream =>
              _ ← emit StreamOpened;
              r ← attempt (connectThroughEdge reqStream connectTarget
                             (str "Bearer " ++ token) (host_header connectTarget hostHeader));
              match r with
              | inl _ =>
                  _ ← releaseStream;
                  sendSocks5Err x04
              | inr status =>
                  if negb (bool_decide (status = 200%Z)) then
                    _ ← releaseStream;
                    sendSocks5Err x04
                  else
                    _ ← sendSocks5Success;
                    _ ← emit (Relayed targetAddr);
                    releaseStream
              end
          end
      end
  end.

Definition h3_HandleSOCKS5 (cfg : SOCKS5Config) : io Empty_set unit :=
  finally
    (_ ← emit (ConnDeadline true);
     r ← read 512;
     match r with
     | None => mret ()
     | Some data =>
         if bool_decide (length data < 2) || negb (bool_decide (data !! 0 = Some x05))
         then mret ()
         else
           authed ← (if requireAuth cfg then h3_auth cfg else write [x05; x00]);
           if negb authed then mret ()
           else
             r ← read 512;
             match r with
             | None => mret ()
             | Some data =>
                 if bool_decide (length data < 4) then sendSocks5Err x07
                 else
                   command ← lift (go_index data 1);
                   if decide (command = socks5CmdConnect) then h3_connect data
                   else if decide (command = socks5CmdUDPAssociate) then
                     if negb (AllowUDP cfg) then sendSocks5Err x07
                     else
                       _ ← emit (ConnDeadline false);
                       emit UDPAssociate
                   else sendSocks5Err x07
             end
     end)
    ConnClosed.
End h3_handler.
