(* ===== verification/SocksH3Facts.v ===== *)
(** * Properties of the SOCKS5 front end of the H3 backend

    A specification of the handler as a typestate on its trace, the proof that
    every run of [h3_HandleSOCKS5] follows it, and what the handler does for a
    client that asks for a connection. *)

From Stdlib Require Import Init.Byte.
From S2P Require Import Prelude GoNet GoNetFacts Conn Socks5Wire Socks5WireFacts SocksH2.
From S2P Require Import SocksH2Facts SocksH3.

(** ** The protocol the handler promises to follow *)

Inductive phase :=
  | Fresh
  | Handshake                                  (** the connection deadline is armed *)
  | Setup                                      (** it has been cleared *)
  | HasTarget (t h : gostring)                 (** resolved *)
  | Held (t h : gostring)                      (** a stream is open *)
  | Armed (t h : gostring)                     (** ... under a deadline *)
  | Sent                                       (** ... and the CONNECT was sent *)
  | Answered                                   (** ... the deadline was cleared *)
  | Ready                                      (** ... success was reported *)
  | InRelay                                    (** ... and bytes flow *)
  | Finished                                   (** no stream is held *)
  | Closed.

#[export] Instance phase_eq_dec : EqDecision phase.
Proof. solve_decision. Defined.

(** Which event may come next; [None] is a violation. *)
Definition next (p : phase) (ev : event) : option phase :=
  match p, ev with
  | Fresh, ConnDeadline true => Some Handshake
  | Handshake, Wrote _ _ => Some Handshake
  | Handshake, ConnDeadline false => Some Setup
  | Setup, UDPAssociate => Some Finished
  | Setup, ResolvedTo t h => Some (HasTarget t h)
  | HasTarget t h, StreamOpened => Some (Held t h)
  | Held t h, StreamDeadline true => Some (Armed t h)
  | Armed t h, ConnectSent authority _ hh =>
      if decide (authority = t ∧ hh = host_header t h) then Some Sent else None
  | Sent, StreamDeadline false => Some Answered
  | Answered, Wrote bs _ => if decide (bs !! 1 = Some x00) then Some Ready else None
  | Ready, Relayed _ => Some InRelay
  | (Armed _ _ | Sent | Answered | InRelay), StreamReleased => Some Finished
  | (Setup | HasTarget _ _ | Finished), Wrote bs _ =>
      if decide (bs !! 1 = Some x00) then None else Some Finished
  | (Handshake | Setup | HasTarget _ _ | Finished), ConnClosed => Some Closed
  | _, _ => None
  end.

Fixpoint run_phase (p : phase) (tr : list event) : option phase :=
  match tr with
  | [] => Some p
  | ev :: tr' => next p ev ≫= λ p', run_phase p' tr'
  end.

Lemma run_phase_app p tr1 tr2 :
  run_phase p (tr1 ++ tr2) = run_phase p tr1 ≫= λ p', run_phase p' tr2.
Proof.
  revert p. induction tr1 as [|ev tr1 IH]; intros p; [done|]. cbn.
  destruct (next p ev); cbn; [apply IH|done].
Qed.

(** ** Triples over the typestate *)

Definition triple {E A} (p : phase) (m : io E A) (Q : outcome E A → phase → Prop) : Prop :=
  ∀ c, run_phase Fresh (trace c) = Some p →
       ∃ p', run_phase Fresh (trace (after m c)) = Some p' ∧ Q (result m c) p'.

Lemma triple_quiet {E A} p (m : io E A) (Q : outcome E A → phase → Prop) :
  (∀ c, trace (after m c) = trace c) → (∀ c, Q (result m c) p) → triple p m Q.
Proof. intros Hm HQ c Hc. exists p. by rewrite Hm. Qed.

Lemma triple_ret {E A} p (a : A) (Q : outcome E A → phase → Prop) :
  Q (Ok a) p → triple p (mret a) Q.
Proof. intros. by apply triple_quiet. Qed.

Lemma triple_fail {E A} p (e : E) (Q : outcome E A → phase → Prop) :
  Q (Err e) p → triple p (fail e) Q.
Proof. intros. by apply triple_quiet. Qed.

Lemma triple_lift {E A} p (m : outcome E A) (Q : outcome E A → phase → Prop) :
  Q m p → triple p (lift m) Q.
Proof. intros. by apply triple_quiet. Qed.

Lemma triple_assert {E} p b (e : E) (Q : outcome E unit → phase → Prop) :
  Q (Ok ()) p → Q (Err e) p → triple p (assert_io b e) Q.
Proof. intros. apply triple_quiet; [done|]. intros c. by destruct b. Qed.

Lemma triple_read {E} p n (Q : outcome E (option (list byte)) → phase → Prop) :
  (∀ r, Q (Ok r) p) → triple p (read n) Q.
Proof.
  intros HQ. apply triple_quiet; intros c; unfold after, result, read;
    destruct (inbox c); cbn; auto.
Qed.

Lemma triple_step {E} p ev p' (Q : outcome E unit → phase → Prop) :
  next p ev = Some p' → Q (Ok ()) p' → triple p (emit ev) Q.
Proof.
  intros Hn HQ c Hc. exists p'. split; [|done]. cbn.
  rewrite run_phase_app, Hc. cbn. by rewrite Hn.
Qed.

Lemma triple_write {E} p bs p' (Q : outcome E bool → phase → Prop) :
  (∀ ok, next p (Wrote bs ok) = Some p') → (∀ ok, Q (Ok ok) p') → triple p (write bs) Q.
Proof.
  intros Hn HQ c Hc. exists p'. split; [|apply HQ]. cbn.
  rewrite run_phase_app, Hc. cbn. by rewrite Hn.
Qed.

Lemma triple_bind {E A B} p (m : io E A) (f : A → io E B) R (Q : outcome E B → phase → Prop) :
  triple p m R →
  (∀ r p', R r p' →
     match r with Ok a => triple p' (f a) Q | Err e => Q (Err e) p' | Panic => Q Panic p' end) →
  triple p (m ≫= f) Q.
Proof.
  intros Hm Hf c Hc. destruct (Hm c Hc) as (p' & Hp & HR). specialize (Hf _ _ HR).
  unfold after, result, mbind, io_bind in *. destruct (m c) as [[a|e|] c']; cbn in *; eauto.
Qed.

Lemma triple_attempt {E F A} p (m : io E A) (Q : outcome F (E + A) → phase → Prop) :
  triple p m (λ r p', match r with
                      | Ok a => Q (Ok (inr a)) p' | Err e => Q (Ok (inl e)) p' | Panic => Q Panic p'
                      end) →
  triple p (attempt m) Q.
Proof.
  intros Hm c Hc. destruct (Hm c Hc) as (p' & Hp & HQ). exists p'.
  unfold after, result, attempt in *. by destruct (m c) as [[a|e|] c'].
Qed.

Lemma triple_mono {E A} p (m : io E A) (Q R : outcome E A → phase → Prop) :
  triple p m R → (∀ r p', R r p' → Q r p') → triple p m Q.
Proof. intros Hm HQ c Hc. destruct (Hm c Hc) as (p' & ? & ?). eauto. Qed.

(** A single quiet or one-event command, followed by the rest. *)
Lemma triple_emit_bind {E B} p ev p' (f : unit → io E B) Q :
  next p ev = Some p' → triple p' (f ()) Q → triple p (emit ev ≫= f) Q.
Proof.
  intros Hn Hf. eapply triple_bind; [apply (triple_step _ _ p'
    (λ r q, r = Ok () ∧ q = p')); done|]. by intros r q [-> ->].
Qed.

Lemma triple_write_bind {E B} p bs p' (f : bool → io E B) Q :
  (∀ ok, next p (Wrote bs ok) = Some p') → (∀ ok, triple p' (f ok) Q) →
  triple p (write bs ≫= f) Q.
Proof.
  intros Hn Hf. eapply triple_bind;
    [apply (triple_write _ _ p' (λ r q, (∃ ok, r = Ok ok) ∧ q = p')); eauto|].
  by intros r q [[ok ->] ->].
Qed.

Lemma triple_read_bind {E B} p n (f : option (list byte) → io E B) Q :
  (∀ r, triple p (f r) Q) → triple p (read n ≫= f) Q.
Proof.
  intros Hf. eapply triple_bind;
    [apply (triple_read _ _ (λ r q, (∃ x, r = Ok x) ∧ q = p)); eauto|].
  by intros r q [[x ->] ->].
Qed.

Lemma triple_lift_bind {E A B} p (m : outcome E A) (f : A → io E B)
    (Q : outcome E B → phase → Prop) :
  (∀ a, triple p (f a) Q) → (∀ e, Q (Err e) p) → Q Panic p → triple p (lift m ≫= f) Q.
Proof.
  intros Hf He HP. eapply triple_bind; [apply (triple_lift _ _ (λ r q, r = m ∧ q = p)); done|].
  intros r q [-> ->]. destruct m; auto.
Qed.

Lemma triple_assert_bind {E B} p b (e : E) (f : unit → io E B) (Q : outcome E B → phase → Prop) :
  triple p (f ()) Q → Q (Err e) p → triple p (assert_io b e ≫= f) Q.
Proof.
  intros Hf He. eapply triple_bind;
    [apply (triple_assert _ _ _ (λ r q, (r = Ok () ∨ r = Err e) ∧ q = p)); auto|].
  by intros r q [[-> | ->] ->].
Qed.

Lemma triple_assoc {E A B} p (m : io E bool) (f : bool → io E A) (g : A → io E B) Q :
  triple p ((m ≫= f) ≫= g) Q ↔ triple p (m ≫= λ a, f a ≫= g) Q.
Proof.
  unfold triple, after, result. split; intros Ht c; specialize (Ht c);
    [rewrite <- io_bind_assoc|rewrite io_bind_assoc]; done.
Qed.

(** A deferred close: the program may end in any phase that allows it. *)
Lemma triple_finally {E A} p (m : io E A) ev :
  triple p m (λ _ p', next p' ev = Some Closed) →
  triple p (finally m ev) (λ _ p', p' = Closed).
Proof.
  intros Hm c Hc. destruct (Hm c Hc) as (p' & Hp & Hn). exists Closed.
  unfold after, result, finally in *. destruct (m c) as [r c']. cbn in *.
  by rewrite run_phase_app, Hp; cbn; rewrite Hn.
Qed.

(** ** The handler follows the protocol *)

(** The phases in which the handler holds no stream, so may just close. *)
Definition idle (p : phase) : Prop :=
  match p with Handshake | Setup | HasTarget _ _ | Finished => True | _ => False end.

Notation ends := (λ _ p, idle p).

Lemma reply_err {E} p code :
  code ≠ x00 → idle p → triple (E:=E) p (sendSocks5Err code) ends.
Proof.
  intros Hc Hp. unfold sendSocks5Err. destruct p; try done;
    (eapply triple_write_bind;
      [intros ok; cbn; rewrite ?decide_False by congruence; reflexivity
      |intros ok; by apply triple_ret]).
Qed.

Section follows.
  Context {E : Type} `{Resolver E} (openRequestStream : option edge_stream) (token : gostring).

(** The CONNECT exchange either fails with the stream still held, or leaves it
    answered with its deadline cleared. *)
Lemma connect_triple s t h auth :
  triple (Held t h) (connectThroughEdge s t auth (host_header t h))
    (λ r p, match r with
            | Ok _ => p = Answered
            | Err _ => next p StreamReleased = Some Finished
            | Panic => False
            end).
Proof.
  unfold connectThroughEdge.
  eapply triple_emit_bind; [done|]. apply triple_assert_bind; [|done].
  eapply triple_emit_bind; [by cbn; rewrite decide_True|]. apply triple_assert_bind; [|done].
  eapply triple_bind with (R := λ r p, p = Sent ∧ r ≠ Panic).
  { destruct (read_response s); [by apply triple_ret|by apply triple_fail]. }
  intros [st|e|] p [-> Hr]; [|done..].
  eapply triple_emit_bind; [done|]. apply triple_assert_bind; [|done]. by apply triple_ret.
Qed.

Lemma release_then_err p :
  next p StreamReleased = Some Finished →
  triple (E:=Empty_set) p (_ ← releaseStream; sendSocks5Err x04) ends.
Proof. intros Hp. eapply triple_emit_bind; [exact Hp|]. by apply reply_err. Qed.

Lemma h3_connect_triple data :
  triple Handshake (h3_connect openRequestStream token data) ends.
Proof.
  unfold h3_connect. eapply triple_bind with (R := λ _ p, p = Handshake).
  { apply triple_attempt, triple_lift. by destruct (parseSOCKS5Addr data). }
  intros [[e|[target host]]|e|] p ->; [by apply reply_err| |done..].
  eapply triple_emit_bind; [done|].
  eapply triple_bind with (R := λ _ p, p = Setup).
  { apply triple_attempt, triple_lift. by destruct (resolveTarget target). }
  intros [[e|[t h]]|e|] p ->; [by apply reply_err| |done..].
  eapply triple_emit_bind; [done|].
  destruct openRequestStream as [s|]; [|by apply reply_err].
  eapply triple_emit_bind; [done|].
  eapply triple_bind with (R := λ r p, match r with
    | Ok (inr _) => p = Answered
    | Ok (inl _) => next p StreamReleased = Some Finished
    | _ => False end).
  { apply triple_attempt. eapply triple_mono; [apply connect_triple|]. by intros [?|?|] ?. }
  intros [[e|st]|e|] p Hp; [by apply release_then_err| |done..].
  subst p. destruct (negb _); [by apply release_then_err|].
  unfold sendSocks5Success. rewrite triple_assoc.
  eapply triple_write_bind; [intros; cbn; by rewrite decide_True|]. intros _.
  eapply triple_emit_bind; [done|]. by eapply triple_step.
Qed.

(** Authentication stays in the handshake phase. *)
Lemma h3_auth_triple cfg :
  triple Handshake (h3_auth cfg) (λ _ p, p = Handshake).
Proof.
  unfold h3_auth. eapply triple_write_bind; [done|]. intros ok.
  destruct (negb ok); [by apply triple_ret|]. apply triple_read_bind. intros [data|]; [|by apply triple_ret].
  destruct (_ || _); [by apply triple_ret|]. apply triple_lift_bind; [|done..]. intros ub.
  cbv zeta. case_bool_decide; [by apply triple_ret|].
  apply triple_lift_bind; [|done..]. intros user. apply triple_lift_bind; [|done..]. intros pb.
  case_bool_decide; [by apply triple_ret|]. apply triple_lift_bind; [|done..]. intros pass.
  destruct (_ || _); (eapply triple_write_bind; [done|]); intros ?; by apply triple_ret.
Qed.

Lemma h3_triple cfg :
  triple Fresh (h3_HandleSOCKS5 openRequestStream token cfg) (λ _ p, p = Closed).
Proof.
  unfold h3_HandleSOCKS5. apply triple_finally.
  eapply triple_mono with (R := ends); [|by intros ? []].
  eapply triple_emit_bind; [done|]. apply triple_read_bind. intros [data|]; [|by apply triple_ret].
  destruct (_ || _); [by apply triple_ret|].
  eapply triple_bind with (R := λ _ p, p = Handshake).
  { destruct (requireAuth cfg); [apply h3_auth_triple|by eapply triple_write]. }
  intros [authed|e|] p ->; [|done..]. destruct (negb authed); [by apply triple_ret|].
  apply triple_read_bind. intros [req|]; [|by apply triple_ret].
  case_bool_decide; [by apply reply_err|]. apply triple_lift_bind; [|done..]. intros command.
  case_decide; [apply h3_connect_triple|]. case_decide; [|by apply reply_err].
  destruct (negb _); [by apply reply_err|].
  eapply triple_emit_bind; [done|]. by eapply triple_step.
Qed.
End follows.

(** ** Streams held along a run *)

Definition held (p : phase) : nat :=
  match p with Held _ _ | Armed _ _ | Sent | Answered | Ready | InRelay => 1 | _ => 0 end.

(** Has the handler got as far as opening a stream? *)
Definition used (p : phase) : nat :=
  match p with Fresh | Handshake | Setup | HasTarget _ _ => 0 | _ => 1 end.

Definition opened (tr : list event) : nat := length (filter (λ ev, ev = StreamOpened) tr).
Definition released (tr : list event) : nat := length (filter (λ ev, ev = StreamReleased) tr).

Lemma opened_cons ev tr : opened (ev :: tr) = (if decide (ev = StreamOpened) then 1 else 0) + opened tr.
Proof. unfold opened. rewrite filter_cons. by case_decide. Qed.

Lemma released_cons ev tr :
  released (ev :: tr) = (if decide (ev = StreamReleased) then 1 else 0) + released tr.
Proof. unfold released. rewrite filter_cons. by case_decide. Qed.

Lemma next_counts p ev q :
  next p ev = Some q →
  held p + (if decide (ev = StreamOpened) then 1 else 0)
  = held q + (if decide (ev = StreamReleased) then 1 else 0) ∧
  used p + (if decide (ev = StreamOpened) then 1 else 0) <= used q.
Proof.
  destruct p, ev; cbn; intros H; try done; repeat case_match; try done;
    injection H as <-; cbn; lia.
Qed.

Lemma run_phase_counts p tr q :
  run_phase p tr = Some q →
  held p + opened tr = held q + released tr ∧ used p + opened tr <= used q.
Proof.
  revert p. induction tr as [|ev tr IH]; intros p H; cbn in H.
  - injection H as <-. cbn. lia.
  - destruct (next p ev) as [p'|] eqn:Hn; [|done]. cbn in H.
    apply IH in H. apply next_counts in Hn. rewrite opened_cons, released_cons. lia.
Qed.

Lemma used_le p : used p <= 1.
Proof. destruct p; cbn; lia. Qed.

(** ** Authentication *)

Lemma read_Some {E} n c d c' :
  (read n : io E (option (list byte))) c = (Ok (Some d), c') →
  stream c = d ++ stream c' ∧ length d <= n.
Proof.
  unfold read, stream. destruct (inbox c) as [|seg segs]; [done|].
  intros [= <- <-]. cbn. rewrite concat_push_front, length_take, app_assoc, take_drop.
  split; [done|lia].
Qed.

Lemma read_emits_nothing {E} n c r c' :
  (read n : io E (option (list byte))) c = (Ok r, c') → trace c' = trace c.
Proof. unfold read. by destruct (inbox c); intros [= <- <-]. Qed.

(** A message that passes the checks of [h3_auth] starts with the credentials. *)
Lemma auth_message (d user pass : list byte) (ub pb : byte) :
  d !! 0 = Some x01 → d !! 1 = Some ub →
  user = take (Z.to_nat (b2z ub)) (drop 2 d) →
  d !! (2 + Z.to_nat (b2z ub)) = Some pb →
  pass = take (Z.to_nat (b2z pb)) (drop (2 + Z.to_nat (b2z ub) + 1) d) →
  2 + Z.to_nat (b2z ub) + 1 + Z.to_nat (b2z pb) <= length d →
  ∃ extra, d = x01 :: z2b (Z.of_nat (length user)) :: user ++
               z2b (Z.of_nat (length pass)) :: pass ++ extra.
Proof.
  set (u := Z.to_nat (b2z ub)). set (p := Z.to_nat (b2z pb)).
  intros H0 H1 Hu Hp Hpass Hl.
  assert (Hul : length user = u) by (subst user; rewrite length_take, length_drop; lia).
  assert (Hpl : length pass = p) by (subst pass; rewrite length_take, length_drop; lia).
  exists (drop (2 + u + 1 + p) d).
  rewrite (proj1 (length_byte user ub Hul)), (proj1 (length_byte pass pb Hpl)).
  destruct d as [|b0 [|b1 d]]; try done. cbn in H0, H1, Hu, Hp, Hpass, Hl |- *.
  injection H0 as ->. injection H1 as ->. do 2 f_equal.
  rewrite ?drop_0 in Hu. rewrite <- (take_drop u d) at 1. rewrite <- Hu. f_equal.
  replace (u + 1) with (S u) in Hpass by lia. replace (u + 1 + p) with (p + S u) by lia.
  replace (drop (p + S u) d) with (drop p (drop (S u) d)) by (rewrite drop_drop; f_equal; lia).
  rewrite (drop_S d pb u Hp). f_equal. by rewrite Hpass, take_drop.
Qed.

Lemma auth_true_inv cfg c c' :
  requireAuth cfg = true → h3_auth cfg c = (Ok true, c') →
  ∃ extra, stream c = credentials cfg ++ extra ++ stream c'.
Proof.
  intros Hauth H. unfold h3_auth in H.
  apply io_bind_Ok in H as (ok & c1 & Hw & H). apply write_Ok in Hw as (Hs1 & _).
  destruct (negb ok); [by inv_io|].
  apply io_bind_Ok in H as ([d|] & c2 & Hr & H); [|by inv_io].
  apply read_Some in Hr as [Hs2 _]. destruct (_ || _) eqn:Hg; [by inv_io|].
  apply orb_false_iff in Hg as [_ Hg%negb_false_iff%bool_decide_eq_true].
  inv_io. rename x into ub. cbv zeta in H. case_bool_decide; [by inv_io|].
  inv_io. rename x into user, x1 into pb. case_bool_decide; [by inv_io|].
  inv_io. rename x into pass.
  repeat match goal with
  | H : go_slice _ _ _ = Ok _ |- _ => rewrite go_slice_Ok in H by lia; injection H as H
  end.
  destruct (_ || _) eqn:Hc.
  { apply io_bind_Ok in H as (? & ? & _ & H). by inv_io. }
  apply orb_false_iff in Hc as [->%negb_false_iff%bool_decide_eq_true ->%negb_false_iff%bool_decide_eq_true].
  apply io_bind_Ok in H as (ok2 & c3 & Hw & H). apply write_Ok in Hw as (Hs3 & _). injection H as <-.
  destruct (auth_message d (Username cfg) (Password cfg) ub pb) as (extra & Hd);
    try done;
    [match goal with H : _ = Username cfg |- _ => rewrite <- H; f_equal; lia end
    |match goal with H : _ = Password cfg |- _ => rewrite <- H; f_equal; lia end
    |lia|].
  exists extra. unfold credentials. rewrite Hauth. rewrite Hs3, <- Hs1, Hs2, Hd. lists.
Qed.

Lemma h3_auth_emits cfg : emits unprivileged (h3_auth cfg).
Proof. unfold h3_auth. emits_auto. Qed.

(** ** Running the handler on a well-behaved client *)

Lemma read_bind {E B} n seg segs ws tr (k : option (list byte) → io E B) :
  length seg <= n →
  (read n ≫= k) (Conn (seg :: segs) ws tr) = k (Some seg) (Conn segs ws tr).
Proof.
  intros Hl. unfold mbind, io_bind, read. cbn [inbox wok trace].
  by rewrite take_ge, drop_ge by lia.
Qed.

Lemma write_bind_ok {E B} bs segs tr (k : bool → io E B) :
  (write bs ≫= k) (Conn segs [] tr) = k true (Conn segs [] (tr ++ [Wrote bs true])).
Proof. done. Qed.

Lemma emit_bind {E B} ev segs ws tr (k : unit → io E B) :
  (emit ev ≫= k) (Conn segs ws tr) = k () (Conn segs ws (tr ++ [ev])).
Proof. done. Qed.

Lemma lift_Ok_bind {E A B} (m : outcome E A) a (k : A → io E B) c :
  m = Ok a → (lift m ≫= k) c = k a c.
Proof. by intros ->. Qed.

(** The replies of the authentication phase. *)
Definition h3_replies (cfg : SOCKS5Config) : list event :=
  if requireAuth cfg then [Wrote [x05; x02] true; Wrote [x01; x00] true]
  else [Wrote [x05; x00] true].

(** The messages of the authentication phase, one segment each. *)
Definition h3_auth_segs (cfg : SOCKS5Config) : list (list byte) :=
  if requireAuth cfg then [credentials cfg] else [].

Lemma h3_auth_run cfg segs tr :
  requireAuth cfg = true → length (Username cfg) < 256 → length (Password cfg) < 256 →
  length (credentials cfg) <= 512 →
  h3_auth cfg (Conn (credentials cfg :: segs) [] tr)
  = (Ok true, Conn segs [] (tr ++ h3_replies cfg)).
Proof.
  intros Hauth Hu Hp Hl. unfold h3_auth, h3_replies. rewrite write_bind_ok. cbn [negb].
  rewrite read_bind by done. rewrite Hauth. unfold credentials in *. rewrite Hauth in *.
  rewrite (bool_decide_eq_false_2 (length _ < 2)), (bool_decide_eq_true_2 (_ !! 0 = _))
    by (done || (cbn; lia)).
  cbn [negb orb]. rewrite (lift_Ok_bind _ (z2b (Z.of_nat (length (Username cfg))))) by done.
  rewrite z2b_length by done. cbv zeta.
  set (u := Username cfg) in *. set (p := Password cfg) in *.
  set (ub := z2b (Z.of_nat (length u))). set (pb := z2b (Z.of_nat (length p))).
  rewrite (bool_decide_eq_false_2 (length _ < 2 + length u + 1))
    by (cbn; rewrite length_app; cbn; lia).
  rewrite (lift_Ok_bind _ u)
    by (apply (go_slice_app [x01; ub] u (pb :: p)); done).
  rewrite (lift_Ok_bind _ pb)
    by (apply go_index_Ok; apply (lookup_mid ([x01; ub] ++ u) p pb); cbn; lia).
  subst pb. rewrite z2b_length by done. set (pb := z2b (Z.of_nat (length p))).
  rewrite (bool_decide_eq_false_2 (length _ < 2 + length u + 1 + length p))
    by (cbn; rewrite length_app; cbn; lia).
  rewrite (lift_Ok_bind _ p).
  2:{ change (x01 :: ub :: u ++ pb :: p) with ([x01; ub] ++ u ++ [pb] ++ p).
      rewrite !app_assoc. apply go_slice_tail; rewrite !length_app; cbn; lia. }
  rewrite !bool_decide_eq_true_2 by done. cbn [negb orb].
  rewrite write_bind_ok. cbn. by rewrite <- app_assoc.
Qed.

(** ** Resolving the target *)

Section target.
  Context {E : Type} `{Resolver E}.

Lemma resolveTarget_ip ip port :
  valid_ip ip → (0 <= port)%Z →
  resolveTarget (JoinHostPort (ip_string ip) (itoa port))
  = Ok (JoinHostPort (ip_string ip) (itoa port), []).
Proof.
  intros Hv Hp. unfold resolveTarget.
  rewrite split_join by (by apply ip_string_clean || by apply clean_port_itoa). cbn.
  rewrite ParseIP_string by done. destruct (proj1 (To16_valid ip) Hv) as [v ->]. done.
Qed.

Lemma resolveTarget_name name port :
  clean_host name → ParseIP name = None → (0 <= port)%Z →
  resolveTarget (JoinHostPort name (itoa port))
  = ip ← err_map LookupFailed (resolveDNS name);
    Ok (JoinHostPort (ip_string ip) (itoa port), name).
Proof.
  intros Hc Hn Hp. unfold resolveTarget.
  rewrite split_join by (done || by apply clean_port_itoa). cbn. by rewrite Hn.
Qed.

(** The Host header names the original host and the requested port. *)
Lemma host_header_name ip name port :
  valid_ip ip → name ≠ [] → (0 <= port)%Z →
  host_header (JoinHostPort (ip_string ip) (itoa port)) name
  = Some (name ++ colon :: itoa port).
Proof.
  intros Hv Hn Hp. unfold host_header. rewrite decide_False by done.
  by rewrite split_join by (by apply ip_string_clean || by apply clean_port_itoa).
Qed.

(** A stream on which everything succeeds and the edge answers [status]. *)
Definition healthy (status : Z) : edge_stream := Build_edge_stream true true (Some status) true.

(** What the handler does with a target that resolves to [t] with header [h]. *)
Definition tunnel_events (token t h target : gostring) (status : Z) : list event :=
  [ConnDeadline false; ResolvedTo t h; StreamOpened; StreamDeadline true;
   ConnectSent t (str "Bearer " ++ token) (host_header t h); StreamDeadline false] ++
  (if decide (status = 200%Z) then
     [Wrote [x05; x00; x00; x01; x00; x00; x00; x00; x00; x00] true;
      Relayed target; StreamReleased]
   else [StreamReleased; Wrote [x05; x04; x00; x01; x00; x00; x00; x00; x00; x00] true]).

Lemma h3_connect_run token status data target host t h segs tr :
  parseSOCKS5Addr data = Ok (target, host) → resolveTarget target = Ok (t, h) →
  h3_connect (Some (healthy status)) token data (Conn segs [] tr)
  = (Ok (), Conn segs [] (tr ++ tunnel_events token t h target status)).
Proof.
  intros Hp Ht. unfold h3_connect, tunnel_events.
  erewrite bind_run by (apply attempt_run; unfold lift; by rewrite Hp).
  cbv beta iota. rewrite emit_bind.
  erewrite bind_run by (apply attempt_run; unfold lift; by rewrite Ht).
  cbv beta iota. rewrite !emit_bind.
  erewrite bind_run.
  2:{ apply attempt_run. unfold connectThroughEdge, healthy. cbn [set_deadline_ok
        send_header_ok read_response clear_deadline_ok].
      rewrite emit_bind, assert_bind, emit_bind, assert_bind, ret_bind, emit_bind, assert_bind.
      reflexivity. }
  cbv beta iota. destruct (decide (status = 200%Z)) as [->|Hs].
  - rewrite (bool_decide_eq_true_2 (200%Z = 200%Z)) by done. unfold sendSocks5Success. cbn [negb].
    rewrite io_bind_assoc, write_bind_ok, ret_bind, emit_bind. unfold releaseStream, emit, emit_to.
    cbn. by rewrite <- !app_assoc.
  - rewrite (bool_decide_eq_false_2 (status = 200%Z)) by done. unfold sendSocks5Err, releaseStream.
    cbn [negb]. rewrite emit_bind, write_bind_ok. unfold mret, io_ret. cbn.
    by rewrite <- !app_assoc.
Qed.
End target.

Lemma request_length ver cmd rsv d port extra :
  4 <= length ([ver; cmd; rsv] ++ encode_dest d ++ put16 port ++ extra).
Proof. destruct d; cbn; lia. Qed.

(** The handler up to the CONNECT branch. *)
Lemma h3_run_to_connect `{Resolver E} os token cfg (hello data : list byte) segs :
  2 <= length hello <= 512 → hello !! 0 = Some x05 →
  (requireAuth cfg = true → length (Username cfg) < 256 ∧ length (Password cfg) < 256 ∧
                            length (credentials cfg) <= 512) →
  4 <= length data <= 512 → data !! 1 = Some socks5CmdConnect →
  h3_HandleSOCKS5 os token cfg (start (hello :: h3_auth_segs cfg ++ data :: segs) [])
  = finally (h3_connect os token data) ConnClosed
      (Conn segs [] (ConnDeadline true :: h3_replies cfg)).
Proof.
  intros Hh H5 Hc Hd Hcmd. unfold h3_HandleSOCKS5, start, finally.
  rewrite emit_bind, read_bind by lia.
  rewrite (bool_decide_eq_false_2 (length hello < 2)), (bool_decide_eq_true_2 (hello !! 0 = _))
    by (done || lia).
  cbn [negb orb].
  erewrite (bind_run (if requireAuth cfg then h3_auth cfg else write _) _ _ true
    (Conn (data :: segs) [] (ConnDeadline true :: h3_replies cfg))).
  2:{ unfold h3_auth_segs. destruct (requireAuth cfg) eqn:Hauth.
      - destruct (Hc eq_refl) as (? & ? & ?). cbn [app]. by rewrite h3_auth_run.
      - unfold h3_replies. by rewrite Hauth. }
  cbv beta iota. cbn [negb]. rewrite read_bind by lia.
  rewrite (bool_decide_eq_false_2 (length data < 4)) by lia.
  rewrite (lift_Ok_bind _ socks5CmdConnect) by by apply go_index_Ok.
  by rewrite decide_True.
Qed.

(** ** Properties *)

(** C14: every run of the H3 front end, whatever the client sends and however
    writes, name resolution and the edge behave, follows the protocol [next]: a
    stream is opened only for a resolved target and after the handshake deadline
    was cleared; the CONNECT carries that target and its Host header and is sent
    under an armed stream deadline; success is reported and the relay entered only
    after that deadline was cleared; an error reply is sent only when no stream is
    held; every stream opened (at most one) is released; and the connection is
    closed last, also when the handler panics. *)
Theorem h3_follows_protocol `{Resolver E} os token cfg segs ws :
  let tr := trace (after (h3_HandleSOCKS5 os token cfg) (start segs ws)) in
  run_phase Fresh tr = Some Closed ∧ opened tr = released tr ∧ opened tr <= 1.
Proof.
  intros tr. destruct (h3_triple os token cfg (start segs ws) eq_refl) as (p & Hp & ->).
  fold tr in Hp. destruct (run_phase_counts _ _ _ Hp) as [Hheld Hused]. cbn in *.
  repeat split; [done|lia|lia].
Qed.

(** C1: with authentication configured, the H3 front end resolves, opens a stream,
    relays or opens a UDP association only for a client whose first message starts
    a SOCKS5 greeting and whose next message starts with exactly the configured
    credentials. *)
Theorem h3_auth_required `{Resolver E} os token cfg segs ws :
  requireAuth cfg = true →
  Exists (λ ev, privileged ev = true)
    (trace (after (h3_HandleSOCKS5 os token cfg) (start segs ws))) →
  ∃ hello rest, concat segs = hello ++ credentials cfg ++ rest ∧ 2 <= length hello <= 512 ∧
    hello !! 0 = Some x05.
Proof.
  intros Hauth H0. unfold h3_HandleSOCKS5, after, finally in H0.
  unfold start in H0. rewrite emit_bind in H0.
  set (c1 := Conn segs ws _) in *.
  unfold mbind at 1, io_bind at 1 in H0.
  destruct (read 512 c1) as [r c2] eqn:Hr.
  assert (Ht2 : trace c2 = [ConnDeadline true])
    by (revert Hr; unfold read; cbn; destruct segs; intros [= _ <-]; done).
  assert (Hquiet : ∀ tr, Forall unprivileged tr →
            ¬ Exists (λ ev, privileged ev = true) ((trace c2 ++ tr) ++ [ConnClosed])).
  { intros tr Hf Hex. apply privileged_app in Hex; [|by repeat constructor].
    apply privileged_app in Hex; [|done]. rewrite Ht2 in Hex.
    inversion Hex as [? ? Hx|? ? Hx]; [done|inversion Hx]. }
  destruct r as [[hello|]|e|]; [| |done|];
    try (exfalso; apply (Hquiet []); [done|]; rewrite app_nil_r; exact H0).
  apply read_Some in Hr as [Hs Hl].
  destruct (_ || _) eqn:Hg; [exfalso; apply (Hquiet []); [done|]; rewrite app_nil_r; exact H0|].
  apply orb_false_iff in Hg as [Hlen%bool_decide_eq_false H5%negb_false_iff%bool_decide_eq_true].
  rewrite Hauth in H0. unfold mbind at 1, io_bind at 1 in H0.
  destruct (h3_auth_emits cfg c2) as (tr & Htr & Hf). unfold after in Htr.
  destruct (h3_auth cfg c2) as [[b|e|] c3] eqn:Ha; cbn [snd] in Htr;
    [|done|exfalso; apply (Hquiet tr Hf); rewrite <- Htr; exact H0].
  destruct b; cbn [negb] in H0; [|exfalso; apply (Hquiet tr Hf); rewrite <- Htr; exact H0].
  apply auth_true_inv in Ha as [extra He]; [|done].
  exists hello, (extra ++ stream c3). split; [|split; [lia|done]].
  change (concat segs) with (stream c1). by rewrite Hs, He.
Qed.

(** A resolver that answers 1.1.1.1 for every name. *)
Program Definition fixed_resolver : Resolver unit :=
  {| resolveDNS _ := Ok (IPv4 x01 x01 x01 x01) |}.
Next Obligation. intros ? ? [= <-]. by right. Qed.

Lemma h3_auth_required_witness :
  let cfg := Build_SOCKS5Config (str "u") (str "p") true in
  let segs := [[x05; x01; x02]; [x01; x01; x75; x01; x70];
               [x05; x01; x00; x01; x01; x01; x01; x01; x00; x50]] in
  ∃ hello rest, concat segs = hello ++ credentials cfg ++ rest ∧ 2 <= length hello <= 512 ∧
    hello !! 0 = Some x05.
Proof.
  intros cfg segs.
  apply (h3_auth_required (H:=fixed_resolver) (Some (healthy 200)) (str "t") cfg segs []); [done|].
  apply (bool_decide_unpack _). by vm_compute.
Defined.

(** [resolveTarget] leaves an address literal as it is, without asking the
    resolver; a name becomes the authority of the address it resolves to, which
    splits and parses back to exactly that address (an IPv6 address is bracketed
    once), with the name as host header; a failed lookup is the only error. *)
Theorem resolveTarget_correct `{Resolver E} port :
  (0 <= port)%Z →
  (∀ ip, valid_ip ip →
     let target := JoinHostPort (ip_string ip) (itoa port) in
     resolveTarget target = Ok (target, [])) ∧
  (∀ name, clean_host name → ParseIP name = None →
     match resolveDNS name with
     | Ok ip => ∃ authority,
         resolveTarget (JoinHostPort name (itoa port)) = Ok (authority, name) ∧
         SplitHostPort authority = Ok (ip_string ip, itoa port) ∧
         ParseIP (ip_string ip) = To16 ip
     | Err e => resolveTarget (JoinHostPort name (itoa port)) = Err (LookupFailed e)
     | Panic => resolveTarget (JoinHostPort name (itoa port)) = Panic
     end).
Proof.
  intros Hp. split; [intros ip Hv; by apply resolveTarget_ip|].
  intros name Hc Hn. rewrite resolveTarget_name by done.
  destruct (resolveDNS name) as [ip|e|] eqn:Hr; [|done..].
  pose proof (resolveDNS_valid _ _ Hr) as Hv.
  eexists. split; [done|]. split; [|by apply ParseIP_string].
  apply split_join; [by apply ip_string_clean|by apply clean_port_itoa].
Qed.

Lemma resolveTarget_correct_witness :
  resolveTarget (H:=fixed_resolver) (str "[::1]:80") = Ok (str "[::1]:80", []).
Proof.
  apply (proj1 (resolveTarget_correct (H:=fixed_resolver) 80 ltac:(done)) IPv6loopback).
  apply (bool_decide_unpack _). by vm_compute.
Defined.

Lemma h3_session_run `{Resolver E} token cfg hello d port extra t h status segs :
  let data := [x05; socks5CmdConnect; x00] ++ encode_dest d ++ put16 port ++ extra in
  let target := JoinHostPort (dest_host d) (itoa port) in
  2 <= length hello <= 512 → hello !! 0 = Some x05 →
  (requireAuth cfg = true → length (Username cfg) < 256 ∧ length (Password cfg) < 256 ∧
                            length (credentials cfg) <= 512) →
  dest_ok d → (0 < port < 65536)%Z → length data <= 512 →
  resolveTarget target = Ok (t, h) →
  h3_HandleSOCKS5 (Some (healthy status)) token cfg
    (start (hello :: h3_auth_segs cfg ++ data :: segs) [])
  = (Ok (), Conn segs [] ([ConnDeadline true] ++ h3_replies cfg ++
                          tunnel_events token t h target status ++ [ConnClosed])).
Proof.
  intros data target Hh H5 Hc Hd Hp Hl Ht.
  pose proof (request_length x05 socks5CmdConnect x00 d port extra) as H4.
  rewrite h3_run_to_connect by (done || by subst data). unfold finally.
  rewrite (h3_connect_run token status data target (dest_host d) t h); [|subst data|done].
  - unfold emit_to. cbn [inbox wok trace]. change (ConnDeadline true :: h3_replies cfg)
      with ([ConnDeadline true] ++ h3_replies cfg). by rewrite <- !app_assoc.
  - destruct (be16_put16 port) as (hi & lo & -> & <-); [lia|].
    change (_ ++ encode_dest d ++ [hi; lo] ++ extra)
      with (request x05 socks5CmdConnect x00 d hi lo extra).
    rewrite parse_normal by done. by rewrite decide_False by lia.
Qed.

(** C7: for a client that sends one message at a time and asks to CONNECT, the H3
    front end authenticates it, resolves the requested target, runs the CONNECT
    exchange for it and, on status 200, reports success and relays; on any other
    status it releases the stream and reports a failure.  Bytes that arrive in the
    same segment as the request ([extra]) are not left for the relay: only the
    later segments are. *)
Theorem h3_connect_session `{Resolver E} token cfg hello d port extra t h status segs :
  let data := [x05; socks5CmdConnect; x00] ++ encode_dest d ++ put16 port ++ extra in
  let target := JoinHostPort (dest_host d) (itoa port) in
  2 <= length hello <= 512 → hello !! 0 = Some x05 →
  (requireAuth cfg = true → length (Username cfg) < 256 ∧ length (Password cfg) < 256 ∧
                            length (credentials cfg) <= 512) →
  dest_ok d → (0 < port < 65536)%Z → length data <= 512 →
  resolveTarget target = Ok (t, h) →
  h3_HandleSOCKS5 (Some (healthy status)) token cfg
    (start (hello :: h3_auth_segs cfg ++ data :: segs) [])
  = (Ok (), Conn segs [] ([ConnDeadline true] ++ h3_replies cfg ++
                          tunnel_events token t h target status ++ [ConnClosed])).
Proof. apply h3_session_run. Qed.

Lemma h3_connect_session_witness :
  h3_HandleSOCKS5 (H:=fixed_resolver) (Some (healthy 200)) (str "tok")
    (Build_SOCKS5Config (str "u") (str "p") true)
    (start ([x05; x01; x02] :: h3_auth_segs (Build_SOCKS5Config (str "u") (str "p") true) ++
            [[x05; x01; x00; x03; x01; x61; x00; x50; xff]; [xaa]]) [])
  = (Ok (), Conn [[xaa]] [] ([ConnDeadline true] ++
       h3_replies (Build_SOCKS5Config (str "u") (str "p") true) ++
       tunnel_events (str "tok") (str "1.1.1.1:80") (str "a") (str "a:80") 200 ++ [ConnClosed])).
Proof.
  apply (h3_connect_session (H:=fixed_resolver) (str "tok")
    (Build_SOCKS5Config (str "u") (str "p") true) [x05; x01; x02] (DestDomain (str "a")) 80 [xff]
    (str "1.1.1.1:80") (str "a") 200 [[xaa]]);
    try done; try (apply (bool_decide_unpack _); by vm_compute).
Defined.

(** without authentication, one four-byte request makes the H3 front end
    panic, after which the connection is closed; with authentication the same
    request does so for a client that knows the credentials. *)
Theorem h3_short_domain_request_panics `{Resolver E} os token cfg ver rsv segs :
  requireAuth cfg = false →
  h3_HandleSOCKS5 os token cfg
    (start ([x05; x01; x00] :: [ver; socks5CmdConnect; rsv; x03] :: segs) [])
  = (Panic, Conn segs [] [ConnDeadline true; Wrote [x05; x00] true; ConnClosed]).
Proof.
  intros Hauth.
  pose proof (h3_run_to_connect os token cfg [x05; x01; x00] [ver; socks5CmdConnect; rsv; x03] segs)
    as Hrun. unfold h3_auth_segs, h3_replies in Hrun. rewrite Hauth in Hrun. cbn [app] in Hrun.
  rewrite Hrun by (done || (cbn; lia)). reflexivity.
Qed.

Lemma h3_short_domain_request_panics_witness :
  h3_HandleSOCKS5 (H:=fixed_resolver) None [] (Build_SOCKS5Config [] [] false)
    (start [[x05; x01; x00]; [x05; x01; x00; x03]] [])
  = (Panic, Conn [] [] [ConnDeadline true; Wrote [x05; x00] true; ConnClosed]).
Proof.
  apply (h3_short_domain_request_panics (H:=fixed_resolver) None []
    (Build_SOCKS5Config [] [] false) x05 x00 []). reflexivity.
Defined.

(** The H3 front end reads one message per [Read], so a client whose two-byte
    greeting header is split gets a different answer for the same bytes; the H2
    front end does not behave this way. *)
Lemma h3_segmentation_observable `{Resolver E} os token :
  let cfg := Build_SOCKS5Config [] [] false in
  let run segs := trace (after (h3_HandleSOCKS5 os token cfg) (start segs [])) in
  concat [[x05; x01; x00]] = concat [[x05]; [x01; x00]] ∧
  run [[x05; x01; x00]] ≠ run [[x05]; [x01; x00]].
Proof. split; [done|]. by intros [=]. Qed.
