(* ===== verification/Relay.v ===== *)
(** * The relays between a SOCKS5 client and its tunnel

    Once a tunnel is up, each handler copies in both directions with [io.Copy].
    The H3 relay is the end of [MasqueClient.HandleSOCKS5] (src/tunnel/masque.go),
    the H2 relay the end of [H2Client.HandleSOCKS5] (src/tunnel/h2_socks.go).  Each
    is a transition system: a label is one step of a goroutine or of the
    environment, and [step] is the partial function the label denotes. *)

From S2P Require Import Prelude.

(** ** What a peer delivers *)

Inductive ending := Eof | Broken.

#[export] Instance ending_eq_dec : EqDecision ending.
Proof. solve_decision. Defined.

(** What a peer delivers, and the copy that takes it on.  [pending]: chunks delivered
    and not yet read; [ended]: what a read returns after them, if the peer has
    finished; [total]: everything it ever delivered.  [in_hand]: what the copy has
    read and not yet written; [parked]: it waits inside [Write] for the rest of it;
    [room]: how many more bytes the other side takes for now (its flow-control or
    socket window), [None] if any number. *)
Record source := Source {
  pending : list (list byte); ended : option ending; total : list byte;
  in_hand : list byte; parked : bool; room : option nat
}.

(** A peer that has delivered these chunks. *)
Definition arrived (segs : list (list byte)) : source := Source segs None (concat segs) [] false None.

Definition deliver (bs : list byte) (s : source) : option source :=
  match ended s with
  | None => Some (Source (pending s ++ [bs]) None (total s ++ bs) (in_hand s) (parked s) (room s))
  | Some _ => None
  end.

Definition finish (e : ending) (s : source) : option source :=
  match ended s with
  | None => Some (Source (pending s) (Some e) (total s) (in_hand s) (parked s) (room s))
  | Some _ => None
  end.

(** The other side opens or closes its window. *)
Definition with_room (n : option nat) (s : source) : source :=
  Source (pending s) (ended s) (total s) (in_hand s) (parked s) n.

(** One [Write] of what is in hand, for as many bytes as the other side takes: the
    rest stays in hand and the write parks.  [None]: it is parked already and nothing
    is taken. *)
Definition write_turn (s : source) : option (source * list byte) :=
  match room s with
  | None => Some (Source (pending s) (ended s) (total s) [] false None, in_hand s)
  | Some n =>
      if decide (length (in_hand s) <= n) then
        Some (Source (pending s) (ended s) (total s) [] false (Some (n - length (in_hand s))), in_hand s)
      else if parked s && bool_decide (n = 0) then None
      else Some (Source (pending s) (ended s) (total s) (drop n (in_hand s)) true (Some 0),
                 take n (in_hand s))
  end.

(** One turn of the loop of [io.Copy(dst, src)]: a read when nothing is in hand, else
    a write.  [closed]: reads from [src] fail; [refused]: writes to [dst] fail, and
    with [wakes] a write that is parked fails too ([net.Conn.Close] unblocks it, the
    [Close] of a QUIC stream does not); [short]: the write fails after that many bytes.
    The result is the new source, the bytes written, and whether the copy returned
    ([Some true] without an error).  [None]: the read or the write blocks. *)
Definition copy_turn (wakes closed refused : bool) (short : option nat) (s : source)
    : option (source * list byte * option bool) :=
  match in_hand s with
  | [] =>
      if closed then Some (s, [], Some false)
      else
        match pending s with
        | chunk :: rest => Some (Source rest (ended s) (total s) chunk false (room s), [], None)
        | [] =>
            match ended s with
            | Some Eof => Some (s, [], Some true)
            | Some Broken => Some (s, [], Some false)
            | None => None
            end
        end
  | _ :: _ =>
      if refused && (wakes || negb (parked s)) then Some (s, [], Some false)
      else match short with
           | Some k => Some (s, take k (in_hand s), Some false)
           | None => '(s', bs) ← write_turn s; Some (s', bs, None)
           end
  end.

(** ** The H3 relay *)
Module H3.

(** Where the handler is: in its copy, about to release, about to half-close, in
    the [select], waiting for [drained], in the deferred release, gone. *)
Inductive main_pc := MCopy | MRelease | MHalfClose | MSelect | MWait | MDefer | MDone.
(** The goroutine: in its copy, about to release, about to close [drained], gone. *)
Inductive drain_pc := DCopy | DRelease | DClose | DDone.

#[export] Instance main_pc_eq_dec : EqDecision main_pc.
Proof. solve_decision. Defined.
#[export] Instance drain_pc_eq_dec : EqDecision drain_pc.
Proof. solve_decision. Defined.

Record relay := Relay {
  client : source;              (** read from [conn] *)
  edge : source;                (** read from [reqStream] *)
  to_edge : list byte;          (** written to [reqStream] *)
  to_client : list byte;        (** written to [conn] *)
  connClosed : bool;            (** [conn.Close] *)
  sendClosed : bool;            (** [reqStream.Close] *)
  readCancelled : bool;         (** [reqStream.CancelRead] *)
  once : bool;                  (** the [sync.Once] has run *)
  drained : bool;               (** the channel is closed *)
  fired : bool;                 (** [relayDrainGrace] has elapsed in the [select] *)
  main : main_pc;
  drainer : drain_pc
}.

Definition start : relay :=
  Relay (arrived []) (arrived []) [] [] false false false false false false MCopy DCopy.

Definition goto (pc : main_pc) (s : relay) : relay :=
  Relay (client s) (edge s) (to_edge s) (to_client s) (connClosed s) (sendClosed s)
        (readCancelled s) (once s) (drained s) (fired s) pc (drainer s).

Definition dgoto (pc : drain_pc) (s : relay) : relay :=
  Relay (client s) (edge s) (to_edge s) (to_client s) (connClosed s) (sendClosed s)
        (readCancelled s) (once s) (drained s) (fired s) (main s) pc.

(** [release]: [CancelRead], [Close] and [conn.Close] under the [sync.Once]. *)
Definition release (s : relay) : relay :=
  if once s then s
  else Relay (client s) (edge s) (to_edge s) (to_client s) true true true true
             (drained s) (fired s) (main s) (drainer s).

Definition halfClose (s : relay) : relay :=
  Relay (client s) (edge s) (to_edge s) (to_client s) (connClosed s) true
        (readCancelled s) (once s) (drained s) (fired s) (main s) (drainer s).

Inductive label :=
  | ClientSends (bs : list byte) | ClientEnds (e : ending)
  | EdgeSends (bs : list byte) | EdgeEnds (e : ending)
  | EdgeTakes (n : option nat) | ClientTakes (n : option nat)   (** their windows *)
  | GraceElapses                          (** [time.After(relayDrainGrace)] *)
  | CtxCanceled                           (** the monitor closes [conn] *)
  | Main (short : option nat)
  | Drain (short : option nat).

(** The handler: [io.Copy(reqStream, conn)] and what follows it. *)
Definition main_step (short : option nat) (s : relay) : option relay :=
  match main s with
  | MCopy =>
      '(src, bs, r) ← copy_turn false (connClosed s) (sendClosed s) short (client s);
      Some (Relay src (edge s) (to_edge s ++ bs) (to_client s) (connClosed s) (sendClosed s)
              (readCancelled s) (once s) (drained s) (fired s)
              (match r with None => MCopy | Some true => MHalfClose | Some false => MRelease end)
              (drainer s))
  | MRelease => Some (goto MWait (release s))
  | MHalfClose => Some (goto MSelect (halfClose s))
  | MSelect =>
      if drained s then Some (goto MWait s)
      else if fired s then Some (goto MWait (release s))
      else None
  | MWait => if drained s then Some (goto MDefer s) else None
  | MDefer => Some (goto MDone (release s))
  | MDone => None
  end.

(** The goroutine: [io.Copy(conn, reqStream)], [release()], [close(drained)]. *)
Definition drain_step (short : option nat) (s : relay) : option relay :=
  match drainer s with
  | DCopy =>
      '(src, bs, r) ← copy_turn true (readCancelled s) (connClosed s) short (edge s);
      Some (Relay (client s) src (to_edge s) (to_client s ++ bs) (connClosed s) (sendClosed s)
              (readCancelled s) (once s) (drained s) (fired s) (main s)
              (match r with None => DCopy | Some _ => DRelease end))
  | DRelease => Some (dgoto DClose (release s))
  | DClose =>
      Some (Relay (client s) (edge s) (to_edge s) (to_client s) (connClosed s) (sendClosed s)
              (readCancelled s) (once s) true (fired s) (main s) DDone)
  | DDone => None
  end.

Definition with_client (src : source) (s : relay) : relay :=
  Relay src (edge s) (to_edge s) (to_client s) (connClosed s) (sendClosed s)
        (readCancelled s) (once s) (drained s) (fired s) (main s) (drainer s).

Definition with_edge (src : source) (s : relay) : relay :=
  Relay (client s) src (to_edge s) (to_client s) (connClosed s) (sendClosed s)
        (readCancelled s) (once s) (drained s) (fired s) (main s) (drainer s).

Definition step (l : label) (s : relay) : option relay :=
  match l with
  | ClientSends bs => src ← deliver bs (client s); Some (with_client src s)
  | ClientEnds e => src ← finish e (client s); Some (with_client src s)
  | EdgeSends bs => src ← deliver bs (edge s); Some (with_edge src s)
  | EdgeEnds e => src ← finish e (edge s); Some (with_edge src s)
  | EdgeTakes n => Some (with_client (with_room n (client s)) s)
  | ClientTakes n => Some (with_edge (with_room n (edge s)) s)
  | GraceElapses =>
      if decide (main s = MSelect) then
        Some (Relay (client s) (edge s) (to_edge s) (to_client s) (connClosed s) (sendClosed s)
                (readCancelled s) (once s) (drained s) true (main s) (drainer s))
      else None
  | CtxCanceled =>
      Some (Relay (client s) (edge s) (to_edge s) (to_client s) true (sendClosed s)
              (readCancelled s) (once s) (drained s) (fired s) (main s) (drainer s))
  | Main short => main_step short s
  | Drain short => drain_step short s
  end.

Definition reach (s : relay) : Prop := rtc (λ x y, ∃ l, step l x = Some y) start s.

Fixpoint run (ls : list label) (s : relay) : option relay :=
  match ls with [] => Some s | l :: ls' => step l s ≫= run ls' end.

End H3.

(** ** The H2 relay *)
Module H2.

(** The handler: waiting for the first of the two copies, closing both ends,
    waiting for the second, gone. *)
Inductive main_pc := First | CloseConn | CloseRemote | Second | MDone.
(** A copying goroutine: copying, about to report on [done], gone. *)
Inductive copy_pc := Copying | Reporting | Gone.

#[export] Instance main_pc_eq_dec : EqDecision main_pc.
Proof. solve_decision. Defined.
#[export] Instance copy_pc_eq_dec : EqDecision copy_pc.
Proof. solve_decision. Defined.

Record relay := Relay {
  client : source;
  remote : source;
  to_remote : list byte;
  to_client : list byte;
  connClosed : bool;
  remoteClosed : bool;
  done : nat;                   (** messages in the channel, of capacity 2 *)
  main : main_pc;
  up : copy_pc;                 (** [io.Copy(remote, conn)] *)
  down : copy_pc                (** [io.Copy(conn, remote)] *)
}.

Definition start : relay :=
  Relay (arrived []) (arrived []) [] [] false false 0 First Copying Copying.

Inductive label :=
  | ClientSends (bs : list byte) | ClientEnds (e : ending)
  | RemoteSends (bs : list byte) | RemoteEnds (e : ending)
  | RemoteTakes (n : option nat) | ClientTakes (n : option nat)   (** their windows *)
  | CtxCanceled
  | Main
  | Up (short : option nat)
  | Down (short : option nat).

Definition main_step (s : relay) : option relay :=
  let go cc rc d pc :=
    Relay (client s) (remote s) (to_remote s) (to_client s) cc rc d pc (up s) (down s) in
  match main s with
  | First => match done s with 0 => None | S d => Some (go (connClosed s) (remoteClosed s) d CloseConn) end
  | CloseConn => Some (go true (remoteClosed s) (done s) CloseRemote)
  | CloseRemote => Some (go (connClosed s) true (done s) Second)
  | Second => match done s with 0 => None | S d => Some (go (connClosed s) (remoteClosed s) d MDone) end
  | MDone => None
  end.

Definition after_turn (r : option bool) : copy_pc :=
  match r with None => Copying | Some _ => Reporting end.

Definition up_step (short : option nat) (s : relay) : option relay :=
  match up s with
  | Copying =>
      '(src, bs, r) ← copy_turn true (connClosed s) (remoteClosed s) short (client s);
      Some (Relay src (remote s) (to_remote s ++ bs) (to_client s) (connClosed s)
              (remoteClosed s) (done s) (main s) (after_turn r) (down s))
  | Reporting =>
      if decide (done s < 2) then
        Some (Relay (client s) (remote s) (to_remote s) (to_client s) (connClosed s)
                (remoteClosed s) (S (done s)) (main s) Gone (down s))
      else None
  | Gone => None
  end.

Definition down_step (short : option nat) (s : relay) : option relay :=
  match down s with
  | Copying =>
      '(src, bs, r) ← copy_turn true (remoteClosed s) (connClosed s) short (remote s);
      Some (Relay (client s) src (to_remote s) (to_client s ++ bs) (connClosed s)
              (remoteClosed s) (done s) (main s) (up s) (after_turn r))
  | Reporting =>
      if decide (done s < 2) then
        Some (Relay (client s) (remote s) (to_remote s) (to_client s) (connClosed s)
                (remoteClosed s) (S (done s)) (main s) (up s) Gone)
      else None
  | Gone => None
  end.

Definition with_client (src : source) (s : relay) : relay :=
  Relay src (remote s) (to_remote s) (to_client s) (connClosed s) (remoteClosed s) (done s)
        (main s) (up s) (down s).

Definition with_remote (src : source) (s : relay) : relay :=
  Relay (client s) src (to_remote s) (to_client s) (connClosed s) (remoteClosed s) (done s)
        (main s) (up s) (down s).

Definition step (l : label) (s : relay) : option relay :=
  match l with
  | ClientSends bs => src ← deliver bs (client s); Some (with_client src s)
  | ClientEnds e => src ← finish e (client s); Some (with_client src s)
  | RemoteSends bs => src ← deliver bs (remote s); Some (with_remote src s)
  | RemoteEnds e => src ← finish e (remote s); Some (with_remote src s)
  | RemoteTakes n => Some (with_client (with_room n (client s)) s)
  | ClientTakes n => Some (with_remote (with_room n (remote s)) s)
  | CtxCanceled =>
      Some (Relay (client s) (remote s) (to_remote s) (to_client s) true (remoteClosed s)
              (done s) (main s) (up s) (down s))
  | Main => main_step s
  | Up short => up_step short s
  | Down short => down_step short s
  end.

Definition reach (s : relay) : Prop := rtc (λ x y, ∃ l, step l x = Some y) start s.

Fixpoint run (ls : list label) (s : relay) : option relay :=
  match ls with [] => Some s | l :: ls' => step l s ≫= run ls' end.

End H2.
