(* ===== verification/RelayFacts.v ===== *)
(** * The relays deliver in order, end, and release what they hold *)

From S2P Require Import Prelude Relay.

(** ** One turn of a copy *)

(** A copy that waits in [Read], and one that waits in [Write]. *)
Definition idle (closed : bool) (s : source) : Prop :=
  closed = false ∧ in_hand s = [] ∧ pending s = [] ∧ ended s = None.
Definition stalled (woken : bool) (s : source) : Prop :=
  in_hand s ≠ [] ∧ parked s = true ∧ room s = Some 0 ∧ woken = false.

Lemma write_turn_Some s s' bs :
  write_turn s = Some (s', bs) →
  ended s' = ended s ∧ total s' = total s ∧ pending s' = pending s ∧
  (room s = None → room s' = None) ∧ bs ++ in_hand s' = in_hand s.
Proof.
  unfold write_turn. destruct (room s) as [n|].
  - case_decide; [|case_match; [done|]]; intros [= <- <-]; cbn; split_and!; try done.
    + by rewrite app_nil_r.
    + by rewrite take_drop.
  - intros [= <- <-]; cbn. split_and!; try done. by rewrite app_nil_r.
Qed.

Lemma write_turn_None s :
  in_hand s ≠ [] → write_turn s = None ↔ parked s = true ∧ room s = Some 0.
Proof.
  unfold write_turn. intros Hh. destruct (room s) as [n|]; [|naive_solver].
  assert (length (in_hand s) ≠ 0) by (by destruct (in_hand s)).
  case_decide; [split; [done|intros [_ [= ->]]; lia]|].
  destruct (parked s); cbn; [|naive_solver]. case_bool_decide; naive_solver.
Qed.

(** The bytes a copy still owes: what is in hand, then what is pending. *)
Definition owed (s : source) : list byte := in_hand s ++ concat (pending s).

Lemma copy_turn_Some wakes closed refused short s s' bs r :
  copy_turn wakes closed refused short s = Some (s', bs, r) →
  ended s' = ended s ∧ total s' = total s ∧ (room s = None → room s' = None) ∧
  (r = None → bs ++ owed s' = owed s) ∧
  (r = Some true → s' = s ∧ bs = [] ∧ closed = false ∧ owed s = [] ∧ pending s = [] ∧ ended s = Some Eof) ∧
  (∃ rest, owed s = bs ++ rest).
Proof.
  unfold copy_turn, owed. intros H. destruct (in_hand s) as [|c h] eqn:Hh.
  - destruct closed; [injection H as <- <- <-; naive_solver|].
    destruct (pending s) as [|chunk rest] eqn:Hp.
    + destruct (ended s) as [[]|] eqn:He; [..|done]; injection H as <- <- <-; naive_solver.
    + injection H as <- <- <-. cbn. naive_solver.
  - case_match; [injection H as <- <- <-; naive_solver|]. destruct short as [k|].
    + injection H as <- <- <-. split_and!; try done. exists (drop k (c :: h) ++ concat (pending s)).
      by rewrite app_assoc, take_drop.
    + apply bind_Some in H as ([s1 bs1] & (He & Ht & Hp & Hr & Hb)%write_turn_Some & [= <- <- <-]).
      rewrite Hh in Hb. rewrite Hp, <- Hb, <- app_assoc. split_and!; try done. by eexists.
Qed.

Lemma copy_turn_None wakes closed refused s :
  copy_turn wakes closed refused None s = None ↔ idle closed s ∨ stalled (refused && wakes) s.
Proof.
  unfold copy_turn, idle, stalled. destruct (in_hand s) as [|c h] eqn:Hh.
  - destruct closed, (pending s), (ended s) as [[]|]; naive_solver.
  - assert (Hw := write_turn_None s). rewrite Hh in Hw.
    destruct (write_turn s) as [[]|]; destruct refused, wakes, (parked s); cbn; naive_solver.
Qed.

(** What was written so far is a prefix of what the source delivered, and nothing
    was lost as long as the copy is running. *)
Definition in_order (out : list byte) (s : source) : Prop := out `prefix_of` total s.
Definition lossless (out : list byte) (s : source) : Prop := out ++ owed s = total s.

Lemma lossless_in_order out s : lossless out s → in_order out s.
Proof. intros H. by exists (owed s). Qed.

Lemma turn_lossless wakes closed refused short s s' bs out :
  copy_turn wakes closed refused short s = Some (s', bs, None) → lossless out s → lossless (out ++ bs) s'.
Proof.
  intros (_ & Ht & _ & Hn & _)%copy_turn_Some Hl. unfold lossless in *.
  by rewrite Ht, <- Hl, <- (Hn eq_refl), app_assoc.
Qed.

Lemma turn_in_order wakes closed refused short s s' bs r out :
  copy_turn wakes closed refused short s = Some (s', bs, r) → lossless out s → in_order (out ++ bs) s'.
Proof.
  intros (_ & Ht & _ & _ & _ & rest & Hr)%copy_turn_Some Hl. unfold lossless, in_order in *.
  rewrite Ht, <- Hl, Hr. exists rest. by rewrite app_assoc.
Qed.

Lemma deliver_Some bs s s' :
  deliver bs s = Some s' → ended s = None ∧ ended s' = None ∧
  total s' = total s ++ bs ∧ owed s' = owed s ++ bs.
Proof.
  unfold deliver, owed. destruct (ended s) eqn:?; [done|]. intros [= <-]. cbn.
  by rewrite concat_app, app_assoc; cbn; rewrite app_nil_r.
Qed.

Lemma finish_Some e s s' :
  finish e s = Some s' → ended s = None ∧ ended s' = Some e ∧ total s' = total s ∧
  owed s' = owed s ∧ pending s' = pending s.
Proof. unfold finish. destruct (ended s) eqn:?; [done|]. by intros [= <-]. Qed.

Lemma deliver_lossless bs s s' out : deliver bs s = Some s' → lossless out s → lossless out s'.
Proof.
  intros (_ & _ & Ht & Hp)%deliver_Some Hl. unfold lossless in *. by rewrite Ht, Hp, <- Hl, app_assoc.
Qed.

Lemma deliver_in_order bs s s' out : deliver bs s = Some s' → in_order out s → in_order out s'.
Proof.
  intros (_ & _ & Ht & _)%deliver_Some [k Hk]. unfold in_order. rewrite Ht, Hk.
  exists (k ++ bs). by rewrite app_assoc.
Qed.

Lemma finish_lossless e s s' out : finish e s = Some s' → lossless out s → lossless out s'.
Proof. intros (_ & _ & Ht & Hp & _)%finish_Some. unfold lossless. by rewrite Ht, Hp. Qed.

Lemma finish_in_order e s s' out : finish e s = Some s' → in_order out s → in_order out s'.
Proof. intros (_ & _ & Ht & _)%finish_Some. unfold in_order. by rewrite Ht. Qed.

Lemma room_lossless n s out : lossless out s → lossless out (with_room n s).
Proof. done. Qed.

Lemma room_in_order n s out : in_order out s → in_order out (with_room n s).
Proof. done. Qed.

#[export] Hint Resolve lossless_in_order turn_lossless turn_in_order deliver_lossless
  deliver_in_order finish_lossless finish_in_order room_lossless room_in_order : go.

(** What a copy can still do on its own: a read and two writes for each chunk, and a
    write for each byte the other side takes alone. *)
Definition chunk_work (bs : list byte) : nat := length bs + 3.
Definition copy_work (s : source) : nat :=
  sum_list_with chunk_work (pending s) +
  match in_hand s with [] => 0 | h => length h + if parked s then 1 else 2 end.

Lemma write_work s s' bs : in_hand s ≠ [] → write_turn s = Some (s', bs) → copy_work s' < copy_work s.
Proof.
  unfold write_turn, copy_work. intros Hh H. destruct (in_hand s) as [|c h] eqn:E; [done|].
  destruct (room s) as [n|].
  - case_decide; [|case_match; [done|]]; injection H as <- <-; cbn [pending in_hand parked].
    + cbn. lia.
    + assert (Hl := length_drop (c :: h) n). destruct (drop n (c :: h)); cbn in *;
        destruct (parked s); cbn in *; try lia. case_bool_decide; [done|lia].
  - injection H as <- <-. cbn. lia.
Qed.

Lemma turn_work wakes closed refused short s s' bs r :
  copy_turn wakes closed refused short s = Some (s', bs, r) →
  copy_work s' + (if r is None then 1 else 0) <= copy_work s.
Proof.
  unfold copy_turn. intros H. destruct (in_hand s) as [|c h] eqn:Hh.
  - destruct closed; [injection H as <- <- <-; lia|].
    destruct (pending s) as [|chunk rest] eqn:Hp.
    + destruct (ended s) as [[]|]; [..|done]; injection H as <- <- <-; lia.
    + injection H as <- <- <-. unfold copy_work, chunk_work. rewrite Hh, Hp. cbn. destruct chunk; cbn; lia.
  - case_match; [injection H as <- <- <-; lia|]. destruct short as [k|]; [injection H as <- <- <-; lia|].
    apply bind_Some in H as ([s1 bs1] & Hw & [= <- <- <-]). apply write_work in Hw; [lia|by rewrite Hh].
Qed.

(** ** The H3 relay *)
Module H3Facts.
Import H3.

Record wf (s : relay) : Prop := Wf {
  wf_once : once s = true → connClosed s = true ∧ sendClosed s = true ∧ readCancelled s = true;
  wf_cancel : readCancelled s = true → once s = true;
  wf_send : sendClosed s = true → once s = true ∨ main s = MSelect ∨ main s = MWait;
  wf_drained : drained s = true ↔ drainer s = DDone;
  wf_drain : drainer s = DClose ∨ drainer s = DDone → once s = true;
  wf_wait : main s = MWait ∨ main s = MDefer ∨ main s = MDone → once s = true;
  wf_late : main s = MDefer ∨ main s = MDone → drained s = true;
  wf_half : main s = MHalfClose ∨ main s = MSelect →
            owed (client s) = [] ∧ ended (client s) = Some Eof ∧
            lossless (to_edge s) (client s);
  wf_copy : main s = MCopy → lossless (to_edge s) (client s);
  wf_dcopy : drainer s = DCopy → lossless (to_client s) (edge s);
  wf_up : in_order (to_edge s) (client s);
  wf_down : in_order (to_client s) (edge s);
  wf_fired : fired s = true → main s ≠ MCopy ∧ main s ≠ MHalfClose ∧ main s ≠ MRelease
}.

Lemma wf_start : wf start.
Proof. split; cbn; try naive_solver; by exists []. Qed.

Lemma wf_release s : wf s → wf (release s).
Proof.
  unfold release. destruct (once s) eqn:Ho; [done|]. intros []. split; cbn; try naive_solver.
Qed.

Ltac wf_tac :=
  split; cbn in *;
  first [assumption|tauto|solve [intuition congruence]|solve [intuition eauto with go]|idtac].

Lemma wf_env s l s' :
  match l with Main _ | Drain _ => False | _ => True end → wf s → step l s = Some s' → wf s'.
Proof.
  intros Hl Hwf Hs. destruct l; cbn in Hs; try done.
  1-4: apply bind_Some in Hs as (src & Hsrc & [= <-]); pose proof Hsrc as Hsrc';
    first [apply deliver_Some in Hsrc' as (? & ? & ? & ?)
          |apply finish_Some in Hsrc' as (? & ? & ? & ? & ?)];
    destruct Hwf; wf_tac.
  - injection Hs as <-. destruct Hwf. wf_tac.
  - injection Hs as <-. destruct Hwf. wf_tac.
  - case_decide; [|done]. injection Hs as <-. destruct Hwf. wf_tac.
  - injection Hs as <-. destruct Hwf. wf_tac.
Qed.

Ltac use_turn Hc :=
  let Hc' := fresh in pose proof Hc as Hc'; apply copy_turn_Some in Hc' as (? & ? & ? & ? & ? & ?).

Lemma release_facts s :
  once (release s) = true ∧ drained (release s) = drained s ∧ fired (release s) = fired s ∧
  main (release s) = main s ∧ drainer (release s) = drainer s.
Proof. unfold release. by destruct (once s) eqn:?. Qed.

(** Moving on after a release. *)
Lemma release_goto pc s :
  wf s → pc = MWait ∨ (pc = MDone ∧ drained s = true) → wf (goto pc (release s)).
Proof.
  intros Hwf Hpc. destruct (release_facts s) as (Ho & Hd & _). apply wf_release in Hwf.
  rewrite <- Hd in Hpc. unfold goto. destruct Hwf. destruct Hpc as [->|[-> ?]]; wf_tac.
Qed.

Lemma wf_main short s s' : wf s → main_step short s = Some s' → wf s'.
Proof.
  intros Hwf Hs. unfold main_step in Hs. destruct (main s) eqn:Hm; try done.
  - apply bind_Some in Hs as ([[src bs] r] & Hc & [= <-]). use_turn Hc.
    destruct Hwf. destruct r as [[]|]; wf_tac.
    intros _. match goal with Ht : Some true = Some true → _ |- _ => destruct (Ht eq_refl) as (-> & -> & _ & Ho & _ & He) end.
    rewrite app_nil_r. auto.
  - injection Hs as <-. apply release_goto; auto.
  - injection Hs as <-. unfold goto, halfClose. destruct Hwf. wf_tac.
  - destruct (drained s) eqn:Hd; [|destruct (fired s) eqn:Hf; [|done]]; injection Hs as <-.
    + unfold goto. assert (once s = true) by (apply (wf_drain _ Hwf); right; by apply (wf_drained _ Hwf)).
      destruct Hwf. wf_tac.
    + apply release_goto; auto.
  - destruct (drained s) eqn:Hd; [|done]. injection Hs as <-. unfold goto.
    destruct Hwf. wf_tac.
  - injection Hs as <-. apply release_goto; auto. right. split; [done|]. apply (wf_late _ Hwf). auto.
Qed.

Lemma wf_drain_step short s s' : wf s → drain_step short s = Some s' → wf s'.
Proof.
  intros Hwf Hs. unfold drain_step in Hs. destruct (drainer s) eqn:Hd; [| | |done].
  - apply bind_Some in Hs as ([[src bs] r] & Hc & [= <-]). use_turn Hc.
    destruct Hwf. destruct r as [[]|]; wf_tac.
  - injection Hs as <-. destruct (release_facts s) as (Ho & _ & _ & _ & Hdr).
    apply wf_release in Hwf. unfold dgoto. destruct Hwf. rewrite Hdr in *. wf_tac.
  - injection Hs as <-. destruct Hwf. wf_tac.
Qed.

Lemma wf_step l s s' : wf s → step l s = Some s' → wf s'.
Proof.
  intros Hwf Hs. destruct l; try by (eapply wf_env; [|exact Hwf|exact Hs]).
  - by eapply wf_main.
  - by eapply wf_drain_step.
Qed.

Lemma reach_wf s : reach s → wf s.
Proof.
  intros Hr. eapply rtc_invariant; [|exact wf_start|exact Hr].
  intros x y Hx (l & Hl). by eapply wf_step.
Qed.

(** *** Progress *)

(** Steps of the two goroutines, as opposed to the environment's. *)
Definition prog_step (s s' : relay) : Prop :=
  ∃ short, main_step short s = Some s' ∨ drain_step short s = Some s'.

(** Neither can move until a peer, the timer or the context does. *)
Definition blocked (s : relay) : Prop := main_step None s = None ∧ drain_step None s = None.

(** The handler waits inside [Write] on the stream, whatever has been released. *)
Definition up_stalled (s : relay) : Prop := main s = MCopy ∧ stalled false (client s).
(** The goroutine waits: the edge sends nothing, or the client takes nothing. *)
Definition down_waits (s : relay) : Prop :=
  drainer s = DCopy ∧ once s = false ∧ (idle (readCancelled s) (edge s) ∨ stalled (connClosed s) (edge s)).
Definition down_stalled (s : relay) : Prop :=
  drainer s = DCopy ∧ stalled (connClosed s) (edge s).

(** Both directions are open, and each has nothing to read or is in a write that the
    other side does not take. *)
Definition waiting_tunnel (s : relay) : Prop :=
  main s = MCopy ∧ (idle (connClosed s) (client s) ∨ stalled false (client s)) ∧ down_waits s.

(** The client half-closed, the edge has not answered in full, the grace is running. *)
Definition in_grace (s : relay) : Prop :=
  main s = MSelect ∧ fired s = false ∧ ended (client s) = Some Eof ∧ down_waits s.

(** Everything is released and the goroutine is gone, and the handler still waits. *)
Definition hung (s : relay) : Prop := up_stalled s ∧ once s = true ∧ drainer s = DDone.

Lemma drain_blocked s :
  wf s → drain_step None s = None →
  down_waits s ∨ (drainer s = DDone ∧ drained s = true ∧ once s = true).
Proof.
  intros Hwf H. unfold drain_step in H. destruct (drainer s) eqn:Hd; try done.
  - left. destruct (copy_turn _ _ _ _) as [[[] ]|] eqn:Hc; [done|].
    apply copy_turn_None in Hc. rewrite andb_true_r in Hc. split; [done|]. split; [|done].
    destruct (once s) eqn:Ho; [|done]. apply (wf_once _ Hwf) in Ho as (Hcc & _ & Hr).
    destruct Hc as [(? & _)|(_ & _ & _ & ?)]; congruence.
  - right. split_and!; [done|by apply (wf_drained _ Hwf)|apply (wf_drain _ Hwf); auto].
Qed.

Lemma blocked_cases s :
  wf s → blocked s → main s = MDone ∨ waiting_tunnel s ∨ in_grace s ∨ hung s.
Proof.
  intros Hwf [Hm Hd]. apply drain_blocked in Hd; [|done].
  unfold waiting_tunnel, in_grace, hung, up_stalled. unfold main_step in Hm.
  destruct (main s) eqn:Hpc; try done; [| | |by left].
  - destruct (copy_turn _ _ _ _) as [[[] ]|] eqn:Hc; [done|].
    apply copy_turn_None in Hc. rewrite andb_false_r in Hc.
    destruct Hd as [|(? & _ & Ho)]; [tauto|]. right. right. right. split; [|done].
    destruct Hc as [(? & _)|]; [|done]. apply (wf_once _ Hwf) in Ho. intuition congruence.
  - destruct (drained s) eqn:Hdr, (fired s) eqn:Hf; try done.
    destruct Hd as [|(_ & ? & _)]; [|congruence].
    pose proof (wf_half _ Hwf (or_intror Hpc)). tauto.
  - destruct (drained s) eqn:Hdr; [done|].
    assert (Ho : once s = true) by (apply (wf_wait _ Hwf); auto).
    destruct Hd as [(_ & ? & _)|(_ & ? & _)]; congruence.
Qed.

Definition main_rank (pc : main_pc) : nat :=
  match pc with
  | MCopy => 5 | MHalfClose => 4 | MSelect | MRelease => 3 | MWait => 2 | MDefer => 1 | MDone => 0
  end.
Definition drain_rank (pc : drain_pc) : nat :=
  match pc with DCopy => 3 | DRelease => 2 | DClose => 1 | DDone => 0 end.

(** How many more steps the goroutines can make on their own. *)
Definition work (s : relay) : nat :=
  copy_work (client s) + main_rank (main s) + copy_work (edge s) + drain_rank (drainer s).

Lemma release_work s : work (release s) = work s.
Proof. unfold release, work. by destruct (once s). Qed.

Ltac via_release s :=
  lazymatch goal with |- context [release s] => rewrite <- (release_work s) | _ => idtac end.

Lemma prog_work s s' : prog_step s s' → work s' < work s.
Proof.
  intros (short & [H|H]).
  - unfold main_step in H. destruct (main s) eqn:Hm; try done.
    1: apply bind_Some in H as ([[src bs] r] & Hc & [= <-]); apply turn_work in Hc;
       unfold work; cbn; rewrite Hm; destruct r as [[]|]; cbn; lia.
    all: try destruct (drained s); try destruct (fired s); try done; injection H as <-;
         via_release s; destruct (release_facts s) as (_ & _ & _ & Hmr & _);
         unfold work; cbn; rewrite ?Hmr, ?Hm; cbn; lia.
  - unfold drain_step in H. destruct (drainer s) eqn:Hd; try done.
    1: apply bind_Some in H as ([[src bs] r] & Hc & [= <-]); apply turn_work in Hc;
       unfold work; cbn; rewrite Hd; destruct r as [[]|]; cbn; lia.
    all: injection H as <-; via_release s;
         destruct (release_facts s) as (_ & _ & _ & _ & Hdr);
         unfold work; cbn; rewrite ?Hdr, ?Hd; cbn; lia.
Qed.

Lemma prog_is_step s s' : prog_step s s' → ∃ l, step l s = Some s'.
Proof. intros (short & [H|H]); [by exists (Main short)|by exists (Drain short)]. Qed.

(** What makes the relay close the client connection: it broke or was closed, the
    grace elapsed, or a release has begun. *)
Definition closing (s : relay) : Prop :=
  ended (client s) = Some Broken ∨ fired s = true ∨ once s = true ∨
  (connClosed s = true ∧ main s = MCopy) ∨ main s = MRelease.

(** What makes it end: that, or the edge finished. *)
Definition must_end (s : relay) : Prop := closing s ∨ ended (edge s) ≠ None.

Lemma prog_ended s s' :
  prog_step s s' →
  ended (client s') = ended (client s) ∧ ended (edge s') = ended (edge s) ∧
  fired s' = fired s ∧ (once s = true → once s' = true) ∧
  (main s = MRelease → main s' = MRelease ∨ once s' = true) ∧
  (connClosed s = true → main s = MCopy →
     (connClosed s' = true ∧ main s' = MCopy) ∨ main s' = MRelease).
Proof.
  assert (Hrel : ended (client (release s)) = ended (client s) ∧
                 ended (edge (release s)) = ended (edge s)).
  { unfold release. by destruct (once s). }
  assert (Hrcc : connClosed s = true → connClosed (release s) = true)
    by (unfold release; by destruct (once s)).
  destruct (release_facts s) as (Hro & _ & Hrf & Hrm & _).
  intros (short & [H|H]).
  - unfold main_step in H. destruct (main s) eqn:Hm; try done.
    1: apply bind_Some in H as ([[src bs] r] & Hc & [= <-]).
    { apply copy_turn_Some in Hc as (? & _ & _ & _ & Hs & _). cbn. split_and!; auto; try done.
      intros Hcc _. destruct r as [[]|]; [destruct (Hs eq_refl)|auto|by left];
        intuition congruence. }
    all: try destruct (drained s); try destruct (fired s) eqn:Hf; try done; injection H as <-; cbn;
      split_and!; intros; intuition congruence.
  - unfold drain_step in H. destruct (drainer s) eqn:Hd; try done.
    1: apply bind_Some in H as ([[src bs] r] & Hc & [= <-]);
       apply copy_turn_Some in Hc as (? & _); cbn; split_and!; intros; intuition congruence.
    all: injection H as <-; cbn; split_and!; intros; intuition congruence.
Qed.

(** A peer that takes everything goes on taking everything. *)
Lemma prog_room s s' :
  prog_step s s' → (room (client s) = None → room (client s') = None) ∧
                   (room (edge s) = None → room (edge s') = None).
Proof.
  intros (short & [H|H]); [unfold main_step, release in H|unfold drain_step, release in H];
    repeat case_match; try done;
    try (injection H as <-; by split);
    apply bind_Some in H as ([[src bs] r] & (_ & _ & Hr & _)%copy_turn_Some & [= <-]); by split.
Qed.

Lemma prog_closing s s' : prog_step s s' → closing s → closing s'.
Proof.
  unfold closing. intros Hp. apply prog_ended in Hp as (-> & _ & -> & ? & ? & ?). intuition auto.
Qed.

Lemma prog_must_end s s' : prog_step s s' → must_end s → must_end s'.
Proof.
  unfold must_end. intros Hp [Hc|He]; [left; by eapply prog_closing|right].
  by apply prog_ended in Hp as (_ & -> & _).
Qed.

Lemma prog_rtc s s' :
  rtc prog_step s s' →
  (wf s → wf s') ∧ (must_end s → must_end s') ∧ (closing s → closing s') ∧
  (room (client s) = None → room (client s') = None) ∧ (room (edge s) = None → room (edge s') = None).
Proof.
  induction 1 as [s|x y z Hxy _ (IH1 & IH2 & IH3 & IH4 & IH5)]; [done|].
  destruct (prog_room x y Hxy). split_and!; auto.
  - intros Hwf. apply IH1. destruct (prog_is_step _ _ Hxy) as (l & Hl). by eapply wf_step.
  - intros Hm. by apply IH2, (prog_must_end x).
  - intros Hm. by apply IH3, (prog_closing x).
Qed.

(** Where a relay that must end can be left. *)
Lemma must_end_blocked s :
  wf s → must_end s → blocked s →
  main s = MDone ∨ up_stalled s ∨ (¬ closing s ∧ down_stalled s).
Proof.
  intros Hwf Hm Hb. pose proof (wf_fired _ Hwf) as Hfd.
  destruct (blocked_cases s Hwf Hb) as [|[(Hpc & Hup & Hdr & Ho & Hdn)|[(Hpc & Hf & He & Hdr & Ho & Hdn)|[]]]]; auto.
  - destruct Hup as [(Hcc & _ & _ & Hn)|]; [|right; left; by split].
    assert (Hnc : ¬ closing s) by (unfold closing; intuition congruence).
    right. right. split; [done|]. destruct Hm as [|Hm]; [done|].
    destruct Hdn as [(_ & _ & _ & ?)|]; [done|by split].
  - assert (Hnc : ¬ closing s) by (unfold closing; intuition congruence).
    right. right. split; [done|]. destruct Hm as [|Hm]; [done|].
    destruct Hdn as [(_ & _ & _ & ?)|]; [done|by split].
Qed.
End H3Facts.

(** ** The H2 relay *)
Module H2Facts.
Import H2.

(** Messages the handler has taken out of the channel, and copies that reported. *)
Definition taken (pc : main_pc) : nat :=
  match pc with First => 0 | MDone => 2 | _ => 1 end.
Definition gone (pc : copy_pc) : nat := match pc with Gone => 1 | _ => 0 end.

Record wf (s : relay) : Prop := Wf {
  wf_done : done s + taken (main s) = gone (up s) + gone (down s);
  wf_remote : remoteClosed s = true → main s = Second ∨ main s = MDone;
  wf_closed : main s = Second ∨ main s = MDone → connClosed s = true ∧ remoteClosed s = true;
  wf_conn : main s = CloseRemote → connClosed s = true;
  wf_upc : up s = Copying → lossless (to_remote s) (client s);
  wf_downc : down s = Copying → lossless (to_client s) (remote s);
  wf_up : in_order (to_remote s) (client s);
  wf_down : in_order (to_client s) (remote s)
}.

Ltac wf_tac :=
  split; cbn in *;
  first [assumption|lia|tauto|solve [intuition congruence]|solve [intuition eauto with go]].

Lemma h2_wf_start : wf start.
Proof. split; cbn; try done; try naive_solver; by exists []. Qed.

Lemma h2_wf_step l s s' : wf s → step l s = Some s' → wf s'.
Proof.
  intros Hwf Hs. destruct l; cbn in Hs.
  1-4: apply bind_Some in Hs as (src & Hsrc & [= <-]); destruct Hwf; wf_tac.
  1-3: injection Hs as <-; destruct Hwf; wf_tac.
  - unfold main_step in Hs. destruct (main s) eqn:Hm; [destruct (done s) eqn:Hd; [done|]| |
      |destruct (done s) eqn:Hd; [done|]|done]; injection Hs as <-; destruct Hwf;
      rewrite Hm in *; wf_tac.
  - unfold up_step in Hs. destruct (up s) eqn:Hu; [|case_decide; [|done]|done].
    + apply bind_Some in Hs as ([[src bs] r] & Hc & [= <-]). destruct Hwf. rewrite Hu in *.
      destruct r; wf_tac.
    + injection Hs as <-. destruct Hwf. rewrite Hu in *. wf_tac.
  - unfold down_step in Hs. destruct (down s) eqn:Hu; [|case_decide; [|done]|done].
    + apply bind_Some in Hs as ([[src bs] r] & Hc & [= <-]). destruct Hwf. rewrite Hu in *.
      destruct r; wf_tac.
    + injection Hs as <-. destruct Hwf. rewrite Hu in *. wf_tac.
Qed.

Lemma h2_reach_wf s : reach s → wf s.
Proof.
  intros Hr. eapply rtc_invariant; [|exact h2_wf_start|exact Hr].
  intros x y Hx (l & Hl). by eapply h2_wf_step.
Qed.

Definition prog_step (s s' : relay) : Prop :=
  main_step s = Some s' ∨ ∃ short, up_step short s = Some s' ∨ down_step short s = Some s'.

(** None of the three can move until a peer or the context does. *)
Definition blocked (s : relay) : Prop :=
  main_step s = None ∧ up_step None s = None ∧ down_step None s = None.

(** A copy that waits inside [Write], for a connection nobody has closed. *)
Definition up_stalled (s : relay) : Prop := up s = Copying ∧ stalled (remoteClosed s) (client s).
Definition down_stalled (s : relay) : Prop := down s = Copying ∧ stalled (connClosed s) (remote s).

(** Both copies run, and each has nothing to read or is in a write that the other side
    does not take. *)
Definition waiting_tunnel (s : relay) : Prop :=
  main s = First ∧
  (up s = Copying ∧ idle (connClosed s) (client s) ∨ up_stalled s) ∧
  (down s = Copying ∧ idle (remoteClosed s) (remote s) ∨ down_stalled s).

Definition must_end (s : relay) : Prop :=
  connClosed s = true ∨ remoteClosed s = true ∨ ended (client s) ≠ None ∨ ended (remote s) ≠ None ∨
  main s ≠ First.

Lemma done_bound s : wf s → up s = Reporting ∨ down s = Reporting → done s < 2.
Proof. intros [Hd _ _ _ _ _ _ _] [H|H]; rewrite H in Hd; cbn in Hd; destruct (up s), (down s); cbn in *; lia. Qed.

Lemma up_blocked s :
  wf s → up_step None s = None →
  (up s = Copying ∧ idle (connClosed s) (client s) ∨ up_stalled s) ∨ up s = Gone.
Proof.
  intros Hwf H. unfold up_step, up_stalled in *. destruct (up s) eqn:Hu; [| |by right].
  - destruct (copy_turn _ _ _ _) as [[[] ]|] eqn:Hc; [done|]. apply copy_turn_None in Hc.
    rewrite andb_true_r in Hc. tauto.
  - case_decide; [done|]. by destruct (done_bound s Hwf); auto; lia.
Qed.

Lemma down_blocked s :
  wf s → down_step None s = None →
  (down s = Copying ∧ idle (remoteClosed s) (remote s) ∨ down_stalled s) ∨ down s = Gone.
Proof.
  intros Hwf H. unfold down_step, down_stalled in *. destruct (down s) eqn:Hu; [| |by right].
  - destruct (copy_turn _ _ _ _) as [[[] ]|] eqn:Hc; [done|]. apply copy_turn_None in Hc.
    rewrite andb_true_r in Hc. tauto.
  - case_decide; [done|]. by destruct (done_bound s Hwf); auto; lia.
Qed.

Lemma h2_blocked_cases s : wf s → blocked s → main s = MDone ∨ waiting_tunnel s.
Proof.
  intros Hwf (Hm & Hu & Hd). apply up_blocked in Hu; [|done]. apply down_blocked in Hd; [|done].
  pose proof (wf_done _ Hwf) as Hn. unfold waiting_tunnel, main_step in *.
  assert (Hug : up s = Copying ∧ idle (connClosed s) (client s) ∨ up_stalled s → up s = Copying)
    by (by intros [[? _]|[? _]]).
  assert (Hdg : down s = Copying ∧ idle (remoteClosed s) (remote s) ∨ down_stalled s → down s = Copying)
    by (by intros [[? _]|[? _]]).
  destruct (main s) eqn:Hpc; try done; [| |by left]; destruct (done s) eqn:Hdn; try done.
  - right. destruct Hu as [Hu|Hu], Hd as [Hd|Hd]; [done|..];
      rewrite ?(Hug Hu), ?(Hdg Hd), ?Hu, ?Hd in Hn; cbn in Hn; lia.
  - destruct (wf_closed _ Hwf) as [Hcc Hrc]; [auto|].
    assert (Hu' : up s = Gone).
    { destruct Hu as [[(_ & ? & _)|(_ & _ & _ & _ & ?)]|]; [congruence|congruence|done]. }
    assert (Hd' : down s = Gone).
    { destruct Hd as [[(_ & ? & _)|(_ & _ & _ & _ & ?)]|]; [congruence|congruence|done]. }
    rewrite Hu', Hd' in Hn. cbn in Hn. lia.
Qed.

Definition main_rank (pc : main_pc) : nat :=
  match pc with First => 4 | CloseConn => 3 | CloseRemote => 2 | Second => 1 | MDone => 0 end.
Definition copy_rank (pc : copy_pc) : nat :=
  match pc with Copying => 2 | Reporting => 1 | Gone => 0 end.

Definition work (s : relay) : nat :=
  main_rank (main s) + copy_work (client s) + copy_rank (up s) +
  copy_work (remote s) + copy_rank (down s).

Lemma h2_prog_work s s' : prog_step s s' → work s' < work s.
Proof.
  intros [H|(short & [H|H])].
  - unfold main_step in H. destruct (main s) eqn:Hm; try done; try destruct (done s);
      try done; injection H as <-; unfold work; cbn; rewrite Hm; cbn; lia.
  - unfold up_step in H. destruct (up s) eqn:Hu; [|case_decide; [|done]|done].
    + apply bind_Some in H as ([[src bs] r] & Hc & [= <-]). apply turn_work in Hc.
      unfold work; cbn; rewrite Hu; destruct r as [[]|]; cbn; lia.
    + injection H as <-. unfold work; cbn; rewrite Hu; cbn; lia.
  - unfold down_step in H. destruct (down s) eqn:Hu; [|case_decide; [|done]|done].
    + apply bind_Some in H as ([[src bs] r] & Hc & [= <-]). apply turn_work in Hc.
      unfold work; cbn; rewrite Hu; destruct r as [[]|]; cbn; lia.
    + injection H as <-. unfold work; cbn; rewrite Hu; cbn; lia.
Qed.

Lemma h2_prog_is_step s s' : prog_step s s' → ∃ l, step l s = Some s'.
Proof. intros [H|(short & [H|H])]; [by exists Main|by exists (Up short)|by exists (Down short)]. Qed.

Lemma h2_prog_must_end s s' : prog_step s s' → must_end s → must_end s'.
Proof.
  unfold must_end. intros [H|(short & [H|H])] Hm.
  - unfold main_step in H. destruct (main s) eqn:Hpc; try done; try destruct (done s);
      try done; injection H as <-; cbn; tauto || (do 4 right; done).
  - unfold up_step in H. destruct (up s) eqn:Hu; [|case_decide; [|done]|done].
    + apply bind_Some in H as ([[src bs] r] & Hc & [= <-]).
      apply copy_turn_Some in Hc as (He & _). cbn. by rewrite He.
    + by injection H as <-.
  - unfold down_step in H. destruct (down s) eqn:Hu; [|case_decide; [|done]|done].
    + apply bind_Some in H as ([[src bs] r] & Hc & [= <-]).
      apply copy_turn_Some in Hc as (He & _). cbn. by rewrite He.
    + by injection H as <-.
Qed.

(** What ends it whatever else the peers do: a copy has reported; or one reads from an
    end that is over and writes to one that takes everything. *)
Definition surely_ends (s : relay) : Prop :=
  main s ≠ First ∨
  ((connClosed s = true ∨ ended (client s) ≠ None) ∧ room (client s) = None) ∨
  ((remoteClosed s = true ∨ ended (remote s) ≠ None) ∧ room (remote s) = None).

Lemma h2_prog_surely s s' : prog_step s s' → surely_ends s → surely_ends s'.
Proof.
  unfold surely_ends. intros [H|(short & [H|H])];
    [unfold main_step in H|unfold up_step in H|unfold down_step in H];
    repeat case_match; try done; try (injection H as <-; cbn; naive_solver);
    apply bind_Some in H as ([[src bs] r] & (He & _ & Hr & _)%copy_turn_Some & [= <-]);
    cbn; rewrite He; naive_solver.
Qed.

Lemma h2_prog_rtc s s' :
  rtc prog_step s s' →
  (wf s → wf s') ∧ (must_end s → must_end s') ∧ (surely_ends s → surely_ends s').
Proof.
  induction 1 as [s|x y z Hxy _ (IH1 & IH2 & IH3)]; [done|]. split_and!.
  - intros Hwf. apply IH1. destruct (h2_prog_is_step _ _ Hxy) as (l & Hl). by eapply h2_wf_step.
  - intros Hm. by apply IH2, (h2_prog_must_end x).
  - intros Hm. by apply IH3, (h2_prog_surely x).
Qed.

(** Where a relay that must end can be left. *)
Lemma h2_must_end_blocked s :
  wf s → must_end s → blocked s → main s = MDone ∨ main s = First ∧ (up_stalled s ∨ down_stalled s).
Proof.
  intros Hwf Hm Hb. destruct (h2_blocked_cases s Hwf Hb) as [|(Hpc & [(_ & Hu)|] & [(_ & Hd)|])]; auto.
  destruct Hu as (? & _ & _ & ?), Hd as (? & _ & _ & ?). unfold must_end in Hm. intuition congruence.
Qed.

Lemma h2_surely_blocked s : wf s → surely_ends s → blocked s → main s = MDone.
Proof.
  intros Hwf Hm Hb. destruct (h2_blocked_cases s Hwf Hb) as [|(Hpc & Hu & Hd)]; [done|].
  unfold up_stalled, down_stalled, idle, stalled in *.
  destruct Hm as [?|[(? & ?)|(? & ?)]]; intuition congruence.
Qed.
End H2Facts.

(** ** Running to the end *)

(** A measure that every step decreases, and a step wherever the system is not
    blocked, give a run to a blocked state. *)
Lemma run_to_blocked {S} (R : S → S → Prop) (blocked : S → Prop) (μ : S → nat) :
  (∀ x y, R x y → μ y < μ x) → (∀ x, blocked x ∨ ∃ y, R x y) →
  ∀ s, ∃ s', rtc R s s' ∧ blocked s'.
Proof.
  intros Hμ Hb s. induction (measure_acc R μ s Hμ) as [s _ IH].
  destruct (Hb s) as [|[y Hy]]; [by exists s|].
  destruct (IH y Hy) as (s' & Hr & Hs'). exists s'. split; [|done]. by eapply rtc_l.
Qed.

Lemma h3_blocked_or_step s : H3Facts.blocked s ∨ ∃ s', H3Facts.prog_step s s'.
Proof.
  unfold H3Facts.blocked, H3Facts.prog_step.
  destruct (H3.main_step None s) as [s'|] eqn:Hm; [right; exists s'; eauto|].
  destruct (H3.drain_step None s) as [s'|] eqn:Hd; [right; exists s'; eauto|]. by left.
Qed.

Lemma h2_blocked_or_step s : H2Facts.blocked s ∨ ∃ s', H2Facts.prog_step s s'.
Proof.
  unfold H2Facts.blocked, H2Facts.prog_step.
  destruct (H2.main_step s) as [s'|] eqn:Hm; [right; exists s'; eauto|].
  destruct (H2.up_step None s) as [s'|] eqn:Hu; [right; exists s'; eauto|].
  destruct (H2.down_step None s) as [s'|] eqn:Hd; [right; exists s'; eauto|]. by left.
Qed.

(** ** Properties *)

(** when the H3 relay is over, whatever the interleaving of its goroutine,
    the handler, the peers, the grace timer and a cancelled context: the stream's
    read side was cancelled, its send side and the client connection closed, and
    the goroutine has ended; what was written in either direction is a prefix of
    what was received, in order; and when the handler half-closes, everything the
    client ever sent had been forwarded. *)
Theorem h3_relay_releases s :
  H3.reach s →
  (H3.main s = H3.MDone →
     H3.readCancelled s = true ∧ H3.sendClosed s = true ∧ H3.connClosed s = true ∧
     H3.drainer s = H3.DDone) ∧
  H3.to_edge s `prefix_of` total (H3.client s) ∧
  H3.to_client s `prefix_of` total (H3.edge s) ∧
  (H3.main s = H3.MSelect → H3.to_edge s = total (H3.client s)).
Proof.
  intros Hr%H3Facts.reach_wf. split_and!.
  - intros Hm. destruct (H3Facts.wf_once _ Hr) as (? & ? & ?); [by apply H3Facts.wf_wait; auto|].
    split_and!; try done. apply (H3Facts.wf_drained _ Hr), (H3Facts.wf_late _ Hr). auto.
  - apply Hr.
  - apply Hr.
  - intros Hm. destruct (H3Facts.wf_half _ Hr (or_intror Hm)) as (Hp & _ & Hl).
    unfold lossless in Hl. by rewrite Hp, app_nil_r in Hl.
Qed.

Definition h3_done : H3.relay :=
  default H3.start (H3.run [H3.ClientSends (str "hi"); H3.Main None; H3.Main None; H3.ClientEnds Eof; H3.Main None;
    H3.Main None; H3.EdgeSends (str "yo"); H3.Drain None; H3.Drain None; H3.EdgeEnds Eof; H3.Drain None;
    H3.Drain None; H3.Drain None; H3.Main None; H3.Main None; H3.Main None] H3.start).

Lemma h3_run_reach ls : H3.reach (default H3.start (H3.run ls H3.start)).
Proof.
  destruct (H3.run ls H3.start) as [s|] eqn:H; [cbn|by apply rtc_refl]. revert H.
  unfold H3.reach. generalize H3.start as s0. revert s. induction ls as [|l ls IH]; intros s s0 H; cbn in H.
  - injection H as ->. done.
  - apply bind_Some in H as (s1 & H1 & H). eapply rtc_l; [by exists l|by apply IH].
Qed.

Lemma h3_relay_releases_witness :
  H3.main h3_done = H3.MDone ∧ H3.connClosed h3_done = true ∧ H3.to_client h3_done = str "yo" ∧
  H3.to_edge h3_done `prefix_of` total (H3.client h3_done).
Proof.
  assert (Hr : H3.reach h3_done) by apply h3_run_reach.
  destruct (h3_relay_releases h3_done Hr) as (Hd & Hp & _).
  split; [by vm_compute|]. split; [by apply Hd; vm_compute|]. by split; [vm_compute|].
Defined.

(** C15: where the H3 relay waits, and that it ends.  Reads wait for the peer and writes
    for its window.  The goroutines wait only in an open tunnel in which each copy has
    nothing to read or is in a write that is not taken; during the half-close grace;
    or, with everything released and the goroutine gone, in a write to the stream,
    which no [release] interrupts.  Once the client connection broke or was closed
    under the copy, the edge finished, the grace elapsed or a release has begun, every
    run of the goroutines is bounded, and it ends with the handler gone unless it is
    left in a write: the handler's, to an edge that takes nothing, or, when the edge
    finished first, the goroutine's, to a client that takes nothing.  If the edge takes
    everything, the handler is gone at the end, even when the client takes nothing as
    long as the connection is to be closed. *)
Theorem h3_relay_ends s :
  H3.reach s →
  (H3Facts.blocked s →
     H3.main s = H3.MDone ∨ H3Facts.waiting_tunnel s ∨ H3Facts.in_grace s ∨ H3Facts.hung s) ∧
  (H3Facts.must_end s →
     (∀ n s', nsteps H3Facts.prog_step n s s' →
        n <= H3Facts.work s ∧
        (H3Facts.blocked s' →
           (H3.main s' = H3.MDone ∨ H3Facts.up_stalled s' ∨
            (¬ H3Facts.closing s' ∧ H3Facts.down_stalled s')) ∧
           (room (H3.client s) = None → H3Facts.closing s ∨ room (H3.edge s) = None →
            H3.main s' = H3.MDone))) ∧
     ∃ s', rtc H3Facts.prog_step s s' ∧ H3Facts.blocked s').
Proof.
  intros Hr%H3Facts.reach_wf. split; [by apply H3Facts.blocked_cases|]. intros Hm. split.
  - intros n s' Hn. split.
    { pose proof (nsteps_measure _ H3Facts.work n s s' H3Facts.prog_work Hn). lia. }
    intros Hb. destruct (H3Facts.prog_rtc s s') as (Hw & He & Hc & Hru & Hrd); [apply rtc_nsteps; eauto|].
    pose proof (H3Facts.must_end_blocked s' (Hw Hr) (He Hm) Hb) as Hcases. split; [done|].
    intros Hu Hd. specialize (Hru Hu).
    destruct Hcases as [|[(_ & _ & _ & ? & _)|(Hnc & _ & _ & _ & ? & _)]]; [done|congruence|].
    destruct Hd as [Hcl|Hd]; [by destruct Hnc; apply Hc|]. specialize (Hrd Hd). congruence.
  - apply (run_to_blocked H3Facts.prog_step H3Facts.blocked H3Facts.work
      H3Facts.prog_work h3_blocked_or_step s).
Qed.

(** A relay whose edge finished. *)
Definition h3_ended : H3.relay := default H3.start (H3.run [H3.EdgeEnds Eof] H3.start).

Lemma h3_relay_ends_witness :
  ∃ s', rtc H3Facts.prog_step h3_ended s' ∧ H3.main s' = H3.MDone.
Proof.
  assert (Hr : H3.reach h3_ended) by apply h3_run_reach.
  destruct (proj2 (h3_relay_ends h3_ended Hr)) as [Hall (s' & Hs & Hb)]; [by right; vm_compute|].
  exists s'. split; [done|]. apply rtc_nsteps in Hs as [n Hn].
  apply (Hall n s' Hn); [done|by vm_compute|by right; vm_compute].
Defined.

(** The edge closes its window and then finishes: everything is released and the
    handler stays in its [Write]. *)
Lemma h3_release_leaves_writer :
  ∃ s, H3.reach s ∧ H3Facts.blocked s ∧ H3Facts.hung s ∧
    H3.readCancelled s = true ∧ H3.sendClosed s = true ∧ H3.connClosed s = true.
Proof.
  set (ls := [H3.EdgeTakes (Some 0); H3.ClientSends (str "hi"); H3.Main None; H3.Main None;
    H3.EdgeEnds Eof; H3.Drain None; H3.Drain None; H3.Drain None]).
  exists (default H3.start (H3.run ls H3.start)). split; [apply h3_run_reach|].
  split; [by split; vm_compute|]. split; [|by vm_compute].
  split; [|by vm_compute]. split; [by vm_compute|]. by split_and!; vm_compute.
Qed.

(** C33: the H2 relay closes both ends and waits for both copies: the channel
    never blocks a reporting copy; when the handler is gone so are both copies,
    both ends are closed, and what was written is a prefix of what was received.
    It waits only while both copies run and each has nothing to read or is in a write
    that is not taken.  When either side has ended or the connection was closed, every
    run is bounded, and it ends with the handler gone unless neither copy has reported
    and one is left in such a write.  With a copy that has reported, or one that reads
    from an end that is over and writes to one that takes everything, the handler is
    gone at the end, whatever the other copy waits for. *)
Theorem h2_relay_ends s :
  H2.reach s →
  (H2.up s = H2.Reporting ∨ H2.down s = H2.Reporting → H2.done s < 2) ∧
  (H2.main s = H2.MDone →
     H2.up s = H2.Gone ∧ H2.down s = H2.Gone ∧ H2.connClosed s = true ∧ H2.remoteClosed s = true) ∧
  H2.to_remote s `prefix_of` total (H2.client s) ∧
  H2.to_client s `prefix_of` total (H2.remote s) ∧
  (H2Facts.blocked s → H2.main s = H2.MDone ∨ H2Facts.waiting_tunnel s) ∧
  (H2Facts.must_end s →
     (∀ n s', nsteps H2Facts.prog_step n s s' →
        n <= H2Facts.work s ∧
        (H2Facts.blocked s' →
           (H2.main s' = H2.MDone ∨
            H2.main s' = H2.First ∧ (H2Facts.up_stalled s' ∨ H2Facts.down_stalled s')) ∧
           (H2Facts.surely_ends s → H2.main s' = H2.MDone))) ∧
     ∃ s', rtc H2Facts.prog_step s s' ∧ H2Facts.blocked s').
Proof.
  intros Hr%H2Facts.h2_reach_wf. split; [by apply H2Facts.done_bound|]. split.
  { intros Hm. destruct (H2Facts.wf_closed _ Hr) as [? ?]; [auto|].
    pose proof (H2Facts.wf_done _ Hr) as Hd. rewrite Hm in Hd.
    destruct (H2.up s), (H2.down s); cbn in Hd; try lia. done. }
  split; [apply Hr|]. split; [apply Hr|]. split; [by apply H2Facts.h2_blocked_cases|]. intros Hm. split.
  - intros n s' Hn. split.
    { pose proof (nsteps_measure _ H2Facts.work n s s' H2Facts.h2_prog_work Hn). lia. }
    intros Hb. destruct (H2Facts.h2_prog_rtc s s') as (Hw & He & Hs); [apply rtc_nsteps; eauto|].
    split; [by apply H2Facts.h2_must_end_blocked; auto|]. intros Hsure.
    by apply H2Facts.h2_surely_blocked; auto.
  - apply (run_to_blocked H2Facts.prog_step H2Facts.blocked H2Facts.work
      H2Facts.h2_prog_work h2_blocked_or_step s).
Qed.

Lemma h2_run_reach ls : H2.reach (default H2.start (H2.run ls H2.start)).
Proof.
  destruct (H2.run ls H2.start) as [s|] eqn:H; [cbn|by apply rtc_refl]. revert H.
  unfold H2.reach. generalize H2.start as s0. revert s. induction ls as [|l ls IH]; intros s s0 H; cbn in H.
  - injection H as ->. done.
  - apply bind_Some in H as (s1 & H1 & H). eapply rtc_l; [by exists l|by apply IH].
Qed.

(** The client half-closes after its request, and the response is still to come. *)
Definition h2_half_closed : H2.relay :=
  default H2.start (H2.run [H2.ClientSends (str "GET"); H2.Up None; H2.Up None; H2.ClientEnds Eof] H2.start).

Lemma h2_relay_ends_witness :
  ∃ s', rtc H2Facts.prog_step h2_half_closed s' ∧ H2.main s' = H2.MDone.
Proof.
  assert (Hr : H2.reach h2_half_closed) by apply h2_run_reach.
  destruct (proj2 (proj2 (proj2 (proj2 (proj2 (h2_relay_ends h2_half_closed Hr)))))) as [Hall (s' & Hs & Hb)].
  { right. right. left. by vm_compute. }
  exists s'. split; [done|]. apply rtc_nsteps in Hs as [n Hn].
  apply (Hall n s' Hn); [done|]. right. left. split; [right; by vm_compute|by vm_compute].
Defined.

(** The context is cancelled while the target takes nothing: the connection is closed,
    and both copies and the handler wait. *)
Lemma h2_cancel_leaves_writer :
  ∃ s, H2.reach s ∧ H2Facts.blocked s ∧ H2.connClosed s = true ∧ H2.main s = H2.First.
Proof.
  set (ls := [H2.RemoteTakes (Some 1); H2.ClientSends (str "hi"); H2.Up None; H2.Up None; H2.CtxCanceled]).
  exists (default H2.start (H2.run ls H2.start)). split; [apply h2_run_reach|].
  split; [by split_and!; vm_compute|by vm_compute].
Qed.

(** The two relays differ on a half-close: the same events deliver the response
    on H3 and lose it on H2, which closes both ends after the first copy returns. *)
Lemma half_close_differs :
  (s ← H3.run [H3.ClientSends (str "GET"); H3.Main None; H3.Main None; H3.ClientEnds Eof; H3.Main None;
               H3.Main None; H3.EdgeSends (str "200"); H3.Drain None; H3.Drain None] H3.start;
   Some (H3.to_client s)) = Some (str "200") ∧
  (s ← H2.run [H2.ClientSends (str "GET"); H2.Up None; H2.Up None; H2.ClientEnds Eof; H2.Up None; H2.Up None;
               H2.Main; H2.Main; H2.Main; H2.RemoteSends (str "200"); H2.Down None] H2.start;
   Some (H2.to_client s, H2.down s)) = Some ([], H2.Reporting).
Proof. split; by vm_compute. Qed.
