(* ===== verification/Session.v ===== *)
(** * A whole session: the handler and the relay it ends in

    [HandleSOCKS5] of both back ends, with the relay at the end of its CONNECT branch:
    the handler runs on the segments that have arrived, and the relay starts from what
    it has left of them. *)

From S2P Require Import Prelude GoNet Socks5Wire Conn SocksH2 SocksH3 Relay.

(** The target of the relay a handler got to. *)
Definition relayed (tr : list event) : option gostring :=
  head (omap (λ ev, match ev with Relayed target => Some target | _ => None end) tr).

(** The relays with segments of the client that have arrived before. *)
Definition h3_relay (segs : list (list byte)) : H3.relay :=
  H3.with_client (arrived segs) H3.start.

Definition h2_relay (segs : list (list byte)) : H2.relay :=
  H2.with_client (arrived segs) H2.start.

(** The target and the relay after the steps [ls], if the handler gets there. *)
Definition h3_session {E} `{Resolver E} (os : option edge_stream) (token : gostring)
    (cfg : SOCKS5Config) (segs : list (list byte)) (ls : list H3.label) : option (gostring * H3.relay) :=
  let c := after (h3_HandleSOCKS5 os token cfg) (start segs []) in
  target ← relayed (trace c);
  s ← H3.run ls (h3_relay (inbox c));
  Some (target, s).

Definition h2_session (DialContext : gostring → outcome dial_error unit) (cfg : SOCKS5Config)
    (segs : list (list byte)) (ls : list H2.label) : option (gostring * H2.relay) :=
  let c := after (h2_HandleSOCKS5 DialContext cfg) (start segs []) in
  target ← relayed (trace c);
  s ← H2.run ls (h2_relay (inbox c));
  Some (target, s).
