(* ===== verification/SessionFacts.v ===== *)
(** * A session from the first byte to the last *)

From Stdlib Require Import Init.Byte.
From S2P Require Import Prelude GoNet GoNetFacts Socks5Wire Socks5WireFacts Conn SocksH2 SocksH2Facts SocksH3 SocksH3Facts Relay RelayFacts Session.

(** ** Runs of a relay *)

Section runs.
  Context {S L : Type} (step : L → S → option S) (run : list L → S → option S).
  Context (run_nil : ∀ s, run [] s = Some s)
          (run_cons : ∀ l ls s, run (l :: ls) s = step l s ≫= run ls).

(** What a step keeps, a run keeps. *)
Lemma run_keeps (P : S → Prop) (Q : L → Prop) ls s s' :
  (∀ l x y, Q l → P x → step l x = Some y → P y) →
  Forall Q ls → P s → run ls s = Some s' → P s'.
Proof.
  intros Hs HQ. revert s. induction HQ as [|l ls Hl _ IH]; intros s HP H.
  - rewrite run_nil in H. by injection H as <-.
  - rewrite run_cons in H. destruct (step l s) as [m|] eqn:E; [|done]. eapply IH; [|exact H]. by eapply Hs.
Qed.

(** A field that only labels of one kind extend holds what they carried. *)
Lemma run_gathers (f : S → list byte) (g : L → list byte) ls s s' :
  (∀ l x y, step l x = Some y → f y = f x ++ g l) →
  run ls s = Some s' → f s' = f s ++ concat (map g ls).
Proof.
  intros Hs. revert s. induction ls as [|l ls IH]; intros s H.
  - rewrite run_nil in H. injection H as <-. cbn. by rewrite app_nil_r.
  - rewrite run_cons in H. destruct (step l s) as [m|] eqn:E; [|done].
    rewrite (IH m H), (Hs _ _ _ E). cbn. by rewrite app_assoc.
Qed.
End runs.

(** What the peers sent in a run. *)
Definition h3_client_sent (l : H3.label) : list byte := match l with H3.ClientSends bs => bs | _ => [] end.
Definition h3_edge_sent (l : H3.label) : list byte := match l with H3.EdgeSends bs => bs | _ => [] end.
Definition h2_client_sent (l : H2.label) : list byte := match l with H2.ClientSends bs => bs | _ => [] end.
Definition h2_remote_sent (l : H2.label) : list byte := match l with H2.RemoteSends bs => bs | _ => [] end.

Ltac relay_step H :=
  repeat match type of H with
  | context [match ?x with _ => _ end] => destruct x eqn:?
  | (_ ≫= _) = Some _ => apply bind_Some in H as (? & ? & H)
  end; simplify_eq/=.

Lemma copy_total wakes closed refused short s s' bs r :
  copy_turn wakes closed refused short s = Some (s', bs, r) → total s' = total s.
Proof. by intros (_ & ? & _)%copy_turn_Some. Qed.

Lemma deliver_total bs s s' : deliver bs s = Some s' → total s' = total s ++ bs.
Proof. by intros (_ & _ & ? & _)%deliver_Some. Qed.

Lemma finish_total e s s' : finish e s = Some s' → total s' = total s.
Proof. by intros (_ & _ & ? & _ & _)%finish_Some. Qed.

Ltac totals :=
  repeat match goal with
  | H : copy_turn _ _ _ _ _ = Some _ |- _ => apply copy_total in H
  | H : deliver _ _ = Some _ |- _ => apply deliver_total in H
  | H : finish _ _ = Some _ |- _ => apply finish_total in H
  end.

Lemma h2_step_totals l s s' :
  H2.step l s = Some s' →
  total (H2.client s') = total (H2.client s) ++ h2_client_sent l ∧
  total (H2.remote s') = total (H2.remote s) ++ h2_remote_sent l.
Proof.
  intros H. unfold H2.step, H2.main_step, H2.up_step, H2.down_step in H.
  destruct l; relay_step H; totals; rewrite ?app_nil_r; split; congruence.
Qed.

Lemma h3_step_totals l s s' :
  H3.step l s = Some s' →
  total (H3.client s') = total (H3.client s) ++ h3_client_sent l ∧
  total (H3.edge s') = total (H3.edge s) ++ h3_edge_sent l.
Proof.
  intros H. unfold H3.step, H3.main_step, H3.drain_step, H3.release in H.
  destruct l; relay_step H; totals; rewrite ?app_nil_r; split; congruence.
Qed.

(** ** The H2 relay delivers in full *)

Module H2Full.
Import H2.

(** A step without a cancelled context and without a write cut short. *)
Definition clean (l : label) : Prop :=
  match l with CtxCanceled | Up (Some _) | Down (Some _) => False | _ => True end.

Definition up_full (s : relay) : Prop :=
  up s ≠ Copying ∧ ended (client s) ≠ None ∧ to_remote s = total (client s).
Definition down_full (s : relay) : Prop :=
  down s ≠ Copying ∧ ended (remote s) ≠ None ∧ to_client s = total (remote s).

(** Before the handler closes anything, a copy that is over has written everything; and
    it closes nothing before one is. *)
Record full (s : relay) : Prop := Full {
  fu_wf : H2Facts.wf s;
  fu_up : connClosed s = false → up s ≠ Copying → up_full s;
  fu_down : connClosed s = false → down s ≠ Copying → down_full s;
  fu_main : main s ≠ First → up_full s ∨ down_full s;
  fu_open : main s = First ∨ main s = CloseConn → connClosed s = false ∧ remoteClosed s = false
}.

Lemma turn_full wakes s s' bs r out :
  copy_turn wakes false false None s = Some (s', bs, Some r) → lossless out s →
  ended s' ≠ None ∧ out ++ bs = total s'.
Proof.
  unfold copy_turn, lossless, owed. intros H Hl. destruct (in_hand s) eqn:Hh; cbn in H.
  - destruct (pending s) eqn:Hp; [|done]. destruct (ended s) as [[]|] eqn:He; [..|done];
      injection H as <- <- <-; cbn in Hl; rewrite ?app_nil_r in *; by rewrite He.
  - by apply bind_Some in H as ([] & _ & [=]).
Qed.

(** The remote end is closed after the client's. *)
Lemma remote_open s : H2Facts.wf s → connClosed s = false → remoteClosed s = false.
Proof.
  intros Hwf Hc. destruct (remoteClosed s) eqn:E; [|done].
  destruct (H2Facts.wf_closed _ Hwf (H2Facts.wf_remote _ Hwf E)). congruence.
Qed.

Lemma full_step l s s' : clean l → full s → step l s = Some s' → full s'.
Proof.
  intros Hl [Hwf Hup Hdown Hmain Hopen] Hs. pose proof (H2Facts.h2_wf_step _ _ _ Hwf Hs) as Hwf'.
  destruct l; try done; cbn in Hs.
  - apply bind_Some in Hs as (src & (He & He' & Ht & _)%deliver_Some & [= <-]).
    split; [done|..]; unfold up_full, down_full in *; cbn; naive_solver.
  - apply bind_Some in Hs as (src & (He & He' & Ht & _)%finish_Some & [= <-]).
    split; [done|..]; unfold up_full, down_full in *; cbn; rewrite ?Ht; naive_solver.
  - apply bind_Some in Hs as (src & (He & He' & Ht & _)%deliver_Some & [= <-]).
    split; [done|..]; unfold up_full, down_full in *; cbn; naive_solver.
  - apply bind_Some in Hs as (src & (He & He' & Ht & _)%finish_Some & [= <-]).
    split; [done|..]; unfold up_full, down_full in *; cbn; rewrite ?Ht; naive_solver.
  - injection Hs as <-. split; [done|..]; unfold up_full, down_full in *; cbn; naive_solver.
  - injection Hs as <-. split; [done|..]; unfold up_full, down_full in *; cbn; naive_solver.
  - (* the handler *)
    unfold main_step in Hs. pose proof (H2Facts.wf_done _ Hwf) as Hd.
    destruct (main s) eqn:Hm; [destruct (done s) eqn:Hn; [done|]| | |destruct (done s) eqn:Hn; [done|]|done];
      injection Hs as <-.
    + split; [done|exact Hup|exact Hdown| |by intros _; apply Hopen; left].
      intros _. destruct (Hopen (or_introl eq_refl)) as [Hc _]. cbn in Hd.
      destruct (decide (up s = Copying)) as [Hu|Hu]; [|by left; apply Hup].
      right. apply Hdown; [done|]. rewrite Hu in Hd. intros Hdn. rewrite Hdn in Hd. cbn in Hd. lia.
    + split; [done|done|done|by intros _; apply Hmain|by intros [|]].
    + split; [done|exact Hup|exact Hdown|by intros _; apply Hmain|by intros [|]].
    + split; [done|exact Hup|exact Hdown|by intros _; apply Hmain|by intros [|]].
  - (* up *)
    destruct short; [done|]. unfold up_step in Hs.
    destruct (up s) eqn:Hu; [|case_decide; [|done]|done].
    + apply bind_Some in Hs as ([[src bs] r] & Hc & [= <-]).
      split; [done| |exact Hdown| |exact Hopen].
      * cbn. intros Hcc Hr. rewrite Hcc, (remote_open s Hwf Hcc) in Hc. destruct r as [r|]; [|done].
        split; [done|]. by eapply turn_full; [exact Hc|apply (H2Facts.wf_upc _ Hwf Hu)].
      * cbn. intros Hm. destruct (Hmain Hm) as [[Hn _]|Hd]; [by rewrite Hu in Hn|by right].
    + injection Hs as <-. split; [done| |exact Hdown| |exact Hopen]; cbn.
      * intros Hcc _. destruct (Hup Hcc) as (_ & ? & ?); [congruence|]. by split_and!.
      * intros Hm. destruct (Hmain Hm) as [(_ & ? & ?)|Hd]; [by left; split_and!|by right].
  - (* down *)
    destruct short; [done|]. unfold down_step in Hs.
    destruct (down s) eqn:Hu; [|case_decide; [|done]|done].
    + apply bind_Some in Hs as ([[src bs] r] & Hc & [= <-]).
      split; [done|exact Hup| | |exact Hopen].
      * cbn. intros Hcc Hr. rewrite Hcc, (remote_open s Hwf Hcc) in Hc. destruct r as [r|]; [|done].
        split; [done|]. by eapply turn_full; [exact Hc|apply (H2Facts.wf_downc _ Hwf Hu)].
      * cbn. intros Hm. destruct (Hmain Hm) as [Hd|[Hn _]]; [by left|by rewrite Hu in Hn].
    + injection Hs as <-. split; [done|exact Hup| | |exact Hopen]; cbn.
      * intros Hcc _. destruct (Hdown Hcc) as (_ & ? & ?); [congruence|]. by split_and!.
      * intros Hm. destruct (Hmain Hm) as [Hd|(_ & ? & ?)]; [by left|by right; split_and!].
Qed.
End H2Full.

(** ** The start of a relay *)

Lemma h3_relay_wf segs : H3Facts.wf (h3_relay segs).
Proof. split; cbn; try naive_solver; first [by exists (concat segs)|by exists []]. Qed.

Lemma h2_relay_full segs : H2Full.full (h2_relay segs).
Proof.
  split; cbn; try naive_solver. split; cbn; try done; try naive_solver.
  - by exists (concat segs).
  - by exists [].
Qed.

Lemma h3_run_wf ls segs s : H3.run ls (h3_relay segs) = Some s → H3Facts.wf s.
Proof.
  intros H. eapply (run_keeps H3.step H3.run (λ _, eq_refl) (λ _ _ _, eq_refl) H3Facts.wf (λ _, True));
    [intros l x y _; apply H3Facts.wf_step|by apply Forall_true|apply h3_relay_wf|exact H].
Qed.

Lemma h2_run_wf ls segs s : H2.run ls (h2_relay segs) = Some s → H2Facts.wf s.
Proof.
  intros H. eapply (run_keeps H2.step H2.run (λ _, eq_refl) (λ _ _ _, eq_refl) H2Facts.wf (λ _, True));
    [intros l x y _; apply H2Facts.h2_wf_step|by apply Forall_true|apply (h2_relay_full segs)|exact H].
Qed.

Lemma relayed_app tr t tr' :
  Forall (λ ev, ∀ t, ev ≠ Relayed t) tr → relayed (tr ++ Relayed t :: tr') = Some t.
Proof.
  intros H. unfold relayed. rewrite omap_app. induction H as [|ev tr Hev _ IH]; [done|].
  destruct ev; try exact IH. by destruct (Hev target).
Qed.

Lemma h2_relayed tr (cfg : SOCKS5Config) target :
  tr = [ConnDeadline true] ++ negotiation_replies cfg ++ [ConnDeadline false] ++
       connect_events (Ok ()) target ++ [ConnClosed] → relayed tr = Some target.
Proof. intros ->. unfold negotiation_replies. by destruct (requireAuth cfg). Qed.

Lemma h3_relayed (cfg : SOCKS5Config) token t h target :
  relayed ([ConnDeadline true] ++ h3_replies cfg ++ tunnel_events token t h target 200 ++ [ConnClosed]) =
  Some target.
Proof. unfold h3_replies. by destruct (requireAuth cfg). Qed.

(** ** The properties *)

(** C3: A session over HTTP/2, from the client's first byte to the end, however its bytes
    are split and however the goroutines are scheduled.  A client that negotiates and
    asks for a target gets to the relay to that target, and the relay starts with
    exactly the bytes after the request.  What reaches the target is a prefix of these
    and of what the client sends later, in order, and what reaches the client is one of
    of what the target sends.  A run with no cancelled context and no write cut short ends
    only because one side did, and that side's bytes have all been passed on: until the
    handler closes the connection, a copy that is over has delivered everything; and
    the handler gets past its wait only when the client has ended and the target has got
    all it sent, or the target has ended and the client has got all it sent.  So the
    target gets everything unless it ended itself, and so does the client; the bytes
    for a side that ended first can be lost.  When the handler is done, both connections
    are closed and both copies are gone. *)
Theorem h2_session_delivers D cfg methods d port payload segs :
  let target := JoinHostPort (dest_host d) (itoa port) in
  sendable cfg methods → udp_dest_ok d → clean_host (dest_host d) → (0 < port < 65536)%Z →
  D target = Ok () →
  concat segs = greeting methods ++ credentials cfg ++
    [x05; socks5CmdConnect; x00] ++ encode_dest d ++ put16 port ++ payload →
  ∃ rest, concat rest = payload ∧
  ∀ ls, h2_session D cfg segs ls = (s ← H2.run ls (h2_relay rest); Some (target, s)) ∧
  ∀ s, H2.run ls (h2_relay rest) = Some s →
    let sent := payload ++ concat (map h2_client_sent ls) in
    let received := concat (map h2_remote_sent ls) in
    H2.to_remote s `prefix_of` sent ∧ H2.to_client s `prefix_of` received ∧
    (Forall H2Full.clean ls →
       (H2.connClosed s = false → (H2.up s ≠ H2.Copying → H2.to_remote s = sent) ∧
                                  (H2.down s ≠ H2.Copying → H2.to_client s = received)) ∧
       (H2.main s ≠ H2.First →
          (ended (H2.client s) ≠ None ∧ H2.to_remote s = sent ∨
           ended (H2.remote s) ≠ None ∧ H2.to_client s = received) ∧
          (ended (H2.remote s) = None → H2.to_remote s = sent) ∧
          (ended (H2.client s) = None → H2.to_client s = received))) ∧
    (H2.main s = H2.MDone →
       H2.up s = H2.Gone ∧ H2.down s = H2.Gone ∧ H2.connClosed s = true ∧ H2.remoteClosed s = true).
Proof.
  intros target Hm Hd Hh Hp HD Hs.
  destruct (h2_session_run D cfg methods d port payload segs Hm Hd Hh Hp) as [Ht Hst]; [by fold target; rewrite HD|exact Hs|].
  fold target in Ht. rewrite HD in Ht. eexists. split; [exact Hst|]. intros ls. split.
  - unfold h2_session. by rewrite (h2_relayed _ _ _ Ht).
  - intros s Hr sent received. unfold stream in Hst. set (rest := inbox _) in *. clearbody rest.
    assert (Hwf := h2_run_wf _ _ _ Hr).
    assert (Hc : total (H2.client s) = sent).
    { rewrite (run_gathers H2.step H2.run (λ _, eq_refl) (λ _ _ _, eq_refl) (λ r, total (H2.client r)) h2_client_sent ls _ s
        (λ l x y Hx, proj1 (h2_step_totals l x y Hx)) Hr). unfold sent. by rewrite <- Hst. }
    assert (Hrm : total (H2.remote s) = received).
    { by rewrite (run_gathers H2.step H2.run (λ _, eq_refl) (λ _ _ _, eq_refl) (λ r, total (H2.remote r)) h2_remote_sent ls _ s
        (λ l x y Hx, proj2 (h2_step_totals l x y Hx)) Hr). }
    rewrite <- Hc, <- Hrm. split_and!; [apply Hwf|apply Hwf| |].
    + intros Hcl. assert (Hf : H2Full.full s).
      { eapply (run_keeps H2.step H2.run (λ _, eq_refl) (λ _ _ _, eq_refl) H2Full.full H2Full.clean);
          [apply H2Full.full_step|exact Hcl|apply h2_relay_full|exact Hr]. }
      split.
      * intros Ho. split; intros Hn; [apply (H2Full.fu_up _ Hf Ho Hn)|apply (H2Full.fu_down _ Hf Ho Hn)].
      * intros Hn. destruct (H2Full.fu_main _ Hf Hn) as [(_ & ? & ?)|(_ & ? & ?)]; split_and!; auto; done.
    + intros Hdone. destruct (H2Facts.wf_closed _ Hwf) as [? ?]; [auto|].
      pose proof (H2Facts.wf_done _ Hwf) as Hk. rewrite Hdone in Hk.
      destruct (H2.up s), (H2.down s); cbn in Hk; try lia. done.
Qed.

(** C4: A session over HTTP/3, for a client that sends one message at a time.  With a target
    that resolves and an edge that answers 200, the handler gets to the relay, and the
    relay starts with the segments after the request's.  What reaches the edge's stream
    is a prefix of these and of what the client sends later, in order, and all of it once
    the handler has half-closed the stream; what reaches the client is a prefix of what
    the edge sends.  When the handler is done, the stream is cancelled and closed, the
    connection is closed, and the goroutine is gone. *)
Theorem h3_session_delivers `{Resolver E} token cfg hello d port extra t h segs :
  let data := [x05; socks5CmdConnect; x00] ++ encode_dest d ++ put16 port ++ extra in
  let target := JoinHostPort (dest_host d) (itoa port) in
  2 <= length hello <= 512 → hello !! 0 = Some x05 →
  (requireAuth cfg = true → length (Username cfg) < 256 ∧ length (Password cfg) < 256 ∧
                            length (credentials cfg) <= 512) →
  dest_ok d → (0 < port < 65536)%Z → length data <= 512 →
  resolveTarget target = Ok (t, h) →
  ∀ ls, h3_session (Some (healthy 200)) token cfg (hello :: h3_auth_segs cfg ++ data :: segs) ls =
          (s ← H3.run ls (h3_relay segs); Some (target, s)) ∧
  ∀ s, H3.run ls (h3_relay segs) = Some s →
    let sent := concat segs ++ concat (map h3_client_sent ls) in
    let received := concat (map h3_edge_sent ls) in
    H3.to_edge s `prefix_of` sent ∧ H3.to_client s `prefix_of` received ∧
    (H3.main s = H3.MSelect → H3.to_edge s = sent) ∧
    (H3.main s = H3.MDone →
       H3.readCancelled s = true ∧ H3.sendClosed s = true ∧ H3.connClosed s = true ∧
       H3.drainer s = H3.DDone).
Proof.
  intros data target H1 H2 H3' H4 H5 H6 H7 ls. split.
  - unfold h3_session, after. unfold data. rewrite (h3_session_run token cfg hello d port extra t h 200 segs) by done.
    cbn [snd trace inbox]. by rewrite h3_relayed.
  - intros s Hr sent received. assert (Hwf := h3_run_wf _ _ _ Hr).
    assert (Hc : total (H3.client s) = sent).
    { by rewrite (run_gathers H3.step H3.run (λ _, eq_refl) (λ _ _ _, eq_refl) (λ r, total (H3.client r)) h3_client_sent ls _ s
        (λ l x y Hx, proj1 (h3_step_totals l x y Hx)) Hr). }
    assert (He : total (H3.edge s) = received).
    { by rewrite (run_gathers H3.step H3.run (λ _, eq_refl) (λ _ _ _, eq_refl) (λ r, total (H3.edge r)) h3_edge_sent ls _ s
        (λ l x y Hx, proj2 (h3_step_totals l x y Hx)) Hr). }
    rewrite <- Hc, <- He. split_and!; [apply Hwf|apply Hwf| |].
    + intros Hm. destruct (H3Facts.wf_half _ Hwf (or_intror Hm)) as (Hp & _ & Hl).
      unfold lossless in Hl. by rewrite Hp, app_nil_r in Hl.
    + intros Hm. destruct (H3Facts.wf_once _ Hwf) as (? & ? & ?); [by apply H3Facts.wf_wait; auto|].
      split_and!; try done. apply (H3Facts.wf_drained _ Hwf), (H3Facts.wf_late _ Hwf). auto.
Qed.

(** ** Witnesses *)

(** The client's first byte of data comes with its request; it sends another and ends. *)
Lemma h2_session_delivers_witness :
  let segs := [[x05]; [x01; x00; x05; x01; x00; x01; x01; x02]; [x03; x04; x00; x50; x47]] in
  let ls := [H2.Up None; H2.Up None; H2.ClientSends [x48]; H2.ClientEnds Eof; H2.Up None; H2.Up None;
             H2.Up None; H2.Up None; H2.Main] in
  ∃ s, h2_session (λ _, Ok ()) (Build_SOCKS5Config [] [] true) segs ls = Some (str "1.2.3.4:80", s) ∧
    H2.main s = H2.CloseConn ∧ H2.to_remote s = [x47; x48].
Proof.
  intros segs ls.
  destruct (h2_session_delivers (λ _, Ok ()) (Build_SOCKS5Config [] [] true) [x00]
    (DestIPv4 [x01; x02; x03; x04]) 80 [x47] segs) as (rest & Hrest & Hall); try done.
  - split; [cbn; lia|]. split; [by left|done].
  - split; apply (bool_decide_unpack _); by vm_compute.
  - destruct (Hall ls) as [Hs Hr].
    assert (Hsome : is_Some (h2_session (λ _, Ok ()) (Build_SOCKS5Config [] [] true) segs ls))
      by (vm_compute; by eexists).
    rewrite Hs in Hsome. destruct (H2.run ls (h2_relay rest)) as [s|] eqn:E; [|by destruct Hsome].
    exists s. split; [exact Hs|].
    assert (Hm : H2.main s = H2.CloseConn ∧ H2.connClosed s = false ∧ H2.up s = H2.Gone).
    { assert (Hx : (λ p, (H2.main (snd p), H2.connClosed (snd p), H2.up (snd p))) <$>
        h2_session (λ _, Ok ()) (Build_SOCKS5Config [] [] true) segs ls =
        Some (H2.CloseConn, false, H2.Gone)) by by vm_compute.
      rewrite Hs in Hx. injection Hx as -> -> ->. split_and!; reflexivity. }
    destruct Hm as (Hm & Ho & Hu). split; [exact Hm|].
    destruct (Hr s eq_refl) as (_ & _ & Hfull & _).
    destruct Hfull as [Hfull _]; [by repeat constructor|].
    destruct (Hfull Ho) as [Hup _]. rewrite Hup; [by vm_compute|by rewrite Hu].
Defined.

(** The byte that comes with the request is lost, the next segment is not. *)
Lemma h3_session_delivers_witness :
  let cfg := Build_SOCKS5Config (str "u") (str "p") true in
  let ls := [H3.Main None; H3.Main None; H3.ClientEnds Eof; H3.Main None; H3.Main None] in
  ∃ s, h3_session (H:=fixed_resolver) (Some (healthy 200)) (str "tok") cfg
      ([x05; x01; x02] :: h3_auth_segs cfg ++ [[x05; x01; x00; x03; x01; x61; x00; x50; xff]; [xaa]]) ls =
    Some (str "a:80", s) ∧ H3.main s = H3.MSelect ∧ H3.to_edge s = [xaa].
Proof.
  intros cfg ls.
  destruct (h3_session_delivers (H:=fixed_resolver) (str "tok") cfg [x05; x01; x02] (DestDomain (str "a")) 80 [xff]
    (str "1.1.1.1:80") (str "a") [[xaa]]) with (ls := ls) as [Hs Hr];
    try done; try (apply (bool_decide_unpack _); by vm_compute).
  destruct (H3.run ls (h3_relay [[xaa]])) as [s|] eqn:E; [|by vm_compute in E].
  exists s. split; [exact Hs|].
  assert (Hm : H3.main s = H3.MSelect).
  { assert (Hx : H3.main <$> H3.run ls (h3_relay [[xaa]]) = Some H3.MSelect) by by vm_compute.
    rewrite E in Hx. by injection Hx. }
  split; [exact Hm|]. destruct (Hr s eq_refl) as (_ & _ & Hfull & _). rewrite (Hfull Hm). by vm_compute.
Defined.
