(* ===== verification/UdpRelay.v ===== *)
(** * SOCKS5 UDP associations (src/tunnel/udp.go and src/tunnel/h2_udp.go)

    The state of an association, one turn of each relay loop, the resolution of a
    destination on either backend, and the set-up and tear-down of the sockets.
    The two backends run the same loops over different sockets and resolvers; what
    differs is the class [UDPBackend]. *)

From Stdlib Require Import Init.Byte.
From S2P Require Import Prelude GoNet GoNetFacts Conn Socks5Wire.

(** ** The association *)

Definition udpMaxDatagram : nat := Z.to_nat 65507.

(** What the loops put on the wire. *)
Inductive udp_event :=
  | ToTarget (payload : list byte) (target : UDPAddr)
  | ToClient (frame : list byte) (peer : UDPAddr).

#[export] Instance udp_event_eq_dec : EqDecision udp_event.
Proof. solve_decision. Defined.

(** A socket towards the targets: is it closed, and does its [remoteToClient] loop
    still run? *)
Record remote := Remote { remoteClosed : bool; receiving : bool }.

#[export] Instance remote_eq_dec : EqDecision remote.
Proof. solve_decision. Defined.

(** [clientAddr]: nil until the first datagram.  [clientClosed]: the socket towards the
    client is closed.  [remotes]: the sockets towards the targets, by family (H3 has one
    for both, with key 0).  [stop]: [shutdown] has run.  [up]: does [clientToRemote]
    still run? *)
Record association := Association {
  clientAddr : option UDPAddr;
  clientClosed : bool;
  remotes : gmap Z remote;
  stop : bool;
  up : bool;
  out : list udp_event
}.

(** The sockets are open and the loops run. *)
Definition opened (sockets : list Z) : association :=
  Association None false (list_to_map ((λ f, (f, Remote false true)) <$> sockets)) false true [].

Definition remote_open (f : Z) (a : association) : bool :=
  match remotes a !! f with Some r => negb (remoteClosed r) | None => false end.
Definition down (f : Z) (a : association) : bool :=
  match remotes a !! f with Some r => receiving r | None => false end.

Definition peer (a : association) : option UDPAddr := clientAddr a.

Definition same_addr (p addr : UDPAddr) : bool :=
  ip_equal (UDP_IP p) (UDP_IP addr) && bool_decide (UDP_Port p = UDP_Port addr).

(** [setPeer]: record the first source, then accept only that source. *)
Definition setPeer (addr : UDPAddr) (a : association) : bool * association :=
  match clientAddr a with
  | None => (true, Association (Some addr) (clientClosed a) (remotes a) (stop a) (up a) (out a))
  | Some p => (same_addr p addr, a)
  end.

(** [h2UDPAssociation.close], and the two closes of the H3 [shutdown]. *)
Definition close (a : association) : association :=
  Association (clientAddr a) true ((λ r, Remote true (receiving r)) <$> remotes a) (stop a) (up a) (out a).

(** [shutdown]: under the [sync.Once], the stop channel and every socket are closed. *)
Definition shutdown (a : association) : association :=
  if stop a then a
  else close (Association (clientAddr a) (clientClosed a) (remotes a) true (up a) (out a)).

(** A loop that returns runs its deferred [shutdown]. *)
Definition up_returns (a : association) : association :=
  shutdown (Association (clientAddr a) (clientClosed a) (remotes a) (stop a) false (out a)).

Definition down_returns (f : Z) (a : association) : association :=
  shutdown (Association (clientAddr a) (clientClosed a)
              (alter (λ r, Remote (remoteClosed r) false) f (remotes a)) (stop a) (up a) (out a)).

Definition send (ev : udp_event) (a : association) : association :=
  Association (clientAddr a) (clientClosed a) (remotes a) (stop a) (up a) (out a ++ [ev]).

(** What a read on an open socket returns: a datagram and its source, or an error (the
    idle deadline).  On a closed socket it fails. *)
Notation datagram := (option (list byte * UDPAddr)).

(** ** What the backends provide *)

Class UDPBackend := {
  (** the families of the sockets towards the targets *)
  sockets : list Z;
  (** the address a destination stands for *)
  resolve_target : gostring → option UDPAddr;
  (** the socket to send from *)
  socket_for : UDPAddr → option Z;
  (** does a write of this frame to the client succeed, on an open socket? *)
  client_write : list byte → UDPAddr → bool
}.

Section loops.
  Context `{UDPBackend}.

Definition fresh : association := opened sockets.

(** One turn of [clientToRemote] ([h2UDPClientToRemote]): [ReadFromUDP], [setPeer],
    [parseUDPRequest], resolution, [WriteToUDP].  Whether the last write succeeds
    makes no difference; on a closed socket nothing is sent. *)
Definition clientToRemote (r : datagram) (a : association) : association :=
  if clientClosed a then up_returns a
  else
    match r with
    | None => up_returns a
    | Some (data, src) =>
        let buf := take udpMaxDatagram data in
        let '(ok, a) := setPeer src a in
        if negb ok then a
        else
          match parseUDPRequest buf with
          | Ok (dst, payload) =>
              match resolve_target dst with
              | Some target =>
                  match socket_for target with
                  | Some f => if remote_open f a then send (ToTarget payload target) a else a
                  | None => a
                  end
              | None => a
              end
          | _ => a
          end
    end.

(** One turn of [remoteToClient] ([h2UDPRemoteToClient]) on the socket [f]. *)
Definition remoteToClient (f : Z) (r : datagram) (a : association) : association :=
  if negb (remote_open f a) then down_returns f a
  else
    match r with
    | None => down_returns f a
    | Some (data, src) =>
        let buf := take udpMaxDatagram data in
        match peer a with
        | None => a
        | Some p =>
            match appendUDPReply [] src buf with
            | Ok frame =>
                if negb (clientClosed a) && client_write frame p then send (ToClient frame p) a
                else down_returns f a
            | _ => a
            end
        end
    end.

(** The interleaving: turns of the loops, and [shutdown] from the context or from the
    control connection. *)
Inductive turn :=
  | Up (r : datagram)
  | Down (f : Z) (r : datagram)
  | Shutdown.

Definition step (t : turn) (a : association) : association :=
  match t with
  | Up r => if up a then clientToRemote r a else a
  | Down f r => if down f a then remoteToClient f r a else a
  | Shutdown => shutdown a
  end.

Definition run (ts : list turn) (a : association) : association :=
  fold_left (λ a t, step t a) ts a.
End loops.

(** ** The H3 backend: sockets of the host *)
Section h3_udp.
  (** [net.DefaultResolver.LookupIPAddr], [net.LookupPort], and the client socket. *)
  Context (LookupIPAddr : gostring → option (list (list byte * gostring)))
          (LookupPort : gostring → option Z)
          (write : list byte → UDPAddr → bool).

(** [net.ResolveUDPAddr] of an address literal. *)
Definition ResolveUDPAddr (ip : list byte) (port : gostring) : option UDPAddr :=
  p ← LookupPort port; Some {| UDP_IP := ip; UDP_Port := p; UDP_Zone := [] |}.

Definition resolveUDPTarget (dst : gostring) : option UDPAddr :=
  match SplitHostPort dst with
  | Ok (host, port) =>
      match ParseIP host with
      | Some ip => ResolveUDPAddr ip port
      | None =>
          ips ← LookupIPAddr host;
          match ips with
          | [] => None
          | (ip, zone) :: _ =>
              p ← LookupPort port; Some {| UDP_IP := ip; UDP_Port := p; UDP_Zone := zone |}
          end
      end
  | _ => None
  end.

Definition h3_backend : UDPBackend := {|
  sockets := [0%Z];
  resolve_target := resolveUDPTarget;
  socket_for _ := Some 0%Z;
  client_write := write
|}.
End h3_udp.

(** ** The H2 backend: sockets of the userspace stack *)
Section h2_udp.
  (** The families of the sockets that were opened, and the tunnel's resolver. *)
  Context (remotes : list Z)
          (LookupContextHost : gostring → option (list gostring))
          (write : list byte → UDPAddr → bool).

Definition ipFamily (ip : list byte) : Z := match To4 ip with Some _ => 4 | None => 6 end.

(** [remoteFor]: the first socket of the address's family. *)
Fixpoint remoteFor_loop (family : Z) (rs : list Z) : option Z :=
  match rs with
  | [] => None
  | r :: rs' => if decide (r = family) then Some r else remoteFor_loop family rs'
  end.

Definition remoteFor (ip : list byte) : option Z :=
  let family := match To4 ip with Some _ => 4%Z | None => 6%Z end in
  remoteFor_loop family remotes.

Definition has_remote (ip : list byte) : bool := bool_decide (is_Some (remoteFor ip)).

(** The loop over the resolved addresses. *)
Fixpoint first_usable (port : Z) (addresses : list gostring) : option UDPAddr :=
  match addresses with
  | [] => None
  | value :: rest =>
      match ParseIP value with
      | Some ip =>
          if has_remote ip then Some {| UDP_IP := ip; UDP_Port := port; UDP_Zone := [] |}
          else first_usable port rest
      | None => first_usable port rest
      end
  end.

Definition resolveH2UDPTarget (destination : gostring) : option UDPAddr :=
  match SplitHostPort destination with
  | Ok (host, portValue) =>
      match atoi portValue with
      | Some port =>
          if bool_decide (port < 1)%Z || bool_decide (65535 < port)%Z then None
          else
            match ParseIP host with
            | Some ip =>
                if has_remote ip then Some {| UDP_IP := ip; UDP_Port := port; UDP_Zone := [] |}
                else None
            | None => addresses ← LookupContextHost host; first_usable port addresses
            end
      | None => None
      end
  | _ => None
  end.

Definition h2_backend : UDPBackend := {|
  sockets := remotes;
  resolve_target := resolveH2UDPTarget;
  socket_for target := remoteFor (UDP_IP target);
  client_write := write
|}.
End h2_udp.

(** ** Setting up and tearing down *)

Inductive setup_event :=
  | OpenedClient | OpenedRemote (family : Z)
  | ClosedClient | ClosedRemote (family : Z)
  | RepliedErr (code : byte)
  | RepliedBound
  | Relayed.

#[export] Instance setup_event_eq_dec : EqDecision setup_event.
Proof. solve_decision. Defined.

(** [handleUDPAssociate]: is the local address a TCP address, do the two sockets
    bind, has the client socket a UDP address, is the bound reply written?  The
    deferred closes run in reverse order; [shutdown] has closed the sockets before,
    when the relay ran. *)
Definition handleUDPAssociate (tcpLocal listenClient listenRemote bound replied : bool)
    : list setup_event :=
  if negb tcpLocal then [RepliedErr x01]
  else if negb listenClient then [RepliedErr x01]
  else OpenedClient ::
    (if negb listenRemote then [RepliedErr x01]
     else OpenedRemote 0 ::
       (if negb bound then [RepliedErr x01]
        else if negb replied then []
        else [RepliedBound; Relayed; ClosedClient; ClosedRemote 0])
       ++ [ClosedRemote 0]) ++ [ClosedClient].

(** [association.close] *)
Definition close_events (remotes : list Z) : list setup_event :=
  ClosedClient :: map ClosedRemote remotes.

(** The two optional sockets: [None] without a local address of the family, else
    whether it binds. *)
Definition handleH2UDPAssociate (tcpLocal listenClient : bool) (listen4 listen6 : option bool)
    (bound replied : bool) : list setup_event :=
  if negb tcpLocal then [RepliedErr x01]
  else if negb listenClient then [RepliedErr x01]
  else OpenedClient ::
    match listen4 with
    | Some false => close_events [] ++ [RepliedErr x01]
    | _ =>
        let r4 := match listen4 with Some _ => [4%Z] | None => [] end in
        map OpenedRemote r4 ++
        match listen6 with
        | Some false => close_events r4 ++ [RepliedErr x01]
        | _ =>
            let r6 := match listen6 with Some _ => [6%Z] | None => [] end in
            map OpenedRemote r6 ++
            (let remotes := r4 ++ r6 in
             match remotes with
             | [] => close_events remotes ++ [RepliedErr x01]
             | _ =>
                 (if negb bound then [RepliedErr x01]
                  else if negb replied then []
                  else [RepliedBound; Relayed] ++ close_events remotes)
                 ++ close_events remotes
             end)
        end
    end.
