(* ===== verification/UdpRelayFacts.v ===== *)
(** * UDP associations: who is served, what is forwarded, what is closed *)

From Stdlib Require Import Init.Byte.
From S2P Require Import Prelude GoNet GoNetFacts Conn Socks5Wire Socks5WireFacts UdpRelay.

(** ** The pinned peer *)

Lemma ip_equal_refl ip : ip_equal ip ip = true.
Proof. unfold ip_equal. rewrite decide_True by done. by apply bool_decide_eq_true. Qed.

Lemma same_addr_refl p : same_addr p p = true.
Proof. unfold same_addr. by rewrite ip_equal_refl, bool_decide_eq_true_2. Qed.

Section loops_facts.
  Context `{UDPBackend}.

Definition received (t : turn) : Prop := match t with Up (Some _) => True | _ => False end.

#[export] Instance received_dec t : Decision (received t).
Proof. destruct t as [[]|? []|]; cbn; apply _. Defined.

(** What an emitted datagram comes from. *)
Definition justified (ts : list turn) (peer : option UDPAddr) (ev : udp_event) : Prop :=
  match ev with
  | ToTarget payload target =>
      ∃ data src dst p, Up (Some (data, src)) ∈ ts ∧ peer = Some p ∧ same_addr p src = true ∧
        parseUDPRequest (take udpMaxDatagram data) = Ok (dst, payload) ∧
        resolve_target dst = Some target ∧ (∃ f, socket_for target = Some f ∧ f ∈ sockets)
  | ToClient frame q =>
      ∃ f data src, Down f (Some (data, src)) ∈ ts ∧ peer = Some q ∧
        appendUDPReply [] src (take udpMaxDatagram data) = Ok frame ∧ client_write frame q = true
  end.

Definition pinned_by (ts : list turn) (peer : option UDPAddr) : Prop :=
  match peer with
  | Some p => ∃ pre data post, ts = pre ++ Up (Some (data, p)) :: post ∧
                Forall (λ t, ¬ received t) pre
  | None => True
  end.

(** Every socket is closed. *)
Definition closed (a : association) : Prop :=
  clientClosed a = true ∧ ∀ f r, remotes a !! f = Some r → remoteClosed r = true.

(** The sockets are those of the backend; once [shutdown] has run they are closed, and a
    loop that has returned has run it. *)
Record linked (a : association) : Prop := Linked {
  li_stop : stop a = true → closed a;
  li_loops : up a = false ∨ (∃ f r, remotes a !! f = Some r ∧ receiving r = false) → stop a = true;
  li_sockets : ∀ f, is_Some (remotes a !! f) ↔ f ∈ sockets
}.

Lemma linked_fresh : linked fresh.
Proof.
  assert (Hf : ∀ f r, remotes fresh !! f = Some r → r = Remote false true).
  { intros f r Hr%elem_of_list_to_map_2. apply list_elem_of_fmap in Hr as (g & [= -> ->] & _). done. }
  split; [done| |].
  - intros [|(f & r & ->%Hf & Hr)]; done.
  - intros f. cbn. rewrite <- not_eq_None_Some. split.
    + intros Hn. apply dec_stable. intros Hf'. apply Hn, not_elem_of_list_to_map.
      rewrite <- list_fmap_compose. cbn. by rewrite list_fmap_id.
    + intros Hin Hn%not_elem_of_list_to_map. apply Hn. rewrite <- list_fmap_compose. cbn. by rewrite list_fmap_id.
Qed.

Lemma down_shutdown f a : down f (shutdown a) = down f a.
Proof.
  unfold shutdown. destruct (stop a); [done|]. unfold down. cbn. rewrite lookup_fmap.
  by destruct (remotes a !! f).
Qed.

(** What [shutdown] does, in a state where it has run only if the sockets are closed. *)
Lemma shutdown_spec a :
  (stop a = true → closed a) → (∀ f, is_Some (remotes a !! f) ↔ f ∈ sockets) →
  linked (shutdown a) ∧ closed (shutdown a) ∧ clientAddr (shutdown a) = clientAddr a ∧
  out (shutdown a) = out a ∧ up (shutdown a) = up a ∧ ∀ f, down f (shutdown a) = down f a.
Proof.
  intros Hs Hk. assert (Hd : ∀ f, down f (shutdown a) = down f a) by (intros f; apply down_shutdown).
  revert Hd. unfold shutdown. destruct (stop a) eqn:E; intros Hd.
  { split_and!; try done; [by split; [intros _; apply Hs|..]|by apply Hs..]. }
  set (b := Association _ _ _ true _ _). assert (Hc : closed (close b)).
  { split; [done|]. cbn. intros f r. rewrite lookup_fmap_Some. by intros (r' & <- & _). }
  split; [split; [done..|]|by split]. intros f. cbn. by rewrite lookup_fmap, fmap_is_Some.
Qed.

Lemma up_returns_spec a :
  linked a →
  linked (up_returns a) ∧ closed (up_returns a) ∧ clientAddr (up_returns a) = clientAddr a ∧
  out (up_returns a) = out a ∧ up (up_returns a) = false ∧ ∀ f, down f (up_returns a) = down f a.
Proof.
  intros [Hs _ Hk]. unfold up_returns.
  by destruct (shutdown_spec (Association (clientAddr a) (clientClosed a) (remotes a) (stop a) false (out a)) Hs Hk).
Qed.

Lemma down_returns_spec f a :
  linked a →
  linked (down_returns f a) ∧ closed (down_returns f a) ∧
  clientAddr (down_returns f a) = clientAddr a ∧ out (down_returns f a) = out a ∧
  up (down_returns f a) = up a ∧ down f (down_returns f a) = false.
Proof.
  intros [Hs _ Hk]. unfold down_returns.
  edestruct (shutdown_spec (Association (clientAddr a) (clientClosed a)
    (alter (λ r, Remote (remoteClosed r) false) f (remotes a)) (stop a) (up a) (out a)))
    as (? & ? & ? & ? & ? & Hd).
  - cbn. intros [Hc Hr]%Hs. split; [done|]. cbn. intros g r.
    rewrite lookup_alter_Some. intros [(-> & r' & Hr' & ->)|(_ & Hr')]; [by apply (Hr _ _ Hr')|by eapply Hr].
  - intros g. cbn. rewrite <- Hk. destruct (decide (f = g)) as [->|];
      [rewrite lookup_alter_eq, fmap_is_Some|rewrite lookup_alter_ne]; done.
  - split_and!; try done. rewrite Hd. unfold down. cbn. rewrite lookup_alter_eq.
    by destruct (remotes a !! f).
Qed.

Lemma linked_setPeer a src : linked a → linked (snd (setPeer src a)).
Proof. unfold setPeer. destruct (clientAddr a); [done|]. by intros []. Qed.

Lemma linked_step t a : linked a → linked (step t a).
Proof.
  intros Hl. destruct t as [r|f r|]; cbn [step].
  - destruct (up a); [|done]. unfold clientToRemote.
    destruct (clientClosed a); [by apply up_returns_spec|].
    destruct r as [[data src]|]; [|by apply up_returns_spec].
    pose proof (linked_setPeer a src Hl) as Hl'. destruct (setPeer src a) as [ok a']. cbn in Hl'.
    repeat case_match; try done. by destruct Hl'.
  - destruct (down f a); [|done]. unfold remoteToClient.
    repeat case_match; try done; try by apply down_returns_spec. by destruct Hl.
  - by apply shutdown_spec; apply Hl.
Qed.

(** [quiet]: an association without a peer has received nothing while it was open. *)
Record sound (ts : list turn) (a : association) : Prop := Sound {
  sound_linked : linked a;
  sound_peer : pinned_by ts (clientAddr a);
  sound_quiet : clientAddr a = None → clientClosed a = false → Forall (λ t, ¬ received t) ts;
  sound_out : Forall (justified ts (clientAddr a)) (out a)
}.

Lemma justified_more ts t peer ev : justified ts peer ev → justified (ts ++ [t]) peer ev.
Proof. destruct ev; cbn; set_solver. Qed.

Lemma pinned_more ts t peer : pinned_by ts peer → pinned_by (ts ++ [t]) peer.
Proof.
  destruct peer as [p|]; [|done]. cbn. intros (pre & d & post & -> & Hf).
  exists pre, d, (post ++ [t]). by rewrite <- app_assoc.
Qed.

(** A turn that sends nothing and does not touch the peer. *)
Lemma sound_same ts t a a' :
  sound ts a → linked a' → clientAddr a' = clientAddr a → out a' = out a →
  (clientClosed a = true → clientClosed a' = true) →
  (clientClosed a' = false → ¬ received t ∨ clientAddr a ≠ None) →
  sound (ts ++ [t]) a'.
Proof.
  intros [_ Hp Hq Ho] Hl Hc Hout Hs Hr. split; [done|..].
  - rewrite Hc. by apply pinned_more.
  - rewrite Hc. intros Hn Hst. apply Forall_app. split.
    + apply Hq; [done|]. destruct (clientClosed a); [by rewrite Hs in Hst|done].
    + destruct (Hr Hst); [by constructor|done].
  - rewrite Hc, Hout. eapply Forall_impl; [done|]. intros ev. apply justified_more.
Qed.

(** A turn that ends in [shutdown]. *)
Lemma sound_closed ts t a a' :
  sound ts a → linked a' → closed a' → clientAddr a' = clientAddr a → out a' = out a →
  sound (ts ++ [t]) a'.
Proof.
  intros Hs Hl [Hc _] Hp Ho. by apply (sound_same ts _ a); [..|congruence].
Qed.

Lemma sound_up_returns ts t a : sound ts a → sound (ts ++ [t]) (up_returns a).
Proof.
  intros Hs. destruct (up_returns_spec a (sound_linked _ _ Hs)) as (? & ? & ? & ? & _).
  by apply (sound_closed ts t a).
Qed.

Lemma sound_down_returns ts t f a : sound ts a → sound (ts ++ [t]) (down_returns f a).
Proof.
  intros Hs. destruct (down_returns_spec f a (sound_linked _ _ Hs)) as (? & ? & ? & ? & _).
  by apply (sound_closed ts t a).
Qed.

Lemma sound_send ts a ev :
  sound ts a → justified ts (clientAddr a) ev → sound ts (send ev a).
Proof.
  intros [[] Hp Hq Ho] Hj. split; cbn; try done. apply Forall_app. by split; [|constructor].
Qed.

(** The peer after [setPeer]. *)
Lemma sound_setPeer ts a data src ok a' :
  sound ts a → clientClosed a = false → setPeer src a = (ok, a') →
  sound (ts ++ [Up (Some (data, src))]) a' ∧
  ∃ p, clientAddr a' = Some p ∧ ok = same_addr p src.
Proof.
  intros Hs Hst Hp. pose proof (linked_setPeer a src (sound_linked _ _ Hs)) as Hl.
  unfold setPeer in *. destruct (clientAddr a) as [p|] eqn:Hc.
  - injection Hp as <- <-. split; [|by exists p].
    apply (sound_same ts _ a); try done. intros _. right. by rewrite Hc.
  - injection Hp as <- <-. split; [|exists src; by rewrite same_addr_refl].
    destruct Hs as [_ _ Hq Ho]. specialize (Hq Hc Hst). split; cbn; try done.
    + by exists ts, data, [].
    + rewrite Hc in Ho. destruct (out a) as [|ev evs]; [done|].
      inversion Ho as [|? ? Hj]; subst. destruct ev; cbn in Hj; naive_solver.
Qed.

Lemma sound_step ts t a : sound ts a → sound (ts ++ [t]) (step t a).
Proof.
  intros Hs. pose proof (sound_linked _ _ Hs) as Hl. destruct t as [r|f r|]; cbn [step].
  - destruct (up a) eqn:Hup.
    2:{ apply (sound_same ts _ a); try done. intros Hst.
        destruct (li_stop _ Hl) as [Hcc _]; [by apply Hl; left|]. congruence. }
    unfold clientToRemote. destruct (clientClosed a) eqn:Hst; [by apply sound_up_returns|].
    destruct r as [[data src]|]; [|by apply sound_up_returns].
    destruct (setPeer src a) as [ok a'] eqn:Hp.
    destruct (sound_setPeer ts a data src ok a' Hs Hst Hp) as [Hs' (p & Hc & ->)].
    destruct (same_addr p src) eqn:Hsame; [|done]. cbn [negb].
    destruct (parseUDPRequest _) as [[dst payload]| |] eqn:Hparse; [|done..].
    destruct (resolve_target dst) as [target|] eqn:Hres; [|done].
    destruct (socket_for target) as [g|] eqn:Hsock; [|done].
    destruct (remote_open g a') eqn:Hopen; [|done].
    apply sound_send; [done|]. exists data, src, dst, p. split_and!; try done; [set_solver|].
    exists g. split; [done|]. apply (li_sockets _ (sound_linked _ _ Hs')). unfold remote_open in Hopen.
    destruct (remotes a' !! g); [by eexists|done].
  - assert (Hkeep : sound (ts ++ [Down f r]) a)
      by (apply (sound_same ts _ a); try done; intros _; left; by intros []).
    destruct (down f a); [|done]. unfold remoteToClient.
    destruct (remote_open f a); [cbn [negb]|by apply sound_down_returns].
    destruct r as [[data src]|]; [|by apply sound_down_returns].
    destruct (peer a) as [p|] eqn:Hpeer; [|done].
    destruct (appendUDPReply _ _ _) as [frame|e|] eqn:Hf; [|done..].
    destruct (negb (clientClosed a) && client_write frame p) eqn:Hw; [|by apply sound_down_returns].
    apply andb_true_iff in Hw as [_ Hw].
    apply sound_send; [done|]. exists f, data, src. split_and!; try done. set_solver.
  - destruct (shutdown_spec a (li_stop _ Hl) (li_sockets _ Hl)) as (? & ? & ? & ? & _).
    by apply (sound_closed ts _ a).
Qed.

Lemma run_snoc ts t a : run (ts ++ [t]) a = step t (run ts a).
Proof. unfold run. by rewrite fold_left_app. Qed.

Lemma run_sound ts : sound ts (run ts fresh).
Proof.
  induction ts as [|t ts IH] using rev_ind; [split; try done; apply linked_fresh|].
  rewrite run_snoc. by apply sound_step.
Qed.

(** A turn that runs [shutdown]: its own, or the deferred one of a loop that returns. *)
Definition shuts (t : turn) (a : association) : Prop :=
  match t with
  | Up _ => up a = true ∧ up (step t a) = false
  | Down f _ => down f a = true ∧ down f (step t a) = false
  | Shutdown => True
  end.

Lemma setPeer_up src a : up (snd (setPeer src a)) = up a.
Proof. unfold setPeer. by destruct (clientAddr a). Qed.

Lemma shuts_closed t a : linked a → shuts t a → closed (step t a).
Proof.
  intros Hl. destruct t as [r|f r|]; cbn [step shuts].
  - intros [Hu Hf]. rewrite Hu in *. unfold clientToRemote in *.
    destruct (clientClosed a); [by apply up_returns_spec|].
    destruct r as [[data src]|]; [|by apply up_returns_spec].
    pose proof (setPeer_up src a) as Hp. destruct (setPeer src a) as [ok a']. cbn in Hp.
    repeat case_match; cbn in Hf; congruence.
  - intros [Hu Hf]. rewrite Hu in *. unfold remoteToClient in *.
    repeat case_match; try by apply down_returns_spec.
    all: try (cbn in Hf; congruence). unfold down, send in *. cbn in Hf. congruence.
  - intros _. by apply shutdown_spec; apply Hl.
Qed.

(** With every socket closed nothing more is sent, and a loop that takes a turn
    returns. *)
Lemma sockets_closed_step t a :
  linked a → closed a →
  closed (step t a) ∧ out (step t a) = out a ∧
  (up a = false → up (step t a) = false) ∧ (∀ f, down f a = false → down f (step t a) = false) ∧
  match t with
  | Up _ => up (step t a) = false
  | Down f _ => down f (step t a) = false
  | Shutdown => True
  end.
Proof.
  intros Hl Hc. destruct t as [r|f r|]; cbn [step].
  - destruct (up a) eqn:Hu; [|by split_and!]. unfold clientToRemote. rewrite (proj1 Hc).
    destruct (up_returns_spec a Hl) as (_ & ? & _ & ? & ? & Hd). split_and!; try done.
    intros f. by rewrite Hd.
  - destruct (down f a) eqn:Hd; [|by split_and!]. unfold remoteToClient.
    assert (remote_open f a = false) as ->.
    { unfold remote_open. destruct (remotes a !! f) as [r'|] eqn:E; [|done]. by rewrite (proj2 Hc f r' E). }
    cbn [negb]. destruct (down_returns_spec f a Hl) as (_ & ? & _ & ? & ? & Hn).
    split_and!; try done; [congruence|]. intros g Hg. destruct (decide (f = g)) as [->|Hne]; [done|].
    unfold down_returns. rewrite down_shutdown. unfold down. cbn. by rewrite lookup_alter_ne.
  - destruct (shutdown_spec a (li_stop _ Hl) (li_sockets _ Hl)) as (_ & ? & _ & ? & Hu & Hd).
    split_and!; try done; [by rewrite Hu|]. intros f. by rewrite Hd.
Qed.

Lemma sockets_closed_run ts a :
  linked a → closed a →
  linked (run ts a) ∧ closed (run ts a) ∧ out (run ts a) = out a ∧
  (∀ r, Up r ∈ ts → up (run ts a) = false) ∧ (∀ f r, Down f r ∈ ts → down f (run ts a) = false).
Proof.
  intros Hl Hc. induction ts as [|t ts IH] using rev_ind; [by split_and!; [| | |set_solver..]|].
  destruct IH as (Hl' & Hc' & Ho & Hu & Hd). rewrite run_snoc.
  destruct (sockets_closed_step t _ Hl' Hc') as (? & Ho' & Hu' & Hd' & Ht).
  split_and!; [by apply linked_step|done|congruence| |].
  - intros r [Hin|Hin]%elem_of_app; [by eapply Hu', Hu|apply list_elem_of_singleton in Hin; by subst t].
  - intros f r [Hin|Hin]%elem_of_app; [by eapply Hd', Hd|apply list_elem_of_singleton in Hin; by subst t].
Qed.

(** Nothing but [shutdown], a failed read and a failed write to the client end an
    association. *)
Definition benign (t : turn) : Prop :=
  match t with Up (Some _) | Down _ (Some _) => True | _ => False end.

Definition running (a : association) : Prop :=
  clientClosed a = false ∧ stop a = false ∧ up a = true ∧
  ∀ f r, remotes a !! f = Some r → r = Remote false true.

Lemma running_fresh : running fresh.
Proof.
  split_and!; try done. intros f r Hr%elem_of_list_to_map_2.
  by apply list_elem_of_fmap in Hr as (g & [= -> ->] & _).
Qed.

Lemma running_step t a :
  (∀ frame p, client_write frame p = true) → benign t → running a → running (step t a).
Proof.
  intros Hw Ht (Hc & Hs & Hu & Hr). destruct t as [[[data src]|]|f [[data src]|]|]; try done; cbn [step].
  - rewrite Hu. unfold clientToRemote, setPeer. rewrite Hc. destruct (clientAddr a); repeat case_match; done.
  - destruct (down f a) eqn:Hd; [|done]. unfold remoteToClient, remote_open, down in *.
    destruct (remotes a !! f) as [r|] eqn:E; [|done]. rewrite (Hr f r E) in *. cbn.
    rewrite Hc. repeat case_match; try done. cbn in *. by rewrite Hw in *.
Qed.
End loops_facts.

(** ** Addresses of the two backends *)

Lemma ip_string_To16 ip ip16 : To16 ip = Some ip16 → ip_string ip16 = ip_string ip ∧ valid_ip ip16.
Proof.
  intros H. assert (Hv : valid_ip ip) by (apply To16_valid; eauto).
  assert (Hv16 : valid_ip ip16) by (right; by eapply To16_length).
  split; [|done]. rewrite !ip_string_valid by done.
  destruct (To4 ip) as [v4|] eqn:H4.
  - pose proof (To4_To16 _ _ H4) as H16. pose proof (To4_length _ _ H4) as Hl.
    assert (ip16 = v4InV6Prefix ++ v4) as -> by congruence. unfold To4.
    rewrite decide_False by (rewrite length_app, Hl; done).
    change 12 with (length v4InV6Prefix). rewrite take_app_length, drop_app_length.
    by rewrite decide_True by (by rewrite length_app, Hl).
  - rewrite (To16_of_To4_None _ Hv H4) in H. injection H as <-. by rewrite H4.
Qed.

Lemma resolve_literal_h3 L P w d ip ip16 port :
  dest_ok d → d = DestIPv4 ip ∨ d = DestIPv6 ip → To16 ip = Some ip16 →
  (0 < port < 65536)%Z → P (itoa port) = Some port →
  resolve_target (UDPBackend:=h3_backend L P w) (JoinHostPort (dest_host d) (itoa port))
  = Some {| UDP_IP := ip16; UDP_Port := port; UDP_Zone := [] |}.
Proof.
  intros Hd Hip H16 Hp HP. cbn. unfold resolveUDPTarget.
  destruct (dest_host_ip d Hd) as (Hc & ip' & Hip' & Hparse); [by destruct Hip; subst|].
  assert (ip' = ip) as -> by (destruct Hip, Hip'; congruence).
  rewrite split_join by (done || (apply clean_port_itoa; lia)). rewrite Hparse, H16.
  unfold ResolveUDPAddr. by rewrite HP.
Qed.

Lemma resolve_literal_h2 rs L w d ip ip16 port :
  dest_ok d → d = DestIPv4 ip ∨ d = DestIPv6 ip → To16 ip = Some ip16 →
  (0 < port < 65536)%Z → has_remote rs ip16 = true →
  resolve_target (UDPBackend:=h2_backend rs L w) (JoinHostPort (dest_host d) (itoa port))
  = Some {| UDP_IP := ip16; UDP_Port := port; UDP_Zone := [] |}.
Proof.
  intros Hd Hip H16 Hp Hr. cbn. unfold resolveH2UDPTarget.
  destruct (dest_host_ip d Hd) as (Hc & ip' & Hip' & Hparse); [by destruct Hip; subst|].
  assert (ip' = ip) as -> by (destruct Hip, Hip'; congruence).
  rewrite split_join by (done || (apply clean_port_itoa; lia)).
  rewrite atoi_itoa by lia. rewrite !bool_decide_eq_false_2 by lia. cbn.
  by rewrite Hparse, H16, Hr.
Qed.

Lemma first_usable_socket rs port l t :
  first_usable rs port l = Some t → has_remote rs (UDP_IP t) = true ∧ UDP_Port t = port.
Proof.
  induction l as [|v l IH]; [done|]. cbn. destruct (ParseIP v) as [ip|]; [|done].
  destruct (has_remote rs ip) eqn:Hr; [|done]. by intros [= <-].
Qed.

Lemma remoteFor_loop_elem family rs f : remoteFor_loop family rs = Some f → family ∈ rs.
Proof.
  induction rs as [|r rs IH]; [done|]. cbn [remoteFor_loop]. intros Hf. apply elem_of_cons.
  case_decide; [by left|right; by apply IH].
Qed.

Lemma remoteFor_family rs ip f : remoteFor rs ip = Some f → f = ipFamily ip ∧ f ∈ rs.
Proof.
  unfold remoteFor, ipFamily. intros Hf. assert (Hin := remoteFor_loop_elem _ _ _ Hf). revert Hf Hin.
  generalize (match To4 ip with Some _ => 4%Z | None => 6%Z end). intros g Hf Hin.
  assert (f = g) as ->; [|done]. clear Hin. induction rs as [|r rs IH]; [done|]. cbn in Hf.
  case_decide as E; [congruence|by apply IH].
Qed.

Lemma has_remote_elem rs ip : has_remote rs ip = true → ipFamily ip ∈ rs.
Proof.
  unfold has_remote. intros [f Hf]%bool_decide_eq_true. by eapply remoteFor_loop_elem.
Qed.

(** ** Properties *)

(** C12: whatever datagrams arrive in whatever interleaving, an association serves
    the sender of the very first datagram it receives: every reply frame goes to
    that address and encapsulates a datagram received from a target; every payload
    sent to a target was asked for by a datagram from that address, and is that
    datagram's payload, sent where its destination resolves to. *)
Theorem udp_peer_pinned `{UDPBackend} (ts : list turn) :
  let a := run ts fresh in
  pinned_by ts (clientAddr a) ∧ Forall (justified ts (clientAddr a)) (out a).
Proof. destruct (run_sound ts). done. Qed.

(** C24: a request to an address literal and the reply to it make the round trip
    on both backends: the payload leaves for exactly the requested address and
    port, and the reply, from that address, reaches the client in a frame that
    names the requested destination and carries the reply unchanged.  Both use the
    socket of the address's family. *)
Theorem udp_exchange (backend : UDPBackend) p r1 r2 d ip ip16 port payload reply :
  let target := {| UDP_IP := ip16; UDP_Port := port; UDP_Zone := [] |} in
  let request := [r1; r2; x00] ++ encode_dest d ++ put16 port ++ payload in
  (∃ L P w, backend = h3_backend L P w ∧ P (itoa port) = Some port) ∨
  (∃ rs L w, backend = h2_backend rs L w ∧ has_remote rs ip16 = true) →
  udp_dest_ok d → d = DestIPv4 ip ∨ d = DestIPv6 ip → To16 ip = Some ip16 →
  (0 < port < 65536)%Z → length request <= udpMaxDatagram → length reply <= udpMaxDatagram →
  (∀ frame, client_write frame p = true) →
  ∃ f frame, socket_for target = Some f ∧
    out (run [Up (Some (request, p)); Down f (Some (reply, target))] fresh)
    = [ToTarget payload target; ToClient frame p] ∧
    parseUDPRequest frame = Ok (JoinHostPort (dest_host d) (itoa port), reply).
Proof.
  intros target request Hb Hd Hip H16 Hp Hreq Hrep Hw.
  destruct (ip_string_To16 _ _ H16) as [Hstr Hv16].
  assert (Hhost : dest_host d = ip_string ip) by (by destruct Hip; subst).
  assert (Hparse : parseUDPRequest request = Ok (JoinHostPort (dest_host d) (itoa port), payload))
    by (apply parseUDPRequest_iff; eauto 10).
  assert (Hres : resolve_target (JoinHostPort (dest_host d) (itoa port)) = Some target ∧
                 ∃ f, socket_for target = Some f ∧ f ∈ sockets).
  { destruct Hb as [(L & P & w & -> & HP)|(rs & L & w & -> & Hr)]; split.
    - apply resolve_literal_h3 with ip; try done. apply Hd.
    - exists 0%Z. split; [done|]. by apply list_elem_of_singleton.
    - apply resolve_literal_h2 with ip; try done. apply Hd.
    - cbn. unfold has_remote in Hr. apply bool_decide_eq_true in Hr as [f Hf]. exists f.
      split; [done|]. by apply (remoteFor_family _ _ _ Hf). }
  destruct Hres as [Hres (f & Hsock & Hf)].
  assert (Hopen : remotes fresh !! f = Some (Remote false true)).
  { apply (li_sockets _ linked_fresh) in Hf as [r Hr]. rewrite Hr. by rewrite (proj2 (proj2 (proj2 running_fresh)) f r Hr). }
  exists f, ([x00; x00; x00] ++ encode_dest (reply_dest ip16) ++ put16 port ++ reply).
  split; [done|]. split.
  - unfold run. cbn [fold_left step]. change (up fresh) with true. cbv iota.
    unfold clientToRemote, setPeer. cbn [clientClosed fresh opened clientAddr negb].
    rewrite (take_ge request) by done. rewrite Hparse, Hres, Hsock. unfold remote_open. cbn [remotes].
    change (remotes (opened sockets)) with (remotes fresh). rewrite Hopen. cbn [remoteClosed negb].
    unfold down, remoteToClient, remote_open, send. cbn [remotes].
    change (remotes (opened sockets)) with (remotes fresh). rewrite Hopen.
    cbn [remoteClosed negb receiving peer clientAddr clientClosed].
    rewrite (take_ge reply), appendUDPReply_valid, Hw by done. done.
  - apply parseUDPRequest_iff. exists x00, x00, (reply_dest ip16), port.
    split_and!; [done|by apply reply_dest_ok|lia|lia|].
    by rewrite reply_host, Hstr, Hhost.
Qed.

Definition any_backend : UDPBackend := h2_backend [4%Z; 6%Z] (λ _, None) (λ _ _, true).

Definition test_peer : UDPAddr :=
  {| UDP_IP := [x7f; x00; x00; x01]; UDP_Port := 5000; UDP_Zone := [] |}.

Lemma udp_exchange_witness :
  ∃ f frame, socket_for (UDPBackend:=any_backend) {| UDP_IP := IPv4 x01 x01 x01 x01; UDP_Port := 53; UDP_Zone := [] |} = Some f ∧
    out (run (H:=any_backend) [
      Up (Some ([x00; x00; x00] ++ encode_dest (DestIPv4 [x01; x01; x01; x01]) ++ put16 53 ++ str "q", test_peer));
      Down f (Some (str "a", {| UDP_IP := IPv4 x01 x01 x01 x01; UDP_Port := 53; UDP_Zone := [] |}))] (fresh (H:=any_backend)))
    = [ToTarget (str "q") {| UDP_IP := IPv4 x01 x01 x01 x01; UDP_Port := 53; UDP_Zone := [] |};
       ToClient frame test_peer] ∧
    parseUDPRequest frame = Ok (JoinHostPort (str "1.1.1.1") (itoa 53), str "a").
Proof.
  apply (udp_exchange any_backend test_peer x00 x00 (DestIPv4 [x01; x01; x01; x01])
    [x01; x01; x01; x01] (IPv4 x01 x01 x01 x01) 53 (str "q") (str "a")); try done.
  - right. exists [4%Z; 6%Z], (λ _, None), (λ _ _, true). split; [done|by vm_compute].
  - by left.
  - apply (bool_decide_unpack _). by vm_compute.
  - apply (bool_decide_unpack _). by vm_compute.
Defined.

(** a target the H2 backend resolves always has a socket of its family and a
    port in range, so no resolved datagram is dropped for want of a socket, and a
    destination without one is refused. *)
Theorem h2_target_has_socket rs lookup destination target :
  resolveH2UDPTarget rs lookup destination = Some target →
  has_remote rs (UDP_IP target) = true ∧ (1 <= UDP_Port target <= 65535)%Z ∧
  ipFamily (UDP_IP target) ∈ rs.
Proof.
  unfold resolveH2UDPTarget. intros H.
  destruct (SplitHostPort destination) as [[host pv]| |]; [|done..].
  destruct (atoi pv) as [port|]; [|done].
  destruct (_ || _) eqn:Hp; [done|]. apply orb_false_iff in Hp as [H1 H2].
  apply bool_decide_eq_false in H1, H2.
  assert (Hs : has_remote rs (UDP_IP target) = true ∧ UDP_Port target = port).
  { destruct (ParseIP host) as [ip|].
    - destruct (has_remote rs ip) eqn:Hr; [|done]. by injection H as <-.
    - apply bind_Some in H as (l & _ & H). by eapply first_usable_socket. }
  destruct Hs as [Hs ->]. split; [done|]. split; [lia|].
  by apply has_remote_elem.
Qed.

Lemma h2_target_has_socket_witness :
  has_remote [6%Z] IPv6loopback = true ∧ (1 <= 80 <= 65535)%Z ∧ ipFamily IPv6loopback ∈ [6%Z].
Proof.
  apply (h2_target_has_socket [6%Z] (λ _, Some [str "1.2.3.4"; str "::1"]) (str "a:80")
    {| UDP_IP := IPv6loopback; UDP_Port := 80; UDP_Zone := [] |}).
  by vm_compute.
Defined.

(** C38: the sockets of an association are closed together, and that ends it.  A turn that
    runs [shutdown] -- of the context or the control connection, or the deferred one of
    a loop that returns -- leaves the socket towards the client and every socket towards
    the targets closed; from then on nothing is sent, and each loop returns at its next
    turn.  Nothing else ends it: as long as reads and writes to the client succeed, the
    sockets are open and all loops run, whatever is received.  But one datagram from a
    target that the client socket cannot carry as a frame closes everything. *)
Theorem udp_shutdown `{UDPBackend} (ts : list turn) :
  let a := run ts fresh in
  (∀ t, shuts t a →
     closed (step t a) ∧
     ∀ ts', out (run ts' (step t a)) = out (step t a) ∧
       (∀ r, Up r ∈ ts' → up (run ts' (step t a)) = false) ∧
       (∀ f r, Down f r ∈ ts' → down f (run ts' (step t a)) = false)) ∧
  ((∀ frame p, client_write frame p = true) → Forall benign ts → running a) ∧
  (∀ f data src p, down f a = true → clientAddr a = Some p →
     valid_ip (UDP_IP src) →
     (∀ frame, udpMaxDatagram < length frame → client_write frame p = false) →
     udpMaxDatagram < reply_header (UDP_IP src) + length (take udpMaxDatagram data) →
     closed (step (Down f (Some (data, src))) a)).
Proof.
  intros a. pose proof (sound_linked _ _ (run_sound ts)) as Hl. fold a in Hl. split_and!.
  - intros t Ht. pose proof (shuts_closed t a Hl Ht) as Hc. split; [done|]. intros ts'.
    destruct (sockets_closed_run ts' _ (linked_step t a Hl) Hc) as (_ & _ & ?). done.
  - intros Hw Hts. subst a. clear Hl. induction ts as [|t ts IH] using rev_ind; [apply running_fresh|].
    apply Forall_app in Hts as [Hts [Ht _]%Forall_cons]. rewrite run_snoc. by apply running_step; auto.
  - intros f data src p Hd Hp Hv Hw Hlen. apply shuts_closed; [done|]. split; [done|].
    cbn [step]. rewrite Hd. unfold remoteToClient, peer. destruct (negb _); [by apply down_returns_spec|].
    rewrite Hp, appendUDPReply_valid, Hw by
      (done || (pose proof (length_encode_reply _ Hv); rewrite !length_app; change (length (put16 _)) with 2; cbn [length app]; lia)).
    rewrite andb_false_r. by apply down_returns_spec.
Qed.

(** A backend whose client socket carries at most [udpMaxDatagram] bytes. *)
Definition bounded_backend : UDPBackend :=
  h2_backend [4%Z; 6%Z] (λ _, None) (λ frame _, bool_decide (length frame <= udpMaxDatagram)).

Lemma udp_shutdown_witness :
  closed (step (H:=bounded_backend) (Down 4 (Some (replicate udpMaxDatagram x00, test_peer)))
    (run (H:=bounded_backend) [Up (Some ([], test_peer))] (fresh (H:=bounded_backend)))).
Proof.
  apply (proj2 (proj2 (udp_shutdown (H:=bounded_backend) [Up (Some ([], test_peer))])))
    with (p := test_peer).
  - by vm_compute.
  - by vm_compute.
  - by left.
  - intros frame Hl. apply bool_decide_eq_false. lia.
  - apply (bool_decide_unpack _). by vm_compute.
Defined.

(** [handleUDPAssociate] and [handleH2UDPAssociate] close every socket they
    open, on every path; they report success only when the relay runs, and an error
    reply is never sent after a success. *)
Theorem udp_sockets_closed tcp lc lr bound replied listen4 listen6 :
  (∀ tr, tr = handleUDPAssociate tcp lc lr bound replied ∨
         tr = handleH2UDPAssociate tcp lc listen4 listen6 bound replied →
     (OpenedClient ∈ tr ↔ ClosedClient ∈ tr) ∧
     (∀ f, OpenedRemote f ∈ tr ↔ ClosedRemote f ∈ tr) ∧
     (RepliedBound ∈ tr ↔ Relayed ∈ tr) ∧
     (Relayed ∈ tr → ∀ code, RepliedErr code ∉ tr)).
Proof.
  intros tr [-> | ->].
  - unfold handleUDPAssociate. destruct tcp, lc, lr, bound, replied; cbn; set_solver.
  - unfold handleH2UDPAssociate, close_events.
    destruct tcp, lc, listen4 as [[]|], listen6 as [[]|], bound, replied; cbn; set_solver.
Qed.

Lemma udp_sockets_closed_witness :
  OpenedRemote 4 ∈ handleH2UDPAssociate true true (Some true) (Some false) true true ↔
  ClosedRemote 4 ∈ handleH2UDPAssociate true true (Some true) (Some false) true true.
Proof.
  apply (udp_sockets_closed true true true true true (Some true) (Some false)
    (handleH2UDPAssociate true true (Some true) (Some false) true true)). by right.
Defined.
