(* ===== verification/Dns.v ===== *)
(** * Name resolution over DoH (src/tunnel/masque.go)

    The resolution cache, the answer parser, the two concurrent questions of
    [dnsQuery], and the single retry of [resolveDNS].  Times are in nanoseconds, as
    [time.Duration] and [time.Time] are.  Unpacking a DNS message and the HTTP/2
    round trip are third-party code: parameters. *)

From Stdlib Require Import Init.Byte.
From S2P Require Import Prelude GoNet GoNetFacts Conn Socks5Wire SocksH3.

Local Open Scope Z_scope.

Definition Second : Z := 1000000000.
Definition dohMinTTL : Z := 5 * Second.
Definition dohMaxTTL : Z := 5 * 60 * Second.
Definition dnsCacheSweepAt : nat := Z.to_nat 1024.
Definition dnsCacheMaxEntries : nat := Z.to_nat 8192.
Definition dohMaxResponseSize : nat := Z.to_nat (Z.shiftl 64 10).

(** [time.Duration] is a 64-bit integer. *)
Definition int64 (z : Z) : Z := (z + 2 ^ 63) mod 2 ^ 64 - 2 ^ 63.

(** ** The cache *)

Record dnsCacheEntry := { entry_ip : list byte; expiresAt : Z }.

#[export] Instance dnsCacheEntry_eq_dec : EqDecision dnsCacheEntry.
Proof. solve_decision. Defined.

Notation dnsCache := (gmap gostring dnsCacheEntry).

(** The sweep: delete what has expired. *)
Definition sweep (now : Z) (cache : dnsCache) : dnsCache :=
  filter (λ kv, now < expiresAt kv.2) cache.

(** [cacheResolution]; [now] and [now'] are its two readings of the clock. *)
Definition cacheResolution (now now' : Z) (host : gostring) (ip : list byte) (ttl : Z)
    (cache : dnsCache) : dnsCache :=
  let cache :=
    if decide (dnsCacheSweepAt <= size cache)%nat then
      let cache := sweep now cache in
      if decide (dnsCacheMaxEntries <= size cache)%nat then ∅ else cache
    else cache in
  <[host := {| entry_ip := ip; expiresAt := now' + ttl |}]> cache.

(** The cache check at the start of [resolveDNS]. *)
Definition cached (now : Z) (host : gostring) (cache : dnsCache) : option (list byte) :=
  match cache !! host with
  | Some entry => if decide (now < expiresAt entry) then Some (entry_ip entry) else None
  | None => None
  end.

(** ** Errors *)

(** [errDoHTransport] against everything else. *)
Inductive dns_error :=
  | DoHTransport
  | DoHUnavailable                  (** no connection to a DoH server *)
  | BadName | PackFailed | BadRequest
  | QueryExpired                    (** this query's own deadline or cancellation *)
  | BadStatus (status : Z)
  | UnpackFailed
  | BadRCode (rcode : Z)
  | NoRecord.

#[export] Instance dns_error_eq_dec : EqDecision dns_error.
Proof. solve_decision. Defined.

Definition is_transport (e : dns_error) : bool := bool_decide (e = DoHTransport).

(** [shouldRetryDoH]: [ctxErr] is nil iff the caller's context is live. *)
Definition shouldRetryDoH (err : dns_error) (ctx_live : bool) : bool :=
  is_transport err && ctx_live.

(** ** Wire-format answers *)

Inductive qtype := TypeA | TypeAAAA.

#[export] Instance qtype_eq_dec : EqDecision qtype.
Proof. solve_decision. Defined.

(** What the third-party parser delivers of a message. *)
Inductive resource := AResource (a : list byte) | AAAAResource (aaaa : list byte) | OtherResource.
Record answer := { ans_ttl : Z; ans_body : resource }.
Record message := { rcode : Z; answers : list answer }.

Definition RCodeSuccess : Z := 0.

Definition fqdn (host : gostring) : gostring :=
  match last host with
  | Some c => if decide (c = dot) then host else host ++ [dot]
  | None => host ++ [dot]
  end.

Definition clampTTL (ttl : Z) : Z :=
  let ttl := int64 (ttl * Second) in
  let ttl := if decide (ttl < dohMinTTL) then dohMinTTL else ttl in
  if decide (dohMaxTTL < ttl) then dohMaxTTL else ttl.

(** The loop over the answers: the first record of the requested family. *)
Fixpoint first_answer (qt : qtype) (l : list answer) : option (list byte * Z) :=
  match l with
  | [] => None
  | ans :: rest =>
      match ans_body ans with
      | AResource a =>
          if decide (qt = TypeA) then Some (a, clampTTL (ans_ttl ans)) else first_answer qt rest
      | AAAAResource aaaa =>
          if decide (qt = TypeAAAA) then Some (aaaa, clampTTL (ans_ttl ans))
          else first_answer qt rest
      | OtherResource => first_answer qt rest
      end
  end.

Section queries.
  (** [Message.Unpack]; [NewName] and [Pack] of the question; [http.NewRequest]. *)
  Context (Unpack : list byte → option message)
          (NewName : gostring → bool) (Pack : gostring → qtype → bool) (NewRequest : bool).

Definition parseDoHAnswer (body : list byte) (qt : qtype) : outcome dns_error (list byte * Z) :=
  match Unpack body with
  | None => Err UnpackFailed
  | Some msg =>
      if negb (bool_decide (rcode msg = RCodeSuccess)) then Err (BadRCode (rcode msg))
      else match first_answer qt (answers msg) with Some r => Ok r | None => Err NoRecord end
  end.

(** What the HTTP/2 round trip of one question does: it fails, its body cannot be
    read, or it yields a status and a body; [expired] says whether the query's own
    context had ended when a failure was seen. *)
Inductive round_trip :=
  | RoundTripFailed (expired : bool)
  | ReadFailed (expired : bool)
  | Response (status : Z) (body : list byte).

(** [dnsQueryType]: the answer, and whether it retired the shared connection. *)
Definition dnsQueryType (host : gostring) (qt : qtype) (rt : round_trip)
    : outcome dns_error (list byte * Z) * bool :=
  let name := fqdn host in
  if negb (NewName name) then (Err BadName, false)
  else if negb (Pack name qt) then (Err PackFailed, false)
  else if negb NewRequest then (Err BadRequest, false)
  else
    match rt with
    | RoundTripFailed expired | ReadFailed expired =>
        if expired : bool then (Err QueryExpired, false) else (Err DoHTransport, true)
    | Response status body =>
        let body := take dohMaxResponseSize body in
        if negb (bool_decide (status = 200)) then (Err (BadStatus status), false)
        else (parseDoHAnswer body qt, false)
    end.

(** The receive loop of [dnsQuery] over the answers, in the order they arrive. *)
Fixpoint collect (got : list (outcome dns_error (list byte * Z)))
    (v6 : option (list byte * Z)) (transportErr : option dns_error)
    : outcome dns_error (list byte * Z) :=
  match got with
  | [] =>
      match v6, transportErr with
      | Some r, _ => Ok r
      | None, Some e => Err e
      | None, None => Err NoRecord
      end
  | Ok (ip, ttl) :: rest =>
      match To4 ip with
      | Some _ => Ok (ip, ttl)
      | None => collect rest (Some (ip, ttl)) transportErr
      end
  | Err e :: rest =>
      collect rest v6
        (if bool_decide (transportErr = None) || is_transport e then Some e else transportErr)
  | Panic :: _ => Panic
  end.

(** [dnsQuery] on a connection, for the round trips of the two questions and the
    order in which they answer; and whether it retired the connection. *)
Definition dnsQuery (conn_ok : bool) (host : gostring) (rt4 rt6 : round_trip) (a_first : bool)
    : outcome dns_error (list byte * Z) * bool :=
  if negb conn_ok then (Err DoHUnavailable, false)
  else
    let '(r4, inv4) := dnsQueryType host TypeA rt4 in
    let '(r6, inv6) := dnsQueryType host TypeAAAA rt6 in
    (collect (if a_first then [r4; r6] else [r6; r4]) None None, inv4 || inv6).

(** One attempt: what the network does, whether the caller's context is live after
    it, and the clock at the cache update. *)
Record attempt := {
  at_conn : bool;
  at_rt4 : round_trip;
  at_rt6 : round_trip;
  at_a_first : bool;
  at_ctx_live : bool;
  at_now : Z;
  at_now' : Z
}.

Definition try_once (host : gostring) (t : attempt) : outcome dns_error (list byte * Z) :=
  fst (dnsQuery (at_conn t) host (at_rt4 t) (at_rt6 t) (at_a_first t)).

(** The retry loop of [resolveDNS]: [n] attempts are left. *)
Fixpoint attempts (n : nat) (host : gostring) (net : nat → attempt) (i : nat) (cache : dnsCache)
    (lastErr : dns_error) : outcome dns_error (list byte) * dnsCache * nat :=
  match n with
  | O => (Err lastErr, cache, i)
  | S n =>
      let t := net i in
      match try_once host t with
      | Ok (ip, ttl) => (Ok ip, cacheResolution (at_now t) (at_now' t) host ip ttl cache, S i)
      | Err e =>
          if shouldRetryDoH e (at_ctx_live t) then attempts n host net (S i) cache e
          else (Err e, cache, S i)
      | Panic => (Panic, cache, S i)
      end
  end.

(** [resolveDNS] for the caller that leads the flight: the address, the cache, and
    the number of queries made. *)
Definition resolveDNS_run (now : Z) (host : gostring) (net : nat → attempt) (cache : dnsCache)
    : outcome dns_error (list byte) * dnsCache * nat :=
  match cached now host cache with
  | Some ip => (Ok ip, cache, O)
  | None => attempts 2 host net 0 cache NoRecord
  end.
End queries.

(** ** The single flight

    Callers that miss the cache register in [dnsFlight]: the first for a host leads,
    the others wait for its result or their context.  [R] is what a resolution
    yields. *)
Section flight.
  Context {R : Type}.

Inductive caller_pc :=
  | PLookup
  | PLead (f : nat)
  | PPublished (f : nat) (r : R)
  | PWait (f : nat)
  | PReturn (r : R)
  | PCtxErr.

Record flights := Flights {
  dnsFlight : gmap gostring nat;
  done : gmap nat (option R);        (** each flight; [Some r] once closed with [r] *)
  fresh_id : nat;
  callers : gmap nat (gostring * caller_pc)
}.

Definition no_flights : flights := Flights ∅ ∅ 0 ∅.

Definition set_pc (i : nat) (host : gostring) (pc : caller_pc) (s : flights) : flights :=
  Flights (dnsFlight s) (done s) (fresh_id s) (<[i := (host, pc)]> (callers s)).

Inductive flight_label :=
  | Arrive (i : nat) (host : gostring)
  | Enter (i : nat)
  | Publish (i : nat) (r : R)
  | CleanUp (i : nat)
  | Wake (i : nat)
  | CtxDone (i : nat).

Definition flight_step (l : flight_label) (s : flights) : option flights :=
  match l with
  | Arrive i host =>
      match callers s !! i with None => Some (set_pc i host PLookup s) | Some _ => None end
  | Enter i =>
      match callers s !! i with
      | Some (host, PLookup) =>
          match dnsFlight s !! host with
          | Some f => Some (set_pc i host (PWait f) s)
          | None =>
              let f := fresh_id s in
              Some (set_pc i host (PLead f)
                (Flights (<[host := f]> (dnsFlight s)) (<[f := None]> (done s)) (S f) (callers s)))
          end
      | _ => None
      end
  | Publish i r =>
      match callers s !! i with
      | Some (host, PLead f) =>
          Some (set_pc i host (PPublished f r)
            (Flights (dnsFlight s) (<[f := Some r]> (done s)) (fresh_id s) (callers s)))
      | _ => None
      end
  | CleanUp i =>
      match callers s !! i with
      | Some (host, PPublished f r) =>
          Some (set_pc i host (PReturn r)
            (Flights (delete host (dnsFlight s)) (done s) (fresh_id s) (callers s)))
      | _ => None
      end
  | Wake i =>
      match callers s !! i with
      | Some (host, PWait f) =>
          match done s !! f with
          | Some (Some r) => Some (set_pc i host (PReturn r) s)
          | _ => None
          end
      | _ => None
      end
  | CtxDone i =>
      match callers s !! i with
      | Some (host, PWait _) => Some (set_pc i host PCtxErr s)
      | _ => None
      end
  end.

Definition flight_reach (s : flights) : Prop :=
  rtc (λ x y, ∃ l, flight_step l x = Some y) no_flights s.
End flight.
Arguments caller_pc : clear implicits.
Arguments flights : clear implicits.
Arguments flight_label : clear implicits.
