(* ===== verification/DnsFacts.v ===== *)
(** * The cache stays bounded, answers are preferred and retried as documented *)

From Stdlib Require Import Init.Byte.
From S2P Require Import Prelude GoNet GoNetFacts Conn Socks5Wire Socks5WireFacts SocksH3 Dns.

Local Open Scope Z_scope.

(** ** The cache *)

Lemma size_insert_le (k : gostring) (v : dnsCacheEntry) (m : dnsCache) : (size (<[k := v]> m) <= S (size m))%nat.
Proof. rewrite map_size_insert. case_match; unfold id; lia. Qed.

Lemma sweep_lookup (now : Z) (cache : dnsCache) (host : gostring) (e : dnsCacheEntry) :
  sweep now cache !! host = Some e ↔ cache !! host = Some e ∧ now < expiresAt e.
Proof. unfold sweep. by rewrite map_lookup_filter_Some. Qed.

Lemma cacheResolution_size (now now' : Z) host ip ttl cache :
  (size cache <= dnsCacheMaxEntries)%nat →
  (size (cacheResolution now now' host ip ttl cache) <= dnsCacheMaxEntries)%nat.
Proof.
  unfold cacheResolution. intros Hs.
  pose proof (size_insert_le host {| entry_ip := ip; expiresAt := now' + ttl |}) as Hi.
  assert (H1 : (1 <= dnsCacheMaxEntries)%nat) by (unfold dnsCacheMaxEntries; lia).
  assert (H2 : (dnsCacheSweepAt < dnsCacheMaxEntries)%nat)
    by (unfold dnsCacheSweepAt, dnsCacheMaxEntries; lia).
  repeat case_decide; (etransitivity; [apply Hi|]); rewrite ?map_size_empty; lia.
Qed.

(** What a lookup sees after an update: the new entry, or a live old one, and every
    live old one unless the whole cache was dropped. *)
Lemma cacheResolution_lookup (now now' : Z) host ip ttl cache host' e :
  cacheResolution now now' host ip ttl cache !! host' = Some e →
  (host' = host ∧ e = {| entry_ip := ip; expiresAt := now' + ttl |}) ∨
  (host' ≠ host ∧ cache !! host' = Some e).
Proof.
  unfold cacheResolution. intros [[<- <-]|[Hne Hl]]%lookup_insert_Some; [by left|].
  right. split; [congruence|]. repeat case_decide; try done.
  by apply sweep_lookup in Hl as [? _].
Qed.

Lemma cacheResolution_keeps (now now' : Z) host ip ttl cache host' e :
  cache !! host' = Some e → now < expiresAt e → host' ≠ host →
  (size (sweep now cache) < dnsCacheMaxEntries)%nat →
  cacheResolution now now' host ip ttl cache !! host' = Some e.
Proof.
  intros Hl Hlive Hne Hs. unfold cacheResolution. rewrite lookup_insert_ne by done.
  repeat case_decide; try done; [lia|]. by apply sweep_lookup.
Qed.

(** ** Answers *)

Definition of_type (qt : qtype) (ans : answer) : option (list byte) :=
  match ans_body ans, qt with
  | AResource a, TypeA => Some a
  | AAAAResource a, TypeAAAA => Some a
  | _, _ => None
  end.

Lemma first_answer_spec qt l r :
  first_answer qt l = Some r ↔
  ∃ pre ans post ip, l = pre ++ ans :: post ∧ Forall (λ a, of_type qt a = None) pre ∧
    of_type qt ans = Some ip ∧ r = (ip, clampTTL (ans_ttl ans)).
Proof.
  split.
  - induction l as [|ans l IH]; [done|]. cbn. intros H.
    assert (Hcase : (∃ ip, of_type qt ans = Some ip ∧ r = (ip, clampTTL (ans_ttl ans))) ∨
                    (of_type qt ans = None ∧ first_answer qt l = Some r)).
    { unfold of_type. destruct (ans_body ans); try case_decide; subst; try destruct qt; naive_solver. }
    destruct Hcase as [(ip & Hip & ->)|[Hn Hr]].
    + by exists [], ans, l, ip.
    + destruct (IH Hr) as (pre & ans' & post & ip & -> & Hf & Hip & ->).
      exists (ans :: pre), ans', post, ip. split_and!; try done. by constructor.
  - intros (pre & ans & post & ip & -> & Hf & Hip & ->). induction Hf as [|a pre Ha _ IH]; cbn.
    + unfold of_type in Hip. destruct (ans_body ans), qt; try done; by injection Hip as ->.
    + unfold of_type in Ha. destruct (ans_body a), qt; try done; by rewrite decide_False.
Qed.

Lemma clampTTL_spec t :
  0 <= t < 2 ^ 32 → clampTTL t = Z.max dohMinTTL (Z.min dohMaxTTL (t * Second)).
Proof.
  intros Ht. unfold clampTTL, int64, dohMinTTL, dohMaxTTL, Second.
  rewrite Z.mod_small by lia. repeat case_decide; lia.
Qed.

Lemma clampTTL_range t : dohMinTTL <= clampTTL t <= dohMaxTTL.
Proof. unfold clampTTL, dohMinTTL, dohMaxTTL, Second. repeat case_decide; lia. Qed.

(** ** The two questions *)

Notation result := (outcome dns_error (list byte * Z)).

(** A usable IPv4 answer. *)
Definition v4_answer (r : result) : bool :=
  match r with Ok (ip, _) => bool_decide (is_Some (To4 ip)) | _ => false end.

Definition transport_failed (r : result) : bool :=
  match r with Err e => is_transport e | _ => false end.

Lemma collect_swap r4 r6 :
  v4_answer r6 = false → r4 ≠ Panic → r6 ≠ Panic →
  (∀ ip ttl, r4 = Ok (ip, ttl) → is_Some (To4 ip)) →
  match r4 with
  | Ok _ => collect [r4; r6] None None = r4 ∧ collect [r6; r4] None None = r4
  | _ =>
      match r6 with
      | Ok _ => collect [r4; r6] None None = r6 ∧ collect [r6; r4] None None = r6
      | _ => ∃ e e', collect [r4; r6] None None = Err e ∧ collect [r6; r4] None None = Err e' ∧
               is_transport e = is_transport e' ∧
               is_transport e = transport_failed r4 || transport_failed r6
      end
  end.
Proof.
  intros H6 Hp4 Hp6 H4. destruct r4 as [[ip4 t4]|e4|]; [| |done].
  - destruct (H4 _ _ eq_refl) as [v4 Hv4]. cbn. rewrite Hv4. split; [done|].
    destruct r6 as [[ip6 t6]|e6|]; [|done..]. cbn in H6 |- *.
    destruct (To4 ip6) eqn:E; [|done].
    apply bool_decide_eq_false in H6. by destruct H6.
  - destruct r6 as [[ip6 t6]|e6|]; [| |done].
    + cbn in *. destruct (To4 ip6) eqn:E; [|done].
      apply bool_decide_eq_false in H6. by destruct H6.
    + cbn. 
      destruct (is_transport e4) eqn:E4, (is_transport e6) eqn:E6;
        eexists _, _; (split; [done|]); (split; [done|]); rewrite ?E4, ?E6; done.
Qed.

Section facts.
  Context (Unpack : list byte → option message)
          (NewName : gostring → bool) (Pack : gostring → qtype → bool) (NewRequest : bool).

(** The resources of a parsed message hold arrays of 4 and of 16 bytes. *)
Definition arrays_sized : Prop :=
  ∀ body msg ans, Unpack body = Some msg → ans ∈ answers msg →
    match ans_body ans with
    | AResource a => length a = 4%nat
    | AAAAResource a => length a = 16%nat
    | OtherResource => True
    end.

Notation query_type := (dnsQueryType Unpack NewName Pack NewRequest).
Notation query := (dnsQuery Unpack NewName Pack NewRequest).
Notation try_once := (try_once Unpack NewName Pack NewRequest).
Notation resolve := (resolveDNS_run Unpack NewName Pack NewRequest).

Lemma parse_not_transport body qt : parseDoHAnswer Unpack body qt ≠ Err DoHTransport.
Proof.
  unfold parseDoHAnswer. destruct (Unpack body) as [msg|]; [|done].
  destruct (negb _); [done|]. by destruct (first_answer qt (answers msg)) as [[]|].
Qed.

Lemma parse_not_panic body qt : parseDoHAnswer Unpack body qt ≠ Panic.
Proof.
  unfold parseDoHAnswer. destruct (Unpack body) as [msg|]; [|done].
  destruct (negb _); [done|]. by destruct (first_answer qt (answers msg)) as [[]|].
Qed.

Lemma parse_sized body qt ip ttl :
  arrays_sized → parseDoHAnswer Unpack body qt = Ok (ip, ttl) →
  length ip = match qt with TypeA => 4%nat | TypeAAAA => 16%nat end.
Proof.
  unfold parseDoHAnswer. intros Hs H. destruct (Unpack body) as [msg|] eqn:Hm; [|done].
  destruct (negb _); [done|]. destruct (first_answer qt (answers msg)) as [r|] eqn:Hf; [|done].
  injection H as ->. apply first_answer_spec in Hf as (pre & ans & post & ip' & Hl & _ & Hip & [= -> ->]).
  specialize (Hs body msg ans Hm). rewrite Hl in Hs. specialize (Hs ltac:(set_solver)).
  unfold of_type in Hip. destruct (ans_body ans), qt; try done; by injection Hip as ->.
Qed.

(** The outcome of a question is a parsed answer or an error; the connection is
    retired exactly on a transport failure. *)
Lemma query_type_cases host qt rt :
  (∃ body, query_type host qt rt = (parseDoHAnswer Unpack body qt, false)) ∨
  (∃ e, query_type host qt rt = (Err e, is_transport e)).
Proof.
  unfold dnsQueryType. destruct (negb (NewName _)); [right; by exists BadName|].
  destruct (negb (Pack _ _)); [right; by exists PackFailed|].
  destruct (negb NewRequest); [right; by exists BadRequest|].
  destruct rt as [[]|[]|st body];
    [right; by exists QueryExpired|right; by exists DoHTransport
    |right; by exists QueryExpired|right; by exists DoHTransport|].
  cbv beta iota zeta. destruct (negb _); [right; by exists (BadStatus st)|left; by eexists].
Qed.

Lemma query_type_sound host qt rt :
  fst (query_type host qt rt) ≠ Panic ∧
  (snd (query_type host qt rt) = true ↔ fst (query_type host qt rt) = Err DoHTransport) ∧
  (arrays_sized → ∀ ip ttl, fst (query_type host qt rt) = Ok (ip, ttl) →
     length ip = match qt with TypeA => 4%nat | TypeAAAA => 16%nat end).
Proof.
  destruct (query_type_cases host qt rt) as [[body ->]|[e ->]]; cbn.
  - split_and!; [apply parse_not_panic| |by intros; eapply parse_sized].
    split; [done|]. intros H. by apply parse_not_transport in H.
  - split_and!; [done| |done]. unfold is_transport.
    rewrite bool_decide_eq_true. split; congruence.
Qed.

Lemma To4_of_A ip : length ip = 4%nat → is_Some (To4 ip).
Proof. intros Hl. unfold To4. rewrite decide_True by done. by eexists. Qed.

Lemma collect_valid got v6 te ip ttl :
  Forall (λ r, ∀ ip ttl, r = Ok (ip, ttl) → valid_ip ip) got →
  (∀ ip ttl, v6 = Some (ip, ttl) → valid_ip ip) →
  collect got v6 te = Ok (ip, ttl) → valid_ip ip.
Proof.
  intros Hf. revert v6 te. induction Hf as [|r got Hr _ IH]; intros v6 te Hv H; cbn in H.
  - destruct v6 as [[]|]; [injection H as -> ->; eauto|by destruct te].
  - destruct r as [[ip' ttl']|e|]; [| |done].
    + destruct (To4 ip'); [injection H as -> ->; eauto|].
      eapply IH; [|exact H]. intros ? ? [= -> ->]. eauto.
    + by eapply IH.
Qed.

Lemma try_once_valid host t ip ttl :
  arrays_sized → try_once host t = Ok (ip, ttl) → valid_ip ip.
Proof.
  intros Hs. unfold Dns.try_once, dnsQuery. destruct (negb _); [done|].
  destruct (query_type_sound host TypeA (at_rt4 t)) as (_ & _ & H4).
  destruct (query_type_sound host TypeAAAA (at_rt6 t)) as (_ & _ & H6).
  destruct (query_type host TypeA _) as [r4 i4], (query_type host TypeAAAA _) as [r6 i6].
  cbn in *. apply collect_valid; [|done].
  assert (V4 : ∀ ip ttl, r4 = Ok (ip, ttl) → valid_ip ip) by (intros; left; eauto).
  assert (V6 : ∀ ip ttl, r6 = Ok (ip, ttl) → valid_ip ip) by (intros; right; eauto).
  destruct (at_a_first t); (apply Forall_cons; split; [done|]; by apply Forall_singleton).
Qed.

Lemma collect_not_panic got v6 te : Forall (λ r, r ≠ Panic) got → collect got v6 te ≠ Panic.
Proof.
  intros Hf. revert v6 te. induction Hf as [|r got Hr _ IH]; intros v6 te; cbn.
  - by destruct v6, te.
  - destruct r as [[ip ttl]|e|]; [|apply IH|done]. by destruct (To4 ip).
Qed.

Lemma try_once_not_panic host t : try_once host t ≠ Panic.
Proof.
  unfold Dns.try_once, dnsQuery. destruct (negb _); [done|].
  destruct (query_type_sound host TypeA (at_rt4 t)) as (H4 & _).
  destruct (query_type_sound host TypeAAAA (at_rt6 t)) as (H6 & _).
  destruct (query_type host TypeA _), (query_type host TypeAAAA _). cbn in *.
  apply collect_not_panic. destruct (at_a_first t); (apply Forall_cons; split; [done|]; by apply Forall_singleton).
Qed.

(** Every address in the cache is one a lookup returned. *)
Definition cache_valid (cache : dnsCache) : Prop :=
  map_Forall (λ _ e, valid_ip (entry_ip e)) cache.

Lemma resolve_valid now host net cache ip :
  arrays_sized → cache_valid cache → (resolve now host net cache).1.1 = Ok ip → valid_ip ip.
Proof.
  intros Hs Hc. unfold resolveDNS_run, cached.
  assert (Hatt : ∀ n i e, (attempts Unpack NewName Pack NewRequest n host net i cache e).1.1 = Ok ip →
                          valid_ip ip).
  { induction n as [|n IH]; intros i e H; cbn in H; [done|].
    destruct (try_once host (net i)) as [[ip' ttl]|e'|] eqn:Ht; [| |done].
    - injection H as ->. by eapply try_once_valid.
    - destruct (shouldRetryDoH _ _); [by eapply IH|done]. }
  destruct (cache !! host) as [e|] eqn:Hl; [|apply Hatt].
  case_decide; [|apply Hatt]. intros [= <-]. by apply (Hc host e).
Qed.
End facts.

(** The resolver the front end is given: resolution against a cache and a network. *)
Section instance.
  Context (Unpack : list byte → option message)
          (NewName : gostring → bool) (Pack : gostring → qtype → bool) (NewRequest : bool)
          (Hs : arrays_sized Unpack)
          (cache : dnsCache) (Hc : cache_valid cache)
          (now : Z) (net : gostring → nat → attempt).

Definition doh_resolver : Resolver dns_error := {|
  resolveDNS host :=
    (resolveDNS_run Unpack NewName Pack NewRequest now host (net host) cache).1.1;
  resolveDNS_valid host ip :=
    resolve_valid Unpack NewName Pack NewRequest now host (net host) cache ip Hs Hc
|}.
End instance.

(** ** The single flight *)
Section flight_facts.
  Context {R : Type}.
  Implicit Types s : flights R.

(** The flight a caller is responsible for. *)
Definition leads (pc : caller_pc R) : option nat :=
  match pc with PLead f | PPublished f _ => Some f | _ => None end.

Record flight_wf s : Prop := FlightWf {
  (** a registered flight has a leader for that host *)
  fw_led : ∀ h f, dnsFlight s !! h = Some f →
             ∃ i pc, callers s !! i = Some (h, pc) ∧ leads pc = Some f;
  (** and every leader's flight is registered *)
  fw_leader : ∀ i h pc f, callers s !! i = Some (h, pc) → leads pc = Some f →
                dnsFlight s !! h = Some f;
  (** flights are numbered apart *)
  fw_one : ∀ i j h pc pc' f, callers s !! i = Some (h, pc) → callers s !! j = Some (h, pc') →
             leads pc = Some f → leads pc' = Some f → i = j;
  fw_fresh : ∀ f, is_Some (done s !! f) → (f < fresh_id s)%nat;
  (** a flight that is not done is being resolved *)
  fw_open : ∀ f, done s !! f = Some None → ∃ i h, callers s !! i = Some (h, PLead f);
  fw_lead_open : ∀ i h f, callers s !! i = Some (h, PLead f) → done s !! f = Some None;
  fw_published : ∀ i h f r, callers s !! i = Some (h, PPublished f r) → done s !! f = Some (Some r);
  fw_wait : ∀ i h f, callers s !! i = Some (h, PWait f) → is_Some (done s !! f);
  fw_known : ∀ h f, dnsFlight s !! h = Some f → is_Some (done s !! f);
  fw_host : ∀ h h' f, dnsFlight s !! h = Some f → dnsFlight s !! h' = Some f → h = h'
}.

Lemma flight_wf_init : flight_wf (@no_flights R).
Proof. split; cbn; try done; intros; by apply lookup_empty_Some in H || (destruct H; done) || done. Qed.

(** Case analysis on a lookup in an updated map. *)
Ltac upd :=
  repeat match goal with
  | H : <[_ := _]> _ !! _ = Some _ |- _ =>
      apply lookup_insert_Some in H; destruct H as [[? ?]|[? H]]; simplify_eq/=
  | H : delete _ _ !! _ = Some _ |- _ => apply lookup_delete_Some in H; destruct H as [? H]; simplify_eq/=
  end.

(** A caller that leads nothing moves to a point where it leads nothing. *)
Lemma wf_idle s i h pc :
  flight_wf s →
  (∀ h' pc', callers s !! i = Some (h', pc') → leads pc' = None) →
  leads pc = None → (∀ f, pc = PWait f → is_Some (done s !! f)) →
  flight_wf (set_pc i h pc s).
Proof.
  intros [Hl Hd H1 Hf Ho Hlo Hp Hw Hk Hh] Hold Hnew Hwait.
  assert (Hne : ∀ j h' pc' f, callers s !! j = Some (h', pc') → leads pc' = Some f → j ≠ i)
    by (intros j h' pc' f Hj Hpc ->; specialize (Hold _ _ Hj); congruence).
  split; cbn; try done.
  - intros h' f Hf'. destruct (Hl h' f Hf') as (j & pc' & Hj & Hpc).
    exists j, pc'. split; [|done]. rewrite lookup_insert_ne; eauto using not_eq_sym.
  - intros j h' pc' f Hj Hpc. upd; eauto.
  - intros j k h' pc1 pc2 f Hj Hk' Hp1 Hp2. upd; eauto.
  - intros f Hf'. destruct (Ho f Hf') as (j & h' & Hj). exists j, h'.
    rewrite lookup_insert_ne; [done|]. intros ->. by specialize (Hold _ _ Hj).
  - intros j h' f Hj. upd; eauto.
  - intros j h' f r Hj. upd; eauto.
  - intros j h' f Hj. upd; eauto.
Qed.

Lemma wf_enter s i h :
  flight_wf s → callers s !! i = Some (h, PLookup) → dnsFlight s !! h = None →
  let f := fresh_id s in
  flight_wf (set_pc i h (PLead f)
    (Flights (<[h := f]> (dnsFlight s)) (<[f := None]> (done s)) (S f) (callers s))).
Proof.
  intros [Hl Hd H1 Hf Ho Hlo Hp Hw Hk Hh] Hi Hn f.
  change (∀ g, is_Some (done s !! g) → (g < f)%nat) in Hf. clearbody f.
  assert (Hold : ∀ g, is_Some (done s !! g) → g ≠ f) by (intros g Hg; specialize (Hf g Hg); lia).
  split; cbn.
  - intros h' g Hg. upd; [by eexists i, _; rewrite lookup_insert_eq|].
    destruct (Hl h' g) as (j & pc' & Hj & Hpc); [done|]. exists j, pc'. split; [|done].
    rewrite lookup_insert_ne; [done|]. intros ->. rewrite Hi in Hj. by simplify_eq/=.
  - intros j h' pc g Hj Hpc. upd; [by rewrite lookup_insert_eq|].
    specialize (Hd _ _ _ _ Hj Hpc). rewrite lookup_insert_ne; [done|]. intros <-. congruence.
  - intros j k h' pc1 pc2 g Hj Hk' Hp1 Hp2. upd; try done.
    + specialize (Hd _ _ _ _ Hj Hp1). congruence.
    + specialize (Hd _ _ _ _ Hk' Hp2). congruence.
    + eauto.
  - intros g Hg. destruct (decide (g = f)) as [->|]; [lia|].
    rewrite lookup_insert_ne in Hg by done. specialize (Hf g Hg). lia.
  - intros g Hg. upd; [by eexists i, _; rewrite lookup_insert_eq|].
    destruct (Ho g) as (j & h' & Hj); [done|]. exists j, h'.
    rewrite lookup_insert_ne; [done|]. intros ->. by rewrite Hi in Hj.
  - intros j h' g Hj. upd; [by rewrite lookup_insert_eq|].
    specialize (Hlo _ _ _ Hj). by rewrite lookup_insert_ne by (apply not_eq_sym, Hold; eauto).
  - intros j h' g r Hj. upd. specialize (Hp _ _ _ _ Hj).
    by rewrite lookup_insert_ne by (apply not_eq_sym, Hold; eauto).
  - intros j h' g Hj. upd. specialize (Hw _ _ _ Hj).
    by rewrite lookup_insert_ne by (apply not_eq_sym, Hold; eauto).
  - intros h' g Hg. upd; [rewrite lookup_insert_eq; eauto|]. 
    match goal with H : dnsFlight s !! _ = Some _ |- _ => apply Hk in H end.
    by rewrite lookup_insert_ne by (apply not_eq_sym, Hold; eauto).
  - intros h1 h2 g Hg1 Hg2. upd; eauto; apply Hk in Hg1 || apply Hk in Hg2; by apply Hold in Hg1 || apply Hold in Hg2.
Qed.

Lemma wf_publish s i h f r :
  flight_wf s → callers s !! i = Some (h, PLead f) →
  flight_wf (set_pc i h (PPublished f r)
    (Flights (dnsFlight s) (<[f := Some r]> (done s)) (fresh_id s) (callers s))).
Proof.
  intros [Hl Hd H1 Hf Ho Hlo Hp Hw Hk Hh] Hi. pose proof (Hd _ _ _ _ Hi eq_refl) as Hreg.
  assert (Huniq : ∀ j h' pc, callers s !! j = Some (h', pc) → leads pc = Some f → j = i).
  { intros j h' pc Hj Hpc. pose proof (Hd _ _ _ _ Hj Hpc) as Hreg'.
    assert (h' = h) as -> by by eapply Hh. by eapply H1. }
  assert (Hdone : ∀ g, is_Some (done s !! g) → is_Some (<[f:=Some r]> (done s) !! g)).
  { intros g Hg. destruct (decide (g = f)) as [->|]; [rewrite lookup_insert_eq; eauto|].
    by rewrite lookup_insert_ne. }
  split; cbn.
  - intros h' g Hg. destruct (Hl h' g Hg) as (j & pc' & Hj & Hpc).
    destruct (decide (j = i)) as [->|]; [|exists j, pc'; by rewrite lookup_insert_ne].
    rewrite Hi in Hj. simplify_eq/=. by eexists i, _; rewrite lookup_insert_eq.
  - intros j h' pc g Hj Hpc. upd; eauto.
  - intros j k h' pc1 pc2 g Hj Hk' Hp1 Hp2. upd; try done.
    + by eapply Huniq.
    + symmetry. by eapply Huniq.
    + by eapply H1.
  - intros g Hg. apply Hf. destruct (decide (g = f)) as [->|]; [eauto|].
    by rewrite lookup_insert_ne in Hg.
  - intros g Hg. upd. destruct (Ho g Hg) as (j & h' & Hj). exists j, h'.
    rewrite lookup_insert_ne; [done|]. intros ->. rewrite Hi in Hj. by simplify_eq.
  - intros j h' g Hj. upd. specialize (Hlo _ _ _ Hj). rewrite lookup_insert_ne; [done|].
    intros ->. by specialize (Huniq j h' _ Hj eq_refl).
  - intros j h' g r' Hj. upd; [by rewrite lookup_insert_eq|]. specialize (Hp _ _ _ _ Hj).
    rewrite lookup_insert_ne; [done|]. intros ->. by specialize (Huniq j h' _ Hj eq_refl).
  - intros j h' g Hj. upd. eauto.
  - eauto.
  - done.
Qed.

Lemma wf_cleanup s i h f r :
  flight_wf s → callers s !! i = Some (h, PPublished f r) →
  flight_wf (set_pc i h (PReturn r)
    (Flights (delete h (dnsFlight s)) (done s) (fresh_id s) (callers s))).
Proof.
  intros [Hl Hd H1 Hf Ho Hlo Hp Hw Hk Hh] Hi. pose proof (Hd _ _ _ _ Hi eq_refl) as Hreg.
  assert (Huniq : ∀ j pc g, callers s !! j = Some (h, pc) → leads pc = Some g → j = i).
  { intros j pc g Hj Hpc. pose proof (Hd _ _ _ _ Hj Hpc) as Hreg'.
    assert (g = f) as -> by congruence. by eapply H1. }
  split; cbn; try done.
  - intros h' g Hg. upd. destruct (Hl h' g Hg) as (j & pc' & Hj & Hpc).
    exists j, pc'. split; [|done]. rewrite lookup_insert_ne; [done|].
    intros ->. rewrite Hi in Hj. by simplify_eq.
  - intros j h' pc g Hj Hpc. upd. rewrite lookup_delete_ne; [by eapply Hd|].
    intros ->. by specialize (Huniq _ _ _ Hj Hpc).
  - intros j k h' pc1 pc2 g Hj Hk' Hp1 Hp2. upd. by eapply H1.
  - intros g Hg. destruct (Ho g Hg) as (j & h' & Hj). exists j, h'.
    rewrite lookup_insert_ne; [done|]. intros ->. rewrite Hi in Hj. by simplify_eq.
  - intros j h' g Hj. upd. eauto.
  - intros j h' g r' Hj. upd. eauto.
  - intros j h' g Hj. upd. eauto.
  - intros h' g Hg. upd. eauto.
  - intros h1 h2 g Hg1 Hg2. upd. eauto.
Qed.

Lemma flight_wf_step l s s' : flight_wf s → flight_step l s = Some s' → flight_wf s'.
Proof.
  intros Hwf Hs. destruct l as [i h|i|i r|i|i|i]; cbn in Hs;
    destruct (callers s !! i) as [[h' pc]|] eqn:Hi; try done.
  - injection Hs as <-. apply wf_idle; try done. intros ? ?. by rewrite Hi.
  - destruct pc; try done. destruct (dnsFlight s !! h') as [f|] eqn:Hf; injection Hs as <-.
    + apply wf_idle; try done; [intros ? ?; rewrite Hi; by intros [= <- <-]|].
      intros g [= <-]. by eapply fw_known.
    + by apply wf_enter.
  - destruct pc; try done. injection Hs as <-. by apply wf_publish.
  - destruct pc; try done. injection Hs as <-. by eapply wf_cleanup.
  - destruct pc as [| | |f| |]; try done. destruct (done s !! f) as [[r|]|]; try done.
    injection Hs as <-. apply wf_idle; try done. intros ? ?. rewrite Hi. by intros [= <- <-].
  - destruct pc; try done. injection Hs as <-. apply wf_idle; try done.
    intros ? ?. rewrite Hi. by intros [= <- <-].
Qed.

Lemma flight_reach_wf s : flight_reach s → flight_wf s.
Proof.
  intros Hr. eapply rtc_invariant; [|exact flight_wf_init|exact Hr].
  intros x y Hx (l & Hl). by eapply flight_wf_step.
Qed.
End flight_facts.

(** ** Properties *)

(** C30: [parseDoHAnswer] returns exactly the first record of the requested family
    of a successful response, whatever other records precede it; its lifetime is
    the record's TTL clamped to [5 s, 5 min], without overflow for any 32-bit TTL. *)
Theorem doh_answer_correct Unpack body qt ip ttl :
  (parseDoHAnswer Unpack body qt = Ok (ip, ttl) ↔
   ∃ msg pre ans post, Unpack body = Some msg ∧ rcode msg = RCodeSuccess ∧
     answers msg = pre ++ ans :: post ∧ Forall (λ a, of_type qt a = None) pre ∧
     of_type qt ans = Some ip ∧ ttl = clampTTL (ans_ttl ans)) ∧
  (∀ t, 0 <= t < 2 ^ 32 → clampTTL t = Z.max dohMinTTL (Z.min dohMaxTTL (t * Second))).
Proof.
  split; [|intros; by apply clampTTL_spec]. unfold parseDoHAnswer. split.
  - destruct (Unpack body) as [msg|]; [|done].
    destruct (bool_decide (rcode msg = RCodeSuccess)) eqn:Hr; [|done].
    apply bool_decide_eq_true in Hr. cbn.
    destruct (first_answer qt (answers msg)) as [res|] eqn:Hf; [|done]. intros [= ->].
    apply first_answer_spec in Hf as (pre & ans & post & ip' & Hl & Hpre & Hip & [= -> ->]).
    by exists msg, pre, ans, post.
  - intros (msg & pre & ans & post & -> & Hr & Hl & Hpre & Hip & ->).
    rewrite bool_decide_eq_true_2 by done. cbn.
    assert (first_answer qt (answers msg) = Some (ip, clampTTL (ans_ttl ans))) as ->; [|done].
    apply first_answer_spec. eauto 10.
Qed.

Lemma doh_answer_correct_witness : clampTTL 1 = 5000000000.
Proof. rewrite (proj2 (doh_answer_correct (λ _, None) [] TypeA [] 0)); [by vm_compute|done]. Defined.

(** One update of the cache. *)
Definition update : Type := Z * Z * gostring * list byte * Z.
Definition apply_update (cache : dnsCache) (u : update) : dnsCache :=
  let '(now, now', host, ip, ttl) := u in cacheResolution now now' host ip ttl cache.

(** C39: however many resolutions are cached, the cache never holds more than
    [dnsCacheMaxEntries] names; right after an update the name resolves, until its
    lifetime is over, to the address stored; every other name resolves to what it
    did before or not at all, and still does if it was live and the sweep left the
    cache under its cap. *)
Theorem dns_cache_correct (us : list update) now now' host ip ttl :
  let cache := fold_left apply_update us ∅ in
  let cache' := cacheResolution now now' host ip ttl cache in
  (size cache' <= dnsCacheMaxEntries)%nat ∧
  (∀ t, cached t host cache' = if decide (t < now' + ttl) then Some ip else None) ∧
  (∀ t host', host' ≠ host →
     (cached t host' cache' = cached t host' cache ∨ cached t host' cache' = None) ∧
     (now <= t → (size (sweep now cache) < dnsCacheMaxEntries)%nat →
      cached t host' cache' = cached t host' cache)).
Proof.
  intros cache cache'.
  assert (Hs : (size cache <= dnsCacheMaxEntries)%nat).
  { subst cache. clear. induction us as [|u us IH] using rev_ind; [cbn; rewrite map_size_empty; lia|].
    rewrite fold_left_app. destruct u as [[[[? ?] ?] ?] ?]. cbn. by apply cacheResolution_size. }
  split; [by apply cacheResolution_size|]. split.
  { intros t. unfold cached, cache', cacheResolution. rewrite lookup_insert_eq. cbn. done. }
  intros t host' Hne. unfold cached. destruct (cache' !! host') as [e|] eqn:Hl.
  - apply cacheResolution_lookup in Hl as [[-> _]|[_ Hl]]; [done|]. rewrite Hl. auto.
  - split; [auto|]. intros Ht Hsz. destruct (cache !! host') as [e|] eqn:Hc; [|done].
    case_decide as Hlive; [|done]. exfalso.
    unfold cache' in Hl. rewrite (cacheResolution_keeps _ _ _ _ _ _ _ e) in Hl; try done. lia.
Qed.

Lemma dns_cache_correct_witness :
  cached 1 (str "b") (cacheResolution 0 0 (str "a") (IPv4 x01 x01 x01 x01) 7
    (fold_left apply_update [(0, 0, str "b", IPv4 x02 x02 x02 x02, 9)] ∅))
  = cached 1 (str "b") (fold_left apply_update [(0, 0, str "b", IPv4 x02 x02 x02 x02, 9)] ∅).
Proof.
  apply (dns_cache_correct [(0, 0, str "b", IPv4 x02 x02 x02 x02, 9)] 0 0 (str "a")
    (IPv4 x01 x01 x01 x01) 7); [done|done|].
  apply (bool_decide_unpack _). by vm_compute.
Defined.

(** [dnsQuery] prefers the A answer whichever question is answered first; an
    AAAA answer is used exactly when the A question failed; when both fail the
    error is a transport error -- the only kind that is retried -- exactly if one
    of them was; and the shared connection is retired exactly on a transport
    failure.  (An AAAA record that is an IPv4-mapped address is taken for IPv4.) *)
Theorem dns_query_prefers_ipv4 Unpack NewName Pack NewRequest host rt4 rt6 :
  let query := dnsQuery Unpack NewName Pack NewRequest true host rt4 rt6 in
  let r4 := fst (dnsQueryType Unpack NewName Pack NewRequest host TypeA rt4) in
  let r6 := fst (dnsQueryType Unpack NewName Pack NewRequest host TypeAAAA rt6) in
  arrays_sized Unpack → v4_answer r6 = false →
  (∀ a_first, snd (query a_first) = transport_failed r4 || transport_failed r6) ∧
  match r4, r6 with
  | Ok r, _ => ∀ a_first, fst (query a_first) = Ok r
  | _, Ok r => ∀ a_first, fst (query a_first) = Ok r
  | _, _ => ∀ a_first, ∃ e, fst (query a_first) = Err e ∧
                         is_transport e = transport_failed r4 || transport_failed r6
  end.
Proof.
  intros query r4 r6 Hsz H6. subst query r4 r6. unfold dnsQuery. cbn [negb].
  destruct (query_type_sound Unpack NewName Pack NewRequest host TypeA rt4) as (Hp4 & Ht4 & Hl4).
  destruct (query_type_sound Unpack NewName Pack NewRequest host TypeAAAA rt6) as (Hp6 & Ht6 & _).
  destruct (dnsQueryType _ _ _ _ host TypeA rt4) as [r4 i4].
  destruct (dnsQueryType _ _ _ _ host TypeAAAA rt6) as [r6 i6]. cbn [fst snd] in *.
  assert (Hinv : ∀ r i, (i = true ↔ r = Err DoHTransport) → i = transport_failed r).
  { intros r i Hi. apply eq_true_iff_eq. rewrite Hi. unfold transport_failed, is_transport.
    destruct r as [?|e|]; rewrite ?bool_decide_eq_true; split; congruence. }
  split; [intros _; by rewrite (Hinv r4 i4), (Hinv r6 i6)|].
  pose proof (collect_swap r4 r6 H6 Hp4 Hp6) as Hc.
  specialize (Hc ltac:(intros ip ttl Hr; eapply To4_of_A, Hl4; eauto)).
  destruct r4 as [r|e4|]; [destruct Hc; by intros []| |done].
  destruct r6 as [r|e6|]; [destruct Hc; by intros []| |done].
  destruct Hc as (e & e' & H1 & H2 & He & Heq). intros []; [by exists e|exists e'; by rewrite <- He].
Qed.

Lemma dns_query_prefers_ipv4_witness :
  let Unpack := λ body : list byte, Some (Build_message 0 [Build_answer 60 (
    if decide (body = []) then AAAAResource IPv6loopback else AResource [x01; x01; x01; x01])]) in
  fst (dnsQuery Unpack (λ _, true) (λ _ _, true) true true (str "a") (Response 200 [x00])
    (Response 200 []) false) = Ok ([x01; x01; x01; x01], 60 * Second).
Proof.
  intros Unpack.
  refine (proj2 (dns_query_prefers_ipv4 Unpack (λ _, true) (λ _ _, true) true (str "a")
    (Response 200 [x00]) (Response 200 []) _ _) false); [|by vm_compute].
  intros body msg ans [= <-]. cbn. intros ->%list_elem_of_singleton. cbn. by case_decide.
Defined.

(** resolution makes no query for a cached name, and otherwise one or two; the
    second only if the first was a transport failure while the caller's context was
    live; it caches exactly what it returns, and an error leaves the cache alone. *)
Theorem dns_resolution_retries_once Unpack NewName Pack NewRequest now host net cache :
  let try i := try_once Unpack NewName Pack NewRequest host (net i) in
  let '(r, cache', queries) := resolveDNS_run Unpack NewName Pack NewRequest now host net cache in
  (queries <= 2)%nat ∧
  (∀ ip, cached now host cache = Some ip ↔ queries = 0%nat ∧ r = Ok ip) ∧
  (queries = 2%nat ↔ cached now host cache = None ∧ try 0%nat = Err DoHTransport ∧
                     at_ctx_live (net 0%nat) = true) ∧
  (queries ≠ 0%nat →
     match try (pred queries) with
     | Ok (ip, ttl) => r = Ok ip ∧ cache' = cacheResolution (at_now (net (pred queries)))
                         (at_now' (net (pred queries))) host ip ttl cache
     | Err e => r = Err e ∧ cache' = cache
     | Panic => False
     end) ∧
  (queries = 0%nat → cache' = cache).
Proof.
  intros try. unfold resolveDNS_run.
  destruct (cached now host cache) as [ip|] eqn:Hc; [split_and!; try done; try lia; [intros ?; split; [by intros [= ->]|by intros [_ [= ->]]]|split; [done|by intros [? _]]]|].
  cbn [attempts]. fold (try 0%nat). fold (try 1%nat).
  pose proof (try_once_not_panic Unpack NewName Pack NewRequest host (net 0%nat)) as H0.
  pose proof (try_once_not_panic Unpack NewName Pack NewRequest host (net 1%nat)) as H1.
  fold (try 0%nat) in H0. fold (try 1%nat) in H1.
  destruct (try 0%nat) as [[ip ttl]|e|] eqn:E0; [| |done].
  { cbn. rewrite E0. split_and!; naive_solver lia. }
  unfold shouldRetryDoH, is_transport. destruct (bool_decide (e = DoHTransport)) eqn:Ht; cbn [andb].
  2:{ apply bool_decide_eq_false in Ht. cbn. rewrite E0. split_and!; naive_solver lia. }
  apply bool_decide_eq_true in Ht as ->.
  destruct (at_ctx_live (net 0%nat)) eqn:Hlive; [|cbn; rewrite E0; split_and!; naive_solver lia].
  destruct (try 1%nat) as [[ip ttl]|e|] eqn:E1; [| |done].
  - cbn. rewrite E1. split_and!; naive_solver lia.
  - destruct (_ && _); cbn; rewrite E1; split_and!; naive_solver lia.
Qed.

(** C29: concurrent lookups of a name make one resolution: in every reachable state
    a host has at most one leader; a waiting caller's flight is either closed, so
    the caller can return the leader's result, or still led by a caller that is
    resolving; a result once published never changes; and a registered flight
    always has a leader that will remove it, so no later caller waits in vain. *)
Theorem dns_single_flight {R} (s : flights R) :
  flight_reach s →
  (∀ i j h pc pc', callers s !! i = Some (h, pc) → callers s !! j = Some (h, pc') →
     is_Some (leads pc) → is_Some (leads pc') → i = j) ∧
  (∀ i h f, callers s !! i = Some (h, PWait f) →
     (∃ r, done s !! f = Some (Some r) ∧
           flight_step (Wake i) s = Some (set_pc i h (PReturn r) s)) ∨
     ∃ j h', callers s !! j = Some (h', PLead f)) ∧
  (∀ f r l s', done s !! f = Some (Some r) → flight_step l s = Some s' →
     done s' !! f = Some (Some r)) ∧
  (∀ h f, dnsFlight s !! h = Some f → ∃ i pc, callers s !! i = Some (h, pc) ∧ leads pc = Some f).
Proof.
  intros Hwf%flight_reach_wf. split_and!.
  - intros i j h pc pc' Hi Hj [f Hf] [f' Hf'].
    pose proof (fw_leader _ Hwf _ _ _ _ Hi Hf). pose proof (fw_leader _ Hwf _ _ _ _ Hj Hf').
    assert (f' = f) as -> by congruence. by eapply (fw_one _ Hwf).
  - intros i h f Hi. destruct (fw_wait _ Hwf _ _ _ Hi) as [[r|] Hd].
    + left. exists r. split; [done|]. cbn. by rewrite Hi, Hd.
    + right. by apply (fw_open _ Hwf).
  - intros f r l s' Hd Hs. destruct l as [i h|i|i r'|i|i|i]; cbn in Hs;
      destruct (callers s !! i) as [[h' pc]|] eqn:Hi; try done; try destruct pc; try done;
      try (by injection Hs as <-).
    + destruct (dnsFlight s !! h'); injection Hs as <-; [done|]. cbn.
      rewrite lookup_insert_ne; [done|]. pose proof (fw_fresh _ Hwf f). specialize (H ltac:(eauto)). lia.
    + injection Hs as <-. cbn. rewrite lookup_insert_ne; [done|].
      intros <-. pose proof (fw_lead_open _ Hwf _ _ _ Hi). congruence.
    + destruct (done s !! f0) as [[]|]; try done; by injection Hs as <-.
  - apply Hwf.
Qed.

(** Two callers of one name: the second waits for the first. *)
Definition two_callers : flights Z :=
  set_pc 1 (str "a") (PWait 0) (set_pc 1 (str "a") PLookup
    (set_pc 0 (str "a") (PLead 0) (Flights {[str "a" := 0%nat]} {[0%nat := None]} 1 {[0%nat := (str "a", PLookup)]}))).

Lemma two_callers_reach : flight_reach two_callers.
Proof.
  eapply rtc_l; [by exists (Arrive 0 (str "a"))|]. eapply rtc_l; [by exists (Enter 0)|].
  eapply rtc_l; [by exists (Arrive 1 (str "a"))|]. eapply rtc_l; [by exists (Enter 1)|].
  apply rtc_refl.
Qed.

Lemma dns_single_flight_witness : ∃ j h', callers two_callers !! j = Some (h', PLead 0).
Proof.
  destruct (proj1 (proj2 (dns_single_flight two_callers two_callers_reach)) 1%nat (str "a") 0%nat)
    as [(r & Hr & _)|H]; [by vm_compute| |exact H].
  exfalso. vm_compute in Hr. discriminate Hr.
Defined.
