(* ===== verification/Masque.v ===== *)
(** * The H3 client's connection (src/tunnel/masque.go)

    Dialling the edge ([dial], [dialAddr]), and the shared connection: the
    goroutines that open streams on it, reconnect it and close it, as a transition
    system over [MasqueClient]'s fields.  QUIC and HTTP/3 are third-party code:
    what their calls return is a parameter or a choice of the environment. *)

From Stdlib Require Import Init.Byte.
From S2P Require Import Prelude GoNet GoNetFacts.

(** ** Dialling *)

(** The errors in a wrapped chain that the code tells apart with [errors.Is]. *)
Inductive dial_cause :=
  | ENETUNREACH | EAFNOSUPPORT | EHOSTUNREACH
  | ResolveFailed | ListenFailed | QuicFailed | SetupFailed | CtxCanceled | SettingsTimeout
  | OtherCause.

#[export] Instance dial_cause_eq_dec : EqDecision dial_cause.
Proof. solve_decision. Defined.

Definition errors_Is (err : list dial_cause) (target : dial_cause) : bool :=
  bool_decide (target ∈ err).

Definition unroutableFamily (err : list dial_cause) : bool :=
  errors_Is err ENETUNREACH || errors_Is err EAFNOSUPPORT || errors_Is err EHOSTUNREACH.

(** What a connection attempt acquires and gives back. *)
Inductive resource := UdpConn | QuicTransport | QuicConn | H3Transport.

#[export] Instance resource_eq_dec : EqDecision resource.
Proof. solve_decision. Defined.

(** [connBundle]: which of its parts are set. *)
Record connBundle := {
  udpConn : bool; qtr : bool; quicConn : bool; h3Trans : bool
}.

(** [connBundle.close], in dependency order; a nil bundle is [None]. *)
Definition bundle_close (b : option connBundle) : list (res_event resource) :=
  match b with
  | None => []
  | Some b =>
      (if h3Trans b then [Released H3Transport] else []) ++
      (if quicConn b then [Released QuicConn] else []) ++
      (if qtr b then [Released QuicTransport] else []) ++
      (if udpConn b then [Released UdpConn] else [])
  end.

(** How the [select] on the HTTP/3 SETTINGS ends. *)
Inductive setup_end := GotSettings | ConnGone (cause : list dial_cause) | CtxGone | TimerFired.

(** The local address the socket is bound to: the edge's family. *)
Definition listenAddr (edge : list byte) : list byte :=
  match To4 edge with None => IPv6zero | Some _ => IPv4zero end.

Section dialAddr.
  (** [net.ResolveUDPAddr], [net.ListenUDP], [Transport.Dial], and the select. *)
  Context (ResolveUDPAddr : gostring → option (list byte))
          (ListenUDP : list byte → option (list dial_cause))
          (Dial : gostring → option (list dial_cause))
          (setup : gostring → setup_end).

Definition dialAddr (edgeAddr : gostring)
    : outcome (list dial_cause) connBundle * list (res_event resource) :=
  match ResolveUDPAddr edgeAddr with
  | None => (Err [ResolveFailed], [])
  | Some ip =>
      match ListenUDP (listenAddr ip) with
      | Some err => (Err (ListenFailed :: err), [])
      | None =>
          let opened := [Acquired UdpConn; Acquired QuicTransport] in
          match Dial edgeAddr with
          | Some err =>
              (Err (QuicFailed :: err), opened ++ [Released QuicTransport; Released UdpConn])
          | None =>
              let opened := opened ++ [Acquired QuicConn; Acquired H3Transport] in
              let b := {| udpConn := true; qtr := true; quicConn := true; h3Trans := true |} in
              match setup edgeAddr with
              | GotSettings => (Ok b, opened)
              | ConnGone cause => (Err (SetupFailed :: cause), opened ++ bundle_close (Some b))
              | CtxGone => (Err [CtxCanceled], opened ++ bundle_close (Some b))
              | TimerFired => (Err [SettingsTimeout], opened ++ bundle_close (Some b))
              end
          end
      end
  end.
End dialAddr.

Section dial.
  Context {B : Type}.
  (** The attempt at a candidate, which is made once, and whether the context is live
      after it. *)
  Context (attempt : nat → gostring → outcome (list dial_cause) B) (ctx_live : nat → bool)
          (edgeAddrs : list gostring).

(** The loop of [dial]: attempt [i] of [n], [fuel] attempts left.  The result is
    the connection, the new [addrIdx], and the indices tried. *)
Fixpoint dial_loop (fuel i addrIdx : nat) : option B * nat * list nat :=
  match fuel with
  | O => (None, addrIdx, [])
  | S fuel =>
      let n := length edgeAddrs in
      let idx := (addrIdx + i) mod n in
      match edgeAddrs !! idx with
      | None => (None, addrIdx, [])
      | Some addr =>
          match attempt idx addr with
          | Ok b => (Some b, idx, [idx])
          | Err err =>
              if negb (ctx_live idx) then (None, addrIdx, [idx])
              else if unroutableFamily err then (None, addrIdx, [idx])
              else
                let '(r, new, tried) := dial_loop fuel (S i) addrIdx in (r, new, idx :: tried)
          | Panic => (None, addrIdx, [idx])
          end
      end
  end.

Definition dial (addrIdx : nat) : option B * nat * list nat :=
  dial_loop (length edgeAddrs) 0 addrIdx.
End dial.

(** ** The shared connection *)
Module Client.

Section Client.

(** A goroutine in [openRequestStream] and, inside it, in [reconnect]; [Err] and
    [Opened] are its returns. *)
Inductive pc :=
  | Start                            (** about to call [currentConnection] *)
  | OpenOn (b : nat)                 (** opening a stream on the bundle it got *)
  | WantLock (stale : option nat)    (** [reconnect]: before [reconnectMu] *)
  | Check (stale : option nat)       (** holding it *)
  | Dialing
  | Install (b : nat)                (** dialled; before [connMu] *)
  | Abandon (b : nat)                (** closed meanwhile: close the new bundle *)
  | CloseOld (b : option nat)        (** installed: close the replaced bundle *)
  | Invalidate                       (** [invalidateDoH(nil)] *)
  | Unlock (ok : bool)               (** deferred unlock, and the result *)
  | Again                            (** [currentConnection] after the reconnect *)
  | OpenAgain (b : nat)
  | Opened | Failed.

(** [Close]: before [closeOnce], after [invalidateDoH], with the bundle to close. *)
Inductive close_pc := NotClosing | Invalidated | CloseBundle (b : option nat) | Closed.

(** The fields of [MasqueClient], the bundles ever dialled ([true] while open,
    [false] once closed), those whose QUIC connection is dead, and the goroutines. *)
Record client := Cli {
  cur : option nat;
  closed : bool;
  holder : option nat;               (** of [reconnectMu] *)
  bundles : gmap nat bool;
  dead : gset nat;
  fresh_id : nat;
  threads : gmap nat pc;
  closer : close_pc
}.

(** After [NewMasqueClientContext]. *)
Definition start : client := Cli (Some 0) false None {[0 := true]} ∅ 1 ∅ NotClosing.

(** [currentConnection] *)
Definition currentConnection (c : client) : option nat :=
  if closed c then None
  else match cur c with
       | None => None
       | Some b => if decide (b ∈ dead c) then None else Some b
       end.

Definition at_pc (i : nat) (p : pc) (c : client) : client :=
  Cli (cur c) (closed c) (holder c) (bundles c) (dead c) (fresh_id c) (<[i := p]> (threads c)) (closer c).

Definition set_holder (h : option nat) (c : client) : client :=
  Cli (cur c) (closed c) h (bundles c) (dead c) (fresh_id c) (threads c) (closer c).

(** [bundle.close] on a bundle or on nil. *)
Definition close_bundle (b : option nat) (c : client) : client :=
  match b with
  | None => c
  | Some b => Cli (cur c) (closed c) (holder c) (<[b := false]> (bundles c)) ({[b]} ∪ dead c)
                  (fresh_id c) (threads c) (closer c)
  end.

Inductive label :=
  | Call (i : nat)                   (** a goroutine calls [openRequestStream] *)
  | Go (i : nat) (ok live : bool)    (** its next step; does the call succeed, is its context live *)
  | Die (b : nat)                    (** the QUIC connection dies *)
  | CloseCall                        (** a step of [Close] *).

Definition thread_step (i : nat) (ok live : bool) (p : pc) (c : client) : option client :=
  match p with
  | Start =>
      match currentConnection c with
      | Some b => Some (at_pc i (OpenOn b) c)
      | None => Some (at_pc i (WantLock None) c)
      end
  | OpenOn b =>
      if ok then Some (at_pc i Opened c)
      else if live then Some (at_pc i (WantLock (Some b)) c)
      else Some (at_pc i Failed c)
  | WantLock stale =>
      match holder c with
      | None => Some (at_pc i (Check stale) (set_holder (Some i) c))
      | Some _ => None
      end
  | Check stale =>
      match currentConnection c with
      | None => Some (at_pc i Dialing c)
      | Some current =>
          if decide (Some current = stale) then Some (at_pc i Dialing c)
          else Some (at_pc i (Unlock true) c)
      end
  | Dialing =>
      if ok then
        let b := fresh_id c in
        Some (at_pc i (Install b)
          (Cli (cur c) (closed c) (holder c) (<[b := true]> (bundles c)) (dead c) (S b) (threads c) (closer c)))
      else Some (at_pc i (Unlock false) c)
  | Install b =>
      if closed c then Some (at_pc i (Abandon b) c)
      else Some (at_pc i (CloseOld (cur c))
             (Cli (Some b) (closed c) (holder c) (bundles c) (dead c) (fresh_id c) (threads c) (closer c)))
  | Abandon b => Some (at_pc i (Unlock false) (close_bundle (Some b) c))
  | CloseOld b => Some (at_pc i Invalidate (close_bundle b c))
  | Invalidate => Some (at_pc i (Unlock true) c)
  | Unlock r => Some (at_pc i (if r then Again else Failed) (set_holder None c))
  | Again =>
      match currentConnection c with
      | Some b => Some (at_pc i (OpenAgain b) c)
      | None => Some (at_pc i Failed c)
      end
  | OpenAgain _ => Some (at_pc i (if ok then Opened else Failed) c)
  | Opened | Failed => None
  end.

Definition set_closer (p : close_pc) (c : client) : client :=
  Cli (cur c) (closed c) (holder c) (bundles c) (dead c) (fresh_id c) (threads c) p.

(** [Close], run once: [invalidateDoH(nil)], the critical section, the close. *)
Definition close_step (c : client) : option client :=
  match closer c with
  | NotClosing => Some (set_closer Invalidated c)
  | Invalidated =>
      Some (Cli None true (holder c) (bundles c) (dead c) (fresh_id c) (threads c)
                (CloseBundle (cur c)))
  | CloseBundle b => Some (set_closer Closed (close_bundle b c))
  | Closed => None
  end.

Definition step (l : label) (c : client) : option client :=
  match l with
  | Call i => match threads c !! i with None => Some (at_pc i Start c) | Some _ => None end
  | Go i ok live => p ← threads c !! i; thread_step i ok live p c
  | Die b =>
      match bundles c !! b with
      | Some _ => Some (Cli (cur c) (closed c) (holder c) (bundles c) ({[b]} ∪ dead c) (fresh_id c)
                            (threads c) (closer c))
      | None => None
      end
  | CloseCall => close_step c
  end.

Definition reach (c : client) : Prop := rtc (λ x y, ∃ l, step l x = Some y) start c.

End Client.
End Client.
