(* ===== verification/MasqueFacts.v ===== *)
(** * Dialling rotates over the addresses; connections are owned and closed once *)

From Stdlib Require Import Init.Byte.
From S2P Require Import Prelude GoNet GoNetFacts Masque.

(** ** dialAddr *)

(** The resources held at the end of a trace, most recent first; [None] if one is
    acquired twice or given back while not held. *)
Fixpoint holds (tr : list (res_event resource)) (held : list resource) : option (list resource) :=
  match tr with
  | [] => Some held
  | Acquired r :: tr' => if decide (r ∈ held) then None else holds tr' (r :: held)
  | Released r :: tr' =>
      match held with
      | h :: held' => if decide (r = h) then holds tr' held' else None
      | [] => None
      end
  end.

(** ** The rotation of [dial] *)
Section dial_facts.
  Context {B : Type} (attempt : nat → gostring → outcome (list dial_cause) B)
          (ctx_live : nat → bool) (edgeAddrs : list gostring).

Let n := length edgeAddrs.

(** A failure after which the next candidate is tried. *)
Definition retriable (idx : nat) : Prop :=
  ∃ addr err, edgeAddrs !! idx = Some addr ∧ attempt idx addr = Err err ∧
    ctx_live idx = true ∧ unroutableFamily err = false.

(** A failure that ends the rotation. *)
Definition final (idx : nat) : Prop :=
  ∃ addr, edgeAddrs !! idx = Some addr ∧
    (attempt idx addr = Panic ∨
     ∃ err, attempt idx addr = Err err ∧ (ctx_live idx = false ∨ unroutableFamily err = true)).

(** Candidates [i], [i+1], ... of the rotation from [start]. *)
Definition rotation (start i k : nat) : list nat := (λ j, (start + j) mod n) <$> seq i k.

Lemma dial_loop_spec fuel i start r new tried :
  0 < n → dial_loop attempt ctx_live edgeAddrs fuel i start = (r, new, tried) →
  ∃ k, k <= fuel ∧ tried = rotation start i k ∧
    (∀ j, i <= j < i + pred k → retriable ((start + j) mod n)) ∧
    match r with
    | Some b => 0 < k ∧ new = (start + (i + pred k)) mod n ∧
                ∃ addr, edgeAddrs !! new = Some addr ∧ attempt new addr = Ok b
    | None => new = start ∧
              ((k = fuel ∧ (0 < k → retriable ((start + (i + pred k)) mod n))) ∨
               (0 < k ∧ final ((start + (i + pred k)) mod n)))
    end.
Proof.
  intros Hn. revert i r new tried. induction fuel as [|fuel IH]; intros i r new tried H; cbn in H.
  { injection H as <- <- <-. exists 0. split_and!; try done; [lia|]. left. split; [done|lia]. }
  fold n in H. set (idx := (start + i) mod n) in *.
  destruct (lookup_lt_is_Some_2 edgeAddrs idx) as [addr Haddr]; [by apply Nat.mod_upper_bound; lia|].
  rewrite Haddr in H.
  assert (Hone : rotation start i 1 = [idx]) by done.
  destruct (attempt idx addr) as [b|err|] eqn:Ha.
  - injection H as <- <- <-. exists 1. cbn [pred]. rewrite Nat.add_0_r. fold idx.
    split_and!; [lia|done|lia|lia|done|eauto].
  - destruct (ctx_live idx) eqn:Hc; cbn [negb] in H.
    2:{ injection H as <- <- <-. exists 1. cbn [pred]. rewrite Nat.add_0_r. fold idx.
        split_and!; [lia|done|lia|done|]. right. split; [lia|]. exists addr. split; [done|].
      right. exists err. auto. }
    destruct (unroutableFamily err) eqn:Hu.
    { injection H as <- <- <-. exists 1. cbn [pred]. rewrite Nat.add_0_r. fold idx.
      split_and!; [lia|done|lia|done|]. right. split; [lia|]. exists addr. split; [done|].
      right. exists err. auto. }
    assert (Hr : retriable idx) by by exists addr, err.
    destruct (dial_loop attempt ctx_live edgeAddrs fuel (S i) start) as [[r' new'] tried'] eqn:Hrec.
    injection H as <- <- <-. destruct (IH _ _ _ _ Hrec) as (k & Hk & -> & Hall & Hres).
    exists (S k). cbn [pred]. split; [lia|]. split; [done|]. split.
    { intros j Hj. destruct (decide (j = i)) as [->|]; [done|]. apply Hall. lia. }
    destruct r' as [b|].
    + destruct Hres as (Hk0 & Hnew & Hok). split; [lia|]. split; [|done].
      rewrite Hnew. f_equal. lia.
    + destruct Hres as [-> [[-> Hlast]|[Hk0 Hf]]]; (split; [done|]).
      * left. split; [done|]. intros _. destruct fuel as [|fuel']; [by rewrite Nat.add_0_r|].
        cbn [pred] in Hlast. replace (i + S fuel') with (S i + fuel') by lia. apply Hlast. lia.
      * right. split; [lia|]. by replace (i + k) with (S i + pred k) by lia.
  - injection H as <- <- <-. exists 1. cbn [pred]. rewrite Nat.add_0_r. fold idx.
    split_and!; [lia|done|lia|done|]. right. split; [lia|]. exists addr. auto.
Qed.

Lemma rotation_NoDup start k : k <= n → NoDup (rotation start 0 k).
Proof.
  intros Hk. unfold rotation. apply NoDup_fmap_2_strong; [|apply NoDup_seq].
  intros x y Hx%elem_of_seq Hy%elem_of_seq Heq.
  pose proof (Nat.div_mod (start + x) n ltac:(lia)) as Ex.
  pose proof (Nat.div_mod (start + y) n ltac:(lia)) as Ey.
  rewrite Heq in Ex. clearbody n.
  set (q1 := (start + x) / n) in *. set (q2 := (start + y) / n) in *. set (m := _ mod n) in *.
  clearbody q1 q2 m. destruct (Nat.lt_trichotomy q1 q2) as [Hq|[->|Hq]]; [|lia|]; exfalso.
  - assert (n * S q1 <= n * q2) by (apply Nat.mul_le_mono_l; lia). lia.
  - assert (n * S q2 <= n * q1) by (apply Nat.mul_le_mono_l; lia). lia.
Qed.
End dial_facts.

(** ** The shared connection *)
Module ClientFacts.
Import Client.

(** Between taking and releasing [reconnectMu]. *)
Definition in_section (p : pc) : bool :=
  match p with
  | Check _ | Dialing | Install _ | Abandon _ | CloseOld _ | Invalidate | Unlock _ => true
  | _ => false
  end.

(** The bundle a goroutine is responsible for. *)
Definition owns (p : pc) : option nat :=
  match p with Install b | Abandon b | CloseOld (Some b) => Some b | _ => None end.

Definition closing (p : close_pc) : option nat :=
  match p with CloseBundle (Some b) => Some b | _ => None end.

Record wf (c : client) : Prop := Wf {
  wf_holder : ∀ i, holder c = Some i ↔ ∃ p, threads c !! i = Some p ∧ in_section p = true;
  wf_fresh : ∀ b, is_Some (bundles c !! b) → b < fresh_id c;
  (** owners own open bundles *)
  wf_cur : ∀ b, cur c = Some b → bundles c !! b = Some true;
  wf_thread : ∀ i p b, threads c !! i = Some p → owns p = Some b →
                bundles c !! b = Some true ∧ cur c ≠ Some b ∧ closing (closer c) ≠ Some b;
  wf_closing : ∀ b, closing (closer c) = Some b → bundles c !! b = Some true ∧ cur c ≠ Some b;
  (** and every open bundle has an owner *)
  wf_owned : ∀ b, bundles c !! b = Some true →
               cur c = Some b ∨ closing (closer c) = Some b ∨
               ∃ i p, threads c !! i = Some p ∧ owns p = Some b;
  wf_closed : closed c = true ↔ closer c = Closed ∨ ∃ b, closer c = CloseBundle b;
  wf_nil : closed c = true → cur c = None
}.

Lemma owns_in_section p b : owns p = Some b → in_section p = true.
Proof. destruct p as [| | | | | | |[]| | | | | |]; done. Qed.

Lemma client_wf_start : wf start.
Proof.
  split; cbn.
  - intros i. split; [done|]. intros (p & Hp & _). by apply lookup_empty_Some in Hp.
  - intros b [x Hb]. apply lookup_singleton_Some in Hb as [<- _]. lia.
  - by intros b [= <-].
  - intros i p b Hp. by apply lookup_empty_Some in Hp.
  - done.
  - intros b Hb. apply lookup_singleton_Some in Hb as [<- _]. by left.
  - split; [done|]. by intros [|[]].
  - done.
Qed.

(** Only the holder of [reconnectMu] is in the section, so it is the only goroutine
    that owns a bundle. *)
Lemma only_holder c i j p q :
  wf c → threads c !! i = Some p → threads c !! j = Some q →
  in_section p = true → in_section q = true → i = j.
Proof.
  intros Hwf Hi Hj Hp Hq.
  assert (holder c = Some i) by (apply (wf_holder _ Hwf); eauto).
  assert (holder c = Some j) by (apply (wf_holder _ Hwf); eauto). congruence.
Qed.

(** A goroutine moves without taking, giving back or changing anything. *)
Lemma wf_move c i p q :
  wf c → threads c !! i = Some p → owns q = owns p → in_section q = in_section p →
  wf (at_pc i q c).
Proof.
  intros [Hh Hf Hc Ht Hcl Ho Hcd Hn] Hi Hq Hsec. split; cbn; try done.
  - intros j. rewrite Hh. split; intros (r & Hr & Hrs).
    + destruct (decide (j = i)) as [->|]; [|exists r; by rewrite lookup_insert_ne].
      exists q. rewrite lookup_insert_eq. split; [done|]. congruence.
    + destruct (decide (j = i)) as [->|]; [|rewrite lookup_insert_ne in Hr by done; eauto].
      rewrite lookup_insert_eq in Hr. exists p. split; [done|]. congruence.
  - intros j r b Hr Hb. apply lookup_insert_Some in Hr as [[-> ->]|[? Hr]]; [|eauto].
    rewrite Hq in Hb. eauto.
  - intros b Hb. destruct (Ho b Hb) as [|[|(j & r & Hj & Hr)]]; auto. right. right.
    destruct (decide (j = i)) as [->|]; [|exists j, r; by rewrite lookup_insert_ne].
    exists i, q. rewrite lookup_insert_eq. split; [done|]. congruence.
Qed.

Lemma wf_new_thread c i : wf c → threads c !! i = None → wf (at_pc i Start c).
Proof.
  intros [Hh Hf Hc Ht Hcl Ho Hcd Hn] Hi. split; cbn; try done.
  - intros j. rewrite Hh. split; intros (r & Hr & Hrs).
    + exists r. rewrite lookup_insert_ne; [done|]. congruence.
    + apply lookup_insert_Some in Hr as [[-> <-]|[? Hr]]; [done|eauto].
  - intros j r b Hr Hb. apply lookup_insert_Some in Hr as [[-> <-]|[? Hr]]; [done|eauto].
  - intros b Hb. destruct (Ho b Hb) as [|[|(j & r & Hj & Hr)]]; auto. right. right.
    exists j, r. split; [|done]. rewrite lookup_insert_ne; [done|]. congruence.
Qed.

(** Taking and giving back the lock. *)
Lemma wf_lock c i stale :
  wf c → threads c !! i = Some (WantLock stale) → holder c = None →
  wf (at_pc i (Check stale) (set_holder (Some i) c)).
Proof.
  intros [Hh Hf Hc Ht Hcl Ho Hcd Hn] Hi Hnone. split; cbn; try done.
  - intros j. split.
    + intros [= <-]. exists (Check stale). by rewrite lookup_insert_eq.
    + intros (r & Hr & Hs). apply lookup_insert_Some in Hr as [[-> _]|[? Hr]]; [done|].
      assert (holder c = Some j) by (apply Hh; eauto). congruence.
  - intros j r b Hr Hb. apply lookup_insert_Some in Hr as [[-> <-]|[? Hr]]; [done|eauto].
  - intros b Hb. destruct (Ho b Hb) as [|[|(j & r & Hj & Hr)]]; auto. right. right.
    exists j, r. split; [|done]. rewrite lookup_insert_ne; [done|]. intros <-.
    rewrite Hi in Hj. by injection Hj as <-.
Qed.

Lemma wf_unlock c i r q :
  wf c → threads c !! i = Some (Unlock r) → in_section q = false → owns q = None →
  wf (at_pc i q (set_holder None c)).
Proof.
  intros Hwf Hi Hq Hoq. pose proof Hwf as [Hh Hf Hc Ht Hcl Ho Hcd Hn]. split; cbn; try done.
  - intros j. split; [done|]. intros (p & Hp & Hs).
    apply lookup_insert_Some in Hp as [[-> <-]|[Hne Hp]]; [congruence|].
    destruct Hne. by eapply only_holder.
  - intros j p b Hp Hb. apply lookup_insert_Some in Hp as [[-> <-]|[? Hp]]; [congruence|eauto].
  - intros b Hb. destruct (Ho b Hb) as [|[|(j & p & Hj & Hp)]]; auto. right. right.
    exists j, p. split; [|done]. rewrite lookup_insert_ne; [done|]. intros <-.
    rewrite Hi in Hj. by injection Hj as <-.
Qed.

Lemma wf_dialled c i :
  wf c → threads c !! i = Some Dialing →
  let b := fresh_id c in
  wf (at_pc i (Install b)
    (Cli (cur c) (closed c) (holder c) (<[b := true]> (bundles c)) (dead c) (S b) (threads c) (closer c))).
Proof.
  intros Hwf Hi b. pose proof Hwf as [Hh Hf Hc Ht Hcl Ho Hcd Hn].
  assert (Hnew : ∀ x, bundles c !! x = Some true → x ≠ b) by (intros x Hx ->; specialize (Hf b); lia || (specialize (Hf (ltac:(eauto))); lia)).
  split; cbn; try done.
  - intros j. rewrite Hh. split; intros (r & Hr & Hrs).
    + destruct (decide (j = i)) as [->|]; [|exists r; by rewrite lookup_insert_ne].
      exists (Install b). by rewrite lookup_insert_eq.
    + destruct (decide (j = i)) as [->|]; [by exists Dialing|].
      rewrite lookup_insert_ne in Hr by done. eauto.
  - intros x Hx. destruct (decide (x = b)) as [->|]; [lia|].
    rewrite lookup_insert_ne in Hx by done. specialize (Hf x Hx). lia.
  - intros x Hx. specialize (Hc x Hx). by rewrite lookup_insert_ne by (apply not_eq_sym, Hnew; done).
  - intros j r x Hr Hx. apply lookup_insert_Some in Hr as [[-> <-]|[Hne Hr]].
    + injection Hx as <-. rewrite lookup_insert_eq. split; [done|]. split; intros Hx.
      * by destruct (Hnew b (Hc _ Hx)).
      * destruct (Hcl _ Hx) as [Hx' _]. by destruct (Hnew b Hx').
    + destruct Hne. by eapply only_holder; eauto using owns_in_section.
  - intros x Hx. destruct (Hcl x Hx) as [Hx' ?].
    by rewrite lookup_insert_ne by (apply not_eq_sym, Hnew; done).
  - intros x Hx. apply lookup_insert_Some in Hx as [[-> _]|[Hne Hx]].
    + right. right. exists i, (Install x). by rewrite lookup_insert_eq.
    + destruct (Ho x Hx) as [|[|(j & p & Hj & Hp)]]; auto.
      assert (j = i) as -> by (eapply only_holder; eauto using owns_in_section).
      rewrite Hi in Hj. by injection Hj as <-.
Qed.

(** The new bundle becomes current, and the goroutine owns the old one. *)
Lemma wf_install c i b :
  wf c → threads c !! i = Some (Install b) → closed c = false →
  wf (at_pc i (CloseOld (cur c))
    (Cli (Some b) (closed c) (holder c) (bundles c) (dead c) (fresh_id c) (threads c) (closer c))).
Proof.
  intros Hwf Hi Hnc. pose proof Hwf as [Hh Hf Hc Ht Hcl Ho Hcd Hn].
  destruct (Ht i _ b Hi eq_refl) as (Hb & Hcb & Hclb). split; cbn; try done.
  - intros j. rewrite Hh. split; intros (r & Hr & Hrs).
    + destruct (decide (j = i)) as [->|]; [|exists r; by rewrite lookup_insert_ne].
      exists (CloseOld (cur c)). by rewrite lookup_insert_eq.
    + destruct (decide (j = i)) as [->|]; [by exists (Install b)|].
      rewrite lookup_insert_ne in Hr by done. eauto.
  - by intros x [= <-].
  - intros j r x Hr Hx. apply lookup_insert_Some in Hr as [[-> <-]|[Hne Hr]].
    + cbn in Hx. assert (Hcx : cur c = Some x) by (destruct (cur c); [by injection Hx as <-|done]).
      split; [by apply Hc|]. split; [intros [= <-]; congruence|].
      intros Hx'. destruct (Hcl x Hx'). congruence.
    + destruct Hne. by eapply only_holder; eauto using owns_in_section.
  - intros x Hx. destruct (Hcl x Hx) as [Hx' ?]. split; [done|]. intros [= <-]. congruence.
  - intros x Hx. destruct (Ho x Hx) as [Hcx|[|(j & p & Hj & Hp)]]; auto.
    + right. right. exists i, (CloseOld (cur c)). rewrite lookup_insert_eq. by rewrite Hcx.
    + assert (j = i) as -> by (eapply only_holder; eauto using owns_in_section).
      rewrite Hi in Hj. injection Hj as <-. left. by injection Hp as <-.
  - congruence.
Qed.

(** An owner closes its bundle and lets go of it. *)
Lemma wf_thread_close c i p q b :
  wf c → threads c !! i = Some p → owns p = Some b → owns q = None → in_section q = true →
  wf (at_pc i q (close_bundle (Some b) c)).
Proof.
  intros Hwf Hi Hp Hq Hs. pose proof Hwf as [Hh Hf Hc Ht Hcl Ho Hcd Hn].
  pose proof (owns_in_section _ _ Hp) as Hps.
  destruct (Ht i _ b Hi Hp) as (Hb & Hcb & Hclb). split; cbn; try done.
  - intros j. rewrite Hh. split; intros (r & Hr & Hrs).
    + destruct (decide (j = i)) as [->|]; [|exists r; by rewrite lookup_insert_ne].
      exists q. by rewrite lookup_insert_eq.
    + destruct (decide (j = i)) as [->|]; [by exists p|].
      rewrite lookup_insert_ne in Hr by done. eauto.
  - intros x Hx. apply Hf. destruct (decide (x = b)) as [->|]; [eauto|].
    by rewrite lookup_insert_ne in Hx.
  - intros x Hx. rewrite lookup_insert_ne; [by apply Hc|congruence].
  - intros j r x Hr Hx. apply lookup_insert_Some in Hr as [[-> <-]|[Hne Hr]]; [congruence|].
    destruct Hne. by eapply only_holder; eauto using owns_in_section.
  - intros x Hx. rewrite lookup_insert_ne; [by apply Hcl|congruence].
  - intros x Hx. apply lookup_insert_Some in Hx as [[_ ?]|[Hne Hx]]; [done|].
    destruct (Ho x Hx) as [|[|(j & r & Hj & Hr)]]; auto. exfalso.
    assert (j = i) as -> by (eapply only_holder; eauto using owns_in_section). congruence.
Qed.

Lemma wf_close_step c c' : wf c → close_step c = Some c' → wf c'.
Proof.
  intros [Hh Hf Hc Ht Hcl Ho Hcd Hn] Hs. unfold close_step in Hs.
  destruct (closer c) as [| |b|] eqn:Hpc; [| | |done].
  - injection Hs as <-. split; cbn; try done. rewrite Hcd. naive_solver.
  - injection Hs as <-. split; cbn; try done.
    + intros i p b Hp Hb. destruct (Ht _ _ _ Hp Hb) as (? & Hcb & _). split_and!; try done.
      destruct (cur c); cbn; congruence.
    + intros b Hb. destruct (cur c) as [x|] eqn:Hx; [|done]. injection Hb as <-.
      split; [by apply Hc|done].
    + intros b Hb. destruct (Ho b Hb) as [->|[|]]; auto. 
    + split; [eauto|done].
  - injection Hs as <-. destruct b as [b|]; cbn.
    + destruct (Hcl b eq_refl) as [Hb Hcb]. split; cbn; try done.
      * intros x Hx. apply Hf. destruct (decide (x = b)) as [->|]; [eauto|].
        by rewrite lookup_insert_ne in Hx.
      * intros x Hx. rewrite lookup_insert_ne; [by apply Hc|congruence].
      * intros i p x Hp Hx. destruct (Ht _ _ _ Hp Hx) as (? & ? & Hcx). split_and!; try done.
        rewrite lookup_insert_ne; [done|]. cbn in Hcx. congruence.
      * intros x Hx. apply lookup_insert_Some in Hx as [[_ ?]|[Hne Hx]]; [done|].
        destruct (Ho x Hx) as [|[[= ->]|]]; auto. done.
      * rewrite Hcd. naive_solver.
    + split; cbn; try done. rewrite Hcd. naive_solver.
Qed.

Lemma client_wf_step l c c' : wf c → step l c = Some c' → wf c'.
Proof.
  intros Hwf Hs. destruct l as [i|i ok live|b|]; cbn in Hs.
  - destruct (threads c !! i) eqn:Hi; [done|]. injection Hs as <-. by apply wf_new_thread.
  - destruct (threads c !! i) as [p|] eqn:Hi; [|done]. cbn in Hs.
    assert (Hmove : ∀ q, owns q = owns p → in_section q = in_section p → wf (at_pc i q c))
      by (intros; by eapply wf_move).
    destruct p; cbn in Hs.
    + destruct (currentConnection c); injection Hs as <-; by apply Hmove.
    + destruct ok; [|destruct live]; injection Hs as <-; by apply Hmove.
    + destruct (holder c) eqn:Hh; [done|]. injection Hs as <-. by apply wf_lock.
    + destruct (currentConnection c); [case_decide|]; injection Hs as <-; by apply Hmove.
    + destruct ok; injection Hs as <-; [by apply wf_dialled|by apply Hmove].
    + destruct (closed c) eqn:Hc; injection Hs as <-; [by apply Hmove|].
      rewrite <- Hc. by eapply wf_install.
    + injection Hs as <-. by eapply wf_thread_close.
    + injection Hs as <-. destruct b; [by eapply wf_thread_close|by apply Hmove].
    + injection Hs as <-. by apply Hmove.
    + injection Hs as <-. by destruct ok0; eapply wf_unlock.
    + destruct (currentConnection c); injection Hs as <-; by apply Hmove.
    + injection Hs as <-. by destruct ok; apply Hmove.
    + done.
    + done.
  - destruct (bundles c !! b); [|done]. injection Hs as <-. destruct Hwf. by split.
  - by eapply wf_close_step.
Qed.

Lemma client_reach_wf c : reach c → wf c.
Proof.
  intros Hr. eapply rtc_invariant; [|exact client_wf_start|exact Hr].
  intros x y Hx (l & Hl). by eapply client_wf_step.
Qed.

(** How many steps a goroutine has left. *)
Definition rank (p : pc) : nat :=
  match p with
  | Start => 12 | OpenOn _ => 11 | WantLock _ => 10 | Check _ => 9 | Dialing => 8
  | Install _ => 7 | Abandon _ => 4 | CloseOld _ => 6 | Invalidate => 5 | Unlock _ => 3
  | Again => 2 | OpenAgain _ => 1 | Opened | Failed => 0
  end.

Lemma thread_step_rank i ok live p c c' :
  thread_step i ok live p c = Some c' → ∃ q, threads c' !! i = Some q ∧ rank q < rank p.
Proof.
  intros H. destruct p; cbn in H; repeat case_match; try done; injection H as <-; cbn;
    rewrite lookup_insert_eq; eexists; (split; [done|]); cbn; try lia;
    try (destruct ok; cbn; lia); try (destruct ok0; cbn; lia).
Qed.
End ClientFacts.

(** ** Properties *)



(** a failed [dialAddr] gives back everything it acquired, innermost first and
    exactly once, at whichever step it failed; a successful one holds the four
    parts of its bundle, and closing the bundle gives back exactly those. *)
Theorem dialAddr_releases resolve listen quic_dial setup addr :
  let '(r, tr) := dialAddr resolve listen quic_dial setup addr in
  match r with
  | Ok b => holds tr [] = Some [H3Transport; QuicConn; QuicTransport; UdpConn] ∧
            holds (tr ++ bundle_close (Some b)) [] = Some []
  | Err _ => holds tr [] = Some []
  | Panic => False
  end.
Proof.
  unfold dialAddr. destruct (resolve addr) as [ip|]; [|done].
  destruct (listen (listenAddr ip)); [done|].
  destruct (quic_dial addr); [by vm_compute|]. destruct (setup addr); by vm_compute.
Qed.

(** C13: in every reachable state of the H3 client -- any number of goroutines
    opening streams and reconnecting, connections dying, [Close] at any point -- at
    most one goroutine is in [reconnect]'s critical section and it holds the lock;
    every connection that is open belongs to exactly one of the client, that
    goroutine or [Close], none is closed twice, and none is installed once the
    client is closed; when [Close] is done and no goroutine is in the section, every
    connection ever dialled is closed. *)
Theorem connections_owned c :
  Client.reach c →
  (∀ i j p q, Client.threads c !! i = Some p → Client.threads c !! j = Some q →
     ClientFacts.in_section p = true → ClientFacts.in_section q = true → i = j) ∧
  (∀ b, Client.bundles c !! b = Some true ↔
     Client.cur c = Some b ∨ ClientFacts.closing (Client.closer c) = Some b ∨
     ∃ i p, Client.threads c !! i = Some p ∧ ClientFacts.owns p = Some b) ∧
  (∀ i p b, Client.threads c !! i = Some p → ClientFacts.owns p = Some b →
     Client.cur c ≠ Some b ∧ ClientFacts.closing (Client.closer c) ≠ Some b) ∧
  (Client.closed c = true → Client.cur c = None) ∧
  (Client.closer c = Client.Closed →
     (∀ i p, Client.threads c !! i = Some p → ClientFacts.in_section p = false) →
     ∀ b x, Client.bundles c !! b = Some x → x = false).
Proof.
  intros Hwf%ClientFacts.client_reach_wf. split_and!.
  - intros. by eapply ClientFacts.only_holder.
  - intros b. split; [apply Hwf|]. intros [H|[H|(i & p & Hi & Hp)]].
    + by apply (ClientFacts.wf_cur _ Hwf).
    + by apply (ClientFacts.wf_closing _ Hwf).
    + by apply (ClientFacts.wf_thread _ Hwf i p).
  - intros i p b Hi Hp. by apply (ClientFacts.wf_thread _ Hwf i p b).
  - apply Hwf.
  - intros Hc Hidle b [|] Hb; [|done].
    destruct (ClientFacts.wf_owned _ Hwf b Hb) as [H|[H|(i & p & Hi & Hp)]].
    + rewrite (ClientFacts.wf_nil _ Hwf) in H; [done|]. apply Hwf. by left.
    + by rewrite Hc in H.
    + specialize (Hidle i p Hi). apply ClientFacts.owns_in_section in Hp. congruence.
Qed.

(** A client that is closed while a goroutine dials. *)
Definition closed_client : Client.client :=
  default Client.start (foldl (λ o l, o ≫= Client.step l) (Some Client.start)
    [Client.Die 0; Client.Call 0; Client.Go 0 true true; Client.Go 0 true true; Client.Go 0 true true;
     Client.Go 0 true true; Client.CloseCall; Client.CloseCall; Client.CloseCall;
     Client.Go 0 true true; Client.Go 0 true true; Client.Go 0 true true]).

Lemma client_run_reach ls :
  Client.reach (default Client.start (foldl (λ o l, o ≫= Client.step l) (Some Client.start) ls)).
Proof.
  assert (H : ∀ ls o c, foldl (λ o l, o ≫= Client.step l) o ls = Some c →
            (∀ c0, o = Some c0 → Client.reach c0) → Client.reach c).
  { clear ls. induction ls as [|l ls IH]; intros o c Hc Ho; cbn in Hc; [by apply Ho|].
    eapply IH; [exact Hc|]. intros c0 Hc0. apply bind_Some in Hc0 as (c1 & -> & Hs).
    eapply rtc_r; [by apply Ho|]. by exists l. }
  destruct (foldl _ _ _) as [c|] eqn:Hc; [|apply rtc_refl].
  eapply H; [exact Hc|]. intros c0 [= <-]. apply rtc_refl.
Qed.

Lemma connections_owned_witness :
  Client.bundles closed_client !! 1 = Some false.
Proof.
  assert (Hr : Client.reach closed_client) by apply client_run_reach.
  assert (Hb : ∃ x, Client.bundles closed_client !! 1 = Some x)
    by (exists false; by vm_compute).
  destruct Hb as [x Hb]. rewrite Hb. f_equal.
  refine (proj2 (proj2 (proj2 (proj2 (connections_owned closed_client Hr)))) _ _ 1 x Hb);
    [by vm_compute|].
  intros i p Hp. assert (Ht : Client.threads closed_client = {[0 := Client.Failed]}) by by vm_compute.
  rewrite Ht in Hp. apply lookup_singleton_Some in Hp as [_ <-]. done.
Defined.

(** C32: a goroutine that opens a stream makes at most one reconnect and two
    attempts, and is never stuck: unless it has returned it can take a step, or it
    waits for [reconnectMu] and the goroutine that holds it can. *)
Theorem stream_opening_ends c i p :
  Client.reach c → Client.threads c !! i = Some p →
  (∀ ok live c', Client.step (Client.Go i ok live) c = Some c' →
     ∃ q, Client.threads c' !! i = Some q ∧ ClientFacts.rank q < ClientFacts.rank p) ∧
  (ClientFacts.rank p = 0 ∨ (∀ ok live, is_Some (Client.step (Client.Go i ok live) c)) ∨
   ∃ j, Client.holder c = Some j ∧ j ≠ i ∧ ∀ ok live, is_Some (Client.step (Client.Go j ok live) c)).
Proof.
  intros Hwf%ClientFacts.client_reach_wf Hi. split.
  - intros ok live c' Hs. cbn in Hs. rewrite Hi in Hs. by eapply ClientFacts.thread_step_rank.
  - assert (Hmoves : ∀ j q, Client.threads c !! j = Some q → ClientFacts.in_section q = true →
      ∀ ok live, is_Some (Client.step (Client.Go j ok live) c)).
    { intros j q Hj Hq ok live. cbn. rewrite Hj. cbn.
      destruct q; try done; cbn; repeat case_match; eauto. }
    destruct (ClientFacts.in_section p) eqn:Hp; [right; left; by eapply Hmoves|].
    destruct p; try done; try (by left); cbn [Client.step]; rewrite Hi; cbn.
    + right. left. intros _ _. destruct (Client.currentConnection c); eauto.
    + right. left. intros [] []; eauto.
    + destruct (Client.holder c) as [j|] eqn:Hh; [|right; left; eauto].
      right. right. exists j.
      destruct (proj1 (ClientFacts.wf_holder _ Hwf j) Hh) as (q & Hj & Hq).
      split; [done|]. split; [intros ->; rewrite Hi in Hj; by injection Hj as <-|].
      intros ok live. rewrite Hj. cbn. specialize (Hmoves j q Hj Hq ok live).
      cbn in Hmoves. by rewrite Hj in Hmoves.
    + right. left. intros _ _. destruct (Client.currentConnection c); eauto.
    + right. left. intros [] _; eauto.
Qed.

Lemma stream_opening_ends_witness :
  let c := default Client.start (foldl (λ o l, o ≫= Client.step l) (Some Client.start) [Client.Call 0]) in
  ClientFacts.rank Client.Start = 0 ∨ (∀ ok live, is_Some (Client.step (Client.Go 0 ok live) c)) ∨
  ∃ j, Client.holder c = Some j ∧ j ≠ 0 ∧ ∀ ok live, is_Some (Client.step (Client.Go j ok live) c).
Proof.
  intros c. apply (stream_opening_ends c 0 Client.Start); [apply client_run_reach|by vm_compute].
Defined.
