(* ===== verification/Doh.v ===== *)
(** * The shared DoH connection (src/tunnel/masque.go)

    [dohConnection], [liveDoH], [invalidateDoH], [isClosed], and the part of
    [Close] that concerns them, as a transition system: one step is one critical
    section or one blocking call, so every interleaving the locks allow is a run.
    [dialAnyDoH] tries the servers in order.  The connections themselves (TLS and
    HTTP/2 over a tunnel stream) are third-party objects, known by a number. *)

From S2P Require Import Prelude Masque.

(** ** dialAnyDoH *)
Section dialAnyDoH.
  Context {D : Type} (dialDoH : gostring → outcome unit D) (ctx_live : gostring → bool).

(** The servers tried, and the connection. *)
Fixpoint dialAnyDoH (servers : list gostring) : option D * list gostring :=
  match servers with
  | [] => (None, [])
  | addr :: rest =>
      match dialDoH addr with
      | Ok d => (Some d, [addr])
      | _ =>
          if negb (ctx_live addr) then (None, [addr])
          else let '(r, tried) := dialAnyDoH rest in (r, addr :: tried)
      end
  end.
End dialAnyDoH.

Definition dnsServers : list gostring := [str "162.159.36.1:443"; str "162.159.46.1:443"].

(** ** dialDoH

    What the steps of one dial return, and what the dial releases on each path: the
    stream by [releaseStream], the TLS connection by [Close]. *)
Inductive doh_resource := DohStream | DohTLS | DohH2.

#[export] Instance doh_resource_eq_dec : EqDecision doh_resource.
Proof. solve_decision. Defined.

Inductive doh_event := DohOpened (r : doh_resource) | DohClosed (r : doh_resource).

#[export] Instance doh_event_eq_dec : EqDecision doh_event.
Proof. solve_decision. Defined.

Record doh_dial := {
  dd_stream : bool;                  (** [openRequestStream] *)
  dd_connect : option Z;             (** [connectThroughEdge]: the status *)
  dd_set_deadline : bool;
  dd_handshake : bool;
  dd_clear_deadline : bool;
  dd_alpn : gostring;                (** the negotiated protocol *)
  dd_h2 : bool                       (** [NewClientConn] *)
}.

Definition dialDoH (p : doh_dial) : bool * list doh_event :=
  if negb (dd_stream p) then (false, [])
  else
    let opened := [DohOpened DohStream] in
    match dd_connect p with
    | None => (false, opened ++ [DohClosed DohStream])
    | Some status =>
        if negb (bool_decide (status = 200%Z)) then (false, opened ++ [DohClosed DohStream])
        else if negb (dd_set_deadline p) then (false, opened ++ [DohClosed DohStream])
        else
          let opened := opened ++ [DohOpened DohTLS] in
          let undo := [DohClosed DohTLS; DohClosed DohStream] in
          if negb (dd_handshake p) then (false, opened ++ undo)
          else if negb (dd_clear_deadline p) then (false, opened ++ undo)
          else if negb (bool_decide (dd_alpn p = str "h2")) then (false, opened ++ undo)
          else if negb (dd_h2 p) then (false, opened ++ undo)
          else (true, opened ++ [DohOpened DohH2])
    end.

(** [dohConn.close] *)
Definition dohConn_close : list doh_event := [DohClosed DohH2; DohClosed DohTLS; DohClosed DohStream].

(** ** The shared slot *)
Module Slot.

(** A goroutine in [dohConnection]. *)
Inductive pc :=
  | Live                             (** about to call [liveDoH] *)
  | Retire (d : nat)                 (** [liveDoH] took a spent connection out; closing it *)
  | Join                             (** no live connection: about to look for a dial *)
  | Wait (f : nat)                   (** for the flight, or its context *)
  | Dial (f : nat)                   (** leading it *)
  | CheckClosed (f d : nat)          (** dialled: [isClosed]? *)
  | Discard (f d : nat)              (** it is: closing [d] *)
  | Publish (f : nat) (r : option nat)
  | Recheck (d : nat)                (** installed: [isClosed]? *)
  | Drop (d : nat)                   (** it is: about to call [invalidateDoH(d)] *)
  | DropClose (d : nat)              (** ... which took it out: closing it *)
  | Ret (r : option nat).            (** returned a connection, or an error *)

(** [Close]: not begun; [invalidateDoH] took out the connection, if any; [closed] set. *)
Inductive close_pc := NotClosing | TookOut (v : option nat) | Marking | Done.

Record slot := Slot {
  doh : option nat;
  dohDial : option nat;
  closed : bool;
  conns : gmap nat bool;             (** connections dialled; [true] while open *)
  spent : gset nat;                  (** closed or closing, as [State()] reports it *)
  done : gmap nat (option (option nat));  (** flights: [None] until closed *)
  fresh_id : nat;
  callers : gmap nat pc;
  closer : close_pc;
  window : gset nat;                 (** installed while [Close] was between its two steps *)
  lost : gset nat                    (** overwritten in [doh] by a later installation *)
}.

Definition start : slot := Slot None None false ∅ ∅ ∅ 0 ∅ NotClosing ∅ ∅.

Inductive label :=
  | Call (i : nat)
  | Go (i : nat) (ok : bool)         (** does the dial succeed; is the context still live *)
  | Spend (d : nat)                  (** the connection breaks or is told to go away *)
  | Invalidate (stale : option nat)  (** a failed query, or a reconnect *)
  | CloseCall.

Definition at_pc (i : nat) (p : pc) (s : slot) : slot :=
  Slot (doh s) (dohDial s) (closed s) (conns s) (spent s) (done s) (fresh_id s)
       (<[i := p]> (callers s)) (closer s) (window s) (lost s).

Definition set_doh (d : option nat) (s : slot) : slot :=
  Slot d (dohDial s) (closed s) (conns s) (spent s) (done s) (fresh_id s) (callers s) (closer s) (window s) (lost s).

(** [dohConn.close] *)
Definition close_conn (d : nat) (s : slot) : slot :=
  Slot (doh s) (dohDial s) (closed s) (<[d := false]> (conns s)) ({[d]} ∪ spent s) (done s)
       (fresh_id s) (callers s) (closer s) (window s) (lost s).

(** [invalidateDoH]: the victim, if there is one. *)
Definition victim (stale : option nat) (s : slot) : option nat :=
  match doh s with
  | None => None
  | Some v =>
      match stale with
      | Some d => if decide (v = d) then Some v else None
      | None => Some v
      end
  end.

Definition closing_now (c : close_pc) : bool :=
  match c with TookOut _ | Marking => true | _ => false end.

(** The critical section that ends a dial: install [d] if there is one, over
    whatever [doh] holds; clear [dohDial]; publish the result. *)
Definition publish (f : nat) (r : option nat) (s : slot) : slot :=
  Slot (match r with Some d => Some d | None => doh s end) None (closed s) (conns s) (spent s)
       (<[f := Some r]> (done s)) (fresh_id s) (callers s) (closer s)
       (match r with
        | Some d => if closing_now (closer s) then {[d]} ∪ window s else window s
        | None => window s
        end)
       (match r, doh s with
        | Some _, Some old => {[old]} ∪ lost s
        | _, _ => lost s
        end).

Definition caller_step (i : nat) (ok : bool) (p : pc) (s : slot) : option slot :=
  match p with
  | Live =>
      match doh s with
      | None => Some (at_pc i Join s)
      | Some d =>
          if decide (d ∈ spent s) then Some (at_pc i (Retire d) (set_doh None s))
          else Some (at_pc i (Ret (Some d)) s)
      end
  | Retire d => Some (at_pc i Join (close_conn d s))
  | Join =>
      match dohDial s with
      | Some f => Some (at_pc i (Wait f) s)
      | None =>
          let f := fresh_id s in
          Some (at_pc i (Dial f)
            (Slot (doh s) (Some f) (closed s) (conns s) (spent s) (<[f := None]> (done s)) (S f)
                  (callers s) (closer s) (window s) (lost s)))
      end
  | Wait f =>
      if ok then
        match done s !! f with
        | Some (Some (Some _)) => Some (at_pc i Live s)
        | Some (Some None) => Some (at_pc i (Ret None) s)
        | _ => None
        end
      else Some (at_pc i (Ret None) s)
  | Dial f =>
      if ok then
        let d := fresh_id s in
        Some (at_pc i (CheckClosed f d)
          (Slot (doh s) (dohDial s) (closed s) (<[d := true]> (conns s)) (spent s) (done s) (S d)
                (callers s) (closer s) (window s) (lost s)))
      else Some (at_pc i (Publish f None) s)
  | CheckClosed f d =>
      Some (at_pc i (if closed s then Discard f d else Publish f (Some d)) s)
  | Discard f d => Some (at_pc i (Publish f None) (close_conn d s))
  | Publish f r =>
      Some (at_pc i (match r with Some d => Recheck d | None => Ret None end) (publish f r s))
  | Recheck d => Some (at_pc i (if closed s then Drop d else Ret (Some d)) s)
  | Drop d =>
      match victim (Some d) s with
      | Some v => Some (at_pc i (DropClose v) (set_doh None s))
      | None => Some (at_pc i (Ret None) s)
      end
  | DropClose v => Some (at_pc i (Ret None) (close_conn v s))
  | Ret _ => None
  end.

Definition set_closer (c : close_pc) (s : slot) : slot :=
  Slot (doh s) (dohDial s) (closed s) (conns s) (spent s) (done s) (fresh_id s) (callers s) c (window s) (lost s).

(** [Close]: [invalidateDoH(nil)], then [closed = true] under [connMu]. *)
Definition close_step (s : slot) : option slot :=
  match closer s with
  | NotClosing => Some (set_closer (TookOut (doh s)) (set_doh None s))
  | TookOut v =>
      Some (set_closer Marking (match v with Some d => close_conn d s | None => s end))
  | Marking =>
      Some (Slot (doh s) (dohDial s) true (conns s) (spent s) (done s) (fresh_id s) (callers s)
                 Done (window s) (lost s))
  | Done => None
  end.

Definition step (l : label) (s : slot) : option slot :=
  match l with
  | Call i => match callers s !! i with None => Some (at_pc i Live s) | Some _ => None end
  | Go i ok => p ← callers s !! i; caller_step i ok p s
  | Spend d => Some (Slot (doh s) (dohDial s) (closed s) (conns s) ({[d]} ∪ spent s) (done s)
                          (fresh_id s) (callers s) (closer s) (window s) (lost s))
  | Invalidate stale =>
      match victim stale s with
      | Some v => Some (close_conn v (set_doh None s))
      | None => Some s
      end
  | CloseCall => close_step s
  end.

Definition reach (s : slot) : Prop := rtc (λ x y, ∃ l, step l x = Some y) start s.

Definition run (ls : list label) : option slot := foldl (λ o l, o ≫= step l) (Some start) ls.
End Slot.
