(* ===== verification/DohFacts.v ===== *)
(** * One dial at a time; what becomes of every DoH connection *)

From S2P Require Import Prelude Masque Doh.

Module SlotFacts.
Import Slot.

(** ** Who is dialling *)

Definition leads (p : pc) : option nat :=
  match p with
  | Dial f | CheckClosed f _ | Discard f _ | Publish f _ => Some f
  | _ => None
  end.

Record dial_wf (s : slot) : Prop := DialWf {
  dw_led : ∀ f, dohDial s = Some f → ∃ i p, callers s !! i = Some p ∧ leads p = Some f;
  dw_leader : ∀ i p f, callers s !! i = Some p → leads p = Some f → dohDial s = Some f;
  dw_one : ∀ i j p q, callers s !! i = Some p → callers s !! j = Some q →
             is_Some (leads p) → is_Some (leads q) → i = j;
  dw_fresh : ∀ f, is_Some (done s !! f) → f < fresh_id s;
  dw_open : ∀ f, done s !! f = Some None → dohDial s = Some f;
  dw_known : ∀ f, dohDial s = Some f → done s !! f = Some None;
  dw_wait : ∀ i f, callers s !! i = Some (Wait f) → is_Some (done s !! f)
}.

(** What [dial_wf] depends on. *)
Definition same_dial (s s' : slot) : Prop :=
  dohDial s' = dohDial s ∧ done s' = done s ∧ callers s' = callers s ∧ fresh_id s <= fresh_id s'.

Lemma dial_wf_same s s' : dial_wf s → same_dial s s' → dial_wf s'.
Proof.
  intros [Hl Hd H1 Hf Ho Hk Hw] (Hdd & Hdn & Hc & Hfr).
  split; rewrite ?Hdd, ?Hdn, ?Hc; try done. intros f Hff. specialize (Hf f Hff). lia.
Qed.

Lemma dial_wf_move s i p q :
  dial_wf s → (callers s !! i = Some p ∨ (callers s !! i = None ∧ leads p = None)) →
  leads q = leads p → (∀ f, q = Wait f → is_Some (done s !! f)) →
  dial_wf (at_pc i q s).
Proof.
  intros [Hl Hd H1 Hf Ho Hk Hw] Hi Hq Hwait.
  assert (Hi' : ∀ r, callers s !! i = Some r → leads r = leads p)
    by (intros r Hr; destruct Hi as [Hi|[Hi _]]; congruence).
  assert (Hp : is_Some (leads p) → callers s !! i = Some p)
    by (intros [f Hp]; destruct Hi as [|[_ Hn]]; [done|congruence]).
  split; cbn; try done.
  - intros f Hff. destruct (Hl f Hff) as (j & r & Hj & Hr).
    destruct (decide (j = i)) as [->|]; [|exists j, r; by rewrite lookup_insert_ne].
    exists i, q. rewrite lookup_insert_eq. split; [done|]. rewrite Hq. by rewrite <- (Hi' r Hj).
  - intros j r f Hr Hf'. apply lookup_insert_Some in Hr as [[-> <-]|[? Hr]]; [|eauto].
    rewrite Hq in Hf'. eapply Hd; [apply Hp; by eexists|done].
  - intros j k r1 r2 Hj Hk' Hr1 Hr2.
    apply lookup_insert_Some in Hj as [[-> <-]|[? Hj]];
      apply lookup_insert_Some in Hk' as [[-> <-]|[? Hk']]; try done; rewrite ?Hq in *; eauto.
  - intros j f Hj. apply lookup_insert_Some in Hj as [[-> ->]|[? Hj]]; [by apply Hwait|eauto].
Qed.

Lemma dial_wf_join s i p f :
  dial_wf s → callers s !! i = Some p → leads p = None → dohDial s = None → f = fresh_id s →
  dial_wf (at_pc i (Dial f)
    (Slot (doh s) (Some f) (closed s) (conns s) (spent s) (<[f := None]> (done s)) (S f)
          (callers s) (closer s) (window s) (lost s))).
Proof.
  intros [Hl Hd H1 Hf Ho Hk Hw] Hi Hp Hn ->.
  assert (Hnone : ∀ j r, callers s !! j = Some r → leads r = None).
  { intros j r Hj. destruct (leads r) eqn:Hr; [|done]. specialize (Hd _ _ _ Hj Hr). congruence. }
  split; cbn.
  - intros f [= <-]. exists i, (Dial (fresh_id s)). by rewrite lookup_insert_eq.
  - intros j r f Hj Hr. apply lookup_insert_Some in Hj as [[-> <-]|[? Hj]]; [by injection Hr as <-|].
    rewrite (Hnone _ _ Hj) in Hr. done.
  - intros j k r1 r2 Hj Hk' [x Hr1] [y Hr2].
    apply lookup_insert_Some in Hj as [[-> <-]|[? Hj]];
      apply lookup_insert_Some in Hk' as [[-> <-]|[? Hk']]; try done;
      repeat match goal with H : callers s !! _ = Some _ |- _ => apply Hnone in H end; congruence.
  - intros f Hff. destruct (decide (f = fresh_id s)) as [->|]; [lia|].
    rewrite lookup_insert_ne in Hff by done. specialize (Hf f Hff). lia.
  - intros f Hff. apply lookup_insert_Some in Hff as [[-> _]|[? Hff]]; [done|].
    specialize (Ho f Hff). congruence.
  - intros f [= <-]. by rewrite lookup_insert_eq.
  - intros j f Hj. apply lookup_insert_Some in Hj as [[-> ?]|[? Hj]]; [done|].
    specialize (Hw j f Hj). destruct (decide (f = fresh_id s)) as [->|];
      [rewrite lookup_insert_eq; eauto|by rewrite lookup_insert_ne].
Qed.

Lemma dial_wf_publish s i f r q :
  dial_wf s → callers s !! i = Some (Publish f r) → leads q = None → (∀ g, q ≠ Wait g) →
  dial_wf (at_pc i q (publish f r s)).
Proof.
  intros [Hl Hd H1 Hf Ho Hk Hw] Hi Hq Hnw.
  pose proof (Hd _ _ _ Hi eq_refl) as Hreg.
  assert (Hother : ∀ j p, callers s !! j = Some p → j ≠ i → leads p = None).
  { intros j p Hj Hne. destruct (leads p) eqn:Hp; [|done]. destruct Hne.
    eapply H1; [exact Hj|exact Hi|eauto|by eexists]. }
  split; cbn.
  - done.
  - intros j p g Hj Hp. apply lookup_insert_Some in Hj as [[-> <-]|[Hne Hj]]; [congruence|].
    rewrite (Hother j p) in Hp by done. done.
  - intros j k p1 p2 Hj Hk' [x Hp1] [y Hp2].
    apply lookup_insert_Some in Hj as [[-> <-]|[? Hj]]; [congruence|].
    rewrite (Hother j p1) in Hp1 by done. done.
  - intros g Hg. apply Hf. destruct (decide (g = f)) as [->|]; [rewrite Hk by done; eauto|].
    by rewrite lookup_insert_ne in Hg.
  - intros g Hg. apply lookup_insert_Some in Hg as [[_ ?]|[? Hg]]; [done|].
    specialize (Ho g Hg). congruence.
  - done.
  - intros j g Hj. apply lookup_insert_Some in Hj as [[-> ?]|[? Hj]]; [by destruct (Hnw g)|].
    specialize (Hw j g Hj). destruct (decide (g = f)) as [->|];
      [rewrite lookup_insert_eq; eauto|by rewrite lookup_insert_ne].
Qed.

Lemma dial_wf_start : dial_wf start.
Proof.
  split; cbn; intros; try done;
    repeat match goal with
    | H : (∅ : gmap _ _) !! _ = Some _ |- _ => by apply lookup_empty_Some in H
    | H : is_Some ((∅ : gmap _ _) !! _) |- _ => destruct H
    end.
Qed.

(** Moves that only change the caller's point and fields the dial does not see. *)
Lemma dial_wf_at s s' i p q :
  dial_wf s → callers s !! i = Some p → leads q = leads p →
  (∀ f, q = Wait f → is_Some (done s !! f)) → same_dial s s' → dial_wf (at_pc i q s').
Proof.
  intros Hwf Hi Hq Hw Hsame. pose proof Hsame as (Hdd & Hdn & Hc & _).
  eapply dial_wf_move; [by eapply dial_wf_same|left; by rewrite Hc|done|].
  rewrite Hdn. done.
Qed.

Lemma dial_wf_step l s s' : dial_wf s → step l s = Some s' → dial_wf s'.
Proof.
  intros Hwf Hs. destruct l as [i|i ok|d|stale|]; cbn in Hs.
  - destruct (callers s !! i) eqn:Hi; [done|]. injection Hs as <-.
    by eapply dial_wf_move with (p := Live); auto.
  - destruct (callers s !! i) as [p|] eqn:Hi; [|done]. cbn in Hs.
    assert (Hat : ∀ s1 q, leads q = leads p → (∀ f, q = Wait f → is_Some (done s !! f)) →
              same_dial s s1 → dial_wf (at_pc i q s1)) by (intros; by eapply dial_wf_at).
    assert (Hrefl : same_dial s s) by done.
    destruct p; cbn in Hs.
    + destruct (doh s); [case_decide|]; injection Hs as <-; by apply Hat.
    + injection Hs as <-. by apply Hat.
    + destruct (dohDial s) as [f|] eqn:Hd; injection Hs as <-; [|by eapply dial_wf_join].
      apply Hat; try done. intros g [= <-]. rewrite (dw_known _ Hwf f Hd). by eexists.
    + destruct ok; [|by injection Hs as <-; apply Hat].
      destruct (done s !! f) as [[[]|]|]; try done; injection Hs as <-; by apply Hat.
    + destruct ok; injection Hs as <-; apply Hat; try done. repeat split; try done. cbn. lia.
    + destruct (closed s); injection Hs as <-; by apply Hat.
    + injection Hs as <-. by apply Hat.
    + injection Hs as <-. by destruct r; eapply dial_wf_publish.
    + destruct (closed s); injection Hs as <-; by apply Hat.
    + destruct (victim (Some d) s); injection Hs as <-; by apply Hat.
    + injection Hs as <-. by apply Hat.
    + done.
  - injection Hs as <-. by eapply dial_wf_same.
  - destruct (victim stale s); injection Hs as <-; [|done]. by eapply dial_wf_same.
  - unfold close_step in Hs. destruct (closer s) as [|[]| |]; try done; injection Hs as <-;
      by eapply dial_wf_same.
Qed.

Lemma reach_dial_wf s : reach s → dial_wf s.
Proof.
  intros Hr. eapply rtc_invariant; [|exact dial_wf_start|exact Hr].
  intros x y Hx (l & Hl). by eapply dial_wf_step.
Qed.

(** ** Who owns each connection *)

Inductive place := PDoh | PCaller (i : nat) | PCloser | PLost.

#[export] Instance place_eq_dec : EqDecision place.
Proof. solve_decision. Defined.

Definition owns (p : pc) : option nat :=
  match p with
  | Retire d | CheckClosed _ d | Discard _ d | Publish _ (Some d) | DropClose d => Some d
  | _ => None
  end.

Definition at_place (s : slot) (d : nat) (pl : place) : Prop :=
  match pl with
  | PDoh => doh s = Some d
  | PCaller i => ∃ p, callers s !! i = Some p ∧ owns p = Some d
  | PCloser => closer s = TookOut (Some d)
  | PLost => d ∈ lost s
  end.

Record own_wf (s : slot) : Prop := OwnWf {
  ow_open : ∀ d, conns s !! d = Some true ↔ ∃ pl, at_place s d pl;
  ow_one : ∀ d pl pl', at_place s d pl → at_place s d pl' → pl = pl';
  ow_fresh : ∀ d, is_Some (conns s !! d) → d < fresh_id s
}.

(** A step that relocates connections: [f x = Some (Some pl)] moves [x] to [pl],
    [f x = Some None] closes it, [f x = None] leaves it where it is. *)
Lemma own_relocate s s' (f : nat → option (option place)) :
  own_wf s →
  (∀ x pl, at_place s' x pl ↔ match f x with Some t => t = Some pl | None => at_place s x pl end) →
  (∀ x, conns s' !! x = Some true ↔
        match f x with Some t => is_Some t | None => conns s !! x = Some true end) →
  (∀ x, is_Some (conns s' !! x) → x < fresh_id s') →
  own_wf s'.
Proof.
  intros [Ho H1 _] Hpl Hc Hf. split; [| |done].
  - intros x. rewrite Hc. setoid_rewrite Hpl. destruct (f x) as [t|]; [|apply Ho].
    split; [intros [pl ->]; by exists pl|intros [pl ->]; by eexists].
  - intros x pl pl'. rewrite !Hpl. destruct (f x) as [t|]; [congruence|apply H1].
Qed.

Lemma at_place_pc s i q x pl :
  at_place (at_pc i q s) x pl ↔
  if decide (pl = PCaller i) then owns q = Some x else at_place s x pl.
Proof.
  destruct pl as [|j| |]; try done. case_decide as Hj.
  - injection Hj as ->. cbn. setoid_rewrite lookup_insert_eq. naive_solver.
  - cbn. assert (j ≠ i) by congruence. by setoid_rewrite lookup_insert_ne.
Qed.

(** What a place holds is its owner's, so a connection at one place is at no other. *)
Lemma only_place s d pl pl' : own_wf s → at_place s d pl → at_place s d pl' → pl ≠ pl' → False.
Proof. intros Hwf Hpl Hpl' Hne. by eapply Hne, ow_one. Qed.

(** [H0] places a connection, [H] places it elsewhere. *)
Ltac elsewhere Hwf H0 H :=
  exfalso;
  first [exact (only_place _ _ _ PDoh Hwf H0 H ltac:(congruence))
        |exact (only_place _ _ _ (PCaller _) Hwf H0 H ltac:(congruence))
        |exact (only_place _ _ _ PCloser Hwf H0 H ltac:(congruence))
        |exact (only_place _ _ _ PLost Hwf H0 H ltac:(congruence))].

Lemma at_place_caller s i p x : callers s !! i = Some p → at_place s x (PCaller i) ↔ owns p = Some x.
Proof. intros Hi. cbn. rewrite Hi. naive_solver. Qed.

Lemma own_caller s i p q :
  own_wf s → callers s !! i = Some p → owns q = owns p → own_wf (at_pc i q s).
Proof.
  intros Hwf Hi Hq. apply (own_relocate s _ (λ _, None)); [done| |done|apply Hwf].
  intros x pl. rewrite at_place_pc. case_decide as Hpl; [|done].
  rewrite Hpl, (at_place_caller s i p) by done. by rewrite Hq.
Qed.

Lemma own_new s i : own_wf s → callers s !! i = None → own_wf (at_pc i Live s).
Proof.
  intros Hwf Hi. apply (own_relocate s _ (λ _, None)); [done| |done|apply Hwf].
  intros x pl. rewrite at_place_pc. case_decide as Hpl; [|done].
  rewrite Hpl. cbn. rewrite Hi. naive_solver.
Qed.

(** A connection leaves the slot for a goroutine. *)
Lemma own_take s i p q d :
  own_wf s → callers s !! i = Some p → owns p = None → owns q = Some d → doh s = Some d →
  own_wf (at_pc i q (set_doh None s)).
Proof.
  intros Hwf Hi Hp Hq Hd.
  apply (own_relocate s _ (λ x, if decide (x = d) then Some (Some (PCaller i)) else None));
    [done| | |apply Hwf].
  - intros x pl. rewrite at_place_pc, Hq. case_decide as Hpl.
    + subst pl. case_decide as Hx; [by subst|].
      rewrite (at_place_caller s i p), Hp by done. naive_solver.
    + case_decide as Hx.
      * subst x. split; [|congruence]. intros Hat.
        assert (H0 : at_place s d PDoh) by done.
        destruct pl as [|j| |]; cbn in Hat; [done|elsewhere Hwf H0 Hat..].
      * destruct pl; try done. cbn. naive_solver.
  - intros x. case_decide as Hx; [|done]. subst x. cbn.
    rewrite (ow_open _ Hwf). split; [eauto|]. intros _. by exists PDoh.
Qed.

(** A goroutine closes what it owns. *)
Lemma own_release s i p q d :
  own_wf s → callers s !! i = Some p → owns p = Some d → owns q = None →
  own_wf (at_pc i q (close_conn d s)).
Proof.
  intros Hwf Hi Hp Hq.
  assert (Hat : at_place s d (PCaller i)) by by apply (at_place_caller s i p).
  apply (own_relocate s _ (λ x, if decide (x = d) then Some None else None)); [done| | |].
  - intros x pl. rewrite at_place_pc, Hq. case_decide as Hpl.
    + subst pl. case_decide as Hx; [naive_solver|].
      rewrite (at_place_caller s i p), Hp by done. naive_solver.
    + case_decide as Hx; [|by destruct pl]. subst x. split; [|done]. intros Hat'.
      assert (H1 : at_place s d pl) by by destruct pl.
      exfalso. eapply (only_place s d (PCaller i) pl); [done|done|done|congruence].
  - intros x. cbn. case_decide as Hx; [subst x; rewrite lookup_insert_eq|by rewrite lookup_insert_ne].
    split; [done|by intros []].
  - intros x Hx. apply (ow_fresh _ Hwf). destruct (decide (x = d)) as [->|].
    + assert (conns s !! d = Some true) as -> by (apply (ow_open _ Hwf); eauto). eauto.
    + cbn in Hx. by rewrite lookup_insert_ne in Hx.
Qed.

Lemma own_dialled s i f d :
  own_wf s → callers s !! i = Some (Dial f) → d = fresh_id s →
  own_wf (at_pc i (CheckClosed f d)
    (Slot (doh s) (dohDial s) (closed s) (<[d := true]> (conns s)) (spent s) (done s) (S d)
          (callers s) (closer s) (window s) (lost s))).
Proof.
  intros Hwf Hi ->. set (d := fresh_id s).
  assert (Hnone : ∀ pl, ¬ at_place s d pl).
  { intros pl Hpl. assert (conns s !! d = Some true) by (apply (ow_open _ Hwf); eauto).
    pose proof (ow_fresh _ Hwf d ltac:(eauto)). subst d. lia. }
  apply (own_relocate s _ (λ x, if decide (x = d) then Some (Some (PCaller i)) else None)); [done| | |].
  - intros x pl. rewrite at_place_pc. cbn [owns]. case_decide as Hpl.
    + subst pl. case_decide as Hx; [naive_solver|].
      rewrite (at_place_caller s i (Dial f)) by done. cbn. naive_solver.
    + case_decide as Hx; [|by destruct pl]. subst x. split; [|congruence]. intros Hat. exfalso.
      eapply (Hnone pl). by destruct pl.
  - intros x. cbn. case_decide as Hx; [subst x; rewrite lookup_insert_eq|by rewrite lookup_insert_ne].
    split; [eauto|done].
  - intros x Hx. cbn in *. destruct (decide (x = d)) as [->|]; [lia|].
    rewrite lookup_insert_ne in Hx by done. pose proof (ow_fresh _ Hwf x Hx). lia.
Qed.

(** The installation: the new connection becomes the shared one, and one that was
    there is lost. *)
Lemma own_publish s i f d q :
  own_wf s → callers s !! i = Some (Publish f (Some d)) → owns q = None →
  own_wf (at_pc i q (publish f (Some d) s)).
Proof.
  intros Hwf Hi Hq.
  assert (Hat : at_place s d (PCaller i)) by by apply (at_place_caller s i (Publish f (Some d))).
  assert (Hne : doh s ≠ Some d) by (intros Hd; elsewhere Hwf Hat Hd).
  apply (own_relocate s _ (λ x, if decide (x = d) then Some (Some PDoh)
           else if decide (doh s = Some x) then Some (Some PLost) else None)); [done| | |apply Hwf].
  - intros x pl. rewrite at_place_pc, Hq. case_decide as Hpl.
    + subst pl. case_decide as Hx; [naive_solver|]. case_decide; [naive_solver|].
      rewrite (at_place_caller s i (Publish f (Some d))) by done. cbn. naive_solver.
    + case_decide as Hx.
      * subst x. destruct pl as [|j| |]; cbn; try naive_solver.
        -- split; [|congruence]. intros Hj. elsewhere Hwf Hat Hj.
        -- split; [|congruence]. intros Hj. elsewhere Hwf Hat Hj.
        -- split; [|congruence]. intros Hj.
           assert (Hl : d ∈ lost s) by (destruct (doh s); set_solver). elsewhere Hwf Hat Hl.
      * case_decide as Hd.
        -- assert (H0 : at_place s x PDoh) by done.
           destruct pl as [|j| |]; cbn; [naive_solver| | |rewrite Hd; split; [done|intros _; set_solver]].
           ++ split; [|congruence]. intros Hj. elsewhere Hwf H0 Hj.
           ++ split; [|congruence]. intros Hj. elsewhere Hwf H0 Hj.
        -- destruct pl as [|j| |]; cbn; try naive_solver. destruct (doh s); set_solver.
  - intros x. cbn. case_decide as Hx; [subst x|case_decide as Hd; [|done]].
    + rewrite (ow_open _ Hwf). split; [eauto|]. intros _. by exists (PCaller i).
    + rewrite (ow_open _ Hwf). split; [eauto|]. intros _. by exists PDoh.
Qed.

(** [invalidateDoH]: out of the slot and closed. *)
Lemma own_invalidate s d : own_wf s → doh s = Some d → own_wf (close_conn d (set_doh None s)).
Proof.
  intros Hwf Hd. assert (H0 : at_place s d PDoh) by done.
  apply (own_relocate s _ (λ x, if decide (x = d) then Some None else None)); [done| | |].
  - intros x pl. case_decide as Hx.
    + subst x. split; [|done]. destruct pl as [|j| |]; cbn; intros Hat; [done|elsewhere Hwf H0 Hat..].
    + destruct pl; try done. cbn. naive_solver.
  - intros x. cbn. case_decide as Hx; [subst x; rewrite lookup_insert_eq|by rewrite lookup_insert_ne].
    split; [done|by intros []].
  - intros x Hx. apply (ow_fresh _ Hwf). destruct (decide (x = d)) as [->|].
    + assert (conns s !! d = Some true) as -> by (apply (ow_open _ Hwf); eauto). eauto.
    + cbn in Hx. by rewrite lookup_insert_ne in Hx.
Qed.

Lemma own_close s s' : own_wf s → close_step s = Some s' → own_wf s'.
Proof.
  intros Hwf Hs. unfold close_step in Hs. destruct (closer s) as [|v| |] eqn:Hc; [| | |done].
  - injection Hs as <-.
    apply (own_relocate s _ (λ x, if decide (doh s = Some x) then Some (Some PCloser) else None));
      [done| | |apply Hwf].
    + intros x pl. case_decide as Hx.
      * assert (H0 : at_place s x PDoh) by done. destruct pl as [|j| |]; cbn; [naive_solver| | |].
        -- split; [|congruence]. intros Hj. elsewhere Hwf H0 Hj.
        -- rewrite Hx. naive_solver.
        -- split; [|congruence]. intros Hj. elsewhere Hwf H0 Hj.
      * destruct pl; cbn; rewrite ?Hc; try done; naive_solver.
    + intros x. cbn. case_decide as Hx; [|done]. rewrite (ow_open _ Hwf).
      split; [eauto|]. intros _. by exists PDoh.
  - destruct v as [d|]; injection Hs as <-.
    + assert (H0 : at_place s d PCloser) by done.
      apply (own_relocate s _ (λ x, if decide (x = d) then Some None else None)); [done| | |].
      * intros x pl. case_decide as Hx.
        -- subst x. split; [|done]. destruct pl as [|j| |]; cbn; intros Hat; try done;
             elsewhere Hwf H0 Hat.
        -- destruct pl; try done. cbn. rewrite Hc. naive_solver.
      * intros x. cbn. case_decide as Hx; [subst x; rewrite lookup_insert_eq|by rewrite lookup_insert_ne].
        split; [done|by intros []].
      * intros x Hx. apply (ow_fresh _ Hwf). destruct (decide (x = d)) as [->|].
        -- assert (conns s !! d = Some true) as -> by (apply (ow_open _ Hwf); eauto). eauto.
        -- cbn in Hx. by rewrite lookup_insert_ne in Hx.
    + apply (own_relocate s _ (λ _, None)); [done| |done|apply Hwf].
      intros x pl. destruct pl; try done. cbn. rewrite Hc. naive_solver.
  - injection Hs as <-. apply (own_relocate s _ (λ _, None)); [done| |done|apply Hwf].
    intros x pl. destruct pl; try done. cbn. rewrite Hc. naive_solver.
Qed.

(** Steps that touch neither the slot, the connections nor the closer. *)
Lemma own_same s s' :
  own_wf s → doh s' = doh s → conns s' = conns s → callers s' = callers s →
  closer s' = closer s → lost s' = lost s → fresh_id s <= fresh_id s' → own_wf s'.
Proof.
  intros Hwf Hd Hc Hcl Hcs Hl Hf. apply (own_relocate s _ (λ _, None)); [done| | |].
  - intros x pl. destruct pl; cbn; by rewrite ?Hd, ?Hcl, ?Hcs, ?Hl.
  - intros x. by rewrite Hc.
  - intros x. rewrite Hc. intros Hx. pose proof (ow_fresh _ Hwf x Hx). lia.
Qed.

Lemma victim_Some stale s v : victim stale s = Some v → doh s = Some v.
Proof.
  unfold victim. destruct (doh s) as [w|]; [|done].
  destruct stale; [case_decide; [|done]|]; by intros [= <-].
Qed.

Lemma own_step l s s' : own_wf s → step l s = Some s' → own_wf s'.
Proof.
  intros Hwf Hs. destruct l as [i|i ok|d|stale|]; cbn in Hs.
  - destruct (callers s !! i) eqn:Hi; [done|]. injection Hs as <-. by apply own_new.
  - destruct (callers s !! i) as [p|] eqn:Hi; [|done]. cbn in Hs.
    assert (Hmove : ∀ q, owns q = owns p → own_wf (at_pc i q s)) by (intros; by eapply own_caller).
    assert (Hmove' : ∀ q s1, owns q = owns p → own_wf s1 → callers s1 !! i = Some p →
              own_wf (at_pc i q s1)) by (intros; by eapply own_caller).
    destruct p as [|d| |f|f|f d|f d|f r|d|d|d|r]; cbn in Hs.
    + destruct (doh s) as [d|] eqn:Hd; [case_decide|]; injection Hs as <-; try by apply Hmove.
      by eapply own_take.
    + injection Hs as <-. by eapply own_release.
    + destruct (dohDial s); injection Hs as <-; [by apply Hmove|].
      apply Hmove'; [done| |done]. apply (own_same s); cbn; done || lia.
    + destruct ok; [|injection Hs as <-; by apply Hmove].
      destruct (done s !! f) as [[[]|]|]; try done; injection Hs as <-; by apply Hmove.
    + destruct ok; injection Hs as <-; [by apply own_dialled|by apply Hmove].
    + destruct (closed s); injection Hs as <-; by apply Hmove.
    + injection Hs as <-. by eapply own_release.
    + injection Hs as <-. destruct r as [d|]; [by eapply own_publish|].
      apply Hmove'; [done| |done]. by apply (own_same s).
    + destruct (closed s); injection Hs as <-; by apply Hmove.
    + destruct (victim (Some d) s) as [v|] eqn:Hv; injection Hs as <-; [|by apply Hmove].
      apply victim_Some in Hv. by eapply own_take.
    + injection Hs as <-. by eapply own_release.
    + done.
  - injection Hs as <-. by apply (own_same s).
  - destruct (victim stale s) as [v|] eqn:Hv; injection Hs as <-; [|done].
    apply victim_Some in Hv. by apply own_invalidate.
  - by eapply own_close.
Qed.

Lemma at_start d pl : ¬ at_place start d pl.
Proof.
  destruct pl; cbn; [done| |done|set_solver].
  intros (p & H & _). by apply lookup_empty_Some in H.
Qed.

Lemma own_start : own_wf start.
Proof.
  split; cbn.
  - intros d. split; [intros H; by apply lookup_empty_Some in H|].
    intros [pl H]. by apply at_start in H.
  - intros d pl pl' H. by apply at_start in H.
  - intros d [x H]. by apply lookup_empty_Some in H.
Qed.

Lemma reach_own s : reach s → own_wf s.
Proof.
  intros Hr. eapply rtc_invariant; [|exact own_start|exact Hr].
  intros x y Hx (l & Hl). by eapply own_step.
Qed.

(** ** Connections installed while the client closes *)

(** A goroutine that will drop [d] when it finds the client closed. *)
Definition will_drop (s : slot) (d : nat) : Prop :=
  ∃ i, callers s !! i = Some (Recheck d) ∨ callers s !! i = Some (Drop d).

Record close_wf (s : slot) : Prop := CloseWf {
  cw_closed : closed s = true → closer s = Done;
  cw_during : closing_now (closer s) = true → ∀ d, doh s = Some d → d ∈ window s;
  cw_after : closer s = Done → closed s = true ∧
             ∀ d, doh s = Some d → d ∈ window s ∨ will_drop s d
}.

(** A caller that is not about to drop moves; the slot may be emptied. *)
Lemma close_move s s' i p q :
  close_wf s → callers s !! i = Some p →
  (∀ d, p = Recheck d → closed s = true → q = Drop d) →
  (∀ d, p = Drop d → doh s' ≠ Some d) →
  (doh s' = doh s ∨ doh s' = None) → closed s' = closed s → closer s' = closer s →
  callers s' = callers s → window s' = window s → close_wf (at_pc i q s').
Proof.
  intros [Hc Hd Ha] Hi Hr Hdr Hdoh Hcl Hcs Hcal Hw.
  split; cbn; rewrite ?Hcl, ?Hcs, ?Hw; [done| |].
  - intros Hn d Hd'. apply Hd; [done|]. destruct Hdoh; congruence.
  - intros Hdone. destruct (Ha Hdone) as [Hclosed Hdrop]. split; [done|]. intros d Hd'.
    destruct (Hdrop d) as [|(j & Hj)]; [destruct Hdoh; congruence|by left|]. right.
    unfold will_drop. cbn. rewrite Hcal. destruct (decide (j = i)) as [->|Hne].
    + exists i. rewrite lookup_insert_eq. right. f_equal.
      destruct Hj as [Hj|Hj]; rewrite Hi in Hj; injection Hj as ->; [by apply Hr|].
      by destruct (Hdr d).
    + exists j. by rewrite lookup_insert_ne.
Qed.

Lemma close_publish s i f r q :
  close_wf s → callers s !! i = Some (Publish f r) →
  (∀ d, r = Some d → q = Recheck d) → close_wf (at_pc i q (publish f r s)).
Proof.
  intros [Hc Hd Ha] Hi Hq. split; cbn; [done| |].
  - intros Hn d Hd'. rewrite Hn. destruct r as [x|]; [|by apply Hd].
    injection Hd' as <-. set_solver.
  - intros Hdone. destruct (Ha Hdone) as [Hclosed Hdrop]. split; [done|]. intros d Hd'.
    rewrite Hdone. cbn. unfold will_drop. cbn. destruct r as [x|].
    + injection Hd' as <-. right. exists i. rewrite lookup_insert_eq. left. f_equal. by apply Hq.
    + destruct (Hdrop d Hd') as [|(j & Hj)]; [by left|]. right. exists j.
      rewrite lookup_insert_ne; [done|]. intros <-. rewrite Hi in Hj. by destruct Hj.
Qed.

Lemma close_wf_step l s s' : close_wf s → step l s = Some s' → close_wf s'.
Proof.
  intros Hwf Hs. destruct l as [i|i ok|d|stale|]; cbn in Hs.
  - destruct (callers s !! i) eqn:Hi; [done|]. injection Hs as <-. destruct Hwf as [Hc Hd Ha].
    split; cbn; try done. intros Hdone. destruct (Ha Hdone) as [? Hdrop]. split; [done|].
    intros d Hd'. destruct (Hdrop d Hd') as [|(j & Hj)]; [by left|]. right. exists j. cbn.
    rewrite lookup_insert_ne; [done|]. intros <-. rewrite Hi in Hj. by destruct Hj.
  - destruct (callers s !! i) as [p|] eqn:Hi; [|done]. cbn in Hs.
    assert (Hmove : ∀ s1 q, (∀ d, p = Recheck d → closed s = true → q = Drop d) →
      (∀ d, p = Drop d → doh s1 ≠ Some d) → (doh s1 = doh s ∨ doh s1 = None) →
      closed s1 = closed s → closer s1 = closer s → callers s1 = callers s →
      window s1 = window s → close_wf (at_pc i q s1)) by (intros; by eapply close_move).
    destruct p as [|d| |f|f|f d|f d|f r|d|d|d|r]; cbn in Hs.
    + destruct (doh s) as [d|] eqn:Hd; [case_decide|]; injection Hs as <-; apply Hmove; auto; done.
    + injection Hs as <-. apply Hmove; auto; done.
    + destruct (dohDial s); injection Hs as <-; apply Hmove; auto; done.
    + destruct ok; [|injection Hs as <-; apply Hmove; auto; done].
      destruct (done s !! f) as [[[]|]|]; try done; injection Hs as <-; apply Hmove; auto; done.
    + destruct ok; injection Hs as <-; apply Hmove; auto; done.
    + destruct (closed s) eqn:Hc; injection Hs as <-; apply Hmove; auto; done.
    + injection Hs as <-. apply Hmove; auto; done.
    + injection Hs as <-. apply close_publish; [done|done|]. by intros d ->.
    + destruct (closed s) eqn:Hc; injection Hs as <-; apply Hmove; auto; try done.
      by intros ? [= <-].
    + unfold victim in Hs. destruct (doh s) as [v|] eqn:Hd.
      * case_decide as Hv; injection Hs as <-; apply Hmove; auto; try done.
        intros ? [= <-]. congruence.
      * injection Hs as <-. apply Hmove; auto; try done. intros ? _. congruence.
    + injection Hs as <-. apply Hmove; auto; done.
    + done.
  - injection Hs as <-. destruct Hwf. by split.
  - destruct (victim stale s); injection Hs as <-; [|done]. destruct Hwf as [Hc Hd Ha].
    split; cbn; try done. intros Hdone. by destruct (Ha Hdone).
  - unfold close_step in Hs. destruct Hwf as [Hc Hd Ha].
    destruct (closer s) as [|v| |] eqn:Hcs; [| | |done].
    + injection Hs as <-. split; cbn; [|done..]. intros H. by specialize (Hc H).
    + injection Hs as <-. destruct v; split; cbn; try done; intros H; by specialize (Hc H).
    + injection Hs as <-. split; cbn; [done..|]. intros _. split; [done|]. intros d Hd'.
      left. by apply Hd.
Qed.

Lemma close_start : close_wf start.
Proof. by split. Qed.

Lemma reach_close s : reach s → close_wf s.
Proof.
  intros Hr. eapply rtc_invariant; [|exact close_start|exact Hr].
  intros x y Hx (l & Hl). by eapply close_wf_step.
Qed.

(** A run is a reachable state. *)
Lemma run_reach ls s : run ls = Some s → reach s.
Proof.
  revert s. unfold run. induction ls as [|l ls IH] using rev_ind; intros s Hs.
  - injection Hs as <-. apply rtc_refl.
  - rewrite foldl_snoc in Hs. apply bind_Some in Hs as (s1 & H1 & H2).
    eapply rtc_r; [by apply IH|by exists l].
Qed.
End SlotFacts.

(** ** Properties *)

(** cold-start dials are coalesced: in every reachable state at most one
    goroutine is dialling a DoH connection, [dohDial] is set exactly while one is,
    and a goroutine that waits for a dial can either return its result or some
    goroutine is still dialling for it. *)
Theorem doh_one_dial s :
  Slot.reach s →
  (∀ i j p q, Slot.callers s !! i = Some p → Slot.callers s !! j = Some q →
     is_Some (SlotFacts.leads p) → is_Some (SlotFacts.leads q) → i = j) ∧
  (∀ f, Slot.dohDial s = Some f ↔
        ∃ i p, Slot.callers s !! i = Some p ∧ SlotFacts.leads p = Some f) ∧
  (∀ i f, Slot.callers s !! i = Some (Slot.Wait f) →
     is_Some (Slot.step (Slot.Go i true) s) ∨
     ∃ j p, Slot.callers s !! j = Some p ∧ SlotFacts.leads p = Some f).
Proof.
  intros Hwf%SlotFacts.reach_dial_wf. split_and!; [apply Hwf| |].
  - intros f. split; [apply Hwf|]. intros (i & p & Hi & Hp). by eapply (SlotFacts.dw_leader _ Hwf).
  - intros i f Hi. cbn. rewrite Hi. cbn.
    destruct (SlotFacts.dw_wait _ Hwf i f Hi) as [r Hr]. rewrite Hr.
    destruct r as [[d|]|]; [left; eauto..|]. right. apply Hwf. by apply (SlotFacts.dw_open _ Hwf).
Qed.

(** Two goroutines, the second waiting for the first. *)
Definition two_dialers : Slot.slot :=
  default Slot.start (Slot.run [Slot.Call 0; Slot.Go 0 true; Slot.Go 0 true; Slot.Call 1;
                                Slot.Go 1 true; Slot.Go 1 true]).

Lemma doh_one_dial_witness :
  ∃ i p, Slot.callers two_dialers !! i = Some p ∧ SlotFacts.leads p = Some 0.
Proof.
  assert (Hr : Slot.reach two_dialers)
    by (eapply (SlotFacts.run_reach [Slot.Call 0; Slot.Go 0 true; Slot.Go 0 true; Slot.Call 1;
          Slot.Go 1 true; Slot.Go 1 true]); by vm_compute).
  apply (proj1 (proj2 (doh_one_dial two_dialers Hr)) 0). by vm_compute.
Defined.

(** C23: every open DoH connection is in exactly one place -- the slot, a goroutine
    that will install or close it, [Close], or lost because a later dial was
    installed over it -- and none is closed twice; once [Close] is done and all
    goroutines have returned, a connection is still open only if it was so
    overwritten, or was installed between [Close]'s two critical sections. *)
Theorem doh_connections_accounted s :
  Slot.reach s →
  (∀ d, Slot.conns s !! d = Some true ↔ ∃ pl, SlotFacts.at_place s d pl) ∧
  (∀ d pl pl', SlotFacts.at_place s d pl → SlotFacts.at_place s d pl' → pl = pl') ∧
  (Slot.closer s = Slot.Done →
   (∀ i p, Slot.callers s !! i = Some p → ∃ r, p = Slot.Ret r) →
   ∀ d, Slot.conns s !! d = Some true →
     d ∈ Slot.lost s ∨ (Slot.doh s = Some d ∧ d ∈ Slot.window s)).
Proof.
  intros Hr. pose proof (SlotFacts.reach_own _ Hr) as Hwf.
  pose proof (SlotFacts.reach_close _ Hr) as Hcl.
  split; [apply Hwf|]. split; [apply Hwf|]. intros Hdone Hret d Hd.
  apply (SlotFacts.ow_open _ Hwf) in Hd as [[|i| |] Hpl]; cbn in Hpl; [| |congruence|by left].
  - right. split; [done|]. destruct (SlotFacts.cw_after _ Hcl Hdone) as [_ Hdrop].
    destruct (Hdrop d Hpl) as [|(i & Hi)]; [done|].
    destruct Hi as [Hi|Hi]; destruct (Hret i _ Hi); done.
  - destruct Hpl as (p & Hp & Ho). destruct (Hret i p Hp) as [r ->]. done.
Qed.

(** Two goroutines miss the slot; the second looks for a dial only after the first
    one's has ended, dials again, and installs over the first connection. *)
Definition overwrite : list Slot.label :=
  [Slot.Call 0; Slot.Call 1; Slot.Go 0 true; Slot.Go 1 true; Slot.Go 0 true; Slot.Go 0 true;
   Slot.Go 0 true; Slot.Go 0 true; Slot.Go 0 true; Slot.Go 1 true; Slot.Go 1 true; Slot.Go 1 true;
   Slot.Go 1 true; Slot.Go 1 true; Slot.CloseCall; Slot.CloseCall; Slot.CloseCall].

Definition overwritten : Slot.slot := default Slot.start (Slot.run overwrite).

(** So a connection can outlive [Close]: its number is 1. *)
Lemma doh_connection_overwritten :
  Slot.run overwrite = Some overwritten ∧ Slot.closer overwritten = Slot.Done ∧
  Slot.callers overwritten = {[0 := Slot.Ret (Some 1); 1 := Slot.Ret (Some 3)]} ∧
  Slot.conns overwritten !! 1 = Some true ∧ Slot.conns overwritten !! 3 = Some false.
Proof. split_and!; by vm_compute. Qed.

(** A connection installed between the two steps of [Close] is not dropped. *)
Definition close_race : list Slot.label :=
  [Slot.Call 0; Slot.Go 0 true; Slot.Go 0 true; Slot.Go 0 true; Slot.Go 0 true; Slot.CloseCall;
   Slot.Go 0 true; Slot.Go 0 true; Slot.CloseCall; Slot.CloseCall].

Lemma doh_close_race :
  (s ← Slot.run close_race; Some (Slot.closer s, Slot.closed s, Slot.doh s, Slot.conns s !! 1))
  = Some (Slot.Done, true, Some 1, Some true).
Proof. by vm_compute. Qed.

Lemma doh_connections_accounted_witness :
  1 ∈ Slot.lost overwritten ∨ (Slot.doh overwritten = Some 1 ∧ 1 ∈ Slot.window overwritten).
Proof.
  destruct doh_connection_overwritten as (Hrun & Hdone & Hcallers & Hopen & _).
  refine (proj2 (proj2 (doh_connections_accounted overwritten (SlotFacts.run_reach _ _ Hrun)))
            Hdone _ 1 Hopen).
  intros i p. rewrite Hcallers. intros [[_ <-]|[_ [_ <-]%lookup_singleton_Some]]%lookup_insert_Some;
    by eexists.
Defined.
