(* ===== verification/H2Client.v ===== *)
(** * The HTTP/2 CONNECT-IP client (src/tunnel/h2.go)

    [h2Bundle], [dial], and the goroutines of an [H2Client] -- [outboundPump],
    [maintain] with the [inboundPump] and [keepalive] of the bundle it supervises,
    and [Close] -- as a transition system: one step is one critical section, one
    channel operation or one call.  TCP, TLS, HTTP/2, CONNECT-IP and the userspace
    stack are third-party code: what their calls return is a choice. *)

From S2P Require Import Prelude.

(** ** dial *)
Section dial.
  Context {B : Type} (dialAddr : nat → gostring → option B) (live : nat → bool)
          (edgeAddrs : list gostring).

(** The loop: attempt [i], [fuel] attempts left. *)
Fixpoint h2_dial_loop (fuel i addrIdx : nat) : option B * nat * list nat :=
  match fuel with
  | O => (None, addrIdx, [])
  | S fuel =>
      let idx := (addrIdx + i) mod length edgeAddrs in
      match edgeAddrs !! idx with
      | None => (None, addrIdx, [])
      | Some addr =>
          match dialAddr idx addr with
          | Some b => (Some b, idx, [idx])
          | None =>
              if negb (live idx) then (None, addrIdx, [idx])
              else let '(r, new, tried) := h2_dial_loop fuel (S i) addrIdx in (r, new, idx :: tried)
          end
      end
  end.

Definition h2_dial (addrIdx : nat) : option B * nat * list nat :=
  h2_dial_loop (length edgeAddrs) 0 addrIdx.
End dial.

(** ** Bundles *)

(** [failed]: does the channel of capacity 1 hold an error; [failOnce]; [done]: is
    the channel closed, which [closeOnce] does once, with the connection. *)
Record h2Bundle := Bundle { failed : bool; failOnce : bool; b_done : bool }.

#[export] Instance h2Bundle_eq_dec : EqDecision h2Bundle.
Proof. solve_decision. Defined.

Definition newBundle : h2Bundle := Bundle false false false.

(** [h2Bundle.fail]: the send has a [default] branch. *)
Definition fail (b : h2Bundle) : h2Bundle :=
  if failOnce b then b else Bundle (if failed b then failed b else true) true (b_done b).

(** [h2Bundle.close] *)
Definition close_b (b : h2Bundle) : h2Bundle := Bundle (failed b) (failOnce b) true.

(** ** The client *)

(** [maintain], with the bundle it supervises. *)
Inductive maintain_pc :=
  | MWaitFail (b : nat)              (** pumps running; in the [select] *)
  | MClear (b : nat)
  | MCloseB (b : nat)
  | MJoin (b : nat)                  (** [bundleWG.Wait] *)
  | MCheckCtx
  | MDelay                           (** the [select] on [h2ReconnectDelay] *)
  | MDial
  | MSet (b : nat)
  | MCloseNew (b : nat)
  | MRet.

(** [inboundPump] and [keepalive] of the supervised bundle. *)
Inductive pump_pc := Running (b : nat) | Failing (b : nat) | Returned.

(** [outboundPump] and, inside it, [waitCurrent]. *)
Inductive out_pc := OReadTun | OLock | OSelect (ch : nat) | OWrite (b : nat) | OFail (b : nat) | ORet.

Inductive close_pc := CIdle | CCancel (b : option nat) | CCloseB (b : option nat) | CTun | CWait | CDone.

Record client := Client {
  current : option nat;
  connChanged : nat;                 (** the channel's number *)
  chans : gmap nat bool;             (** channels made; [true] while open *)
  closed : bool;
  ctxDone : bool;
  tunClosed : bool;
  bundles : gmap nat h2Bundle;
  fresh_id : nat;
  maintain : maintain_pc;
  inbound : pump_pc;
  keepalive : pump_pc;
  outbound : out_pc;
  closer : close_pc
}.

(** After [NewH2ClientContext]: the first bundle is current and supervised. *)
Definition start : client :=
  Client (Some 0) 1 {[0 := false; 1 := true]} false false false {[0 := newBundle]} 2
         (MWaitFail 0) (Running 0) (Running 0) OReadTun CIdle.

(** Field updates. *)
Definition set_maintain (p : maintain_pc) (c : client) : client :=
  Client (current c) (connChanged c) (chans c) (closed c) (ctxDone c) (tunClosed c) (bundles c)
         (fresh_id c) p (inbound c) (keepalive c) (outbound c) (closer c).
Definition set_inbound (p : pump_pc) (c : client) : client :=
  Client (current c) (connChanged c) (chans c) (closed c) (ctxDone c) (tunClosed c) (bundles c)
         (fresh_id c) (maintain c) p (keepalive c) (outbound c) (closer c).
Definition set_keepalive (p : pump_pc) (c : client) : client :=
  Client (current c) (connChanged c) (chans c) (closed c) (ctxDone c) (tunClosed c) (bundles c)
         (fresh_id c) (maintain c) (inbound c) p (outbound c) (closer c).
Definition set_outbound (p : out_pc) (c : client) : client :=
  Client (current c) (connChanged c) (chans c) (closed c) (ctxDone c) (tunClosed c) (bundles c)
         (fresh_id c) (maintain c) (inbound c) (keepalive c) p (closer c).
Definition set_closer (p : close_pc) (c : client) : client :=
  Client (current c) (connChanged c) (chans c) (closed c) (ctxDone c) (tunClosed c) (bundles c)
         (fresh_id c) (maintain c) (inbound c) (keepalive c) (outbound c) p.
Definition on_bundle (f : h2Bundle → h2Bundle) (b : nat) (c : client) : client :=
  Client (current c) (connChanged c) (chans c) (closed c) (ctxDone c) (tunClosed c)
         (alter f b (bundles c)) (fresh_id c) (maintain c) (inbound c) (keepalive c) (outbound c)
         (closer c).

(** Set [current], [close(c.connChanged)], and make a new channel: closing a closed
    channel panics. *)
Definition change (cur : option nat) (cl : bool) (c : client) : outcome Empty_set client :=
  if default false (chans c !! connChanged c) then
    let ch := fresh_id c in
    Ok (Client cur ch (<[ch := true]> (<[connChanged c := false]> (chans c))) cl (ctxDone c)
               (tunClosed c) (bundles c) (S ch) (maintain c) (inbound c) (keepalive c)
               (outbound c) (closer c))
  else Panic.

Definition setCurrent (b : nat) (c : client) : outcome Empty_set (bool * client) :=
  if closed c || ctxDone c then Ok (false, c)
  else c' ← change (Some b) (closed c) c; Ok (true, c').

Definition clearCurrent (b : nat) (c : client) : outcome Empty_set client :=
  if decide (current c = Some b) then change None (closed c) c else Ok c.

(** Which step, and how its call turns out. *)
Inductive inbound_result := Received | ReadErr | WriteErr.

Inductive label := Maintain (ok : bool) | Inbound (r : inbound_result) | Keepalive (ok : bool)
  | Outbound (ok : bool) | CloseCall.

Definition bundle_done (b : nat) (c : client) : bool :=
  match bundles c !! b with Some x => b_done x | None => false end.
Definition bundle_failed (b : nat) (c : client) : bool :=
  match bundles c !! b with Some x => failed x | None => false end.

(** [None]: the goroutine blocks or has returned. *)
Definition maintain_step (ok : bool) (c : client) : option (outcome Empty_set client) :=
  match maintain c with
  | MWaitFail b =>
      if ctxDone c && ok then Some (Ok (set_maintain (MClear b) c))
      else if bundle_failed b c then
        Some (Ok (set_maintain (MClear b)
          (on_bundle (λ x, Bundle false (failOnce x) (b_done x)) b c)))
      else if ctxDone c then Some (Ok (set_maintain (MClear b) c))
      else None
  | MClear b => Some (c' ← clearCurrent b c; Ok (set_maintain (MCloseB b) c'))
  | MCloseB b => Some (Ok (set_maintain (MJoin b) (on_bundle close_b b c)))
  | MJoin b =>
      match inbound c, keepalive c with
      | Returned, Returned => Some (Ok (set_maintain MCheckCtx c))
      | _, _ => None
      end
  | MCheckCtx => Some (Ok (set_maintain (if ctxDone c then MRet else MDelay) c))
  | MDelay => Some (Ok (set_maintain (if ctxDone c && ok then MRet else MDial) c))
  | MDial =>
      if ok then
        let b := fresh_id c in
        Some (Ok (set_maintain (MSet b)
          (Client (current c) (connChanged c) (chans c) (closed c) (ctxDone c) (tunClosed c)
                  (<[b := newBundle]> (bundles c)) (S b) (maintain c) (inbound c) (keepalive c)
                  (outbound c) (closer c))))
      else Some (Ok (set_maintain (if ctxDone c then MRet else MDelay) c))
  | MSet b =>
      Some ('(set, c') ← setCurrent b c;
            Ok (if set : bool then
                  set_maintain (MWaitFail b) (set_inbound (Running b) (set_keepalive (Running b) c'))
                else set_maintain (MCloseNew b) c'))
  | MCloseNew b => Some (Ok (set_maintain MRet (on_bundle close_b b c)))
  | MRet => None
  end.

(** A packet was read and written to the stack, or the read or the write failed.
    Reads fail once the bundle is closed. *)
Definition inbound_step (r : inbound_result) (c : client) : option (outcome Empty_set client) :=
  match inbound c with
  | Running b =>
      match r with
      | WriteErr => Some (Ok (set_inbound (if ctxDone c then Returned else Failing b) c))
      | _ =>
          if bundle_done b c then Some (Ok (set_inbound Returned c))
          else match r with
               | Received => Some (Ok c)
               | _ => Some (Ok (set_inbound (Failing b) c))
               end
      end
  | Failing b => Some (Ok (set_inbound Returned (on_bundle fail b c)))
  | Returned => None
  end.

(** [ok]: no PING failed; then the [select] takes [done] or the context once they are
    there.  A PING on a closed connection fails, so that outcome is always possible. *)
Definition keepalive_step (ok : bool) (c : client) : option (outcome Empty_set client) :=
  match keepalive c with
  | Running b =>
      if ok then
        if bundle_done b c || ctxDone c then Some (Ok (set_keepalive Returned c)) else Some (Ok c)
      else Some (Ok (set_keepalive (Failing b) c))
  | Failing b => Some (Ok (set_keepalive Returned (on_bundle fail b c)))
  | Returned => None
  end.

(** A packet of length 0 or above the MTU is read and dropped: no step. *)
Definition outbound_step (ok : bool) (c : client) : option (outcome Empty_set client) :=
  match outbound c with
  | OReadTun =>
      if tunClosed c || negb ok then Some (Ok (set_outbound ORet c))
      else Some (Ok (set_outbound OLock c))
  | OLock =>
      if closed c then Some (Ok (set_outbound ORet c))
      else match current c with
           | Some b => Some (Ok (set_outbound (OWrite b) c))
           | None => Some (Ok (set_outbound (OSelect (connChanged c)) c))
           end
  | OSelect ch =>
      if ctxDone c && ok then Some (Ok (set_outbound ORet c))
      else if negb (default true (chans c !! ch)) then Some (Ok (set_outbound OLock c))
      else if ctxDone c then Some (Ok (set_outbound ORet c))
      else None
  | OWrite b => Some (Ok (set_outbound (if ok && negb (bundle_done b c) then OReadTun else OFail b) c))
  | OFail b => Some (Ok (set_outbound OReadTun (on_bundle fail b c)))
  | ORet => None
  end.

Definition close_step (c : client) : option (outcome Empty_set client) :=
  match closer c with
  | CIdle => Some (c' ← change None true c; Ok (set_closer (CCancel (current c)) c'))
  | CCancel b =>
      Some (Ok (Client (current c) (connChanged c) (chans c) (closed c) true (tunClosed c)
                  (bundles c) (fresh_id c) (maintain c) (inbound c) (keepalive c) (outbound c)
                  (CCloseB b)))
  | CCloseB b =>
      Some (Ok (set_closer CTun (match b with Some b => on_bundle close_b b c | None => c end)))
  | CTun =>
      Some (Ok (Client (current c) (connChanged c) (chans c) (closed c) (ctxDone c) true
                  (bundles c) (fresh_id c) (maintain c) (inbound c) (keepalive c) (outbound c)
                  CWait))
  | CWait =>
      match maintain c, outbound c with
      | MRet, ORet => Some (Ok (set_closer CDone c))
      | _, _ => None
      end
  | CDone => None
  end.

Definition step (l : label) (c : client) : option (outcome Empty_set client) :=
  match l with
  | Maintain ok => maintain_step ok c
  | Inbound r => inbound_step r c
  | Keepalive ok => keepalive_step ok c
  | Outbound ok => outbound_step ok c
  | CloseCall => close_step c
  end.

Definition reach (c : client) : Prop := rtc (λ x y, ∃ l, step l x = Some (Ok y)) start c.

Definition run (ls : list label) : option (outcome Empty_set client) :=
  foldl (λ o l, match o with Some (Ok c) => step l c | _ => o end) (Some (Ok start)) ls.
