(* ===== verification/H2ClientFacts.v ===== *)
(** * No lost wake-up, no double close, no leaked bundle, and Close returns *)

From S2P Require Import Prelude Masque H2Client.

(** ** dial *)

(** The HTTP/2 client rotates over its candidates as the H3 client does; it has no
    unroutable families to stop at. *)
Lemma h2_dial_is_dial {B} (dialAddr : nat → gostring → option B) live edgeAddrs addrIdx :
  h2_dial dialAddr live edgeAddrs addrIdx =
  Masque.dial (λ i a, match dialAddr i a with Some b => Ok b | None => Err [] end) live edgeAddrs addrIdx.
Proof.
  unfold h2_dial, Masque.dial. generalize (length edgeAddrs) as fuel. generalize 0 as i.
  intros i fuel. revert i. induction fuel as [|fuel IH]; intros i; [done|].
  cbn. destruct (edgeAddrs !! _) as [a|]; [|done]. destruct (dialAddr _ a); [done|].
  destruct (negb (live _)); [done|]. by rewrite IH.
Qed.

(** ** What maintain supervises *)

(** The bundle [maintain] has yet to close. *)
Definition supervised (p : maintain_pc) : option nat :=
  match p with
  | MWaitFail b | MClear b | MCloseB b | MSet b | MCloseNew b => Some b
  | _ => None
  end.

(** The bundle its pumps may be working on. *)
Definition pumped (p : maintain_pc) : option nat :=
  match p with MWaitFail b | MClear b | MCloseB b | MJoin b => Some b | _ => None end.

Definition on (p : pump_pc) : option nat :=
  match p with Running b | Failing b => Some b | Returned => None end.

(** ** The invariant, in three parts *)

(** The channel [connChanged] is the only open one, and a waiter sleeps on it only
    while there is no connection to wait for. *)
Record chan_wf (c : client) : Prop := ChanWf {
  ch_open : ∀ ch, chans c !! ch = Some true ↔ ch = connChanged c;
  ch_fresh : ∀ ch, is_Some (chans c !! ch) → ch < fresh_id c;
  ch_wait : ∀ ch, outbound c = OSelect ch →
              ch = connChanged c → current c = None ∧ closed c = false;
  ch_known : ∀ ch, outbound c = OSelect ch → is_Some (chans c !! ch)
}.

(** How far [Close] has got. *)
Record close_wf (c : client) : Prop := CloseWf {
  cl_closed : closed c = true ↔ closer c ≠ CIdle;
  cl_ctx : ctxDone c = true ↔ match closer c with CIdle | CCancel _ => False | _ => True end;
  cl_tun : tunClosed c = true ↔ closer c = CWait ∨ closer c = CDone;
  cl_current : closed c = true → current c = None
}.

Record bundle_wf (c : client) : Prop := BundleWf {
  bu_fresh : ∀ b, is_Some (bundles c !! b) → b < fresh_id c;
  bu_current : ∀ b, current c = Some b →
                 (maintain c = MWaitFail b ∨ maintain c = MClear b) ∧ bundle_done b c = false;
  (** an open bundle is supervised *)
  bu_open : ∀ b x, bundles c !! b = Some x → b_done x = false → supervised (maintain c) = Some b;
  bu_known : ∀ b, supervised (maintain c) = Some b ∨ pumped (maintain c) = Some b →
               is_Some (bundles c !! b);
  bu_join : ∀ b, maintain c = MJoin b → bundle_done b c = true;
  bu_inbound : ∀ b, on (inbound c) = Some b → pumped (maintain c) = Some b;
  bu_keepalive : ∀ b, on (keepalive c) = Some b → pumped (maintain c) = Some b;
  (** a bundle with a stopped pump has reported it *)
  bu_once : ∀ b x, maintain c = MWaitFail b → bundles c !! b = Some x → failOnce x = failed x;
  bu_report : ∀ b, maintain c = MWaitFail b →
                inbound c = Returned ∨ keepalive c = Returned →
                bundle_failed b c = true ∨ ctxDone c = true;
  bu_done : ∀ b, maintain c = MWaitFail b → bundle_done b c = true → ctxDone c = true;
  bu_fresh_set : ∀ b, maintain c = MSet b → bundles c !! b = Some newBundle ∧
                   outbound c ≠ OWrite b ∧ outbound c ≠ OFail b ∧
                   closer c ≠ CCancel (Some b) ∧ closer c ≠ CCloseB (Some b);
  bu_out : ∀ b, outbound c = OWrite b ∨ outbound c = OFail b → is_Some (bundles c !! b);
  bu_idle : pumped (maintain c) = None → inbound c = Returned ∧ keepalive c = Returned;
  bu_closer : ∀ b, closer c = CCancel (Some b) ∨ closer c = CCloseB (Some b) → is_Some (bundles c !! b)
}.

(** ** The channel *)

Lemma change_ok cur cl c :
  chan_wf c → ∃ c', change cur cl c = Ok c' ∧ current c' = cur ∧ closed c' = cl.
Proof.
  intros [Ho _ _ _]. unfold change.
  rewrite (proj2 (Ho (connChanged c)) eq_refl). cbn. by eexists.
Qed.

(** After a change every sleeping waiter's channel is closed. *)
Lemma change_chan cur cl c c' :
  chan_wf c → change cur cl c = Ok c' → chan_wf c' ∧
  (∀ ch, outbound c' = OSelect ch → chans c' !! ch = Some false) ∧
  fresh_id c <= fresh_id c' ∧ ctxDone c' = ctxDone c ∧ tunClosed c' = tunClosed c ∧
  bundles c' = bundles c ∧ maintain c' = maintain c ∧ inbound c' = inbound c ∧
  keepalive c' = keepalive c ∧ outbound c' = outbound c ∧ closer c' = closer c ∧
  current c' = cur ∧ closed c' = cl.
Proof.
  intros [Ho Hf Hw Hk] H. unfold change in H.
  rewrite (proj2 (Ho (connChanged c)) eq_refl) in H. cbn in H. injection H as <-.
  assert (Hlt : connChanged c < fresh_id c) by (apply Hf; rewrite (proj2 (Ho _) eq_refl); eauto).
  assert (Hclosed : ∀ ch, is_Some (chans c !! ch) →
    <[fresh_id c := true]> (<[connChanged c := false]> (chans c)) !! ch = Some false).
  { intros ch Hch. pose proof (Hf ch Hch). rewrite lookup_insert_ne by lia.
    destruct (decide (ch = connChanged c)) as [->|Hne]; [by rewrite lookup_insert_eq|].
    rewrite lookup_insert_ne by done. destruct Hch as [[|] Hch]; [|done].
    apply Ho in Hch. done. }
  split; [|split; [intros ch Hch; apply Hclosed, Hk, Hch|split; [cbn; lia|done]]].
  split; cbn.
  - intros ch. destruct (decide (ch = fresh_id c)) as [->|Hne]; [by rewrite lookup_insert_eq|].
    rewrite lookup_insert_ne by done. split; [|done].
    destruct (decide (ch = connChanged c)) as [->|]; [by rewrite lookup_insert_eq|].
    rewrite lookup_insert_ne by done. intros Hch. by apply Ho in Hch.
  - intros ch Hch. destruct (decide (ch = fresh_id c)) as [->|]; [lia|].
    rewrite lookup_insert_ne in Hch by done.
    destruct (decide (ch = connChanged c)) as [->|]; [lia|].
    rewrite lookup_insert_ne in Hch by done. specialize (Hf ch Hch). lia.
  - intros ch Hch ->. exfalso. specialize (Hk _ Hch). specialize (Hf _ Hk). lia.
  - intros ch Hch. rewrite Hclosed by by apply Hk. by eexists.
Qed.

(** Steps that leave the channel, the connection and the waiter alone. *)
Lemma chan_same c c' :
  chan_wf c → chans c' = chans c → connChanged c' = connChanged c → fresh_id c <= fresh_id c' →
  (outbound c' = outbound c ∧ current c' = current c ∧ closed c' = closed c ∨
   ∀ ch, outbound c' ≠ OSelect ch) → chan_wf c'.
Proof.
  intros [Ho Hf Hw Hk] Hc Hcc Hfr Hout. split.
  - intros ch. by rewrite Hc, Hcc.
  - intros ch. rewrite Hc. intros Hch. specialize (Hf ch Hch). lia.
  - intros ch Hch Heq. destruct Hout as [(He & -> & ->)|Hn]; [|by destruct (Hn ch)].
    rewrite He in Hch. rewrite Hcc in Heq. by apply (Hw ch).
  - intros ch Hch. destruct Hout as [(He & _)|Hn]; [|by destruct (Hn ch)].
    rewrite He in Hch. rewrite Hc. auto.
Qed.

Lemma setCurrent_cases b c set c' :
  setCurrent b c = Ok (set, c') →
  (set = false ∧ c' = c ∧ (closed c = true ∨ ctxDone c = true)) ∨
  (set = true ∧ closed c = false ∧ ctxDone c = false ∧ change (Some b) (closed c) c = Ok c').
Proof.
  unfold setCurrent. destruct (closed c) eqn:Hc, (ctxDone c) eqn:Hd; cbn.
  1-3: intros [= <- <-]; auto.
  intros H. apply bind_Ok in H as (c1 & H & [= <- <-]). auto.
Qed.

Lemma clearCurrent_cases b c c' :
  clearCurrent b c = Ok c' →
  (c' = c ∧ current c ≠ Some b) ∨ (current c = Some b ∧ change None (closed c) c = Ok c').
Proof. unfold clearCurrent. case_decide; [auto|]. intros [= <-]. auto. Qed.

(** Take a step apart. *)
Ltac step_cases Hs :=
  repeat first
    [ match type of Hs with Some (Ok _) = Some (Ok _) => injection Hs as <- end
    | match type of Hs with None = Some _ => discriminate Hs | Some (Ok _) = Some Panic => discriminate Hs end
    | match type of Hs with context [match ?x with _ => _ end] => destruct x eqn:?; try discriminate Hs end ].

Ltac chan_simple :=
  match goal with
  | H : chan_wf ?c |- chan_wf _ =>
      apply (chan_same c); cbn; try done; try lia; try (left; done); try (by right)
  end.

Lemma chan_wf_step l c c' : chan_wf c → step l c = Some (Ok c') → chan_wf c'.
Proof.
  intros Hwf Hs. destruct l as [ok|r|ok|ok|]; cbn in Hs.
  - unfold maintain_step in Hs. destruct (maintain c) as [b|b|b|b| | | |b|b|] eqn:Hm.
    2:{ injection Hs as Hs. apply bind_Ok in Hs as (c1 & H & [= <-]).
        apply clearCurrent_cases in H as [[-> _]|[_ H]]; [by chan_simple|].
        apply change_chan in H as [H _]; [|done]. by chan_simple. }
    7:{ injection Hs as Hs. apply bind_Ok in Hs as ([set c1] & H & [= <-]).
        apply setCurrent_cases in H as [(-> & -> & _)|(-> & _ & _ & H)]; [by chan_simple|].
        apply change_chan in H as [H _]; [|done]. by chan_simple. }
    all: step_cases Hs; by chan_simple.
  - unfold inbound_step in Hs. step_cases Hs; by chan_simple.
  - unfold keepalive_step in Hs. step_cases Hs; by chan_simple.
  - unfold outbound_step in Hs. destruct (outbound c) as [| |ch|b|b|] eqn:Ho; try done.
    + step_cases Hs; by chan_simple.
    + destruct (closed c) eqn:Hc; [injection Hs as <-; by chan_simple|].
      destruct (current c) as [b|] eqn:Hcur; injection Hs as <-; [by chan_simple|].
      destruct Hwf as [Hop Hf Hw Hk]. split; cbn; try done.
      intros ch [= <-]. rewrite (proj2 (Hop _) eq_refl). by eexists.
    + step_cases Hs; by chan_simple.
    + injection Hs as <-. destruct (ok && _); by chan_simple.
    + injection Hs as <-. by chan_simple.
  - unfold close_step in Hs. destruct (closer c) as [|b|b| | |] eqn:Hc.
    1:{ injection Hs as Hs. apply bind_Ok in Hs as (c1 & H & [= <-]).
        apply change_chan in H as [H _]; [|done]. by chan_simple. }
    all: step_cases Hs; try (destruct b); by chan_simple.
Qed.

Lemma step_no_panic l c : chan_wf c → step l c ≠ Some Panic.
Proof.
  intros Hwf Hs. destruct l as [ok|r|ok|ok|]; cbn in Hs.
  - unfold maintain_step in Hs. destruct (maintain c) as [b|b|b|b| | | |b|b|] eqn:Hm.
    2:{ injection Hs as Hs. unfold clearCurrent in Hs. case_decide; [|done].
        destruct (change_ok None (closed c) c Hwf) as (c1 & H1 & _). by rewrite H1 in Hs. }
    7:{ injection Hs as Hs. unfold setCurrent in Hs. destruct (closed c || ctxDone c); [done|].
        destruct (change_ok (Some b) (closed c) c Hwf) as (c1 & H1 & _). by rewrite H1 in Hs. }
    all: step_cases Hs.
  - unfold inbound_step in Hs. step_cases Hs.
  - unfold keepalive_step in Hs. step_cases Hs.
  - unfold outbound_step in Hs. step_cases Hs.
  - unfold close_step in Hs. destruct (closer c) eqn:Hc.
    1:{ injection Hs as Hs. destruct (change_ok None true c Hwf) as (c1 & H1 & _).
        by rewrite H1 in Hs. }
    all: step_cases Hs.
Qed.

Lemma close_same c c' :
  close_wf c → closed c' = closed c → ctxDone c' = ctxDone c → tunClosed c' = tunClosed c →
  closer c' = closer c → (closed c = true → current c' = current c ∨ current c' = None) →
  close_wf c'.
Proof.
  intros [Hcl Hctx Htun Hcur] H1 H2 H3 H4 H5. split; rewrite ?H1, ?H2, ?H3, ?H4; try done.
  intros Hc. specialize (Hcur Hc). destruct (H5 Hc); congruence.
Qed.

Lemma h2c_close_wf_step l c c' : chan_wf c → close_wf c → step l c = Some (Ok c') → close_wf c'.
Proof.
  intros Hch Hwf Hs.
  assert (Hsame : ∀ x, closed x = closed c → ctxDone x = ctxDone c → tunClosed x = tunClosed c →
    closer x = closer c → (closed c = true → current x = current c ∨ current x = None) → close_wf x)
    by (intros; by eapply close_same).
  destruct l as [ok|r|ok|ok|]; cbn in Hs.
  - unfold maintain_step in Hs. destruct (maintain c) as [b|b|b|b| | | |b|b|] eqn:Hm.
    2:{ injection Hs as Hs. apply bind_Ok in Hs as (c1 & H & [= <-]).
        apply clearCurrent_cases in H as [[-> _]|[_ H]]; [by apply Hsame; auto|].
        apply change_chan in H as (_ & _ & _ & H1 & H2 & _ & _ & _ & _ & _ & H3 & H4 & H5); [|done].
        apply Hsame; cbn; auto. }
    7:{ injection Hs as Hs. apply bind_Ok in Hs as ([set c1] & H & [= <-]).
        apply setCurrent_cases in H as [(-> & -> & _)|(-> & H0 & _ & H)]; [by apply Hsame; auto|].
        apply change_chan in H as (_ & _ & _ & H1 & H2 & _ & _ & _ & _ & _ & H3 & H4 & H5); [|done].
        apply Hsame; cbn; auto. congruence. }
    all: step_cases Hs; apply Hsame; auto.
  - unfold inbound_step in Hs. step_cases Hs; apply Hsame; auto.
  - unfold keepalive_step in Hs. step_cases Hs; apply Hsame; auto.
  - unfold outbound_step in Hs. step_cases Hs; apply Hsame; auto.
  - clear Hsame. destruct Hwf as [Hcl Hctx Htun Hcur]. unfold close_step in Hs.
    destruct (closer c) as [|b|b| | |] eqn:Hc.
    1:{ injection Hs as Hs. apply bind_Ok in Hs as (c1 & H & [= <-]).
        apply change_chan in H as (_ & _ & _ & H1 & H2 & _ & _ & _ & _ & _ & H3 & H4 & H5); [|done].
        split; cbn; rewrite ?H1, ?H2, ?H4, ?H5; try done; rewrite ?Htun; naive_solver. }
    + injection Hs as <-. split; cbn; try done; rewrite ?Hcl, ?Htun; naive_solver.
    + injection Hs as <-. destruct b; split; cbn; try done; rewrite ?Hcl, ?Htun, ?Hctx; naive_solver.
    + injection Hs as <-. split; cbn; try done; rewrite ?Hcl, ?Hctx; naive_solver.
    + step_cases Hs. split; cbn; try done; rewrite ?Hcl, ?Htun, ?Hctx; naive_solver.
    + done.
Qed.

(** ** The bundles *)

Lemma bundles_on f b b' c :
  bundles (on_bundle f b c) !! b' =
  if decide (b = b') then f <$> bundles c !! b' else bundles c !! b'.
Proof. cbn. case_decide; [subst; apply lookup_alter_eq|by apply lookup_alter_ne]. Qed.

Lemma bundle_done_Some b c : bundle_done b c = true ↔ ∃ x, bundles c !! b = Some x ∧ b_done x = true.
Proof. unfold bundle_done. destruct (bundles c !! b); naive_solver. Qed.

Lemma bundle_failed_Some b c : bundle_failed b c = true ↔ ∃ x, bundles c !! b = Some x ∧ failed x = true.
Proof. unfold bundle_failed. destruct (bundles c !! b); naive_solver. Qed.

(** Steps of the client's other goroutines that leave the bundles, [maintain] and the
    pumps alone. *)
Lemma bundle_frame c c' :
  bundle_wf c → bundles c' = bundles c → fresh_id c <= fresh_id c' → maintain c' = maintain c →
  (ctxDone c = true → ctxDone c' = true) → (current c' = current c ∨ current c' = None) →
  inbound c' = inbound c → keepalive c' = keepalive c →
  (∀ b, outbound c' = OWrite b ∨ outbound c' = OFail b →
     (outbound c = OWrite b ∨ outbound c = OFail b) ∨ current c = Some b) →
  (∀ b, closer c' = CCancel (Some b) ∨ closer c' = CCloseB (Some b) →
     (closer c = CCancel (Some b) ∨ closer c = CCloseB (Some b)) ∨ current c = Some b) →
  bundle_wf c'.
Proof.
  intros [Hfr Hcur Hop Hkn Hjn Hin Hke Hon Hrp Hdn Hfs Hou Hid Hcl] Hb Hf Hm Hctx Hc Hi Hk Ho Hclo.
  assert (Hdone : ∀ b, bundle_done b c' = bundle_done b c) by (intros; unfold bundle_done; by rewrite Hb).
  assert (Hfail : ∀ b, bundle_failed b c' = bundle_failed b c) by (intros; unfold bundle_failed; by rewrite Hb).
  assert (Hcb : ∀ b, current c = Some b → is_Some (bundles c !! b) ∧ maintain c ≠ MSet b).
  { intros b Hcb. destruct (Hcur b Hcb) as [Hmb _]. split; [|by destruct Hmb; congruence].
    apply Hkn. left. by destruct Hmb as [-> | ->]. }
  split; rewrite ?Hb, ?Hm, ?Hi, ?Hk; try done.
  - intros b Hx. specialize (Hfr b Hx). lia.
  - intros b Hx. rewrite Hdone. apply Hcur. destruct Hc; congruence.
  - intros b Hx. rewrite Hdone. auto.
  - intros b Hx Hy. rewrite Hfail. destruct (Hrp b Hx Hy); auto.
  - intros b Hx. rewrite Hdone. eauto.
  - intros b Hx. destruct (Hfs b Hx) as (? & ? & ? & ? & ?). split; [done|].
    split_and!; intros Hy.
    + destruct (Ho b (or_introl Hy)) as [[]|Hz]; try done. by destruct (Hcb b Hz).
    + destruct (Ho b (or_intror Hy)) as [[]|Hz]; try done. by destruct (Hcb b Hz).
    + destruct (Hclo b (or_introl Hy)) as [[]|Hz]; try done. by destruct (Hcb b Hz).
    + destruct (Hclo b (or_intror Hy)) as [[]|Hz]; try done. by destruct (Hcb b Hz).
  - intros b Hx. destruct (Ho b Hx) as [Hy|Hy]; [by apply Hou|by apply Hcb].
  - intros b Hx. destruct (Hclo b Hx) as [Hy|Hy]; [by apply Hcl|by apply Hcb].
Qed.

(** A pump or [outboundPump] reports a failure; or [Close] closes the bundle it found. *)
Lemma bundle_alter f b c :
  bundle_wf c →
  (∀ x, b_done x = true → b_done (f x) = true) →
  (∀ x, failed x = true → failed (f x) = true) →
  (∀ x, failOnce x = failed x → failOnce (f x) = failed (f x)) →
  ((∀ x, b_done (f x) = b_done x) ∨ (ctxDone c = true ∧ current c = None)) →
  maintain c ≠ MSet b → bundle_wf (on_bundle f b c).
Proof.
  intros [Hfr Hcur Hop Hkn Hjn Hin Hke Hon Hrp Hdn Hfs Hou Hid Hcl] Hd Hfa Hfo Hdd Hms.
  assert (Hsome : ∀ b', is_Some (bundles (on_bundle f b c) !! b') ↔ is_Some (bundles c !! b')).
  { intros b'. rewrite bundles_on. case_decide; [by rewrite fmap_is_Some|done]. }
  assert (Hdone : ∀ b', bundle_done b' c = true → bundle_done b' (on_bundle f b c) = true).
  { intros b' (x & Hx & Hxd)%bundle_done_Some. apply bundle_done_Some. rewrite bundles_on, Hx.
    case_decide; cbn; eauto. }
  assert (Hfail : ∀ b', bundle_failed b' c = true → bundle_failed b' (on_bundle f b c) = true).
  { intros b' (x & Hx & Hxd)%bundle_failed_Some. apply bundle_failed_Some. rewrite bundles_on, Hx.
    case_decide; cbn; eauto. }
  assert (Hback : (∀ x, b_done (f x) = b_done x) →
            ∀ b', bundle_done b' (on_bundle f b c) = bundle_done b' c).
  { intros He b'. unfold bundle_done. rewrite bundles_on. case_decide; [|done].
    destruct (bundles c !! b'); [apply He|done]. }
  split; cbn [maintain current inbound keepalive outbound closer ctxDone fresh_id on_bundle]; try done.
  - intros b' Hx. apply Hfr, Hsome, Hx.
  - intros b' Hx. destruct Hdd as [He|[_ Hn]]; [|congruence]. destruct (Hcur b' Hx).
    by rewrite Hback.
  - intros b' x Hx Hxd. rewrite bundles_on in Hx. case_decide; [|by eapply Hop].
    apply fmap_Some in Hx as (y & Hy & ->). eapply Hop; [exact Hy|].
    destruct (b_done y) eqn:E; [|done]. by rewrite (Hd y E) in Hxd.
  - intros b' Hx. apply Hsome. by apply Hkn.
  - intros b' Hx. by apply Hdone, Hjn.
  - intros b' x Hx Hy. rewrite bundles_on in Hy. case_decide; [|by eapply Hon].
    apply fmap_Some in Hy as (y & Hy & ->). apply Hfo. by eapply Hon.
  - intros b' Hx Hy. destruct (Hrp b' Hx Hy); auto.
  - intros b' Hx Hy. destruct Hdd as [He|[? _]]; [|done]. rewrite Hback in Hy by done. eauto.
  - intros b' Hx. destruct (Hfs b' Hx) as (Hb & ?). split; [|done].
    rewrite bundles_on. case_decide; [|done]. congruence.
  - intros b' Hx. apply Hsome. by apply Hou.
  - intros b' Hx. apply Hsome. by apply Hcl.
Qed.

Lemma fail_done x : b_done (fail x) = b_done x.
Proof. unfold fail. by destruct (failOnce x). Qed.

Lemma fail_failed x : failed x = true → failed (fail x) = true.
Proof. unfold fail. intros H. destruct (failOnce x); [done|]. cbn. by rewrite H. Qed.

Lemma fail_once x : failOnce x = failed x → failOnce (fail x) = failed (fail x).
Proof. unfold fail. destruct (failOnce x) eqn:E; [by rewrite E|]. cbn. intros <-. done. Qed.

Lemma bundle_fail b c : bundle_wf c → maintain c ≠ MSet b → bundle_wf (on_bundle fail b c).
Proof.
  intros Hwf Hm. apply bundle_alter; auto using fail_failed, fail_once; [|left; apply fail_done].
  intros x. by rewrite fail_done.
Qed.

(** A pump moves on the same bundle, or returns with the failure reported. *)
Definition may_return (c : client) : Prop :=
  ∀ b, maintain c = MWaitFail b → bundle_failed b c = true ∨ ctxDone c = true.

Lemma bundle_inbound p c :
  bundle_wf c → (on p = on (inbound c) ∨ p = Returned ∧ may_return c) →
  bundle_wf (set_inbound p c).
Proof.
  intros [Hfr Hcur Hop Hkn Hjn Hin Hke Hon Hrp Hdn Hfs Hou Hid Hcl] Hp.
  split; cbn; try done.
  - intros b Hb. destruct Hp as [Hp|[-> _]]; [apply Hin; congruence|done].
  - intros b Hb [->|Hk]; [|by apply Hrp; auto].
    destruct Hp as [Hp|[_ Hr]]; [|by apply Hr]. apply Hrp; [done|]. left.
    by destruct (inbound c).
  - intros Hm. destruct (Hid Hm) as [Hi Hk]. split; [|done].
    destruct Hp as [Hp|[-> _]]; [|done]. rewrite Hi in Hp. by destruct p.
Qed.

Lemma bundle_keepalive p c :
  bundle_wf c → (on p = on (keepalive c) ∨ p = Returned ∧ may_return c) →
  bundle_wf (set_keepalive p c).
Proof.
  intros [Hfr Hcur Hop Hkn Hjn Hin Hke Hon Hrp Hdn Hfs Hou Hid Hcl] Hp.
  split; cbn; try done.
  - intros b Hb. destruct Hp as [Hp|[-> _]]; [apply Hke; congruence|done].
  - intros b Hb [Hi| ->]; [by apply Hrp; auto|].
    destruct Hp as [Hp|[_ Hr]]; [|by apply Hr]. apply Hrp; [done|]. right.
    by destruct (keepalive c).
  - intros Hm. destruct (Hid Hm) as [Hi Hk]. split; [done|].
    destruct Hp as [Hp|[-> _]]; [|done]. rewrite Hk in Hp. by destruct p.
Qed.

Lemma may_return_fail b c :
  bundle_wf c → pumped (maintain c) = Some b → may_return (on_bundle fail b c).
Proof.
  intros Hwf Hp b' Hm. cbn in Hm. rewrite Hm in Hp. injection Hp as ->. left.
  destruct (bu_known _ Hwf b ltac:(left; by rewrite Hm)) as [x Hx].
  apply bundle_failed_Some. rewrite bundles_on, decide_True, Hx by done. eexists. split; [done|].
  pose proof (bu_once _ Hwf b x Hm Hx) as Ho. unfold fail.
  destruct (failOnce x) eqn:E; [by rewrite <- Ho|]. cbn. by destruct (failed x).
Qed.

Lemma bundle_wf_pumps l c c' :
  match l with Maintain _ => False | _ => True end →
  chan_wf c → close_wf c → bundle_wf c → step l c = Some (Ok c') → bundle_wf c'.
Proof.
  intros Hl Hch Hclw Hwf Hs. destruct l as [ok|r|ok|ok|]; cbn in Hs; [done| | | |].
  - unfold inbound_step in Hs. destruct (inbound c) as [b|b|] eqn:Hi; [| |done].
    + assert (Hret : bundle_done b c = true ∨ ctxDone c = true → bundle_wf (set_inbound Returned c)).
      { intros Hd. apply bundle_inbound; [done|]. right. split; [done|]. intros b' Hm. right.
        pose proof (bu_inbound _ Hwf b ltac:(by rewrite Hi)) as Hp. rewrite Hm in Hp.
        injection Hp as ->. destruct Hd as [Hd|]; [by eapply bu_done|done]. }
      assert (Hf : bundle_wf (set_inbound (Failing b) c))
        by (apply bundle_inbound; [done|]; left; by rewrite Hi).
      step_cases Hs; auto; by case_match; auto.
    + injection Hs as <-. pose proof (bu_inbound _ Hwf b ltac:(by rewrite Hi)) as Hp.
      apply bundle_inbound; [apply bundle_fail; [done|]; intros Hm; by rewrite Hm in Hp|].
      right. split; [done|]. by apply may_return_fail.
  - unfold keepalive_step in Hs. destruct (keepalive c) as [b|b|] eqn:Hi; [| |done].
    + destruct ok; [|injection Hs as <-; apply bundle_keepalive; [done|]; left; by rewrite Hi].
      destruct (bundle_done b c || ctxDone c) eqn:Hd; injection Hs as <-; [|done].
      apply bundle_keepalive; [done|]. right. split; [done|]. intros b' Hm. right.
      pose proof (bu_keepalive _ Hwf b ltac:(by rewrite Hi)) as Hp. rewrite Hm in Hp.
      injection Hp as ->. apply orb_true_iff in Hd as [Hd|]; [by eapply bu_done|done].
    + injection Hs as <-. pose proof (bu_keepalive _ Hwf b ltac:(by rewrite Hi)) as Hp.
      apply bundle_keepalive; [apply bundle_fail; [done|]; intros Hm; by rewrite Hm in Hp|].
      right. split; [done|]. by apply may_return_fail.
  - unfold outbound_step in Hs.
    assert (Hout : ∀ p, (∀ b, p = OWrite b ∨ p = OFail b →
               (outbound c = OWrite b ∨ outbound c = OFail b) ∨ current c = Some b) →
               bundle_wf (set_outbound p c)) by (intros; eapply bundle_frame; eauto).
    destruct (outbound c) as [| |ch|b|b|] eqn:Ho; [| | | | |done].
    + step_cases Hs; apply Hout; by intros ? [].
    + destruct (closed c); [injection Hs as <-; apply Hout; by intros ? []|].
      destruct (current c) as [b|] eqn:Hc; injection Hs as <-; apply Hout; [|by intros ? []].
      intros b' [[= ->]|[=]]. by right.
    + step_cases Hs; apply Hout; by intros ? [].
    + injection Hs as <-. apply Hout. destruct (ok && _); [by intros ? []|].
      intros b' [[=]|[= ->]]. auto.
    + injection Hs as <-. apply (bundle_frame (on_bundle fail b c)); cbn; auto.
      * apply bundle_fail; [done|]. intros Hm. by destruct (bu_fresh_set _ Hwf b Hm) as (_ & _ & ? & _).
      * by intros ? [].
  - unfold close_step in Hs. destruct (closer c) as [|b|b| | |] eqn:Hc; [| | | | |done].
    + injection Hs as Hs. apply bind_Ok in Hs as (c1 & H & [= <-]).
      apply change_chan in H as (_ & _ & Hf & H1 & H2 & H3 & H4 & H5 & H6 & H7 & H8 & H9 & _); [|done].
      apply (bundle_frame c); cbn; auto; try congruence.
      * intros b. rewrite H7. auto.
      * intros b [[= Hb]|[=]]. auto.
    + injection Hs as <-. apply (bundle_frame c); cbn; auto.
      intros b' [[=]|[= ->]]. rewrite Hc. auto.
    + injection Hs as <-. apply (bundle_frame (match b with Some b => on_bundle close_b b c | None => c end));
        cbn; try (destruct b; auto; by intros ? []).
      destruct b as [b|]; [|done].
      assert (closed c = true) by (apply (cl_closed _ Hclw); congruence).
      apply bundle_alter; auto; [|intros Hm; by destruct (bu_fresh_set _ Hwf b Hm) as (_ & _ & _ & _ & ?)].
      right. split; [apply (cl_ctx _ Hclw); by rewrite Hc|by apply (cl_current _ Hclw)].
    + injection Hs as <-. apply (bundle_frame c); cbn; auto. by intros ? [].
    + step_cases Hs. apply (bundle_frame c); cbn; auto. by intros ? [].
Qed.

(** [maintain] moves on while it supervises the same bundle. *)
Lemma bundle_clear_step c b (f : h2Bundle → h2Bundle) :
  bundle_wf c → maintain c = MWaitFail b → (∀ x, b_done (f x) = b_done x) →
  bundle_wf (set_maintain (MClear b) (on_bundle f b c)).
Proof.
  intros [Hfr Hcur Hop Hkn Hjn Hin Hke Hon Hrp Hdn Hfs Hou Hid Hcl] Hm Hf. rewrite Hm in *.
  assert (Hsome : ∀ b', is_Some (bundles (on_bundle f b c) !! b') ↔ is_Some (bundles c !! b')).
  { intros b'. rewrite bundles_on. case_decide; [by rewrite fmap_is_Some|done]. }
  split; cbn [maintain current inbound keepalive outbound closer ctxDone fresh_id set_maintain on_bundle]; try done.
  - intros b' Hb'. by apply Hfr, Hsome.
  - intros b' Hb'. destruct (Hcur b' Hb') as [[[= ->]|[=]] Hd]. split; [by right|].
    unfold bundle_done in *. cbn [set_maintain bundles]. rewrite bundles_on. case_decide; [|done].
    destruct (bundles c !! b'); [cbn; by rewrite Hf|done].
  - intros b' x Hx Hd. cbn [set_maintain bundles] in Hx. rewrite bundles_on in Hx.
    case_decide; [|by eapply Hop].
    apply fmap_Some in Hx as (y & Hy & ->). rewrite Hf in Hd. by eapply Hop.
  - intros b' Hb'. apply Hsome. by apply Hkn.
  - intros b' Hb'. apply Hsome. by apply Hou.
  - intros b' Hb'. apply Hsome. by apply Hcl.
Qed.

(** ... lets go of the closed bundle, or of none. *)
Lemma bundle_maintain c p q :
  bundle_wf c → maintain c = p → (∀ b, current c ≠ Some b) →
  supervised q = supervised p → (pumped q = pumped p ∨ pumped q = None ∧ inbound c = Returned ∧ keepalive c = Returned) →
  (∀ b, q ≠ MWaitFail b ∧ q ≠ MSet b) → (∀ b, q = MJoin b → bundle_done b c = true) →
  bundle_wf (set_maintain q c).
Proof.
  intros [Hfr Hcur Hop Hkn Hjn Hin Hke Hon Hrp Hdn Hfs Hou Hid Hcl] Hm Hnc Hs Hp Hq Hj. rewrite Hm in *.
  split; cbn; try done.
  - intros b Hb. by destruct (Hnc b).
  - intros b x Hx Hd. rewrite Hs. by eapply Hop.
  - intros b [Hb|Hb]; [rewrite Hs in Hb; auto|]. destruct Hp as [Hp|(Hp & _)]; [|congruence].
    rewrite Hp in Hb. auto.
  - intros b Hb. destruct Hp as [Hp|(_ & Hi & _)]; [rewrite Hp; auto|by rewrite Hi in Hb].
  - intros b Hb. destruct Hp as [Hp|(_ & _ & Hk)]; [rewrite Hp; auto|by rewrite Hk in Hb].
  - intros b x Hb. by destruct (Hq b).
  - intros b Hb. by destruct (Hq b).
  - intros b Hb. by destruct (Hq b).
  - intros b Hb. by destruct (Hq b).
  - intros Hn. destruct Hp as [Hp|(_ & ? & ?)]; [|done]. apply Hid. congruence.
Qed.

(** ... closes the bundle it supervises. *)
Lemma bundle_close_step c p q b :
  bundle_wf c → maintain c = p → supervised p = Some b → supervised q = None →
  (∀ x, current c ≠ Some x) → pumped q = pumped p → (∀ x, p ≠ MSet x) →
  (∀ x, q = MJoin x → x = b) → (∀ x, q ≠ MWaitFail x) →
  bundle_wf (set_maintain q (on_bundle close_b b c)).
Proof.
  intros [Hfr Hcur Hop Hkn Hjn Hin Hke Hon Hrp Hdn Hfs Hou Hid Hcl] Hm Hsp Hsq Hnc Hp Hns Hj Hnw.
  rewrite Hm in *.
  assert (Hsome : ∀ b', is_Some (bundles (on_bundle close_b b c) !! b') ↔ is_Some (bundles c !! b')).
  { intros b'. rewrite bundles_on. case_decide; [by rewrite fmap_is_Some|done]. }
  split; cbn [maintain current inbound keepalive outbound closer ctxDone fresh_id set_maintain on_bundle].
  - intros x Hx. by apply Hfr, Hsome.
  - intros x Hx. by destruct (Hnc x).
  - intros x y Hx Hd. cbn [set_maintain bundles] in Hx. rewrite bundles_on in Hx. case_decide as Hbx.
    + apply fmap_Some in Hx as (z & _ & ->). done.
    + specialize (Hop x y Hx Hd). congruence.
  - intros x [Hx|Hx]; [congruence|]. apply Hsome, Hkn. right. by rewrite <- Hp.
  - intros x Hx. rewrite (Hj x Hx) in *. apply bundle_done_Some. cbn [set_maintain bundles].
    destruct (Hkn b (or_introl Hsp)) as [y Hy]. rewrite bundles_on, decide_True, Hy by done. by eexists.
  - intros x Hx. rewrite Hp. auto.
  - intros x Hx. rewrite Hp. auto.
  - intros x y Hx. by destruct (Hnw x).
  - intros x Hx. by destruct (Hnw x).
  - intros x Hx. by destruct (Hnw x).
  - intros x Hx. subst q. done.
  - intros x Hx. apply Hsome. by apply Hou.
  - intros Hn. apply Hid. congruence.
  - intros x Hx. apply Hsome. by apply Hcl.
Qed.

Lemma bundle_dialled c b :
  bundle_wf c → maintain c = MDial → b = fresh_id c →
  bundle_wf (set_maintain (MSet b)
    (Client (current c) (connChanged c) (chans c) (closed c) (ctxDone c) (tunClosed c)
       (<[b := newBundle]> (bundles c)) (S b) (maintain c) (inbound c) (keepalive c)
       (outbound c) (closer c))).
Proof.
  intros [Hfr Hcur Hop Hkn Hjn Hin Hke Hon Hrp Hdn Hfs Hou Hid Hcl] Hm ->. rewrite Hm in *.
  assert (Hnew : ∀ x, is_Some (bundles c !! x) → x ≠ fresh_id c) by (intros x Hx; specialize (Hfr x Hx); lia).
  assert (Hkeep : ∀ x, is_Some (bundles c !! x) → is_Some (<[fresh_id c := newBundle]> (bundles c) !! x)).
  { intros x Hx. by rewrite lookup_insert_ne by (apply not_eq_sym, Hnew, Hx). }
  split; cbn; try done.
  - intros x Hx. destruct (decide (x = fresh_id c)) as [->|]; [lia|].
    rewrite lookup_insert_ne in Hx by done. specialize (Hfr x Hx). lia.
  - intros x Hx. destruct (Hcur x Hx) as [[?|?] _]; done.
  - intros x y Hx Hd. apply lookup_insert_Some in Hx as [[-> _]|[_ Hx]]; [done|].
    by specialize (Hop x y Hx Hd).
  - intros x [[= <-]|[=]]. rewrite lookup_insert_eq. by eexists.
  - intros x [= <-]. rewrite lookup_insert_eq. split_and!; [done|..]; intros Hx;
      (eapply Hnew; [|reflexivity]); first [apply Hou; by auto|apply Hcl; by auto].
  - intros x Hx. by apply Hkeep, Hou.
  - intros x Hx. by apply Hkeep, Hcl.
Qed.

Lemma bundle_set c c1 b :
  bundle_wf c → maintain c = MSet b → closed c = false → ctxDone c = false →
  bundles c1 = bundles c → fresh_id c <= fresh_id c1 → current c1 = Some b → ctxDone c1 = ctxDone c →
  outbound c1 = outbound c → closer c1 = closer c →
  bundle_wf (set_maintain (MWaitFail b) (set_inbound (Running b) (set_keepalive (Running b) c1))).
Proof.
  intros [Hfr Hcur Hop Hkn Hjn Hin Hke Hon Hrp Hdn Hfs Hou Hid Hcl] Hm _ _ Hb Hf Hc1 Hctx Ho Hclo.
  rewrite Hm in *. destruct (Hfs b eq_refl) as (Hnew & _).
  split; cbn; rewrite ?Hb, ?Hc1, ?Ho, ?Hclo; try done.
  - intros x Hx. specialize (Hfr x Hx). lia.
  - intros x [= <-]. split; [by left|]. unfold bundle_done. cbn. by rewrite Hb, Hnew.
  - intros x [[= <-]|[= <-]]; rewrite Hnew; by eexists.
  - intros x y [= <-] Hy. rewrite Hnew in Hy. by injection Hy as <-.
  - intros x _ [?|?]; done.
  - intros x [= <-] Hx. apply bundle_done_Some in Hx as (y & Hy & Hd). cbn in Hy.
    rewrite Hb, Hnew in Hy. by injection Hy as <-.
Qed.

Lemma on_bundle_id b c : on_bundle (λ x, x) b c = c.
Proof. unfold on_bundle. rewrite alter_id; [by destruct c|done]. Qed.

Lemma no_current c :
  bundle_wf c → (∀ b, maintain c ≠ MWaitFail b) → (∀ b, maintain c = MClear b → current c ≠ Some b) →
  ∀ b, current c ≠ Some b.
Proof.
  intros Hwf Hw Hc b Hb. destruct (bu_current _ Hwf b Hb) as [[Hm|Hm] _]; [by apply (Hw b)|].
  by apply (Hc b).
Qed.

Lemma bundle_wf_maintain ok c c' :
  chan_wf c → bundle_wf c → maintain_step ok c = Some (Ok c') → bundle_wf c'.
Proof.
  intros Hch Hwf Hs. unfold maintain_step in Hs.
  assert (Hnc : (∀ b, maintain c ≠ MWaitFail b) → (∀ b, maintain c ≠ MClear b) → ∀ b, current c ≠ Some b)
    by (intros Hw Hcl; apply no_current; auto; intros b Hb; by destruct (Hcl b)).
  destruct (maintain c) as [b|b|b|b| | | |b|b|] eqn:Hm; [| | | | | | | | |done].
  - assert (Hmove : bundle_wf (set_maintain (MClear b) c)).
    { rewrite <- (on_bundle_id b c) at 1. by apply bundle_clear_step. }
    destruct (ctxDone c && ok); [by injection Hs as <-|].
    destruct (bundle_failed b c); [injection Hs as <-; by apply bundle_clear_step|].
    destruct (ctxDone c); [by injection Hs as <-|done].
  - injection Hs as Hs. apply bind_Ok in Hs as (c1 & H & [= <-]).
    apply clearCurrent_cases in H as [[-> Hne]|[_ H]].
    + eapply bundle_maintain; [done|exact Hm| |done|by left|done|done].
      apply no_current; [done|by rewrite Hm|]. intros x Hx. rewrite Hm in Hx. by injection Hx as <-.
    + apply change_chan in H as (_ & _ & Hf & H1 & H2 & H3 & H4 & H5 & H6 & H7 & H8 & H9 & _); [|done].
      eapply (bundle_maintain c1 (MClear b)); [|congruence|by rewrite H9|done|by left|done|done].
      apply (bundle_frame c); auto; try congruence; intros x; rewrite ?H7, ?H8; auto.
  - injection Hs as <-. apply (bundle_close_step c (MCloseB b)); try done; [by apply Hnc|by intros x [= <-]].
  - destruct (inbound c) eqn:Hi, (keepalive c) eqn:Hk; try done. injection Hs as <-.
    eapply bundle_maintain; [done|exact Hm|by apply Hnc|done|by right|done|done].
  - injection Hs as <-. eapply bundle_maintain; [done|exact Hm|by apply Hnc|..]; destruct (ctxDone c); auto; done.
  - injection Hs as <-. eapply bundle_maintain; [done|exact Hm|by apply Hnc|..]; destruct (ctxDone c && ok); auto; done.
  - destruct ok; injection Hs as <-.
    + rewrite <- Hm at 1. by apply bundle_dialled.
    + eapply bundle_maintain; [done|exact Hm|by apply Hnc|..]; destruct (ctxDone c); auto; done.
  - injection Hs as Hs. apply bind_Ok in Hs as ([set c1] & H & [= <-]).
    apply setCurrent_cases in H as [(-> & -> & _)|(-> & H0 & Hctx & H)].
    + eapply bundle_maintain; [done|exact Hm|by apply Hnc|done|by left|done|done].
    + apply change_chan in H as (_ & _ & Hf & H1 & H2 & H3 & H4 & H5 & H6 & H7 & H8 & H9 & _); [|done].
      by apply (bundle_set c).
  - injection Hs as <-. apply (bundle_close_step c (MCloseNew b)); try done. by apply Hnc.
Qed.

Record wf (c : client) : Prop := Wf {
  wf_chan : chan_wf c; wf_close : close_wf c; wf_bundle : bundle_wf c
}.

Lemma h2c_start : wf start.
Proof.
  split.
  - split; cbn; try done.
    + intros ch. split.
      * intros [[<- ?]|[_ [<- _]%lookup_singleton_Some]]%lookup_insert_Some; done.
      * by intros ->.
    + intros ch [x [[<- _]|[_ [<- _]%lookup_singleton_Some]]%lookup_insert_Some]; lia.
  - split; cbn; try done; naive_solver.
  - split; cbn; try done.
    + intros b [x [<- _]%lookup_singleton_Some]. lia.
    + intros b [= <-]. split; [by left|done].
    + intros b x [<- _]%lookup_singleton_Some _. done.
    + intros b [[= <-]|[= <-]]; by eexists.
    + intros b x [= <-] Hx. by injection Hx as <-.
    + intros b _ [H|H]; done.
    + by intros b [= <-].
    + intros b [H|H]; done.
    + intros b [H|H]; done.
Qed.

Lemma h2c_step l c c' : wf c → step l c = Some (Ok c') → wf c'.
Proof.
  intros [Hch Hcl Hbu] Hs. split.
  - by eapply chan_wf_step.
  - by eapply h2c_close_wf_step.
  - destruct l as [ok|r|ok|ok|] eqn:Hl; [by eapply bundle_wf_maintain|..];
      apply (bundle_wf_pumps l c c'); subst l; done.
Qed.

Lemma h2c_reach c : reach c → wf c.
Proof.
  intros Hr. eapply rtc_invariant; [|exact h2c_start|exact Hr].
  intros x y Hx (l & Hl). by eapply h2c_step.
Qed.

(** A sender that sleeps while there is a connection, or after [Close], is woken. *)
Lemma waiter_wakes c ch :
  chan_wf c → outbound c = OSelect ch → (current c ≠ None ∨ closed c = true) →
  outbound_step false c = Some (Ok (set_outbound OLock c)).
Proof.
  intros Hwf Ho Hd. unfold outbound_step. rewrite Ho, andb_false_r.
  destruct (ch_known _ Hwf ch Ho) as [[|] Hch]; rewrite Hch; cbn; [|done].
  apply (ch_open _ Hwf) in Hch. destruct (ch_wait _ Hwf ch Ho Hch) as [Hc Hcl].
  destruct Hd; congruence.
Qed.

(** A stopped pump leaves [maintain] something to do. *)
Lemma failure_noticed c b :
  bundle_wf c → maintain c = MWaitFail b → inbound c = Returned ∨ keepalive c = Returned →
  ∃ c', maintain_step true c = Some (Ok c') ∧ maintain c' = MClear b.
Proof.
  intros Hwf Hm Hp. unfold maintain_step. rewrite Hm.
  destruct (bu_report _ Hwf b Hm Hp) as [Hf|Hc].
  - rewrite Hf. destruct (ctxDone c && true); by eexists.
  - rewrite Hc. cbn. by eexists.
Qed.

(** ** Close *)

(** After [Close] the goroutines stay returned. *)
Definition done_wf (c : client) : Prop := closer c = CDone → maintain c = MRet ∧ outbound c = ORet.

Lemma change_frame cur cl c c' :
  change cur cl c = Ok c' →
  maintain c' = maintain c ∧ outbound c' = outbound c ∧ closer c' = closer c ∧
  inbound c' = inbound c ∧ keepalive c' = keepalive c ∧ tunClosed c' = tunClosed c.
Proof. unfold change. destruct (default _ _); [|done]. by intros [= <-]. Qed.

Lemma done_wf_step l c c' : done_wf c → step l c = Some (Ok c') → done_wf c'.
Proof.
  intros Hwf Hs Hd. destruct l as [ok|r|ok|ok|]; cbn in Hs.
  - assert (Hc : closer c' = closer c).
    { unfold maintain_step in Hs. destruct (maintain c) as [b|b|b|b| | | |b|b|] eqn:Hm.
      2:{ injection Hs as Hs. apply bind_Ok in Hs as (c1 & H & [= <-]).
          apply clearCurrent_cases in H as [[-> _]|[_ H%change_frame]]; naive_solver. }
      7:{ injection Hs as Hs. apply bind_Ok in Hs as ([set c1] & H & [= <-]).
          apply setCurrent_cases in H as [(-> & -> & _)|(-> & _ & _ & H%change_frame)]; naive_solver. }
      all: step_cases Hs; done. }
    rewrite Hc in Hd. destruct (Hwf Hd) as [Hm _]. unfold maintain_step in Hs. by rewrite Hm in Hs.
  - unfold inbound_step in Hs. step_cases Hs; by apply Hwf.
  - unfold keepalive_step in Hs. step_cases Hs; by apply Hwf.
  - assert (Hc : closer c' = closer c) by (unfold outbound_step in Hs; step_cases Hs; done).
    rewrite Hc in Hd. destruct (Hwf Hd) as [_ Ho]. unfold outbound_step in Hs. by rewrite Ho in Hs.
  - unfold close_step in Hs. destruct (closer c) as [|b|b| | |] eqn:Hc; [| | | | |done].
    + injection Hs as Hs. by apply bind_Ok in Hs as (c1 & H & [= <-]).
    + by injection Hs as <-.
    + by injection Hs as <-.
    + by injection Hs as <-.
    + destruct (maintain c) eqn:Hm, (outbound c) eqn:Ho; try done. by injection Hs as <-.
Qed.

Lemma h2c_done c : reach c → done_wf c.
Proof.
  intros Hr. assert (H0 : done_wf start) by (intros H; discriminate H).
  eapply rtc_invariant; [|exact H0|exact Hr].
  intros x y Hx (l & Hl). by eapply done_wf_step.
Qed.

(** What is left to run once the context is cancelled and the TUN device closed. *)
Definition maintain_rank (p : maintain_pc) : nat :=
  match p with
  | MWaitFail _ => 9 | MClear _ => 8 | MCloseB _ => 7 | MJoin _ => 6 | MCheckCtx => 5
  | MDelay => 4 | MDial => 3 | MSet _ => 2 | MCloseNew _ => 1 | MRet => 0
  end.
Definition pump_rank (p : pump_pc) : nat :=
  match p with Running _ => 2 | Failing _ => 1 | Returned => 0 end.
Definition out_rank (p : out_pc) : nat :=
  match p with OWrite _ => 3 | OFail _ | OSelect _ => 2 | OReadTun | OLock => 1 | ORet => 0 end.
Definition closer_rank (p : close_pc) : nat := match p with CDone => 0 | _ => 1 end.

Definition rank (c : client) : nat :=
  maintain_rank (maintain c) + pump_rank (inbound c) + pump_rank (keepalive c) +
  out_rank (outbound c) + closer_rank (closer c).

Lemma rank_step l c c' :
  closer c = CWait → closed c = true → ctxDone c = true → tunClosed c = true →
  step l c = Some (Ok c') → c' = c ∨ rank c' < rank c.
Proof.
  intros Hw Hcl Hctx Ht Hs. destruct l as [ok|r|ok|ok|]; cbn in Hs.
  - right. unfold maintain_step in Hs. rewrite Hctx in Hs.
    destruct (maintain c) as [b|b|b|b| | | |b|b|] eqn:Hm.
    2:{ injection Hs as Hs. apply bind_Ok in Hs as (c1 & H & [= <-]).
        apply clearCurrent_cases in H as [[-> _]|[_ H%change_frame]];
          [unfold rank; cbn; rewrite Hm; cbn; lia|].
        destruct H as (H1 & H2 & H3 & H4 & H5 & _). unfold rank. cbn. rewrite H2, H3, H4, H5, Hm. cbn. lia. }
    7:{ injection Hs as Hs. unfold setCurrent in Hs. rewrite Hcl in Hs. cbn in Hs.
        injection Hs as <-. unfold rank. cbn. rewrite Hm. cbn. lia. }
    all: step_cases Hs; unfold rank; cbn;
      repeat match goal with H : _ = _ |- _ => rewrite H end; cbn; try case_match; cbn; lia.
  - unfold inbound_step in Hs. rewrite Hctx in Hs. step_cases Hs; try (by left); right; unfold rank; cbn;
      repeat match goal with H : inbound c = _ |- _ => rewrite H end; cbn; lia.
  - unfold keepalive_step in Hs. step_cases Hs; try (by left); right; unfold rank; cbn;
      repeat match goal with H : keepalive c = _ |- _ => rewrite H end; cbn; lia.
  - right. unfold outbound_step in Hs. rewrite Hcl, Hctx, Ht in Hs.
    step_cases Hs; unfold rank; cbn;
      repeat match goal with H : outbound c = _ |- _ => rewrite H end; cbn; try lia; case_match; cbn; lia.
  - right. unfold close_step in Hs. rewrite Hw in Hs. step_cases Hs. unfold rank. cbn.
    rewrite Hw. cbn. lia.
Qed.

Lemma rank_progress c :
  wf c → closer c = CWait → ∃ l c', step l c = Some (Ok c') ∧ c' ≠ c.
Proof.
  intros [Hch Hcl Hbu] Hw.
  assert (Hctx : ctxDone c = true) by (apply (cl_ctx _ Hcl); by rewrite Hw).
  assert (Htun : tunClosed c = true) by (apply (cl_tun _ Hcl); auto).
  assert (Hclosed : closed c = true) by (apply (cl_closed _ Hcl); by rewrite Hw).
  assert (Hne : ∀ c', rank c' ≠ rank c → c' ≠ c) by (intros c' H ->; done).
  assert (Hpump : ∀ b, maintain c = MJoin b →
    (inbound c = Returned ∧ keepalive c = Returned) ∨ ∃ l c', step l c = Some (Ok c') ∧ c' ≠ c).
  { intros b Hm. pose proof (bu_join _ Hbu b Hm) as Hd.
    destruct (inbound c) as [x|x|] eqn:Hi.
    - right. assert (x = b) as ->.
      { pose proof (bu_inbound _ Hbu x ltac:(by rewrite Hi)) as Hp. rewrite Hm in Hp. by injection Hp. }
      exists (Inbound Received). cbn. unfold inbound_step. rewrite Hi, Hd. eexists. split; [done|].
      apply Hne. unfold rank. cbn. rewrite Hi. cbn. lia.
    - right. exists (Inbound Received). cbn. unfold inbound_step. rewrite Hi. eexists. split; [done|].
      apply Hne. unfold rank. cbn. rewrite Hi. cbn. lia.
    - destruct (keepalive c) as [x|x|] eqn:Hk; [| |by left]; right; exists (Keepalive true);
        cbn; unfold keepalive_step; rewrite Hk, ?Hctx, ?orb_true_r; eexists; (split; [done|]);
        apply Hne; unfold rank; cbn; rewrite Hk; cbn; lia. }
  assert (outbound c = ORet ∨ outbound c ≠ ORet) as [Ho|Ho] by (destruct (outbound c); auto).
  - destruct (maintain c) as [b|b|b|b| | | |b|b|] eqn:Hm.
    10:{ exists CloseCall. cbn. unfold close_step. rewrite Hw, Hm, Ho. eexists. split; [done|].
         intros H. by rewrite <- H in Hw. }
    2:{ destruct (change_ok None (closed c) c Hch) as (c1 & H1 & _).
        exists (Maintain true). cbn. unfold maintain_step. rewrite Hm. unfold clearCurrent.
        case_decide; rewrite ?H1; cbn; (eexists; split; [done|]); intros Heq; by rewrite <- Heq in Hm. }
    3:{ destruct (Hpump b eq_refl) as [[Hi Hk]|]; [|done].
        exists (Maintain true). cbn. unfold maintain_step. rewrite Hm, Hi, Hk. eexists.
        split; [done|]. intros Heq. by rewrite <- Heq in Hm. }
    all: exists (Maintain true); cbn; unfold maintain_step; rewrite Hm, ?Hctx; cbn.
    all: try (unfold setCurrent; rewrite Hclosed; cbn).
    all: eexists; split; [done|]; intros Heq; by rewrite <- Heq in Hm.
  - exists (Outbound true). cbn. unfold outbound_step. rewrite Htun, Hclosed, Hctx.
    destruct (outbound c) as [| |ch|b|b|] eqn:Hout; try done; cbn; eexists; (split; [done|]);
      apply Hne; unfold rank; cbn; rewrite Hout; cbn; try lia; case_match; cbn; lia.
Qed.

Lemma tun_stays l c c' : step l c = Some (Ok c') → tunClosed c = true → tunClosed c' = true.
Proof.
  intros Hs Ht. destruct l as [ok|r|ok|ok|]; cbn in Hs.
  - unfold maintain_step in Hs. destruct (maintain c) as [b|b|b|b| | | |b|b|] eqn:Hm.
    2:{ injection Hs as Hs. apply bind_Ok in Hs as (c1 & H & [= <-]).
        apply clearCurrent_cases in H as [[-> _]|[_ H%change_frame]]; naive_solver. }
    7:{ injection Hs as Hs. apply bind_Ok in Hs as ([set c1] & H & [= <-]).
        apply setCurrent_cases in H as [(-> & -> & _)|(-> & _ & _ & H%change_frame)]; naive_solver. }
    all: step_cases Hs; done.
  - unfold inbound_step in Hs. step_cases Hs; done.
  - unfold keepalive_step in Hs. step_cases Hs; done.
  - unfold outbound_step in Hs. step_cases Hs; done.
  - unfold close_step in Hs. destruct (closer c) as [|b|b| | |] eqn:Hc; [| | | | |done].
    + injection Hs as Hs. apply bind_Ok in Hs as (c1 & H%change_frame & [= <-]). naive_solver.
    + step_cases Hs; done.
    + injection Hs as <-. by destruct b.
    + by injection Hs as <-.
    + by step_cases Hs.
Qed.

(** From there on every run that keeps moving ends, and some run does. *)
Lemma close_drains n c :
  rank c <= n → reach c → closer c = CWait →
  ∃ c', rtc (λ x y, ∃ l, step l x = Some (Ok y)) c c' ∧ closer c' = CDone.
Proof.
  revert c. induction n as [n IH] using lt_wf_ind. intros c Hn Hr Hw.
  pose proof (h2c_reach c Hr) as Hwf. pose proof (wf_close _ Hwf) as Hcl.
  destruct (rank_progress c Hwf Hw) as (l & c' & Hs & Hne).
  destruct (rank_step l c c' Hw) as [?|Hlt]; try done.
  { apply (cl_closed _ Hcl). by rewrite Hw. }
  { apply (cl_ctx _ Hcl). by rewrite Hw. }
  { apply (cl_tun _ Hcl). auto. }
  assert (Hcases : closer c' = CWait ∨ closer c' = CDone).
  { pose proof (cl_tun _ (wf_close _ (h2c_step l _ _ Hwf Hs))) as [Ht _]. apply Ht.
    assert (tunClosed c = true) as H by (apply (cl_tun _ Hcl); auto).
    by eapply tun_stays. }
  destruct Hcases as [Hw'|Hd].
  - destruct (IH (rank c') ltac:(lia) c' ltac:(lia)) as (c2 & Hrun & Hd); [|done|].
    + eapply rtc_r; [exact Hr|by eexists].
    + exists c2. split; [|done]. eapply rtc_l; [by eexists|done].
  - exists c'. split; [|done]. eapply rtc_l; [by eexists|constructor].
Qed.

(** ** Runs *)

Lemma h2c_run_reach ls c : run ls = Some (Ok c) → reach c.
Proof.
  revert c. unfold run. induction ls as [|l ls IH] using rev_ind; intros c Hc.
  - injection Hc as <-. apply rtc_refl.
  - rewrite foldl_snoc in Hc. destruct (foldl _ _ ls) as [[c1|[]|]|] eqn:H1; [|done..].
    eapply rtc_r; [by apply IH|by exists l].
Qed.

Definition after (ls : list label) : client :=
  match run ls with Some (Ok c) => c | _ => start end.

Lemma after_reach ls : reach (after ls).
Proof.
  unfold after. destruct (run ls) as [[c|[]|]|] eqn:H; try apply rtc_refl. by eapply h2c_run_reach.
Qed.

(** The first connection dies while a packet waits to go out; the client reconnects
    while the sender sleeps. *)
Definition lost : list label :=
  [Keepalive false; Keepalive true; Maintain true; Maintain true; Outbound true; Outbound true].
Definition reconnected : list label :=
  lost ++ [Maintain true; Inbound ReadErr; Maintain true; Maintain true; Maintain true;
           Maintain true; Maintain true].
(** [Close], up to [wg.Wait], and all of it. *)
Definition closing : list label := replicate 4 CloseCall.
Definition drained : list label :=
  closing ++ [Outbound true; Maintain true; Maintain true; Maintain true; Inbound ReadErr;
              Keepalive true; Maintain true; Maintain true; CloseCall].

(** ** The properties *)

(** C22: The HTTP/2 client neither panics by closing [connChanged] twice nor loses a
    wake-up.  In every reachable state no step closes a closed channel; the channel
    [connChanged] is the only open one; and if the outbound pump sleeps in
    [waitCurrent] although a connection is current or the client is closed, the channel
    it sleeps on is closed: it can go on and read the state again. *)
Theorem h2_client_wakes (c : client) :
  reach c →
  (∀ l, step l c ≠ Some Panic) ∧
  (∀ ch, chans c !! ch = Some true ↔ ch = connChanged c) ∧
  (∀ ch, outbound c = OSelect ch → (current c ≠ None ∨ closed c = true) →
     step (Outbound false) c = Some (Ok (set_outbound OLock c))).
Proof.
  intros Hr. destruct (h2c_reach c Hr) as [Hch _ _]. split_and!.
  - intros l. by apply step_no_panic.
  - by apply ch_open.
  - intros ch Ho Hd. by eapply waiter_wakes.
Qed.

Lemma h2_client_wakes_witness :
  let c := after reconnected in
  outbound c = OSelect 2 ∧ current c = Some 3 ∧
  step (Outbound false) c = Some (Ok (set_outbound OLock c)).
Proof.
  intros c. assert (Ho : outbound c = OSelect 2) by by vm_compute.
  assert (Hc : current c = Some 3) by by vm_compute.
  split; [done|]. split; [done|].
  refine (proj2 (proj2 (h2_client_wakes c (after_reach reconnected))) 2 Ho _).
  left. by rewrite Hc.
Defined.

(** C16: The HTTP/2 client owns one connection at a time and notices when it dies.  In
    every reachable state the current bundle is open and is the one [maintain]
    supervises; every open bundle is the one [maintain] supervises, so there is at most
    one and once [maintain] has returned there is none; the two pumps work on the
    supervised bundle only, so a reconnection never starts before both have returned;
    and once either pump of the supervised bundle has returned, [maintain]'s [select]
    is ready. *)
Theorem h2_client_connections (c : client) :
  reach c →
  (∀ b, current c = Some b →
     (maintain c = MWaitFail b ∨ maintain c = MClear b) ∧ bundle_done b c = false) ∧
  (∀ b x, bundles c !! b = Some x → b_done x = false → supervised (maintain c) = Some b) ∧
  (maintain c = MRet → ∀ b x, bundles c !! b = Some x → b_done x = true) ∧
  (maintain c = MDial → inbound c = Returned ∧ keepalive c = Returned) ∧
  (∀ b, maintain c = MWaitFail b → inbound c = Returned ∨ keepalive c = Returned →
     ∃ c', step (Maintain true) c = Some (Ok c') ∧ maintain c' = MClear b).
Proof.
  intros Hr. destruct (h2c_reach c Hr) as [_ _ Hbu]. split_and!.
  - apply (bu_current _ Hbu).
  - apply (bu_open _ Hbu).
  - intros Hm b x Hx. destruct (b_done x) eqn:Hd; [done|].
    pose proof (bu_open _ Hbu b x Hx Hd) as Hs. by rewrite Hm in Hs.
  - intros Hm. apply (bu_idle _ Hbu). by rewrite Hm.
  - intros b Hm Hp. by apply failure_noticed.
Qed.

Lemma h2_client_connections_witness :
  let c := after reconnected in
  current c = Some 3 ∧ bundle_done 3 c = false ∧ bundle_done 0 c = true.
Proof.
  intros c. assert (Hc : current c = Some 3) by by vm_compute.
  destruct (h2_client_connections c (after_reach reconnected)) as (Hcur & _).
  split; [done|]. split; [by apply Hcur|by vm_compute].
Defined.


