(* ===== verification/H2Packets.v ===== *)
(** * The packets of the HTTP/2 client (src/tunnel/h2.go)

    What [outboundPump] and [inboundPump] do with the packets, over the one buffer the
    former reads into and sends from.  [H2Client] has the same goroutines as steps among
    the others; here a turn of the loop is what its calls return.  The userspace stack
    and CONNECT-IP are third-party code: what they write into a slice they are handed,
    and what they report, is arbitrary. *)

From S2P Require Import Prelude.

Definition h2MTU : nat := 1280.
Definition h2PacketHeadroom : nat := 1.
Definition h2PacketBufferSize : nat := h2MTU + h2PacketHeadroom.

(** Writing to a slice of a buffer, from index [i] on: what does not fit is not written. *)
Definition write_at (i : nat) (data buffer : list byte) : list byte :=
  take i buffer ++ take (length buffer - i) data ++ drop (i + length data) buffer.

Inductive pump_event :=
  | ToConn (bundle : nat) (packet : list byte)   (** [WritePacketBuffer] *)
  | ToStack (packet : list byte)                 (** [tunDev.Write] *)
  | Failed (bundle : nat).                       (** [bundle.fail] *)

(** ** outboundPump *)

(** A turn: [tunDev.Read] fails, or writes [data] and reports the size [n]; then
    [waitCurrent] returns a bundle or an error, and [WritePacketBuffer] leaves [after] in
    the buffer and returns an ICMP answer, or an error. *)
Record out_turn := {
  tun_read : option (list byte * Z);
  waited : option nat;
  after : list byte;
  sent : option (list byte)
}.

Section outbound.
  (** The packet that [WritePacketBuffer(buffer, offset, n)] sends. *)
Definition packet_of (buffer : list byte) (offset n : nat) : outcome Empty_set (list byte) :=
  go_slice buffer offset (offset + n).

(** The events, and whether the loop has returned. *)
Fixpoint outboundPump (buffer : list byte) (turns : list out_turn)
    : outcome Empty_set (list pump_event * bool) :=
  match turns with
  | [] => Ok ([], false)
  | t :: turns =>
      match tun_read t with
      | None => Ok ([], true)
      | Some (data, n) =>
          let buffer := write_at h2PacketHeadroom data buffer in
          if bool_decide (n <= 0)%Z || bool_decide (Z.of_nat h2MTU < n)%Z then outboundPump buffer turns
          else
            match waited t with
            | None => Ok ([], true)
            | Some bundle =>
                packet ← packet_of buffer h2PacketHeadroom (Z.to_nat n);
                let buffer := write_at 0 (after t) buffer in
                '(evs, returned) ← outboundPump buffer turns;
                Ok (ToConn bundle packet ::
                    match sent t with
                    | None => [Failed bundle]
                    | Some icmp => if bool_decide (0 < length icmp) then [ToStack icmp] else []
                    end ++ evs, returned)
            end
      end
  end.

(** From the buffer the goroutine makes. *)
Definition run_outbound (turns : list out_turn) : outcome Empty_set (list pump_event * bool) :=
  outboundPump (replicate h2PacketBufferSize Byte.x00) turns.
End outbound.

(** ** inboundPump *)

(** A turn: [ReadPacketZeroCopy] fails, with the bundle closed or not; or it returns a
    packet, and the stack takes it, or not, with the client's context done or not. *)
Inductive in_turn :=
  | ReadError (done : bool)
  | ReadPacket (packet : list byte) (written : bool) (ctxDone : bool).

Fixpoint inboundPump (bundle : nat) (turns : list in_turn) : list pump_event * bool :=
  match turns with
  | [] => ([], false)
  | ReadError done :: _ => (if done then [] else [Failed bundle], true)
  | ReadPacket packet written ctxDone :: turns =>
      if bool_decide (length packet = 0) then inboundPump bundle turns
      else if written then
        let '(evs, returned) := inboundPump bundle turns in (ToStack packet :: evs, returned)
      else (ToStack packet :: (if ctxDone then [] else [Failed bundle]), true)
  end.
