(* ===== verification/H2PacketsFacts.v ===== *)
(** * Packets pass the HTTP/2 client unchanged and in order *)

From Stdlib Require Import Init.Byte.
From S2P Require Import Prelude H2Packets.

(** ** The buffer *)

Lemma length_write_at i data buffer : i <= length buffer → length (write_at i data buffer) = length buffer.
Proof. intros Hi. unfold write_at. len. Qed.

(** What was written fits, and is what is read back. *)
Lemma packet_written data buffer i :
  i + length data <= length buffer → packet_of (write_at i data buffer) i (length data) = Ok data.
Proof.
  intros Hi. unfold packet_of, write_at. rewrite take_ge with (l := data) by lia.
  apply go_slice_app; rewrite length_take; lia.
Qed.

(** The slice is in range for every size the loop lets through. *)
Lemma packet_in_range buffer n :
  length buffer = h2PacketBufferSize → n <= h2MTU →
  ∃ packet, packet_of buffer h2PacketHeadroom n = Ok packet ∧ length packet = n.
Proof.
  intros Hb Hn. unfold packet_of, h2PacketBufferSize, h2PacketHeadroom in *.
  rewrite go_slice_Ok by lia. eexists. split; [done|]. rewrite length_take, length_drop. lia.
Qed.

(** ** outboundPump *)

(** A packet that is sent on. *)
Definition eligible (n : Z) : bool := negb (bool_decide (n <= 0)%Z || bool_decide (Z.of_nat h2MTU < n)%Z).

Lemma eligible_range n : eligible n = true ↔ (0 < n <= Z.of_nat h2MTU)%Z.
Proof. unfold eligible. rewrite negb_true_iff, orb_false_iff, !bool_decide_eq_false. lia. Qed.

(** The turn that ends the loop. *)
Definition out_ends (t : out_turn) : bool :=
  match tun_read t with
  | None => true
  | Some (_, n) => eligible n && bool_decide (waited t = None)
  end.

(** The size reported is that of what was written. *)
Definition honest (t : out_turn) : Prop :=
  ∀ data n, tun_read t = Some (data, n) → eligible n = true → Z.of_nat (length data) = n.

Definition out_events (t : out_turn) : list pump_event :=
  match tun_read t, waited t with
  | Some (data, n), Some bundle =>
      if eligible n then
        ToConn bundle data ::
        match sent t with
        | None => [Failed bundle]
        | Some icmp => if bool_decide (0 < length icmp) then [ToStack icmp] else []
        end
      else []
  | _, _ => []
  end.

Lemma outboundPump_total turns buffer :
  length buffer = h2PacketBufferSize →
  ∃ evs returned, outboundPump buffer turns = Ok (evs, returned) ∧
    ∀ b p, ToConn b p ∈ evs → 0 < length p <= h2MTU.
Proof.
  revert buffer. induction turns as [|t turns IH]; intros buffer Hb; cbn [outboundPump].
  { exists [], false. split; [done|]. by intros b p ?%elem_of_nil. }
  destruct (tun_read t) as [[data n]|]; [|exists [], true; split; [done|]; by intros b p ?%elem_of_nil].
  set (buf := write_at _ data buffer).
  assert (Hbuf : length buf = h2PacketBufferSize)
    by (unfold buf; rewrite length_write_at; [done|unfold h2PacketBufferSize in Hb; rewrite Hb; cbn; lia]).
  destruct (_ || _) eqn:He; [by apply IH|].
  assert (Hn : (0 < n <= Z.of_nat h2MTU)%Z) by (apply eligible_range; unfold eligible; by rewrite He).
  destruct (waited t) as [b|]; [|exists [], true; split; [done|]; by intros b p ?%elem_of_nil].
  destruct (packet_in_range buf (Z.to_nat n)) as (packet & Hp & Hl); [done|lia|]. rewrite Hp. cbn [mbind outcome_bind].
  destruct (IH (write_at 0 (after t) buf)) as (evs & r & Hr & Hsz); [by rewrite length_write_at by lia|].
  rewrite Hr. eexists _, r. split; [done|].
  intros b' p [[= -> ->]|[Hin|Hin]%elem_of_app]%elem_of_cons; [lia| |by eapply Hsz].
  destruct (sent t) as [icmp|]; [case_bool_decide|]; by apply list_elem_of_In in Hin; cbn in Hin; naive_solver.
Qed.

Lemma outboundPump_honest alive rest buffer :
  length buffer = h2PacketBufferSize → Forall (λ t, out_ends t = false) alive → Forall honest alive →
  (∀ t, head rest = Some t → out_ends t = true) →
  outboundPump buffer (alive ++ rest) = Ok (alive ≫= out_events, negb (bool_decide (rest = []))).
Proof.
  revert buffer. induction alive as [|t alive IH]; intros buffer Hb Ha Hh Hr; cbn [app outboundPump].
  { destruct rest as [|t rest]; [done|]. cbn [outboundPump]. specialize (Hr t eq_refl).
    unfold out_ends, eligible in Hr. destruct (tun_read t) as [[data n]|]; [|done].
    apply andb_true_iff in Hr as [He%negb_true_iff Hw%bool_decide_eq_true]. by rewrite He, Hw. }
  apply Forall_cons in Ha as [Ht Ha]. apply Forall_cons in Hh as [Hht Hh]. cbn [mbind list_bind].
  unfold out_ends, honest in *. unfold out_events at 1. destruct (tun_read t) as [[data n]|]; [|done].
  set (buf := write_at _ data buffer).
  assert (Hbuf : length buf = h2PacketBufferSize)
    by (unfold buf; rewrite length_write_at; [done|unfold h2PacketBufferSize in Hb; rewrite Hb; cbn; lia]).
  fold (eligible n). destruct (eligible n) eqn:He; unfold eligible in He.
  - apply negb_true_iff in He. rewrite He. cbn in Ht. apply bool_decide_eq_false in Ht.
    destruct (waited t) as [b|]; [|done].
    assert (Hn : eligible n = true) by (unfold eligible; by rewrite He).
    specialize (Hht _ _ eq_refl Hn). apply eligible_range in Hn.
    assert (Hp : packet_of buf h2PacketHeadroom (Z.to_nat n) = Ok data).
    { rewrite <- Hht, Nat2Z.id. apply packet_written. rewrite Hb. unfold h2PacketBufferSize. lia. }
    rewrite Hp. cbn [mbind outcome_bind].
    rewrite (IH (write_at 0 (after t) buf)); [|by rewrite length_write_at by lia|done..].
    by rewrite <- app_comm_cons.
  - apply negb_false_iff in He. rewrite He. rewrite (IH buf) by done. by destruct (waited t).
Qed.

(** ** inboundPump *)

Definition in_ends (t : in_turn) : bool :=
  match t with
  | ReadError _ => true
  | ReadPacket packet written _ => negb (bool_decide (length packet = 0)) && negb written
  end.

Definition packet_in (t : in_turn) : option (list byte) :=
  match t with
  | ReadPacket packet _ _ => if bool_decide (length packet = 0) then None else Some packet
  | ReadError _ => None
  end.

(** What the last turn leaves: the failure, unless the connection or the client is
    closing. *)
Definition last_failure (bundle : nat) (t : in_turn) : list pump_event :=
  match t with
  | ReadError done => if done then [] else [Failed bundle]
  | ReadPacket packet _ ctxDone => ToStack packet :: (if ctxDone then [] else [Failed bundle])
  end.

Lemma inboundPump_run bundle alive rest :
  Forall (λ t, in_ends t = false) alive → (∀ t, head rest = Some t → in_ends t = true) →
  inboundPump bundle (alive ++ rest) =
  ((ToStack <$> omap packet_in alive) ++ match rest with [] => [] | t :: _ => last_failure bundle t end,
   negb (bool_decide (rest = []))).
Proof.
  intros Ha Hr. induction Ha as [|t alive Ht _ IH]; cbn [app].
  - destruct rest as [|[d|packet w c] rest]; [done|done|]. specialize (Hr _ eq_refl).
    apply andb_true_iff in Hr as [Hp%negb_true_iff Hw%negb_true_iff]. cbn. by rewrite Hp, Hw.
  - destruct t as [d|packet w c]; [done|]. cbn in Ht. cbn [inboundPump omap list_omap packet_in].
    destruct (bool_decide (length packet = 0)); [exact IH|]. cbn in Ht. apply negb_false_iff in Ht as ->.
    by rewrite IH.
Qed.

(** ** The property *)

(** C28: Packets pass the HTTP/2 client unchanged.  Whatever sizes the userspace stack
    reports and whatever CONNECT-IP leaves in the shared buffer, the outbound loop never
    slices out of range and never sends more than an MTU.  If the sizes are right, each
    packet of 1 to 1280 bytes goes to the connection that is up, as it was read, in
    order, a failed send is reported to that connection's bundle, and ICMP answers go
    back to the stack; the others are dropped.  The inbound loop hands every packet that
    is not empty to the stack, in order, and ends at the first error, which it reports
    unless the connection, or the client, is closing. *)
Theorem h2_packets_pass :
  (∀ turns, ∃ evs returned, run_outbound turns = Ok (evs, returned) ∧
     ∀ b p, ToConn b p ∈ evs → 0 < length p <= h2MTU) ∧
  (∀ alive rest, Forall (λ t, out_ends t = false) alive → Forall honest alive →
     (∀ t, head rest = Some t → out_ends t = true) →
     run_outbound (alive ++ rest) = Ok (alive ≫= out_events, negb (bool_decide (rest = [])))) ∧
  (∀ bundle alive rest, Forall (λ t, in_ends t = false) alive →
     (∀ t, head rest = Some t → in_ends t = true) →
     inboundPump bundle (alive ++ rest) =
     ((ToStack <$> omap packet_in alive) ++ match rest with [] => [] | t :: _ => last_failure bundle t end,
      negb (bool_decide (rest = [])))).
Proof.
  assert (Hb : length (replicate h2PacketBufferSize x00) = h2PacketBufferSize) by apply length_replicate.
  split; [|split].
  - intros turns. by apply outboundPump_total.
  - intros alive rest. by apply outboundPump_honest.
  - apply inboundPump_run.
Qed.

(** The second packet is shorter than the first: nothing of the first is sent again. *)
Lemma h2_packets_pass_witness :
  let turn d := {| tun_read := Some (d, Z.of_nat (length d)); waited := Some 3; after := [x00; xff]; sent := Some [] |} in
  let stop := {| tun_read := None; waited := None; after := []; sent := None |} in
  run_outbound ([turn [x45; x01; x02]; turn []; turn [x46]] ++ [stop; turn [x47]]) =
    Ok ([ToConn 3 [x45; x01; x02]; ToConn 3 [x46]], true).
Proof.
  intros turn stop.
  pose proof (proj1 (proj2 h2_packets_pass) [turn [x45; x01; x02]; turn []; turn [x46]] [stop; turn [x47]]) as H.
  rewrite H; [by vm_compute|by repeat constructor| |by intros t [= <-]].
  repeat constructor; intros data n [= <- <-] _; done.
Defined.
