(* ===== verification/Main.v ===== *)
(** * The command (src/main.go)

    Which edge addresses are dialled ([resolveEdge] and the [-ip] switch), what one
    invocation does ([main], up to the accept loop), the accept loop with its
    back-off, and the address of the self-test.  The registration file and the WARP
    API, the system resolver, and the two clients' constructors are parameters:
    what each call returns ([Startup] fills in the registration's). *)

From Stdlib Require Import Init.Byte.
From S2P Require Import Prelude GoNet.

(** ** Edge addresses *)

Inductive edge_error := NotHostPort (e : addr_error) | EmptyHost | BadPort | LookupFailed | NoAddress.

#[export] Instance edge_error_eq_dec : EqDecision edge_error.
Proof. solve_decision. Defined.

Section edges.
  (** [net.DefaultResolver.LookupIPAddr]; an [IPAddr]'s zone is not used. *)
  Context (LookupIPAddr : gostring → option (list (list byte))).

Definition port_ok (port : gostring) : bool :=
  match atoi port with Some n => bool_decide (1 <= n <= 65535)%Z | None => false end.

Definition resolveEdge (spec : gostring) : outcome edge_error (list gostring) :=
  '(host, port) ← err_map NotHostPort (SplitHostPort spec);
  _ ← require (bool_decide (host ≠ [])) EmptyHost;
  _ ← require (port_ok port) BadPort;
  match ParseIP host with
  | Some _ => Ok [JoinHostPort host port]
  | None =>
      match LookupIPAddr host with
      | None => Err LookupFailed
      | Some [] => Err NoAddress
      | Some addrs => Ok ((λ a, JoinHostPort (ip_string a) port) <$> addrs)
      end
  end.

(** What [main] reads of a registration. *)
Record registration := {
  EndpointV4 : gostring; EndpointV6 : gostring; EndpointPorts : list Z
}.

(** The [switch *ip]: the candidates for H3 and for H2; [None] is [log.Fatalf]. *)
Definition edgeAddrs (ip : gostring) (reg : registration) : option (list gostring * list gostring) :=
  if decide (ip = str "4" ∨ ip = str "6") then
    let endpointHost := if decide (ip = str "6") then EndpointV6 reg else EndpointV4 reg in
    if decide (endpointHost = []) then None
    else
      let ports := if decide (EndpointPorts reg = []) then [443%Z] else EndpointPorts reg in
      Some ((λ p, JoinHostPort endpointHost (itoa p)) <$> ports,
            [JoinHostPort endpointHost (str "443")])
  else
    match resolveEdge ip with
    | Ok addrs => Some (addrs, addrs)
    | _ => None
    end.
End edges.

(** ** One invocation *)

Inductive transport_kind := H3 | H2.

#[export] Instance transport_kind_eq_dec : EqDecision transport_kind.
Proof. solve_decision. Defined.

(** The flags [main] branches on; [transport] is trimmed and in lower case. *)
Record flags := { f_transport : gostring; f_del : bool; f_reg : bool; f_ip : gostring }.

Inductive load_result := Loaded (r : registration) | NotExist | LoadFailed.

(** What the calls return.  [pin]: [None] is an error, [Some b] says whether there is
    a key to pin.  [newH3] and [newH2]: does the constructor connect? *)
Record world := {
  DeleteRegistration : bool;
  Load : load_result;
  Register : bool;
  Save : bool;
  pin : option bool;
  newH3 : list gostring → bool;
  newH2 : list gostring → bool;
  Listen : bool
}.

(** What it does to the world outside. *)
Inductive action :=
  | Deleting                          (** [registration.DeleteRegistration] *)
  | Registering                       (** [registration.Register] *)
  | Saving                            (** [regData.Save] *)
  | Connecting (t : transport_kind) (pinned : bool) (addrs : list gostring)
  | Listening.

#[export] Instance action_eq_dec : EqDecision action.
Proof. solve_decision. Defined.

(** How it ends: [log.Fatalf], a return of [main], or the accept loop. *)
Inductive ending := Fatal | Return | Serve (t : transport_kind).

#[export] Instance ending_eq_dec : EqDecision ending.
Proof. solve_decision. Defined.

Section main.
  Context (LookupIPAddr : gostring → option (list (list byte))) (w : world).

(** The [switch *transport]: the client, if one connects, and the attempts. *)
Definition connect (transport : gostring) (pinned : bool) (h3 h2 : list gostring)
    : option transport_kind * list action :=
  if decide (transport = str "h3") then
    (if newH3 w h3 then Some H3 else None, [Connecting H3 pinned h3])
  else if decide (transport = str "h2") then
    (if newH2 w h2 then Some H2 else None, [Connecting H2 pinned h2])
  else if newH3 w h3 then (Some H3, [Connecting H3 pinned h3])
  else (if newH2 w h2 then Some H2 else None, [Connecting H3 pinned h3; Connecting H2 pinned h2]).

Definition run_proxy (transport ip : gostring) (reg : registration) : ending * list action :=
  match edgeAddrs LookupIPAddr ip reg with
  | None => (Fatal, [])
  | Some (h3EdgeAddrs, h2EdgeAddrs) =>
      match pin w with
      | None => (Fatal, [])
      | Some pinned =>
          let '(client, tr) := connect transport pinned h3EdgeAddrs h2EdgeAddrs in
          match client with
          | None => (Fatal, tr)
          | Some t => if Listen w then (Serve t, tr ++ [Listening]) else (Fatal, tr)
          end
      end
  end.

Definition run_reg : ending * list action :=
  match Load w with
  | Loaded _ => (Return, [])
  | LoadFailed => (Fatal, [])
  | NotExist =>
      if negb (Register w) then (Fatal, [Registering])
      else if negb (Save w) then (Fatal, [Registering; Saving])
      else (Return, [Registering; Saving])
  end.

Definition run_main (f : flags) : ending * list action :=
  let transport := f_transport f in
  if negb (bool_decide (transport ∈ [str "auto"; str "h3"; str "h2"])) then (Fatal, [])
  else if f_del f then (if DeleteRegistration w then Return else Fatal, [Deleting])
  else if f_reg f then run_reg
  else
    match Load w with
    | Loaded reg => run_proxy transport (f_ip f) reg
    | _ => (Fatal, [])
    end.
End main.

(** ** The accept loop *)

(** What [ln.Accept] returns. *)
Inductive accept_result (conn : Type) := Conn (c : conn) | TimeoutErr | Closed | OtherErr.
Arguments Conn {_} _.
Arguments TimeoutErr {_}.
Arguments Closed {_}.
Arguments OtherErr {_}.

(** One round: the result, whether the context is done when [ctx.Err] is read, and
    whether it is done before the back-off is over. *)
Record round (conn : Type) := Round {
  res : accept_result conn; ctxErr : bool; interrupted : bool
}.
Arguments Round {_} _ _ _.
Arguments res {_} _.
Arguments ctxErr {_} _.
Arguments interrupted {_} _.

Inductive served (conn : Type) := Handled (c : conn) | Slept (d : Z).
Arguments Handled {_} _.
Arguments Slept {_} _.

(** Durations are in nanoseconds. *)
Definition firstBackoff : Z := 5000000.
Definition maxAcceptBackoff : Z := 1000000000.

Definition nextBackoff (acceptBackoff : Z) : Z :=
  if decide (acceptBackoff = 0)%Z then firstBackoff
  else if decide (maxAcceptBackoff < acceptBackoff * 2)%Z then maxAcceptBackoff
  else acceptBackoff * 2.

(** The loop over the rounds to come: what it does, and the back-off it is left with,
    or [None] once it has ended. *)
Fixpoint acceptLoop {conn} (acceptBackoff : Z) (rs : list (round conn))
    : list (served conn) * option Z :=
  match rs with
  | [] => ([], Some acceptBackoff)
  | r :: rs =>
      match res r with
      | Conn c => let '(tr, e) := acceptLoop 0 rs in (Handled c :: tr, e)
      | err =>
          if ctxErr r then ([], None)
          else
            match err with
            | TimeoutErr => acceptLoop acceptBackoff rs
            | Closed => ([], None)
            | _ =>
                let b := nextBackoff acceptBackoff in
                if interrupted r then ([Slept b], None)
                else let '(tr, e) := acceptLoop b rs in (Slept b :: tr, e)
            end
      end
  end.

(** ** The self-test *)

(** [loopbackAddress] of a TCP address; the nil IP is [[]]. *)
Definition loopbackAddress (ip : list byte) (port : Z) : gostring :=
  let ip' :=
    if bool_decide (ip = []) || is_unspecified ip then
      if bool_decide (ip ≠ []) && bool_decide (To4 ip = None) then IPv6loopback
      else IPv4 x7f x00 x00 x01
    else ip in
  JoinHostPort (ip_string ip') (itoa port).
