(* ===== verification/MainFacts.v ===== *)
(** * Edge candidates, one invocation, and the accept loop *)

From Stdlib Require Import Init.Byte.
From S2P Require Import Prelude GoNet GoNetFacts Main.

(** ** SplitHostPort's results join again *)

(** ** The candidates *)

Lemma port_ok_spec port : port_ok port = true ↔ ∃ n, atoi port = Some n ∧ (1 <= n <= 65535)%Z.
Proof.
  unfold port_ok. destruct (atoi port) as [n|]; [|naive_solver].
  rewrite bool_decide_eq_true. naive_solver.
Qed.

Lemma resolveEdge_Ok Lookup spec addrs :
  (∀ h l a, Lookup h = Some l → a ∈ l → valid_ip a) →
  resolveEdge Lookup spec = Ok addrs →
  ∃ host port n, SplitHostPort spec = Ok (host, port) ∧ host ≠ [] ∧
    atoi port = Some n ∧ (1 <= n <= 65535)%Z ∧
    (is_Some (ParseIP host) → SplitHostPort <$> addrs = [Ok (host, port)]) ∧
    (ParseIP host = None → ∃ l, Lookup host = Some l ∧ l ≠ [] ∧
       SplitHostPort <$> addrs = (λ a, Ok (ip_string a, port)) <$> l).
Proof.
  intros Hl H. unfold resolveEdge in H.
  destruct (SplitHostPort spec) as [[host port]| |] eqn:Hs; [|done..]. cbn in H.
  destruct (split_clean _ _ _ Hs) as [Hh Hp].
  destruct (bool_decide (host ≠ [])) eqn:Hne; [|done]. apply bool_decide_eq_true in Hne. cbn in H.
  destruct (port_ok port) eqn:Hport; [|done]. apply port_ok_spec in Hport as (n & Hn & Hr). cbn in H.
  exists host, port, n. do 4 (split; [done|]). split.
  - intros [ip Hip]. rewrite Hip in H. injection H as <-. cbn. by rewrite split_join.
  - intros Hip. rewrite Hip in H. destruct (Lookup host) as [l|] eqn:Hlk; [|done].
    exists l. destruct l as [|a l]; [done|]. split; [done|]. split; [done|].
    assert (addrs = (λ a, JoinHostPort (ip_string a) port) <$> (a :: l)) as -> by congruence.
    rewrite <- list_fmap_compose. apply list_fmap_ext. intros i x Hx. cbn.
    apply split_join; [|done]. apply ip_string_clean. eapply Hl; [done|].
    by eapply list_elem_of_lookup_2.
Qed.

(** ** The accept loop *)

(** A round after which the loop goes on. *)
Definition goes_on {conn} (r : round conn) : bool :=
  match res r with
  | Conn _ => true
  | TimeoutErr => negb (ctxErr r)
  | Closed => false
  | OtherErr => negb (ctxErr r) && negb (interrupted r)
  end.

Definition accepted {conn} (r : round conn) : option conn :=
  match res r with Conn c => Some c | _ => None end.
Definition handled {conn} (s : served conn) : option conn :=
  match s with Handled c => Some c | _ => None end.

(** The back-off after [k] errors in a row: it doubles from 5 ms up to 1 s. *)
Definition backoff (k : nat) : Z :=
  match k with O => 0 | S k => Z.min (5000000 * 2 ^ Z.of_nat k) 1000000000 end.

(** Errors in a row, other than time-outs, after the rounds [rs]. *)
Definition errors {conn} (k : nat) (rs : list (round conn)) : nat :=
  foldl (λ k r, match res r with Conn _ => 0 | OtherErr => S k | _ => k end) k rs.

Fixpoint expected {conn} (k : nat) (rs : list (round conn)) : list (served conn) :=
  match rs with
  | [] => []
  | r :: rs =>
      match res r with
      | Conn c => Handled c :: expected 0 rs
      | OtherErr => Slept (backoff (S k)) :: expected (S k) rs
      | _ => expected k rs
      end
  end.

Lemma nextBackoff_backoff k : nextBackoff (backoff k) = backoff (S k).
Proof.
  unfold nextBackoff, firstBackoff, maxAcceptBackoff. destruct k as [|k]; [done|].
  cbn [backoff]. rewrite Nat2Z.inj_succ, Z.pow_succ_r by lia.
  assert (0 < 2 ^ Z.of_nat k)%Z by (apply Z.pow_pos_nonneg; lia).
  rewrite decide_False by lia. case_decide; lia.
Qed.

Lemma acceptLoop_on {conn} k (alive rest : list (round conn)) :
  Forall (λ r, goes_on r = true) alive →
  acceptLoop (backoff k) (alive ++ rest) =
  let '(tr, e) := acceptLoop (backoff (errors k alive)) rest in (expected k alive ++ tr, e).
Proof.
  intros Ha. revert k. induction Ha as [|r alive Hr _ IH]; intros k.
  { cbn. by destruct (acceptLoop _ rest). }
  cbn [app acceptLoop expected errors foldl]. unfold goes_on in Hr.
  destruct (res r) as [c| | |].
  - specialize (IH 0). cbn [backoff] in IH. rewrite IH. fold (errors 0 alive).
    by destruct (acceptLoop _ rest).
  - apply negb_true_iff in Hr. rewrite Hr, IH. done.
  - done.
  - apply andb_true_iff in Hr as [H1%negb_true_iff H2%negb_true_iff].
    rewrite H1, H2, nextBackoff_backoff, IH. fold (errors (S k) alive).
    by destruct (acceptLoop _ rest).
Qed.

Lemma acceptLoop_end {conn} k (r : round conn) rest :
  goes_on r = false →
  acceptLoop (backoff k) (r :: rest) =
  (match res r with
   | OtherErr => if ctxErr r then [] else [Slept (backoff (S k))]
   | _ => []
   end, None).
Proof.
  unfold goes_on. cbn. destruct (res r) as [c| | |]; intros Hr; [done|..].
  - by apply negb_false_iff in Hr as ->.
  - by destruct (ctxErr r).
  - destruct (ctxErr r); [done|]. cbn in Hr. apply negb_false_iff in Hr as ->.
    by rewrite nextBackoff_backoff.
Qed.

Lemma expected_handled {conn} k (rs : list (round conn)) :
  omap handled (expected k rs) = omap accepted rs.
Proof.
  revert k. induction rs as [|r rs IH]; intros k; [done|]. cbn. unfold accepted at 1.
  destruct (res r); cbn; by rewrite ?IH.
Qed.

Lemma backoff_range k : (5000000 <= backoff (S k) <= 1000000000)%Z.
Proof.
  cbn. assert (0 < 2 ^ Z.of_nat k)%Z by (apply Z.pow_pos_nonneg; lia). lia.
Qed.

Lemma transport_cases t :
  t ∈ [str "auto"; str "h3"; str "h2"] → t ≠ str "h3" → t ≠ str "h2" → t = str "auto".
Proof. intros [->|[->|[->|[]%elem_of_nil]%elem_of_cons]%elem_of_cons]%elem_of_cons; done. Qed.

(** The conclusions of [one_invocation] for a known trace: by computation, and for a
    dial or a serving proxy from what is known of the calls. *)
Ltac dialled :=
  repeat match goal with
  | H : _ ∨ _ |- _ => destruct H as [H|H]
  | H : Connecting _ _ _ = Connecting _ _ _ |- _ => injection H as -> -> ->
  | H : Some (Connecting _ _ _) = Some (Connecting _ _ _) |- _ => injection H as <- <- <-
  end;
  first [done
        |do 3 (split; [done|]); do 3 eexists; split; [done|]; split; [eassumption|];
         split; [done|]; first [congruence|by auto|match goal with H : f_transport _ = _ |- _ => by rewrite H end]].

Ltac serving :=
  split;
  [intros Hs; first [discriminate Hs|injection Hs as <-; split; [done|]; do 2 eexists; done]
  |intros (? & ? & ? & Hlast & ?); first [done|injection Hlast as <- <- <-; congruence]].

Ltac split_main :=
  cbv beta iota zeta; cbn [app last filter]; split_and!; intros;
  lazymatch goal with
  | |- _ = Serve _ ↔ _ => serving
  | H : Connecting _ _ _ ∈ _ |- _ => set_unfold in H; dialled
  | _ => set_unfold; naive_solver
  end.

(** ** The properties *)

(** C37: The edge candidates are addresses that can be dialled.  When [main] gets past
    the [-ip] switch, both candidate lists are non-empty and every candidate splits
    back into its host and port: for [-ip 4] and [-ip 6] the registration's endpoint of
    that family with each registered port in the API's order (443 if it lists none),
    and with port 443 alone for H2; for anything else the port given, a number from 1
    to 65535, with the literal given or, in the resolver's order, with every address
    the name resolves to. *)
Theorem edge_candidates Lookup ip reg h3 h2 :
  (∀ h l a, Lookup h = Some l → a ∈ l → valid_ip a) →
  clean_host (EndpointV4 reg) → clean_host (EndpointV6 reg) →
  Forall (λ p, (0 <= p)%Z) (EndpointPorts reg) →
  edgeAddrs Lookup ip reg = Some (h3, h2) →
  h3 ≠ [] ∧ h2 ≠ [] ∧
  (∀ host, ip = str "4" ∧ host = EndpointV4 reg ∨ ip = str "6" ∧ host = EndpointV6 reg →
     host ≠ [] ∧
     SplitHostPort <$> h3 =
       (λ p, Ok (host, itoa p)) <$>
         (match EndpointPorts reg with [] => [443%Z] | ports => ports end) ∧
     SplitHostPort <$> h2 = [Ok (host, str "443")]) ∧
  (ip ≠ str "4" → ip ≠ str "6" →
     h2 = h3 ∧ ∃ host port n,
       SplitHostPort ip = Ok (host, port) ∧ host ≠ [] ∧ atoi port = Some n ∧ (1 <= n <= 65535)%Z ∧
       (is_Some (ParseIP host) → SplitHostPort <$> h3 = [Ok (host, port)]) ∧
       (ParseIP host = None → ∃ l, Lookup host = Some l ∧ l ≠ [] ∧
          SplitHostPort <$> h3 = (λ a, Ok (ip_string a, port)) <$> l)).
Proof.
  intros Hl H4 H6 Hports H. unfold edgeAddrs in H.
  assert (H443 : clean_port (str "443")) by (apply (clean_port_itoa 443); lia).
  destruct (decide (ip = str "4" ∨ ip = str "6")) as [Hip|Hip].
  - set (ep := if decide (ip = str "6") then EndpointV6 reg else EndpointV4 reg) in *.
    assert (Hep : clean_host ep) by (subst ep; by destruct (decide (ip = str "6"))).
    destruct (decide (ep = [])) as [|Hne]; [done|]. injection H as <- <-.
    split; [by destruct (EndpointPorts reg)|]. split; [done|]. split; [|naive_solver].
    intros host Hhost. assert (host = ep) as ->.
    { subst ep. destruct (decide (ip = str "6")) as [->|]; naive_solver. }
    split; [done|]. split; [|cbn; by rewrite split_join].
    assert (Hmap : ∀ ps, Forall (λ p, (0 <= p)%Z) ps →
      SplitHostPort <$> ((λ p, JoinHostPort ep (itoa p)) <$> ps) = (λ p, Ok (ep, itoa p)) <$> ps).
    { intros ps Hps. rewrite <- list_fmap_compose. apply list_fmap_ext. intros i p Hp. cbn.
      apply split_join; [done|]. apply clean_port_itoa. by eapply Forall_lookup_1 in Hps. }
    destruct (EndpointPorts reg) as [|p ps] eqn:Hpe.
    + rewrite decide_True by done. apply Hmap. repeat constructor; lia.
    + rewrite decide_False by done. by apply Hmap.
  - destruct (resolveEdge Lookup ip) as [addrs| |] eqn:Hr; try done. injection H as <- <-.
    apply resolveEdge_Ok in Hr as (host & port & n & Hs & Hne & Hn & Hrange & Hlit & Hname); [|done].
    assert (addrs ≠ []).
    { intros ->. destruct (ParseIP host) eqn:Hp; [by specialize (Hlit ltac:(by eexists))|].
      destruct (Hname eq_refl) as ([|a l] & _ & ? & ?); done. }
    split_and!; [done|done|naive_solver|]. intros _ _. split; [done|]. by exists host, port, n.
Qed.

Lemma edge_candidates_witness :
  let Lookup h := if decide (h = str "edge.example") then Some [[x01; x02; x03; x04]] else None in
  let reg := {| EndpointV4 := str "162.159.198.2"; EndpointV6 := str "2606:4700:103::2";
                EndpointPorts := [443; 4500]%Z |} in
  ∃ h3 h2, edgeAddrs Lookup (str "6") reg = Some (h3, h2) ∧
    SplitHostPort <$> h3 = [Ok (str "2606:4700:103::2", str "443"); Ok (str "2606:4700:103::2", str "4500")].
Proof.
  intros Lookup reg.
  assert (H : edgeAddrs Lookup (str "6") reg =
    Some ([str "[2606:4700:103::2]:443"; str "[2606:4700:103::2]:4500"], [str "[2606:4700:103::2]:443"]))
    by by vm_compute.
  eexists _, _. split; [exact H|].
  assert (Hl : ∀ h l a, Lookup h = Some l → a ∈ l → valid_ip a).
  { intros h l a Hh Ha. subst Lookup. cbn in Hh. case_decide; [|done]. injection Hh as <-.
    apply list_elem_of_singleton in Ha as ->. by left. }
  assert (H4 : clean_host (EndpointV4 reg)) by (split; apply (bool_decide_unpack _); by vm_compute).
  assert (H6 : clean_host (EndpointV6 reg)) by (split; apply (bool_decide_unpack _); by vm_compute).
  assert (Hp : Forall (λ p, (0 <= p)%Z) (EndpointPorts reg)) by (repeat constructor; done).
  destruct (edge_candidates Lookup (str "6") reg _ _ Hl H4 H6 Hp H) as (_ & _ & Hfam & _).
  destruct (Hfam (EndpointV6 reg)) as (_ & Hs & _); [by right|]. rewrite Hs. by vm_compute.
Defined.

(** C36: An invocation does one job.  It registers only with [-reg], without [-del], and
    only if there is no registration file -- an existing or unreadable one is never
    replaced -- and writes the file only after the API has answered; it asks the API to
    deregister exactly with [-del]; and it dials the edge only without either flag, with
    a registration that loaded and an edge key that parsed, to the candidates of that
    registration.  It dials H3 unless [-transport h2], and H2 only with [-transport h2]
    or, with [auto], after H3 has failed on all its candidates; it serves exactly when
    the last dial succeeded and the listener opened. *)
Theorem one_invocation Lookup (w : world) (f : flags) :
  let '(e, tr) := run_main Lookup w f in
  let valid := f_transport f ∈ [str "auto"; str "h3"; str "h2"] in
  (Registering ∈ tr ↔ valid ∧ f_reg f = true ∧ f_del f = false ∧ Load w = NotExist) ∧
  (Saving ∈ tr ↔ Registering ∈ tr ∧ Register w = true) ∧
  (Deleting ∈ tr ↔ valid ∧ f_del f = true) ∧
  (∀ t p a, Connecting t p a ∈ tr →
     f_reg f = false ∧ f_del f = false ∧ pin w = Some p ∧
     ∃ reg h3 h2, Load w = Loaded reg ∧ edgeAddrs Lookup (f_ip f) reg = Some (h3, h2) ∧
       match t with
       | H3 => a = h3 ∧ f_transport f ≠ str "h2"
       | H2 => a = h2 ∧ (f_transport f = str "h2" ∨ f_transport f = str "auto" ∧ newH3 w h3 = false)
       end) ∧
  (∀ t, e = Serve t ↔
     Listen w = true ∧ ∃ p a, last (filter (λ x, x ≠ Listening) tr) = Some (Connecting t p a) ∧
       (match t with H3 => newH3 | H2 => newH2 end) w a = true) ∧
  (e = Return → valid ∧ (f_del f = true ∧ DeleteRegistration w = true ∨
                f_del f = false ∧ f_reg f = true ∧
                  ((∃ reg, Load w = Loaded reg) ∨ Saving ∈ tr ∧ Save w = true))).
Proof.
  unfold run_main. destruct (bool_decide _) eqn:Hv; cbn [negb].
  2:{ apply bool_decide_eq_false in Hv. by split_main. }
  apply bool_decide_eq_true in Hv. destruct (f_del f) eqn:Hd.
  { destruct (DeleteRegistration w) eqn:?; by split_main. }
  destruct (f_reg f) eqn:Hr.
  { unfold run_reg. destruct (Load w) eqn:?; [by split_main| |by split_main].
    destruct (Register w) eqn:?, (Save w) eqn:?; cbn [negb]; by split_main. }
  destruct (Load w) as [reg| |] eqn:Hl; [|by split_main..].
  unfold run_proxy. destruct (edgeAddrs Lookup (f_ip f) reg) as [[h3 h2]|] eqn:He; [|by split_main].
  destruct (pin w) as [pinned|] eqn:Hp; [|by split_main].
  assert (Hkind := transport_cases _ Hv). unfold connect.
  destruct (decide (f_transport f = str "h3")) as [Ht|Ht].
  { destruct (newH3 w h3) eqn:?, (Listen w) eqn:?; by split_main. }
  destruct (decide (f_transport f = str "h2")) as [Ht2|Ht2].
  { destruct (newH2 w h2) eqn:?, (Listen w) eqn:?; by split_main. }
  specialize (Hkind Ht Ht2). destruct (newH3 w h3) eqn:?, (newH2 w h2) eqn:?, (Listen w) eqn:?; by split_main.
Qed.

(** The accept loop hands every accepted connection to the handler, once and in
    order, until it ends; it ends only at a round in which the listener was closed or
    the context done; and between errors it sleeps 5 ms, doubled at every error in a
    row up to 1 s, starting afresh after a connection. *)
Theorem accept_loop_serves {conn} (alive rest : list (round conn)) :
  Forall (λ r, goes_on r = true) alive →
  (∀ r, head rest = Some r → goes_on r = false) →
  let '(tr, e) := acceptLoop 0 (alive ++ rest) in
  omap handled tr = omap accepted alive ∧
  (∃ tail, tr = expected 0 alive ++ tail ∧ length tail <= 1) ∧
  (e = None ↔ rest ≠ []) ∧
  (rest = [] → e = Some (backoff (errors 0 alive))) ∧
  ∀ d, Slept d ∈ tr → (5000000 <= d <= 1000000000)%Z.
Proof.
  intros Ha Hrest.
  change (acceptLoop 0 (alive ++ rest)) with (acceptLoop (backoff 0) (alive ++ rest)).
  rewrite (acceptLoop_on 0 alive rest Ha).
  assert (Hrange : ∀ k d, Slept d ∈ expected k alive → (5000000 <= d <= 1000000000)%Z).
  { intros k d. clear Ha. revert k. induction alive as [|r alive IH]; intros k; cbn.
    - by intros ?%elem_of_nil.
    - destruct (res r); try apply IH; intros [Heq|Hin]%elem_of_cons; try done; try by eapply IH.
      injection Heq as ->. apply backoff_range. }
  destruct rest as [|r rest].
  - cbn [acceptLoop]. rewrite app_nil_r, expected_handled. split_and!; try done.
    + exists []. rewrite app_nil_r. split; [done|cbn; lia].
    + by eauto.
  - rewrite acceptLoop_end by by apply Hrest.
    set (tl := match res r with OtherErr => _ | _ => _ end).
    assert (Htl : tl = [] ∨ ∃ k, tl = [Slept (backoff (S k))])
      by (subst tl; destruct (res r); auto; destruct (ctxErr r); eauto).
    clearbody tl. rewrite omap_app, expected_handled. split_and!; try done.
    + destruct Htl as [-> | [k ->]]; by rewrite app_nil_r.
    + exists tl. split; [done|]. destruct Htl as [-> | [k ->]]; cbn; lia.
    + intros d [Hd|Hd]%elem_of_app; [by eapply Hrange|].
      destruct Htl as [-> | [k ->]]; [by apply elem_of_nil in Hd|].
      apply list_elem_of_singleton in Hd as [= ->]. apply backoff_range.
Qed.

Lemma accept_loop_serves_witness :
  let err := Round (conn:=nat) OtherErr false false in
  let alive := [err; err; Round (Conn 7) false false; err] in
  let rest := [Round (conn:=nat) Closed false false; Round (Conn 8) false false] in
  acceptLoop 0 (alive ++ rest) =
    ([Slept 5000000; Slept 10000000; Handled 7; Slept 5000000], None) ∧
  omap handled (fst (acceptLoop 0 (alive ++ rest))) = [7].
Proof.
  intros err alive rest.
  assert (H : acceptLoop 0 (alive ++ rest) =
    ([Slept 5000000; Slept 10000000; Handled 7; Slept 5000000], None)) by by vm_compute.
  split; [exact H|].
  pose proof (accept_loop_serves alive rest) as Hs. rewrite H in Hs |- *.
  refine (proj1 (Hs _ _)).
  - by repeat constructor.
  - by intros r [= <-].
Defined.

(** ** The self-test's address *)

(** [loopbackAddress] is an address that can be dialled: the listener's own, or the
    loopback address of its family when it listens on every interface. *)
Lemma loopbackAddress_dials ip port :
  ip = [] ∨ valid_ip ip → (0 <= port)%Z →
  ∃ host, SplitHostPort (loopbackAddress ip port) = Ok (host, itoa port) ∧
    host = ip_string (if bool_decide (ip = []) || is_unspecified ip then
                        if bool_decide (ip ≠ []) && bool_decide (To4 ip = None)
                        then IPv6loopback else IPv4 x7f x00 x00 x01
                      else ip).
Proof.
  intros Hip Hport. unfold loopbackAddress. eexists. split; [|done].
  apply split_join; [|by apply clean_port_itoa]. apply ip_string_clean.
  destruct (bool_decide (ip = [])) eqn:E; cbn.
  - apply bool_decide_eq_true in E as ->. cbn. by right.
  - apply bool_decide_eq_false in E. destruct Hip as [|Hip]; [done|].
    destruct (is_unspecified ip); [|done]. destruct (_ && _); by right.
Qed.
