(* ===== verification/Server.v ===== *)
(** * The command once it serves (src/main.go, from [signal.Notify] on)

    [main]'s accept loop, the goroutine that waits for a signal, the self-test
    goroutine and the handlers, over what they share: the channel of signals, the
    context, the listener and the tunnel client.  A label is one step of a goroutine or
    of the environment, and [step] is the partial function the label denotes. *)

From S2P Require Import Prelude Main.

Section server.
  (** The client connections. *)
  Context {conn : Type}.

(** Where [main] is: in [ln.Accept], with the error it returned, in the [select] with a
    back-off, and in the deferred calls: [cancel], [ln.Close], [proxyClient.Close]. *)
Inductive main_pc :=
  | MAccept | MError (err : accept_result conn) | MBackoff
  | MCancel | MListener | MClient | MDone.

(** The signal goroutine: [<-sigCh], [cancel()], [ln.Close()], gone. *)
Inductive sig_pc := SWait | SCancel | SClose | SDone.

(** The self-test goroutine: in its [n]th attempt, in the [select] after it, logging that
    all have failed, gone. *)
Inductive test_pc := TRun (n : nat) | TSleep (n : nat) | TReport | TDone.

#[global] Instance sig_pc_eq_dec : EqDecision sig_pc.
Proof. solve_decision. Defined.
#[global] Instance test_pc_eq_dec : EqDecision test_pc.
Proof. solve_decision. Defined.

Record server := Server {
  sigCh : bool;               (** a signal is in the channel, of capacity 1 *)
  ctxDone : bool;             (** [cancel] was called *)
  lnClosed : bool;            (** [ln.Close] was called *)
  clientClosed : nat;         (** calls of [proxyClient.Close] *)
  acceptBackoff : Z;
  handlers : list conn;       (** goroutines in [HandleSOCKS5] *)
  started : list conn;        (** the connections handed to one, in order *)
  main : main_pc;
  sig : sig_pc;
  test : test_pc
}.

(** When the goroutines have been started. *)
Definition start (selfTest : bool) : server :=
  Server false false false 0 0 [] [] MAccept SWait (if selfTest then TRun 1 else TDone).

Definition goto (pc : main_pc) (s : server) : server :=
  Server (sigCh s) (ctxDone s) (lnClosed s) (clientClosed s) (acceptBackoff s)
    (handlers s) (started s) pc (sig s) (test s).

Definition sgoto (pc : sig_pc) (s : server) : server :=
  Server (sigCh s) (ctxDone s) (lnClosed s) (clientClosed s) (acceptBackoff s)
    (handlers s) (started s) (main s) pc (test s).

Definition tgoto (pc : test_pc) (s : server) : server :=
  Server (sigCh s) (ctxDone s) (lnClosed s) (clientClosed s) (acceptBackoff s)
    (handlers s) (started s) (main s) (sig s) pc.

Definition with_backoff (d : Z) (s : server) : server :=
  Server (sigCh s) (ctxDone s) (lnClosed s) (clientClosed s) d
    (handlers s) (started s) (main s) (sig s) (test s).

Definition cancel (s : server) : server :=
  Server (sigCh s) true (lnClosed s) (clientClosed s) (acceptBackoff s)
    (handlers s) (started s) (main s) (sig s) (test s).

Definition ln_Close (s : server) : server :=
  Server (sigCh s) (ctxDone s) true (clientClosed s) (acceptBackoff s)
    (handlers s) (started s) (main s) (sig s) (test s).

Definition proxyClient_Close (s : server) : server :=
  Server (sigCh s) (ctxDone s) (lnClosed s) (S (clientClosed s)) (acceptBackoff s)
    (handlers s) (started s) (main s) (sig s) (test s).

Definition with_sigCh (b : bool) (s : server) : server :=
  Server b (ctxDone s) (lnClosed s) (clientClosed s) (acceptBackoff s)
    (handlers s) (started s) (main s) (sig s) (test s).

(** [acceptBackoff = 0; go proxyClient.HandleSOCKS5(ctx, conn, socksCfg)] *)
Definition handle (c : conn) (s : server) : server :=
  Server (sigCh s) (ctxDone s) (lnClosed s) (clientClosed s) 0
    (handlers s ++ [c]) (started s ++ [c]) MAccept (sig s) (test s).

Inductive label :=
  | Signal                            (** SIGINT or SIGTERM arrives *)
  | Accept (r : accept_result conn)   (** [ln.Accept] returns *)
  | Main                              (** [main] goes on *)
  | Elapsed                           (** [time.After(acceptBackoff)] in the [select] *)
  | Interrupted                       (** [<-ctx.Done()] there *)
  | Sig                               (** the signal goroutine goes on *)
  | Test (ok : bool)                  (** an attempt ends, or the goroutine goes on *)
  | TestInterrupted                   (** [<-ctx.Done()] in its [select] *)
  | HandlerReturns (n : nat).         (** the [n]th running handler returns *)

(** [Accept] on a closed listener fails with [net.ErrClosed], and only there. *)
Definition can_return (s : server) (r : accept_result conn) : bool :=
  match r with Closed => lnClosed s | _ => negb (lnClosed s) end.

(** What [main] does with the error, and its deferred calls. *)
Definition main_step (s : server) : option server :=
  match main s with
  | MError err =>
      if ctxDone s then Some (goto MCancel s)
      else
        match err with
        | TimeoutErr => Some (goto MAccept s)
        | Closed => Some (goto MCancel s)
        | _ => Some (goto MBackoff (with_backoff (nextBackoff (acceptBackoff s)) s))
        end
  | MCancel => Some (goto MListener (cancel s))
  | MListener => Some (goto MClient (ln_Close s))
  | MClient => Some (goto MDone (proxyClient_Close s))
  | _ => None
  end.

Definition sig_step (s : server) : option server :=
  match sig s with
  | SWait => if sigCh s then Some (sgoto SCancel (with_sigCh false s)) else None
  | SCancel => Some (sgoto SClose (cancel s))
  | SClose => Some (sgoto SDone (ln_Close s))
  | SDone => None
  end.

(** The loop over [attempt]; in the [select], the time-out of two seconds. *)
Definition test_step (ok : bool) (s : server) : option server :=
  match test s with
  | TRun n => Some (tgoto (if ok then TDone else TSleep n) s)
  | TSleep n => Some (tgoto (if decide (n < 3) then TRun (S n) else TReport) s)
  | TReport => Some (tgoto TDone s)
  | TDone => None
  end.

Definition exited (s : server) : bool := match main s with MDone => true | _ => false end.

(** A signal that finds the channel full is dropped, and changes nothing; once [main]
    has returned the process is gone. *)
Definition step (l : label) (s : server) : option server :=
  if exited s then None
  else
    match l with
    | Signal => if sigCh s then None else Some (with_sigCh true s)
    | Accept r =>
        match main s with
        | MAccept =>
            if can_return s r then
              Some (match r with Conn c => handle c s | err => goto (MError err) s end)
            else None
        | _ => None
        end
    | Main => main_step s
    | Elapsed => match main s with MBackoff => Some (goto MAccept s) | _ => None end
    | Interrupted =>
        match main s with
        | MBackoff => if ctxDone s then Some (goto MCancel s) else None
        | _ => None
        end
    | Sig => sig_step s
    | Test ok => test_step ok s
    | TestInterrupted =>
        match test s with
        | TSleep _ => if ctxDone s then Some (tgoto TDone s) else None
        | _ => None
        end
    | HandlerReturns n =>
        if decide (n < length (handlers s)) then
          Some (Server (sigCh s) (ctxDone s) (lnClosed s) (clientClosed s) (acceptBackoff s)
                  (delete n (handlers s)) (started s) (main s) (sig s) (test s))
        else None
    end.

Fixpoint run (ls : list label) (s : server) : option server :=
  match ls with [] => Some s | l :: ls' => step l s ≫= run ls' end.

Definition reach (selfTest : bool) (s : server) : Prop :=
  ∃ ls, run ls (start selfTest) = Some s.

End server.

Arguments server : clear implicits.
Arguments main_pc : clear implicits.
Arguments label : clear implicits.
