(* ===== verification/ServerFacts.v ===== *)
(** * The serving command: it refines the accept loop, and shuts down *)

From S2P Require Import Prelude Main MainFacts Server.

(** ** The accept loop, a round at a time *)

Lemma acceptLoop_app {conn} b (rs rs' : list (round conn)) :
  acceptLoop b (rs ++ rs') =
  match acceptLoop b rs with
  | (tr, Some b') => let '(tr', e) := acceptLoop b' rs' in (tr ++ tr', e)
  | (tr, None) => (tr, None)
  end.
Proof.
  revert b. induction rs as [|r rs IH]; intros b; [by cbn; destruct (acceptLoop b rs')|].
  cbn [app acceptLoop]. destruct (res r) as [c| | |].
  - rewrite IH. destruct (acceptLoop 0 rs) as [tr [b'|]]; [|done]. by destruct (acceptLoop b' rs').
  - by destruct (ctxErr r).
  - by destruct (ctxErr r).
  - destruct (ctxErr r); [done|]. destruct (interrupted r); [done|]. rewrite IH.
    destruct (acceptLoop (nextBackoff b) rs) as [tr [b'|]]; [|done]. by destruct (acceptLoop b' rs').
Qed.

Lemma acceptLoop_snoc {conn} b (rs : list (round conn)) r tr b' tr' e :
  acceptLoop b rs = (tr, Some b') → acceptLoop b' [r] = (tr', e) →
  acceptLoop b (rs ++ [r]) = (tr ++ tr', e).
Proof. intros H1 H2. by rewrite acceptLoop_app, H1, H2. Qed.

Section facts.
  Context {conn : Type}.
  Implicit Types (s : server conn) (l : label conn).

(** [main] is past its loop. *)
Definition left s : bool :=
  match main s with MCancel | MListener | MClient | MDone => true | _ => false end.

(** ** The invariant *)

Record wf s : Prop := Wf {
  wf_listener : lnClosed s = true → ctxDone s = true;
  wf_signalled : ctxDone s = true → sig s = SClose ∨ sig s = SDone;
  wf_sig : sig s = SClose ∨ sig s = SDone → ctxDone s = true;
  wf_sigdone : sig s = SDone → lnClosed s = true;
  wf_left : left s = true → ctxDone s = true;
  wf_closed : main s = MError Closed → ctxDone s = true;
  wf_listener_left : main s = MClient ∨ main s = MDone → lnClosed s = true;
  wf_client : clientClosed s = match main s with MDone => 1 | _ => 0 end;
  wf_test : match test s with TRun n | TSleep n => 1 <= n <= 3 | _ => True end
}.

Lemma server_wf_start selfTest : wf (start selfTest).
Proof. split; cbn; try naive_solver. destruct selfTest; [lia|done]. Qed.

(** Take a step apart: one goal for each way a goroutine can go on. *)
Ltac step_cases H :=
  repeat match goal with r : accept_result _ |- _ => destruct r end;
  unfold step, exited, main_step, sig_step, test_step, can_return in H;
  repeat (match type of H with context [match ?x with _ => _ end] => destruct x eqn:? end;
          simplify_eq/=).

Lemma server_wf_step l s s' : wf s → step l s = Some s' → wf s'.
Proof.
  intros [? ? ? ? ? ? ? ? ?] H.
  destruct s as [sc cd lc cc ab hs st m sg te]; cbn in *; destruct l; step_cases H;
    (split; cbn in *; first [assumption|done|lia|intuition congruence|destruct lc; intuition congruence
                           |by destruct ok|by destruct (decide _); cbn; [lia|]]).
Qed.

Lemma run_snoc_server ls l s s' s'' :
  run ls s = Some s' → step l s' = Some s'' → run (ls ++ [l]) s = Some s''.
Proof.
  revert s. induction ls as [|x ls IH]; intros s; cbn [run app].
  - intros [= ->] H. by rewrite H.
  - destruct (step x s) as [m|]; [|done]. cbn. apply IH.
Qed.

(** Induction on a run from its start, step by step. *)
Lemma run_ind_server (P : list (label conn) → server conn → Prop) s0 :
  P [] s0 → (∀ ls s l s', run ls s0 = Some s → P ls s → step l s = Some s' → P (ls ++ [l]) s') →
  ∀ ls s, run ls s0 = Some s → P ls s.
Proof.
  intros H0 Hs ls. induction ls as [|l ls IH] using rev_ind; intros s H.
  - by injection H as <-.
  - assert (∃ m, run ls s0 = Some m ∧ step l m = Some s) as (m & Hm & Hl).
    { clear -H. revert s0 H. induction ls as [|x ls IH]; intros s0; cbn.
      - destruct (step l s0) as [m|] eqn:E; [|done]. cbn. intros [= ->]. by exists s0.
      - destruct (step x s0) as [m|]; [|done]. cbn. apply IH. }
    eapply Hs; eauto.
Qed.

Lemma run_wf selfTest ls s : run ls (start selfTest) = Some s → wf s.
Proof.
  revert ls s. apply run_ind_server; [apply server_wf_start|]. intros ls s l s' _ Hwf Hs. by eapply server_wf_step.
Qed.

(** ** Refinement *)

(** What [ln.Accept] returned in a run, and what of it [main] is still working on. *)
Definition results (ls : list (label conn)) : list (accept_result conn) :=
  omap (λ l, match l with Accept r => Some r | _ => None end) ls.

Definition in_hand s : list (accept_result conn) :=
  match main s with MError err => [err] | MBackoff => [OtherErr] | _ => [] end.

(** The rounds of the loop that [main] completes, and what it does in them, read off the
    steps of a run.  A round is over with the connection handed on, with the error looked
    at, or with the pause after it.  Its [ctxErr] is whether the context was done at the
    step in which [main] looked, its [interrupted] whether the pause was. *)
Definition round_of l s : list (round conn) :=
  match l, main s with
  | Accept (Conn c), MAccept => [Round (Conn c) false false]
  | Main, MError err =>
      if ctxDone s then [Round err true false]
      else match err with TimeoutErr | Closed => [Round err false false] | _ => [] end
  | Elapsed, MBackoff => [Round OtherErr false false]
  | Interrupted, MBackoff => [Round OtherErr false true]
  | _, _ => []
  end.

Definition act_of l s s' : list (served conn) :=
  match l, main s, main s' with
  | Accept (Conn c), MAccept, _ => [Handled c]
  | Main, MError _, MBackoff => [Slept (acceptBackoff s')]
  | _, _, _ => []
  end.

Fixpoint log (ls : list (label conn)) s : list (round conn) * list (served conn) :=
  match ls with
  | [] => ([], [])
  | l :: ls =>
      match step l s with
      | Some s' => let '(rs, acts) := log ls s' in (round_of l s ++ rs, act_of l s s' ++ acts)
      | None => ([], [])
      end
  end.

Lemma log_snoc ls l s0 s s' :
  run ls s0 = Some s → step l s = Some s' →
  log (ls ++ [l]) s0 = (fst (log ls s0) ++ round_of l s, snd (log ls s0) ++ act_of l s s').
Proof.
  revert s0. induction ls as [|x ls IH]; intros s0 Hr Hs; cbn [run app log] in *.
  - injection Hr as ->. rewrite Hs. by rewrite !app_nil_r.
  - destruct (step x s0) as [m|]; [|done]. cbn in Hr. rewrite (IH m Hr Hs).
    destruct (log ls m) as [rs acts]. cbn. by rewrite !app_assoc.
Qed.

(** What [main] has begun of the round it is in. *)
Definition pausing s : list (served conn) :=
  match main s with MBackoff => [Slept (acceptBackoff s)] | _ => [] end.

Definition follows (ls : list (label conn)) (rs : list (round conn)) (acts : list (served conn)) s : Prop :=
  results ls = (res <$> rs) ++ in_hand s ∧ started s = omap handled acts ∧
  ∃ served, acts = served ++ pausing s ∧
    match main s with
    | MAccept => acceptLoop 0 rs = (served, Some (acceptBackoff s))
    | MError err => (∀ c, err ≠ Conn c) ∧ acceptLoop 0 rs = (served, Some (acceptBackoff s))
    | MBackoff => ∃ b, acceptLoop 0 rs = (served, Some b) ∧ acceptBackoff s = nextBackoff b
    | _ => acceptLoop 0 rs = (served, None)
    end.

Lemma results_snoc ls l :
  results (ls ++ [l]) = results ls ++ match l with Accept r => [r] | _ => [] end.
Proof. unfold results. rewrite omap_app. by destruct l. Qed.

(** A step of another goroutine leaves [main]'s part alone. *)
Lemma follows_other ls rs acts l s s' :
  match l with Accept _ => False | _ => True end →
  main s' = main s → acceptBackoff s' = acceptBackoff s → started s' = started s →
  round_of l s = [] → act_of l s s' = [] →
  follows ls rs acts s → follows (ls ++ [l]) (rs ++ round_of l s) (acts ++ act_of l s s') s'.
Proof.
  intros Hl Hm Hb Hs -> -> (Hr & Hst & Hx). rewrite !app_nil_r. unfold follows, in_hand, pausing.
  rewrite results_snoc, Hm, Hb, Hs. destruct l; try done; by rewrite app_nil_r.
Qed.

(** [main] completes the round it is in. *)
Lemma follows_round ls l s' rs r served b tr acts e :
  results (ls ++ [l]) = (res <$> rs) ++ [res r] → in_hand s' = [] → pausing s' = [] →
  acceptLoop 0 rs = (served, Some b) → acceptLoop b [r] = (tr, e) → acts = served ++ tr →
  started s' = omap handled acts →
  match main s' with MAccept => e = Some (acceptBackoff s') | MError _ | MBackoff => False | _ => e = None end →
  follows (ls ++ [l]) (rs ++ [r]) acts s'.
Proof.
  intros Hr Hi Hp H1 H2 -> Hs Hm. unfold follows.
  rewrite Hi, Hp, app_nil_r, fmap_app. split; [done|]. split; [done|].
  exists (served ++ tr). split; [by rewrite app_nil_r|].
  pose proof (acceptLoop_snoc 0 rs r _ _ _ _ H1 H2) as H. destruct (main s'); subst; done.
Qed.

Lemma follows_accept ls rs acts r s s' :
  follows ls rs acts s → step (Accept r) s = Some s' →
  follows (ls ++ [Accept r]) (rs ++ round_of (Accept r) s) (acts ++ act_of (Accept r) s s') s'.
Proof.
  intros (Hr & Hst & served & Ha & H) Hs. unfold step, exited, round_of, act_of, in_hand, pausing in *.
  destruct (main s) eqn:Hm; try done. destruct (can_return s r); [|done]. injection Hs as <-.
  rewrite app_nil_r in Hr, Ha. subst served.
  destruct r as [c| | |].
  2-4: split; [by rewrite results_snoc, app_nil_r, Hr|]; split; [by rewrite app_nil_r|];
    exists acts; unfold pausing; cbn; rewrite !app_nil_r; by split_and!.
  eapply follows_round; [by rewrite results_snoc, Hr|done|done|exact H|done|done| |done].
  cbn. by rewrite omap_app, Hst.
Qed.

Lemma follows_main ls rs acts s s' :
  follows ls rs acts s → step Main s = Some s' →
  follows (ls ++ [Main]) (rs ++ round_of Main s) (acts ++ act_of Main s s') s'.
Proof.
  intros (Hr & Hst & served & Ha & H) Hs. unfold step, exited, main_step in Hs.
  unfold round_of, act_of, in_hand, pausing in *.
  destruct (main s) as [|err| | | | |] eqn:Hm; try done; cbn in Hs.
  2-4: injection Hs as <-; split; [by rewrite results_snoc, !app_nil_r, Hr, app_nil_r|];
    split; [by rewrite app_nil_r|]; exists served; unfold pausing; cbn; by rewrite Ha, !app_nil_r.
  destruct H as [Hne H]. rewrite app_nil_r in Ha. subst served.
  assert (Hround : ∀ cd, ctxDone s = cd → (cd = true ∨ err ≠ OtherErr) →
    follows (ls ++ [Main]) (rs ++ [Round err cd false]) (acts ++ [])
      (goto (if cd then MCancel else match err with TimeoutErr => MAccept | _ => MCancel end) s)).
  { intros cd Hcd Hor.
    eapply (follows_round _ _ _ rs (Round err cd false) acts (acceptBackoff s) [] _
      (if cd then None else match err with TimeoutErr => Some (acceptBackoff s) | _ => None end));
      [by rewrite results_snoc, app_nil_r, Hr|by destruct cd, err|by destruct cd, err|exact H| |done|by cbn; rewrite app_nil_r|].
    - destruct err; [by destruct (Hne c)|by destruct cd..|]. destruct cd; naive_solver.
    - destruct cd; [done|]. destruct err; naive_solver. }
  destruct (ctxDone s) eqn:Hcd.
  { injection Hs as <-. apply (Hround true); auto. }
  destruct err as [c| | |]; [by destruct (Hne c)|..]; injection Hs as <-.
  - apply (Hround false); auto.
  - apply (Hround false); auto.
  - unfold follows, in_hand, pausing. cbn. rewrite results_snoc, !app_nil_r. split; [done|].
    split; [by rewrite omap_app, app_nil_r|]. exists acts. split; [done|]. by eexists.
Qed.

(** The pause is over, or interrupted. *)
Lemma follows_pause ls rs acts l s s' :
  l = Elapsed ∨ l = Interrupted →
  follows ls rs acts s → step l s = Some s' →
  follows (ls ++ [l]) (rs ++ round_of l s) (acts ++ act_of l s s') s'.
Proof.
  intros Hl (Hr & Hst & served & Ha & H) Hs. unfold step, exited, round_of, act_of, in_hand, pausing in *.
  destruct Hl as [-> | ->]; destruct (main s) eqn:Hm; try done; destruct H as (b & H & Hb).
  - injection Hs as <-. rewrite app_nil_r.
    eapply (follows_round _ _ _ rs (Round OtherErr false false));
      [by rewrite results_snoc, app_nil_r, Hr|done|done|exact H|done|by rewrite Ha, Hb|by cbn; rewrite Hst|by cbn; rewrite Hb].
  - destruct (ctxDone s); [|done]. injection Hs as <-. rewrite app_nil_r.
    eapply (follows_round _ _ _ rs (Round OtherErr false true));
      [by rewrite results_snoc, app_nil_r, Hr|done|done|exact H|done|by rewrite Ha, Hb|by cbn; rewrite Hst|done].
Qed.

Lemma follows_step ls rs acts l s s' :
  follows ls rs acts s → step l s = Some s' →
  follows (ls ++ [l]) (rs ++ round_of l s) (acts ++ act_of l s s') s'.
Proof.
  intros Hf Hs. destruct l;
    try by (eapply follows_other; [done| | | |done|done|exact Hf]; clear Hf; destruct s; cbn in *; step_cases Hs).
  - by apply follows_accept.
  - by apply follows_main.
  - apply follows_pause; auto.
  - apply follows_pause; auto.
Qed.

Lemma run_follows selfTest ls s :
  run ls (start selfTest) = Some s →
  follows ls (fst (log ls (start selfTest))) (snd (log ls (start selfTest))) s.
Proof.
  intros H. apply (run_ind_server (λ ls s, follows ls (fst (log ls (start selfTest))) (snd (log ls (start selfTest))) s)
    (start selfTest)); [| |exact H].
  - split; [done|]. split; [done|]. by exists [].
  - intros ls' m l s' Hrun Hf Hs. rewrite (log_snoc _ _ _ _ _ Hrun Hs). by apply follows_step.
Qed.

(** The connections handed on are those the accept loop was given. *)
Lemma acceptLoop_handled b (rs : list (round conn)) tr b' :
  acceptLoop b rs = (tr, b') → b' ≠ None → omap handled tr = omap accepted rs.
Proof.
  revert b tr. induction rs as [|r rs IH]; intros b tr H Hb'; cbn in H; [by simplify_eq|].
  cbn. unfold accepted at 1. destruct (res r) as [c| | |] eqn:Hr.
  - destruct (acceptLoop 0 rs) as [tr' e] eqn:E. injection H as <- <-. cbn. f_equal. by eapply IH.
  - destruct (ctxErr r); [by simplify_eq|]. by eapply IH.
  - by destruct (ctxErr r); simplify_eq.
  - destruct (ctxErr r); [by simplify_eq|]. destruct (interrupted r); [by simplify_eq|].
    destruct (acceptLoop _ rs) as [tr' e] eqn:E. injection H as <- <-. cbn. by eapply IH.
Qed.

(** Every pause is between 5 ms and 1 s. *)
Definition pause (d : Z) : Prop := (5000000 <= d <= 1000000000)%Z.

Lemma nextBackoff_pause b : b = 0%Z ∨ pause b → pause (nextBackoff b).
Proof. unfold pause, nextBackoff, firstBackoff, maxAcceptBackoff. intros [->|?]; repeat case_decide; lia. Qed.

Lemma acceptLoop_pauses b (rs : list (round conn)) tr e :
  b = 0%Z ∨ pause b → acceptLoop b rs = (tr, e) →
  (∀ d, Slept d ∈ tr → pause d) ∧ (∀ b', e = Some b' → b' = 0%Z ∨ pause b').
Proof.
  revert b tr e. induction rs as [|r rs IH]; intros b tr e Hb H; cbn in H.
  { simplify_eq. split; [by intros d ?%elem_of_nil|naive_solver]. }
  pose proof (nextBackoff_pause b Hb) as Hn.
  assert (Hend : (∀ d, @Slept conn d ∈ [] → pause d) ∧ (∀ b', None = Some b' → b' = 0%Z ∨ pause b'))
    by (split; [by intros d ?%elem_of_nil|done]).
  destruct (res r) as [c| | |].
  - destruct (acceptLoop 0 rs) as [tr' e'] eqn:E. injection H as <- <-.
    destruct (IH 0%Z tr' e' (or_introl eq_refl) E) as [H1 H2]. split; [|done].
    intros d [[=]|Hd]%elem_of_cons. by apply H1.
  - destruct (ctxErr r); [by simplify_eq|]. by eapply IH.
  - by destruct (ctxErr r); simplify_eq.
  - destruct (ctxErr r); [by simplify_eq|]. destruct (interrupted r).
    + simplify_eq. split; [|done]. by intros d [= ->]%list_elem_of_singleton.
    + destruct (acceptLoop _ rs) as [tr' e'] eqn:E. injection H as <- <-.
      destruct (IH _ tr' e' (or_intror Hn) E) as [H1 H2]. split; [|done].
      intros d [[= ->]|Hd]%elem_of_cons; [done|by apply H1].
Qed.

(** ** Shutdown *)

(** A bound on the steps left once the listener is closed. *)
Definition main_rank s : nat :=
  match main s with
  | MBackoff => 6 | MAccept => 5 | MError _ => 4 | MCancel => 3 | MListener => 2 | MClient => 1 | MDone => 0
  end.

Definition sig_rank s : nat :=
  match sig s with SWait => 3 | SCancel => 2 | SClose => 1 | SDone => 0 end.

Definition test_rank s : nat :=
  match test s with TRun n => 2 * (4 - n) + 1 | TSleep n => 2 * (4 - n) | TReport => 1 | TDone => 0 end.

Definition μ s : nat :=
  main_rank s + 2 * sig_rank s + (if sigCh s then 0 else 1) + test_rank s + length (handlers s).

Lemma closed_step l s s' :
  wf s → lnClosed s = true → step l s = Some s' →
  lnClosed s' = true ∧ started s' = started s ∧ μ s' < μ s.
Proof.
  intros Hwf Hc Hs. pose proof (wf_listener _ Hwf Hc) as Hd.
  pose proof (wf_test _ Hwf) as Ht.
  clear Hwf. unfold μ, main_rank, sig_rank, test_rank.
  destruct s as [sc cd lc cc ab hs st m sg te]; cbn in *; subst.
  destruct l; step_cases Hs; (split; [reflexivity|split; [reflexivity|]]);
    rewrite ?length_delete by (by apply lookup_lt_is_Some);
    try destruct ok; try destruct (decide (n < 3)); cbn in *; lia.
Qed.

Lemma closed_run ls s s' :
  wf s → lnClosed s = true → run ls s = Some s' → started s' = started s ∧ length ls + μ s' <= μ s.
Proof.
  revert s. induction ls as [|l ls IH]; intros s Hwf Hc H; cbn in H; [simplify_eq; cbn; split; [done|lia]|].
  destruct (step l s) as [m|] eqn:Hs; [|done]. cbn in H.
  destruct (closed_step _ _ _ Hwf Hc Hs) as (Hc' & Hst & Hμ).
  destruct (IH m (server_wf_step _ _ _ Hwf Hs) Hc' H) as [Hst' Hμ']. cbn. split; [congruence|lia].
Qed.

Lemma μ_bound s : wf s → μ s <= 20 + length (handlers s).
Proof.
  intros Hwf. pose proof (wf_test _ Hwf) as Ht. unfold μ, main_rank, sig_rank, test_rank.
  destruct (test s), (main s), (sig s), (sigCh s); lia.
Qed.

(** A signal is never lost. *)
Lemma run_signalled selfTest ls s :
  run ls (start selfTest) = Some s → Signal ∈ ls ↔ sigCh s = true ∨ sig s ≠ SWait.
Proof.
  revert ls s. apply run_ind_server; [cbn; set_solver|]. intros ls s l s' _ IH Hs.
  assert (Hl : Signal ∈ ls ++ [l] ↔ Signal ∈ ls ∨ l = Signal) by set_solver.
  rewrite Hl, IH. clear Hl IH. destruct s as [sc cd lc cc ab hs st m sg te].
  destruct l; step_cases Hs; naive_solver.
Qed.

Lemma run_started selfTest ls s :
  run ls (start selfTest) = Some s →
  started s = omap (λ r, match r with Conn c => Some c | _ => None end) (results ls) ∧
  handlers s ⊆+ started s.
Proof.
  revert ls s. apply run_ind_server; [done|]. intros ls s l s' _ [IH Hsub] Hs.
  rewrite results_snoc, omap_app, <- IH. clear IH.
  destruct s as [sc cd lc cc ab hs st m sg te]. cbn in Hsub.
  destruct l; step_cases Hs; rewrite ?app_nil_r; (split; [done|]); try done.
  - by apply submseteq_skips_r.
  - etrans; [|exact Hsub]. apply sublist_submseteq, sublist_delete.
Qed.

(** Where [main] can be kept: with a signal on its way, the signal goroutine goes on up
    to the end, and then [main] does. *)
Lemma signalled_progress s :
  wf s → sigCh s = true ∨ sig s ≠ SWait → exited s = false →
  ∃ l, l ∈ [Sig; Main; Interrupted; Accept Closed] ∧ is_Some (step l s).
Proof.
  intros Hwf Hsig He. destruct (decide (sig s = SDone)) as [Hd|Hd].
  - assert (Hc := wf_sigdone _ Hwf Hd). assert (Hx := wf_listener _ Hwf Hc).
    unfold step, main_step, can_return. rewrite He.
    destruct (main s) as [|err| | | | |] eqn:Hm.
    + exists (Accept Closed). rewrite Hc. split; [set_solver|done].
    + exists Main. rewrite Hx. split; [set_solver|done].
    + exists Interrupted. rewrite Hx. split; [set_solver|done].
    + exists Main. split; [set_solver|done].
    + exists Main. split; [set_solver|done].
    + exists Main. split; [set_solver|done].
    + unfold exited in He. by rewrite Hm in He.
  - exists Sig. split; [set_solver|]. unfold step, sig_step. rewrite He.
    destruct (sig s); try done. destruct Hsig as [->|?]; done.
Qed.

(** ** The properties *)

(** C27: The serving command refines the accept loop, in every interleaving of [main], the
    signal goroutine, the self-test and the handlers.  The rounds [main] has completed --
    with, for each error, whether the context was done when [main] looked and whether the
    pause was interrupted -- are rounds on which [acceptLoop] does exactly what [main]
    did, up to the pause it may be in: connections handed on and pauses, in order.  The
    loop has ended exactly if [main] is past it, with the back-off [main] holds
    otherwise, and every pause is between 5 ms and 1 s.  The rounds, and what [main] has
    in hand, are all that [ln.Accept] has returned; every connection accepted was handed
    to one handler, in order, and the handlers running are among those. *)
Theorem server_refines_accept_loop selfTest ls s :
  run ls (start selfTest) = Some s →
  (let '(rs, acts) := log ls (start selfTest) in
   ∃ served e, acceptLoop 0 rs = (served, e) ∧ acts = served ++ pausing s ∧
     (e = None ↔ left s = true) ∧
     (main s = MAccept → e = Some (acceptBackoff s)) ∧
     (main s = MBackoff → nextBackoff <$> e = Some (acceptBackoff s)) ∧
     (∀ d, Slept d ∈ acts → pause d) ∧
     results ls = (res <$> rs) ++ in_hand s ∧ started s = omap handled acts) ∧
  started s = omap (λ r, match r with Conn c => Some c | _ => None end) (results ls) ∧
  handlers s ⊆+ started s.
Proof.
  intros H. split; [|by eapply run_started].
  pose proof (run_follows _ _ _ H) as Hf. destruct (log ls (start selfTest)) as [rs acts]. cbn [fst snd] in Hf.
  destruct Hf as (Hr & Hst & served & Ha & Hm).
  assert (Hp : ∀ e, acceptLoop 0 rs = (served, e) →
    (∀ d, Slept d ∈ served → pause d) ∧ (∀ b', e = Some b' → b' = 0%Z ∨ pause b')).
  { intros e. apply acceptLoop_pauses. by left. }
  exists served. unfold left, pausing in *. destruct (main s) as [|err| | | | |].
  3:{ destruct Hm as (b & Hm & Hb). exists (Some b). destruct (Hp _ Hm) as [Hd Hr0].
      split_and!; try done; [by cbn; rewrite Hb|]. intros d. rewrite Ha, elem_of_app, list_elem_of_singleton.
      intros [Hin|[= ->]]; [by apply Hd|]. rewrite Hb. by apply nextBackoff_pause, Hr0. }
  2: destruct Hm as [_ Hm].
  all: rewrite app_nil_r in Ha; subst served; eexists;
    destruct (Hp _ Hm) as [Hd _]; rewrite app_nil_r; split_and!; done.
Qed.

(** C18: The command ends on a signal, and then always.  [main] leaves its loop only after a
    signal, a closed listener included -- the context is cancelled before the listener
    is closed --, and returns with the context cancelled, the listener closed and the
    tunnel client closed, once.  A signal is not lost, wherever the goroutines are: until
    [main] has returned, the signal goroutine or [main] can go on without any help from
    the network.  Once the listener is closed no connection is handed on, and at most
    twenty steps are left, and one for each handler. *)
Theorem server_shuts_down selfTest ls s :
  run ls (start selfTest) = Some s →
  (left s = true → Signal ∈ ls ∧ ctxDone s = true) ∧
  (main s = MError Closed → ctxDone s = true) ∧
  (main s = MDone → lnClosed s = true) ∧
  clientClosed s = (if exited s then 1 else 0) ∧
  (Signal ∈ ls → exited s = false →
     ∃ l, l ∈ [Sig; Main; Interrupted; Accept Closed] ∧ is_Some (step l s)) ∧
  (lnClosed s = true → ∀ ls' s', run ls' s = Some s' →
     started s' = started s ∧ length ls' <= 20 + length (handlers s)).
Proof.
  intros H. pose proof (run_wf _ _ _ H) as Hwf. pose proof (run_signalled _ _ _ H) as Hsig.
  split_and!.
  - intros Hl%(wf_left _ Hwf). split; [|done]. apply Hsig. right.
    destruct (wf_signalled _ Hwf Hl) as [-> | ->]; done.
  - by apply wf_closed.
  - intros Hm. apply (wf_listener_left _ Hwf). by right.
  - rewrite (wf_client _ Hwf). unfold exited. by destruct (main s).
  - intros Hin. apply signalled_progress; [done|]. by apply Hsig.
  - intros Hc ls' s' H'. destruct (closed_run _ _ _ Hwf Hc H') as [? ?].
    pose proof (μ_bound _ Hwf). split; [done|lia].
Qed.

End facts.

(** A signal during a back-off, a connection accepted before it and one after it. *)
Definition sample_run : list (label nat) :=
  [Accept (Conn 7); Accept OtherErr; Main; Signal; Elapsed; Sig; Accept (Conn 8); Sig; Sig;
   Accept Closed; Main; Main; Main].

Lemma server_refines_accept_loop_witness :
  let s := default (start false) (run sample_run (start false)) in
  started s = [7; 8] ∧ left s = true ∧
  log sample_run (start false) =
    ([Round (Conn 7) false false; Round OtherErr false false; Round (Conn 8) false false; Round Closed true false],
     [Handled 7; Slept 5000000; Handled 8]) ∧
  acceptLoop 0 (fst (log sample_run (start false))) = (snd (log sample_run (start false)), None).
Proof.
  intros s. split; [by vm_compute|]. split; [by vm_compute|]. split; [by vm_compute|].
  assert (H : run sample_run (start false) = Some s) by by vm_compute.
  destruct (server_refines_accept_loop false sample_run s H) as [Hl _].
  destruct (log sample_run (start false)) as [rs acts]. cbn [fst snd].
  destruct Hl as (served & e & Hl & Ha & He & _).
  assert (e = None) as -> by (apply He; by vm_compute).
  rewrite Ha. replace (pausing s) with (@nil (Main.served nat)) by by vm_compute.
  by rewrite app_nil_r.
Defined.

Lemma server_shuts_down_witness :
  let s := default (start false) (run sample_run (start false)) in
  clientClosed s = 0 ∧ Signal ∈ sample_run ∧ ctxDone s = true ∧
  ∃ l, l ∈ [Sig; Main; Interrupted; Accept Closed] ∧ is_Some (step l s).
Proof.
  intros s. assert (H : run sample_run (start false) = Some s) by by vm_compute.
  destruct (server_shuts_down false sample_run s H) as (Hl & _ & _ & Hc & Hp & _).
  assert (Hleft : left s = true) by by vm_compute.
  destruct (Hl Hleft) as [Hin Hd]. split; [by vm_compute|]. split; [exact Hin|]. split; [exact Hd|].
  apply Hp; [exact Hin|by vm_compute].
Defined.
