(* ===== verification/GoText.v ===== *)
(** * The Go standard library the program reads keys and files with

    [strings.TrimSpace] and [strings.Trim], and [base64.StdEncoding], with the round
    trip of the latter. *)

From Stdlib Require Import Init.Byte.
From S2P Require Import Prelude.

(** ** strings.Trim and strings.TrimSpace

    Both strip code points from the two ends.  The code points are valid UTF-8, so
    one is at the front of a string if its encoding is a prefix, and at the back if
    it is a suffix. *)

(** [drop_prefix p s]: [s] without the prefix [p]. *)
Fixpoint drop_prefix (p s : gostring) : option gostring :=
  match p, s with
  | [], _ => Some s
  | x :: p', y :: s' => if decide (x = y) then drop_prefix p' s' else None
  | _ :: _, [] => None
  end.

Fixpoint drop_any (cutset : list gostring) (s : gostring) : option gostring :=
  match cutset with
  | [] => None
  | p :: rest => match drop_prefix p s with Some s' => Some s' | None => drop_any rest s end
  end.

(** No code point is empty, so every turn shortens the string. *)
Fixpoint trim_front (fuel : nat) (cutset : list gostring) (s : gostring) : gostring :=
  match fuel with
  | O => s
  | S fuel => match drop_any cutset s with Some s' => trim_front fuel cutset s' | None => s end
  end.

Definition trim (cutset : list gostring) (s : gostring) : gostring :=
  let s := trim_front (length s) cutset s in
  rev (trim_front (length s) (map (@rev byte) cutset) (rev s)).

(** [strings.Trim(s, cutset)] for a cut set of ASCII characters. *)
Definition Trim (s cutset : gostring) : gostring := trim (map (λ c, [c]) cutset) s.

(** [unicode.IsSpace], in UTF-8. *)
Definition spaces : list gostring :=
  map (λ c, [c]) [x09; x0a; x0b; x0c; x0d; x20] ++
  [[xc2; x85]; [xc2; xa0]; [xe1; x9a; x80]] ++
  map (λ c, [xe2; x80; c]) [x80; x81; x82; x83; x84; x85; x86; x87; x88; x89; x8a; xa8; xa9; xaf] ++
  [[xe2; x81; x9f]; [xe3; x80; x80]].

Definition TrimSpace (s : gostring) : gostring := trim spaces s.

Lemma trim_front_keep fuel cutset s : drop_any cutset s = None → trim_front fuel cutset s = s.
Proof. intros H. destruct fuel; cbn; [done|]. by rewrite H. Qed.

Lemma drop_any_None cutset s :
  (∀ p, p ∈ cutset → drop_prefix p s = None) → drop_any cutset s = None.
Proof.
  induction cutset as [|p rest IH]; intros H; [done|]. cbn.
  rewrite H by (by left). apply IH. intros q Hq. apply H. by right.
Qed.

(** Nothing is stripped from a string neither of whose ends begins a code point of
    the set. *)
Lemma trim_keep cutset s :
  (∀ p, p ∈ cutset → drop_prefix p s = None) →
  (∀ p, p ∈ cutset → drop_prefix (rev p) (rev s) = None) →
  trim cutset s = s.
Proof.
  intros Hf Hb. unfold trim. rewrite (trim_front_keep _ cutset s) by by apply drop_any_None.
  rewrite trim_front_keep; [apply rev_involutive|]. apply drop_any_None.
  intros p Hp. apply list_elem_of_fmap in Hp as (q & -> & Hq). by apply Hb.
Qed.

(** A printable ASCII character other than the space. *)
Definition graphic (c : byte) : Prop := (33 <= b2z c < 127)%Z.

#[export] Instance graphic_dec c : Decision (graphic c).
Proof. unfold graphic. apply _. Defined.

Definition plain_end (o : option byte) : bool :=
  match o with Some c => bool_decide (graphic c) | None => true end.

Lemma spaces_ends p :
  p ∈ spaces → p ≠ [] ∧ plain_end (head p) = false ∧ plain_end (head (rev p)) = false.
Proof.
  assert (H : forallb (λ p, negb (bool_decide (p = [])) && negb (plain_end (head p))
                            && negb (plain_end (head (rev p)))) spaces = true) by by vm_compute.
  rewrite forallb_forall in H. intros Hp%list_elem_of_In. specialize (H p Hp).
  rewrite !andb_true_iff, !negb_true_iff, bool_decide_eq_false in H. tauto.
Qed.

Lemma drop_prefix_plain p x s :
  p ≠ [] → plain_end (head p) = false → graphic x → drop_prefix p (x :: s) = None.
Proof.
  destruct p as [|y p]; [done|]. cbn. intros _ Hy%bool_decide_eq_false Hx.
  rewrite decide_False; [done|]. by intros ->.
Qed.

Lemma TrimSpace_graphic s : Forall graphic s → TrimSpace s = s.
Proof.
  intros Hs. destruct s as [|x s]; [done|]. apply trim_keep; intros p Hp;
    destruct (spaces_ends p Hp) as (Hne & Hh & Hl).
  - apply drop_prefix_plain; [done..|]. by inversion Hs.
  - assert (Hrev : Forall graphic (rev (x :: s))) by by apply Forall_rev.
    destruct (rev (x :: s)) as [|y t] eqn:Hr.
    { apply (f_equal length) in Hr. by rewrite length_rev in Hr. }
    apply drop_prefix_plain; [|done|by inversion Hrev].
    intros Hn. apply Hne. by rewrite <- (rev_involutive p), Hn.
Qed.

(** ** base64.StdEncoding *)

Definition alphabet : gostring :=
  str "ABCDEFGHIJKLMNOPQRSTUVWXYZabcdefghijklmnopqrstuvwxyz0123456789+/".

Definition pad : byte := x3d.

Definition b64char (v : Z) : byte := nth (Z.to_nat (v mod 64)) alphabet x00.

Fixpoint index_of (c : byte) (s : gostring) (i : Z) : option Z :=
  match s with
  | [] => None
  | x :: s' => if decide (x = c) then Some i else index_of c s' (i + 1)
  end.

(** The decode map. *)
Definition b64val (c : byte) : option Z := index_of c alphabet 0.

Definition enc3 (a b c : byte) : gostring :=
  let v := (b2z a * 65536 + b2z b * 256 + b2z c)%Z in
  [b64char (v / 262144); b64char (v / 4096); b64char (v / 64); b64char v].

Fixpoint EncodeToString (l : list byte) : gostring :=
  match l with
  | [] => []
  | [a] => take 2 (enc3 a x00 x00) ++ [pad; pad]
  | [a; b] => take 3 (enc3 a b x00) ++ [pad]
  | a :: b :: c :: rest => enc3 a b c ++ EncodeToString rest
  end.

Definition dec3 (v : Z) : list byte := [z2b (v / 65536); z2b (v / 256); z2b v].

(** The quanta; padding ends the input, and bits left over are ignored. *)
Fixpoint decode_quanta (s : gostring) : option (list byte) :=
  match s with
  | [] => Some []
  | a :: b :: c :: d :: rest =>
      x ← b64val a;
      y ← b64val b;
      match b64val c with
      | Some z =>
          match b64val d with
          | Some w =>
              bs ← decode_quanta rest;
              Some (dec3 (x * 262144 + y * 4096 + z * 64 + w) ++ bs)
          | None =>
              if decide (d = pad ∧ rest = []) then
                Some (take 2 (dec3 (x * 262144 + y * 4096 + z * 64)))
              else None
          end
      | None =>
          if decide (c = pad ∧ d = pad ∧ rest = []) then
            Some (take 1 (dec3 (x * 262144 + y * 4096)))
          else None
      end
  | _ => None
  end.

(** [DecodeString]: line breaks are skipped wherever they are. *)
Definition is_newline (c : byte) : bool := bool_decide (c = x0a ∨ c = x0d).

Definition DecodeString (s : gostring) : option (list byte) :=
  decode_quanta (filter (λ c, is_newline c = false) s).

#[global] Arguments b64char : simpl never.
#[global] Arguments b64val : simpl never.

(** *** Round trip *)

Lemma b64val_char v : (0 <= v < 64)%Z → b64val (b64char v) = Some v.
Proof.
  intros Hv.
  assert (H : forallb (λ n, bool_decide (b64val (b64char (Z.of_nat n)) = Some (Z.of_nat n))) (seq 0 64) = true)
    by by vm_compute.
  rewrite forallb_forall in H. specialize (H (Z.to_nat v)). rewrite in_seq in H.
  specialize (H ltac:(lia)). apply bool_decide_eq_true in H. by rewrite Z2Nat.id in H by lia.
Qed.

Lemma b64char_mod v : b64char v = b64char (v mod 64).
Proof. unfold b64char. by rewrite Z.mod_mod. Qed.

Lemma b64val_char_mod v : b64val (b64char v) = Some (v mod 64)%Z.
Proof. rewrite b64char_mod. apply b64val_char. apply Z.mod_pos_bound. lia. Qed.

Lemma b64char_graphic v : graphic (b64char v) ∧ b64char v ≠ pad ∧ is_newline (b64char v) = false.
Proof.
  rewrite b64char_mod. pose proof (Z.mod_pos_bound v 64 ltac:(lia)) as Hv.
  assert (H : forallb (λ n, let c := b64char (Z.of_nat n) in
     (bool_decide (33 <= b2z c)%Z && bool_decide (b2z c < 127)%Z) && negb (bool_decide (c = pad))
     && negb (is_newline c)) (seq 0 64) = true) by by vm_compute.
  rewrite forallb_forall in H. specialize (H (Z.to_nat (v mod 64))). rewrite in_seq in H.
  specialize (H ltac:(lia)). cbn zeta in H. rewrite Z2Nat.id in H by lia.
  rewrite !andb_true_iff, !negb_true_iff, bool_decide_eq_false, !bool_decide_eq_true in H.
  unfold graphic. tauto.
Qed.

Lemma z2b_eq z b : (z mod 256 = b2z b)%Z → z2b z = b.
Proof.
  intros H. rewrite <- (z2b_b2z b), <- H. unfold z2b. by rewrite Z.mod_mod.
Qed.

Lemma dec3_bytes a b c v :
  (v = b2z a * 65536 + b2z b * 256 + b2z c)%Z → dec3 v = [a; b; c].
Proof.
  intros ->. pose proof (b2z_range a). pose proof (b2z_range b). pose proof (b2z_range c).
  unfold dec3. rewrite (z2b_eq _ a), (z2b_eq _ b), (z2b_eq _ c); [done|..];
    Z.to_euclidean_division_equations; lia.
Qed.

Lemma b64val_pad : b64val pad = None.
Proof. by vm_compute. Qed.

Lemma decode_EncodeToString l : decode_quanta (EncodeToString l) = Some l.
Proof.
  induction l as [l IH] using (induction_ltof1 _ (@length byte)). unfold ltof in IH.
  destruct l as [|a [|b [|c l]]]; [done|..]; cbn [EncodeToString enc3 take app decode_quanta];
    rewrite ?b64val_char_mod, ?b64val_pad; cbn [mbind option_bind].
  - rewrite decide_True by done. erewrite (dec3_bytes a x00 x00); [done|].
    pose proof (b2z_range a). change (b2z x00) with 0%Z. Z.to_euclidean_division_equations; lia.
  - rewrite decide_True by done. erewrite (dec3_bytes a b x00); [done|].
    pose proof (b2z_range a). pose proof (b2z_range b). change (b2z x00) with 0%Z.
    Z.to_euclidean_division_equations; lia.
  - rewrite IH by (cbn; lia). cbn [mbind option_bind]. erewrite (dec3_bytes a b c); [done|].
    pose proof (b2z_range a). pose proof (b2z_range b). pose proof (b2z_range c).
    Z.to_euclidean_division_equations; lia.
Qed.

(** Encoded text is graphic, and has no line breaks. *)
Lemma EncodeToString_chars l :
  Forall (λ c, graphic c ∧ is_newline c = false) (EncodeToString l).
Proof.
  assert (Hc : ∀ v, graphic (b64char v) ∧ is_newline (b64char v) = false)
    by (intros v; destruct (b64char_graphic v); tauto).
  assert (Hp : graphic pad ∧ is_newline pad = false) by (split; by vm_compute).
  induction l as [l IH] using (induction_ltof1 _ (@length byte)). unfold ltof in IH.
  destruct l as [|a [|b [|c l]]]; cbn; repeat (constructor; [done|]); [constructor..|].
  apply IH. cbn. lia.
Qed.

Lemma filter_all {A} (P : A → Prop) `{∀ x, Decision (P x)} l : Forall P l → filter P l = l.
Proof. induction 1 as [|x l Hx _ IH]; [done|]. by rewrite filter_cons_True, IH. Qed.

Lemma DecodeString_EncodeToString l : DecodeString (EncodeToString l) = Some l.
Proof.
  unfold DecodeString. rewrite filter_all; [apply decode_EncodeToString|].
  eapply Forall_impl; [apply EncodeToString_chars|]. by intros c [_ ?].
Qed.

Lemma TrimSpace_EncodeToString l : TrimSpace (EncodeToString l) = EncodeToString l.
Proof.
  apply TrimSpace_graphic. eapply Forall_impl; [apply EncodeToString_chars|]. by intros c [? _].
Qed.
