(* ===== verification/Json.v ===== *)
(** * JSON text, as encoding/json writes and reads it

    The values, [MarshalIndent] with an indent of two spaces and no prefix, and the
    scanner and [unquote] behind [Unmarshal].  Strings are bytes: the encoder and the
    decoder replace what is not valid UTF-8 by U+FFFD.  Decoding into a Go type is left
    to the component that has the type. *)

From Stdlib Require Import Init.Byte.
From S2P Require Import Prelude GoNet.

Notation dquote := x22.
Notation bslash := x5c.
Notation lbrace := x7b.
Notation rbrace := x7d.
Notation comma := x2c.
Notation newline := x0a.
Notation minus := x2d.

(** ** Values *)

Unset Elimination Schemes.
Inductive json :=
  | JNull
  | JBool (b : bool)
  | JNum (lit : gostring)
  | JStr (s : gostring)
  | JArr (l : list json)
  | JObj (m : list (gostring * json)).
Set Elimination Schemes.

(** Induction with the hypothesis for every element and member. *)
Section json_ind.
  Context (P : json → Prop).
  Context (Hnull : P JNull) (Hbool : ∀ b, P (JBool b)) (Hnum : ∀ lit, P (JNum lit))
          (Hstr : ∀ s, P (JStr s))
          (Harr : ∀ l, Forall P l → P (JArr l))
          (Hobj : ∀ m, Forall (λ km, P (snd km)) m → P (JObj m)).

Fixpoint json_ind (j : json) : P j :=
  match j with
  | JNull => Hnull
  | JBool b => Hbool b
  | JNum lit => Hnum lit
  | JStr s => Hstr s
  | JArr l =>
      Harr l ((fix all (l : list json) : Forall P l :=
        match l with [] => Forall_nil_2 _ | j :: l => Forall_cons_2 _ _ _ (json_ind j) (all l) end) l)
  | JObj m =>
      Hobj m ((fix all (m : list (gostring * json)) : Forall (λ km, P (snd km)) m :=
        match m with
        | [] => Forall_nil_2 _
        | km :: m => Forall_cons_2 _ _ _ (json_ind (snd km)) (all m)
        end) m)
  end.
End json_ind.

(** ** UTF-8 *)

Definition between (lo hi : Z) (c : byte) : bool := bool_decide (lo <= b2z c <= hi)%Z.

Definition cont (c : byte) : bool := between 128 191 c.

(** [utf8.DecodeRune]: the encoding at the front and what follows; [None] if there is
    no valid one. *)
Definition utf8_rune (s : gostring) : option (list byte * gostring) :=
  match s with
  | [] => None
  | a :: s1 =>
      if between 0 127 a then Some ([a], s1)
      else
        match s1 with
        | [] => None
        | b :: s2 =>
            if between 194 223 a then if cont b then Some ([a; b], s2) else None
            else
              match s2 with
              | [] => None
              | c :: s3 =>
                  if between 224 239 a then
                    if between (if decide (a = xe0) then 160 else 128)
                               (if decide (a = xed) then 159 else 191) b && cont c
                    then Some ([a; b; c], s3) else None
                  else
                    match s3 with
                    | [] => None
                    | d :: s4 =>
                        if between 240 244 a &&
                           between (if decide (a = xf0) then 144 else 128)
                                   (if decide (a = xf4) then 143 else 191) b && cont c && cont d
                        then Some ([a; b; c; d], s4) else None
                    end
              end
        end
  end.

(** [utf8.AppendRune] of a code point that is not a surrogate. *)
Definition encode_rune (r : Z) : list byte :=
  if decide (r < 128)%Z then [z2b r]
  else if decide (r < 2048)%Z then [z2b (192 + r / 64); z2b (128 + r mod 64)]
  else if decide (r < 65536)%Z then
    [z2b (224 + r / 4096); z2b (128 + r / 64 mod 64); z2b (128 + r mod 64)]
  else [z2b (240 + r / 262144); z2b (128 + r / 4096 mod 64); z2b (128 + r / 64 mod 64);
        z2b (128 + r mod 64)].

(** U+FFFD *)
Definition replacement : list byte := [xef; xbf; xbd].

(** ** Encoding *)

(** An ASCII character inside a string, with HTML escaping. *)
Definition escape (c : byte) : gostring :=
  match c with
  | dquote | bslash => [bslash; c]
  | x08 => [bslash; x62]
  | x0c => [bslash; x66]
  | x0a => [bslash; x6e]
  | x0d => [bslash; x72]
  | x09 => [bslash; x74]
  | _ =>
      if between 0 31 c || bool_decide (c ∈ str "<>&") then
        str "\u00" ++ [hexdigit (Z.shiftr (b2z c) 4); hexdigit (Z.land (b2z c) 15)]
      else [c]
  end.

(** [appendString] between the quotes; a code point is at least one byte. *)
Fixpoint escape_string (fuel : nat) (s : gostring) : gostring :=
  match fuel with
  | O => []
  | S fuel =>
      match s with
      | [] => []
      | c :: rest =>
          match utf8_rune s with
          | None => str "\ufffd" ++ escape_string fuel rest
          | Some (r, rest) =>
              (match r with
               | [a] => escape a
               | [xe2; x80; xa8] => str "\u2028"
               | [xe2; x80; xa9] => str "\u2029"
               | _ => r
               end) ++ escape_string fuel rest
          end
      end
  end.

Definition quote (s : gostring) : gostring :=
  dquote :: escape_string (length s) s ++ [dquote].

(** A line break and the indentation of depth [d]. *)
Definition nl (d : nat) : gostring := newline :: replicate (2 * d) x20.

(** The elements of an array or object at depth [d], one a line. *)
Fixpoint lines (d : nat) (l : list gostring) : gostring :=
  match l with
  | [] => []
  | [x] => nl d ++ x
  | x :: l => nl d ++ x ++ [comma] ++ lines d l
  end.

Definition member (k v : gostring) : gostring := quote k ++ [colon; x20] ++ v.

Fixpoint render (d : nat) (j : json) : gostring :=
  match j with
  | JNull => str "null"
  | JBool b => if b then str "true" else str "false"
  | JNum lit => lit
  | JStr s => quote s
  | JArr [] => str "[]"
  | JArr l => [lbrack] ++ lines (S d) (map (render (S d)) l) ++ nl d ++ [rbrack]
  | JObj [] => str "{}"
  | JObj m =>
      [lbrace] ++ lines (S d) (map (λ km, member (fst km) (render (S d) (snd km))) m) ++
      nl d ++ [rbrace]
  end.

(** [json.MarshalIndent(v, "", "  ")] *)
Definition MarshalIndent (j : json) : gostring := render 0 j.

(** [json.Marshal(v)]: without line breaks and spaces. *)
Fixpoint separated (l : list gostring) : gostring :=
  match l with
  | [] => []
  | [x] => x
  | x :: l => x ++ [comma] ++ separated l
  end.

Fixpoint Marshal (j : json) : gostring :=
  match j with
  | JNull => str "null"
  | JBool b => if b then str "true" else str "false"
  | JNum lit => lit
  | JStr s => quote s
  | JArr l => [lbrack] ++ separated (map Marshal l) ++ [rbrack]
  | JObj m => [lbrace] ++ separated (map (λ km, quote (fst km) ++ [colon] ++ Marshal (snd km)) m) ++ [rbrace]
  end.

(** ** Scanning and unquoting *)

Definition is_ws (c : byte) : bool := bool_decide (c ∈ [x20; x09; x0d; x0a]).

Fixpoint skip_ws (s : gostring) : gostring :=
  match s with c :: s' => if is_ws c then skip_ws s' else s | [] => [] end.

(** [getu4] of the four characters after a backslash and a u. *)
Definition hex4 (a b c d : byte) : option Z :=
  w ← hexval a; x ← hexval b; y ← hexval c; z ← hexval d;
  Some (w * 4096 + x * 256 + y * 16 + z)%Z.

Definition surrogate (r : Z) : bool := bool_decide (55296 <= r < 57344)%Z.

(** [utf16.DecodeRune] *)
Definition surrogate_pair (r1 r2 : Z) : option Z :=
  if decide (55296 <= r1 < 56320 ∧ 56320 <= r2 < 57344)%Z
  then Some ((r1 - 55296) * 1024 + (r2 - 56320) + 65536)%Z else None.

Definition second_escape (s : gostring) : option (Z * gostring) :=
  match s with
  | bslash :: x75 :: a :: b :: c :: d :: rest => r ← hex4 a b c d; Some (r, rest)
  | _ => None
  end.

(** After the opening quote: the value, and what follows the closing quote. *)
Fixpoint parse_string (fuel : nat) (s : gostring) : option (gostring * gostring) :=
  match fuel with
  | O => None
  | S fuel =>
      let emit (bs : list byte) (rest : gostring) :=
        '(v, r) ← parse_string fuel rest; Some (bs ++ v, r) in
      match s with
      | [] => None
      | dquote :: rest => Some ([], rest)
      | bslash :: s =>
          match s with
          | dquote :: rest => emit [dquote] rest
          | bslash :: rest => emit [bslash] rest
          | x2f :: rest => emit [x2f] rest
          | x62 :: rest => emit [x08] rest
          | x66 :: rest => emit [x0c] rest
          | x6e :: rest => emit [x0a] rest
          | x72 :: rest => emit [x0d] rest
          | x74 :: rest => emit [x09] rest
          | x75 :: a :: b :: c :: d :: rest =>
              r ← hex4 a b c d;
              if surrogate r then
                match second_escape rest with
                | Some (r2, rest2) =>
                    match surrogate_pair r r2 with
                    | Some p => emit (encode_rune p) rest2
                    | None => emit replacement rest
                    end
                | None => emit replacement rest
                end
              else emit (encode_rune r) rest
          | _ => None
          end
      | c :: rest =>
          if between 0 31 c then None
          else
            match utf8_rune s with
            | Some (r, rest) => emit r rest
            | None => emit replacement rest
            end
      end
  end.

Fixpoint take_digits (s : gostring) : gostring * gostring :=
  match s with
  | c :: s' =>
      if is_digit c then let '(ds, r) := take_digits s' in (c :: ds, r) else ([], s)
  | [] => ([], [])
  end.

(** A number literal, and what follows it. *)
Definition parse_number (s : gostring) : option (gostring * gostring) :=
  let '(sign, s) := match s with minus :: s' => ([minus], s') | _ => ([], s) end in
  '(int, s) ←
    match s with
    | x30 :: s' => Some ([x30], s')
    | _ => let '(ds, r) := take_digits s in match ds with [] => None | _ => Some (ds, r) end
    end;
  '(frac, s) ←
    match s with
    | dot :: s' =>
        let '(ds, r) := take_digits s' in
        match ds with [] => None | _ => Some (dot :: ds, r) end
    | _ => Some ([], s)
    end;
  '(exp, s) ←
    match s with
    | e :: s' =>
        if bool_decide (e ∈ str "eE") then
          let '(sg, s'') := match s' with
                            | x2b :: t => ([x2b], t) | minus :: t => ([minus], t) | _ => ([], s')
                            end in
          let '(ds, r) := take_digits s'' in
          match ds with [] => None | _ => Some (e :: sg ++ ds, r) end
        else Some ([], s)
    | [] => Some ([], s)
    end;
  Some (sign ++ int ++ frac ++ exp, s).

Definition literal (lit : gostring) (j : json) (s : gostring) : option (json * gostring) :=
  if decide (take (length lit) s = lit) then Some (j, drop (length lit) s) else None.

(** A value at the front, and what follows it.  [depth]: nesting levels left.  Both
    the calls for elements and members and the calls for values go down in [fuel]: two
    units a character are enough. *)
Fixpoint parse_value (fuel depth : nat) (s : gostring) : option (json * gostring) :=
  match fuel with
  | O => None
  | S fuel =>
      match skip_ws s with
      | [] => None
      | lbrace :: s =>
          match depth with
          | O => None
          | S depth =>
              match skip_ws s with
              | rbrace :: rest => Some (JObj [], rest)
              | s => '(m, rest) ← parse_members fuel depth s; Some (JObj m, rest)
              end
          end
      | lbrack :: s =>
          match depth with
          | O => None
          | S depth =>
              match skip_ws s with
              | rbrack :: rest => Some (JArr [], rest)
              | s => '(l, rest) ← parse_elems fuel depth s; Some (JArr l, rest)
              end
          end
      | dquote :: s => '(v, rest) ← parse_string (S (length s)) s; Some (JStr v, rest)
      | (x6e :: _) as s => literal (str "null") JNull s
      | (x74 :: _) as s => literal (str "true") (JBool true) s
      | (x66 :: _) as s => literal (str "false") (JBool false) s
      | s => '(lit, rest) ← parse_number s; Some (JNum lit, rest)
      end
  end
with parse_elems (fuel depth : nat) (s : gostring) : option (list json * gostring) :=
  match fuel with
  | O => None
  | S fuel =>
      '(j, s) ← parse_value fuel depth s;
      match skip_ws s with
      | comma :: s => '(l, rest) ← parse_elems fuel depth s; Some (j :: l, rest)
      | rbrack :: rest => Some ([j], rest)
      | _ => None
      end
  end
with parse_members (fuel depth : nat) (s : gostring) : option (list (gostring * json) * gostring) :=
  match fuel with
  | O => None
  | S fuel =>
      match skip_ws s with
      | dquote :: s =>
          '(k, s) ← parse_string (S (length s)) s;
          match skip_ws s with
          | colon :: s =>
              '(j, s) ← parse_value fuel depth s;
              match skip_ws s with
              | comma :: s => '(m, rest) ← parse_members fuel depth s; Some ((k, j) :: m, rest)
              | rbrace :: rest => Some ([(k, j)], rest)
              | _ => None
              end
          | _ => None
          end
      | _ => None
      end
  end.

Definition maxNestingDepth : nat := Z.to_nat 10000.

(** The value of a whole text. *)
Definition parse_json (s : gostring) : option json :=
  '(j, rest) ← parse_value (S (2 * length s)) maxNestingDepth s;
  match skip_ws rest with [] => Some j | _ => None end.

Example parse_render :
  let j := JObj [(str "id", JStr (str "a<b")); (str "ports", JArr [JNum (str "443"); JNull]); (str "o", JArr [])] in
  parse_json (MarshalIndent j) = Some j.
Proof. by vm_compute. Qed.
