(* ===== verification/JsonFacts.v ===== *)
(** * What is written as JSON is read back *)

From Stdlib Require Import Init.Byte.
From S2P Require Import Prelude GoNet GoNetFacts Json.

(** ** UTF-8 *)

Fixpoint valid_runes (fuel : nat) (s : gostring) : bool :=
  match fuel, s with
  | _, [] => true
  | O, _ => false
  | S fuel, _ => match utf8_rune s with Some (_, rest) => valid_runes fuel rest | None => false end
  end.

(** [utf8.ValidString] *)
Definition ValidString (s : gostring) : bool := valid_runes (length s) s.

Lemma utf8_rune_Some s r rest :
  utf8_rune s = Some (r, rest) →
  s = r ++ rest ∧ r ≠ [] ∧ (∀ t, utf8_rune (r ++ t) = Some (r, t)) ∧
  ((∃ a, r = [a] ∧ between 0 127 a = true) ∨
   (∃ a b r', r = a :: b :: r' ∧ between 0 127 a = false)).
Proof.
  unfold utf8_rune. intros H.
  repeat match type of H with
  | context [match ?x with _ => _ end] => destruct x eqn:?; try discriminate H
  end; injection H as <- <-; (split; [done|]); (split; [done|]);
  (split; [intros t; cbn [app]; repeat match goal with E : _ = true |- _ => rewrite E; clear E
                                      | E : _ = false |- _ => rewrite E; clear E end; done
          |first [left; by eexists|right; by eexists _, _, _]]).
Qed.

Lemma valid_runes_step fuel c s :
  valid_runes fuel (c :: s) = true →
  ∃ r rest fuel', fuel = S fuel' ∧ utf8_rune (c :: s) = Some (r, rest) ∧ valid_runes fuel' rest = true.
Proof.
  destruct fuel as [|fuel]; [done|]. cbn [valid_runes].
  destruct (utf8_rune (c :: s)) as [[r rest]|]; [|done]. intros H. by eexists _, _, _.
Qed.

(** ** Strings *)

Notation next fuel bs t := ('(v, r) ← parse_string fuel t; Some (bs ++ v, r)).

(** An escaped ASCII character is read as that character, whatever follows. *)
Lemma parse_escape fuel a t :
  between 0 127 a = true → parse_string (S fuel) (escape a ++ t) = next fuel [a] t.
Proof. destruct a; intros H; try (by vm_compute in H); reflexivity. Qed.

Lemma parse_high fuel a s :
  between 0 127 a = false →
  parse_string (S fuel) (a :: s) =
  match utf8_rune (a :: s) with
  | Some (r, rest) => next fuel r rest
  | None => next fuel replacement s
  end.
Proof. destruct a; intros H; try (by vm_compute in H); reflexivity. Qed.

Definition escape_rune (r : list byte) : gostring :=
  match r with
  | [a] => escape a
  | [xe2; x80; xa8] => str "\u2028"
  | [xe2; x80; xa9] => str "\u2029"
  | _ => r
  end.

Lemma escape_rune_one a : escape_rune [a] = escape a.
Proof. by destruct a. Qed.

Lemma escape_rune_nonempty r : r ≠ [] → 0 < length (escape_rune r).
Proof.
  intros Hr. destruct r as [|a [|b r]]; [done|rewrite escape_rune_one; destruct a; vm_compute; lia|].
  unfold escape_rune.
  repeat match goal with |- context [match ?x with _ => _ end] => destruct x end; vm_compute; lia.
Qed.

(** An escaped code point is read as that code point. *)
Lemma parse_rune fuel s r rest t :
  utf8_rune s = Some (r, rest) → parse_string (S fuel) (escape_rune r ++ t) = next fuel r t.
Proof.
  intros H. apply utf8_rune_Some in H as (-> & _ & Hr & [(a & -> & Ha)|(a & b & r' & -> & Ha)]).
  - rewrite escape_rune_one. by apply parse_escape.
  - destruct (decide (a :: b :: r' = [xe2; x80; xa8])) as [Heq|H1].
    { injection Heq as -> -> ->. reflexivity. }
    destruct (decide (a :: b :: r' = [xe2; x80; xa9])) as [Heq|H2].
    { injection Heq as -> -> ->. reflexivity. }
    assert (He : escape_rune (a :: b :: r') = a :: b :: r').
    { unfold escape_rune.
      repeat match goal with |- context [match ?x with _ => _ end] => destruct x; try done end. }
    rewrite He. cbn [app]. rewrite parse_high by done.
    change (a :: b :: r' ++ t) with ((a :: b :: r') ++ t). by rewrite Hr.
Qed.

Lemma escape_string_step fuel c s r rest :
  utf8_rune (c :: s) = Some (r, rest) →
  escape_string (S fuel) (c :: s) = escape_rune r ++ escape_string fuel rest.
Proof. intros H. cbn [escape_string]. by rewrite H. Qed.

Lemma parse_escape_string n s fuel rest :
  valid_runes n s = true → length (escape_string n s) < fuel →
  parse_string fuel (escape_string n s ++ dquote :: rest) = Some (s, rest).
Proof.
  revert s fuel. induction n as [|n IH]; intros s fuel Hv Hf.
  { destruct s; [|done]. destruct fuel; [cbn in Hf; lia|]. done. }
  destruct s as [|c s].
  { destruct fuel; [cbn in Hf; lia|]. done. }
  apply valid_runes_step in Hv as (r & t & n' & [= <-] & Hr & Hv).
  rewrite (escape_string_step n c s r t Hr) in Hf |- *.
  destruct (utf8_rune_Some _ _ _ Hr) as (Hs & Hne & _).
  pose proof (escape_rune_nonempty r Hne). rewrite length_app in Hf.
  destruct fuel as [|fuel]; [lia|]. rewrite <- app_assoc, (parse_rune _ _ _ _ _ Hr).
  rewrite IH by (done || lia). cbn. by rewrite Hs.
Qed.

Lemma parse_quote s rest :
  ValidString s = true →
  parse_string (S (length (escape_string (length s) s ++ dquote :: rest)))
    (escape_string (length s) s ++ dquote :: rest) = Some (s, rest).
Proof. intros H. apply parse_escape_string; [done|]. rewrite length_app. cbn. lia. Qed.

(** ** Numbers *)

(** A number ends before this. *)
Definition number_end (s : gostring) : Prop :=
  match s with [] => True | c :: _ => is_digit c = false ∧ c ≠ dot ∧ c ∉ str "eE" end.

Lemma take_digits_app ds s :
  Forall (λ c, is_digit c = true) ds → (∀ c, head s = Some c → is_digit c = false) →
  take_digits (ds ++ s) = (ds, s).
Proof.
  intros Hds Hs. induction Hds as [|c ds Hc _ IH]; cbn.
  - destruct s as [|c s]; [done|]. cbn. by rewrite (Hs c eq_refl).
  - by rewrite Hc, IH.
Qed.

(** An integer literal: no leading zero. *)
Definition int_lit (ds : gostring) : Prop :=
  Forall (λ c, is_digit c = true) ds ∧ ds ≠ [] ∧ (head ds = Some x30 → ds = [x30]).

Lemma number_rest (sign int rest : gostring) :
  number_end rest →
  ('(frac, s) ←
      match rest with
      | dot :: s' =>
          let '(ds, r) := take_digits s' in
          match ds with [] => None | _ => Some (dot :: ds, r) end
      | _ => Some ([], rest)
      end;
    '(exp, s) ←
      match s with
      | e :: s' =>
          if bool_decide (e ∈ str "eE") then
            let '(sg, s'') := match s' with
                              | x2b :: t => ([x2b], t) | minus :: t => ([minus], t) | _ => ([], s')
                              end in
            let '(ds, r) := take_digits s'' in
            match ds with [] => None | _ => Some (e :: sg ++ ds, r) end
          else Some ([], s)
      | [] => Some ([], s)
      end;
    Some (sign ++ int ++ frac ++ exp, s)) = Some (sign ++ int, rest).
Proof.
  intros Hr. destruct rest as [|x rest]; [cbn; by rewrite !app_nil_r|].
  destruct Hr as (_ & Hdot & He).
  assert (Hm : match x :: rest with
      | dot :: s' => let '(ds, r) := take_digits s' in
                     match ds with [] => None | _ => Some (dot :: ds, r) end
      | _ => Some ([], x :: rest) end = Some ([], x :: rest)) by by destruct x.
  rewrite Hm. cbn. rewrite bool_decide_eq_false_2 by done. cbn. by rewrite !app_nil_r.
Qed.

Lemma parse_int sg ds rest :
  sg = [] ∨ sg = [minus] → int_lit ds → number_end rest →
  parse_number (sg ++ ds ++ rest) = Some (sg ++ ds, rest).
Proof.
  intros Hsg (Hd & Hne & Hz) Hr. destruct ds as [|c ds]; [done|].
  assert (Hc : is_digit c = true) by by inversion Hd.
  assert (Hend : ∀ x, head rest = Some x → is_digit x = false).
  { intros x Hx. destruct rest; [done|]. injection Hx as ->. by destruct Hr. }
  assert (Hs : match sg ++ (c :: ds) ++ rest with
               | minus :: s' => ([minus], s') | _ => ([], sg ++ (c :: ds) ++ rest) end
               = (sg, (c :: ds) ++ rest)).
  { destruct Hsg as [-> | ->]; [|done]. destruct c; try done; by vm_compute in Hc. }
  unfold parse_number. rewrite Hs.
  assert (Hi : match (c :: ds) ++ rest with
      | x30 :: s' => Some ([x30], s')
      | _ => let '(ds, r) := take_digits ((c :: ds) ++ rest) in
             match ds with [] => None | _ => Some (ds, r) end
      end = Some (c :: ds, rest)).
  { destruct (decide (c = x30)) as [->|H0]; [specialize (Hz eq_refl); by injection Hz as ->|].
    assert (Ht : take_digits ((c :: ds) ++ rest) = (c :: ds, rest)) by by apply take_digits_app.
    rewrite Ht. by destruct c. }
  rewrite Hi. exact (number_rest sg (c :: ds) rest Hr).
Qed.

(** ** Values *)

(** The encoder's input: strings are valid UTF-8, numbers are integers. *)
Fixpoint json_ok (j : json) : Prop :=
  match j with
  | JNum lit => ∃ sg ds, lit = sg ++ ds ∧ (sg = [] ∨ sg = [minus]) ∧ int_lit ds
  | JStr s => ValidString s = true
  | JArr l => (fix all l := match l with [] => True | j :: l => json_ok j ∧ all l end) l
  | JObj m =>
      (fix all m := match m with
                    | [] => True
                    | km :: m => ValidString (fst km) = true ∧ json_ok (snd km) ∧ all m
                    end) m
  | _ => True
  end.

Fixpoint depth (j : json) : nat :=
  match j with
  | JArr l => S ((fix go l := match l with [] => 0 | j :: l => depth j `max` go l end) l)
  | JObj m => S ((fix go m := match m with [] => 0 | km :: m => depth (snd km) `max` go m end) m)
  | _ => 0
  end.

Lemma json_ok_arr l : json_ok (JArr l) ↔ Forall json_ok l.
Proof.
  induction l as [|j l IH]; [done|]. rewrite Forall_cons, <- IH. done.
Qed.

Lemma json_ok_obj m :
  json_ok (JObj m) ↔ Forall (λ km, ValidString (fst km) = true ∧ json_ok (snd km)) m.
Proof.
  induction m as [|km m IH]; [done|]. rewrite Forall_cons, <- IH. cbn. tauto.
Qed.

Lemma depth_arr l d : depth (JArr l) <= S d ↔ Forall (λ j, depth j <= d) l.
Proof.
  induction l as [|j l IH]; [split; [constructor|cbn; lia]|].
  rewrite Forall_cons, <- IH. cbn. lia.
Qed.

Lemma depth_obj m d : depth (JObj m) <= S d ↔ Forall (λ km, depth (snd km) <= d) m.
Proof.
  induction m as [|j m IH]; [split; [constructor|cbn; lia]|].
  rewrite Forall_cons, <- IH. cbn. lia.
Qed.

Lemma skip_nl d s : skip_ws (nl d ++ s) = skip_ws s.
Proof.
  unfold nl. cbn. induction (d + (d + 0)) as [|n IH]; [done|]. cbn. exact IH.
Qed.

Lemma skip_skip s : skip_ws (skip_ws s) = skip_ws s.
Proof. induction s as [|c s IH]; [done|]. cbn. destruct (is_ws c) eqn:H; [done|]. cbn. by rewrite H. Qed.

Lemma skip_length s : length (skip_ws s) <= length s.
Proof. induction s as [|c s IH]; [done|]. cbn. destruct (is_ws c); cbn; lia. Qed.

Lemma skip_head c s : is_ws c = false → skip_ws (c :: s) = c :: s.
Proof. cbn. by intros ->. Qed.

Lemma parse_value_skip fuel d s : parse_value fuel d (skip_ws s) = parse_value fuel d s.
Proof. destruct fuel; [done|]. cbn [parse_value]. by rewrite skip_skip. Qed.

(** The first character of a rendered value. *)
Lemma render_head d j :
  json_ok j → ∃ c t, render d j = c :: t ∧ is_ws c = false ∧ c ≠ rbrace ∧ c ≠ rbrack.
Proof.
  destruct j as [|b|lit|s|l|m]; cbn [render json_ok].
  - intros _. by eexists _, _.
  - intros _. destruct b; by eexists _, _.
  - intros (sg & ds & -> & Hsg & (Hd & Hne & _)).
    destruct Hsg as [-> | ->]; [|by eexists _, _].
    destruct ds as [|c ds]; [done|]. eexists c, ds. split; [done|].
    inversion Hd as [|? ? Hc]. subst. clear -Hc. destruct c; (done || by vm_compute in Hc).
  - intros _. by eexists _, _.
  - intros _. destruct l; by eexists _, _.
  - intros _. destruct m; by eexists _, _.
Qed.

Definition reads (j : json) : Prop :=
  ∀ d fuel dp rest, depth j <= dp → 2 * length (render d j ++ rest) < fuel → number_end rest →
    parse_value fuel dp (render d j ++ rest) = Some (j, rest).

Lemma parse_value_number fuel dp c s :
  is_digit c = true ∨ c = minus →
  parse_value (S fuel) dp (c :: s) = ('(lit, rest) ← parse_number (c :: s); Some (JNum lit, rest)).
Proof. intros [H| ->]; [|reflexivity]. destruct c; (by vm_compute in H) || reflexivity. Qed.

Lemma number_end_close d c rest : c = rbrace ∨ c = rbrack → number_end (nl d ++ c :: rest).
Proof. intros _. cbn. split_and!; [by vm_compute|done|]. apply (bool_decide_unpack _). by vm_compute. Qed.

Lemma number_end_comma rest : number_end (comma :: rest).
Proof. cbn. split_and!; [by vm_compute|done|]. apply (bool_decide_unpack _). by vm_compute. Qed.

Lemma lines_cons d x y l : lines d (x :: y :: l) = nl d ++ x ++ comma :: lines d (y :: l).
Proof. done. Qed.

Lemma parse_lines l :
  Forall json_ok l → Forall reads l → l ≠ [] → ∀ d d' fuel dp rest,
  Forall (λ j, depth j <= dp) l →
  S (2 * length (lines d (map (render d) l) ++ nl d' ++ rbrack :: rest)) < fuel →
  parse_elems fuel dp (lines d (map (render d) l) ++ nl d' ++ rbrack :: rest) = Some (l, rest).
Proof.
  intros Hok Hl. induction Hl as [|j l Hj Hl IH]; intros Hne d d' fuel dp rest Hd Hf; [done|].
  inversion Hok as [|? ? Hoj Hol]; subst. inversion Hd as [|? ? Hdj Hdl]; subst.
  destruct fuel as [|fuel]; [lia|]. cbn [parse_elems].
  destruct l as [|k l]; cbn [map] in *.
  - cbn [lines] in *. rewrite <- app_assoc, <- parse_value_skip, skip_nl, parse_value_skip.
    rewrite Hj; [|done|rewrite !length_app in *; cbn in *; lia|apply number_end_close; auto].
    cbn [mbind option_bind]. by rewrite skip_nl.
  - rewrite lines_cons in *. rewrite <- !app_assoc in *. cbn [app] in *.
    rewrite <- parse_value_skip, skip_nl, parse_value_skip.
    rewrite Hj; [|done|rewrite !length_app in *; cbn in *; lia|apply number_end_comma].
    cbn [mbind option_bind]. rewrite skip_head by done. rewrite IH; try done.
    clear -Hf. set (x := lines _ _ ++ _) in *. rewrite !length_app in Hf. cbn [length] in Hf. lia.
Qed.

Lemma member_text k v :
  member k v = dquote :: escape_string (length k) k ++ dquote :: colon :: x20 :: v.
Proof. unfold member, quote. cbn. by rewrite <- app_assoc. Qed.

Lemma length_nl d : length (nl d) = S (2 * d).
Proof. unfold nl. cbn [length]. by rewrite length_replicate. Qed.

Lemma parse_member_lines m :
  Forall (λ km, ValidString (fst km) = true ∧ json_ok (snd km)) m →
  Forall (λ km, reads (snd km)) m → m ≠ [] → ∀ d d' fuel dp rest,
  Forall (λ km, depth (snd km) <= dp) m →
  let text := lines d (map (λ km, member (fst km) (render d (snd km))) m) ++ nl d' ++ rbrace :: rest in
  S (2 * length text) < fuel →
  parse_members fuel dp text = Some (m, rest).
Proof.
  intros Hok Hm. induction Hm as [|[k j] m Hj Hm IH]; intros Hne d d' fuel dp rest Hd text Hf; [done|].
  inversion Hok as [|? ? [Hk Hoj] Hom]; subst. inversion Hd as [|? ? Hdj Hdm]; subst.
  cbn [fst snd] in *. destruct fuel as [|fuel]; [lia|]. cbn [parse_members].
  assert (Htext : ∃ tl, skip_ws text = dquote :: escape_string (length k) k ++ dquote ::
                     colon :: x20 :: render d j ++ tl ∧ number_end tl ∧
                     S (length (colon :: x20 :: render d j ++ tl)) < length text ∧
                     (m = [] ∧ tl = nl d' ++ rbrace :: rest ∨
                      m ≠ [] ∧ tl = comma :: lines d (map (λ km, member (fst km) (render d (snd km))) m) ++
                                    nl d' ++ rbrace :: rest)).
  { subst text. destruct m as [|km m]; cbn [map fst snd] in *.
    - cbn [lines]. rewrite <- app_assoc, skip_nl, member_text. exists (nl d' ++ rbrace :: rest).
      split_and!; [cbn [app]; by rewrite <- app_assoc|apply number_end_close; auto| |auto].
      repeat (rewrite ?length_app, ?length_nl; cbn [length app]). lia.
    - rewrite lines_cons, <- !app_assoc, skip_nl, (member_text k).
      set (x := lines _ _). exists (comma :: x ++ nl d' ++ rbrace :: rest).
      split_and!; [cbn [app]; by rewrite <- !app_assoc|apply number_end_comma| |by right].
      repeat (rewrite ?length_app, ?length_nl; cbn [length app]). lia. }
  destruct Htext as (tl & Hs & Hend & Hlen & Hcases). rewrite Hs.
  rewrite parse_quote by done. cbn [mbind option_bind]. rewrite skip_head by done.
  rewrite <- (parse_value_skip _ _ (x20 :: _)). change (x20 :: render d j ++ tl) with ([x20] ++ render d j ++ tl).
  cbn [app skip_ws]. change (is_ws x20) with true. cbv iota. rewrite parse_value_skip.
  rewrite Hj; [|done|clear -Hf Hlen; cbn [length] in Hlen; lia|done]. cbn [mbind option_bind].
  destruct Hcases as [[-> ->]|[Hne' ->]].
  - by rewrite skip_nl.
  - rewrite skip_head by done. rewrite IH; try done.
    clear -Hf Hlen. set (x := lines _ _ ++ _) in *. cbn [length] in Hlen. rewrite !length_app in Hlen.
    cbn [length] in Hlen. lia.
Qed.

Lemma json_reads j : json_ok j → reads j.
Proof.
  induction j as [|b|lit|s|l IH|m IH]; intros Hok d fuel dp rest Hdp Hf Hend;
    (destruct fuel as [|fuel]; [lia|]).
  - done.
  - by destruct b.
  - destruct Hok as (sg & ds & -> & Hsg & Hds). cbn [render]. rewrite <- app_assoc.
    assert (Hh : ∃ c t, sg ++ ds ++ rest = c :: t ∧ (is_digit c = true ∨ c = minus)).
    { destruct Hsg as [-> | ->]; [|by eexists _, _; eauto]. destruct Hds as (Hd & Hne & _).
      destruct ds as [|c ds]; [done|]. inversion Hd. cbn. by eexists _, _; eauto. }
    destruct Hh as (c & t & Heq & Hc). rewrite Heq, parse_value_number by done.
    rewrite <- Heq, parse_int by done. done.
  - cbn [render json_ok] in *. unfold quote. cbn [app]. rewrite <- app_assoc. cbn [app parse_value].
    rewrite skip_head by done. by rewrite parse_quote.
  - apply json_ok_arr in Hok. assert (Hr : Forall reads l).
    { clear -IH Hok. induction IH; inversion Hok; subst; constructor; auto. }
    destruct dp as [|dp]; [cbn in Hdp; lia|]. apply depth_arr in Hdp.
    destruct l as [|j l]; [done|]. pose proof (parse_lines (j :: l) Hok Hr ltac:(done)) as Hp.
    cbn [render]. rewrite <- !app_assoc. cbn [app parse_value]. rewrite skip_head by done.
    set (text := lines (S d) (map (render (S d)) (j :: l)) ++ nl d ++ rbrack :: rest) in *.
    assert (Hh : ∃ c t, skip_ws text = c :: t ∧ c ≠ rbrack).
    { inversion Hok as [|? ? Hj _]; subst. destruct (render_head (S d) j Hj) as (c & t & Hc & Hw & _ & Hb).
      assert (∃ tl, text = nl (S d) ++ c :: tl) as [tl ->].
      { subst text. cbn [map]. rewrite Hc. destruct l; cbn [map];
          rewrite ?lines_cons; cbn [lines]; rewrite <- !app_assoc; cbn [app]; by eexists. }
      rewrite skip_nl, skip_head by done. eauto. }
    assert (He : parse_elems fuel dp (skip_ws text) = Some (j :: l, rest)).
    { destruct fuel as [|fuel]; [cbn in Hf; lia|]. cbn [parse_elems]. rewrite parse_value_skip.
      apply (Hp (S d) d (S fuel) dp rest Hdp). fold text. cbn [render] in Hf.
      rewrite <- !app_assoc in Hf. cbn [app] in Hf. fold text in Hf. cbn [length] in Hf. lia. }
    destruct Hh as (c & t & Hc & Hne). rewrite Hc in He |- *.
    clear -He Hne. destruct c; first [done|by rewrite He].
  - apply json_ok_obj in Hok. assert (Hr : Forall (λ km, reads (snd km)) m).
    { clear -IH Hok. induction IH as [|km m Hkm _ IHm]; inversion Hok as [|? ? [_ ?]]; subst; constructor; auto. }
    destruct dp as [|dp]; [cbn in Hdp; lia|]. apply depth_obj in Hdp.
    destruct m as [|[k j] m]; [done|]. pose proof (parse_member_lines ((k, j) :: m) Hok Hr ltac:(done)) as Hp.
    cbn [render]. rewrite <- !app_assoc. cbn [app parse_value]. rewrite skip_head by done.
    set (text := lines (S d) (map _ ((k, j) :: m)) ++ nl d ++ rbrace :: rest) in *.
    assert (Hh : ∃ t, skip_ws text = dquote :: t).
    { subst text. destruct m; cbn [map]; rewrite ?lines_cons; cbn [lines]; rewrite <- !app_assoc, skip_nl;
        unfold member, quote; cbn; by eexists. }
    assert (He : parse_members fuel dp (skip_ws text) = Some ((k, j) :: m, rest)).
    { destruct fuel as [|fuel]; [cbn in Hf; lia|]. cbn [parse_members]. rewrite skip_skip.
      apply (Hp (S d) d (S fuel) dp rest Hdp). fold text. cbn [render] in Hf.
      rewrite <- !app_assoc in Hf. cbn [app] in Hf. fold text in Hf. cbn [length] in Hf. lia. }
    destruct Hh as (t & Ht). rewrite Ht in He |- *. rewrite He. done.
Qed.

(** What is marshalled is read back, if the strings are valid UTF-8. *)
Lemma parse_MarshalIndent j :
  json_ok j → depth j <= maxNestingDepth → parse_json (MarshalIndent j) = Some j.
Proof.
  intros Hok Hd. unfold parse_json, MarshalIndent.
  pose proof (json_reads j Hok 0 (S (2 * length (render 0 j))) maxNestingDepth [] Hd) as H.
  rewrite app_nil_r in H. rewrite H; [done|lia|done].
Qed.
