(* ===== verification/JsonFuel.v ===== *)
(** * The fuel of the JSON parser is enough

    A call returns a shorter rest, so two units a character never run out: more fuel
    makes no difference to [parse_value]. *)

From Stdlib Require Import Init.Byte.
From S2P Require Import Prelude GoNet Json JsonFacts.

Lemma utf8_rune_shorter s r rest : utf8_rune s = Some (r, rest) → length rest < length s.
Proof.
  intros (-> & Hne & _)%utf8_rune_Some. rewrite length_app. destruct r; [done|]. cbn. lia.
Qed.

Lemma second_escape_shorter s r rest : second_escape s = Some (r, rest) → length rest < length s.
Proof.
  unfold second_escape. intros H.
  repeat match type of H with context [match ?x with _ => _ end] => destruct x; try discriminate H end.
  apply bind_Some in H as (x & _ & [= _ <-]). cbn. lia.
Qed.

(** One turn of [parse_string]: the end, an error, or some bytes and a shorter rest. *)
Definition string_turn (s : gostring) : option (option (list byte) * gostring) :=
  match s with
  | [] => None
  | dquote :: rest => Some (None, rest)
  | bslash :: s =>
      match s with
      | dquote :: rest => Some (Some [dquote], rest)
      | bslash :: rest => Some (Some [bslash], rest)
      | x2f :: rest => Some (Some [x2f], rest)
      | x62 :: rest => Some (Some [x08], rest)
      | x66 :: rest => Some (Some [x0c], rest)
      | x6e :: rest => Some (Some [x0a], rest)
      | x72 :: rest => Some (Some [x0d], rest)
      | x74 :: rest => Some (Some [x09], rest)
      | x75 :: a :: b :: c :: d :: rest =>
          r ← hex4 a b c d;
          if surrogate r then
            match second_escape rest with
            | Some (r2, rest2) =>
                match surrogate_pair r r2 with
                | Some p => Some (Some (encode_rune p), rest2)
                | None => Some (Some replacement, rest)
                end
            | None => Some (Some replacement, rest)
            end
          else Some (Some (encode_rune r), rest)
      | _ => None
      end
  | c :: rest =>
      if between 0 31 c then None
      else match utf8_rune s with
           | Some (r, rest) => Some (Some r, rest)
           | None => Some (Some replacement, rest)
           end
  end.

Lemma parse_string_turn fuel s :
  parse_string (S fuel) s =
  match string_turn s with
  | None => None
  | Some (None, rest) => Some ([], rest)
  | Some (Some bs, rest) => next fuel bs rest
  end.
Proof.
  cbn [parse_string]. destruct s as [|c s]; [done|].
  assert (Hesc : c = bslash ∨ c ≠ bslash) by (destruct (decide (c = bslash)); auto).
  destruct Hesc as [->|Hc].
  - cbn [string_turn]. destruct s as [|e s]; [done|].
    assert (He : e = x75 ∨ e ≠ x75) by (destruct (decide (e = x75)); auto).
    destruct He as [->|He]; [|by destruct e].
    destruct s as [|w [|x [|y [|z s]]]]; try done. destruct (hex4 w x y z) as [r|]; [|done].
    cbn. destruct (surrogate r); [|done]. destruct (second_escape s) as [[r2 rest2]|]; [|done].
    by destruct (surrogate_pair r r2).
  - assert (Hd : c = dquote ∨ c ≠ dquote) by (destruct (decide (c = dquote)); auto).
    destruct Hd as [->|Hd]; [done|]. unfold string_turn.
    destruct (utf8_rune (c :: s)) as [[r rest]|] eqn:Hu.
    + clear Hu. destruct c; first [done|congruence].
    + clear Hu. destruct c; first [done|congruence].
Qed.

Lemma string_turn_shorter s o rest : string_turn s = Some (o, rest) → length rest < length s.
Proof.
  unfold string_turn. destruct s as [|c s]; [done|]. intros H.
  assert (Hu : ∀ r t, utf8_rune (c :: s) = Some (r, t) → length t < length (c :: s))
    by (intros; by eapply utf8_rune_shorter).
  assert (Hesc : c = bslash ∨ c ≠ bslash) by (destruct (decide (c = bslash)); auto).
  destruct Hesc as [->|Hc].
  - destruct s as [|e s]; [done|].
    assert (He : e = x75 ∨ e ≠ x75) by (destruct (decide (e = x75)); auto).
    destruct He as [->|He]; [|clear Hu; destruct e; first [discriminate H|by destruct He|injection H as _ <-; cbn; lia]].
    destruct s as [|w [|x [|y [|z s]]]]; try done. destruct (hex4 w x y z) as [r|]; [|done].
    cbn in H. destruct (surrogate r); [|injection H as _ <-; cbn; lia].
    destruct (second_escape s) as [[r2 rest2]|] eqn:Hs; [|injection H as _ <-; cbn; lia].
    apply second_escape_shorter in Hs.
    destruct (surrogate_pair r r2); injection H as _ <-; cbn; lia.
  - assert (Hd : c = dquote ∨ c ≠ dquote) by (destruct (decide (c = dquote)); auto).
    destruct Hd as [->|Hd]; [injection H as _ <-; cbn; lia|].
    assert (H' : (if between 0 31 c then None
                  else match utf8_rune (c :: s) with
                       | Some (r, rest) => Some (Some r, rest)
                       | None => Some (Some replacement, s) end) = Some (o, rest)).
    { rewrite <- H. clear -Hc Hd. destruct (utf8_rune (c :: s)); destruct c; first [done|congruence]. }
    destruct (between 0 31 c); [done|].
    destruct (utf8_rune (c :: s)) as [[r t]|]; injection H' as _ <-; [by eapply Hu|cbn; lia].
Qed.

Lemma parse_string_spec n : ∀ s f1 f2, length s <= n → length s < f1 → length s < f2 →
  parse_string f1 s = parse_string f2 s ∧
  ∀ v r, parse_string f1 s = Some (v, r) → length r < length s.
Proof.
  induction n as [|n IH]; intros s f1 f2 Hn H1 H2; (destruct f1 as [|f1]; [lia|]);
    (destruct f2 as [|f2]; [lia|]); rewrite !parse_string_turn;
    destruct (string_turn s) as [[[bs|] t]|] eqn:Ht; try done;
    apply string_turn_shorter in Ht; try lia.
  - destruct (IH t f1 f2) as [He Hl]; [lia..|]. rewrite <- He. split; [done|].
    intros v r H. apply bind_Some in H as ([v' r'] & Hp & [= <- <-]). specialize (Hl _ _ Hp). lia.
  - split; [done|]. by intros v r [= <- <-].
Qed.

Lemma take_digits_spec s ds r : take_digits s = (ds, r) → length s = length ds + length r.
Proof.
  revert ds r. induction s as [|c s IH]; intros ds r; cbn; [by intros [= <- <-]|].
  destruct (is_digit c); [|by intros [= <- <-]]. destruct (take_digits s) as [ds' r'].
  intros [= <- <-]. cbn. f_equal. by apply IH.
Qed.

(** ** Numbers *)

Lemma parse_number_shorter s lit rest :
  parse_number s = Some (lit, rest) → length rest < length s.
Proof.
  unfold parse_number. intros H.
  destruct (match s with minus :: s' => ([minus], s') | _ => ([], s) end) as [sign s1] eqn:Hsign.
  assert (H1 : length s1 <= length s).
  { destruct s as [|c s]; [by injection Hsign as _ <-|].
    destruct c; injection Hsign as _ <-; cbn; lia. }
  clear Hsign. apply bind_Some in H as ([int s2] & Hint & H).
  assert (H2 : length s2 < length s1).
  { assert (Hd : ∀ t, (let '(ds, r) := take_digits t in
                       match ds with [] => None | _ => Some (ds, r) end) = Some (int, s2) →
                      length s2 < length t).
    { intros t. destruct (take_digits t) as [ds r] eqn:Ht. apply take_digits_spec in Ht.
      destruct ds; [done|]. intros [= _ <-]. cbn in Ht. lia. }
    destruct s1 as [|c s1]; [done|]. clear H H1.
    destruct c; first [by apply Hd|injection Hint as _ <-; cbn; lia]. }
  clear Hint. apply bind_Some in H as ([frac s3] & Hfrac & H).
  assert (H3 : length s3 <= length s2).
  { clear H H1 H2. destruct s2 as [|c s2]; [by injection Hfrac as _ <-|].
    destruct (decide (c = dot)) as [->|Hc].
    - destruct (take_digits s2) as [ds r] eqn:Ht. apply take_digits_spec in Ht.
      destruct ds; [done|]. injection Hfrac as _ <-. cbn in *. lia.
    - assert (Some ([], c :: s2) = Some (frac, s3)) as [= _ <-]; [|done].
      rewrite <- Hfrac. destruct c; first [done|congruence]. }
  clear Hfrac. apply bind_Some in H as ([exp s4] & Hexp & [= _ <-]).
  assert (H4 : length s4 <= length s3); [|lia].
  clear -Hexp. destruct s3 as [|e s3]; [by injection Hexp as _ <-|].
  destruct (bool_decide (e ∈ str "eE")); [|by injection Hexp as _ <-].
  destruct (match s3 with x2b :: t => ([x2b], t) | minus :: t => ([minus], t) | _ => ([], s3) end)
    as [sg s5] eqn:Hsg.
  assert (length s5 <= length s3).
  { clear Hexp. destruct s3 as [|c s3]; [by injection Hsg as _ <-|].
    destruct c; injection Hsg as _ <-; cbn; lia. }
  destruct (take_digits s5) as [ds r] eqn:Ht. apply take_digits_spec in Ht.
  destruct ds; [done|]. injection Hexp as _ <-. cbn in *. lia.
Qed.

(** ** Values *)

Inductive token := TBrace | TBracket | TQuote | TLit (lit : gostring) (j : json) | TOther.

Definition tok (c : byte) : token :=
  match c with
  | lbrace => TBrace
  | lbrack => TBracket
  | dquote => TQuote
  | x6e => TLit (str "null") JNull
  | x74 => TLit (str "true") (JBool true)
  | x66 => TLit (str "false") (JBool false)
  | _ => TOther
  end.

Definition value_body (fuel dp : nat) (c : byte) (s : gostring) : option (json * gostring) :=
  match tok c with
  | TBrace =>
      match dp with
      | O => None
      | S dp =>
          if decide (head (skip_ws s) = Some rbrace) then Some (JObj [], tail (skip_ws s))
          else '(m, rest) ← parse_members fuel dp (skip_ws s); Some (JObj m, rest)
      end
  | TBracket =>
      match dp with
      | O => None
      | S dp =>
          if decide (head (skip_ws s) = Some rbrack) then Some (JArr [], tail (skip_ws s))
          else '(l, rest) ← parse_elems fuel dp (skip_ws s); Some (JArr l, rest)
      end
  | TQuote => '(v, rest) ← parse_string (S (length s)) s; Some (JStr v, rest)
  | TLit lit j => literal lit j (c :: s)
  | TOther => '(lit, rest) ← parse_number (c :: s); Some (JNum lit, rest)
  end.

Lemma parse_value_body fuel dp s :
  parse_value (S fuel) dp s =
  match skip_ws s with [] => None | c :: s => value_body fuel dp c s end.
Proof.
  cbn [parse_value]. destruct (skip_ws s) as [|c t]; [done|]. unfold value_body.
  destruct (decide (c = lbrace)) as [->|H1].
  { cbn [tok]. destruct dp; [done|]. destruct (skip_ws t) as [|e u]; [done|].
    cbn [head tail]. destruct (decide (e = rbrace)) as [->|He]; [done|].
    rewrite decide_False by congruence. destruct e; first [done|congruence]. }
  destruct (decide (c = lbrack)) as [->|H2].
  { cbn [tok]. destruct dp; [done|]. destruct (skip_ws t) as [|e u]; [done|].
    cbn [head tail]. destruct (decide (e = rbrack)) as [->|He]; [done|].
    rewrite decide_False by congruence. destruct e; first [done|congruence]. }
  destruct c; first [done|congruence].
Qed.

Lemma literal_shorter lit j s j' rest :
  lit ≠ [] → literal lit j s = Some (j', rest) → length rest < length s.
Proof.
  unfold literal. intros Hne H. case_decide as Ht; [|done]. injection H as _ <-.
  rewrite length_drop. assert (0 < length lit) by (destruct lit; [done|cbn; lia]).
  apply (f_equal length) in Ht. rewrite length_take in Ht. lia.
Qed.

Lemma tok_lit c lit j : tok c = TLit lit j → lit ≠ [].
Proof. destruct c; try discriminate; by intros [= <- _]. Qed.

Lemma parse_string_enough s : ∀ v r, parse_string (S (length s)) s = Some (v, r) → length r < length s.
Proof. destruct (parse_string_spec (length s) s (S (length s)) (S (length s))) as [_ H]; [lia..|]. done. Qed.

Lemma skip_tail s c : head (skip_ws s) = Some c → length (tail (skip_ws s)) < length s.
Proof. pose proof (skip_length s). destruct (skip_ws s); [done|]. cbn in *. lia. Qed.

(** What [parse_members] does after the first character that is not a space. *)
Definition members_body (fuel dp : nat) (s : gostring) : option (list (gostring * json) * gostring) :=
  if decide (head (skip_ws s) = Some dquote) then
    '(k, s) ← parse_string (S (length (tail (skip_ws s)))) (tail (skip_ws s));
    if decide (head (skip_ws s) = Some colon) then
      '(j, s) ← parse_value fuel dp (tail (skip_ws s));
      if decide (head (skip_ws s) = Some comma) then
        '(m, rest) ← parse_members fuel dp (tail (skip_ws s)); Some ((k, j) :: m, rest)
      else if decide (head (skip_ws s) = Some rbrace) then Some ([(k, j)], tail (skip_ws s))
      else None
    else None
  else None.

Definition elems_body (fuel dp : nat) (s : gostring) : option (list json * gostring) :=
  '(j, s) ← parse_value fuel dp s;
  if decide (head (skip_ws s) = Some comma) then
    '(l, rest) ← parse_elems fuel dp (tail (skip_ws s)); Some (j :: l, rest)
  else if decide (head (skip_ws s) = Some rbrack) then Some ([j], tail (skip_ws s))
  else None.

Lemma parse_elems_body fuel dp s : parse_elems (S fuel) dp s = elems_body fuel dp s.
Proof.
  cbn [parse_elems]. unfold elems_body. destruct (parse_value fuel dp s) as [[j t]|]; [|done].
  cbn. destruct (skip_ws t) as [|c u]; [done|]. cbn [head tail].
  destruct (decide (c = comma)) as [->|H1]; [by rewrite decide_True|].
  rewrite (decide_False (P := Some c = Some comma)) by congruence.
  destruct (decide (c = rbrack)) as [->|H2]; [by rewrite decide_True|].
  rewrite decide_False by congruence. destruct c; first [done|congruence].
Qed.

Lemma parse_members_body fuel dp s : parse_members (S fuel) dp s = members_body fuel dp s.
Proof.
  cbn [parse_members]. unfold members_body. destruct (skip_ws s) as [|c u]; [done|]. cbn [head tail].
  destruct (decide (c = dquote)) as [->|H1].
  2:{ rewrite decide_False by congruence. destruct c; first [done|congruence]. }
  rewrite decide_True by done. destruct (parse_string _ u) as [[k t]|]; [|done]. cbn [mbind option_bind].
  destruct (skip_ws t) as [|d v]; [done|]. cbn [head tail].
  destruct (decide (d = colon)) as [->|H2].
  2:{ rewrite decide_False by congruence. destruct d; first [done|congruence]. }
  rewrite decide_True by done. destruct (parse_value _ _ v) as [[j w]|]; [|done]. cbn [mbind option_bind].
  destruct (skip_ws w) as [|e x]; [done|]. cbn [head tail].
  destruct (decide (e = comma)) as [->|H3]; [by rewrite decide_True|].
  rewrite (decide_False (P := Some e = Some comma)) by congruence.
  destruct (decide (e = rbrace)) as [->|H4]; [by rewrite decide_True|].
  rewrite decide_False by congruence. destruct e; first [done|congruence].
Qed.

(** A call returns a shorter rest. *)
Lemma parse_shorter fuel :
  (∀ dp s j r, parse_value fuel dp s = Some (j, r) → length r < length s) ∧
  (∀ dp s l r, parse_elems fuel dp s = Some (l, r) → length r < length s) ∧
  (∀ dp s m r, parse_members fuel dp s = Some (m, r) → length r < length s).
Proof.
  induction fuel as [|fuel (IHv & IHe & IHm)]; [done|]. split_and!; intros dp s x r H.
  - rewrite parse_value_body in H. pose proof (skip_length s) as Hs.
    destruct (skip_ws s) as [|c t]; [done|]. cbn [length] in Hs. pose proof (skip_length t) as Hk.
    unfold value_body in H. destruct (tok c) eqn:Ht.
    + destruct dp as [|dp]; [done|]. case_decide as Hh.
      * injection H as _ <-. apply skip_tail in Hh. lia.
      * apply bind_Some in H as ([m u] & Hm & [= _ <-]). apply IHm in Hm. lia.
    + destruct dp as [|dp]; [done|]. case_decide as Hh.
      * injection H as _ <-. apply skip_tail in Hh. lia.
      * apply bind_Some in H as ([m u] & Hm & [= _ <-]). apply IHe in Hm. lia.
    + apply bind_Some in H as ([v u] & Hv & [= _ <-]). apply parse_string_enough in Hv. lia.
    + apply literal_shorter in H; [cbn in H; lia|by eapply tok_lit].
    + apply bind_Some in H as ([v u] & Hv & [= _ <-]). apply parse_number_shorter in Hv. cbn in Hv. lia.
  - rewrite parse_elems_body in H. apply bind_Some in H as ([j t] & Hj & H). apply IHv in Hj.
    case_decide as H1; [|case_decide as H2; [|done]].
    + apply bind_Some in H as ([l u] & Hl & [= _ <-]). apply IHe in Hl. apply skip_tail in H1. lia.
    + injection H as _ <-. apply skip_tail in H2. lia.
  - rewrite parse_members_body in H. unfold members_body in H. case_decide as H0; [|done].
    apply skip_tail in H0. apply bind_Some in H as ([k t] & Hk & H). apply parse_string_enough in Hk.
    case_decide as H1; [|done]. apply skip_tail in H1.
    apply bind_Some in H as ([j u] & Hj & H). apply IHv in Hj.
    case_decide as H2; [|case_decide as H3; [|done]].
    + apply bind_Some in H as ([m w] & Hm & [= _ <-]). apply IHm in Hm. apply skip_tail in H2. lia.
    + injection H as _ <-. apply skip_tail in H3. lia.
Qed.

(** With two units a character, more fuel makes no difference. *)
Lemma parse_fuel f : ∀ g dp s,
  (2 * length s < f → 2 * length s < g → parse_value f dp s = parse_value g dp s) ∧
  (S (2 * length s) < f → S (2 * length s) < g → parse_elems f dp s = parse_elems g dp s) ∧
  (S (2 * length s) < f → S (2 * length s) < g → parse_members f dp s = parse_members g dp s).
Proof.
  induction f as [|f IH]; intros g dp s; [split_and!; lia|].
  destruct g as [|g]; [split_and!; lia|]. split_and!; intros Hf Hg.
  - rewrite !parse_value_body. pose proof (skip_length s) as Hs.
    destruct (skip_ws s) as [|c t]; [done|]. cbn [length] in Hs. pose proof (skip_length t) as Hk.
    unfold value_body. destruct (tok c); try done; (destruct dp as [|dp]; [done|]);
      (case_decide; [done|]); destruct (IH g dp (skip_ws t)) as (_ & He & Hm);
      rewrite ?He, ?Hm by lia; done.
  - rewrite !parse_elems_body. unfold elems_body. destruct (IH g dp s) as (Hv & _).
    rewrite <- Hv by lia. destruct (parse_value f dp s) as [[j t]|] eqn:Hp; [|done].
    apply parse_shorter in Hp. cbn. case_decide as H1; [|done]. apply skip_tail in H1.
    destruct (IH g dp (tail (skip_ws t))) as (_ & He & _). by rewrite He by lia.
  - rewrite !parse_members_body. unfold members_body. case_decide as H0; [|done].
    apply skip_tail in H0. destruct (parse_string _ _) as [[k t]|] eqn:Hk; [|done].
    apply parse_string_enough in Hk. cbn [mbind option_bind]. case_decide as H1; [|done].
    apply skip_tail in H1. destruct (IH g dp (tail (skip_ws t))) as (Hv & _).
    rewrite <- Hv by lia. destruct (parse_value f dp _) as [[j u]|] eqn:Hp; [|done].
    apply parse_shorter in Hp. cbn [mbind option_bind]. case_decide as H2; [|done].
    apply skip_tail in H2. destruct (IH g dp (tail (skip_ws u))) as (_ & _ & Hm). by rewrite Hm by lia.
Qed.

(** [parse_json] does not depend on its fuel. *)
Lemma parse_json_fuel fuel s :
  2 * length s < fuel →
  parse_json s =
    '(j, rest) ← parse_value fuel maxNestingDepth s;
    match skip_ws rest with [] => Some j | _ => None end.
Proof.
  intros Hf. unfold parse_json.
  destruct (parse_fuel (S (2 * length s)) fuel maxNestingDepth s) as (Hv & _). by rewrite Hv by lia.
Qed.
