(* ===== verification/JsonStrings.v ===== *)
(** * Strings read from JSON are valid UTF-8

    [unquote] replaces what is not, so a value that was read can be written again.
    Valid strings are closed under concatenation, and under cutting at an ASCII
    character. *)

From Stdlib Require Import Init.Byte.
From S2P Require Import Prelude GoNet GoNetFacts Json JsonFacts JsonFuel.

(** ** Validity, inductively *)

Inductive Valid : gostring → Prop :=
  | Valid_nil : Valid []
  | Valid_rune s r t : utf8_rune s = Some (r, t) → Valid t → Valid s.

Lemma valid_runes_Valid n s : valid_runes n s = true → Valid s.
Proof.
  revert s. induction n as [|n IH]; intros [|c s] H; try done; try by constructor.
  apply valid_runes_step in H as (r & t & n' & [= <-] & Hr & H). econstructor; eauto.
Qed.

Lemma Valid_valid_runes n s : Valid s → length s <= n → valid_runes n s = true.
Proof.
  intros Hs. revert n. induction Hs as [|s r t Hr _ IH]; intros n Hn; [by destruct n|].
  pose proof (utf8_rune_shorter _ _ _ Hr) as Hlt.
  destruct n as [|n]; [lia|]. destruct s as [|c s]; [done|]. cbn [valid_runes].
  rewrite Hr. apply IH. lia.
Qed.

Lemma ValidString_Valid s : ValidString s = true ↔ Valid s.
Proof.
  split; [apply valid_runes_Valid|]. intros H. by apply Valid_valid_runes.
Qed.

Lemma Valid_app a b : Valid a → Valid b → Valid (a ++ b).
Proof.
  intros Ha Hb. induction Ha as [|s r t Hr _ IH]; [done|].
  apply utf8_rune_Some in Hr as (-> & _ & Hr & _). rewrite <- app_assoc.
  eapply Valid_rune; [apply Hr|done].
Qed.

Lemma utf8_rune_ascii c s : between 0 127 c = true → utf8_rune (c :: s) = Some ([c], s).
Proof. unfold utf8_rune. by intros ->. Qed.

Lemma Valid_ascii s : Forall (λ c, between 0 127 c = true) s → Valid s.
Proof.
  induction 1 as [|c s Hc _ IH]; [constructor|].
  eapply Valid_rune; [by apply utf8_rune_ascii|done].
Qed.

(** The bytes of a longer encoding are not ASCII. *)
Lemma between_low a lo hi : between lo hi a = true → (128 <= lo)%Z → between 0 127 a = false.
Proof.
  unfold between. rewrite bool_decide_eq_true, bool_decide_eq_false. lia.
Qed.

Lemma utf8_rune_high s r t :
  utf8_rune s = Some (r, t) → (∃ a, r = [a] ∧ between 0 127 a = true) ∨
  Forall (λ c, between 0 127 c = false) r.
Proof.
  unfold utf8_rune, cont. intros H.
  repeat match type of H with
  | context [match ?x with _ => _ end] => destruct x eqn:?; try discriminate H
  end; injection H as <- <-; [left; by eexists|right..];
  repeat match goal with E : (_ && _) = true |- _ => apply andb_true_iff in E as [? ?] end;
  repeat constructor; try done; (eapply between_low; [eassumption|]); try case_decide; lia.
Qed.

(** Cutting at an ASCII character. *)
Lemma Valid_cut a c b :
  between 0 127 c = true → Valid (a ++ c :: b) → Valid a ∧ Valid (c :: b).
Proof.
  intros Hc Hv. remember (a ++ c :: b) as s eqn:Hs. revert a Hs.
  induction Hv as [|s r t Hr Ht IH]; intros a Heq; [by destruct a|]. subst s.
  destruct a as [|x a]; [split; [constructor|by eapply Valid_rune]|].
  destruct (utf8_rune_Some _ _ _ Hr) as (Hs & Hne & Hr' & _). pose proof (utf8_rune_high _ _ _ Hr) as Hh.
  symmetry in Hs. apply app_eq_app in Hs as (u & [[-> Hu]|[Hu' Hu]]).
  2: { rewrite Hu'. destruct (IH u) as [Ha Hb]; [done|]. split; [|done].
    eapply Valid_rune; [apply Hr'|done]. }
  - destruct u as [|y u].
    { cbn in Hu. subst t. split; [|done].
      eapply Valid_rune; [|constructor]. specialize (Hr' []). by rewrite !app_nil_r in Hr'. }
    injection Hu as <- ->. exfalso. clear IH Hr Hr' Ht. destruct Hh as [(z & Hz & _)|Hh].
    + by destruct a.
    + apply Forall_app in Hh as [_ Hh]. inversion Hh as [|? ? Hy _]. congruence.
Qed.

Lemma Valid_cons c s : between 0 127 c = true → Valid (c :: s) ↔ Valid s.
Proof.
  intros Hc. split.
  - inversion 1 as [|? r t Hr Ht]; subst. rewrite utf8_rune_ascii in Hr by done.
    by injection Hr as <- <-.
  - intros Hs. eapply Valid_rune; [by apply utf8_rune_ascii|done].
Qed.

(** ** What [parse_string] emits *)

Lemma between_z2b lo hi z :
  (0 <= z < 256)%Z → between lo hi (z2b z) = bool_decide (lo <= z <= hi)%Z.
Proof. intros. unfold between. by rewrite b2z_z2b_small. Qed.

Lemma z2b_is z c : (0 <= z < 256)%Z → z2b z = c ↔ z = b2z c.
Proof.
  intros Hz. split; [|intros ->; apply z2b_b2z].
  intros <-. by rewrite b2z_z2b_small.
Qed.

Ltac div_lia := Z.to_euclidean_division_equations; lia.

Ltac rune_bytes :=
  repeat (rewrite between_z2b by div_lia);
  repeat first [ rewrite bool_decide_eq_false_2 by div_lia
               | rewrite bool_decide_eq_true_2 by div_lia ];
  try reflexivity.

(** The bounds of the second byte. *)
Ltac second_byte :=
  repeat case_decide;
  repeat match goal with E : z2b _ = _ |- _ => apply z2b_is in E; [|div_lia]; cbn in E end;
  repeat match goal with E : z2b _ ≠ ?c |- _ => rewrite (z2b_is _ c) in E by div_lia; cbn in E end;
  div_lia.

Lemma Valid_encode_rune r :
  (0 <= r <= 1114111)%Z → surrogate r = false → Valid (encode_rune r).
Proof.
  intros Hr Hs. unfold surrogate in Hs. apply bool_decide_eq_false in Hs.
  unfold encode_rune.
  assert (Hone : ∀ s, utf8_rune s = Some (s, []) → Valid s)
    by (intros s H; eapply Valid_rune; [apply H|constructor]).
  repeat case_decide; apply Hone; unfold utf8_rune, cont.
  - rune_bytes.
  - rune_bytes.
  - set (lo := if decide (_ = xe0) then _ else _). set (hi := if decide (_ = xed) then _ else _).
    assert (Hb : (lo <= 128 + r / 64 mod 64 <= hi)%Z) by (unfold lo, hi; second_byte).
    clearbody lo hi. rune_bytes.
  - set (lo := if decide (_ = xf0) then _ else _). set (hi := if decide (_ = xf4) then _ else _).
    assert (Hb : (lo <= 128 + r / 4096 mod 64 <= hi)%Z) by (unfold lo, hi; second_byte).
    clearbody lo hi. rune_bytes.
Qed.

Lemma hexval_range c v : hexval c = Some v → (0 <= v < 16)%Z.
Proof.
  unfold hexval. intros H. repeat case_match; try done; injection H as <-; lia.
Qed.

Lemma hex4_range a b c d v : hex4 a b c d = Some v → (0 <= v < 65536)%Z.
Proof.
  unfold hex4. intros H.
  apply bind_Some in H as (w & Hw%hexval_range & H). apply bind_Some in H as (x & Hx%hexval_range & H).
  apply bind_Some in H as (y & Hy%hexval_range & H). apply bind_Some in H as (z & Hz%hexval_range & [= <-]).
  lia.
Qed.

Lemma Valid_replacement : Valid replacement.
Proof. eapply Valid_rune; [reflexivity|constructor]. Qed.

Lemma Valid_hex a b c d r : hex4 a b c d = Some r → surrogate r = false → Valid (encode_rune r).
Proof. intros H%hex4_range Hs. apply Valid_encode_rune; [lia|done]. Qed.

Lemma Valid_pair r r2 p : surrogate_pair r r2 = Some p → Valid (encode_rune p).
Proof.
  unfold surrogate_pair. case_decide as Hr; [|done]. intros [= <-].
  apply Valid_encode_rune; [lia|]. unfold surrogate. apply bool_decide_eq_false. lia.
Qed.

Lemma string_turn_Valid s bs rest : string_turn s = Some (Some bs, rest) → Valid bs.
Proof.
  unfold string_turn. destruct s as [|c s]; [done|]. intros H.
  assert (Hu : ∀ r t, utf8_rune (c :: s) = Some (r, t) → Valid r).
  { intros r t (_ & _ & Hr & _)%utf8_rune_Some. specialize (Hr []). rewrite app_nil_r in Hr.
    eapply Valid_rune; [apply Hr|constructor]. }
  assert (Hone : ∀ x, between 0 127 x = true → Valid [x]) by (intros; apply Valid_ascii; by constructor).
  destruct (decide (c = bslash)) as [->|Hc].
  - clear Hu. destruct s as [|e s]; [done|].
    destruct (decide (e = x75)) as [->|He].
    2:{ destruct e; first [discriminate H|congruence|injection H as <- _; apply Hone; reflexivity]. }
    destruct s as [|w [|x [|y [|z s]]]]; try done. destruct (hex4 w x y z) as [r|] eqn:Hr; [|done].
    cbn in H. destruct (surrogate r) eqn:Hs; [|injection H as <- _; by eapply Valid_hex].
    destruct (second_escape s) as [[r2 rest2]|]; [|injection H as <- _; apply Valid_replacement].
    destruct (surrogate_pair r r2) eqn:Hp; injection H as <- _; [by eapply Valid_pair|apply Valid_replacement].
  - destruct (decide (c = dquote)) as [->|Hd]; [done|].
    assert (H' : (if between 0 31 c then None
                  else match utf8_rune (c :: s) with
                       | Some (r, rest) => Some (Some r, rest)
                       | None => Some (Some replacement, s) end) = Some (Some bs, rest)).
    { rewrite <- H. clear -Hc Hd. destruct (utf8_rune (c :: s)); destruct c; first [done|congruence]. }
    destruct (between 0 31 c); [done|].
    destruct (utf8_rune (c :: s)) as [[r t]|]; injection H' as <- _; [by eapply Hu|apply Valid_replacement].
Qed.

Lemma parse_string_Valid fuel : ∀ s v r, parse_string fuel s = Some (v, r) → Valid v.
Proof.
  induction fuel as [|fuel IH]; intros s v r H; [done|]. rewrite parse_string_turn in H.
  destruct (string_turn s) as [[[bs|] t]|] eqn:Ht; [|injection H as <- _; constructor|done].
  apply bind_Some in H as ([v' r'] & Hp & [= <- <-]).
  apply Valid_app; [by eapply string_turn_Valid|by eapply IH].
Qed.

(** ** Values *)

(** Every string that is a value is valid. *)
Fixpoint strings_ok (j : json) : Prop :=
  match j with
  | JStr s => Valid s
  | JArr l => (fix go l := match l with [] => True | j :: l => strings_ok j ∧ go l end) l
  | JObj m => (fix go m := match m with [] => True | km :: m => strings_ok (snd km) ∧ go m end) m
  | _ => True
  end.

Lemma strings_ok_arr l : strings_ok (JArr l) ↔ Forall strings_ok l.
Proof. induction l as [|j l IH]; [done|]. by rewrite Forall_cons, <- IH. Qed.

Lemma strings_ok_obj m : strings_ok (JObj m) ↔ Forall (λ km, strings_ok (snd km)) m.
Proof. induction m as [|j m IH]; [done|]. by rewrite Forall_cons, <- IH. Qed.

Lemma parse_strings_ok fuel :
  (∀ dp s j r, parse_value fuel dp s = Some (j, r) → strings_ok j) ∧
  (∀ dp s l r, parse_elems fuel dp s = Some (l, r) → Forall strings_ok l) ∧
  (∀ dp s m r, parse_members fuel dp s = Some (m, r) → Forall (λ km, strings_ok (snd km)) m).
Proof.
  induction fuel as [|fuel (IHv & IHe & IHm)]; [done|]. split_and!; intros dp s x r H.
  - rewrite parse_value_body in H. destruct (skip_ws s) as [|c t]; [done|].
    unfold value_body in H. destruct (tok c) as [| | |lit j|] eqn:Ht.
    + destruct dp as [|dp]; [done|]. case_decide; [by injection H as <- _|].
      apply bind_Some in H as ([m u] & Hm & [= <- _]). apply strings_ok_obj. by eapply IHm.
    + destruct dp as [|dp]; [done|]. case_decide; [by injection H as <- _|].
      apply bind_Some in H as ([l u] & Hl & [= <- _]). apply strings_ok_arr. by eapply IHe.
    + apply bind_Some in H as ([v u] & Hv & [= <- _]). by eapply parse_string_Valid.
    + unfold literal in H. case_decide; [|done]. injection H as <- _.
      destruct c; try discriminate Ht; by injection Ht as _ <-.
    + by apply bind_Some in H as ([v u] & Hv & [= <- _]).
  - rewrite parse_elems_body in H. apply bind_Some in H as ([j t] & Hj%IHv & H).
    case_decide; [|case_decide; [|done]].
    + apply bind_Some in H as ([l u] & Hl%IHe & [= <- _]). by constructor.
    + injection H as <- _. by constructor.
  - rewrite parse_members_body in H. unfold members_body in H. case_decide; [|done].
    apply bind_Some in H as ([k t] & _ & H). case_decide; [|done].
    apply bind_Some in H as ([j u] & Hj%IHv & H). case_decide; [|case_decide; [|done]].
    + apply bind_Some in H as ([m w] & Hm%IHm & [= <- _]). by constructor.
    + injection H as <- _. by constructor.
Qed.

Lemma parse_json_strings_ok s j : parse_json s = Some j → strings_ok j.
Proof.
  unfold parse_json. intros H. apply bind_Some in H as ([j' rest] & Hp & H).
  destruct (skip_ws rest); [|done]. injection H as <-.
  by apply (parse_strings_ok (S (2 * length s))) in Hp.
Qed.
