(* ===== verification/JsonDecode.v ===== *)
(** * Decoding JSON values into Go types, as encoding/json does

    A decoder takes the value and what the variable holds, and says what it holds
    afterwards; [None] is a type error, after which the program uses nothing of the
    result.  Struct fields are found by their exact name, or else up to case. *)

From Stdlib Require Import Init.Byte.
From S2P Require Import Prelude GoNet Json.

Notation decoder A := (json → A → option A).

(** [null] leaves strings, numbers and structs alone. *)
Definition dec_string : decoder gostring := λ j old,
  match j with JStr s => Some s | JNull => Some old | _ => None end.

(** An [int]: the literal is parsed by [strconv.ParseInt]; a fraction, an exponent or a
    value out of range is an error. *)
Definition dec_int : decoder Z := λ j old,
  match j with JNum lit => atoi lit | JNull => Some old | _ => None end.

(** ** Structs *)

(** [foldName]: upper case; the two other letters that fold to ASCII ones are the long
    s and the Kelvin sign. *)
Fixpoint fold_name (s : gostring) : gostring :=
  match s with
  | [] => []
  | xc5 :: xbf :: s => x53 :: fold_name s
  | xe2 :: x84 :: xaa :: s => x4b :: fold_name s
  | c :: s => (if between 97 122 c then z2b (b2z c - 32) else c) :: fold_name s
  end.

Section struct.
  Context {S : Type}.

Fixpoint exact_field (fields : list (gostring * decoder S)) (key : gostring) : option (decoder S) :=
  match fields with
  | [] => None
  | (name, d) :: fields => if decide (name = key) then Some d else exact_field fields key
  end.

Fixpoint folded_field (fields : list (gostring * decoder S)) (key : gostring) : option (decoder S) :=
  match fields with
  | [] => None
  | (name, d) :: fields =>
      if decide (fold_name name = fold_name key) then Some d else folded_field fields key
  end.

Definition find_field (fields : list (gostring * decoder S)) (key : gostring) : option (decoder S) :=
  match exact_field fields key with
  | Some d => Some d
  | None => folded_field fields key
  end.

(** The members in order; unknown ones are skipped, later ones decode over earlier
    ones. *)
Fixpoint dec_members (fields : list (gostring * decoder S)) (m : list (gostring * json)) (old : S)
    : option S :=
  match m with
  | [] => Some old
  | (key, j) :: m =>
      s ← match find_field fields key with Some d => d j old | None => Some old end;
      dec_members fields m s
  end.

Definition dec_struct (fields : list (gostring * decoder S)) : decoder S := λ j old,
  match j with JObj m => dec_members fields m old | JNull => Some old | _ => None end.
End struct.

(** ** Slices *)

(** [elems]: [None] for a nil slice; [beyond]: what the array behind it holds after its
    last element. *)
Record slice (A : Type) := Slice { elems : option (list A); beyond : list A }.
Arguments Slice {_} _ _.
Arguments elems {_} _.
Arguments beyond {_} _.

Definition nil_slice {A} : slice A := Slice None [].

(** An element is decoded over what its place in the array holds. *)
Fixpoint dec_elems {A} (dec : decoder A) (zero : A) (l : list json) (old : list A) : option (list A) :=
  match l with
  | [] => Some []
  | j :: l => a ← dec j (default zero (head old)); r ← dec_elems dec zero l (tail old); Some (a :: r)
  end.

Definition dec_slice {A} (dec : decoder A) (zero : A) : decoder (slice A) := λ j old,
  match j with
  | JNull => Some nil_slice
  | JArr [] => Some (Slice (Some []) [])
  | JArr l =>
      let backing := default [] (elems old) ++ beyond old in
      r ← dec_elems dec zero l backing;
      Some (Slice (Some r) (drop (length l) backing))
  | _ => None
  end.

(** [json.Unmarshal(text, &v)] of a zero [v]. *)
Definition Unmarshal {A} (dec : decoder A) (zero : A) (text : list byte) : option A :=
  j ← parse_json text; dec j zero.
