(* ===== verification/JsonDecodeFacts.v ===== *)
(** * What decoding gives, and that integers survive it

    [int] values in decimal are number literals that decode to themselves.  A decoder
    [preserves] a property of what the variable holds if every value read from a text
    keeps it: strings are valid UTF-8, integers have 64 bits. *)

From Stdlib Require Import Init.Byte.
From S2P Require Import Prelude GoNet GoNetFacts Json JsonFacts JsonFuel JsonStrings JsonDecode.

(** ** Integers *)

Definition int64 (z : Z) : Prop := (- 2 ^ 63 <= z < 2 ^ 63)%Z.

Lemma int_lit_itoa z : (0 <= z)%Z → int_lit (itoa z).
Proof.
  intros Hz. split_and!; [by apply itoa_digits|by apply itoa_nonempty|by apply itoa_no_zero].
Qed.

Lemma itoa_neg z : (z < 0)%Z → itoa z = minus :: itoa (- z).
Proof.
  intros Hz. unfold itoa at 1. rewrite decide_True by done.
  by rewrite (itoa_nonneg (- z)), Z.abs_neq by lia.
Qed.

Lemma json_ok_int z : json_ok (JNum (itoa z)).
Proof.
  cbn. destruct (decide (z < 0)%Z).
  - exists [minus], (itoa (- z)). rewrite itoa_neg by done. split_and!; [done|by right|].
    apply int_lit_itoa. lia.
  - exists [], (itoa z). split_and!; [done|by left|]. apply int_lit_itoa. lia.
Qed.

Lemma atoi_itoa_int64 z : int64 z → atoi (itoa z) = Some z.
Proof.
  intros Hz. unfold int64 in Hz. destruct (decide (z < 0)%Z); [|apply atoi_itoa; lia].
  rewrite itoa_neg by done. unfold atoi.
  pose proof (itoa_nonempty (- z) ltac:(lia)). pose proof (scan_dec_itoa (- z) ltac:(lia)) as Hs.
  destruct (itoa (- z)) as [|c s]; [done|]. rewrite Hs. cbn [mbind option_bind]. cbv zeta.
  rewrite decide_True by lia. f_equal. lia.
Qed.

Lemma atoi_range s z : atoi s = Some z → int64 z.
Proof.
  unfold atoi. destruct (match s with x2d :: _ => _ | _ => _ end) as [neg [|c ds]]; [done|].
  intros H. apply bind_Some in H as (n & _ & H). cbv zeta in H. case_decide; [|done].
  by injection H as <-.
Qed.

Lemma dec_ints ports : Forall int64 ports → dec_elems dec_int 0%Z (map (λ p, JNum (itoa p)) ports) [] = Some ports.
Proof.
  induction 1 as [|p ports Hp _ IH]; [done|]. cbn [map dec_elems dec_int].
  rewrite atoi_itoa_int64 by done. cbn. by rewrite IH.
Qed.

(** ** What decoders preserve *)

Definition preserves {A} (P : A → Prop) (dec : decoder A) : Prop :=
  ∀ j old new, strings_ok j → P old → dec j old = Some new → P new.

Lemma preserves_string : preserves Valid dec_string.
Proof. intros [] old new Hj Hold H; try done; injection H as <-; done. Qed.

Lemma preserves_int : preserves int64 dec_int.
Proof. intros [] old new Hj Hold H; try done; [by injection H as <-|by eapply atoi_range]. Qed.

Section struct.
  Context {S : Type} (P : S → Prop).

Lemma find_field_preserves fields key d :
  Forall (λ nd, preserves P (snd nd)) fields → find_field fields key = Some d → preserves P d.
Proof.
  intros Hall. unfold find_field.
  assert (He : exact_field fields key = Some d → preserves P d).
  { induction Hall as [|[n d'] fields Hd _ IH]; [done|]. cbn. case_decide; [|done]. by intros [= <-]. }
  assert (Hf : folded_field fields key = Some d → preserves P d).
  { clear He. induction Hall as [|[n d'] fields Hd _ IH]; [done|]. cbn. case_decide; [|done]. by intros [= <-]. }
  destruct (exact_field fields key); [|done]. intros [= ->]. by apply He.
Qed.

Lemma preserves_struct fields :
  Forall (λ nd, preserves P (snd nd)) fields → preserves P (dec_struct fields).
Proof.
  intros Hall [] old new Hj Hold H; try done; [by injection H as <-|].
  cbn in H. apply strings_ok_obj in Hj. revert old Hold H.
  induction Hj as [|[k j] m Hj _ IH]; intros old Hold H; [by injection H as <-|].
  cbn [dec_members] in H. apply bind_Some in H as (s & Hs & H). eapply IH; [|done].
  destruct (find_field fields k) as [d|] eqn:Hd; [|by injection Hs as <-].
  apply find_field_preserves in Hd; [|done]. by eapply Hd.
Qed.
End struct.

Definition slice_all {A} (P : A → Prop) (s : slice A) : Prop :=
  Forall P (default [] (elems s)) ∧ Forall P (beyond s).

Lemma preserves_slice {A} (P : A → Prop) dec zero :
  P zero → preserves P dec → preserves (slice_all P) (dec_slice dec zero).
Proof.
  intros Hz Hd [|b|lit|s|l|m] old new Hj [He Hb] H; try done.
  { by injection H as <-. }
  apply strings_ok_arr in Hj. cbn [dec_slice] in H.
  destruct l as [|j l]; [by injection H as <-|].
  set (backing := default [] (elems old) ++ beyond old) in H.
  assert (Hback : Forall P backing) by by apply Forall_app.
  apply bind_Some in H as (r & Hr & [= <-]). split; [|by apply Forall_drop]. cbn [elems default].
  change (Forall P r). clearbody backing. clear He Hb. revert backing r Hback Hr.
  induction Hj as [|j' l' Hj' _ IH]; intros backing r Hback Hr; [by injection Hr as <-|].
  cbn [dec_elems] in Hr. apply bind_Some in Hr as (a & Ha & Hr).
  apply bind_Some in Hr as (r' & Hr' & [= <-]). constructor.
  - eapply Hd; [done| |exact Ha]. by destruct Hback.
  - eapply IH; [|exact Hr']. by destruct Hback.
Qed.

Lemma Unmarshal_preserves {A} (P : A → Prop) dec zero text v :
  P zero → preserves P dec → Unmarshal dec zero text = Some v → P v.
Proof.
  unfold Unmarshal. intros Hz Hd H. apply bind_Some in H as (j & Hj%parse_json_strings_ok & H).
  by eapply Hd.
Qed.
