(* ===== verification/Registration.v ===== *)
(** * The registration (src/registration/registration.go)

    The keys' encodings, [Register]'s two API calls, the state file ([Save], [Load]),
    [DeleteRegistration], and the pin of the edge's public key.  The formats (base64,
    JSON, [SplitHostPort]) are modelled in [GoText], [Json], [JsonDecode] and [GoNet];
    keys and certificates with their DER and PEM encodings are a class, and what the
    API and the file system answer is a parameter. *)

From Stdlib Require Import Init.Byte.
From S2P Require Import Prelude GoNet GoText Json JsonDecode.

(** ** Keys and certificates

    [crypto/ecdsa], [crypto/x509], [encoding/pem] and [curve25519].  Where a parser can return a key
    of another type than ECDSA the result is [Some None].  The laws are the encoders'
    contracts: what they write is not empty, and the
    parsers read it back. *)
Class Crypto := {
  PrivateKey : Type;
  PublicKey : Type;
  Certificate : Type;
  Equal :: EqDecision PublicKey;
  Public : PrivateKey → PublicKey;
  GenerateKey : nat → option PrivateKey;
  MarshalPKIXPublicKey : PublicKey → option (list byte);
  ParsePKIXPublicKey : list byte → option (option PublicKey);
  MarshalECPrivateKey : PrivateKey → option (list byte);
  ParseECPrivateKey : list byte → option PrivateKey;
  ParsePKCS8PrivateKey : list byte → option (option PrivateKey);
  pem_Decode : gostring → option (list byte);
  (** self-signed, for a common name, with the key; the clock and the randomness of the
      signature are the number *)
  CreateCertificate : nat → gostring → PrivateKey → option Certificate;
  (** the public key of a parsed certificate *)
  ParseCertificate : list byte → option (option PublicKey);
  (** [curve25519.X25519] with the base point *)
  X25519_base : list byte → option (list byte);
  Parse_MarshalPKIX k der : MarshalPKIXPublicKey k = Some der → ParsePKIXPublicKey der = Some (Some k);
  Marshal_nonempty k der : MarshalPKIXPublicKey k = Some der → der ≠ [];
  Parse_MarshalEC k der : MarshalECPrivateKey k = Some der → ParseECPrivateKey der = Some k
}.

(** HTTP requests, as the program builds them. *)
Record request := {
  Method : gostring; URL : gostring; Header : list (gostring * gostring); Body : gostring
}.

#[export] Instance request_eq_dec : EqDecision request.
Proof. solve_decision. Defined.

(** What deleting does: a request sent, and the attempt to remove the file. *)
Inductive delete_event := Sent (req : request) | Removing.

#[export] Instance delete_event_eq_dec : EqDecision delete_event.
Proof. solve_decision. Defined.

Section registration.
  Context `{crypto : Crypto}.

Inductive key_error := BadBase64 | BadDER | NotECDSA | BadPEM | MarshalFailed.

Definition of_option {E A} (o : option A) (e : E) : outcome E A :=
  match o with Some a => Ok a | None => Err e end.

Definition publicKeyToBase64 (pub : PublicKey) : outcome key_error gostring :=
  der ← of_option (MarshalPKIXPublicKey pub) MarshalFailed; Ok (EncodeToString der).

Definition privateKeyToBase64 (key : PrivateKey) : outcome key_error gostring :=
  der ← of_option (MarshalECPrivateKey key) MarshalFailed; Ok (EncodeToString der).

Definition publicKeyFromDER (der : list byte) : outcome key_error PublicKey :=
  parsed ← of_option (ParsePKIXPublicKey der) BadDER; of_option parsed NotECDSA.

Definition decodePublicKey (s : gostring) : outcome key_error PublicKey :=
  der ← of_option (DecodeString (TrimSpace s)) BadBase64; publicKeyFromDER der.

Definition pemPublicKeyToBase64 (s : gostring) : outcome key_error gostring :=
  block ← of_option (pem_Decode s) BadPEM;
  pub ← publicKeyFromDER block;
  publicKeyToBase64 pub.

Definition decodePrivateKey (s : gostring) : outcome key_error PrivateKey :=
  der ← of_option (DecodeString (TrimSpace s)) BadBase64;
  match ParseECPrivateKey der with
  | Some key => Ok key
  | None => parsed ← of_option (ParsePKCS8PrivateKey der) BadDER; of_option parsed NotECDSA
  end.

Definition buildClientCert (now : nat) (regID : gostring) (privKey : PrivateKey)
    : outcome key_error Certificate :=
  of_option (CreateCertificate now (regID ++ str ".masque2.cloudflareclient.com") privKey) MarshalFailed.

(** ** The data *)

(** [None] is a nil pointer, a nil slice, or a zero certificate. *)
Record Registration := {
  ID : gostring; Token : gostring; Account : gostring; KeyType : gostring; TunnelType : gostring;
  PrivateKeyB64 : gostring; PublicKeyB64 : gostring;
  PrivKey : option PrivateKey; PubKey : option PublicKey; ClientCert : option Certificate;
  EndpointV4 : gostring; EndpointV6 : gostring; EndpointPorts : slice Z;
  PeerPublicKey : gostring; AssignedIPv4 : gostring; AssignedIPv6 : gostring
}.

(** The value [MarshalIndent] writes: the fields in order, without the two keys if they
    are empty. *)
Definition registration_json (r : Registration) : json :=
  JObj (
    [(str "id", JStr (ID r)); (str "token", JStr (Token r)); (str "account", JStr (Account r));
     (str "key_type", JStr (KeyType r)); (str "tunnel_type", JStr (TunnelType r))] ++
    (if decide (PrivateKeyB64 r = []) then [] else [(str "private_key", JStr (PrivateKeyB64 r))]) ++
    (if decide (PublicKeyB64 r = []) then [] else [(str "public_key", JStr (PublicKeyB64 r))]) ++
    [(str "endpoint_v4", JStr (EndpointV4 r)); (str "endpoint_v6", JStr (EndpointV6 r));
     (str "endpoint_ports",
      match elems (EndpointPorts r) with
      | None => JNull
      | Some ports => JArr (map (λ p, JNum (itoa p)) ports)
      end);
     (str "peer_public_key", JStr (PeerPublicKey r));
     (str "assigned_ipv4", JStr (AssignedIPv4 r)); (str "assigned_ipv6", JStr (AssignedIPv6 r))]).

(** The part of a registration that is in the file. *)
Record file_fields := {
  f_id : gostring; f_token : gostring; f_account : gostring; f_key_type : gostring;
  f_tunnel_type : gostring; f_private_key : gostring; f_public_key : gostring;
  f_endpoint_v4 : gostring; f_endpoint_v6 : gostring; f_endpoint_ports : slice Z;
  f_peer_public_key : gostring; f_assigned_ipv4 : gostring; f_assigned_ipv6 : gostring
}.

Definition no_fields : file_fields := Build_file_fields [] [] [] [] [] [] [] [] [] nil_slice [] [] [].

Definition on_field {S A} (dec : decoder A) (get : S → A) (put : A → S → S) : decoder S := λ j s,
  v ← dec j (get s); Some (put v s).

Notation on_string := (on_field dec_string).

Definition dec_registration : decoder file_fields :=
  dec_struct [
    (str "id", on_string f_id (λ v '(Build_file_fields _ a2 a3 a4 a5 a6 a7 a8 a9 a10 a11 a12 a13),
       Build_file_fields v a2 a3 a4 a5 a6 a7 a8 a9 a10 a11 a12 a13));
    (str "token", on_string f_token (λ v '(Build_file_fields a1 _ a3 a4 a5 a6 a7 a8 a9 a10 a11 a12 a13),
       Build_file_fields a1 v a3 a4 a5 a6 a7 a8 a9 a10 a11 a12 a13));
    (str "account", on_string f_account (λ v '(Build_file_fields a1 a2 _ a4 a5 a6 a7 a8 a9 a10 a11 a12 a13),
       Build_file_fields a1 a2 v a4 a5 a6 a7 a8 a9 a10 a11 a12 a13));
    (str "key_type", on_string f_key_type (λ v '(Build_file_fields a1 a2 a3 _ a5 a6 a7 a8 a9 a10 a11 a12 a13),
       Build_file_fields a1 a2 a3 v a5 a6 a7 a8 a9 a10 a11 a12 a13));
    (str "tunnel_type", on_string f_tunnel_type (λ v '(Build_file_fields a1 a2 a3 a4 _ a6 a7 a8 a9 a10 a11 a12 a13),
       Build_file_fields a1 a2 a3 a4 v a6 a7 a8 a9 a10 a11 a12 a13));
    (str "private_key", on_string f_private_key (λ v '(Build_file_fields a1 a2 a3 a4 a5 _ a7 a8 a9 a10 a11 a12 a13),
       Build_file_fields a1 a2 a3 a4 a5 v a7 a8 a9 a10 a11 a12 a13));
    (str "public_key", on_string f_public_key (λ v '(Build_file_fields a1 a2 a3 a4 a5 a6 _ a8 a9 a10 a11 a12 a13),
       Build_file_fields a1 a2 a3 a4 a5 a6 v a8 a9 a10 a11 a12 a13));
    (str "endpoint_v4", on_string f_endpoint_v4 (λ v '(Build_file_fields a1 a2 a3 a4 a5 a6 a7 _ a9 a10 a11 a12 a13),
       Build_file_fields a1 a2 a3 a4 a5 a6 a7 v a9 a10 a11 a12 a13));
    (str "endpoint_v6", on_string f_endpoint_v6 (λ v '(Build_file_fields a1 a2 a3 a4 a5 a6 a7 a8 _ a10 a11 a12 a13),
       Build_file_fields a1 a2 a3 a4 a5 a6 a7 a8 v a10 a11 a12 a13));
    (str "endpoint_ports", on_field (dec_slice dec_int 0%Z) f_endpoint_ports
       (λ v '(Build_file_fields a1 a2 a3 a4 a5 a6 a7 a8 a9 _ a11 a12 a13),
       Build_file_fields a1 a2 a3 a4 a5 a6 a7 a8 a9 v a11 a12 a13));
    (str "peer_public_key", on_string f_peer_public_key (λ v '(Build_file_fields a1 a2 a3 a4 a5 a6 a7 a8 a9 a10 _ a12 a13),
       Build_file_fields a1 a2 a3 a4 a5 a6 a7 a8 a9 a10 v a12 a13));
    (str "assigned_ipv4", on_string f_assigned_ipv4 (λ v '(Build_file_fields a1 a2 a3 a4 a5 a6 a7 a8 a9 a10 a11 _ a13),
       Build_file_fields a1 a2 a3 a4 a5 a6 a7 a8 a9 a10 a11 v a13));
    (str "assigned_ipv6", on_string f_assigned_ipv6 (λ v '(Build_file_fields a1 a2 a3 a4 a5 a6 a7 a8 a9 a10 a11 a12 _),
       Build_file_fields a1 a2 a3 a4 a5 a6 a7 a8 a9 a10 a11 a12 v))
  ].

(** ** The state file *)

(** What [Save] gives [os.WriteFile]; marshalling strings and integers cannot fail. *)
Definition Save (r : Registration) : list byte := MarshalIndent (registration_json r).

Inductive read_result := Read (data : list byte) | NoSuchFile | ReadError.

Inductive load_error := FileMissing | FileUnreadable | BadJSON | BadPrivateKey (e : key_error)
  | BadCert (e : key_error).

Definition Load (now : nat) (file : read_result) : outcome load_error Registration :=
  match file with
  | NoSuchFile => Err FileMissing
  | ReadError => Err FileUnreadable
  | Read data =>
      f ← of_option (Unmarshal dec_registration no_fields data) BadJSON;
      privKey ← err_map BadPrivateKey (decodePrivateKey (f_private_key f));
      clientCert ← err_map BadCert (buildClientCert now (f_id f) privKey);
      Ok {| ID := f_id f; Token := f_token f; Account := f_account f; KeyType := f_key_type f;
            TunnelType := f_tunnel_type f; PrivateKeyB64 := f_private_key f;
            PublicKeyB64 := f_public_key f; PrivKey := Some privKey; PubKey := Some (Public privKey);
            ClientCert := Some clientCert; EndpointV4 := f_endpoint_v4 f;
            EndpointV6 := f_endpoint_v6 f; EndpointPorts := f_endpoint_ports f;
            PeerPublicKey := f_peer_public_key f; AssignedIPv4 := f_assigned_ipv4 f;
            AssignedIPv6 := f_assigned_ipv6 f |}
  end.

(** ** The pin *)

Inductive pin_error := NoCertificate | BadCertificate | CertNotECDSA | KeyMismatch.

(** The [VerifyPeerCertificate] callback, on the raw certificates of the chain. *)
Definition verify_peer (expected : PublicKey) (rawCerts : list (list byte)) : outcome pin_error unit :=
  match rawCerts with
  | [] => Err NoCertificate
  | raw :: _ =>
      parsed ← of_option (ParseCertificate raw) BadCertificate;
      got ← of_option parsed CertNotECDSA;
      require (bool_decide (got = expected)) KeyMismatch
  end.

(** [None]: there is no key to pin. *)
Definition PeerPublicKeyVerifier (r : Registration)
    : outcome key_error (option (list (list byte) → outcome pin_error unit)) :=
  if decide (PeerPublicKey r = []) then Ok None
  else expected ← decodePublicKey (PeerPublicKey r); Ok (Some (verify_peer expected)).

(** ** Register *)

(** The answer to the first call. *)
Record reg_result := {
  r_id : gostring; r_token : gostring; r_key_type : gostring; r_tunnel_type : gostring;
  r_account : gostring
}.

Definition dec_reg_result : decoder reg_result :=
  dec_struct [
    (str "id", on_string r_id (λ v '(Build_reg_result _ b c d e), Build_reg_result v b c d e));
    (str "token", on_string r_token (λ v '(Build_reg_result a _ c d e), Build_reg_result a v c d e));
    (str "key_type", on_string r_key_type (λ v '(Build_reg_result a b _ d e), Build_reg_result a b v d e));
    (str "tunnel_type", on_string r_tunnel_type
       (λ v '(Build_reg_result a b c _ e), Build_reg_result a b c v e));
    (str "account", dec_struct [
       (str "id", on_string r_account (λ v '(Build_reg_result a b c d _), Build_reg_result a b c d v))])
  ].

(** The answer to the second call. *)
Record endpoint := { ep_v4 : gostring; ep_v6 : gostring; ep_host : gostring; ep_ports : slice Z }.
Record peer := { p_public_key : gostring; p_endpoint : endpoint }.
Record enroll_result := {
  e_id : gostring; e_token : gostring; e_key_type : gostring; e_tunnel_type : gostring;
  e_account : gostring; e_peers : slice peer; e_v4 : gostring; e_v6 : gostring
}.

Definition no_endpoint : endpoint := Build_endpoint [] [] [] nil_slice.
Definition no_peer : peer := Build_peer [] no_endpoint.

Definition dec_endpoint : decoder endpoint :=
  dec_struct [
    (str "v4", on_string ep_v4 (λ v '(Build_endpoint _ b c d), Build_endpoint v b c d));
    (str "v6", on_string ep_v6 (λ v '(Build_endpoint a _ c d), Build_endpoint a v c d));
    (str "host", on_string ep_host (λ v '(Build_endpoint a b _ d), Build_endpoint a b v d));
    (str "ports", on_field (dec_slice dec_int 0%Z) ep_ports
       (λ v '(Build_endpoint a b c _), Build_endpoint a b c v))
  ].

Definition dec_peer : decoder peer :=
  dec_struct [
    (str "public_key", on_string p_public_key (λ v '(Build_peer _ b), Build_peer v b));
    (str "endpoint", on_field dec_endpoint p_endpoint (λ v '(Build_peer a _), Build_peer a v))
  ].

Definition dec_enroll_result : decoder enroll_result :=
  dec_struct [
    (str "id", on_string e_id
       (λ v '(Build_enroll_result _ b c d e f g h), Build_enroll_result v b c d e f g h));
    (str "token", on_string e_token
       (λ v '(Build_enroll_result a _ c d e f g h), Build_enroll_result a v c d e f g h));
    (str "key_type", on_string e_key_type
       (λ v '(Build_enroll_result a b _ d e f g h), Build_enroll_result a b v d e f g h));
    (str "tunnel_type", on_string e_tunnel_type
       (λ v '(Build_enroll_result a b c _ e f g h), Build_enroll_result a b c v e f g h));
    (str "account", dec_struct [
       (str "id", on_string e_account
          (λ v '(Build_enroll_result a b c d _ f g h), Build_enroll_result a b c d v f g h))]);
    (str "config", dec_struct [
       (str "peers", on_field (dec_slice dec_peer no_peer) e_peers
          (λ v '(Build_enroll_result a b c d e _ g h), Build_enroll_result a b c d e v g h));
       (str "interface", dec_struct [
          (str "addresses", dec_struct [
             (str "v4", on_string e_v4
                (λ v '(Build_enroll_result a b c d e f _ h), Build_enroll_result a b c d e f v h));
             (str "v6", on_string e_v6
                (λ v '(Build_enroll_result a b c d e f g _), Build_enroll_result a b c d e f g v))])])])
  ].

(** [{"result": {...}}] *)
Definition dec_wrapper {A} (dec : decoder A) : decoder A := dec_struct [(str "result", dec)].

Definition no_reg_result : reg_result := Build_reg_result [] [] [] [] [].
Definition no_enroll_result : enroll_result := Build_enroll_result [] [] [] [] [] nil_slice [] [].

(** *** Requests and answers *)

(** [http.NewRequest] refuses the address; [Do] fails; or a status and a body. *)
Inductive answer := Refused | Failed | Response (code : Z) (body : list byte).

Definition apiBase : gostring := str "https://api.cloudflareclient.com/v0".
Definition clientVersion : gostring := str "linux-2026.6.880.0".
Definition userAgent : gostring := str "WARP for Linux".

Definition json_headers : list (gostring * gostring) :=
  [(str "Content-Type", str "application/json"); (str "User-Agent", userAgent);
   (str "CF-Client-Version", clientVersion)].

Definition RegisterRequest (key tos serial : gostring) : json :=
  JObj [(str "key", JStr key); (str "install_id", JStr []); (str "fcm_token", JStr []);
        (str "tos", JStr tos); (str "model", JStr (str "PC")); (str "serial_number", JStr serial);
        (str "os_version", JStr []); (str "key_type", JStr (str "curve25519"));
        (str "tunnel_type", JStr (str "wireguard")); (str "locale", JStr (str "en_US"));
        (str "warp_enabled", JBool true)].

(** The name is empty, and left out. *)
Definition EnrollRequest (key : gostring) : json :=
  JObj [(str "key", JStr key); (str "key_type", JStr (str "secp256r1"));
        (str "tunnel_type", JStr (str "masque"))].

Definition post (key tos serial : gostring) : request :=
  {| Method := str "POST"; URL := apiBase ++ str "/reg"; Header := json_headers;
     Body := Marshal (RegisterRequest key tos serial) |}.

Definition patch (id token key : gostring) : request :=
  {| Method := str "PATCH"; URL := apiBase ++ str "/reg/" ++ id;
     Header := json_headers ++ [(str "Authorization", str "Bearer " ++ token)];
     Body := Marshal (EnrollRequest key) |}.

Definition delete_req (id token : gostring) : request :=
  {| Method := str "DELETE"; URL := apiBase ++ str "/reg/" ++ id;
     Header := [(str "Authorization", str "Bearer " ++ token); (str "CF-Client-Version", clientVersion)];
     Body := [] |}.

(** *** The throwaway key and the serial number *)

(** The private key, clamped. *)
Definition clamp (privateKey : list byte) : list byte :=
  let privateKey := alter (λ b, z2b (Z.land (b2z b) 248)) 0 privateKey in
  let privateKey := alter (λ b, z2b (Z.land (b2z b) 127)) 31 privateKey in
  alter (λ b, z2b (Z.lor (b2z b) 64)) 31 privateKey.

(** [rand.Read] into a buffer: its bytes, or [None] if it fails. *)
Definition generateRandomWgPubkey (rand : option (list byte)) : gostring :=
  match rand with
  | None => []
  | Some privateKey =>
      match X25519_base (clamp privateKey) with
      | None => []
      | Some publicKey => EncodeToString publicKey
      end
  end.

Definition generateRandomSerial (rand : option (list byte)) : gostring :=
  match rand with
  | None => []
  | Some b =>
      flat_map (λ c, [hexdigit (Z.shiftr (b2z c) 4); hexdigit (Z.land (b2z c) 15)]) b
  end.

(** What [Register] reads of the clock and of [rand.Reader]. *)
Record entropy := {
  wg_bytes : option (list byte); serial_bytes : option (list byte); tos : gostring;
  key_random : nat; cert_random : nat
}.

Inductive register_error := RequestFailed | BadStatus (code : Z) | BadResponse
  | NoKey | Encoding (e : key_error) | BadPeerKey (e : key_error) | CertFailed (e : key_error).

(** What is made of an answer: the value, and whether a request was sent at all. *)
Definition status_ok {A} (dec : decoder A) (zero : A) (resp : answer) : outcome register_error A :=
  match resp with
  | Refused | Failed => Err RequestFailed
  | Response code body =>
      _ ← require (bool_decide (code = 200%Z)) (BadStatus code);
      of_option (Unmarshal dec zero body) BadResponse
  end.

Definition sent (resp : answer) : bool := match resp with Refused => false | _ => true end.

(** The endpoint's host, without the port the API may put behind it. *)
Definition endpoint_v4 (v4 : gostring) : gostring :=
  if decide (v4 = []) then []
  else match SplitHostPort v4 with Ok (host, _) => host | _ => v4 end.

Definition endpoint_v6 (v6 : gostring) : gostring :=
  if decide (v6 = []) then []
  else match SplitHostPort v6 with Ok (host, _) => host | _ => Trim v6 (str "[]") end.

(** From the second answer to the result. *)
Definition registration_of (now : nat) (regResp : reg_result) (enroll : enroll_result) (privKey : PrivateKey)
    : outcome register_error Registration :=
  let peer := head (default [] (elems (e_peers enroll))) in
  let peerPubKey := match peer with Some p => p_public_key p | None => [] end in
  let ep := match peer with Some p => p_endpoint p | None => no_endpoint end in
  privB64 ← err_map Encoding (privateKeyToBase64 privKey);
  pubB64 ← err_map Encoding (publicKeyToBase64 (Public privKey));
  peerPubKey ←
    (if decide (peerPubKey = []) then Ok []
     else err_map BadPeerKey (pemPublicKeyToBase64 peerPubKey));
  clientCert ← err_map CertFailed (buildClientCert now (e_id enroll) privKey);
  Ok {| ID := e_id enroll; Token := r_token regResp; Account := e_account enroll;
        KeyType := e_key_type enroll; TunnelType := e_tunnel_type enroll;
        PrivateKeyB64 := privB64; PublicKeyB64 := pubB64;
        PrivKey := Some privKey; PubKey := Some (Public privKey); ClientCert := Some clientCert;
        EndpointV4 := endpoint_v4 (ep_v4 ep); EndpointV6 := endpoint_v6 (ep_v6 ep);
        EndpointPorts := ep_ports ep; PeerPublicKey := peerPubKey;
        AssignedIPv4 := e_v4 enroll; AssignedIPv6 := e_v6 enroll |}.

(** [Register]: the result, and the requests sent. *)
Definition Register (Do : request → answer) (r : entropy)
    : outcome register_error Registration * list request :=
  let wgPubKey := generateRandomWgPubkey (wg_bytes r) in
  let serial := generateRandomSerial (serial_bytes r) in
  let httpReq := post wgPubKey (tos r) serial in
  let resp := Do httpReq in
  let trace := if sent resp then [httpReq] else [] in
  match status_ok (dec_wrapper dec_reg_result) no_reg_result resp with
  | Ok regResp =>
      match GenerateKey (key_random r) with
      | None => (Err NoKey, trace)
      | Some privKey =>
          match MarshalPKIXPublicKey (Public privKey) with
          | None => (Err (Encoding MarshalFailed), trace)
          | Some pubKeyDER =>
              let pubKeyBase64 := EncodeToString pubKeyDER in
              let enrollReq := patch (r_id regResp) (r_token regResp) pubKeyBase64 in
              let enrollResp := Do enrollReq in
              (enroll ← status_ok (dec_wrapper dec_enroll_result) no_enroll_result enrollResp;
               registration_of (cert_random r) regResp enroll privKey,
               trace ++ if sent enrollResp then [enrollReq] else [])
          end
      end
  | Err e => (Err e, trace)
  | Panic => (Panic, trace)
  end.

(** ** Deleting *)

Inductive delete_failure := DeleteNotSent | DeleteStatus (code : Z).

(** [Registration.Delete]: the error, and the request if it was sent. *)
Definition Delete (Do : request → answer) (id token : gostring)
    : outcome delete_failure unit * list request :=
  let req := delete_req id token in
  match Do req with
  | Refused => (Err DeleteNotSent, [])
  | Failed => (Err DeleteNotSent, [req])
  | Response code _ => (require (bool_decide (code = 200 ∨ code = 204)%Z) (DeleteStatus code), [req])
  end.

Record ident := { i_id : gostring; i_token : gostring }.

Definition dec_ident : decoder ident :=
  dec_struct [
    (str "id", on_string i_id (λ v '(Build_ident _ b), Build_ident v b));
    (str "token", on_string i_token (λ v '(Build_ident a _), Build_ident a v))
  ].

(** What [os.Remove] does: it removes the file, finds none, or fails. *)
Inductive remove_result := Removed | NotThere | RemoveFailed.

Inductive delete_error := CannotRead | CannotParse | NoIdent | CannotRemove.

(** The result, and the request and the attempt to remove the file, in order.  An error
    of [Delete] is only logged. *)
Definition DeleteRegistration (file : read_result) (Do : request → answer) (remove : remove_result)
    : outcome delete_error unit * list delete_event :=
  match file with
  | NoSuchFile | ReadError => (Err CannotRead, [])
  | Read data =>
      match Unmarshal dec_ident (Build_ident [] []) data with
      | None => (Err CannotParse, [])
      | Some i =>
          if bool_decide (i_id i = []) || bool_decide (i_token i = []) then (Err NoIdent, [])
          else
            let '(_, reqs) := Delete Do (i_id i) (i_token i) in
            (match remove with RemoveFailed => Err CannotRemove | _ => Ok () end,
             map Sent reqs ++ [Removing])
      end
  end.

End registration.
