(* ===== verification/RegistrationFacts.v ===== *)
(** * Properties of the registration

    What [Register] and [Load] return is well formed, and is read back from the file
    it is written to; the pin; the clamped scalar; what is asked of the API; deletion. *)

From Stdlib Require Import Init.Byte.
From S2P Require Import Prelude GoNet GoNetFacts GoText Json JsonFacts JsonFuel JsonStrings JsonDecode JsonDecodeFacts Registration.

(** ** Valid strings *)

Lemma Valid_graphic s : Forall graphic s → Valid s.
Proof.
  intros Hs. apply Valid_ascii. eapply Forall_impl; [exact Hs|]. intros c Hc. unfold graphic in Hc.
  unfold between. apply bool_decide_eq_true. lia.
Qed.

Lemma Valid_base64 l : Valid (EncodeToString l).
Proof.
  apply Valid_graphic. eapply Forall_impl; [apply EncodeToString_chars|]. by intros c [? _].
Qed.

Lemma Valid_host s h p : SplitHostPort s = Ok (h, p) → Valid s → Valid h.
Proof.
  intros [->| ->]%split_shape Hs.
  - by apply Valid_cut in Hs as [? _].
  - apply Valid_cons in Hs; [|done]. by apply Valid_cut in Hs as [? _].
Qed.

Definition ascii (c : byte) : Prop := between 0 127 c = true.

Lemma drop_any_ascii cutset s s' :
  Forall (λ p, ∃ c, p = [c] ∧ ascii c) cutset → drop_any cutset s = Some s' →
  ∃ c, s = c :: s' ∧ ascii c.
Proof.
  intros Hc. induction Hc as [|p cutset (c & -> & Hc) _ IH]; [done|]. cbn [drop_any].
  destruct (drop_prefix [c] s) as [t|] eqn:Hd; [|done]. intros [= <-].
  destruct s as [|y s]; [done|]. cbn in Hd. case_decide; [|done]. subst y.
  injection Hd as <-. by exists c.
Qed.

Lemma trim_front_ascii fuel cutset s :
  Forall (λ p, ∃ c, p = [c] ∧ ascii c) cutset →
  ∃ pre, s = pre ++ trim_front fuel cutset s ∧ Forall ascii pre.
Proof.
  intros Hc. revert s. induction fuel as [|fuel IH]; intros s; [by exists []|]. cbn [trim_front].
  destruct (drop_any cutset s) as [s'|] eqn:Hd; [|by exists []].
  apply drop_any_ascii in Hd as (c & -> & Ha); [|done]. destruct (IH s') as (pre & Heq & Hp).
  exists (c :: pre). cbn. rewrite <- Heq. split; [done|]. by constructor.
Qed.

Lemma Valid_suffix pre s : Forall ascii pre → Valid (pre ++ s) → Valid s.
Proof. induction 1 as [|c pre Hc _ IH]; [done|]. cbn. rewrite Valid_cons by done. exact IH. Qed.

Lemma Valid_prefix s post : Forall ascii post → Valid (s ++ post) → Valid s.
Proof.
  destruct 1 as [|c post Hc _]; [by rewrite app_nil_r|]. intros H. by apply Valid_cut in H as [? _].
Qed.

(** Trimming ASCII characters. *)
Lemma Valid_Trim s cutset : Forall ascii cutset → Valid s → Valid (Trim s cutset).
Proof.
  intros Hc Hs. unfold Trim, trim.
  assert (Hset : Forall (λ p, ∃ c, p = [c] ∧ ascii c) (map (λ c, [c]) cutset)).
  { clear Hs. induction Hc; constructor; eauto. }
  assert (Hrev : Forall (λ p, ∃ c, p = [c] ∧ ascii c) (map (@rev byte) (map (λ c, [c]) cutset))).
  { clear Hset Hs. induction Hc; constructor; eauto. }
  destruct (trim_front_ascii (length s) _ s Hset) as (pre & Heq & Hpre).
  set (s1 := trim_front (length s) _ s) in *. rewrite Heq in Hs. apply Valid_suffix in Hs; [|done].
  destruct (trim_front_ascii (length s1) _ (rev s1) Hrev) as (post & Heq2 & Hpost).
  set (s2 := trim_front (length s1) _ (rev s1)) in *.
  assert (Hs1 : s1 = rev s2 ++ rev post) by by rewrite <- rev_app_distr, <- Heq2, rev_involutive.
  rewrite Hs1 in Hs. eapply Valid_prefix; [|exact Hs]. by apply Forall_rev.
Qed.

(** ** Decoding preserves well-formed fields *)

Section registration.
  Context `{crypto : Crypto}.

Lemma preserves_field {S A} (P : S → Prop) (Q : A → Prop) (dec : decoder A) get put :
  preserves Q dec → (∀ s, P s → Q (get s)) → (∀ v s, P s → Q v → P (put v s)) →
  preserves P (on_field dec get put).
Proof.
  intros Hd Hget Hput j old new Hj Hold Hnew. unfold on_field in Hnew.
  apply bind_Some in Hnew as (v & Hv & [= <-]). apply Hput; [done|]. eapply Hd; [done| |done]. by apply Hget.
Qed.

Definition fields_ok (f : file_fields) : Prop :=
  Forall Valid [f_id f; f_token f; f_account f; f_key_type f; f_tunnel_type f; f_private_key f;
                f_public_key f; f_endpoint_v4 f; f_endpoint_v6 f; f_peer_public_key f;
                f_assigned_ipv4 f; f_assigned_ipv6 f] ∧
  slice_all int64 (f_endpoint_ports f).

Definition reg_result_ok (r : reg_result) : Prop :=
  Forall Valid [r_id r; r_token r; r_key_type r; r_tunnel_type r; r_account r].

Definition endpoint_ok (e : endpoint) : Prop :=
  Forall Valid [ep_v4 e; ep_v6 e; ep_host e] ∧ slice_all int64 (ep_ports e).

Definition peer_ok (p : peer) : Prop := Valid (p_public_key p) ∧ endpoint_ok (p_endpoint p).

Definition enroll_ok (e : enroll_result) : Prop :=
  Forall Valid [e_id e; e_token e; e_key_type e; e_tunnel_type e; e_account e; e_v4 e; e_v6 e] ∧
  slice_all peer_ok (e_peers e).

Lemma preserves_ports : preserves (slice_all int64) (dec_slice dec_int 0%Z).
Proof. apply preserves_slice; [done|apply preserves_int]. Qed.

(** A field keeps the property of the whole. *)
Ltac field_by l :=
  eapply preserves_field; [apply l|..];
  unfold fields_ok, reg_result_ok, enroll_ok, peer_ok, endpoint_ok;
  [intros []|intros ? []]; cbn; rewrite ?Forall_cons; tauto.

Ltac each_field := repeat first [apply Forall_nil_2 | apply Forall_cons_2]; cbn [snd].

Lemma preserves_fields : preserves fields_ok dec_registration.
Proof.
  apply preserves_struct; each_field;
    first [field_by preserves_string | field_by preserves_ports].
Qed.

Lemma preserves_reg_result : preserves reg_result_ok dec_reg_result.
Proof.
  apply preserves_struct; each_field; try field_by preserves_string.
  apply preserves_struct; each_field; field_by preserves_string.
Qed.

Lemma preserves_endpoint : preserves endpoint_ok dec_endpoint.
Proof.
  apply preserves_struct; each_field;
    first [field_by preserves_string | field_by preserves_ports].
Qed.

Lemma preserves_peer : preserves peer_ok dec_peer.
Proof.
  apply preserves_struct; each_field;
    first [field_by preserves_string | field_by preserves_endpoint].
Qed.

Lemma no_endpoint_ok : endpoint_ok no_endpoint.
Proof. repeat constructor. Qed.

Lemma preserves_peers : preserves (slice_all peer_ok) (dec_slice dec_peer no_peer).
Proof. apply preserves_slice; [split; [constructor|apply no_endpoint_ok]|apply preserves_peer]. Qed.

Lemma preserves_enroll : preserves enroll_ok dec_enroll_result.
Proof.
  repeat (apply preserves_struct; each_field;
    try first [field_by preserves_string | field_by preserves_peers]).
Qed.

Lemma preserves_wrapper {A} (P : A → Prop) dec : preserves P dec → preserves P (dec_wrapper dec).
Proof. intros Hd. apply preserves_struct. each_field. exact Hd. Qed.

Lemma status_ok_preserves {A} (P : A → Prop) dec zero resp v :
  P zero → preserves P dec → status_ok dec zero resp = Ok v → P v.
Proof.
  intros Hz Hd H. destruct resp as [| |code body]; [done..|]. unfold status_ok in H. inv_ok.
  destruct (Unmarshal dec zero body) as [w|] eqn:Hu; [|done]. cbn in H. inv_ok.
  by eapply Unmarshal_preserves.
Qed.

(** ** Well-formed registrations *)

(** The certificate was made for the id and the private key, which is the one its text
    encodes; the public key is its public half. *)
Record wf (r : Registration) : Prop := {
  wf_strings : Forall Valid [ID r; Token r; Account r; KeyType r; TunnelType r; PrivateKeyB64 r;
                 PublicKeyB64 r; EndpointV4 r; EndpointV6 r; PeerPublicKey r; AssignedIPv4 r;
                 AssignedIPv6 r];
  wf_ports : Forall int64 (default [] (elems (EndpointPorts r)));
  wf_keys : ∃ key now cert, PrivKey r = Some key ∧ PubKey r = Some (Public key) ∧
    decodePrivateKey (PrivateKeyB64 r) = Ok key ∧
    buildClientCert now (ID r) key = Ok cert ∧ ClientCert r = Some cert
}.

Lemma of_option_Ok {E A} (o : option A) (e : E) a : of_option o e = Ok a ↔ o = Some a.
Proof. destruct o; cbn; split; congruence. Qed.

Lemma private_roundtrip key s : privateKeyToBase64 key = Ok s → decodePrivateKey s = Ok key ∧ Valid s.
Proof.
  unfold privateKeyToBase64. intros (der & Hder%of_option_Ok & [= <-])%bind_Ok.
  unfold decodePrivateKey. rewrite TrimSpace_EncodeToString, DecodeString_EncodeToString.
  cbn. rewrite (Parse_MarshalEC _ _ Hder). split; [done|apply Valid_base64].
Qed.

Lemma public_roundtrip key s :
  publicKeyToBase64 key = Ok s → decodePublicKey s = Ok key ∧ Valid s ∧ s ≠ [].
Proof.
  unfold publicKeyToBase64. intros (der & Hder%of_option_Ok & [= <-])%bind_Ok.
  unfold decodePublicKey, publicKeyFromDER. rewrite TrimSpace_EncodeToString, DecodeString_EncodeToString.
  cbn. rewrite (Parse_MarshalPKIX _ _ Hder). split_and!; [done|apply Valid_base64|].
  apply Marshal_nonempty in Hder. by destruct der as [|? [|? [|? ?]]].
Qed.

(** The key in a PEM text. *)
Definition pem_key (s : gostring) : option PublicKey :=
  der ← pem_Decode s; parsed ← ParsePKIXPublicKey der; parsed.

Lemma pem_roundtrip s b :
  pemPublicKeyToBase64 s = Ok b →
  ∃ key, pem_key s = Some key ∧ decodePublicKey b = Ok key ∧ Valid b ∧ b ≠ [].
Proof.
  unfold pemPublicKeyToBase64, publicKeyFromDER, pem_key.
  intros (der & Hder%of_option_Ok & (key & (parsed & Hp%of_option_Ok & Hk%of_option_Ok)%bind_Ok & Hb)%bind_Ok)%bind_Ok.
  apply public_roundtrip in Hb. exists key. rewrite Hder. cbn. rewrite Hp. by subst.
Qed.

Lemma Valid_endpoint_v4 s : Valid s → Valid (endpoint_v4 s).
Proof.
  intros Hs. unfold endpoint_v4. case_decide; [constructor|].
  destruct (SplitHostPort s) as [[h p]| |] eqn:Hp; [|done..]. by eapply Valid_host.
Qed.

Lemma Valid_endpoint_v6 s : Valid s → Valid (endpoint_v6 s).
Proof.
  intros Hs. unfold endpoint_v6. case_decide; [constructor|].
  destruct (SplitHostPort s) as [[h p]| |] eqn:Hp; [by eapply Valid_host|..];
    (apply Valid_Trim; [|done]); by repeat constructor.
Qed.

(** The first peer of an answer, or a zero one. *)
Definition first_peer (e : enroll_result) : peer := default no_peer (head (default [] (elems (e_peers e)))).

Lemma first_peer_ok e : enroll_ok e → peer_ok (first_peer e).
Proof.
  intros [_ [Hp _]]. unfold first_peer. destruct Hp; [|done]. split; [constructor|apply no_endpoint_ok].
Qed.

(** What a registration is made of. *)
Lemma registration_of_Ok now regResp e key r :
  registration_of now regResp e key = Ok r →
  let p := first_peer e in let ep := p_endpoint p in
  ∃ priv pub peerKey cert,
    privateKeyToBase64 key = Ok priv ∧ publicKeyToBase64 (Public key) = Ok pub ∧
    (if decide (p_public_key p = []) then peerKey = []
     else pemPublicKeyToBase64 (p_public_key p) = Ok peerKey) ∧
    buildClientCert now (e_id e) key = Ok cert ∧
    r = {| ID := e_id e; Token := r_token regResp; Account := e_account e;
           KeyType := e_key_type e; TunnelType := e_tunnel_type e;
           PrivateKeyB64 := priv; PublicKeyB64 := pub;
           PrivKey := Some key; PubKey := Some (Public key); ClientCert := Some cert;
           EndpointV4 := endpoint_v4 (ep_v4 ep); EndpointV6 := endpoint_v6 (ep_v6 ep);
           EndpointPorts := ep_ports ep; PeerPublicKey := peerKey;
           AssignedIPv4 := e_v4 e; AssignedIPv6 := e_v6 e |}.
Proof.
  unfold registration_of, first_peer. intros Hr. cbv zeta in *.
  destruct (head (default [] (elems (e_peers e)))) as [p|]; cbn [default] in *;
    apply bind_Ok in Hr as (priv & Hpriv%err_map_Ok & Hr);
    apply bind_Ok in Hr as (pub & Hpub%err_map_Ok & Hr);
    apply bind_Ok in Hr as (peerKey & Hpeer & Hr);
    apply bind_Ok in Hr as (cert & Hcert%err_map_Ok & Hr); injection Hr as <-;
    exists priv, pub, peerKey, cert; (split_and!; [done|done| |done|done]).
  - unfold id. case_decide; [by injection Hpeer as <-|by apply err_map_Ok in Hpeer].
  - cbn in *. by injection Hpeer as <-.
Qed.

Lemma registration_of_wf now regResp e key r :
  reg_result_ok regResp → enroll_ok e → registration_of now regResp e key = Ok r → wf r.
Proof.
  intros Hreg He (priv & pub & peerKey & cert & Hpriv & Hpub & Hpeer & Hcert & ->)%registration_of_Ok.
  destruct (first_peer_ok e He) as [_ [Hep Hports]].
  apply private_roundtrip in Hpriv as [Hdec Hpriv]. apply public_roundtrip in Hpub as (_ & Hpub & _).
  assert (Hk : Valid peerKey).
  { case_decide; [subst; constructor|]. by apply pem_roundtrip in Hpeer as (? & _ & _ & ? & _). }
  unfold reg_result_ok in Hreg. destruct He as [He _].
  rewrite !Forall_cons in Hreg; rewrite !Forall_cons in He; rewrite !Forall_cons in Hep. destruct_and?. split; cbn.
  - rewrite !Forall_cons. split_and!; first [done|by apply Valid_endpoint_v4|by apply Valid_endpoint_v6|constructor].
  - apply Hports.
  - by exists key, now, cert.
Qed.

Lemma of_option_not_Panic {E A} (o : option A) (e : E) : of_option o e ≠ Panic.
Proof. by destruct o. Qed.

Lemma status_ok_not_Panic {A} (dec : decoder A) zero resp : status_ok dec zero resp ≠ Panic.
Proof.
  destruct resp as [| |code body]; [done..|]. unfold status_ok.
  intros [Hp|(u & _ & Hp)]%bind_Panic; [by apply require_not_Panic in Hp|by apply of_option_not_Panic in Hp].
Qed.

Lemma publicKeyToBase64_not_Panic key : publicKeyToBase64 key ≠ Panic.
Proof. intros [Hp|(? & _ & [=])]%bind_Panic. by apply of_option_not_Panic in Hp. Qed.

Lemma privateKeyToBase64_not_Panic key : privateKeyToBase64 key ≠ Panic.
Proof. intros [Hp|(? & _ & [=])]%bind_Panic. by apply of_option_not_Panic in Hp. Qed.

Lemma publicKeyFromDER_not_Panic der : publicKeyFromDER der ≠ Panic.
Proof. intros [Hp|(? & _ & Hp)]%bind_Panic; by apply of_option_not_Panic in Hp. Qed.

Lemma pemPublicKeyToBase64_not_Panic s : pemPublicKeyToBase64 s ≠ Panic.
Proof.
  intros [Hp|(? & _ & [Hp|(? & _ & Hp)]%bind_Panic)]%bind_Panic.
  - by apply of_option_not_Panic in Hp.
  - by apply publicKeyFromDER_not_Panic in Hp.
  - by apply publicKeyToBase64_not_Panic in Hp.
Qed.

Lemma buildClientCert_not_Panic now id key : buildClientCert now id key ≠ Panic.
Proof. apply of_option_not_Panic. Qed.

Lemma registration_of_not_Panic now regResp e key : registration_of now regResp e key ≠ Panic.
Proof.
  unfold registration_of. cbv zeta.
  intros [Hp|(? & _ & [Hp|(? & _ & [Hp|(? & _ & [Hp|(? & _ & [=])]%bind_Panic)]%bind_Panic)]%bind_Panic)]%bind_Panic.
  - by apply err_map_Panic, privateKeyToBase64_not_Panic in Hp.
  - by apply err_map_Panic, publicKeyToBase64_not_Panic in Hp.
  - case_decide; [done|]. by apply err_map_Panic, pemPublicKeyToBase64_not_Panic in Hp.
  - by apply err_map_Panic, buildClientCert_not_Panic in Hp.
Qed.

(** The calls of a [Register] that succeeds. *)
Lemma Register_Ok Do rnd r trace :
  Register Do rnd = (Ok r, trace) →
  let post := post (generateRandomWgPubkey (wg_bytes rnd)) (tos rnd) (generateRandomSerial (serial_bytes rnd)) in
  ∃ regResp e key pub,
    status_ok (dec_wrapper dec_reg_result) no_reg_result (Do post) = Ok regResp ∧
    GenerateKey (key_random rnd) = Some key ∧ publicKeyToBase64 (Public key) = Ok pub ∧
    let patch := patch (r_id regResp) (r_token regResp) pub in
    status_ok (dec_wrapper dec_enroll_result) no_enroll_result (Do patch) = Ok e ∧
    registration_of (cert_random rnd) regResp e key = Ok r ∧ trace = [post; patch].
Proof.
  unfold Register. intros Hr. cbv zeta in *.
  set (post := Registration.post _ _ _) in *.
  destruct (status_ok _ no_reg_result (Do post)) as [regResp|x|] eqn:Hpost; [|done..].
  assert (Hs1 : sent (Do post) = true) by by destruct (Do post).
  destruct (GenerateKey (key_random rnd)) as [key|] eqn:Hkey; [|done].
  destruct (MarshalPKIXPublicKey (Public key)) as [der|] eqn:Hder; [|done].
  set (patch := Registration.patch _ _ _) in *. injection Hr as Hr Htr.
  apply bind_Ok in Hr as (e & He & Hr).
  assert (Hs2 : sent (Do patch) = true) by by destruct (Do patch).
  exists regResp, e, key, (EncodeToString der). split_and!; try done.
  - unfold publicKeyToBase64. by rewrite Hder.
  - by rewrite <- Htr, Hs1, Hs2.
Qed.

Lemma Register_wf Do rnd r trace : Register Do rnd = (Ok r, trace) → wf r.
Proof.
  intros (regResp & e & key & pub & Hpost & _ & _ & Hpatch & Hr & _)%Register_Ok.
  eapply registration_of_wf; [| |exact Hr].
  - eapply status_ok_preserves; [|apply preserves_wrapper, preserves_reg_result|exact Hpost]. repeat constructor.
  - eapply status_ok_preserves; [|apply preserves_wrapper, preserves_enroll|exact Hpatch]. repeat constructor.
Qed.

Lemma Load_wf now file r : Load now file = Ok r → wf r.
Proof.
  destruct file as [data| |]; [|done..]. unfold Load.
  intros (f & Hf%of_option_Ok & (key & Hk%err_map_Ok & (cert & Hc%err_map_Ok & [= <-])%bind_Ok)%bind_Ok)%bind_Ok.
  apply (Unmarshal_preserves fields_ok) in Hf as [Hs Hp]; [| |apply preserves_fields].
  - split; cbn; [|apply Hp|by exists key, now, cert]. rewrite !Forall_cons in *; tauto.
  - repeat constructor.
Qed.

(** ** The file *)

(** A registration's slice, without what is behind it. *)
Definition trimmed (s : slice Z) : slice Z := Slice (elems s) [].

(** What the file keeps of a registration. *)
Definition fields_of (r : Registration) : file_fields :=
  {| f_id := ID r; f_token := Token r; f_account := Account r; f_key_type := KeyType r;
     f_tunnel_type := TunnelType r; f_private_key := PrivateKeyB64 r; f_public_key := PublicKeyB64 r;
     f_endpoint_v4 := EndpointV4 r; f_endpoint_v6 := EndpointV6 r;
     f_endpoint_ports := trimmed (EndpointPorts r); f_peer_public_key := PeerPublicKey r;
     f_assigned_ipv4 := AssignedIPv4 r; f_assigned_ipv6 := AssignedIPv6 r |}.

Lemma dec_ports s :
  Forall int64 (default [] (elems s)) →
  dec_slice dec_int 0%Z
    (match elems s with None => JNull | Some ports => JArr (map (λ p, JNum (itoa p)) ports) end)
    nil_slice = Some (trimmed s).
Proof.
  destruct s as [[ports|] b]; [|done]. intros Hp. unfold trimmed. cbn [elems] in *.
  pose proof (dec_ints ports Hp) as Hd. destruct ports as [|p ports]; [done|].
  cbn [map dec_slice default elems nil_slice beyond app] in *. rewrite Hd. done.
Qed.

Lemma dec_registration_json r :
  Forall int64 (default [] (elems (EndpointPorts r))) →
  dec_registration (registration_json r) no_fields = Some (fields_of r).
Proof.
  intros Hp%dec_ports. unfold registration_json, fields_of.
  destruct r as [id tok acc kt tt priv pub k p c v4 v6 ports peer a4 a6].
  cbn [ID Token Account KeyType TunnelType PrivateKeyB64 PublicKeyB64 EndpointV4 EndpointV6
       EndpointPorts PeerPublicKey AssignedIPv4 AssignedIPv6] in *.
  set (j := match elems ports with None => _ | Some _ => _ end) in *. clearbody j.
  do 2 case_decide; subst; cbv -[dec_slice dec_int nil_slice trimmed]; rewrite Hp; reflexivity.
Qed.

(** A member that can be written and read back, two levels deep at most. *)
Definition member_ok (km : gostring * json) : Prop :=
  (ValidString (fst km) = true ∧ json_ok (snd km)) ∧ depth (snd km) <= 1.

Lemma member_str k s : ValidString (str k) = true → Valid s → member_ok (str k, JStr s).
Proof. intros Hk Hs. split; [split; [done|by apply ValidString_Valid]|cbn; lia]. Qed.

Lemma member_ports ports :
  member_ok (str "endpoint_ports",
    match ports with None => JNull | Some ports => JArr (map (λ p, JNum (itoa p)) ports) end).
Proof.
  destruct ports as [ports|]; (split; [split; [done|]|]); cbn [snd]; try done; [| |cbn; lia].
  - apply json_ok_arr, Forall_map, Forall_true. intros. apply json_ok_int.
  - apply depth_arr, Forall_map, Forall_true. intros. cbn. lia.
Qed.

Lemma registration_json_ok r : wf r → json_ok (registration_json r) ∧ depth (registration_json r) <= 2.
Proof.
  intros [Hs _ _]. rewrite !Forall_cons in Hs. destruct_and?.
  assert (Hall : ∃ m, registration_json r = JObj m ∧ Forall member_ok m).
  { eexists; split; [reflexivity|]. rewrite !Forall_app. split_and!;
      repeat first [apply Forall_nil_2 | apply Forall_cons_2 | apply member_ports
                   | apply member_str; [reflexivity|done] | case_decide]. }
  destruct Hall as (m & -> & Hm). split.
  - apply json_ok_obj. eapply Forall_impl; [exact Hm|]. by intros km [? _].
  - apply depth_obj. eapply Forall_impl; [exact Hm|]. by intros km [_ ?].
Qed.

(** Reading back what [Save] writes. *)
Lemma parse_Save r : wf r → parse_json (Save r) = Some (registration_json r).
Proof.
  intros [Hok Hd]%registration_json_ok. apply parse_MarshalIndent; [done|].
  unfold maxNestingDepth. lia.
Qed.

(** A registration as it is read back, with the certificate made then. *)
Definition reloaded (r : Registration) (cert : Certificate) : Registration :=
  {| ID := ID r; Token := Token r; Account := Account r; KeyType := KeyType r;
     TunnelType := TunnelType r; PrivateKeyB64 := PrivateKeyB64 r; PublicKeyB64 := PublicKeyB64 r;
     PrivKey := PrivKey r; PubKey := PubKey r; ClientCert := Some cert;
     EndpointV4 := EndpointV4 r; EndpointV6 := EndpointV6 r; EndpointPorts := trimmed (EndpointPorts r);
     PeerPublicKey := PeerPublicKey r; AssignedIPv4 := AssignedIPv4 r; AssignedIPv6 := AssignedIPv6 r |}.

Lemma Load_Save r now :
  wf r → ∃ key, PrivKey r = Some key ∧
  Load now (Read (Save r)) =
    (cert ← err_map BadCert (buildClientCert now (ID r) key); Ok (reloaded r cert)).
Proof.
  intros Hr. pose proof (wf_keys r Hr) as (key & _ & _ & Hk & Hpub & Hdec & _). exists key.
  split; [done|]. unfold Load, Unmarshal. rewrite parse_Save by done. cbn [mbind option_bind].
  rewrite dec_registration_json by apply Hr. cbn [of_option mbind outcome_bind fields_of f_private_key f_id].
  rewrite Hdec. cbn [err_map]. unfold reloaded. by rewrite Hk, Hpub.
Qed.

(** ** The pin *)

Lemma verify_peer_Ok expected chain :
  verify_peer expected chain = Ok () ↔
  ∃ raw rest, chain = raw :: rest ∧ ParseCertificate raw = Some (Some expected).
Proof.
  unfold verify_peer. destruct chain as [|raw rest].
  { split; [done|]. by intros (? & ? & ? & _). }
  split.
  - intros (parsed & Hp%of_option_Ok & (got & ->%of_option_Ok & Hr%require_Ok)%bind_Ok)%bind_Ok.
    apply bool_decide_eq_true in Hr as ->. by exists raw, rest.
  - intros (? & ? & [= <- <-] & Hp). rewrite Hp. cbn. by rewrite bool_decide_eq_true_2.
Qed.

Lemma verifier_None r : PeerPublicKeyVerifier r = Ok None ↔ PeerPublicKey r = [].
Proof.
  unfold PeerPublicKeyVerifier. case_decide; [done|]. split; [|done].
  by intros (key & _ & [=])%bind_Ok.
Qed.

Lemma verifier_Some r key :
  PeerPublicKey r ≠ [] → decodePublicKey (PeerPublicKey r) = Ok key →
  PeerPublicKeyVerifier r = Ok (Some (verify_peer key)).
Proof. intros Hne Hk. unfold PeerPublicKeyVerifier. rewrite decide_False by done. by rewrite Hk. Qed.

(** ** Decoding the id and the token alone *)

Definition ident_of (f : file_fields) : ident := Build_ident (f_id f) (f_token f).

Definition field_of {S} (fields : list (gostring * decoder S)) (key : gostring) : decoder S := λ j s,
  match find_field fields key with Some d => d j s | None => Some s end.

(** A field that is neither keeps both. *)
Lemma other_field {A} (dec : decoder A) get put j f f' :
  (∀ v g, ident_of (put v g) = ident_of g) →
  on_field dec get put j f = Some f' → ident_of f = ident_of f'.
Proof. intros Hput (v & _ & [= <-])%bind_Some. by rewrite Hput. Qed.

Lemma id_field j f f' :
  on_field dec_string f_id (λ v '(Build_file_fields _ a2 a3 a4 a5 a6 a7 a8 a9 a10 a11 a12 a13),
    Build_file_fields v a2 a3 a4 a5 a6 a7 a8 a9 a10 a11 a12 a13) j f = Some f' →
  on_field dec_string i_id (λ v '(Build_ident _ b), Build_ident v b) j (ident_of f) = Some (ident_of f').
Proof. destruct f. intros (v & Hv & [= <-])%bind_Some. cbn in *. unfold on_field. cbn. by rewrite Hv. Qed.

Lemma token_field j f f' :
  on_field dec_string f_token (λ v '(Build_file_fields a1 _ a3 a4 a5 a6 a7 a8 a9 a10 a11 a12 a13),
    Build_file_fields a1 v a3 a4 a5 a6 a7 a8 a9 a10 a11 a12 a13) j f = Some f' →
  on_field dec_string i_token (λ v '(Build_ident a _), Build_ident a v) j (ident_of f) = Some (ident_of f').
Proof. destruct f. intros (v & Hv & [= <-])%bind_Some. cbn in *. unfold on_field. cbn. by rewrite Hv. Qed.

Ltac same_field H :=
  first [ exact (id_field _ _ _ H) | exact (token_field _ _ _ H)
        | f_equal; eapply other_field; [|exact H]; intros ? []; reflexivity
        | f_equal; congruence ].

Lemma dec_members_ident m f f' :
  dec_registration (JObj m) f = Some f' → dec_ident (JObj m) (ident_of f) = Some (ident_of f').
Proof.
  unfold dec_registration, dec_ident, dec_struct. set (F := [_; _; _; _; _; _; _; _; _; _; _; _; _]).
  set (I := [(str "id", _); (str "token", _)]).
  assert (Hstep : ∀ k j g g', field_of F k j g = Some g' →
                  field_of I k j (ident_of g) = Some (ident_of g')).
  { intros k j g g' Hk. unfold field_of, find_field, F, I in *. cbn [exact_field] in *.
    repeat (case_decide; [subst k; cbn [folded_field]; vm_compute decide in *; same_field Hk|]).
    cbn [folded_field] in *. clear - Hk. revert Hk. generalize (fold_name k). intros fk Hk.
    repeat (case_decide; [subst fk; vm_compute decide in *; same_field Hk|]). same_field Hk. }
  revert f. induction m as [|[k j] m IH]; intros f Hm; [by injection Hm as <-|].
  cbn [dec_members] in *. apply bind_Some in Hm as (g & Hg & Hm).
  apply Hstep in Hg. unfold field_of in Hg. rewrite Hg. by apply IH.
Qed.

Lemma Unmarshal_ident data f :
  Unmarshal dec_registration no_fields data = Some f →
  Unmarshal dec_ident (Build_ident [] []) data = Some (ident_of f).
Proof.
  unfold Unmarshal. intros (j & Hj & Hf)%bind_Some. rewrite Hj. cbn [mbind option_bind].
  destruct j; try done; [by injection Hf as <-|]. by apply (dec_members_ident _ no_fields).
Qed.

(** ** Endpoints *)

Lemma split_error s : colon ∉ s → SplitHostPort s = Err MissingPort.
Proof.
  intros Hs. unfold SplitHostPort. destruct (last_index_byte colon s) as [i|] eqn:Hi; [|done].
  apply last_index_byte_lookup in Hi. destruct Hs. by eapply list_elem_of_lookup_2.
Qed.

(** Nor is one with two colons. *)
Lemma split_one_colon h h1 h2 r :
  clean_host h → h = h1 ++ colon :: h2 → colon ∈ h2 → SplitHostPort h = Ok r → False.
Proof.
  intros [Hl _] Heq Hc Hs. destruct r as [h' p].
  assert (Hh' : colon ∉ h').
  { unfold SplitHostPort in Hs. destruct (last_index_byte colon h); [|done].
    rewrite decide_False in Hs by by intros H%list_elem_of_lookup_2.
    inv_ok. destruct x as [[? ?] ?]. case_decide; [done|]. by inv_ok. }
  pose proof (split_clean _ _ _ Hs) as [_ (Hp & _)].
  apply split_shape in Hs as [Hs|Hs]; [|apply Hl; rewrite Hs; by left].
  rewrite Heq in Hs. symmetry in Hs. apply app_eq_app in Hs as ([|x u] & [[-> Hu]|[-> Hu]]).
  - cbn in Hu. injection Hu as ->. done.
  - cbn in Hu. injection Hu as ->. done.
  - injection Hu as <- _. apply Hh'. apply elem_of_app. right. by left.
  - injection Hu as <- ->. apply Hp. apply elem_of_app. right. by left.
Qed.

(** An address in brackets, without a port, is not split. *)
Lemma split_bracketed h : clean_host h → is_ok (SplitHostPort (lbrack :: h ++ [rbrack])) = false.
Proof.
  intros [_ Hr]. destruct (SplitHostPort _) as [[h' p]| |] eqn:Hs; [|done..]. exfalso.
  pose proof (split_clean _ _ _ Hs) as [[Hl' Hr'] (Hc & Hpl & Hpr)].
  apply split_shape in Hs as [Hs|Hs].
  - destruct h' as [|c h']; [done|]. injection Hs as <- _. apply Hl'. by left.
  - injection Hs as Hs. destruct p as [|x p _] using rev_ind.
    + change [rbrack; colon] with ([rbrack] ++ [colon]) in Hs. rewrite app_assoc in Hs.
      by apply app_inj_tail in Hs as [_ ?].
    + replace (h' ++ rbrack :: colon :: p ++ [x]) with ((h' ++ rbrack :: colon :: p) ++ [x]) in Hs
        by by rewrite <- app_assoc.
      apply app_inj_tail in Hs as [_ <-]. apply Hpr. apply elem_of_app. right. by left.
Qed.

Lemma no_bracket_front cutset h t :
  cutset = [[lbrack]; [rbrack]] → clean_host h → h ≠ [] → drop_any cutset (h ++ t) = None.
Proof.
  intros -> [Hl Hr] Hne. destruct h as [|x h]; [done|]. cbn.
  rewrite decide_False; [rewrite decide_False; [done|]|]; intros <-; [apply Hr|apply Hl]; by left.
Qed.

Lemma no_bracket_back h : clean_host h → h ≠ [] → drop_any [[lbrack]; [rbrack]] (rev h) = None.
Proof.
  intros [Hl Hr] Hne. rewrite <- (app_nil_r (rev h)). apply no_bracket_front; [done| |].
  - split; intros Hx%list_elem_of_In; rewrite <- in_rev in Hx; by apply list_elem_of_In in Hx.
  - intros Hx. apply Hne. by rewrite <- (rev_involutive h), Hx.
Qed.

Lemma Trim_none h : clean_host h → h ≠ [] → Trim h (str "[]") = h.
Proof.
  intros Hh Hne. unfold Trim, trim. cbv zeta.
  change (map (λ c, [c]) (str "[]")) with [[lbrack]; [rbrack]].
  change (map (@rev byte) [[lbrack]; [rbrack]]) with [[lbrack]; [rbrack]].
  rewrite (trim_front_keep _ _ h).
  - rewrite trim_front_keep; [apply rev_involutive|by apply no_bracket_back].
  - rewrite <- (app_nil_r h). by apply no_bracket_front.
Qed.

Lemma Trim_brackets h : clean_host h → h ≠ [] → Trim (lbrack :: h ++ [rbrack]) (str "[]") = h.
Proof.
  intros Hh Hne. unfold Trim, trim. cbv zeta.
  change (map (λ c, [c]) (str "[]")) with [[lbrack]; [rbrack]].
  change (map (@rev byte) [[lbrack]; [rbrack]]) with [[lbrack]; [rbrack]].
  set (brackets := [[lbrack]; [rbrack]]).
  assert (Hf : trim_front (length (lbrack :: h ++ [rbrack])) brackets (lbrack :: h ++ [rbrack]) = h ++ [rbrack]).
  { cbn [length trim_front]. change (drop_any brackets (lbrack :: h ++ [rbrack])) with (Some (h ++ [rbrack])).
    apply trim_front_keep. by apply no_bracket_front. }
  pose proof (no_bracket_back h Hh Hne) as Hrev.
  rewrite Hf, rev_app_distr, length_app, Nat.add_comm. cbn [length Nat.add trim_front rev app].
  change (drop_any brackets (rbrack :: rev h)) with (Some (rev h)). cbv iota beta.
  rewrite trim_front_keep by done. apply rev_involutive.
Qed.

(** ** Deleting *)

(** The file has an id and a token. *)
Definition identified (file : read_result) (i : ident) : Prop :=
  ∃ data, file = Read data ∧ Unmarshal dec_ident (Build_ident [] []) data = Some i ∧
          i_id i ≠ [] ∧ i_token i ≠ [].

(** What deleting does then. *)
Definition delete_events (Do : request → answer) (i : ident) : list delete_event :=
  let req := delete_req (i_id i) (i_token i) in
  (if sent (Do req) then [Sent req] else []) ++ [Removing].

Lemma DeleteRegistration_identified file Do remove i :
  identified file i →
  DeleteRegistration file Do remove =
    (match remove with RemoveFailed => Err CannotRemove | _ => Ok () end, delete_events Do i).
Proof.
  intros (data & -> & Hu & Hid & Htok). unfold DeleteRegistration. rewrite Hu.
  rewrite !bool_decide_eq_false_2 by done. cbn [orb]. unfold Delete, delete_events. cbv zeta.
  by destruct (Do (delete_req (i_id i) (i_token i))).
Qed.

Lemma DeleteRegistration_refused file Do remove :
  (¬ ∃ i, identified file i) →
  ∃ e, DeleteRegistration file Do remove = (Err e, []).
Proof.
  intros Hno. destruct file as [data| |]; [|by eexists..]. unfold DeleteRegistration.
  destruct (Unmarshal _ _ data) as [i|] eqn:Hu; [|by eexists].
  destruct (_ || _) eqn:Hor; [by eexists|]. destruct Hno. exists i, data.
  rewrite orb_false_iff, !bool_decide_eq_false in Hor. tauto.
Qed.

Lemma Removing_identified file Do remove :
  Removing ∈ snd (DeleteRegistration file Do remove) → ∃ i, identified file i.
Proof.
  destruct file as [data| |]; [|by intros ?%elem_of_nil..]. unfold DeleteRegistration.
  destruct (Unmarshal _ _ data) as [i|] eqn:Hu; [|by intros ?%elem_of_nil].
  destruct (_ || _) eqn:Hor; [by intros ?%elem_of_nil|]. intros _. exists i, data.
  rewrite orb_false_iff, !bool_decide_eq_false in Hor. tauto.
Qed.

(** What [Save] writes has the id and the token. *)
Lemma Save_identified r :
  wf r → ID r ≠ [] → Token r ≠ [] → identified (Read (Save r)) (Build_ident (ID r) (Token r)).
Proof.
  intros Hr Hid Htok. exists (Save r). split_and!; [done| |done..].
  change (Build_ident (ID r) (Token r)) with (ident_of (fields_of r)). apply Unmarshal_ident.
  unfold Unmarshal. rewrite parse_Save by done. by apply dec_registration_json, wf_ports.
Qed.

(** The pin of a registration just made does not fail. *)
Lemma Register_pin Do rnd r trace :
  Register Do rnd = (Ok r, trace) →
  PeerPublicKeyVerifier r = Ok None ∧ PeerPublicKey r = [] ∨
  ∃ verify, PeerPublicKeyVerifier r = Ok (Some verify) ∧ PeerPublicKey r ≠ [].
Proof.
  intros (regResp & e & k & pub & _ & _ & _ & _ & Hr & _)%Register_Ok.
  apply registration_of_Ok in Hr as (priv & pub' & peerKey & c & _ & _ & Hpeer & _ & ->).
  case_decide.
  - left. split; [by apply verifier_None|done].
  - right. apply pem_roundtrip in Hpeer as (key & _ & Hdec & _ & Hne).
    exists (verify_peer key). split; [by apply verifier_Some|done].
Qed.
End registration.
