(* ===== verification/RegistrationSamples.v ===== *)
(** * A concrete registration, for witnesses

    Keys are byte strings, encoded behind a tag; and an API that answers every call. *)

From Stdlib Require Import Init.Byte.
From S2P Require Import Prelude GoNet GoText Json JsonDecode Registration.

Definition toy_parse (der : list byte) : option (option (list byte)) :=
  match der with x30 :: k => Some (Some k) | x31 :: _ => Some None | _ => None end.

Definition toy : Crypto.
Proof.
  refine {| PrivateKey := list byte; PublicKey := list byte; Certificate := gostring * list byte;
    Public k := x50 :: k; GenerateKey n := Some [z2b (Z.of_nat n)];
    MarshalPKIXPublicKey k := Some (x30 :: k); ParsePKIXPublicKey := toy_parse;
    MarshalECPrivateKey k := Some (x32 :: k);
    ParseECPrivateKey der := match der with x32 :: k => Some k | _ => None end;
    ParsePKCS8PrivateKey der := None; pem_Decode := drop_prefix (str "PEM:");
    CreateCertificate now name k := Some (name, k); ParseCertificate := toy_parse;
    X25519_base k := Some k |}.
  - by intros k der [= <-].
  - by intros k der [= <-].
  - by intros k der [= <-].
Defined.

#[local] Existing Instance toy.

Definition toy_result (m : list (gostring * json)) : answer :=
  Response 200 (Marshal (JObj [(str "result", JObj m)])).

Definition toy_api (req : request) : answer :=
  if decide (Method req = str "POST") then
    toy_result [(str "id", JStr (str "dev1")); (str "token", JStr (str "tok"))]
  else if decide (Method req = str "PATCH") then
    toy_result [(str "id", JStr (str "dev1"));
      (str "config", JObj [
        (str "peers", JArr [JObj [
          (str "public_key", JStr (str "PEM:0edge"));
          (str "endpoint", JObj [(str "v4", JStr (str "162.159.198.2:0"));
             (str "v6", JStr (str "[2606:4700:103::2]:0"));
             (str "ports", JArr [JNum (str "443"); JNum (str "4500")])])]]);
        (str "interface", JObj [(str "addresses", JObj [(str "v4", JStr (str "172.16.0.2"))])])])]
  else Response 204 [].

Definition toy_entropy : entropy :=
  {| wg_bytes := Some (replicate 32 xff); serial_bytes := Some [x01; xab]; tos := str "2026";
     key_random := 7; cert_random := 0 |}.

Definition toy_registration : Registration := Eval vm_compute in
  match fst (Register toy_api toy_entropy) with
  | Ok r => r
  | _ => Build_Registration [] [] [] [] [] [] [] None None None [] [] nil_slice [] [] []
  end.

Definition toy_trace : list request := Eval vm_compute in snd (Register toy_api toy_entropy).

Lemma toy_registered : Register toy_api toy_entropy = (Ok toy_registration, toy_trace).
Proof. vm_compute. reflexivity. Qed.

Lemma toy_endpoint :
  (EndpointV4 toy_registration, EndpointV6 toy_registration, elems (EndpointPorts toy_registration)) =
  (str "162.159.198.2", str "2606:4700:103::2", Some [443; 4500]%Z).
Proof. by vm_compute. Qed.
