(* ===== verification/RegistrationSpec.v ===== *)
(** * Theorems on the registration

    The well-formedness invariant, the round trip through the file, the pin, what
    [Register] asks of the API, deletion, the endpoint's host, the clamped scalar. *)

From Stdlib Require Import Init.Byte.
From S2P Require Import Prelude GoNet GoNetFacts GoText Json JsonFacts JsonFuel JsonStrings JsonDecode JsonDecodeFacts Registration RegistrationFacts RegistrationSamples.

(** Little-endian value. *)
Definition le_value (l : list byte) : Z := foldr (λ b v, (b2z b + 256 * v)%Z) 0%Z l.

Lemma le_value_app a b : le_value (a ++ b) = (le_value a + 256 ^ Z.of_nat (length a) * le_value b)%Z.
Proof.
  induction a as [|x a IH]; [cbn [app length]; change (Z.of_nat 0) with 0%Z; cbn; lia|].
  cbn [app length le_value foldr] in *. fold (le_value (a ++ b)). fold (le_value a).
  rewrite IH, Nat2Z.inj_succ, Z.pow_succ_r by lia. lia.
Qed.

Lemma le_value_range l : (0 <= le_value l < 256 ^ Z.of_nat (length l))%Z.
Proof.
  induction l as [|x l IH]; [done|]. cbn [length le_value foldr]. fold (le_value l).
  rewrite Nat2Z.inj_succ, Z.pow_succ_r by lia. pose proof (b2z_range x). lia.
Qed.

Lemma clamp_first b : (b2z (z2b (Z.land (b2z b) 248)) mod 8 = 0)%Z.
Proof. destruct b; reflexivity. Qed.

Lemma clamp_last b : (64 <= b2z (z2b (Z.lor (b2z (z2b (Z.land (b2z b) 127))) 64)) < 128)%Z.
Proof.
  apply (bool_decide_unpack _). destruct b; reflexivity.
Qed.

Lemma clamp_shape k :
  length k = 32 → ∃ x y mid, clamp k = x :: mid ++ [y] ∧ length mid = 30 ∧
    (b2z x mod 8 = 0)%Z ∧ (64 <= b2z y < 128)%Z ∧ ∃ a b, k = a :: mid ++ [b].
Proof.
  intros Hk. destruct k as [|a k]; [done|]. destruct k as [|b mid _] using rev_ind; [done|].
  cbn [length] in Hk. rewrite length_app in Hk. cbn [length] in Hk.
  assert (Hm : length mid = 30) by lia.
  exists (z2b (Z.land (b2z a) 248)), (z2b (Z.lor (b2z (z2b (Z.land (b2z b) 127))) 64)), mid.
  split_and!; [|done|apply clamp_first|apply clamp_last..|by exists a, b].
  unfold clamp. cbn [alter list_alter].
  assert (Ha : ∀ f x, alter f 30 (mid ++ [x]) = mid ++ [f x]).
  { intros f x. rewrite <- Hm. clear. induction mid as [|y mid IH]; [done|]. cbn. f_equal. apply IH. }
  by rewrite !Ha.
Qed.

Section registration.
  Context `{crypto : Crypto}.

(** C25: Every registration the program holds is well formed, whether [Register] made it
    or [Load] read it: its strings are valid UTF-8 and its ports fit an [int], the
    private key is the one its text encodes, the public key is the other half, and the
    client certificate was made for its id with that key. *)
Theorem registration_well_formed :
  (∀ Do rnd r trace, Register Do rnd = (Ok r, trace) → wf r) ∧
  (∀ now file r, Load now file = Ok r → wf r).
Proof. split; [apply Register_wf|apply Load_wf]. Qed.

(** C9: What [Save] writes, [Load] reads back: every field, both keys and a certificate
    for the same id and key, whatever the strings contain; it fails only if no
    certificate can be made. *)
Theorem registration_reloaded r now :
  wf r → ∃ key, PrivKey r = Some key ∧
  Load now (Read (Save r)) =
    (cert ← err_map BadCert (buildClientCert now (ID r) key); Ok (reloaded r cert)).
Proof. apply Load_Save. Qed.

(** C6: The edge is pinned to the key the API handed out.  After [Register], [Save] and
    [Load], the verifier takes exactly the chains whose first certificate carries the
    key of the PEM text in the API's answer, and there is none only if the answer had
    no key; and for any registration, a key that cannot be parsed is an error, never
    a verifier left out. *)
Theorem edge_pinned Do rnd r trace now r' :
  Register Do rnd = (Ok r, trace) → Load now (Read (Save r)) = Ok r' →
  (∃ patch e, trace !! 1 = Some patch ∧
     status_ok (dec_wrapper dec_enroll_result) no_enroll_result (Do patch) = Ok e ∧
     let pem := p_public_key (first_peer e) in
     (pem = [] → PeerPublicKeyVerifier r' = Ok None) ∧
     (pem ≠ [] → ∃ key verify, pem_key pem = Some key ∧
        PeerPublicKeyVerifier r' = Ok (Some verify) ∧
        ∀ chain, verify chain = Ok () ↔
          ∃ raw rest, chain = raw :: rest ∧ ParseCertificate raw = Some (Some key))) ∧
  ∀ s, PeerPublicKeyVerifier s = Ok None ↔ PeerPublicKey s = [].
Proof.
  intros Hreg Hload. split; [|apply verifier_None].
  pose proof (Register_wf _ _ _ _ Hreg) as Hwf.
  destruct (Load_Save r now Hwf) as (key & _ & Hl). rewrite Hl in Hload.
  apply bind_Ok in Hload as (cert & _ & [= <-]).
  apply Register_Ok in Hreg as (regResp & e & k & pub & _ & _ & _ & He & Hr & ->).
  eexists _, e. split; [done|]. split; [exact He|]. cbv zeta.
  apply registration_of_Ok in Hr as (priv & pub' & peerKey & c & _ & _ & Hpeer & _ & ->).
  split; intros Hpem.
  - rewrite decide_True in Hpeer by done. by apply verifier_None.
  - rewrite decide_False in Hpeer by done.
    apply pem_roundtrip in Hpeer as (key' & Hkey & Hdec & _ & Hne).
    exists key', (verify_peer key'). split_and!; [done| |apply verify_peer_Ok].
    by apply verifier_Some.
Qed.

(** C31: [Register] asks the API at most twice and never panics.  The second call is made
    only after the first was answered with status 200 and JSON, to the id and with the
    token of that answer; a registration comes only of both calls.  It keeps the token,
    and the key pair whose public half the second call enrolled. *)
Theorem register_enrolls_its_key Do rnd :
  let '(res, trace) := Register Do rnd in
  let first := post (generateRandomWgPubkey (wg_bytes rnd)) (tos rnd) (generateRandomSerial (serial_bytes rnd)) in
  res ≠ Panic ∧
  (trace = [] ∨ trace = [first] ∨
   ∃ body regResp pub, trace = [first; patch (r_id regResp) (r_token regResp) pub] ∧
     Do first = Response 200 body ∧
     Unmarshal (dec_wrapper dec_reg_result) no_reg_result body = Some regResp) ∧
  ∀ r, res = Ok r →
    ∃ id key pub, trace = [first; patch id (Token r) pub] ∧ PublicKeyB64 r = pub ∧
      GenerateKey (key_random rnd) = Some key ∧ PrivKey r = Some key ∧
      decodePrivateKey (PrivateKeyB64 r) = Ok key ∧ decodePublicKey pub = Ok (Public key).
Proof.
  destruct (Register Do rnd) as [res trace] eqn:Hreg. intros first. split_and!.
  - unfold Register in Hreg. intros ->.
    destruct (status_ok _ no_reg_result _) as [regResp|e|] eqn:Hp; [|done|by apply status_ok_not_Panic in Hp].
    destruct (GenerateKey _); [|done]. destruct (MarshalPKIXPublicKey _); [|done].
    injection Hreg as Hr _. apply bind_Panic in Hr as [Hr|(e & _ & Hr)];
      [by apply status_ok_not_Panic in Hr|by apply registration_of_not_Panic in Hr].
  - unfold Register in Hreg. cbv zeta in Hreg. change (Registration.post _ _ _) with first in Hreg.
    destruct (Do first) as [| |code body] eqn:Hd; cbn [status_ok sent] in Hreg;
      [injection Hreg as _ <-; by left|injection Hreg as _ <-; right; by left|].
    unfold require in Hreg. case_bool_decide; [|injection Hreg as _ <-; right; by left]. subst code.
    cbn [mbind outcome_bind] in Hreg.
    destruct (Unmarshal _ _ body) as [regResp|] eqn:Hu; [|injection Hreg as _ <-; right; by left].
    cbn [of_option] in Hreg.
    destruct (GenerateKey _); [|injection Hreg as _ <-; right; by left].
    destruct (MarshalPKIXPublicKey _) as [der|]; [|injection Hreg as _ <-; right; by left].
    injection Hreg as _ <-. destruct (sent _); [|right; by left]. right; right.
    by exists body, regResp, (EncodeToString der).
  - intros r ->. apply Register_Ok in Hreg as (regResp & e & key & pub & _ & Hkey & Hpub & _ & Hr & ->).
    apply registration_of_Ok in Hr as (priv & pub' & peerKey & cert & Hpriv & Hpub' & _ & _ & ->).
    rewrite Hpub in Hpub'. injection Hpub' as <-.
    apply private_roundtrip in Hpriv as [Hpriv _]. apply public_roundtrip in Hpub as (Hpub & _).
    by exists (r_id regResp), key, pub.
Qed.

(** Deleting needs the id and the token only.  The API is asked at most once, with
    both, before the file is touched; whatever it answers, the file is then removed, and
    that alone decides the result; and a file without an id or a token, or that is not
    JSON, is left alone, the API is not asked, and it is an error. *)
Theorem registration_deleted file Do remove :
  let '(res, events) := DeleteRegistration file Do remove in
  (∀ i, identified file i →
     events = delete_events Do i ∧ (res = Ok () ↔ remove ≠ RemoveFailed)) ∧
  ((¬ ∃ i, identified file i) → events = [] ∧ is_ok res = false) ∧
  res ≠ Panic.
Proof.
  destruct (DeleteRegistration file Do remove) as [res events] eqn:Hd. split_and!.
  - intros i Hi. rewrite (DeleteRegistration_identified _ _ _ _ Hi) in Hd. injection Hd as <- <-.
    split; [done|]. by destruct remove.
  - intros Hno. destruct (DeleteRegistration_refused file Do remove Hno) as [e He].
    rewrite He in Hd. by injection Hd as <- <-.
  - unfold DeleteRegistration in Hd. intros ->. destruct file; [|done..].
    destruct (Unmarshal _ _ _); [|done]. destruct (_ || _); [done|].
    destruct (Delete _ _ _). injection Hd as Hd _. by destruct remove.
Qed.

(** Deleting goes where [Load] does not: any file that is JSON of a registration
    with an id and a token is deleted, with the id and token [Load] would have read,
    even when [Load] refuses it because its private key cannot be parsed or no
    certificate can be made. *)
Theorem deletion_needs_no_key now data Do remove :
  Load now (Read data) ≠ Err BadJSON →
  ∃ f, Unmarshal dec_registration no_fields data = Some f ∧
    (∀ r, Load now (Read data) = Ok r → ID r = f_id f ∧ Token r = f_token f) ∧
    (f_id f ≠ [] → f_token f ≠ [] → remove ≠ RemoveFailed →
     DeleteRegistration (Read data) Do remove = (Ok (), delete_events Do (ident_of f))).
Proof.
  intros Hload. unfold Load in *.
  destruct (Unmarshal dec_registration no_fields data) as [f|] eqn:Hf; [|done].
  exists f. split; [done|]. split.
  - by intros r (g & [= <-] & (key & _ & (cert & _ & [= <-])%bind_Ok)%bind_Ok)%bind_Ok.
  - intros Hid Htok Hrm. rewrite (DeleteRegistration_identified _ _ _ (ident_of f)).
    + by destruct remove.
    + exists data. split_and!; [done|by apply Unmarshal_ident|done..].
Qed.

(** The endpoint's host is what is behind a port or brackets: of [h], [[h]], [h:p]
    and [[h]:p], for a host and a port without brackets, it is [h]; and the main program
    joins it to any port so that it is split again. *)
Theorem endpoint_host h p port :
  h ≠ [] → clean_host h → clean_port p → clean_port port →
  endpoint_v4 (JoinHostPort h p) = h ∧ endpoint_v6 (JoinHostPort h p) = h ∧
  endpoint_v6 (lbrack :: h ++ [rbrack]) = h ∧
  (colon ∉ h → endpoint_v4 h = h) ∧
  (∀ h1 h2, h = h1 ++ colon :: h2 → colon ∈ h2 → endpoint_v6 h = h) ∧
  SplitHostPort (JoinHostPort h port) = Ok (h, port).
Proof.
  intros Hne Hh Hp Hport.
  assert (Hj : JoinHostPort h p ≠ []).
  { unfold JoinHostPort. case_decide; [done|]. by destruct h. }
  unfold endpoint_v4, endpoint_v6. rewrite !(decide_False (P := JoinHostPort h p = [])), !split_join by done.
  split_and!; [done|done| | | |done].
  - rewrite decide_False by done. pose proof (split_bracketed h Hh) as Hb.
    destruct (SplitHostPort _) as [[? ?]| |]; [done|..]; by apply Trim_brackets.
  - intros Hc. rewrite decide_False by done. by rewrite split_error.
  - intros h1 h2 Heq Hc. rewrite decide_False by done.
    destruct (SplitHostPort h) as [[h' p']| |] eqn:Hs; [|by apply Trim_none..]. exfalso.
    by eapply split_one_colon.
Qed.

(** The throwaway key is a clamped Curve25519 scalar: of 32 random bytes, read in
    little-endian order, it is a multiple of 8 from 2^254 up to 2^255, and the 30 bytes
    in the middle are left as they are. *)
Theorem wg_scalar_clamped k :
  length k = 32 →
  generateRandomWgPubkey (Some k) =
    match X25519_base (clamp k) with Some pub => EncodeToString pub | None => [] end ∧
  length (clamp k) = 32 ∧
  (2 ^ 254 <= le_value (clamp k) < 2 ^ 255)%Z ∧ (le_value (clamp k) mod 8 = 0)%Z ∧
  ∀ i, 0 < i < 31 → clamp k !! i = k !! i.
Proof.
  intros Hk. split; [done|].
  destruct (clamp_shape k Hk) as (x & y & mid & -> & Hm & Hx & Hy & a & b & ->).
  pose proof (le_value_range mid) as Hmid. rewrite Hm in Hmid.
  assert (Hv : le_value (x :: mid ++ [y]) = (b2z x + 256 * (le_value mid + 256 ^ 30 * b2z y))%Z).
  { cbn [le_value foldr]. fold (le_value (mid ++ [y])). rewrite le_value_app, Hm.
    cbn [le_value foldr]. lia. }
  rewrite Hv. pose proof (b2z_range x).
  change (256 ^ Z.of_nat 30)%Z with (256 ^ 30)%Z in Hmid.
  split_and!.
  - cbn. rewrite length_app. cbn. lia.
  - nia.
  - nia.
  - Z.to_euclidean_division_equations; nia.
  - intros i Hi. destruct i as [|i]; [lia|]. rewrite <- !lookup_tail. cbn [tail].
    by rewrite !lookup_app_l by lia.
Qed.
End registration.

(** ** Witnesses *)

#[local] Existing Instance toy.

Lemma registration_well_formed_witness : wf toy_registration.
Proof.
  exact (proj1 registration_well_formed _ _ _ _ toy_registered).
Defined.

Lemma registration_reloaded_witness :
  wf toy_registration ∧
  ∃ cert, Load 1 (Read (Save toy_registration)) = Ok (reloaded toy_registration cert).
Proof.
  assert (Hwf : wf toy_registration) by exact (Register_wf _ _ _ _ toy_registered).
  split; [exact Hwf|]. destruct (registration_reloaded toy_registration 1 Hwf) as (key & Hk & Hl).
  injection Hk as <-. eexists. exact Hl.
Defined.

(** The pinned chain, another key, and no certificate. *)
Lemma edge_pinned_witness :
  ∃ r' verify, Load 1 (Read (Save toy_registration)) = Ok r' ∧
    PeerPublicKeyVerifier r' = Ok (Some verify) ∧
    verify [str "0edge"; []] = Ok () ∧ verify [str "0other"] ≠ Ok () ∧ verify [] ≠ Ok ().
Proof.
  destruct (Load_Save toy_registration 1 (Register_wf _ _ _ _ toy_registered)) as (key & Hk & Hl).
  injection Hk as <-. eexists.
  destruct (edge_pinned _ _ _ _ _ _ toy_registered Hl) as [(patch & e & Hp & He & _ & Hsome) _].
  vm_compute in Hp. injection Hp as <-. vm_compute in He. injection He as <-.
  destruct Hsome as (k & verify & Hkey & Hv & Hiff); [by vm_compute|].
  vm_compute in Hkey. injection Hkey as <-. exists verify. split_and!; [exact Hl|exact Hv|..].
  - apply Hiff. exists (str "0edge"), [[]]. split; reflexivity.
  - by intros (raw & rest & [= <- <-] & Hp)%Hiff.
  - by intros (raw & rest & [=] & _)%Hiff.
Defined.

(** A file without a private key is refused, and can be deleted. *)
Lemma deletion_needs_no_key_witness :
  let data := Marshal (JObj [(str "id", JStr (str "dev1")); (str "token", JStr (str "tok"));
                             (str "private_key", JStr (str "???"))]) in
  Load 0 (Read data) = Err (BadPrivateKey BadBase64) ∧
  DeleteRegistration (Read data) toy_api Removed =
    (Ok (), [Sent (delete_req (str "dev1") (str "tok")); Removing]).
Proof.
  intros data. assert (Hl : Load 0 (Read data) = Err (BadPrivateKey BadBase64)) by by vm_compute.
  split; [exact Hl|].
  destruct (deletion_needs_no_key 0 data toy_api Removed) as (f & Hf & _ & Hd); [by rewrite Hl|].
  vm_compute in Hf. injection Hf as <-. rewrite Hd by done. by vm_compute.
Defined.

Lemma endpoint_host_witness :
  let h := str "2606:4700:103::2" in
  endpoint_v6 (str "[2606:4700:103::2]:0") = h ∧ endpoint_v6 (str "[2606:4700:103::2]") = h ∧
  endpoint_v6 h = h ∧ SplitHostPort (JoinHostPort h (str "443")) = Ok (h, str "443").
Proof.
  intros h.
  destruct (endpoint_host h (str "0") (str "443")) as (_ & H1 & H2 & _ & H3 & H4);
    [done|apply (bool_decide_unpack _); by vm_compute..|].
  split_and!; [exact H1|exact H2| |exact H4].
  apply (H3 (str "2606") (str "4700:103::2")); [done|apply (bool_decide_unpack _); by vm_compute].
Defined.

Lemma wg_scalar_clamped_witness :
  let k := replicate 32 xff in
  length k = 32 ∧ le_value (clamp k) = (2 ^ 255 - 8)%Z ∧ (2 ^ 254 <= le_value (clamp k) < 2 ^ 255)%Z.
Proof.
  intros k. split_and!; [done|by vm_compute|..]; by apply (wg_scalar_clamped k).
Defined.
