(* ===== verification/Startup.v ===== *)
(** * The command and the registration together (src/main.go with src/registration/)

    One invocation of the command on the state file: [Main.run_main], with its calls
    into the registration package filled in, and the file it leaves. *)

From Stdlib Require Import Init.Byte.
From S2P Require Import Prelude GoNet GoNetFacts GoText Json JsonFacts JsonFuel JsonStrings JsonDecode JsonDecodeFacts Main MainFacts Registration RegistrationFacts.

(** What [os.WriteFile] leaves: the data, or on an error whatever is there then. *)
Inductive write_result := Written | WriteFailed (remains : read_result).

Section startup.
  Context `{crypto : Crypto}.

(** What an invocation meets. *)
Record env := {
  Do : request → answer;
  rnd : entropy;
  now : nat;
  write : write_result;
  os_Remove : remove_result;
  LookupIPAddr : gostring → option (list (list byte));
  newH3Client : list gostring → bool;
  newH2Client : list gostring → bool;
  net_Listen : bool
}.

(** What [main] reads of a registration to choose addresses. *)
Definition view (r : Registration) : registration :=
  {| Main.EndpointV4 := EndpointV4 r; Main.EndpointV6 := EndpointV6 r;
     Main.EndpointPorts := default [] (elems (EndpointPorts r)) |}.

Definition loaded (e : env) (file : read_result) : load_result :=
  match Registration.Load (now e) file with
  | Ok r => Loaded (view r)
  | Err FileMissing => NotExist
  | _ => LoadFailed
  end.

Definition pinned (e : env) (file : read_result) : option bool :=
  match Registration.Load (now e) file with
  | Ok r =>
      match PeerPublicKeyVerifier r with
      | Ok verifyEdge => Some (bool_decide (is_Some verifyEdge))
      | _ => None
      end
  | _ => None
  end.

(** The results of the calls. *)
Definition calls (e : env) (file : read_result) : world :=
  {| Main.DeleteRegistration := is_ok (fst (Registration.DeleteRegistration file (Do e) (os_Remove e)));
     Main.Load := loaded e file;
     Main.Register := is_ok (fst (Registration.Register (Do e) (rnd e)));
     Main.Save := match write e with Written => true | _ => false end;
     Main.pin := pinned e file;
     Main.newH3 := newH3Client e;
     Main.newH2 := newH2Client e;
     Main.Listen := net_Listen e |}.

(** The requests of an invocation, in order. *)
Definition requests (e : env) (file : read_result) (acts : list action) : list request :=
  flat_map (λ a,
    match a with
    | Deleting =>
        omap (λ ev, match ev with Sent req => Some req | Removing => None end)
          (snd (Registration.DeleteRegistration file (Do e) (os_Remove e)))
    | Registering => snd (Registration.Register (Do e) (rnd e))
    | _ => []
    end) acts.

(** The file after one of its actions. *)
Definition file_after (e : env) (file : read_result) (a : action) : read_result :=
  match a with
  | Deleting =>
      if bool_decide (Removing ∈ snd (Registration.DeleteRegistration file (Do e) (os_Remove e))) then
        match os_Remove e with RemoveFailed => file | _ => NoSuchFile end
      else file
  | Saving =>
      match fst (Registration.Register (Do e) (rnd e)), write e with
      | Ok r, Written => Read (Registration.Save r)
      | Ok _, WriteFailed remains => remains
      | _, _ => file
      end
  | _ => file
  end.

(** How it ends, what it does, and the file it leaves. *)
Definition invoke (e : env) (f : flags) (file : read_result) : ending * list action * read_result :=
  let '(ending, acts) := run_main (LookupIPAddr e) (calls e file) f in
  (ending, acts, foldl (file_after e) file acts).

End startup.
