(* ===== verification/StartupFacts.v ===== *)
(** * What the command does to the registration over its lifetime

    The file is made by [-reg] only, read by every run, and removed by [-del] only. *)

From Stdlib Require Import Init.Byte.
From S2P Require Import Prelude GoNet GoNetFacts GoText Json JsonFacts JsonFuel JsonStrings JsonDecode JsonDecodeFacts Main MainFacts Registration RegistrationFacts RegistrationSamples Startup.

Section startup.
  Context `{crypto : Crypto}.

Definition valid_transport (f : flags) : Prop := f_transport f ∈ [str "auto"; str "h3"; str "h2"].

#[local] Instance valid_transport_dec f : Decision (valid_transport f).
Proof. unfold valid_transport. apply _. Defined.

(** The three jobs. *)
Lemma run_del Lookup w f :
  valid_transport f → f_del f = true →
  run_main Lookup w f = (if Main.DeleteRegistration w then Return else Fatal, [Deleting]).
Proof. intros Hv Hd. unfold run_main. by rewrite bool_decide_eq_true_2, Hd. Qed.

Lemma run_register Lookup w f :
  valid_transport f → f_del f = false → f_reg f = true → run_main Lookup w f = run_reg w.
Proof. intros Hv Hd Hr. unfold run_main. by rewrite bool_decide_eq_true_2, Hd, Hr. Qed.

Lemma run_start Lookup w f :
  valid_transport f → f_del f = false → f_reg f = false →
  run_main Lookup w f =
    match Main.Load w with Loaded reg => run_proxy Lookup w (f_transport f) (f_ip f) reg | _ => (Fatal, []) end.
Proof. intros Hv Hd Hr. unfold run_main. by rewrite bool_decide_eq_true_2, Hd, Hr. Qed.

Lemma run_invalid Lookup w f : ¬ valid_transport f → run_main Lookup w f = (Fatal, []).
Proof. intros Hv. unfold run_main. by rewrite bool_decide_eq_false_2. Qed.

(** Starting leaves the file alone. *)
Definition quiet (a : action) : Prop := match a with Connecting _ _ _ | Listening => True | _ => False end.

Lemma connect_quiet w t p h3 h2 : Forall quiet (snd (connect w t p h3 h2)).
Proof. unfold connect. repeat case_decide; repeat case_match; repeat constructor. Qed.

Lemma run_proxy_quiet Lookup w t ip reg : Forall quiet (snd (run_proxy Lookup w t ip reg)).
Proof.
  unfold run_proxy. destruct (edgeAddrs Lookup ip reg) as [[h3 h2]|]; [|constructor].
  destruct (pin w) as [p|]; [|constructor]. pose proof (connect_quiet w t p h3 h2) as Hq.
  destruct (connect w t p h3 h2) as [[k|] tr]; [|done]. destruct (Listen w); [|done].
  apply Forall_app. split; [done|]. by repeat constructor.
Qed.

Lemma file_after_quiet e file acts : Forall quiet acts → foldl (file_after e) file acts = file.
Proof. intros Hq. revert file. induction Hq as [|[] acts Ha _ IH]; intros file; try done; apply IH. Qed.

Lemma requests_quiet e file acts : Forall quiet acts → requests e file acts = [].
Proof. induction 1 as [|[] acts Ha _ IH]; try done. Qed.

Lemma loaded_file e file :
  loaded e file = NotExist ↔ file = NoSuchFile.
Proof.
  unfold loaded. split; [|by intros ->]. destruct file as [data| |]; try done.
  destruct (Registration.Load (now e) (Read data)) as [r|[]|] eqn:Hl; try done.
  unfold Registration.Load in Hl. destruct (Unmarshal _ _ data); [|done]. cbn [of_option mbind outcome_bind] in Hl.
  destruct (decodePrivateKey _); cbn [err_map] in Hl; [|done..].
  cbn [mbind outcome_bind] in Hl. by destruct (buildClientCert (now e) _ _).
Qed.

(** What an invocation leaves, by its job. *)
Lemma invoke_file e f file :
  let '(ending, acts, file') := invoke e f file in
  (file' = file ∧ requests e file acts = []) ∨
  (f_del f = true ∧ acts = [Deleting] ∧ file' = file_after e file Deleting) ∨
  (f_del f = false ∧ f_reg f = true ∧ file = NoSuchFile ∧
   (acts = [Registering] ∧ file' = file ∨
    acts = [Registering; Saving] ∧ ∃ r, fst (Registration.Register (Do e) (rnd e)) = Ok r ∧
      file' = match write e with Written => Read (Registration.Save r) | WriteFailed rest => rest end)).
Proof.
  unfold invoke. destruct (run_main _ _ f) as [ending acts] eqn:Hrun.
  destruct (decide (valid_transport f)) as [Hv|Hv].
  2:{ rewrite run_invalid in Hrun by done. injection Hrun as _ <-. left; split; reflexivity. }
  destruct (f_del f) eqn:Hd.
  { rewrite run_del in Hrun by done. injection Hrun as _ <-. right; left. split_and!; reflexivity. }
  destruct (f_reg f) eqn:Hr.
  - rewrite run_register in Hrun by done. unfold run_reg in Hrun. cbn [Main.Load Main.Register Main.Save calls] in Hrun.
    destruct (loaded e file) as [r| |] eqn:Hl; [injection Hrun as _ <-; left; split; reflexivity| |injection Hrun as _ <-; by left].
    apply loaded_file in Hl as ->. right; right. split_and!; [done..|].
    destruct (Registration.Register (Do e) (rnd e)) as [[r|err|] tr] eqn:Hreg; cbn [fst is_ok negb] in Hrun.
    2-3: injection Hrun as _ <-; left; split; reflexivity.
    right. split; [by destruct (write e); injection Hrun as _ <-|]. exists r. split; [done|].
    destruct (write e) eqn:Hw; cbn [negb] in Hrun; injection Hrun as _ <-; cbn [foldl file_after];
      rewrite Hreg, Hw; reflexivity.
  - rewrite run_start in Hrun by done. left.
    assert (Hq : Forall quiet acts).
    { cbn [Main.Load calls] in Hrun. destruct (loaded e file) as [r| |];
        [|injection Hrun as _ <-; constructor..].
      change acts with (snd (ending, acts)). rewrite <- Hrun. apply run_proxy_quiet. }
    split; [by apply file_after_quiet|by apply requests_quiet].
Qed.

Lemma connect_head w t p h3 h2 :
  t ∈ [str "auto"; str "h3"; str "h2"] →
  head (snd (connect w t p h3 h2)) =
    Some (if decide (t = str "h2") then Connecting H2 p h2 else Connecting H3 p h3) ∧
  ∀ k p' a, Connecting k p' a ∈ snd (connect w t p h3 h2) →
    p' = p ∧ a = match k with H3 => h3 | H2 => h2 end.
Proof.
  intros Ht. unfold connect.
  repeat (case_decide; [subst; try done|]);
    repeat case_match; (split; [done|]); cbn [snd]; intros k p' a;
    rewrite ?elem_of_cons, ?elem_of_nil; naive_solver.
Qed.

(** Starting dials, if there is an address. *)
Lemma run_proxy_dials Lookup w t ip reg h3 h2 p :
  t ∈ [str "auto"; str "h3"; str "h2"] → edgeAddrs Lookup ip reg = Some (h3, h2) → pin w = Some p →
  head (snd (run_proxy Lookup w t ip reg)) =
    Some (if decide (t = str "h2") then Connecting H2 p h2 else Connecting H3 p h3) ∧
  ∀ k p' a, Connecting k p' a ∈ snd (run_proxy Lookup w t ip reg) →
    p' = p ∧ a = match k with H3 => h3 | H2 => h2 end.
Proof.
  intros Ht He Hp. unfold run_proxy. rewrite He, Hp.
  destruct (connect_head w t p h3 h2 Ht) as [Hh Hall].
  destruct (connect w t p h3 h2) as [[k|] tr]; [|done]. cbn [snd] in *.
  destruct (Listen w); [|done]. cbn [snd]. split.
  - by destruct tr.
  - intros k' p' a [Hin|Hin]%elem_of_app; [by apply Hall|]. by apply list_elem_of_singleton in Hin.
Qed.

(** C19: A credential leaves the disk only by [-del].  Over any sequence of invocations,
    a state file that is there stays as it is up to a first invocation with [-del], which
    removes it only if it has an id and a token, and sends the API the request to
    delete that registration (unless its address is refused). *)
Theorem credential_kept (steps : list (env * flags)) file :
  file ≠ NoSuchFile →
  foldl (λ file '(e, f), snd (invoke e f file)) file steps ≠ file →
  ∃ before e f after i, steps = before ++ (e, f) :: after ∧
    foldl (λ file '(e, f), snd (invoke e f file)) file before = file ∧
    f_del f = true ∧ identified file i ∧
    let '(_, acts, file') := invoke e f file in
    file' = NoSuchFile ∧
    let req := delete_req (i_id i) (i_token i) in
    requests e file acts = if sent (Do e req) then [req] else [].
Proof.
  intros Hfile. induction steps as [|[e f] steps IH]; [done|]. cbn [foldl]. intros Hne.
  pose proof (invoke_file e f file) as Hf. destruct (invoke e f file) as [[ending acts] file'] eqn:Hinv.
  assert (Hagain : file' = file → ∃ before e0 f0 after i, (e, f) :: steps = before ++ (e0, f0) :: after ∧
    foldl (λ file '(e, f), snd (invoke e f file)) file before = file ∧ f_del f0 = true ∧
    identified file i ∧ let '(_, acts, file') := invoke e0 f0 file in
    file' = NoSuchFile ∧ let req := delete_req (i_id i) (i_token i) in
    requests e0 file acts = if sent (Do e0 req) then [req] else []).
  { intros ->. cbn [snd] in Hne. destruct (IH Hne) as (before & e0 & f0 & after & i & -> & Hb & H).
    exists ((e, f) :: before), e0, f0, after, i. split; [done|]. cbn [foldl]. by rewrite Hinv. }
  destruct Hf as [[Hsame _]|[(Hd & -> & Hafter)|(_ & _ & ? & _)]]; [by apply Hagain| |done].
  cbn [file_after] in Hafter. case_bool_decide as Hrm; [|by apply Hagain].
  destruct (Removing_identified _ _ _ Hrm) as [i Hi].
  destruct (os_Remove e) eqn:Hos; [| |by apply Hagain].
  all: exists [], e, f, steps, i; (split; [done|]); (split; [done|]); (split; [done|]); (split; [done|]);
    rewrite Hinv; (split; [done|]); cbn [requests flat_map];
    rewrite (DeleteRegistration_identified _ _ _ _ Hi); cbn [snd]; unfold delete_events;
    by destruct (Do e _).
Qed.

(** Loading what was saved, in any environment that can make a certificate. *)
Lemma loaded_saved e r key cert :
  wf r → PrivKey r = Some key → buildClientCert (now e) (ID r) key = Ok cert →
  Registration.Load (now e) (Read (Registration.Save r)) = Ok (reloaded r cert) ∧
  loaded e (Read (Registration.Save r)) = Loaded (view r).
Proof.
  intros Hwf Hk Hc. destruct (Load_Save r (now e) Hwf) as (key' & Hk' & Hl).
  rewrite Hk in Hk'. injection Hk' as <-. rewrite Hc in Hl. cbn [err_map mbind outcome_bind] in Hl.
  split; [done|]. unfold loaded. by rewrite Hl.
Qed.

Definition flags_of (transport ip : gostring) (reg del : bool) : flags :=
  {| f_transport := transport; f_del := del; f_reg := reg; f_ip := ip |}.

(** C10: The command's life cycle.  With no state file, [-reg] registers and writes one;
    [-reg] again does nothing; a run without it dials the addresses of that
    registration, first over H3 unless [-transport h2], and pins the edge exactly if
    the API gave a key, and leaves the file alone; and [-del] asks the API to delete
    that registration and removes the file. *)
Theorem registered_then_runs e1 e2 r trace key cert transport ip :
  transport ∈ [str "auto"; str "h3"; str "h2"] →
  Registration.Register (Do e1) (rnd e1) = (Ok r, trace) → write e1 = Written →
  PrivKey r = Some key → buildClientCert (now e2) (ID r) key = Ok cert →
  let file := Read (Registration.Save r) in
  invoke e1 (flags_of transport ip true false) NoSuchFile = (Return, [Registering; Saving], file) ∧
  invoke e2 (flags_of transport ip true false) file = (Return, [], file) ∧
  (∀ h3 h2, edgeAddrs (LookupIPAddr e2) ip (view r) = Some (h3, h2) →
     let '(_, acts, file') := invoke e2 (flags_of transport ip false false) file in
     let pin := bool_decide (PeerPublicKey r ≠ []) in
     file' = file ∧
     head acts = Some (if decide (transport = str "h2") then Connecting H2 pin h2 else Connecting H3 pin h3) ∧
     ∀ k p a, Connecting k p a ∈ acts → p = pin ∧ a = match k with H3 => h3 | H2 => h2 end) ∧
  (ID r ≠ [] → Token r ≠ [] → os_Remove e2 = Removed →
     let '(ending, acts, file') := invoke e2 (flags_of transport ip false true) file in
     let req := delete_req (ID r) (Token r) in
     ending = Return ∧ file' = NoSuchFile ∧
     requests e2 file acts = if sent (Do e2 req) then [req] else []).
Proof.
  intros Ht Hreg Hw Hk Hc file. pose proof (Register_wf _ _ _ _ Hreg) as Hwf.
  destruct (loaded_saved e2 r key cert Hwf Hk Hc) as [Hload Hview].
  fold file in Hload, Hview. unfold invoke. split_and!.
  - rewrite run_register by done. unfold run_reg. cbn [Main.Load Main.Register Main.Save calls].
    rewrite Hreg, Hw. cbn [loaded Registration.Load fst is_ok negb foldl file_after].
    by rewrite Hreg, Hw.
  - rewrite run_register by done. unfold run_reg. cbn [Main.Load calls]. by rewrite Hview.
  - intros h3 h2 He. rewrite run_start by done. cbn [Main.Load calls]. rewrite Hview.
    cbn [f_transport f_ip flags_of].
    pose proof (run_proxy_quiet (LookupIPAddr e2) (calls e2 file) transport ip (view r)) as Hq.
    destruct (run_proxy_dials (LookupIPAddr e2) (calls e2 file) transport ip (view r) h3 h2
      (bool_decide (PeerPublicKey r ≠ []))) as [Hh Hall]; [done|done| |].
    { cbn [pin calls]. unfold pinned. rewrite Hload.
      change (PeerPublicKeyVerifier (reloaded r cert)) with (PeerPublicKeyVerifier r).
      destruct (Register_pin _ _ _ _ Hreg) as [[-> ->]|(v & -> & Hne)]; [done|].
      by rewrite (bool_decide_eq_true_2 _ Hne). }
    destruct (run_proxy _ _ _ _ _) as [ending acts]. cbn [snd] in *.
    split; [by apply file_after_quiet|]. by split.
  - intros Hid Htok Hos. rewrite run_del by done. cbn [Main.DeleteRegistration calls foldl file_after].
    pose proof (Save_identified r Hwf Hid Htok) as Hi. fold file in Hi.
    rewrite (DeleteRegistration_identified _ _ _ _ Hi), Hos. cbn [fst snd is_ok].
    rewrite bool_decide_eq_true_2 by (unfold delete_events; apply elem_of_app; right; by left).
    split_and!; [done|done|]. cbn [requests flat_map].
    rewrite (DeleteRegistration_identified _ _ _ _ Hi). cbn [snd]. unfold delete_events.
    by destruct (Do e2 _).
Qed.
End startup.

(** ** Witnesses *)

#[local] Existing Instance toy.

Definition toy_env : env :=
  {| Do := toy_api; rnd := toy_entropy; now := 3; write := Written; os_Remove := Removed;
     LookupIPAddr := λ _, None; newH3Client := λ _, false; newH2Client := λ _, true;
     net_Listen := true |}.

Lemma credential_kept_witness :
  let file := Read (Registration.Save toy_registration) in
  let steps := [(toy_env, flags_of (str "auto") (str "6") false false);
                (toy_env, flags_of (str "auto") (str "4") true false);
                (toy_env, flags_of (str "h2") (str "4") false true)] in
  foldl (λ file '(e, f), snd (invoke e f file)) file steps = NoSuchFile ∧
  ∃ e f i, (e, f) ∈ steps ∧ f_del f = true ∧ identified file i.
Proof.
  intros file steps.
  assert (Hs : foldl (λ file '(e, f), snd (invoke e f file)) file steps = NoSuchFile)
    by (vm_compute; reflexivity).
  split; [exact Hs|].
  destruct (credential_kept steps file) as (before & e & f & after & i & Heq & _ & Hd & Hi & _).
  - intros [=].
  - rewrite Hs. intros [=].
  - exists e, f, i. rewrite Heq. split; [|by split]. apply elem_of_app. right. by left.
Defined.

Lemma registered_then_runs_witness :
  let file := Read (Registration.Save toy_registration) in
  invoke toy_env (flags_of (str "auto") (str "6") true false) NoSuchFile =
    (Return, [Registering; Saving], file) ∧
  snd (fst (invoke toy_env (flags_of (str "auto") (str "6") false false) file)) =
    [Connecting H3 true [str "[2606:4700:103::2]:443"; str "[2606:4700:103::2]:4500"];
     Connecting H2 true [str "[2606:4700:103::2]:443"]; Listening] ∧
  head (snd (fst (invoke toy_env (flags_of (str "auto") (str "6") false false) file))) =
    Some (Connecting H3 true [str "[2606:4700:103::2]:443"; str "[2606:4700:103::2]:4500"]).
Proof.
  intros file.
  destruct (registered_then_runs toy_env toy_env toy_registration toy_trace [x07]
    (str "dev1.masque2.cloudflareclient.com", [x07]) (str "auto") (str "6")) as (H1 & _ & H3 & _);
    [by left|exact toy_registered|reflexivity..|].
  split; [exact H1|]. split; [vm_compute; reflexivity|].
  assert (He : edgeAddrs (LookupIPAddr toy_env) (str "6") (view toy_registration) =
    Some ([str "[2606:4700:103::2]:443"; str "[2606:4700:103::2]:4500"], [str "[2606:4700:103::2]:443"]))
    by (vm_compute; reflexivity).
  specialize (H3 _ _ He). fold file in H3. revert H3.
  destruct (invoke toy_env (flags_of (str "auto") (str "6") false false) file) as [[ending acts] file'].
  intros (_ & H3 & _). exact H3.
Defined.
