(* ===== verification/CommandLine.v ===== *)
(** * The command line (src/main.go)

    [main] from [os.Args] on: the flags it defines, as the [flag] package of the
    standard library reads them, and what it does with them. *)

From Stdlib Require Import Init.Byte.
From S2P Require Import Prelude GoNet GoText Json Socks5Wire Main Registration Startup.

(** ** The flags of main *)

Record settings := Settings {
  s_listen : gostring; s_user : gostring; s_pass : gostring; s_ip : gostring;
  s_transport : gostring; s_selfTest : bool; s_reg : bool; s_del : bool
}.

Definition defaults : settings :=
  Settings (str ":40000") [] [] (str "4") (str "auto") false false false.

(** A [flag.String] or a [flag.Bool], with the variable it sets. *)
Inductive formal :=
  | StringFlag (set : gostring → settings → settings)
  | BoolFlag (set : bool → settings → settings).

Definition formal_flags : list (gostring * formal) :=
  [ (str "l", StringFlag (λ v s, Settings v (s_user s) (s_pass s) (s_ip s) (s_transport s) (s_selfTest s) (s_reg s) (s_del s)));
    (str "user", StringFlag (λ v s, Settings (s_listen s) v (s_pass s) (s_ip s) (s_transport s) (s_selfTest s) (s_reg s) (s_del s)));
    (str "pass", StringFlag (λ v s, Settings (s_listen s) (s_user s) v (s_ip s) (s_transport s) (s_selfTest s) (s_reg s) (s_del s)));
    (str "ip", StringFlag (λ v s, Settings (s_listen s) (s_user s) (s_pass s) v (s_transport s) (s_selfTest s) (s_reg s) (s_del s)));
    (str "transport", StringFlag (λ v s, Settings (s_listen s) (s_user s) (s_pass s) (s_ip s) v (s_selfTest s) (s_reg s) (s_del s)));
    (str "self-test", BoolFlag (λ b s, Settings (s_listen s) (s_user s) (s_pass s) (s_ip s) (s_transport s) b (s_reg s) (s_del s)));
    (str "reg", BoolFlag (λ b s, Settings (s_listen s) (s_user s) (s_pass s) (s_ip s) (s_transport s) (s_selfTest s) b (s_del s)));
    (str "del", BoolFlag (λ b s, Settings (s_listen s) (s_user s) (s_pass s) (s_ip s) (s_transport s) (s_selfTest s) (s_reg s) b)) ].

Fixpoint assoc {V} (k : gostring) (l : list (gostring * V)) : option V :=
  match l with [] => None | (k', v) :: l => if decide (k = k') then Some v else assoc k l end.

Definition lookup_flag (name : gostring) : option formal := assoc name formal_flags.

(** ** flag.Parse *)

(** [strconv.ParseBool] *)
Definition ParseBool (s : gostring) : option bool :=
  if decide (s ∈ [str "1"; str "t"; str "T"; str "true"; str "TRUE"; str "True"]) then Some true
  else if decide (s ∈ [str "0"; str "f"; str "F"; str "false"; str "FALSE"; str "False"]) then Some false
  else None.

Definition minus : byte := x2d.
Definition equals : byte := x3d.

(** A flag's name, and its value if there is an equals sign. *)
Fixpoint cut (s : gostring) : gostring * option gostring :=
  match s with
  | [] => ([], None)
  | c :: s' => if decide (c = equals) then ([], Some s') else let '(n, v) := cut s' in (c :: n, v)
  end.

Inductive flag_error := BadSyntax | NotDefined | InvalidBoolean | NeedsArgument.

(** What one turn of the parser comes to: the flags are over, one was set, [ErrHelp], or
    an error. *)
Inductive turn :=
  | Stop (rest : list gostring)
  | Seen (s : settings) (rest : list gostring)
  | HelpAsked
  | Refused (e : flag_error).

(** [FlagSet.parseOne] *)
Definition parseOne (s : settings) (args : list gostring) : turn :=
  match args with
  | [] => Stop []
  | arg :: rest =>
      if bool_decide (length arg < 2) || negb (bool_decide (arg !! 0 = Some minus)) then Stop args
      else
        let two := bool_decide (arg !! 1 = Some minus) in
        if two && bool_decide (length arg = 2) then Stop rest
        else
          let name := drop (if two then 2 else 1) arg in
          if bool_decide (name !! 0 ∈ [None; Some minus; Some equals]) then Refused BadSyntax
          else
            let '(name, value) := cut name in
            match lookup_flag name with
            | None => if bool_decide (name ∈ [str "help"; str "h"]) then HelpAsked else Refused NotDefined
            | Some (BoolFlag set) =>
                match value with
                | None => Seen (set true s) rest
                | Some v =>
                    match ParseBool v with
                    | Some b => Seen (set b s) rest
                    | None => Refused InvalidBoolean
                    end
                end
            | Some (StringFlag set) =>
                match value, rest with
                | Some v, _ => Seen (set v s) rest
                | None, v :: rest' => Seen (set v s) rest'
                | None, [] => Refused NeedsArgument
                end
            end
  end.

Inductive parsed :=
  | Parsed (s : settings) (rest : list gostring)
  | Help                      (** [usage()], and status 0 *)
  | Bad (e : flag_error).     (** the error and [usage()], and status 2 *)

(** [FlagSet.Parse]: a turn that goes on takes an argument at least. *)
Fixpoint parse_loop (fuel : nat) (s : settings) (args : list gostring) : parsed :=
  match fuel with
  | O => Parsed s args
  | S fuel =>
      match parseOne s args with
      | Stop rest => Parsed s rest
      | Seen s' rest => parse_loop fuel s' rest
      | HelpAsked => Help
      | Refused e => Bad e
      end
  end.

Definition Parse (args : list gostring) : parsed := parse_loop (S (length args)) defaults args.

(** ** strings.ToLower *)

Definition lower_byte (c : byte) : byte := if between 65 90 c then z2b (b2z c + 32) else c.

(** The lower case of a character outside ASCII is a table of the [unicode] package; of
    those characters only U+0130 and U+212A have a lower case in ASCII, [i] and [k]. *)
Class UnicodeCase := {
  lower_rune : list byte → list byte;
  lower_rune_high : ∀ r, utf8_rune r = Some (r, []) → 1 < length r →
    ∃ c, c ∈ lower_rune r ∧ (between 0 127 c = false ∨ c = x69 ∨ c = x6b)
}.

Section command.
  Context `{case : UnicodeCase} `{crypto : Crypto}.

(** [strings.Map(unicode.ToLower, s)]; for an ASCII string it is byte by byte. *)
Fixpoint to_lower (fuel : nat) (s : gostring) : gostring :=
  match fuel, s with
  | S fuel, c :: s' =>
      if between 0 127 c then lower_byte c :: to_lower fuel s'
      else
        match utf8_rune s with
        | Some (r, rest) => lower_rune r ++ to_lower fuel rest
        | None => replacement ++ to_lower fuel s'
        end
  | _, _ => []
  end.

Definition ToLower (s : gostring) : gostring := to_lower (length s) s.

(** ** main *)

Definition main_flags (s : settings) : flags :=
  {| f_transport := ToLower (TrimSpace (s_transport s)); f_del := s_del s;
     f_reg := s_reg s; f_ip := s_ip s |}.

Definition socksCfg (s : settings) : SOCKS5Config :=
  {| Username := s_user s; Password := s_pass s; AllowUDP := true |}.

(** How the process ends: with a status -- 1 after [log.Fatalf] -- or it serves on the
    address, with the credentials. *)
Inductive exit :=
  | Status (code : Z)
  | Serving (t : transport_kind) (listen : gostring) (cfg : SOCKS5Config) (selfTest : bool).

Definition exit_of (s : settings) (e : ending) : exit :=
  match e with
  | Fatal => Status 1
  | Return => Status 0
  | Serve t => Serving t (s_listen s) (socksCfg s) (s_selfTest s)
  end.

(** The process with the arguments [args], on the state file. *)
Definition command (e : env) (args : list gostring) (file : read_result)
    : exit * list action * read_result :=
  match Parse args with
  | Help => (Status 0, [], file)
  | Bad _ => (Status 2, [], file)
  | Parsed s _ =>
      let '(ending, acts, file') := invoke e (main_flags s) file in
      (exit_of s ending, acts, file')
  end.
End command.
