(* ===== verification/CommandLineFacts.v ===== *)
(** * The command line: the grammar it reads, and what it leads to *)

From Stdlib Require Import Init.Byte.
From S2P Require Import Prelude GoNet GoNetFacts GoText Json JsonFacts Socks5Wire Main MainFacts Registration RegistrationFacts RegistrationSamples Startup StartupFacts CommandLine.

(** ** The grammar *)

(** One dash or two. *)
Definition dashed (name w : gostring) : Prop := w = minus :: name ∨ w = minus :: minus :: name.

(** The arguments of one option, and what they set. *)
Inductive option_args : list gostring → (settings → settings) → Prop :=
  | separate w name v set :
      dashed name w → lookup_flag name = Some (StringFlag set) → option_args [w; v] (set v)
  | joined w name v set :
      dashed (name ++ equals :: v) w → lookup_flag name = Some (StringFlag set) →
      option_args [w] (set v)
  | switch w name set :
      dashed name w → lookup_flag name = Some (BoolFlag set) → option_args [w] (set true)
  | switch_value w name v b set :
      dashed (name ++ equals :: v) w → lookup_flag name = Some (BoolFlag set) →
      ParseBool v = Some b → option_args [w] (set b).

(** Any number of options, each setting what the ones before it left. *)
Inductive options : list gostring → settings → settings → Prop :=
  | no_options s : options [] s s
  | one_more o set args s s' :
      option_args o set → options args (set s) s' → options (o ++ args) s s'.

(** An argument that is no option ends them: it has no dash, or is a single dash. *)
Definition operand (a : gostring) : Prop := length a < 2 ∨ a !! 0 ≠ Some minus.

Inductive ends : list gostring → list gostring → Prop :=
  | ends_all : ends [] []
  | ends_operand a rest : operand a → ends (a :: rest) (a :: rest)
  | ends_dashes rest : ends ([minus; minus] :: rest) rest.

Definition asks_help (a : gostring) : Prop :=
  ∃ name t, dashed (name ++ t) a ∧ name ∈ [str "help"; str "h"] ∧ (t = [] ∨ ∃ v, t = equals :: v).

(** ** Names *)

Definition valued (v : option gostring) : gostring :=
  match v with Some v => equals :: v | None => [] end.

Lemma cut_valued n v : equals ∉ n → cut (n ++ valued v) = (n, v).
Proof.
  induction n as [|c n IH]; intros Hn; cbn; [by destruct v|].
  rewrite decide_False by (intros ->; apply Hn; by left). rewrite IH; [done|]. intros ?. apply Hn. by right.
Qed.

Lemma cut_shape s n v : cut s = (n, v) → equals ∉ n ∧ s = n ++ valued v.
Proof.
  revert n v. induction s as [|c s IH]; intros n v; cbn.
  - intros [= <- <-]. split; [by apply not_elem_of_nil|done].
  - case_decide as Hc; [subst; intros [= <- <-]; split; [by apply not_elem_of_nil|done]|].
    destruct (cut s) as [n' v'] eqn:E. intros [= <- <-]. destruct (IH _ _ eq_refl) as [Hn ->].
    split; [|done]. by apply not_elem_of_cons.
Qed.

(** A name [main] defines, or asks for help with, is a plain word. *)
Definition word (name : gostring) : Prop :=
  equals ∉ name ∧ name !! 0 ∉ [None; Some minus; Some equals].

#[export] Instance word_dec name : Decision (word name) := _.

Lemma assoc_elem {V} k (l : list (gostring * V)) v : assoc k l = Some v → k ∈ l.*1.
Proof.
  induction l as [|[k' v'] l IH]; [done|]. cbn. case_decide as Hk; [intros _; subst; by left|].
  intros H. right. by apply IH.
Qed.

Lemma flag_word name f : lookup_flag name = Some f → word name.
Proof.
  intros H%assoc_elem. assert (Forall word formal_flags.*1) as Hw.
  { apply (bool_decide_unpack _). by vm_compute. }
  rewrite Forall_forall in Hw. by apply Hw.
Qed.

Lemma help_word name : name ∈ [str "help"; str "h"] → word name.
Proof.
  assert (Forall word [str "help"; str "h"]) as Hw by (apply (bool_decide_unpack _); by vm_compute).
  rewrite Forall_forall in Hw. apply Hw.
Qed.

(** ** One turn of the parser *)

(** What [parseOne] does once it has a name and a value. *)
Definition with_flag (s : settings) (name : gostring) (value : option gostring) (rest : list gostring) : turn :=
  match lookup_flag name with
  | None => if bool_decide (name ∈ [str "help"; str "h"]) then HelpAsked else Refused NotDefined
  | Some (BoolFlag set) =>
      match value with
      | None => Seen (set true s) rest
      | Some v => match ParseBool v with Some b => Seen (set b s) rest | None => Refused InvalidBoolean end
      end
  | Some (StringFlag set) =>
      match value, rest with
      | Some v, _ => Seen (set v s) rest
      | None, v :: rest' => Seen (set v s) rest'
      | None, [] => Refused NeedsArgument
      end
  end.

Lemma parseOne_dashed s name v w rest :
  word name → dashed (name ++ valued v) w → parseOne s (w :: rest) = with_flag s name v rest.
Proof.
  intros [Heq Hw] Hd. destruct name as [|c name]; [by destruct Hw; left|].
  assert (Hc : c ≠ minus ∧ c ≠ equals) by (cbn in Hw; set_solver).
  assert (Hcut := cut_valued (c :: name) v Heq). cbn [app] in Hcut, Hd.
  unfold parseOne. destruct Hd as [-> | ->].
  - rewrite bool_decide_eq_false_2 by (cbn; lia). cbn [lookup list_lookup orb negb].
    rewrite bool_decide_eq_true_2 by done. cbn [negb].
    rewrite (bool_decide_eq_false_2 (Some c = Some minus)) by naive_solver. cbn [andb drop].
    rewrite bool_decide_eq_false_2 by (cbn; set_solver). by rewrite Hcut.
  - rewrite bool_decide_eq_false_2 by (cbn; lia). cbn [lookup list_lookup orb negb].
    rewrite !bool_decide_eq_true_2 by done. cbn [negb andb].
    rewrite bool_decide_eq_false_2 by (cbn; lia). cbn [drop].
    rewrite bool_decide_eq_false_2 by (cbn; set_solver). by rewrite Hcut.
Qed.

Lemma parseOne_ends s args rest : ends args rest → parseOne s args = Stop rest.
Proof.
  destruct 1 as [|a rest [Ha|Ha]|rest]; [done|..|done]; unfold parseOne.
  - by rewrite bool_decide_eq_true_2 by done.
  - rewrite (bool_decide_eq_false_2 (a !! 0 = _)) by done. by rewrite orb_true_r.
Qed.

(** Every other argument is a flag of some name, or is refused. *)
Lemma argument_shape s w rest :
  ends (w :: rest) (w :: rest) ∨ ends (w :: rest) rest ∨
  parseOne s (w :: rest) = Refused BadSyntax ∨
  ∃ name v, dashed (name ++ valued v) w ∧ parseOne s (w :: rest) = with_flag s name v rest.
Proof.
  destruct (decide (length w < 2)) as [|Hl]; [left; constructor; by left|].
  destruct (decide (w !! 0 = Some minus)) as [H0|]; [|left; constructor; by right].
  destruct w as [|x [|y w]]; [cbn in Hl; lia|cbn in Hl; lia|]. injection H0 as ->. right.
  unfold parseOne. rewrite bool_decide_eq_false_2 by done. rewrite bool_decide_eq_true_2 by done.
  cbn [orb negb lookup list_lookup].
  assert (Hflag : ∀ name, dashed name (minus :: y :: w) →
    (if bool_decide (name !! 0 ∈ [None; Some minus; Some equals]) then Refused BadSyntax
     else let '(n, v) := cut name in with_flag s n v rest) = Refused BadSyntax ∨
    ∃ n v, dashed (n ++ valued v) (minus :: y :: w) ∧
      (if bool_decide (name !! 0 ∈ [None; Some minus; Some equals]) then Refused BadSyntax
       else let '(n, v) := cut name in with_flag s n v rest) = with_flag s n v rest).
  { intros name Hn. destruct (bool_decide _); [by left|right].
    destruct (cut name) as [n v] eqn:Hc. destruct (cut_shape _ _ _ Hc) as [_ ->]. by exists n, v. }
  destruct (bool_decide (Some y = Some minus)) eqn:Hy.
  - apply bool_decide_eq_true in Hy as [= ->]. cbn [andb].
    destruct (bool_decide (length _ = 2)) eqn:H2.
    + apply bool_decide_eq_true in H2. destruct w; [|done]. left. constructor.
    + right. apply (Hflag w). by right.
  - right. apply (Hflag (y :: w)). by left.
Qed.

Lemma with_flag_Seen s name v w rest s' rest' :
  dashed (name ++ valued v) w → with_flag s name v rest = Seen s' rest' →
  ∃ o set, option_args o set ∧ w :: rest = o ++ rest' ∧ s' = set s.
Proof.
  unfold with_flag. intros Hd H. destruct (lookup_flag name) as [[set|set]|] eqn:Hf.
  - destruct v as [v|].
    + injection H as <- <-. exists [w], (set v). split; [by eapply joined|done].
    + rewrite app_nil_r in Hd. destruct rest as [|v rest]; [done|]. injection H as <- <-.
      exists [w; v], (set v). split; [by eapply separate|done].
  - destruct v as [v|].
    + destruct (ParseBool v) as [b|] eqn:Hb; [|done]. injection H as <- <-.
      exists [w], (set b). split; [by eapply switch_value|done].
    + rewrite app_nil_r in Hd. injection H as <- <-. exists [w], (set true). split; [by eapply switch|done].
  - by destruct (bool_decide _).
Qed.

Lemma option_Seen o set s args : option_args o set → parseOne s (o ++ args) = Seen (set s) args.
Proof.
  destruct 1 as [w name v set Hd Hf|w name v set Hd Hf|w name set Hd Hf|w name v b set Hd Hf Hb]; cbn [app];
    pose proof (flag_word _ _ Hf) as Hw.
  - rewrite (parseOne_dashed _ name None); [|done|by rewrite app_nil_r]. unfold with_flag. by rewrite Hf.
  - rewrite (parseOne_dashed _ name (Some v)) by done. unfold with_flag. by rewrite Hf.
  - rewrite (parseOne_dashed _ name None); [|done|by rewrite app_nil_r]. unfold with_flag. by rewrite Hf.
  - rewrite (parseOne_dashed _ name (Some v)) by done. unfold with_flag. by rewrite Hf, Hb.
Qed.

Lemma help_HelpAsked s a rest : asks_help a → parseOne s (a :: rest) = HelpAsked.
Proof.
  intros (name & t & Hd & Hn & Ht). assert (∃ v, t = valued v) as [v ->]
    by (destruct Ht as [-> | [v ->]]; [by exists None|by exists (Some v)]).
  rewrite (parseOne_dashed _ name v) by (by apply help_word || done). unfold with_flag.
  assert (lookup_flag name = None) as ->.
  { apply elem_of_cons in Hn as [-> | ->%list_elem_of_singleton]; by vm_compute. }
  by rewrite bool_decide_eq_true_2.
Qed.

(** The turns there are. *)
Lemma parseOne_cases s args :
  match parseOne s args with
  | Stop rest => ends args rest
  | Seen s' rest => ∃ o set, option_args o set ∧ args = o ++ rest ∧ s' = set s
  | HelpAsked => ∃ a rest, args = a :: rest ∧ asks_help a
  | Refused _ => True
  end.
Proof.
  destruct args as [|w rest]; [constructor|].
  destruct (argument_shape s w rest) as [He|[He|[->|(name & v & Hd & ->)]]]; [..|done|].
  - by rewrite (parseOne_ends s _ _ He).
  - by rewrite (parseOne_ends s _ _ He).
  - destruct (with_flag s name v rest) as [r|s' r| |e] eqn:H; [|by eapply with_flag_Seen| |done].
    + unfold with_flag in H. by repeat case_match.
    + exists w, rest. split; [done|]. exists name, (valued v). split; [done|].
      unfold with_flag in H. destruct (lookup_flag name) as [[set|set]|]; [by repeat case_match..|].
      destruct (bool_decide _) eqn:Hn; [|done]. apply bool_decide_eq_true in Hn. split; [done|].
      destruct v as [v|]; [right; by exists v|by left].
Qed.

(** ** The whole command line *)

Lemma option_nonempty o set : option_args o set → 0 < length o.
Proof. destruct 1; cbn; lia. Qed.

Lemma parse_loop_options pre s s' tail fuel :
  options pre s s' → length (pre ++ tail) < fuel →
  ∃ fuel', length tail < fuel' ∧ parse_loop fuel s (pre ++ tail) = parse_loop fuel' s' tail.
Proof.
  intros Ho. revert fuel. induction Ho as [s|o set pre s s' Ho _ IH]; intros fuel Hf; [by exists fuel|].
  rewrite <- app_assoc, length_app in Hf. pose proof (option_nonempty _ _ Ho) as Hn.
  destruct fuel as [|fuel]; [lia|]. destruct (IH fuel) as (f & Hl & He); [lia|].
  exists f. split; [done|]. cbn [parse_loop]. by rewrite <- app_assoc, (option_Seen _ _ _ _ Ho).
Qed.

Lemma parse_loop_cases fuel s args :
  length args < fuel →
  match parse_loop fuel s args with
  | Parsed s' rest => ∃ pre tail, args = pre ++ tail ∧ options pre s s' ∧ ends tail rest
  | Help => ∃ pre s' a rest, args = pre ++ a :: rest ∧ options pre s s' ∧ asks_help a
  | Bad e => ∃ pre s' tail, args = pre ++ tail ∧ options pre s s' ∧ parseOne s' tail = Refused e
  end.
Proof.
  revert s args. induction fuel as [|fuel IH]; intros s args Hf; [lia|]. cbn [parse_loop].
  pose proof (parseOne_cases s args) as Hc. destruct (parseOne s args) as [rest|s1 rest| |e] eqn:H1.
  - exists [], args. split; [done|]. split; [constructor|done].
  - destruct Hc as (o & set & Ho & -> & ->). pose proof (option_nonempty _ _ Ho).
    rewrite length_app in Hf. specialize (IH (set s) rest ltac:(lia)).
    destruct (parse_loop fuel (set s) rest) as [s' r| |e].
    + destruct IH as (pre & tail & -> & Hp & He). exists (o ++ pre), tail.
      rewrite <- app_assoc. split; [done|]. split; [by econstructor|done].
    + destruct IH as (pre & s' & a & r & -> & Hp & He). exists (o ++ pre), s', a, r.
      rewrite <- app_assoc. split; [done|]. split; [by econstructor|done].
    + destruct IH as (pre & s' & tail & -> & Hp & He). exists (o ++ pre), s', tail.
      rewrite <- app_assoc. split; [done|]. split; [by econstructor|done].
  - destruct Hc as (a & rest & -> & Ha). exists [], s, a, rest. split; [done|]. split; [constructor|done].
  - exists [], s, args. split; [done|]. split; [constructor|done].
Qed.

Lemma Parse_options pre s tail :
  options pre defaults s → ∃ fuel, Parse (pre ++ tail) = parse_loop (S fuel) s tail.
Proof.
  intros Ho. destruct (parse_loop_options pre defaults s tail (S (length (pre ++ tail))) Ho) as (f & Hf & He);
    [lia|]. destruct f as [|f]; [lia|]. by exists f.
Qed.

(** ** The transport *)

(** What no character outside ASCII has as its lower case. *)
Definition keyword_byte (c : byte) : Prop := between 0 127 c = true ∧ c ≠ x69 ∧ c ≠ x6b.

#[export] Instance keyword_byte_dec c : Decision (keyword_byte c) := _.

Definition transports : list gostring := [str "auto"; str "h3"; str "h2"].

Lemma transports_keyword t : t ∈ transports → Forall keyword_byte t.
Proof.
  intros Ht. assert (Forall (Forall keyword_byte) transports) as H.
  { apply (bool_decide_unpack _). by vm_compute. }
  rewrite Forall_forall in H. by apply H.
Qed.

Lemma lower_ascii c : between 0 127 (lower_byte c) = between 0 127 c.
Proof. by destruct c. Qed.

Lemma lower_high c : between 0 127 c = false → lower_byte c = c.
Proof. by destruct c. Qed.

Section lower.
  Context `{case : UnicodeCase}.

Lemma to_lower_keyword fuel s t :
  length s <= fuel → Forall keyword_byte t → to_lower fuel s = t ↔ lower_byte <$> s = t.
Proof.
  revert s t. induction fuel as [|fuel IH]; intros s t Hf Ht; (destruct s as [|c s]; [done|]); [cbn in Hf; lia|].
  cbn in Hf. cbn [to_lower]. rewrite fmap_cons. destruct (between 0 127 c) eqn:Hc.
  - destruct t as [|x t]; [done|]. apply Forall_cons in Ht as [_ Ht].
    specialize (IH s t ltac:(lia) Ht). split; intros [= -> H]; f_equal; by apply IH.
  - split; intros H; exfalso.
    + destruct (utf8_rune (c :: s)) as [[r rest]|] eqn:Hr.
      * destruct (utf8_rune_Some _ _ _ Hr) as (Hs & _ & Hall & [(a & -> & Ha)|(a & b & r' & -> & _)]).
        { injection Hs as -> _. congruence. }
        destruct (lower_rune_high (a :: b :: r')) as (x & Hx & Hbad);
          [by rewrite <- (app_nil_r (a :: b :: r')) at 1|cbn; lia|].
        assert (x ∈ t) as Hxt by (rewrite <- H; apply elem_of_app; by left).
        rewrite Forall_forall in Ht. destruct (Ht x Hxt) as (? & ? & ?). naive_solver congruence.
      * subst t. apply Forall_cons in Ht as [[Hb _] _]. by vm_compute in Hb.
    + rewrite <- H in Ht. apply Forall_cons in Ht as [[Hb _] _]. rewrite lower_ascii in Hb. congruence.
Qed.

Lemma ToLower_transport s t : t ∈ transports → ToLower s = t ↔ lower_byte <$> s = t.
Proof. intros Ht. apply to_lower_keyword; [done|by apply transports_keyword]. Qed.
End lower.

(** ** What a command line leads to *)

Section command.
  Context `{case : UnicodeCase} `{crypto : Crypto}.

Lemma flags_transport s :
  valid_transport (main_flags s) → ∃ k, k ∈ transports ∧ f_transport (main_flags s) = k ∧
    lower_byte <$> TrimSpace (s_transport s) = k.
Proof.
  unfold valid_transport. cbn [main_flags f_transport]. intros Hv.
  exists (ToLower (TrimSpace (s_transport s))). split; [done|]. split; [done|].
  by apply (ToLower_transport _ _ Hv).
Qed.

Lemma run_proxy_serves Lookup w k ip reg t :
  fst (run_proxy Lookup w k ip reg) = Serve t → match t with H3 => k ≠ str "h2" | H2 => k ≠ str "h3" end.
Proof.
  unfold run_proxy, connect. intros H. repeat case_match; simplify_eq/=; naive_solver.
Qed.

(** What [main] serves with, and what it changes. *)
Lemma invoke_cases e f file :
  let '(en, acts, file') := invoke e f file in
  (file' ≠ file → f_reg f = true ∨ f_del f = true) ∧
  (Deleting ∈ acts → f_del f = true) ∧ (Registering ∈ acts → f_reg f = true ∧ f_del f = false) ∧
  ∀ t, en = Serve t → valid_transport f ∧ f_reg f = false ∧ f_del f = false ∧ file' = file ∧
    match t with H3 => f_transport f ≠ str "h2" | H2 => f_transport f ≠ str "h3" end.
Proof.
  unfold invoke. destruct (decide (valid_transport f)) as [Hv|Hv]; [|rewrite run_invalid by done; cbn; set_solver].
  destruct (f_del f) eqn:Hd.
  { rewrite run_del by done. cbv beta iota zeta.
    split_and!; [auto|done|set_solver|]. by destruct (Main.DeleteRegistration _). }
  destruct (f_reg f) eqn:Hr.
  { rewrite run_register by done. unfold run_reg.
    destruct (Main.Load (calls e file)), (Main.Register (calls e file)), (Main.Save (calls e file)); cbn [negb]; cbv beta iota zeta;
      (split_and!; [auto|set_solver|set_solver|done]). }
  rewrite run_start by done.
  destruct (Main.Load _) as [reg| |]; [|cbn; set_solver|cbn; set_solver].
  pose proof (run_proxy_quiet (LookupIPAddr e) (calls e file) (f_transport f) (f_ip f) reg) as Hq.
  pose proof (run_proxy_serves (LookupIPAddr e) (calls e file) (f_transport f) (f_ip f) reg) as Hs.
  destruct (run_proxy _ _ _ _ _) as [en acts]. cbn in Hq, Hs. rewrite file_after_quiet by done.
  rewrite Forall_forall in Hq.
  split_and!; [done|by intros ?%Hq|by intros ?%Hq|]. intros t ->. by split_and!; [..|apply Hs].
Qed.
End command.

(** The command line is read by the grammar that [usage] describes: options first, each
    [-name value] or [-name=value], a switch also alone, with one dash or two, a later
    one overriding an earlier; they end at the first argument without a dash, or after
    [--], and whatever follows is not looked at -- a [-del] there deletes nothing.  Help
    is asked for exactly by a [-h] or [-help] in place of an option.  The result is
    the same however the arguments are taken apart. *)
Theorem command_line_read (args : list gostring) :
  (∀ s rest, Parse args = Parsed s rest ↔
     ∃ pre tail, args = pre ++ tail ∧ options pre defaults s ∧ ends tail rest) ∧
  (Parse args = Help ↔
     ∃ pre s a rest, args = pre ++ a :: rest ∧ options pre defaults s ∧ asks_help a) ∧
  (∀ pre s s' tail, options pre defaults s → options pre defaults s' → args = pre ++ tail → s = s').
Proof.
  pose proof (parse_loop_cases (S (length args)) defaults args ltac:(lia)) as Hc.
  split_and!.
  - intros s rest. split.
    + unfold Parse. intros H. by rewrite H in Hc.
    + intros (pre & tail & -> & Ho & He). destruct (Parse_options pre s tail Ho) as [f ->].
      cbn [parse_loop]. by rewrite (parseOne_ends _ _ _ He).
  - split.
    + unfold Parse. intros H. by rewrite H in Hc.
    + intros (pre & s & a & rest & -> & Ho & Ha). destruct (Parse_options pre s (a :: rest) Ho) as [f ->].
      cbn [parse_loop]. by rewrite help_HelpAsked.
  - intros pre s s' tail H1 H2 _. clear Hc.
    destruct (Parse_options pre s [] H1) as [f1 E1], (Parse_options pre s' [] H2) as [f2 E2].
    rewrite E1 in E2. by injection E2.
Qed.

(** C26: What the command line allows is all that happens.  Arguments that do not parse, or
    ask for help, change nothing and end with status 2 or 0.  The file changes only with
    [-reg] or [-del], the API is asked to register or delete only with them.  The proxy
    is served only without either, with [-transport] auto, h3 or h2 -- in any case, with
    white space around it --, never over the transport excluded, on the address of [-l];
    and its clients have to authenticate exactly if both [-user] and [-pass] were given
    and not empty, with these. *)
Theorem command_line_obeyed `{case : UnicodeCase} `{crypto : Crypto} (e : env) args file :
  let '(x, acts, file') := command e args file in
  match Parse args with
  | Help => x = Status 0 ∧ acts = [] ∧ file' = file
  | Bad _ => x = Status 2 ∧ acts = [] ∧ file' = file
  | Parsed s _ =>
      (file' ≠ file → s_reg s = true ∨ s_del s = true) ∧
      (Deleting ∈ acts → s_del s = true) ∧ (Registering ∈ acts → s_reg s = true ∧ s_del s = false) ∧
      (x ≠ Status 2) ∧
      ∀ t listen cfg selfTest, x = Serving t listen cfg selfTest →
        s_reg s = false ∧ s_del s = false ∧ file' = file ∧
        listen = s_listen s ∧ selfTest = s_selfTest s ∧
        (requireAuth cfg = true ↔ s_user s ≠ [] ∧ s_pass s ≠ []) ∧
        Username cfg = s_user s ∧ Password cfg = s_pass s ∧
        ∃ k, k ∈ [str "auto"; str "h3"; str "h2"] ∧ lower_byte <$> TrimSpace (s_transport s) = k ∧
          match t with H3 => k ≠ str "h2" | H2 => k ≠ str "h3" end
  end.
Proof.
  unfold command. destruct (Parse args) as [s rest| |err]; [|done..].
  pose proof (invoke_cases e (main_flags s) file) as H.
  destruct (invoke e (main_flags s) file) as [[en acts] file']. destruct H as (Hf & Hd & Hr & Hs).
  split_and!; [exact Hf|exact Hd|exact Hr|by destruct en|].
  intros t listen cfg selfTest Hx. destruct en as [| |t']; try done. injection Hx as -> <- <- <-.
  destruct (Hs t eq_refl) as (Hv & Hreg & Hdel & Hfile & Ht).
  destruct (flags_transport s Hv) as (k & Hk & He & Hl).
  split_and!; try done.
  - unfold requireAuth. cbn [socksCfg Username Password].
    rewrite andb_true_iff, !negb_true_iff, !bool_decide_eq_false. done.
  - exists k. by rewrite He in Ht.
Qed.

(** The switches take no argument of their own, and what follows an operand is not
    read: here the deletion that was asked for is not done. *)
Example switch_takes_no_argument :
  ∃ s, Parse [str "-self-test"; str "true"; str "-del"] = Parsed s [str "true"; str "-del"] ∧
    s_selfTest s = true ∧ s_del s = false.
Proof. eexists. by vm_compute. Qed.

Example value_may_look_like_a_flag :
  ∃ s, Parse [str "-l"; str "-user"; str "--reg=F"] = Parsed s [] ∧ s_listen s = str "-user" ∧ s_user s = [].
Proof. eexists. by vm_compute. Qed.

(** ** Witnesses *)

#[local] Existing Instance toy.

(** Tables that leave every character outside ASCII as it is, but for the Kelvin sign. *)
#[local] Program Instance kelvin : UnicodeCase :=
  {| lower_rune r := if decide (r = [xe2; x84; xaa]) then [x6b] else r |}.
Next Obligation.
  intros r Hr Hl. cbn beta. case_decide as Hk; [exists x6b; split; [by left|by right; right]|].
  destruct (utf8_rune_Some _ _ _ Hr) as (_ & _ & _ & [(a & -> & _)|(a & b & r' & -> & Ha)]).
  - cbn in Hl. lia.
  - exists a. split; [by left|by left].
Qed.

(** The proxy over HTTP/2 with a user, asked for in capitals; and the Kelvin sign is not
    a transport. *)
Lemma command_line_obeyed_witness :
  let file := Read (Registration.Save toy_registration) in
  let args := [str "-transport= H2"; str "--user"; str "u"; str "-pass"; str "p"; str "-l"; str "127.0.0.1:1080"] in
  fst (fst (command toy_env args file)) =
    Serving H2 (str "127.0.0.1:1080") {| Username := str "u"; Password := str "p"; AllowUDP := true |} false ∧
  requireAuth {| Username := str "u"; Password := str "p"; AllowUDP := true |} = true ∧
  fst (fst (command toy_env [str "-transport"; [xe2; x84; xaa]] file)) = Status 1.
Proof.
  intros file args.
  assert (Hx : fst (fst (command toy_env args file)) =
    Serving H2 (str "127.0.0.1:1080") {| Username := str "u"; Password := str "p"; AllowUDP := true |} false)
    by (vm_compute; reflexivity).
  split; [exact Hx|]. split; [|vm_compute; reflexivity].
  pose proof (command_line_obeyed toy_env args file) as H.
  destruct (command toy_env args file) as [[x acts] file'].
  assert (Hp : Parse args = Parsed (Settings (str "127.0.0.1:1080") (str "u") (str "p") (str "4") (str " H2") false false false) [])
    by (vm_compute; reflexivity).
  rewrite Hp in H. destruct H as (_ & _ & _ & _ & H).
  destruct (H _ _ _ _ Hx) as (_ & _ & _ & _ & _ & Hauth & _). apply Hauth. split; discriminate.
Defined.
