(* ===== verification/H2Setup.v ===== *)
(** * Setting up the HTTP/2 CONNECT-IP client (src/tunnel/h2.go)

    [parseAssignedAddress], [h2_dialAddr] and [NewH2ClientContext] up to the start of the
    goroutines, with what they acquire and give back.  TCP, TLS, HTTP/2, CONNECT-IP and
    the userspace stack are third-party code or the environment: what their calls
    return is a parameter. *)

From Stdlib Require Import Init.Byte.
From S2P Require Import Prelude GoNet GoText H2Client.

(** ** Assigned addresses *)

Definition parseAssignedAddress (value : gostring) : outcome parse_error addr :=
  let value := TrimSpace value in
  match ParsePrefix value with
  | Some (a, _) => Ok (Unmap a)
  | None => a ← ParseAddr value; Ok (Unmap a)
  end.

Inductive family := V4 | V6.

#[export] Instance family_eq_dec : EqDecision family.
Proof. solve_decision. Defined.

Inductive setup_error :=
  | NoEdges | NoTLSConfig | BadAddress (f : family) (e : parse_error) | WrongFamily (f : family)
  | NoAddresses | NoStack | AllFailed | ErrClosed.

#[export] Instance setup_error_eq_dec : EqDecision setup_error.
Proof. solve_decision. Defined.

(** [localAddresses]; [local4] and [local6], with [None] for a nil IP. *)
Record locals := Locals {
  localAddresses : list addr; local4 : option (list byte); local6 : option (list byte)
}.

(** One round of the loop over the two values. *)
Definition assign (l : locals) (value : gostring) (f : family) : outcome setup_error locals :=
  if decide (TrimSpace value = []) then Ok l
  else
    a ← err_map (BadAddress f) (parseAssignedAddress value);
    _ ← require (Bool.eqb (bool_decide (f = V4)) (Is4 a)) (WrongFamily f);
    Ok (Locals (localAddresses l ++ [a])
               (if Is4 a then Some (fst a) else local4 l)
               (if Is4 a then local6 l else Some (fst a))).

Definition assigned (assignedIPv4 assignedIPv6 : gostring) : outcome setup_error locals :=
  l ← assign (Locals [] None None) assignedIPv4 V4; assign l assignedIPv6 V6.

(** ** Dialling *)

(** [LateConn i]: the connection that the [connectip.DialH2] of candidate [i] returns when
    [dialAddr] no longer waits for it. *)
Inductive resource := Tun | ClientCtx | Tcp | H2Conn | LifeCtx | IpConn | LateConn (i : nat).

#[export] Instance resource_eq_dec : EqDecision resource.
Proof. solve_decision. Defined.

(** [h2Bundle.close] with the parts that are set. *)
Definition parts_close (ipConn : bool) : list (res_event resource) :=
  [Released LifeCtx] ++ (if ipConn then [Released IpConn] else []) ++ [Released H2Conn; Released Tcp].

(** How the [select] on the CONNECT-IP result ends.  When it is not by the result, the
    call's goroutine still ends, as the channel has room for the result; [late]: that
    result is a connection, which nobody receives. *)
Inductive connect_end :=
  | Connected | ConnectFailed | SetupDone (late : bool) | ClientDone (late : bool) | TimerFired (late : bool).

Definition comes_late (e : connect_end) : bool :=
  match e with SetupDone late | ClientDone late | TimerFired late => late | _ => false end.

Section setup.
  (** The calls for a candidate, which is tried once: TCP, TLS, the HTTP/2 preface,
      CONNECT-IP; whether both contexts are live after it; the userspace stack. *)
  Context (DialContext HandshakeContext NewClientConn : nat → gostring → bool)
          (DialH2 : nat → gostring → connect_end)
          (live : nat → bool)
          (CreateNetTUN : list addr → bool).

(** The bundle with its CONNECT-IP connection, or an error. *)
Definition h2_dialAddr (idx : nat) (edgeAddr : gostring) : option unit * list (res_event resource) :=
  if negb (DialContext idx edgeAddr) then (None, [])
  else if negb (HandshakeContext idx edgeAddr) then (None, [Acquired Tcp; Released Tcp])
  else if negb (NewClientConn idx edgeAddr) then (None, [Acquired Tcp; Released Tcp])
  else
    let opened := [Acquired Tcp; Acquired H2Conn; Acquired LifeCtx] in
    match DialH2 idx edgeAddr with
    | Connected => (Some (), opened ++ [Acquired IpConn])
    | ConnectFailed => (None, opened ++ parts_close false)
    | SetupDone late | ClientDone late | TimerFired late =>
        (None, opened ++ parts_close false ++ (if late then [Acquired (LateConn idx)] else []))
    end.

(** The client before its first connection. *)
Definition unconnected : client :=
  Client None 0 {[0 := true]} false false false {[0 := newBundle]} 1
         (MWaitFail 0) (Running 0) (Running 0) OReadTun CIdle.

(** [NewH2ClientContext]: the addresses, [addrIdx] and the client whose goroutines are
    started. *)
Definition NewH2ClientContext (edgeAddrs : list gostring) (tlsConfig : bool)
    (assignedIPv4 assignedIPv6 : gostring)
    : outcome setup_error (locals * nat * client) * list (res_event resource) :=
  if decide (edgeAddrs = []) then (Err NoEdges, [])
  else if negb tlsConfig then (Err NoTLSConfig, [])
  else
    match assigned assignedIPv4 assignedIPv6 with
    | Err e => (Err e, [])
    | Panic => (Panic, [])
    | Ok l =>
        if decide (localAddresses l = []) then (Err NoAddresses, [])
        else if negb (CreateNetTUN (localAddresses l)) then (Err NoStack, [])
        else
          let '(bundle, addrIdx, tried) := h2_dial (λ i a, fst (h2_dialAddr i a)) live edgeAddrs 0 in
          let tr := [Acquired Tun; Acquired ClientCtx] ++
                    (tried ≫= λ i, default [] (snd ∘ h2_dialAddr i <$> edgeAddrs !! i)) in
          match bundle with
          | None => (Err AllFailed, tr ++ [Released ClientCtx; Released Tun])
          | Some _ =>
              match setCurrent 0 unconnected with
              | Ok (true, c) => (Ok (l, addrIdx, c), tr)
              | Ok (false, _) =>
                  (Err ErrClosed, tr ++ parts_close true ++ [Released ClientCtx; Released Tun])
              | _ => (Panic, tr)
              end
          end
    end.

End setup.

(** ** Closing *)

(** What a step of the client gives back, of what the set-up has acquired: the context is
    cancelled, the first bundle closed ([h2Bundle.close], by [maintain] or by [Close]),
    the stack closed. *)
Definition releases (c c' : client) : list (res_event resource) :=
  (if negb (ctxDone c) && ctxDone c' then [Released ClientCtx] else []) ++
  (if negb (bundle_done 0 c) && bundle_done 0 c' then parts_close true else []) ++
  (if negb (tunClosed c) && tunClosed c' then [Released Tun] else []).

(** The steps [ls] of the client's goroutines from [c], with what they give back. *)
Fixpoint run_releases (ls : list label) (c : client) : option (list (res_event resource) * client) :=
  match ls with
  | [] => Some ([], c)
  | l :: ls =>
      match step l c with
      | Some (Ok c') => '(tr, c'') ← run_releases ls c'; Some (releases c c' ++ tr, c'')
      | _ => None
      end
  end.
