(* ===== verification/H2SetupFacts.v ===== *)
(** * Properties of the HTTP/2 client's set-up

    Which assigned addresses are read and how, and that every way out of
    [NewH2ClientContext] gives back what it acquired. *)

From Stdlib Require Import Init.Byte.
From S2P Require Import Prelude GoNet GoNetFacts GoText Masque MasqueFacts H2Client H2ClientFacts H2Setup.

(** ** White space around a text *)

Definition white (c : byte) : Prop := c ∈ [x09; x0a; x0b; x0c; x0d; x20].

Lemma drop_white c s : white c → drop_any spaces (c :: s) = Some s.
Proof.
  unfold white. intros Hc. repeat (apply elem_of_cons in Hc as [->|Hc]; [reflexivity|]).
  by apply elem_of_nil in Hc.
Qed.

Lemma drop_white_rev c s : white c → drop_any (map (@rev byte) spaces) (c :: s) = Some s.
Proof.
  unfold white. intros Hc. repeat (apply elem_of_cons in Hc as [->|Hc]; [reflexivity|]).
  by apply elem_of_nil in Hc.
Qed.

Lemma trim_front_run cutset ws s fuel :
  (∀ c t, c ∈ ws → drop_any cutset (c :: t) = Some t) → drop_any cutset s = None →
  length ws <= fuel → trim_front fuel cutset (ws ++ s) = s.
Proof.
  intros Hc Hs. revert fuel. induction ws as [|c ws IH]; intros fuel Hf; [by apply trim_front_keep|].
  destruct fuel as [|fuel]; [cbn in Hf; lia|]. cbn [app trim_front]. rewrite Hc by by left.
  apply IH; [|cbn in Hf; lia]. intros d t Hd. apply Hc. by right.
Qed.

Lemma no_space_front x s t : graphic x → drop_any spaces (x :: s ++ t) = None.
Proof.
  intros Hx. apply drop_any_None. intros p Hp. destruct (spaces_ends p Hp) as (Hne & Hh & _).
  by apply drop_prefix_plain.
Qed.

Lemma no_space_back x s : graphic x → drop_any (map (@rev byte) spaces) (x :: s) = None.
Proof.
  intros Hx. apply drop_any_None. intros q Hq. apply list_elem_of_fmap in Hq as (p & -> & Hp).
  destruct (spaces_ends p Hp) as (Hne & _ & Hl). apply drop_prefix_plain; [|done..].
  intros Hn. apply Hne. by rewrite <- (rev_involutive p), Hn.
Qed.

Lemma TrimSpace_white ws1 s ws2 :
  Forall white ws1 → Forall white ws2 → s ≠ [] → Forall graphic s →
  TrimSpace (ws1 ++ s ++ ws2) = s.
Proof.
  intros H1 H2 Hne Hs. rewrite Forall_forall in H1, H2. unfold TrimSpace, trim. cbv zeta.
  assert (Hf : trim_front (length (ws1 ++ s ++ ws2)) spaces (ws1 ++ s ++ ws2) = s ++ ws2).
  { apply trim_front_run; [by intros; apply drop_white, H1| |rewrite length_app; lia].
    destruct Hs as [|x s Hx _]; [done|]. by apply no_space_front. }
  rewrite Hf, rev_app_distr, trim_front_run; [apply rev_involutive| | |].
  - intros c t Hc. apply drop_white_rev, H2. apply list_elem_of_In. apply in_rev. by apply list_elem_of_In.
  - assert (Hr : Forall graphic (rev s)) by by apply Forall_rev.
    destruct (rev s) as [|x r] eqn:Heq.
    + destruct Hne. by rewrite <- (rev_involutive s), Heq.
    + apply no_space_back. by inversion Hr.
  - rewrite length_rev, length_app. lia.
Qed.

(** ** Assigned addresses *)

Lemma white_slash c : addr_char c → graphic c ∧ c ≠ x2f.
Proof.
  intros Hc. assert (H : graphic c ∧ c ≠ x2f ∨ hexval c = None ∧ c ≠ colon ∧ c ≠ dot).
  { destruct (decide (graphic c ∧ c ≠ x2f)) as [|Hn]; [by left|right].
    destruct c; first [by (split_and!) | exfalso; apply Hn; split; [by vm_compute|done]]. }
  destruct H as [H|(H1 & H2 & H3)]; [done|]. unfold addr_char in Hc. tauto.
Qed.

Definition max_bits (ip : list byte) : Z := if decide (length ip = 4) then 32 else 128.

Lemma ParsePrefix_none s : x2f ∉ s → ParsePrefix s = None.
Proof. intros Hs. unfold ParsePrefix. by rewrite last_index_byte_None. Qed.

Lemma ParsePrefix_bits s ip n :
  ParseAddr s = Ok (ip, []) → (0 <= n <= max_bits ip)%Z →
  ParsePrefix (s ++ x2f :: itoa n) = Some ((ip, []), n).
Proof.
  intros Hs Hn. unfold ParsePrefix.
  assert (Hb : (max_bits ip <= 128)%Z) by (unfold max_bits; case_decide; lia).
  assert (Hslash : x2f ∉ itoa n) by (apply not_in_itoa; [lia|done]).
  rewrite last_index_byte_app by done. cbn [mbind option_bind]. rewrite take_app_length, Hs.
  rewrite bool_decide_eq_false_2 by by intros []. cbv zeta.
  replace (drop (S (length s)) (s ++ x2f :: itoa n)) with (itoa n).
  2:{ replace (S (length s)) with (length (s ++ [x2f])) by (rewrite length_app; cbn; lia).
      change (x2f :: itoa n) with ([x2f] ++ itoa n). by rewrite app_assoc, drop_app_length. }
  assert (Hbits : prefix_bits ip [] (itoa n) = Some (ip, [], n)).
  { unfold prefix_bits. rewrite atoi_itoa by lia. cbn [mbind option_bind]. cbv zeta.
    unfold max_bits in Hn. by rewrite decide_True. }
  case_decide as Hlen; [|done].
  pose proof (itoa_digits n ltac:(lia)) as Hd. pose proof (itoa_no_zero n ltac:(lia)) as Hz.
  destruct (itoa n) as [|c ds]; [done|]. inversion Hd as [|? ? Hc _]; subst.
  rewrite bool_decide_eq_true_2; [done|]. unfold is_digit in Hc. apply bool_decide_eq_true in Hc.
  destruct (decide (b2z c = 48)%Z) as [H48|]; [|lia]. exfalso.
  assert (c = x30) as -> by by apply b2z_inj. specialize (Hz eq_refl). rewrite Hz in Hlen. cbn in Hlen. lia.
Qed.

(** What is read is a valid address, and not an IPv4-in-IPv6 one. *)
Lemma parseAssignedAddress_valid value a :
  parseAssignedAddress value = Ok a → valid_ip (fst a) ∧ unmapped (fst a) = fst a.
Proof.
  assert (Hu : ∀ b, valid_ip (fst b) → valid_ip (fst (Unmap b)) ∧ unmapped (fst (Unmap b)) = fst (Unmap b)).
  { intros [ip zone] Hv. unfold Unmap. cbn [fst] in *. destruct (To4 ip) as [p|] eqn:Hp; cbn [fst].
    - apply To4_length in Hp. split; [by left|]. unfold unmapped, To4. by rewrite decide_True.
    - split; [done|]. unfold unmapped. by rewrite Hp. }
  unfold parseAssignedAddress. destruct (ParsePrefix (TrimSpace value)) as [[b n]|] eqn:Hp.
  - intros [= <-]. apply Hu. unfold ParsePrefix in Hp. apply bind_Some in Hp as (i & _ & Hp).
    destruct (ParseAddr _) as [[ip zone]| |] eqn:Ha; [|done..]. apply ParseAddr_valid in Ha.
    assert (Hb : ∀ t, prefix_bits ip zone t = Some (b, n) → valid_ip (fst b)).
    { intros t Ht. unfold prefix_bits in Ht. apply bind_Some in Ht as (k & _ & Ht). cbv zeta in Ht.
      case_decide; [|done]. by injection Ht as <- _. }
    case_bool_decide; [done|]. cbv zeta in Hp. case_decide; [|by eapply Hb].
    destruct (drop _ _); [done|]. case_bool_decide; [|done]. by eapply Hb.
  - intros ([ip zone] & Ha & [= <-])%bind_Ok. apply Hu. by eapply ParseAddr_valid.
Qed.

(** ** The two values *)

(** What one value gives: nothing if it is blank, else its address, of the family. *)
Definition reads (f : family) (value : gostring) (o : option (list byte * gostring)) : Prop :=
  match o with
  | None => TrimSpace value = []
  | Some a => TrimSpace value ≠ [] ∧ parseAssignedAddress value = Ok a ∧
              Is4 a = bool_decide (f = V4)
  end.

Lemma assign_Ok l value f l' :
  assign l value f = Ok l' ↔
  ∃ o, reads f value o ∧
    l' = Locals (localAddresses l ++ option_list o)
                (match f with V4 => match o with Some a => Some (fst a) | None => local4 l end | V6 => local4 l end)
                (match f with V6 => match o with Some a => Some (fst a) | None => local6 l end | V4 => local6 l end).
Proof.
  unfold assign. split.
  - case_decide as Hb.
    + intros [= <-]. exists None. split; [done|]. cbn. rewrite app_nil_r. by destruct l, f.
    + intros (a & Ha%err_map_Ok & (u & Hf%require_Ok & [= <-])%bind_Ok)%bind_Ok.
      apply eqb_prop in Hf. exists (Some a). split; [done|]. cbn. rewrite <- Hf. by destruct f.
  - intros ([a|] & Ho & ->); cbn in Ho.
    + destruct Ho as (Hne & Ha & Hf). rewrite decide_False by done. rewrite Ha. cbn [err_map mbind outcome_bind].
      rewrite Hf, eqb_reflx. cbn. by destruct f.
    + rewrite decide_True by done. cbn. rewrite app_nil_r. by destruct l, f.
Qed.

Lemma reads_unique f value o o' : reads f value o → reads f value o' → o = o'.
Proof. destruct o, o'; cbn; intuition congruence. Qed.

Lemma parseAssignedAddress_not_Panic value : parseAssignedAddress value ≠ Panic.
Proof.
  unfold parseAssignedAddress. destruct (ParsePrefix _) as [[a n]|]; [done|].
  intros [Hp|(a & _ & [=])]%bind_Panic. by apply ParseAddr_not_Panic in Hp.
Qed.

Lemma assigned_not_Panic v4 v6 : assigned v4 v6 ≠ Panic.
Proof.
  assert (Ha : ∀ l value f, assign l value f ≠ Panic).
  { intros l value f. unfold assign. case_decide; [done|].
    intros [Hp|(a & _ & [Hp|(u & _ & [=])]%bind_Panic)]%bind_Panic.
    - by apply err_map_Panic, parseAssignedAddress_not_Panic in Hp.
    - by apply require_not_Panic in Hp. }
  intros [Hp|(l & _ & Hp)]%bind_Panic; by apply Ha in Hp.
Qed.

(** ** The set-up's resources *)

Definition res_of {R} (ev : res_event R) : R := match ev with Acquired r | Released r => r end.

(** What a trace does not touch stays as it is. *)
Lemma owned_frame {R} `{EqDecision R} (tr : list (res_event R)) (h base : list R) :
  Forall (λ ev, res_of ev ∉ base) tr → owned tr (h ++ base) = (.++ base) <$> owned tr h.
Proof.
  intros Ht. revert h. induction Ht as [|ev tr Hev _ IH]; intros h; [done|].
  destruct ev as [r|r]; cbn in *.
  - rewrite (decide_ext (r ∈ h ++ base) (r ∈ h)) by (rewrite elem_of_app; tauto).
    case_decide; [done|]. apply (IH (r :: h)).
  - rewrite (decide_ext (r ∈ h ++ base) (r ∈ h)) by (rewrite elem_of_app; tauto).
    case_decide; [|done]. rewrite filter_app, (filter_all _ base); [apply IH|].
    apply Forall_forall. intros x Hx ->. done.
Qed.

(** The order in which resources are held does not matter. *)
Lemma owned_perm {R} `{EqDecision R} (tr : list (res_event R)) (h k h' : list R) :
  owned tr h = Some h' → h ≡ₚ k → ∃ k', owned tr k = Some k' ∧ h' ≡ₚ k'.
Proof.
  revert h k. induction tr as [|[r|r] tr IH]; intros h k Ho Hp; cbn in *.
  - injection Ho as <-. by exists k.
  - rewrite (decide_ext (r ∈ k) (r ∈ h)) by (by rewrite Hp). case_decide; [done|].
    eapply IH; [exact Ho|by constructor].
  - rewrite (decide_ext (r ∈ k) (r ∈ h)) by (by rewrite Hp). case_decide; [|done].
    eapply IH; [exact Ho|by rewrite Hp].
Qed.

(** The parts of a bundle, innermost first. *)
Definition bundle_parts : list resource := [IpConn; LifeCtx; H2Conn; Tcp].

(** *** Close *)

(** What is held of the first bundle, the context and the stack. *)
Definition held_by (c : client) : list resource :=
  (if bundle_done 0 c then [] else bundle_parts) ++ (if ctxDone c then [] else [ClientCtx]) ++
  (if tunClosed c then [] else [Tun]).

Definition only_down (c c' : client) : Prop :=
  (ctxDone c = true → ctxDone c' = true) ∧ (tunClosed c = true → tunClosed c' = true) ∧
  (bundle_done 0 c = true → bundle_done 0 c' = true).

Lemma releases_owned c c' :
  only_down c c' → owned (releases c c') (held_by c) = Some (held_by c').
Proof.
  intros (H1 & H2 & H3). unfold releases, held_by.
  destruct (ctxDone c), (ctxDone c'), (tunClosed c), (tunClosed c'), (bundle_done 0 c), (bundle_done 0 c');
    try (by discriminate H1); try (by discriminate H2); try (by discriminate H3); try done;
    try (discriminate (H1 eq_refl)); try (discriminate (H2 eq_refl)); try (discriminate (H3 eq_refl)).
Qed.
Lemma done_on_stays f b x c :
  (∀ y, b_done y = true → b_done (f y) = true) → bundle_done x c = true → bundle_done x (on_bundle f b c) = true.
Proof.
  intros Hf (y & Hy & Hd)%bundle_done_Some. apply bundle_done_Some. rewrite bundles_on, Hy.
  case_decide; cbn; eauto.
Qed.

Lemma only_down_same c c' :
  ctxDone c' = ctxDone c → tunClosed c' = tunClosed c → bundles c' = bundles c → only_down c c'.
Proof. intros H1 H2 H3. unfold only_down, bundle_done. by rewrite H1, H2, H3. Qed.

Lemma only_down_on f b c c' :
  (∀ y, b_done y = true → b_done (f y) = true) →
  ctxDone c' = ctxDone c → tunClosed c' = tunClosed c → bundles c' = bundles (on_bundle f b c) → only_down c c'.
Proof.
  intros Hf H1 H2 H3. unfold only_down. rewrite H1, H2. split_and!; [done..|]. intros Hd.
  apply (done_on_stays f b) in Hd; [|done]. unfold bundle_done in *. by rewrite H3.
Qed.

Lemma fail_stays y : b_done y = true → b_done (fail y) = true.
Proof. by rewrite fail_done. Qed.

(** No step takes anything back. *)
Lemma step_only_down l c c' : wf c → step l c = Some (Ok c') → only_down c c'.
Proof.
  intros Hwf Hs. destruct l as [ok|r|ok|ok|]; cbn [step] in Hs.
  - unfold maintain_step in Hs. destruct (maintain c) as [b|b|b|b| | | |b|b|] eqn:Hm.
    2:{ injection Hs as Hs. apply bind_Ok in Hs as (c1 & H & [= <-]).
        apply clearCurrent_cases in H as [[-> _]|[_ H]]; [by apply only_down_same|].
        apply change_chan in H as (_ & _ & _ & H1 & H2 & H3 & _); [|apply Hwf]. by apply only_down_same. }
    7:{ injection Hs as Hs. apply bind_Ok in Hs as ([set c1] & H & [= <-]).
        apply setCurrent_cases in H as [(-> & -> & _)|(-> & _ & _ & H)]; [by apply only_down_same|].
        apply change_chan in H as (_ & _ & _ & H1 & H2 & H3 & _); [|apply Hwf]. by apply only_down_same. }
    6:{ destruct ok; injection Hs as <-; [|by apply only_down_same]. split_and!; [done..|].
        intros (y & Hy & Hd)%bundle_done_Some. apply bundle_done_Some. exists y. split; [|done]. cbn.
        pose proof (bu_fresh _ (wf_bundle _ Hwf) 0 ltac:(by rewrite Hy)).
        by rewrite lookup_insert_ne by lia. }
    all: step_cases Hs; first [by apply only_down_same|by eapply (only_down_on close_b)
                              |by eapply (only_down_on (λ x, Bundle false (failOnce x) (b_done x)))].
  - unfold inbound_step in Hs.
    step_cases Hs; first [by apply only_down_same|by eapply (only_down_on fail); [apply fail_stays|..]].
  - unfold keepalive_step in Hs.
    step_cases Hs; first [by apply only_down_same|by eapply (only_down_on fail); [apply fail_stays|..]].
  - unfold outbound_step in Hs.
    step_cases Hs; first [by apply only_down_same|by eapply (only_down_on fail); [apply fail_stays|..]].
  - unfold close_step in Hs. destruct (closer c) as [|b|b| | |] eqn:Hc; [| | | | |done].
    + injection Hs as Hs. apply bind_Ok in Hs as (c1 & H & [= <-]).
      apply change_chan in H as (_ & _ & _ & H1 & H2 & H3 & _); [|apply Hwf]. by apply only_down_same.
    + by injection Hs as <-.
    + injection Hs as <-. destruct b; [by eapply (only_down_on close_b)|by apply only_down_same].
    + by injection Hs as <-.
    + step_cases Hs. by apply only_down_same.
Qed.

(** What a run gives back is what is no longer held. *)
Lemma run_releases_owned ls c tr c' :
  wf c → run_releases ls c = Some (tr, c') → wf c' ∧ owned tr (held_by c) = Some (held_by c').
Proof.
  revert c tr. induction ls as [|l ls IH]; intros c tr Hwf H; cbn [run_releases] in H.
  - by injection H as <- <-.
  - destruct (step l c) as [[c1|[]|]|] eqn:Hs; [|done..].
    apply bind_Some in H as ([tr1 c2] & H1 & [= <- <-]).
    destruct (IH c1 tr1 (h2c_step l c c1 Hwf Hs) H1) as [Hwf2 Ho]. split; [done|].
    by rewrite owned_app, (releases_owned c c1 (step_only_down l c c1 Hwf Hs)).
Qed.

Lemma run_releases_own ls c tr c' :
  run_releases ls c = Some (tr, c') → Forall (λ ev, ∀ j, res_of ev ≠ LateConn j) tr.
Proof.
  revert c tr. induction ls as [|l ls IH]; intros c tr H; cbn [run_releases] in H.
  - injection H as <- <-. constructor.
  - destruct (step l c) as [[c1|[]|]|]; [|done..].
    apply bind_Some in H as ([tr1 c2] & H1 & [= <- <-]). apply Forall_app. split; [|by eapply IH].
    unfold releases. repeat case_match; cbn; by repeat constructor.
Qed.

Lemma run_releases_reach ls c tr c' : reach c → run_releases ls c = Some (tr, c') → reach c'.
Proof.
  revert c tr. induction ls as [|l ls IH]; intros c tr Hr H; cbn [run_releases] in H.
  - by injection H as <- <-.
  - destruct (step l c) as [[c1|[]|]|] eqn:Hs; [|done..].
    apply bind_Some in H as ([tr1 c2] & H1 & [= <- <-]).
    eapply IH; [|exact H1]. eapply rtc_r; [exact Hr|by eexists].
Qed.

(** When [Close] has returned nothing is held. *)
Lemma done_holds_nothing c : reach c → closer c = CDone → is_Some (bundles c !! 0) → held_by c = [].
Proof.
  intros Hr Hd [x Hx]. pose proof (h2c_reach c Hr) as [_ Hcl Hbu].
  assert (Hctx : ctxDone c = true) by (apply (cl_ctx _ Hcl); by rewrite Hd).
  assert (Ht : tunClosed c = true) by (apply (cl_tun _ Hcl); auto).
  assert (Hb : bundle_done 0 c = true).
  { apply bundle_done_Some. exists x. split; [done|]. destruct (b_done x) eqn:E; [done|].
    pose proof (bu_open _ Hbu 0 x Hx E) as Hs. destruct (h2c_done c Hr Hd) as [Hm _]. by rewrite Hm in Hs. }
  unfold held_by. by rewrite Hctx, Ht, Hb.
Qed.

(** The first bundle is never forgotten. *)
Lemma bundle_known_stays b l c c' :
  chan_wf c → step l c = Some (Ok c') → is_Some (bundles c !! b) → is_Some (bundles c' !! b).
Proof.
  intros Hch Hs Hb.
  assert (Hon : ∀ f x, is_Some (bundles (on_bundle f x c) !! b)).
  { intros f x. rewrite bundles_on. case_decide; [by rewrite fmap_is_Some|done]. }
  destruct l as [ok|r|ok|ok|]; cbn [step] in Hs.
  - unfold maintain_step in Hs. destruct (maintain c) as [y|y|y|y| | | |y|y|] eqn:Hm.
    2:{ injection Hs as Hs. apply bind_Ok in Hs as (c1 & H & [= <-]).
        apply clearCurrent_cases in H as [[-> _]|[_ H]]; [done|].
        apply change_chan in H as (_ & _ & _ & _ & _ & H3 & _); [|done]. cbn. by rewrite H3. }
    7:{ injection Hs as Hs. apply bind_Ok in Hs as ([set c1] & H & [= <-]).
        apply setCurrent_cases in H as [(-> & -> & _)|(-> & _ & _ & H)]; [done|].
        apply change_chan in H as (_ & _ & _ & _ & _ & H3 & _); [|done]. cbn. by rewrite H3. }
    all: step_cases Hs; try done; try apply Hon. cbn.
    destruct (decide (fresh_id c = b)) as [->|]; [by rewrite lookup_insert_eq|by rewrite lookup_insert_ne].
  - unfold inbound_step in Hs. step_cases Hs; first [done|apply Hon].
  - unfold keepalive_step in Hs. step_cases Hs; first [done|apply Hon].
  - unfold outbound_step in Hs. step_cases Hs; first [done|apply Hon].
  - unfold close_step in Hs. destruct (closer c) as [|y|y| | |] eqn:Hc; [| | | | |done].
    + injection Hs as Hs. apply bind_Ok in Hs as (c1 & H & [= <-]).
      apply change_chan in H as (_ & _ & _ & _ & _ & H3 & _); [|done]. cbn. by rewrite H3.
    + by injection Hs as <-.
    + injection Hs as <-. destruct y; [apply Hon|done].
    + by injection Hs as <-.
    + by step_cases Hs.
Qed.

Lemma run_releases_known ls c tr c' :
  wf c → run_releases ls c = Some (tr, c') → is_Some (bundles c !! 0) → is_Some (bundles c' !! 0).
Proof.
  revert c tr. induction ls as [|l ls IH]; intros c tr Hwf H Hb; cbn [run_releases] in H.
  - by injection H as <- <-.
  - destruct (step l c) as [[c1|[]|]|] eqn:Hs; [|done..].
    apply bind_Some in H as ([tr1 c2] & H1 & [= <- <-]).
    eapply IH; [by eapply h2c_step|exact H1|]. eapply bundle_known_stays; [apply Hwf|done|done].
Qed.

(** *** Dialling *)

Section setup.
  Context (DialContext HandshakeContext NewClientConn : nat → gostring → bool)
          (DialH2 : nat → gostring → connect_end) (live : nat → bool)
          (CreateNetTUN : list addr → bool).

Notation h2_dialAddr := (h2_dialAddr DialContext HandshakeContext NewClientConn DialH2).

(** The candidates whose CONNECT-IP connection comes when it is no longer waited for. *)
Definition is_late (edgeAddrs : list gostring) (i : nat) : bool :=
  match edgeAddrs !! i with
  | Some a => DialContext i a && HandshakeContext i a && NewClientConn i a && comes_late (DialH2 i a)
  | None => false
  end.

Definition attempt_events (edgeAddrs : list gostring) (i : nat) : list (res_event resource) :=
  default [] (snd ∘ h2_dialAddr i <$> edgeAddrs !! i).

(** The late connections of the candidates tried, the last first. *)
Definition lates (edgeAddrs : list gostring) (tried : list nat) : list nat :=
  filter (is_late edgeAddrs) (reverse tried).

Lemma lates_cons edgeAddrs i tried : lates edgeAddrs (i :: tried) = lates edgeAddrs tried ++ lates edgeAddrs [i].
Proof. unfold lates. by rewrite reverse_cons, filter_app. Qed.

Lemma elem_of_lates edgeAddrs i tried : i ∈ lates edgeAddrs tried ↔ i ∈ tried ∧ is_late edgeAddrs i.
Proof. unfold lates. rewrite list_elem_of_filter, elem_of_reverse. tauto. Qed.

(** One attempt, next to whatever is held of the earlier ones. *)
Lemma attempt_owned edgeAddrs i a l :
  edgeAddrs !! i = Some a → i ∉ l →
  owned (attempt_events edgeAddrs i) ((LateConn <$> l) ++ [ClientCtx; Tun]) =
  Some (match fst (h2_dialAddr i a) with
        | Some _ => bundle_parts ++ (LateConn <$> l) ++ [ClientCtx; Tun]
        | None => (LateConn <$> (lates edgeAddrs [i] ++ l)) ++ [ClientCtx; Tun]
        end).
Proof.
  intros Ha Hi. set (base := (LateConn <$> l) ++ [ClientCtx; Tun]).
  assert (Hl : LateConn i ∉ base).
  { unfold base. rewrite elem_of_app, list_elem_of_fmap. intros [(j & [= <-] & Hj)|Hj]; [done|].
    set_solver. }
  assert (Hr : ∀ r, (∀ j, r ≠ LateConn j) → r ∉ [ClientCtx; Tun] → r ∉ base).
  { intros r H1 H2. unfold base. rewrite elem_of_app, list_elem_of_fmap. intros [(j & -> & _)|?]; [by destruct (H1 j)|done]. }
  assert (Htcp : Tcp ∉ base) by (apply Hr; [done|set_solver]).
  assert (Hh2 : H2Conn ∉ base) by (apply Hr; [done|set_solver]).
  assert (Hlc : LifeCtx ∉ base) by (apply Hr; [done|set_solver]).
  assert (Hip : IpConn ∉ base) by (apply Hr; [done|set_solver]).
  unfold attempt_events, lates. rewrite Ha. cbn [fmap option_fmap option_map default compose].
  change base with ([] ++ base). rewrite owned_frame.
  2:{ unfold H2Setup.h2_dialAddr. repeat case_match; cbn; repeat constructor; done. }
  rewrite fmap_app. fold base. rewrite <- app_assoc. fold base.
  change (reverse [i]) with [i]. unfold is_late, H2Setup.h2_dialAddr. cbn [filter list_filter]. rewrite Ha.
  destruct (DialContext i a), (HandshakeContext i a), (NewClientConn i a), (DialH2 i a) as [| |[]|[]|[]]; done.
Qed.

Lemma found_not_late edgeAddrs i a :
  edgeAddrs !! i = Some a → fst (h2_dialAddr i a) = Some () → is_late edgeAddrs i = false.
Proof.
  intros Ha. unfold is_late, H2Setup.h2_dialAddr. rewrite Ha.
  by destruct (DialContext i a), (HandshakeContext i a), (NewClientConn i a), (DialH2 i a).
Qed.

Definition fails (edgeAddrs : list gostring) (i : nat) : Prop :=
  ∃ a, edgeAddrs !! i = Some a ∧ fst (h2_dialAddr i a) = None.

(** Attempts that fail leave their late connections. *)
Lemma failed_owned edgeAddrs tried l :
  Forall (fails edgeAddrs) tried → NoDup tried → (∀ i, i ∈ tried → i ∉ l) →
  owned (tried ≫= attempt_events edgeAddrs) ((LateConn <$> l) ++ [ClientCtx; Tun]) =
  Some ((LateConn <$> (lates edgeAddrs tried ++ l)) ++ [ClientCtx; Tun]).
Proof.
  intros Hf. revert l. induction Hf as [|i tried (a & Ha & Hn) _ IH]; intros l Hnd Hd; [done|].
  apply NoDup_cons in Hnd as [Hi Hnd]. cbn [mbind list_bind].
  rewrite owned_app, (attempt_owned edgeAddrs i a l Ha) by (apply Hd; by left). rewrite Hn. cbn [mbind option_bind].
  assert (Hin : ∀ j, j ∈ lates edgeAddrs [i] → j = i)
    by (intros j [Hj _]%elem_of_lates; by apply list_elem_of_singleton).
  rewrite IH; [|done|].
  - by rewrite (lates_cons edgeAddrs i tried), <- app_assoc.
  - intros j Hj [Hl|Hl]%elem_of_app; [|by eapply Hd; [right|]]. apply Hin in Hl as ->. done.
Qed.

Lemma given_back l :
  owned [Released ClientCtx; Released Tun] ((LateConn <$> l) ++ [ClientCtx; Tun]) = Some (LateConn <$> l).
Proof.
  assert (Hk : ∀ r, (∀ j, r ≠ LateConn j) → filter (λ h, h ≠ r) (LateConn <$> l) = LateConn <$> l).
  { intros r Hr. apply filter_all, Forall_forall. intros x (j & -> & _)%list_elem_of_fmap He. by destruct (Hr j). }
  cbn [owned]. rewrite decide_True by set_solver. rewrite filter_app, Hk by done.
  change (filter (λ h, h ≠ ClientCtx) [ClientCtx; Tun]) with [Tun].
  rewrite decide_True by set_solver. rewrite filter_app, Hk by done. apply f_equal, app_nil_r.
Qed.

(** All attempts but the last fail, and a dial that succeeds does so at [addrIdx]. *)
Lemma dial_loop_tried {B} (dial : nat → gostring → option B) edgeAddrs fuel : ∀ i addrIdx r idx tried,
  h2_dial_loop dial live edgeAddrs fuel i addrIdx = (r, idx, tried) →
  let failed j := ∃ a, edgeAddrs !! j = Some a ∧ dial j a = None in
  match r with
  | Some b => ∃ pre a, tried = pre ++ [idx] ∧ edgeAddrs !! idx = Some a ∧ dial idx a = Some b ∧ Forall failed pre
  | None => idx = addrIdx ∧ Forall failed tried
  end.
Proof.
  induction fuel as [|fuel IH]; intros i addrIdx r idx tried H failed; cbn [h2_dial_loop] in H.
  { by injection H as <- <- <-. }
  destruct (edgeAddrs !! _) as [a|] eqn:Ha; [|by injection H as <- <- <-]. destruct (dial _ a) eqn:Hd.
  - injection H as <- <- <-. exists [], a. done.
  - assert (Hf : failed ((addrIdx + i) mod length edgeAddrs)) by by exists a.
    destruct (live _); cbn [negb] in H; [|injection H as <- <- <-; by repeat constructor].
    destruct (h2_dial_loop dial live edgeAddrs fuel (S i) addrIdx) as [[r' new] tr] eqn:Hl.
    injection H as -> -> <-. specialize (IH _ _ _ _ _ Hl). cbn in IH. destruct r.
    + destruct IH as (pre & a' & -> & ? & ? & Hp). exists ((addrIdx + i) mod length edgeAddrs :: pre), a'. split; [done|].
      split_and!; try done. by constructor.
    + destruct IH as [? Hp]. split; [done|]. by constructor.
Qed.

Lemma dial_loop_found {B} (dial : nat → gostring → option B) edgeAddrs fuel i addrIdx b idx tried :
  h2_dial_loop dial live edgeAddrs fuel i addrIdx = (Some b, idx, tried) →
  ∃ a, edgeAddrs !! idx = Some a ∧ dial idx a = Some b.
Proof. intros (pre & a & _ & ? & ? & _)%dial_loop_tried. by exists a. Qed.

(** No candidate is tried twice. *)
Lemma h2_dial_NoDup {B} (dial : nat → gostring → option B) edgeAddrs r idx tried :
  edgeAddrs ≠ [] → h2_dial dial live edgeAddrs 0 = (r, idx, tried) → NoDup tried.
Proof.
  intros Hne. rewrite h2_dial_is_dial. unfold Masque.dial.
  intros (k & Hk & -> & _)%dial_loop_spec; [by apply rotation_NoDup|by destruct edgeAddrs; [|cbn; lia]].
Qed.

Lemma assign_error l value f e : assign l value f = Err e → e ≠ AllFailed.
Proof.
  unfold assign. case_decide; [done|]. destruct (parseAssignedAddress value) as [a|e'|]; cbn;
    [|by intros [= <-]|done]. destruct (Bool.eqb _ _); cbn; [done|by intros [= <-]].
Qed.

Lemma assigned_error v4 v6 e : assigned v4 v6 = Err e → e ≠ AllFailed.
Proof.
  unfold assigned. destruct (assign _ v4 V4) as [l|e'|] eqn:Ha; cbn; [|intros [= <-]|done].
  - apply assign_error.
  - by eapply assign_error.
Qed.

(** C21: Every way out of [NewH2ClientContext] accounts for what it acquired.  An error
    leaves no stack, no context and no TCP or HTTP/2 connection of any attempt, and one
    found in the configuration or the assigned addresses comes before anything is
    acquired; a client holds the stack, its context and the four parts of one bundle, has
    an address, starts from the candidate that answered, and is in the state its
    goroutines start from.  Whatever these then do, reconnections included, when [Close]
    has returned all of that has been given back.  In either case what is never given
    back is exactly the CONNECT-IP connections of the candidates whose
    [connectip.DialH2] succeeded when [dialAddr] no longer waited for it: none, if no
    attempt ended that way. *)
Theorem h2_setup_accounts edgeAddrs tlsConfig v4 v6 :
  let '(r, tr) := NewH2ClientContext DialContext HandshakeContext NewClientConn DialH2 live
                    CreateNetTUN edgeAddrs tlsConfig v4 v6 in
  ∃ late, NoDup late ∧ Forall (is_late edgeAddrs) late ∧
  match r with
  | Ok (l, addrIdx, c) =>
      owned tr [] = Some (bundle_parts ++ (LateConn <$> late) ++ [ClientCtx; Tun]) ∧
      assigned v4 v6 = Ok l ∧ localAddresses l ≠ [] ∧ CreateNetTUN (localAddresses l) = true ∧
      tlsConfig = true ∧
      (∃ a, edgeAddrs !! addrIdx = Some a ∧ fst (h2_dialAddr addrIdx a) = Some ()) ∧ c = start ∧
      (let '(_, _, tried) := h2_dial (λ i a, fst (h2_dialAddr i a)) live edgeAddrs 0 in
       ∀ i, i ∈ late ↔ i ∈ tried ∧ is_late edgeAddrs i) ∧
      (∀ ls given c', run_releases ls c = Some (given, c') → closer c' = CDone →
         ∃ left, owned (tr ++ given) [] = Some left ∧ left ≡ₚ LateConn <$> late)
  | Err e =>
      owned tr [] = Some (LateConn <$> late) ∧ (e ≠ AllFailed → tr = []) ∧
      (e = AllFailed →
         let '(bundle, _, tried) := h2_dial (λ i a, fst (h2_dialAddr i a)) live edgeAddrs 0 in
         bundle = None ∧ ∀ i, i ∈ late ↔ i ∈ tried ∧ is_late edgeAddrs i)
  | Panic => False
  end.
Proof.
  assert (Hnil : ∀ e : setup_error, e ≠ AllFailed → ∃ late, NoDup late ∧ Forall (is_late edgeAddrs) late ∧
    (owned (@nil (res_event resource)) [] = Some (LateConn <$> late) ∧ (e ≠ AllFailed → @nil (res_event resource) = []) ∧
      (e = AllFailed → let '(bundle, _, tried) := h2_dial (λ i a, fst (h2_dialAddr i a)) live edgeAddrs 0 in
         bundle = None ∧ ∀ i, i ∈ late ↔ i ∈ tried ∧ is_late edgeAddrs i))).
  { intros e He. exists []. by repeat constructor. }
  unfold NewH2ClientContext. case_decide as He; [by apply Hnil|]. destruct tlsConfig; [|by apply Hnil]. cbn [negb].
  destruct (assigned v4 v6) as [l|e|] eqn:Ha; [| |by apply assigned_not_Panic in Ha].
  2:{ apply Hnil. by eapply assigned_error. }
  case_decide as Hl; [by apply Hnil|]. destruct (CreateNetTUN (localAddresses l)) eqn:Ht; [|by apply Hnil]. cbn [negb].
  change (λ i, default [] (snd ∘ h2_dialAddr i <$> edgeAddrs !! i)) with (attempt_events edgeAddrs).
  destruct (h2_dial _ live edgeAddrs 0) as [[r addrIdx] tried] eqn:Hd.
  pose proof (h2_dial_NoDup _ _ _ _ _ He Hd) as Hnd.
  pose proof (dial_loop_tried _ _ _ _ _ _ _ _ Hd) as Htried. cbn zeta in Htried.
  assert (Hlates : ∀ js, NoDup js → NoDup (lates edgeAddrs js) ∧ Forall (is_late edgeAddrs) (lates edgeAddrs js)).
  { intros js Hn. split; [apply NoDup_filter; by rewrite reverse_Permutation|]. apply Forall_forall.
    by intros i [_ ?]%elem_of_lates. }
  assert (Hopen : ∀ tr', owned ([Acquired Tun; Acquired ClientCtx] ++ tr') [] = owned tr' [ClientCtx; Tun]) by done.
  destruct r as [[]|].
  - destruct Htried as (pre & a & -> & Hia & Hok & Hpre). apply NoDup_app in Hnd as (Hnp & Hdis & _).
    destruct (Hlates pre Hnp) as (Hl1 & Hl2).
    change (setCurrent 0 unconnected) with (@Ok Empty_set _ (true, start)). cbv iota beta.
    exists (lates edgeAddrs pre). split; [done|]. split; [done|].
    assert (Ho : owned ([Acquired Tun; Acquired ClientCtx] ++ ((pre ++ [addrIdx]) ≫= attempt_events edgeAddrs)) [] =
      Some (bundle_parts ++ (LateConn <$> lates edgeAddrs pre) ++ [ClientCtx; Tun])).
    { rewrite Hopen, bind_app, owned_app.
      assert (Hf := failed_owned edgeAddrs pre [] Hpre Hnp ltac:(by intros ? ? ?%elem_of_nil)). rewrite app_nil_r in Hf.
      cbn in Hf |- *. rewrite Hf. cbn [mbind option_bind list_bind]. rewrite app_nil_r.
      rewrite (attempt_owned edgeAddrs addrIdx a); [by rewrite Hok|done|].
      intros [Hin _]%elem_of_lates. by eapply Hdis; [|left]. }
    split_and!; try done; [by eexists| |].
    { intros i. rewrite elem_of_lates, elem_of_app, list_elem_of_singleton. split; [tauto|].
      intros [[| ->] Hi]; [done|]. by rewrite (found_not_late edgeAddrs addrIdx a Hia Hok) in Hi. }
    intros ls given c' Hrun Hc. rewrite owned_app, Ho. cbn [mbind option_bind].
    assert (Hr : reach c') by (eapply run_releases_reach; [apply rtc_refl|exact Hrun]).
    destruct (run_releases_owned _ _ _ _ h2c_start Hrun) as [_ Hown].
    rewrite (done_holds_nothing c' Hr Hc) in Hown.
    2:{ by eapply run_releases_known; [apply h2c_start|exact Hrun|]. }
    apply (f_equal (fmap (.++ LateConn <$> lates edgeAddrs pre))) in Hown.
    rewrite <- owned_frame in Hown.
    2:{ eapply Forall_impl; [by eapply run_releases_own|]. intros ev Hev (j & Hj & _)%list_elem_of_fmap. by apply (Hev j). }
    eapply owned_perm in Hown as (left & Hleft & Hperm); [|].
    { exists left. split; [exact Hleft|by rewrite <- Hperm]. }
    change (held_by start) with (bundle_parts ++ [ClientCtx; Tun]). rewrite <- app_assoc.
    apply Permutation_app_head, Permutation_app_comm.
  - destruct Htried as [-> Hf]. destruct (Hlates tried Hnd) as (Hl1 & Hl2).
    exists (lates edgeAddrs tried). split; [done|]. split; [done|]. split_and!; [|done|intros _; split; [done|intros i; apply elem_of_lates]].
    rewrite <- app_assoc, Hopen, owned_app.
    assert (Hfo := failed_owned edgeAddrs tried [] Hf Hnd ltac:(by intros ? ? ?%elem_of_nil)). rewrite app_nil_r in Hfo.
    cbn in Hfo |- *. rewrite Hfo. apply given_back.
Qed.
End setup.

(** The timer fires on the first candidate and its connection comes after all; the second
    connects, and closing the client leaves the first one's connection. *)
Lemma late_connection_kept :
  let '(r, tr) := NewH2ClientContext (λ _ _, true) (λ _ _, true) (λ _ _, true)
    (λ i _, if decide (i = 0) then TimerFired true else Connected) (λ _, true) (λ _, true)
    [str "a"; str "b"] true (str "172.16.0.2/32") [] in
  ∃ l given c', r = Ok (l, 1, start) ∧
    run_releases (replicate 4 CloseCall ++ [Outbound true; Maintain true; Maintain true; Maintain true; Inbound ReadErr;
      Keepalive true; Maintain true; Maintain true; CloseCall]) start = Some (given, c') ∧
    closer c' = CDone ∧ owned (tr ++ given) [] = Some [LateConn 0].
Proof. vm_compute. eexists _, _, _. split_and!; reflexivity. Qed.

(** ** Theorems on the addresses *)

(** An assigned address is read with or without a prefix length, and with any white
    space around it: the text of an address, alone or followed by a slash and a number
    of bits in range, gives that address, IPv4-in-IPv6 ones as IPv4; and nothing else
    than a 4-byte address, or a 16-byte one that is not IPv4-in-IPv6, is ever read. *)
Theorem assigned_address_forms ip n ws1 ws2 :
  valid_ip ip → (0 <= n <= max_bits (unmapped ip))%Z → Forall white ws1 → Forall white ws2 →
  parseAssignedAddress (ws1 ++ ip_string ip ++ ws2) = Ok (unmapped ip, []) ∧
  parseAssignedAddress (ws1 ++ (ip_string ip ++ x2f :: itoa n) ++ ws2) = Ok (unmapped ip, []) ∧
  ∀ value a, parseAssignedAddress value = Ok a → valid_ip (fst a) ∧ unmapped (fst a) = fst a.
Proof.
  intros Hv Hn H1 H2. pose proof (ParseAddr_string ip Hv) as Hp.
  pose proof (ip_string_chars ip Hv) as Hc.
  assert (Hn0 : (0 <= n)%Z) by lia.
  assert (Hg : Forall graphic (ip_string ip)).
  { eapply Forall_impl; [exact Hc|]. intros c Hx. by apply white_slash. }
  assert (Hs : x2f ∉ ip_string ip).
  { intros Hin. rewrite Forall_forall in Hc. by apply Hc, white_slash in Hin as [_ ?]. }
  assert (Hne : ip_string ip ≠ []) by (intros Hnil; rewrite Hnil in Hp; done).
  assert (Hun : Unmap (unmapped ip, []) = (unmapped ip, [])) by (rewrite Unmap_unmapped; by destruct (To4 ip)).
  unfold parseAssignedAddress. split_and!.
  - rewrite TrimSpace_white, ParsePrefix_none, Hp by done. cbn. by rewrite Hun.
  - rewrite TrimSpace_white; [|done|done|by destruct (ip_string ip)|].
    + rewrite (ParsePrefix_bits _ _ _ Hp Hn). by rewrite Hun.
    + apply Forall_app. split; [done|]. constructor; [by vm_compute|].
      eapply Forall_impl; [by apply itoa_digits|]. intros c Hd. by apply white_slash, digit_addr_char.
  - intros value a Ha. by eapply parseAssignedAddress_valid.
Qed.

Lemma assigned_address_forms_witness :
  parseAssignedAddress (str " 172.16.0.2/32" ++ [x0a]) = Ok ([xac; x10; x00; x02], []).
Proof.
  assert (Hv : valid_ip [xac; x10; x00; x02]) by by left.
  destruct (assigned_address_forms [xac; x10; x00; x02] 32 [x20] [x0a]) as (_ & H & _);
    [exact Hv|by vm_compute|by repeat constructor|by repeat constructor|exact H].
Defined.

(** The client takes the two assigned values for what they are labelled: a blank one
    gives no address, another must be an address of its family, and the stack's
    addresses are those of the two values, in order, as are the sources its UDP sockets
    bind to; anything else is an error. *)
Theorem assigned_by_family v4 v6 l :
  assigned v4 v6 = Ok l ↔
  ∃ a4 a6, reads V4 v4 a4 ∧ reads V6 v6 a6 ∧
    localAddresses l = option_list a4 ++ option_list a6 ∧
    local4 l = fst <$> a4 ∧ local6 l = fst <$> a6 ∧
    (∀ ip, local4 l = Some ip → length ip = 4) ∧ (∀ ip, local6 l = Some ip → length ip = 16).
Proof.
  assert (Hlen : ∀ f value a, reads f value (Some a) → length (fst a) = if f is V4 then 4 else 16).
  { intros f value a (_ & Ha & Hf). apply parseAssignedAddress_valid in Ha as [Hv _].
    unfold Is4 in Hf. unfold valid_ip in Hv. destruct f; case_bool_decide; try done; tauto. }
  split.
  - intros (l1 & (o4 & H4 & ->)%assign_Ok & (o6 & H6 & ->)%assign_Ok)%bind_Ok.
    exists o4, o6. cbn. split_and!; try done; try by destruct o4; try by destruct o6.
    + intros ip. destruct o4 as [a|]; [|done]. intros [= <-]. by apply Hlen in H4.
    + intros ip. destruct o6 as [a|]; [|done]. intros [= <-]. by apply Hlen in H6.
  - intros (a4 & a6 & H4 & H6 & Hl & Hl4 & Hl6 & _). apply bind_Ok.
    eexists. split; [apply assign_Ok; exists a4; split; [done|reflexivity]|].
    apply assign_Ok. exists a6. split; [done|]. destruct l as [la l4 l6]. cbn in *. subst.
    by destruct a4, a6.
Qed.
