(* ===== verification/Edge.v ===== *)
(** * Which servers the program talks to

    The TLS configurations [main] and the tunnel package build (src/main.go, h2.go,
    masque.go), the client side of the handshake as [crypto/tls] decides it, the QUIC
    configuration, and the connections that depend on the handshake: [dialAddr] of both
    clients, [NewMasqueClientContext], [NewH2ClientContext] and [dialDoH]. *)

From Stdlib Require Import Init.Byte.
From S2P Require Import Prelude GoNet Registration Masque Doh H2Client H2Setup.

(** ** Configurations *)

Inductive CurveID := CurveP256 | CurveP384 | CurveP521 | X25519.

#[export] Instance CurveID_eq_dec : EqDecision CurveID.
Proof. solve_decision. Defined.

Definition VersionTLS12 : Z := 771.
Definition VersionTLS13 : Z := 772.

Section edge.
  Context `{crypto : Crypto}.

(** The fields of [tls.Config] that the program sets; [[]] is a nil slice. *)
Record tls_config := {
  InsecureSkipVerify : bool;
  MinVersion : Z;
  Certificates : list (option Certificate);
  VerifyPeerCertificate : option (list (list byte) → outcome pin_error unit);
  CurvePreferences : list CurveID;
  ServerName : gostring;
  NextProtos : list gostring
}.

(** [main]'s [baseTLSConfig]. *)
Definition baseTLSConfig (regData : Registration)
    (verifyEdge : option (list (list byte) → outcome pin_error unit)) : tls_config :=
  {| InsecureSkipVerify := true;
     MinVersion := VersionTLS13;
     Certificates := [ClientCert regData];
     VerifyPeerCertificate := verifyEdge;
     CurvePreferences := [CurveP256; CurveP384; CurveP521];
     ServerName := [];
     NextProtos := [] |}.

(** [Clone], and the two assignments after it. *)
Definition for_server (name : gostring) (protos : list gostring) (c : tls_config) : tls_config :=
  {| InsecureSkipVerify := InsecureSkipVerify c; MinVersion := MinVersion c;
     Certificates := Certificates c; VerifyPeerCertificate := VerifyPeerCertificate c;
     CurvePreferences := CurvePreferences c; ServerName := name; NextProtos := protos |}.

(** [newH3Client] *)
Definition h3TLSConfig : tls_config → tls_config :=
  for_server (str "consumer-masque-proxy.cloudflareclient.com") [str "h3"].

(** [H2Client.dialAddr] *)
Definition h2ServerName : gostring := str "consumer-masque.cloudflareclient.com".
Definition h2TLSConfig : tls_config → tls_config := for_server h2ServerName [str "h2"].

(** [dialDoH] *)
Definition dohServerName : gostring := str "cloudflare-dns.com".
Definition dohTLSConfig : tls_config :=
  {| InsecureSkipVerify := false; MinVersion := VersionTLS12; Certificates := [];
     VerifyPeerCertificate := None; CurvePreferences := [];
     ServerName := dohServerName; NextProtos := [str "h2"] |}.

(** ** The handshake *)

(** What a server shows in a handshake: the version and the group it picks, the protocol
    ([[]] if it picks none), its certificates, and whether its signature is by the key of
    the first one. *)
Record server := {
  sv_version : Z; sv_group : CurveID; sv_alpn : gostring; sv_chain : list (list byte);
  sv_signed : bool
}.

Section handshake.
  (** [x509.Certificate.Verify] with the system's roots, for a server name. *)
  Context (Verify : gostring → list (list byte) → bool).

(** A chain the configuration takes; no session is resumed, as there is no
    [ClientSessionCache]. *)
Definition verifyServerCertificate (c : tls_config) (chain : list (list byte)) : bool :=
  negb (bool_decide (chain = [])) &&
  forallb (λ raw, bool_decide (is_Some (ParseCertificate raw))) chain &&
  (InsecureSkipVerify c || Verify (ServerName c) chain) &&
  match VerifyPeerCertificate c with None => true | Some verify => is_ok (verify chain) end.

(** A QUIC handshake is one of TLS 1.3 and has to settle on a protocol. *)
Definition handshake (quic : bool) (c : tls_config) (s : server) : bool :=
  bool_decide ((if quic then VersionTLS13 else MinVersion c) <= sv_version s <= VersionTLS13)%Z &&
  (bool_decide (CurvePreferences c = []) || bool_decide (sv_group s ∈ CurvePreferences c)) &&
  (if bool_decide (sv_alpn s = []) then negb quic || bool_decide (NextProtos c = [])
   else bool_decide (sv_alpn s ∈ NextProtos c)) &&
  verifyServerCertificate c (sv_chain s) && sv_signed s.

(** ** The connections *)

(** [quic.Config] *)
Record quic_config := {
  KeepAlivePeriod : Z; MaxIdleTimeout : Z; HandshakeIdleTimeout : Z; EnableDatagrams : bool;
  InitialConnectionReceiveWindow : Z; MaxConnectionReceiveWindow : Z;
  InitialStreamReceiveWindow : Z; MaxStreamReceiveWindow : Z;
  MaxIncomingStreams : Z; MaxIncomingUniStreams : Z; InitialPacketSize : Z
}.

(** Durations are in seconds. *)
Definition quicConfig : quic_config :=
  {| KeepAlivePeriod := 10; MaxIdleTimeout := 60; HandshakeIdleTimeout := 30;
     EnableDatagrams := true;
     InitialConnectionReceiveWindow := 10000000; MaxConnectionReceiveWindow := 10000000;
     InitialStreamReceiveWindow := 1000000; MaxStreamReceiveWindow := 1000000;
     MaxIncomingStreams := 100; MaxIncomingUniStreams := 100; InitialPacketSize := 1350 |}.

(** [connectionIDLength] *)
Definition connectionIDLength : nat := 20.

(** What a QUIC connection is made with. *)
Record quic_attempt := {
  qa_tls : tls_config; qa_config : quic_config; qa_id_length : nat
}.

Section h3.
  (** [net.ResolveUDPAddr], [net.ListenUDP]; [Transport.Dial]: whatever stops it before
      the handshake is over, else the server that answers; the [select] on SETTINGS;
      whether the context is live after an attempt. *)
  Context (ResolveUDPAddr : gostring → option (list byte))
          (ListenUDP : list byte → option (list dial_cause))
          (reach : quic_attempt → nat → gostring → list dial_cause + server)
          (setup : nat → gostring → setup_end)
          (ctx_live : nat → bool).

(** [Transport.Dial] *)
Definition quicDial (q : quic_attempt) (idx : nat) (addr : gostring) : option (list dial_cause) :=
  match reach q idx addr with
  | inl err => Some err
  | inr s => if handshake true (qa_tls q) s then None else Some [OtherCause]
  end.

Inductive client_error := NoEdgeAddrs | AllEdgesFailed.

(** The client, with its [addrIdx]. *)
Definition NewMasqueClientContext (edgeAddrs : list gostring) (tlsConfig : tls_config)
    : outcome client_error (nat * Client.client) :=
  if decide (edgeAddrs = []) then Err NoEdgeAddrs
  else
    let q := {| qa_tls := tlsConfig; qa_config := quicConfig; qa_id_length := connectionIDLength |} in
    let attempt idx addr := fst (dialAddr ResolveUDPAddr ListenUDP (quicDial q idx) (setup idx) addr) in
    match Masque.dial attempt ctx_live edgeAddrs 0 with
    | (Some _, addrIdx, _) => Ok (addrIdx, Client.start)
    | (None, _, _) => Err AllEdgesFailed
    end.
End h3.

Section h2.
  (** The calls of [H2Client.dialAddr] other than the handshake, as in [H2Setup]; the
      server that answers on a TCP connection. *)
  Context (DialContext NewClientConn : nat → gostring → bool) (DialH2 : nat → gostring → connect_end)
          (live : nat → bool) (CreateNetTUN : list addr → bool)
          (answers : nat → gostring → option server).

Definition HandshakeContext (tlsConfig : tls_config) (idx : nat) (addr : gostring) : bool :=
  match answers idx addr with None => false | Some s => handshake false (h2TLSConfig tlsConfig) s end.

(** [newH2Client] *)
Definition newH2Client (edgeAddrs : list gostring) (regData : Registration) (tlsConfig : tls_config)
    : outcome setup_error (locals * nat * H2Client.client) :=
  fst (NewH2ClientContext DialContext (HandshakeContext tlsConfig) NewClientConn DialH2 live
         CreateNetTUN edgeAddrs true (AssignedIPv4 regData) (AssignedIPv6 regData)).
End h2.

(** [dialDoH] with the server that answers on the stream. *)
Definition doh_with (s : server) (p : doh_dial) : doh_dial :=
  {| dd_stream := dd_stream p; dd_connect := dd_connect p; dd_set_deadline := dd_set_deadline p;
     dd_handshake := handshake false dohTLSConfig s; dd_clear_deadline := dd_clear_deadline p;
     dd_alpn := sv_alpn s; dd_h2 := dd_h2 p |}.
End handshake.
End edge.
