(* ===== verification/EdgeFacts.v ===== *)
(** * No connection to a server that is not the registered edge *)

From Stdlib Require Import Init.Byte.
From S2P Require Import Prelude GoNet GoText Json JsonDecode Registration RegistrationFacts RegistrationSamples Masque MasqueFacts Doh H2Client H2ClientFacts H2Setup H2SetupFacts Edge.

Section edge.
  Context `{crypto : Crypto} (Verify : gostring → list (list byte) → bool).

(** A server that holds the key the registration pins the edge to, if it does, and
    speaks [proto], or over TCP settles on none. *)
Definition genuine (r : Registration) (quic : bool) (proto : gostring) (s : server) : Prop :=
  sv_version s = VersionTLS13 ∧ sv_group s ∈ [CurveP256; CurveP384; CurveP521] ∧
  (sv_alpn s = proto ∨ quic = false ∧ sv_alpn s = []) ∧ sv_signed s = true ∧
  sv_chain s ≠ [] ∧ Forall (λ raw, is_Some (ParseCertificate raw)) (sv_chain s) ∧
  (PeerPublicKey r ≠ [] → ∃ key raw rest, decodePublicKey (PeerPublicKey r) = Ok key ∧
     sv_chain s = raw :: rest ∧ ParseCertificate raw = Some (Some key)).

Lemma is_ok_unit {E} (m : outcome E unit) : is_ok m = true ↔ m = Ok ().
Proof. destruct m as [[]| |]; done. Qed.

(** The verifier [main] installs takes what the pin takes. *)
Lemma verifier_takes r v chain :
  PeerPublicKeyVerifier r = Ok v →
  match v with None => true | Some verify => is_ok (verify chain) end = true ↔
  (PeerPublicKey r ≠ [] → ∃ key raw rest, decodePublicKey (PeerPublicKey r) = Ok key ∧
     chain = raw :: rest ∧ ParseCertificate raw = Some (Some key)).
Proof.
  unfold PeerPublicKeyVerifier. intros Hv. case_decide as Hp; [by injection Hv as <-|].
  apply bind_Ok in Hv as (key & Hk & [= <-]). rewrite is_ok_unit, verify_peer_Ok. split.
  - intros (raw & rest & -> & Hr) _. by exists key, raw, rest.
  - intros H. destruct (H Hp) as (key' & raw & rest & Hk' & -> & Hr). exists raw, rest.
    split; [done|]. congruence.
Qed.

Lemma forallb_decided {A} (P : A → Prop) `{∀ x, Decision (P x)} l :
  forallb (λ x, bool_decide (P x)) l = true ↔ Forall P l.
Proof.
  rewrite forallb_forall, Forall_forall. split; intros Hl x Hx.
  - by apply (bool_decide_eq_true (P x)), Hl, list_elem_of_In.
  - apply bool_decide_eq_true. by apply Hl, list_elem_of_In.
Qed.

(** The handshake with the edge succeeds exactly with a genuine server: neither the name
    nor the authorities of the system play a part. *)
Lemma handshake_genuine r v quic name proto s :
  PeerPublicKeyVerifier r = Ok v → proto ≠ [] →
  handshake Verify quic (for_server name [proto] (baseTLSConfig r v)) s = true ↔ genuine r quic proto s.
Proof.
  intros Hv Hp. unfold handshake, verifyServerCertificate, genuine. cbn [for_server baseTLSConfig
    InsecureSkipVerify MinVersion VerifyPeerCertificate CurvePreferences NextProtos ServerName orb].
  rewrite !andb_true_iff, (verifier_takes r v _ Hv), forallb_decided, negb_true_iff, bool_decide_eq_false.
  assert (Hver : bool_decide ((if quic then VersionTLS13 else VersionTLS13) <= sv_version s <= VersionTLS13)%Z = true
    ↔ sv_version s = VersionTLS13) by (rewrite bool_decide_eq_true; destruct quic; lia).
  assert (Hgrp : bool_decide ([CurveP256; CurveP384; CurveP521] = []) ||
    bool_decide (sv_group s ∈ [CurveP256; CurveP384; CurveP521]) = true ↔
    sv_group s ∈ [CurveP256; CurveP384; CurveP521]) by apply bool_decide_eq_true.
  assert (Halpn : (if bool_decide (sv_alpn s = []) then negb quic || bool_decide ([proto] = [])
                   else bool_decide (sv_alpn s ∈ [proto])) = true ↔
    sv_alpn s = proto ∨ quic = false ∧ sv_alpn s = []).
  { destruct (bool_decide (sv_alpn s = [])) eqn:Ha.
    - apply bool_decide_eq_true in Ha. rewrite Ha. destruct quic; cbn; naive_solver.
    - apply bool_decide_eq_false in Ha. rewrite bool_decide_eq_true, list_elem_of_singleton. naive_solver. }
  rewrite Hver, Hgrp, Halpn. tauto.
Qed.
(** A client of either kind is connected to the candidate at [addrIdx]. *)
Lemma h3_client_dialled Resolve Listen reach setup live edgeAddrs cfg idx c :
  NewMasqueClientContext Verify Resolve Listen reach setup live edgeAddrs cfg = Ok (idx, c) →
  c = Client.start ∧
  ∃ addr q s, edgeAddrs !! idx = Some addr ∧ qa_tls q = cfg ∧ qa_config q = quicConfig ∧
    qa_id_length q = 20 ∧ reach q idx addr = inr s ∧ handshake Verify true cfg s = true.
Proof.
  unfold NewMasqueClientContext. case_decide as Hn; [done|]. set (q := Build_quic_attempt _ _ _).
  unfold Masque.dial. destruct (dial_loop _ live edgeAddrs (length edgeAddrs) 0 0) as [[[b|] new] tried] eqn:Hd;
    [|done]. intros [= <- <-]. split; [done|].
  apply dial_loop_spec in Hd as (k & _ & _ & _ & _ & _ & addr & Ha & Hb); [|by destruct edgeAddrs; [done|cbn; lia]].
  unfold dialAddr in Hb. destruct (Resolve addr) as [ip|]; [|done]. destruct (Listen _); [done|].
  unfold quicDial in Hb. destruct (reach q _ addr) as [err|s] eqn:Hr; [done|].
  destruct (handshake Verify true (qa_tls q) s) eqn:Hh; [|done]. by exists addr, q, s.
Qed.

Lemma h2_client_dialled Dial NewConn DialH2 live Create answers edgeAddrs r cfg l idx c :
  newH2Client Verify Dial NewConn DialH2 live Create answers edgeAddrs r cfg = Ok (l, idx, c) →
  ∃ addr s, edgeAddrs !! idx = Some addr ∧ answers idx addr = Some s ∧
    handshake Verify false (h2TLSConfig cfg) s = true.
Proof.
  unfold newH2Client, NewH2ClientContext. case_decide; [done|]. cbn [negb].
  destruct (assigned _ _) as [l'| |]; [|done..]. case_decide; [done|]. destruct (negb _); [done|].
  unfold h2_dial. destruct (h2_dial_loop _ live edgeAddrs (length edgeAddrs) 0 0) as [[[b|] new] tried] eqn:Hd;
    [|done]. destruct (setCurrent 0 unconnected) as [[[] c']| |]; [|done..]. intros [= <- <- <-].
  apply dial_loop_found in Hd as (addr & Ha & Hb). unfold h2_dialAddr in Hb.
  destruct (Dial _ addr); [|done]. cbn [negb] in Hb.
  destruct (HandshakeContext Verify answers cfg _ addr) eqn:Hh; [|done].
  unfold HandshakeContext in Hh. destruct (answers _ addr) as [s|] eqn:Hs; [|done]. by exists addr, s.
Qed.

(** C5: Every tunnel ends at the registered edge.  With the verifier of the registration, an
    H3 or H2 client comes up only on a server that has signed with the key of its first
    certificate, over TLS 1.3, and that key is the registered one if there is one to pin;
    such a server is always taken, whatever its certificate says, and the client shows
    the certificate of the registration.  A DoH connection inside the tunnel, which the
    edge could tamper with, comes up only on a server the system's authorities vouch for
    as cloudflare-dns.com, speaking HTTP/2. *)
Theorem edge_authenticated r v :
  PeerPublicKeyVerifier r = Ok v →
  let cfg := baseTLSConfig r v in
  Certificates cfg = [ClientCert r] ∧
  (∀ s, handshake Verify true (h3TLSConfig cfg) s = true ↔ genuine r true (str "h3") s) ∧
  (∀ s, handshake Verify false (h2TLSConfig cfg) s = true ↔ genuine r false (str "h2") s) ∧
  (∀ Resolve Listen reach setup live edgeAddrs idx c,
     NewMasqueClientContext Verify Resolve Listen reach setup live edgeAddrs (h3TLSConfig cfg) = Ok (idx, c) →
     ∃ addr q s, edgeAddrs !! idx = Some addr ∧ reach q idx addr = inr s ∧ genuine r true (str "h3") s ∧
       Certificates (qa_tls q) = [ClientCert r]) ∧
  (∀ Dial NewConn DialH2 live Create answers edgeAddrs l idx c,
     newH2Client Verify Dial NewConn DialH2 live Create answers edgeAddrs r cfg = Ok (l, idx, c) →
     ∃ addr s, edgeAddrs !! idx = Some addr ∧ answers idx addr = Some s ∧ genuine r false (str "h2") s) ∧
  (∀ s p tr, dialDoH (doh_with Verify s p) = (true, tr) →
     Verify (str "cloudflare-dns.com") (sv_chain s) = true ∧ sv_alpn s = str "h2" ∧
     sv_signed s = true ∧ (VersionTLS12 <= sv_version s)%Z).
Proof.
  intros Hv cfg.
  assert (H3 : ∀ s, handshake Verify true (h3TLSConfig cfg) s = true ↔ genuine r true (str "h3") s)
    by (intros s; by apply handshake_genuine).
  assert (H2 : ∀ s, handshake Verify false (h2TLSConfig cfg) s = true ↔ genuine r false (str "h2") s)
    by (intros s; by apply handshake_genuine).
  split_and!; [done|done|done|..].
  - intros Resolve Listen reach setup live edgeAddrs idx c (_ & addr & q & s & Ha & Hq & _ & _ & Hr & Hh)%h3_client_dialled.
    exists addr, q, s. rewrite Hq. split_and!; [done|done|by apply H3|done].
  - intros Dial NewConn DialH2 live Create answers edgeAddrs l idx c (addr & s & Ha & Hs & Hh)%h2_client_dialled.
    exists addr, s. split_and!; [done|done|by apply H2].
  - intros s p tr. unfold dialDoH. cbn [dd_stream dd_connect dd_set_deadline dd_handshake dd_clear_deadline dd_alpn dd_h2 doh_with].
    destruct (dd_stream p); [|done]. destruct (dd_connect p); [|done]. cbn [negb].
    destruct (bool_decide (_ = 200%Z)); [|done]. destruct (dd_set_deadline p); [|done]. cbn [negb].
    destruct (handshake Verify false dohTLSConfig s) eqn:Hh; [|done].
    destruct (dd_clear_deadline p); [|done]. cbn [negb].
    destruct (bool_decide (sv_alpn s = str "h2")) eqn:Ha; [|done]. intros _.
    apply bool_decide_eq_true in Ha. unfold handshake, verifyServerCertificate in Hh. cbn in Hh.
    rewrite !andb_true_iff in Hh. destruct Hh as ((((Hver & _) & _) & ((_ & Hchain) & _)) & Hsig).
    apply bool_decide_eq_true in Hver. split_and!; [done|done|done|lia].
Qed.
End edge.

(** ** Witness *)

#[local] Existing Instance toy.

(** The first port answers with another key, the second with the registered one. *)
Definition toy_server (key : gostring) : server :=
  {| sv_version := VersionTLS13; sv_group := CurveP384; sv_alpn := str "h3"; sv_chain := [key];
     sv_signed := true |}.

Definition toy_reach (q : quic_attempt) (_ : nat) (addr : gostring) : list dial_cause + server :=
  inr (toy_server (if decide (addr = str "162.159.198.2:443") then str "0else" else str "0edge")).

Lemma edge_authenticated_witness :
  ∃ v, PeerPublicKeyVerifier toy_registration = Ok v ∧
  let start := NewMasqueClientContext (λ _ _, false) (λ _, Some [xa2; x9f; xc6; x02]) (λ _, None) toy_reach
    (λ _ _, GotSettings) (λ _, true) [str "162.159.198.2:443"; str "162.159.198.2:4500"]
    (h3TLSConfig (baseTLSConfig toy_registration v)) in
  start = Ok (1, Client.start) ∧ genuine toy_registration true (str "h3") (toy_server (str "0edge")).
Proof.
  eexists. split; [vm_compute; reflexivity|]. intros start.
  assert (Hs : start = Ok (1, Client.start)) by (vm_compute; reflexivity). split; [exact Hs|].
  refine (_ (edge_authenticated (λ _ _, false) toy_registration _ _)); [|vm_compute; reflexivity].
  intros (_ & _ & _ & H & _). destruct (H _ _ _ _ _ _ _ _ Hs) as (addr & q & s & Ha & Hr & Hg & _).
  injection Ha as <-. vm_compute in Hr. injection Hr as <-. exact Hg.
Defined.
