(* ===== verification/H2Link.v ===== *)
(** * What the HTTP/2 client promises, abstractly

    A link that is up on a numbered connection, down, or shut for good, with at most one
    packet on its way out.  The client's goroutines refine it: every step is one of the
    link's actions or none. *)

From Stdlib Require Import Sorting.Sorted.
From S2P Require Import Prelude H2Client H2ClientFacts.

(** ** The specification *)
Module Link.

(** [held]: the connection for which a packet has been taken and not yet sent;
    [retired]: the connections that have been closed. *)
Record link := {
  up : option nat; shut : bool; last : nat; held : option nat; retired : gset nat
}.

Definition init : link := {| up := Some 0; shut := false; last := 0; held := None; retired := ∅ |}.

(** [Take]: a packet gets the current connection; [Send]: it is written to it; [Drop]: the
    write fails.  [Retire]: a connection is closed. *)
Inductive act :=
  | Tau | Take (b : nat) | Send (b : nat) | Drop (b : nat)
  | Lose | Connect (b : nat) | Retire (b : nat) | Shut.

#[global] Instance act_eq_dec : EqDecision act.
Proof. solve_decision. Defined.

Definition hold (h : option nat) (s : link) : link :=
  {| up := up s; shut := shut s; last := last s; held := h; retired := retired s |}.
Definition on (u : option nat) (sh : bool) (l : nat) (s : link) : link :=
  {| up := u; shut := sh; last := l; held := held s; retired := retired s |}.
Definition retire_b (b : nat) (s : link) : link :=
  {| up := up s; shut := shut s; last := last s; held := held s; retired := {[b]} ∪ retired s |}.

(** A connection is never connected again: numbers go up.  It is closed only when it is
    no longer the current one, and nothing is sent on a closed one. *)
Inductive step : act → link → link → Prop :=
  | tau s : step Tau s s
  | take b s : up s = Some b → held s = None → step (Take b) s (hold (Some b) s)
  | send b s : held s = Some b → b ∉ retired s → step (Send b) s (hold None s)
  | drop b s : held s = Some b → step (Drop b) s (hold None s)
  | lose s : up s ≠ None → step Lose s (on None (shut s) (last s) s)
  | connect b s : shut s = false → up s = None → last s < b → step (Connect b) s (on (Some b) false b s)
  | retire b s : up s ≠ Some b → step (Retire b) s (retire_b b s)
  | shut_down s : shut s = false → step Shut s (on None true (last s) s).

Inductive run : link → list act → link → Prop :=
  | run_nil s : run s [] s
  | run_cons a acts s s' s'' : step a s s' → run s' acts s'' → run s (a :: acts) s''.

Lemma link_run_snoc s acts s' a s'' : run s acts s' → step a s' s'' → run s (acts ++ [a]) s''.
Proof. induction 1; intros Hs; cbn; econstructor; eauto. constructor. Qed.

Lemma run_app s a b s' : run s (a ++ b) s' → ∃ m, run s a m ∧ run m b s'.
Proof.
  revert s. induction a as [|x a IH]; intros s; cbn; [by exists s; split; [constructor|]|].
  inversion 1 as [|? ? ? m ? Hx Hr]; subst. apply IH in Hr as (m' & Ha & Hb).
  exists m'. split; [by econstructor|done].
Qed.

Lemma run_snoc_inv s acts a s' : run s (acts ++ [a]) s' → ∃ m, run s acts m ∧ step a m s'.
Proof.
  intros (m & Hm & Ha)%run_app. exists m. split; [done|].
  inversion Ha as [|? ? ? ? ? Hs Hr]; subst. by inversion Hr; subst.
Qed.

Definition connected (a : act) : option nat := match a with Connect b => Some b | _ => None end.

(** The connections come in order, after those there were. *)
Lemma run_increasing s acts s' :
  run s acts s' → StronglySorted lt (last s :: omap connected acts).
Proof.
  induction 1 as [s|a acts s s' s'' Hs _ IH]; [by repeat constructor|].
  destruct Hs; try exact IH. cbn [omap list_omap connected]. cbn [last on] in IH.
  constructor; [exact IH|]. constructor; [done|].
  apply StronglySorted_inv in IH as [_ IH]. eapply Forall_impl; [exact IH|]. intros x Hx. lia.
Qed.

(** What concerns a packet; what starts something. *)
Definition of_packet (a : act) : Prop := match a with Take _ | Send _ | Drop _ => True | _ => False end.
Definition starts (a : act) : Prop := match a with Take _ | Connect _ => True | _ => False end.
Definition sends (a : act) : Prop := match a with Send _ => True | _ => False end.

#[global] Instance sends_dec a : Decision (sends a).
Proof. destruct a; cbn; apply _. Defined.

(** Once shut, and down, nothing starts; the packet on its way may still go out. *)
Lemma run_shut s acts s' :
  run s acts s' → shut s = true → up s = None →
  Forall (λ a, ¬ starts a) acts ∧ length (filter sends acts) <= (if held s is Some _ then 1 else 0).
Proof.
  induction 1 as [s|a acts s s' s'' Hs _ IH]; intros Hsh Hup; [split; [constructor|cbn; lia]|].
  destruct Hs as [s|b s|b s Hh Hr|b s Hh|s|b s|b s|s]; try congruence; cbn [held hold retire_b] in IH;
    destruct IH as [IHs IHn]; try done; (split; [by constructor; [intros []|]|]);
    rewrite ?filter_cons_False by (by intros []); rewrite ?Hh; try done.
  - rewrite filter_cons_True by done. cbn. lia.
  - lia.
Qed.

(** The packet on its way was taken for its connection while that was the current one,
    and nothing has been done with another since. *)
Lemma run_held acts s :
  run init acts s →
  (∀ b, held s = Some b → ∃ taken since, acts = taken ++ Take b :: since ∧
     Forall (λ a, ¬ of_packet a) since ∧ ∃ m, run init taken m ∧ up m = Some b) ∧
  (∀ b, Retire b ∈ acts → b ∈ retired s).
Proof.
  revert s. induction acts as [|a acts IH] using rev_ind; intros s Hr.
  { inversion Hr; subst. split; [done|]. by intros b ?%elem_of_nil. }
  apply run_snoc_inv in Hr as (m & Hm & Hs). destruct (IH m Hm) as [IHh IHr].
  assert (Hkeep : ¬ of_packet a → ∀ b, held m = Some b → ∃ taken since, acts ++ [a] = taken ++ Take b :: since ∧
    Forall (λ a, ¬ of_packet a) since ∧ ∃ m, run init taken m ∧ up m = Some b).
  { intros Ha b (taken & since & -> & Hq & Ht)%IHh. exists taken, (since ++ [a]). rewrite <- app_assoc. cbn.
    split; [done|]. split; [apply Forall_app; by repeat constructor|done]. }
  assert (Hret : (∀ b, a ≠ Retire b) → ∀ b, Retire b ∈ acts ++ [a] → b ∈ retired m).
  { intros Ha b [Hb|Hb%list_elem_of_singleton]%elem_of_app; [by apply IHr|by destruct (Ha b)]. }
  destruct Hs; cbn [held retired hold on retire_b];
    (split; [try (by apply Hkeep; intros [])|try (by apply Hret)]); try done.
  - intros b' [= <-]. exists acts, []. split; [done|]. split; [constructor|]. by eexists.
  - intros b' [Hb|Hb%list_elem_of_singleton]%elem_of_app; [|injection Hb as <-; set_solver].
    apply IHr in Hb. set_solver.
Qed.
End Link.

(** ** The refinement *)

(** The link's action in a step of the client.  [outboundPump] takes the connection when
    [waitCurrent] returns it and sends when [WritePacketBuffer] succeeds; a bundle is
    closed by [maintain] or by [Close]. *)
Definition act_of (l : label) (c c' : client) : Link.act :=
  match l with
  | Outbound _ =>
      match outbound c, outbound c' with
      | OLock, OWrite b => Link.Take b
      | OWrite b, OReadTun => Link.Send b
      | OWrite b, OFail _ => Link.Drop b
      | _, _ => Link.Tau
      end
  | Maintain _ =>
      match maintain c with
      | MClear b => if decide (current c = Some b) then Link.Lose else Link.Tau
      | MCloseB b | MCloseNew b => Link.Retire b
      | MSet b => match maintain c' with MWaitFail _ => Link.Connect b | _ => Link.Tau end
      | _ => Link.Tau
      end
  | CloseCall =>
      match closer c with
      | CIdle => Link.Shut
      | CCloseB (Some b) => Link.Retire b
      | _ => Link.Tau
      end
  | _ => Link.Tau
  end.

(** The connection the outbound pump has a packet for. *)
Definition in_hand (c : client) : option nat := match outbound c with OWrite b => Some b | _ => None end.

Inductive trace : client → list Link.act → client → Prop :=
  | trace_nil c : trace c [] c
  | trace_snoc c acts c' l c'' :
      trace c acts c' → step l c' = Some (Ok c'') → trace c (acts ++ [act_of l c' c'']) c''.

Record refines (c : client) (s : Link.link) : Prop := Refines {
  re_wf : wf c;
  re_up : Link.up s = current c;
  re_shut : Link.shut s = closed c;
  re_last : Link.last s < fresh_id c;
  re_set : ∀ b, maintain c = MSet b → Link.last s < b;
  re_held : Link.held s = in_hand c;
  re_retired : ∀ b, b ∈ Link.retired s ↔ bundle_done b c = true
}.

(** A step that leaves the link alone. *)
Lemma refines_same c c' s :
  refines c s → wf c' → current c' = current c → closed c' = closed c → fresh_id c <= fresh_id c' →
  (∀ b, maintain c' = MSet b → maintain c = MSet b ∨ b = fresh_id c) →
  in_hand c' = in_hand c → (∀ b, bundle_done b c' = bundle_done b c) →
  refines c' s.
Proof.
  intros [Hwf Hup Hsh Hl Hs Hh Hr] Hwf' Hc Hcl Hf Hm Hi Hd. split; [done|congruence..|lia| |congruence|].
  - intros b Hb. destruct (Hm b Hb) as [| ->]; [by apply Hs|done].
  - intros b. by rewrite Hd.
Qed.

Lemma done_bundles c c' : bundles c' = bundles c → ∀ b, bundle_done b c' = bundle_done b c.
Proof. intros H b. unfold bundle_done. by rewrite H. Qed.

Lemma done_on f b c : (∀ x, b_done (f x) = b_done x) → ∀ b', bundle_done b' (on_bundle f b c) = bundle_done b' c.
Proof.
  intros Hf b'. unfold bundle_done. rewrite bundles_on. case_decide; [|done].
  destruct (bundles c !! b'); [apply Hf|done].
Qed.

Lemma done_closed b c : is_Some (bundles c !! b) →
  ∀ b', bundle_done b' (on_bundle close_b b c) = true ↔ b' = b ∨ bundle_done b' c = true.
Proof.
  intros [x Hx] b'. unfold bundle_done. rewrite bundles_on. case_decide as E.
  - subst b'. rewrite Hx. cbn. naive_solver.
  - naive_solver.
Qed.

(** Closing a bundle: it is not the current one, since that is open. *)
Lemma refines_close b c c' s :
  refines c s → wf c' → is_Some (bundles c !! b) → bundles c' = bundles (on_bundle close_b b c) →
  current c' = current c → closed c' = closed c → fresh_id c <= fresh_id c' →
  (∀ x, maintain c' = MSet x → maintain c = MSet x) → in_hand c' = in_hand c →
  Link.step (Link.Retire b) s (Link.retire_b b s) ∧ refines c' (Link.retire_b b s).
Proof.
  intros [Hwf Hup Hsh Hl Hs Hh Hr] Hwf' Hk Hb Hc Hcl Hf Hm Hi.
  assert (Hd : ∀ x, bundle_done x c' = true ↔ x = b ∨ bundle_done x c = true).
  { intros x. rewrite <- (done_closed b c Hk). by rewrite (done_bundles _ _ Hb x). }
  split.
  - constructor. intros Hu. rewrite Hup, <- Hc in Hu.
    destruct (bu_current _ (wf_bundle _ Hwf') b Hu) as [_ Hn].
    rewrite (proj2 (Hd b)) in Hn; [done|by left].
  - split; cbn [Link.up Link.shut Link.last Link.held Link.retired Link.retire_b];
      [done|congruence..|lia| |congruence|].
    + intros x Hx. by apply Hs, Hm.
    + intros x. rewrite Hd, <- Hr. set_solver.
Qed.

Lemma done_dialled b c x :
  b = fresh_id c → wf c → bundle_done x (Client (current c) (connChanged c) (chans c) (closed c) (ctxDone c) (tunClosed c)
       (<[b := newBundle]> (bundles c)) (S b) (maintain c) (inbound c) (keepalive c)
       (outbound c) (closer c)) = bundle_done x c.
Proof.
  intros -> Hwf. unfold bundle_done. cbn. destruct (decide (fresh_id c = x)) as [<-|]; [|by rewrite lookup_insert_ne].
  rewrite lookup_insert_eq. destruct (bundles c !! fresh_id c) as [y|] eqn:E; [|done].
  pose proof (bu_fresh _ (wf_bundle _ Hwf) (fresh_id c) ltac:(by rewrite E)). lia.
Qed.

(** What the steps of each goroutine do to the link. *)
Definition simulated (l : label) (c c' : client) (s : Link.link) : Prop :=
  ∃ s', Link.step (act_of l c c') s s' ∧ refines c' s'.

Lemma refines_clear ok b c c' s :
  refines c s → wf c' → maintain c = MClear b → maintain_step ok c = Some (Ok c') →
  simulated (Maintain ok) c c' s.
Proof.
  intros Hr Hwf' Hm Hs. pose proof Hr as [Hwf Hup Hsh Hl Hset Hh Hre].
  unfold simulated, act_of, maintain_step in *. rewrite Hm in *. injection Hs as Hs.
  apply bind_Ok in Hs as (c1 & H & [= <-]). apply clearCurrent_cases in H as [[-> Hne]|[Heq H]].
  - rewrite decide_False by done. exists s. split; [constructor|]. by eapply refines_same; [done..|cbn; lia| | |].
  - rewrite decide_True by done.
    apply change_chan in H as (_ & _ & Hf & _ & _ & Hb & _ & _ & _ & Ho & _ & Hc & Hcl); [|apply Hwf].
    eexists. split; [constructor; congruence|]. split; cbn; try (done || congruence || lia).
    + rewrite Hh. unfold in_hand. cbn. by rewrite Ho.
    + intros x. rewrite Hre. by rewrite (done_bundles c (set_maintain (MCloseB b) c1)).
Qed.

Lemma refines_set ok b c c' s :
  refines c s → wf c' → maintain c = MSet b → maintain_step ok c = Some (Ok c') →
  simulated (Maintain ok) c c' s.
Proof.
  intros Hr Hwf' Hm Hs. pose proof Hr as [Hwf Hup Hsh Hl Hset Hh Hre].
  unfold simulated, act_of, maintain_step in *. rewrite Hm in *. injection Hs as Hs.
  apply bind_Ok in Hs as ([set c1] & H & [= <-]).
  apply setCurrent_cases in H as [(-> & -> & _)|(-> & Hcl0 & _ & H)].
  - exists s. split; [constructor|]. by eapply refines_same; [done..|cbn; lia| | |].
  - apply change_chan in H as (_ & _ & Hf & _ & _ & Hbs & _ & _ & _ & Ho & _ & Hc & Hcl); [|apply Hwf].
    assert (Hnone : current c = None).
    { destruct (current c) as [x|] eqn:Hx; [|done].
      destruct (bu_current _ (wf_bundle _ Hwf) x Hx) as [[?|?] _]; congruence. }
    cbn [maintain set_maintain]. eexists. split; [constructor; [congruence..|by apply Hset]|].
    assert (Hb : b < fresh_id c).
    { apply (bu_fresh _ (wf_bundle _ Hwf)). apply (bu_known _ (wf_bundle _ Hwf)). left. by rewrite Hm. }
    split; cbn; try (done || congruence || lia).
    + rewrite Hh. unfold in_hand. cbn. by rewrite Ho.
    + intros x. rewrite Hre. by rewrite <- (done_bundles c c1 Hbs x).
Qed.

Lemma refines_maintain ok c c' s :
  refines c s → wf c' → maintain_step ok c = Some (Ok c') → simulated (Maintain ok) c c' s.
Proof.
  intros Hr Hwf' Hs. destruct (maintain c) as [b|b|b|b| | | |b|b|] eqn:Hm;
    [|by eapply refines_clear| | | | | |by eapply refines_set| |by unfold maintain_step in Hs; rewrite Hm in Hs].
  3-6: unfold simulated, act_of; rewrite Hm; exists s; split; [constructor|]; pose proof Hr as [Hwf _ _ _ _ _ _];
    unfold maintain_step in Hs; rewrite Hm in Hs; step_cases Hs;
    (eapply refines_same; [exact Hr|done|done|done|cbn; lia| |done|]);
    try (intros b0 Hb0; cbn in Hb0; repeat case_match; first [discriminate Hb0|injection Hb0 as <-; by right]);
    try done; intros x; exact (done_dialled _ _ x eq_refl Hwf).
  - unfold simulated, act_of. rewrite Hm. exists s. split; [constructor|].
    unfold maintain_step in Hs. rewrite Hm in Hs. step_cases Hs;
      (eapply refines_same; [exact Hr|done|done|done|cbn; lia|done|done|]); try done. by apply done_on.
  - unfold simulated, act_of. rewrite Hm. exists (Link.retire_b b s). pose proof Hr as [Hwf _ _ _ _ _ _].
    unfold maintain_step in Hs. rewrite Hm in Hs. injection Hs as <-.
    eapply refines_close; [exact Hr|done| |done|done|done|cbn; lia|done|done].
    apply (bu_known _ (wf_bundle _ Hwf)). left. by rewrite Hm.
  - unfold simulated, act_of. rewrite Hm. exists (Link.retire_b b s). pose proof Hr as [Hwf _ _ _ _ _ _].
    unfold maintain_step in Hs. rewrite Hm in Hs. injection Hs as <-.
    eapply refines_close; [exact Hr|done| |done|done|done|cbn; lia|done|done].
    apply (bu_known _ (wf_bundle _ Hwf)). left. by rewrite Hm.
Qed.

Lemma refines_hold h c c' s :
  refines c s → wf c' → current c' = current c → closed c' = closed c → fresh_id c' = fresh_id c →
  maintain c' = maintain c → in_hand c' = h → (∀ b, bundle_done b c' = bundle_done b c) →
  refines c' (Link.hold h s).
Proof.
  intros [Hwf Hup Hsh Hl Hs Hh Hr] Hwf' Hc Hcl Hf Hm Hi Hd.
  split; cbn; try (done || congruence || lia); [intros b; rewrite Hm; apply Hs|]. intros b. by rewrite Hd.
Qed.

Lemma refines_outbound ok c c' s :
  refines c s → wf c' → outbound_step ok c = Some (Ok c') → simulated (Outbound ok) c c' s.
Proof.
  intros Hr Hwf' Hs. pose proof Hr as [Hwf Hup Hsh Hl Hset Hh Hre].
  unfold simulated, act_of. unfold outbound_step in Hs.
  assert (Htau : ∀ x, c' = set_outbound x c → in_hand c' = in_hand c → refines c' s).
  { intros x Hx Hi. eapply refines_same; [exact Hr|done|subst c'; cbn; auto..|exact Hi|by subst c']. }
  destruct (outbound c) as [| |ch|b|b|] eqn:Ho; [| | | | |done].
  - exists s. split; [constructor|]. step_cases Hs; eapply Htau; try reflexivity; unfold in_hand; by rewrite Ho.
  - destruct (closed c); [injection Hs as <-; exists s; split; [constructor|]; eapply Htau; [done|]; unfold in_hand; by rewrite Ho|].
    destruct (current c) as [x|] eqn:Hx; injection Hs as <-.
    + eexists. split; [constructor; [congruence|by rewrite Hh; unfold in_hand; rewrite Ho]|].
      by eapply refines_hold.
    + exists s. split; [constructor|]. eapply Htau; [done|]. unfold in_hand. by rewrite Ho.
  - exists s. split; [constructor|]. step_cases Hs; eapply Htau; try reflexivity; unfold in_hand; by rewrite Ho.
  - assert (Hhb : Link.held s = Some b) by (rewrite Hh; unfold in_hand; by rewrite Ho).
    injection Hs as <-. destruct (ok && negb (bundle_done b c)) eqn:Hw; cbn [outbound set_outbound].
    + apply andb_true_iff in Hw as [_ Hw]. apply negb_true_iff in Hw. eexists. split.
      * constructor; [done|]. rewrite Hre. by rewrite Hw.
      * by eapply refines_hold.
    + eexists. split; [by constructor|]. by eapply refines_hold.
  - injection Hs as <-. exists s. split; [constructor|].
    eapply refines_same; [exact Hr|done|done|done|cbn; lia|by left|unfold in_hand; by rewrite Ho|].
    intros x. apply (done_on fail b c). apply fail_done.
Qed.

Lemma refines_closer c c' s :
  refines c s → wf c' → close_step c = Some (Ok c') → simulated CloseCall c c' s.
Proof.
  intros Hr Hwf' Hs. pose proof Hr as [Hwf Hup Hsh Hl Hset Hh Hre].
  unfold simulated, act_of. unfold close_step in Hs. destruct (closer c) as [|b|b| | |] eqn:Hc; [| | | | |done].
  - injection Hs as Hs. apply bind_Ok in Hs as (c1 & H & [= <-]).
    apply change_chan in H as (_ & _ & Hf & _ & _ & Hb & Hm & _ & _ & Ho & _ & Hcur & Hcl); [|apply Hwf].
    eexists. split; [constructor|].
    + rewrite Hsh. destruct (closed c) eqn:E; [|done].
      by destruct (proj1 (cl_closed _ (wf_close _ Hwf)) E).
    + split; cbn; try (done || congruence || lia).
      * intros b. rewrite Hm. apply Hset.
      * rewrite Hh. unfold in_hand. cbn. by rewrite Ho.
      * intros x. rewrite Hre. by rewrite <- (done_bundles c c1 Hb x).
  - injection Hs as <-. exists s. split; [constructor|].
    by eapply refines_same; [exact Hr|done|done|done|cbn; lia|by left|done|].
  - injection Hs as <-. destruct b as [b|].
    + exists (Link.retire_b b s).
      eapply refines_close; [exact Hr|done| |done|done|done|cbn; lia|done|done].
      apply (bu_closer _ (wf_bundle _ Hwf)). by right.
    + exists s. split; [constructor|]. by eapply refines_same; [exact Hr|done|done|done|cbn; lia|by left|done|].
  - injection Hs as <-. exists s. split; [constructor|].
    by eapply refines_same; [exact Hr|done|done|done|cbn; lia|by left|done|].
  - exists s. split; [constructor|]. step_cases Hs.
    by eapply refines_same; [exact Hr|done|done|done|cbn; lia|by left|done|].
Qed.

Lemma refines_step l c c' s :
  refines c s → step l c = Some (Ok c') → simulated l c c' s.
Proof.
  intros Hr Hs. pose proof (h2c_step l c c' (re_wf _ _ Hr) Hs) as Hwf'.
  destruct l as [ok|r|ok|ok|]; cbn [step] in Hs.
  - by apply refines_maintain.
  - exists s. split; [constructor|]. unfold inbound_step in Hs.
    step_cases Hs; (eapply refines_same; [exact Hr|done|done|done|cbn; lia|by left|done|]); try done;
      apply done_on, fail_done.
  - exists s. split; [constructor|]. unfold keepalive_step in Hs.
    step_cases Hs; (eapply refines_same; [exact Hr|done|done|done|cbn; lia|by left|done|]); try done;
      apply done_on, fail_done.
  - by apply refines_outbound.
  - by apply refines_closer.
Qed.

Lemma refines_start : refines start Link.init.
Proof.
  split; cbn; [apply h2c_start|done..|lia|done|done|]. intros b. unfold bundle_done. cbn.
  destruct (decide (b = 0)) as [->|]; [rewrite lookup_singleton_eq|rewrite lookup_singleton_ne by done]; set_solver.
Qed.

(** C17: The client refines the link.  Whatever its goroutines do, their steps are the
    actions of a link that is up on the client's current connection and shut when the
    client is closed: a connection is current at most once, each later than the last,
    and is closed only when it is not the current one.  A packet that is sent goes to
    the connection that was current when the pump last took one, which has not been
    closed since; between taking and sending the client may lose that connection or be
    closed, but no other packet is under way.  So after [Close] no connection is made
    and no packet taken, and at most the one already taken is sent. *)
Theorem h2_client_refines_link acts c :
  trace start acts c →
  (∃ s, Link.run Link.init acts s ∧ Link.up s = current c ∧ Link.shut s = closed c ∧ Link.held s = in_hand c) ∧
  StronglySorted lt (0 :: omap Link.connected acts) ∧
  (∀ before after b, acts = before ++ Link.Retire b :: after →
     ∃ s, Link.run Link.init before s ∧ Link.up s ≠ Some b) ∧
  (∀ before after b, acts = before ++ Link.Send b :: after →
     Link.Retire b ∉ before ∧
     ∃ taken since, before = taken ++ Link.Take b :: since ∧
       Forall (λ a, ¬ Link.of_packet a) since ∧ ∃ s, Link.run Link.init taken s ∧ Link.up s = Some b) ∧
  (∀ before after, acts = before ++ Link.Shut :: after →
     Forall (λ a, ¬ Link.starts a) after ∧ length (filter Link.sends after) <= 1).
Proof.
  intros Ht.
  assert (Hsim : ∃ s, Link.run Link.init acts s ∧ refines c s).
  { remember start as c0 eqn:Hc0. induction Ht as [c|c acts c' l c'' Ht IH Hs]; subst.
    - exists Link.init. split; [constructor|apply refines_start].
    - destruct (IH eq_refl) as (s & Hrun & Hr). destruct (refines_step l c' c'' s Hr Hs) as (s' & Hs' & Hr').
      exists s'. split; [by eapply Link.link_run_snoc|done]. }
  destruct Hsim as (s & Hrun & Hr). split_and!.
  - exists s. split; [done|]. by destruct Hr.
  - by apply Link.run_increasing in Hrun.
  - intros before after b ->. apply Link.run_app in Hrun as (m & Hb & Ha). exists m. split; [done|].
    inversion Ha as [|? ? ? ? ? Hst]; subst. by inversion Hst.
  - intros before after b ->. apply Link.run_app in Hrun as (m & Hb & Ha).
    inversion Ha as [|? ? ? ? ? Hst]; subst. inversion Hst as [| |? ? Hh Hn| | | | |]; subst.
    destruct (Link.run_held before m Hb) as [Hheld Hret]. split; [by intros ?%Hret|]. by apply Hheld.
  - intros before after ->. apply Link.run_app in Hrun as (m & Hb & Ha).
    inversion Ha as [|? ? ? m' ? Hst Hrest]; subst. inversion Hst; subst.
    destruct (Link.run_shut _ _ _ Hrest) as [Hq Hn]; [done..|]. split; [done|].
    cbn in Hn. case_match; lia.
Qed.

(** The actions of given steps. *)
Fixpoint actions (c : client) (ls : list label) : option (list Link.act * client) :=
  match ls with
  | [] => Some ([], c)
  | l :: ls =>
      match step l c with
      | Some (Ok c') => '(acts, c'') ← actions c' ls; Some (act_of l c c' :: acts, c'')
      | _ => None
      end
  end.

Lemma actions_trace ls : ∀ c0 acts0 c acts c',
  trace c0 acts0 c → actions c ls = Some (acts, c') → trace c0 (acts0 ++ acts) c'.
Proof.
  induction ls as [|l ls IH]; intros c0 acts0 c acts c' Ht H; cbn [actions] in H.
  - injection H as <- <-. by rewrite app_nil_r.
  - destruct (step l c) as [[c1|[]|]|] eqn:Hs; try done.
    apply bind_Some in H as ([acts1 c2] & H1 & [= <- <-]).
    change (act_of l c c1 :: acts1) with ([act_of l c c1] ++ acts1). rewrite app_assoc.
    eapply IH; [|exact H1]. by econstructor.
Qed.

(** A packet is sent; another is taken, the connection fails under it and is replaced; a
    third is taken, and sent although [Close] has begun. *)
Lemma h2_client_refines_link_witness :
  let ls := [Outbound true; Outbound true; Outbound true; Outbound true; Outbound true;
             Keepalive false; Keepalive true; Maintain true; Maintain true; Maintain true; Outbound true;
             Outbound true; Inbound ReadErr; Maintain true; Maintain true; Maintain true; Maintain true;
             Maintain true; Outbound true; Outbound true; CloseCall; Outbound true; CloseCall; CloseCall] in
  ∃ acts c, actions start ls = Some (acts, c) ∧
    filter (λ a, a ≠ Link.Tau) acts =
      [Link.Take 0; Link.Send 0; Link.Take 0; Link.Lose; Link.Retire 0; Link.Drop 0;
       Link.Connect 3; Link.Take 3; Link.Shut; Link.Send 3; Link.Retire 3] ∧
    StronglySorted lt (0 :: omap Link.connected acts) ∧ current c = None.
Proof.
  intros ls. destruct (actions start ls) as [[acts c]|] eqn:Ha; [|by vm_compute in Ha].
  exists acts, c. split; [done|].
  destruct (h2_client_refines_link acts c) as (_ & Hs & _).
  { change acts with ([] ++ acts). eapply actions_trace; [constructor|exact Ha]. }
  vm_compute in Ha. injection Ha as <- <-. split; [by vm_compute|]. split; [exact Hs|done].
Defined.
