(* ===== verification/SelfTest.v ===== *)
(** * The self-test (src/main.go)

    What [runSOCKSSelfTest] makes of the answer to its request, and the three attempts
    [main] makes.  The request itself goes through the proxy: its result is a
    parameter. *)

From Stdlib Require Import Init.Byte.
From S2P Require Import Prelude GoNet GoText.

(** ** Text *)

(** [strings.Split(s, sep)] with a separator of one byte. *)
Fixpoint Split (s : gostring) (sep : byte) : list gostring :=
  match s with
  | [] => [[]]
  | c :: s =>
      if decide (c = sep) then [] :: Split s sep
      else match Split s sep with l :: ls => (c :: l) :: ls | [] => [[c]] end
  end.

(** [strings.Cut(s, sep)] with a separator of one byte; [None] if it is not found. *)
Definition Cut (s : gostring) (sep : byte) : option (gostring * gostring) :=
  i ← index_byte sep s; Some (take i s, drop (S i) s).

(** ** One test *)

(** The answer: the status and the body, and whether reading it ends in an error. *)
Inductive get_result := GetFailed | Got (status : Z) (body : gostring) (broken : bool).

Inductive test_error := RequestError | ReadError | TraceStatus (code : Z) | NotConfirmed.

Definition traceLimit : nat := Z.to_nat 65536.

(** The map [values] after the loop over the lines. *)
Definition values (body : gostring) : gmap gostring gostring :=
  foldl (λ m line,
    match Cut line x3d with
    | Some (key, value) => <[key := TrimSpace value]> m
    | None => m
    end) ∅ (Split body x0a).

(** [io.ReadAll(io.LimitReader(resp.Body, 64<<10))]: an error behind the limit is not
    seen. *)
Definition readTrace (body : gostring) (broken : bool) : option gostring :=
  if broken && bool_decide (length body < traceLimit) then None else Some (take traceLimit body).

Definition runSOCKSSelfTest (answer : get_result) : outcome test_error unit :=
  match answer with
  | GetFailed => Err RequestError
  | Got status body broken =>
      match readTrace body broken with
      | None => Err ReadError
      | Some body =>
          _ ← require (bool_decide (status = 200%Z)) (TraceStatus status);
          let warp := default [] (values body !! str "warp") in
          if negb (bool_decide (warp = str "on")) && negb (bool_decide (warp = str "plus"))
          then Err NotConfirmed else Ok ()
      end
  end.

(** ** The attempts *)

(** An attempt's answer, and whether the context is done before the pause after it is
    over. *)
Definition attempt : Type := get_result * bool.

(** The errors logged, and whether the last one is logged as the result. *)
Fixpoint selfTestLoop (n : nat) (attempts : list attempt) (testErr : option test_error)
    : list test_error * option test_error :=
  match n, attempts with
  | S n, (answer, interrupted) :: attempts =>
      match runSOCKSSelfTest answer with
      | Err e =>
          if interrupted : bool then ([e], None)
          else let '(logged, result) := selfTestLoop n attempts (Some e) in (e :: logged, result)
      | _ => ([], None)
      end
  | _, _ => ([], testErr)
  end.

Definition selfTest (attempts : list attempt) : list test_error * option test_error :=
  selfTestLoop 3 attempts None.
