(* ===== verification/SelfTestFacts.v ===== *)
(** * What the self-test confirms *)

From Stdlib Require Import Init.Byte.
From S2P Require Import Prelude GoNet GoText SelfTest.

(** The value of a line with the key. *)
Definition line_value (key line : gostring) : option gostring :=
  match Cut line x3d with
  | Some (k, v) => if decide (k = key) then Some (TrimSpace v) else None
  | None => None
  end.

(** The last line with a key gives its value. *)
Lemma values_last (key : gostring) (lines : list gostring) (m : gmap gostring gostring) :
  foldl (λ m line, match Cut line x3d with
                   | Some (k, v) => <[k := TrimSpace v]> m
                   | None => m
                   end) m lines !! key =
  match last (omap (line_value key) lines) with Some v => Some v | None => m !! key end.
Proof.
  revert m. induction lines as [|line lines IH]; intros m; [done|]. cbn [foldl omap list_omap].
  rewrite IH. unfold line_value at 2. destruct (Cut line x3d) as [[k v]|]; [|done].
  case_decide as Hk.
  - subst k. destruct (omap (line_value key) lines) as [|x l]; cbn [last]; [by rewrite lookup_insert_eq|].
    by destruct (last (x :: l)) eqn:Hl; [|apply last_None in Hl].
  - by rewrite lookup_insert_ne.
Qed.

(** The error of an attempt. *)
Definition error_of (a : attempt) : option test_error :=
  match runSOCKSSelfTest (fst a) with Err e => Some e | _ => None end.

Lemma selfTestLoop_failures n pre rest te :
  Forall (λ a, is_Some (error_of a) ∧ snd a = false) pre → length pre <= n →
  selfTestLoop n (pre ++ rest) te =
  let '(logged, result) := selfTestLoop (n - length pre) rest
                             (match last (omap error_of pre) with Some e => Some e | None => te end) in
  (omap error_of pre ++ logged, result).
Proof.
  intros Hp. revert n te. induction Hp as [|[answer b] pre [[e He] Hb] _ IH]; intros n te Hn.
  { cbn. rewrite Nat.sub_0_r. by destruct (selfTestLoop n rest te). }
  cbn [snd] in Hb. subst b. destruct n as [|n]; [cbn in Hn; lia|]. cbn [length] in Hn.
  cbn [app selfTestLoop omap list_omap]. rewrite He. unfold error_of in He. cbn [fst] in He.
  destruct (runSOCKSSelfTest answer) as [|e'|] eqn:Hr; [done| |done]. injection He as ->.
  rewrite IH by lia. cbn [length Nat.sub].
  assert (Hl : ∀ o, match last (e :: omap error_of pre) with Some e0 => Some e0 | None => o end =
               match last (omap error_of pre) with Some e0 => Some e0 | None => Some e end).
  { intros o. destruct (omap error_of pre) as [|x l]; [done|]. cbn [last].
    by destruct (last (x :: l)) eqn:Hx; [|apply last_None in Hx]. }
  rewrite Hl. by destruct (selfTestLoop (n - length pre) rest _).
Qed.

Lemma length_failures pre :
  Forall (λ a, is_Some (error_of a) ∧ snd a = false) pre → length (omap error_of pre) = length pre.
Proof.
  induction 1 as [|a pre [[e He] _] _ IH]; [done|]. cbn [omap list_omap]. rewrite He. cbn. by rewrite IH.
Qed.

(** The self-test succeeds exactly if the trace was answered with status 200 and
    read without an error within its first 64 KiB, and the last line there whose key is
    [warp] has the value [on] or [plus], white space aside. *)
Theorem self_test_confirms answer :
  runSOCKSSelfTest answer ≠ Panic ∧
  (runSOCKSSelfTest answer = Ok () ↔
   ∃ body broken v, answer = Got 200 body broken ∧
     (broken = true → traceLimit <= length body) ∧
     last (omap (line_value (str "warp")) (Split (take traceLimit body) x0a)) = Some v ∧
     v ∈ [str "on"; str "plus"]).
Proof.
  assert (Hval : ∀ text, values text !! str "warp" =
    last (omap (line_value (str "warp")) (Split text x0a))).
  { intros text. unfold values. rewrite values_last. by destruct (last _). }
  destruct answer as [|status body broken].
  { split; [done|]. split; [done|]. by intros (? & ? & ? & ? & _). }
  unfold runSOCKSSelfTest, readTrace.
  destruct (broken && bool_decide (length body < traceLimit)) eqn:Hb.
  { split; [done|]. split; [done|]. intros (body' & broken' & v & [= _ <- <-] & Hlim & _). exfalso.
    apply andb_true_iff in Hb as [-> Hb]. apply bool_decide_eq_true in Hb. specialize (Hlim eq_refl). lia. }
  rewrite Hval. unfold require.
  destruct (decide (status = 200%Z)) as [->|Hst];
    [rewrite (bool_decide_eq_true_2 (200 = 200)%Z) by done
    |rewrite (bool_decide_eq_false_2 (status = 200)%Z) by done]; cbn [mbind outcome_bind].
  2:{ split; [done|]. split; [done|]. intros (? & ? & ? & Heq & _). by injection Heq. }
  set (o := last _).
  assert (Hlim : broken = true → traceLimit <= length body).
  { intros ->. cbn in Hb. apply bool_decide_eq_false in Hb. lia. }
  assert (Hw : (negb (bool_decide (default [] o = str "on")) && negb (bool_decide (default [] o = str "plus"))) = false
    ↔ ∃ v, o = Some v ∧ v ∈ [str "on"; str "plus"]).
  { rewrite andb_false_iff, !negb_false_iff, !bool_decide_eq_true. destruct o as [v|]; cbn [default].
    - unfold id. split.
      + intros Hv. exists v. split; [done|]. rewrite !elem_of_cons. tauto.
      + intros (w & [= <-] & Hin). rewrite !elem_of_cons, elem_of_nil in Hin. tauto.
    - split; [by intros [?|?]|by intros (? & ? & _)]. }
  destruct (negb _ && negb _) eqn:Hc; cbv iota.
  - split; [done|]. split; [done|]. intros (body' & broken' & v & [= <- <-] & _ & Hv & Hin). exfalso.
    assert (Hf : true = false) by by apply Hw; exists v. done.
  - split; [done|]. split; [|done]. intros _. destruct (proj1 Hw eq_refl) as (v & Hv & Hin).
    by exists body, broken, v.
Qed.

(** The loop logs the failures before a success, and ends with it; three failures end it
    with the last one. *)
Lemma self_test_attempts pre answer rest b :
  Forall (λ a, is_Some (error_of a) ∧ snd a = false) pre → length pre <= 3 →
  (length pre < 3 → runSOCKSSelfTest answer = Ok () →
   selfTest (pre ++ (answer, b) :: rest) = (omap error_of pre, None)) ∧
  (length pre = 3 → selfTest (pre ++ rest) = (omap error_of pre, last (omap error_of pre))).
Proof.
  intros Hp Hl. unfold selfTest. split.
  - intros Hlt Hok. rewrite selfTestLoop_failures by (done || lia).
    destruct (3 - length pre) as [|k] eqn:Hk; [lia|]. cbn [selfTestLoop]. rewrite Hok. by rewrite app_nil_r.
  - intros H3. rewrite selfTestLoop_failures by (done || lia). rewrite H3. cbn.
    rewrite app_nil_r. by destruct (last _).
Qed.
